(* ===== verification/_CoqProject ===== *)
-Q . S2P
Prelude.v
Memory.v
Layout.v
Prog.v
Records.v
Owner.v
SpscRing.v
RingWriter.v
OneConsumer.v
MpscRing.v
MpmcRing.v
ManyConsumers.v
Solo.v
Progress.v
Mapping.v
SpscQueue.v
SharedLatest.v
WaitFree.v
QueueRestart.v
Recovery.v
Futex.v
Attach.v
MemorySafety.v
Subscriber.v
IpcAdapter.v
LatestSubscriber.v
TypedMessage.v
BenchData.v
Workload.v
Bench.v
BenchQueue.v
BenchLocked.v
BenchFixtures.v
BenchFixed.v
BenchLatest.v
BenchHandoff.v
BenchPingPong.v
Tests.v
WeakMemory.v
WeakChannel.v
WeakTransfer.v
WeakQueue.v
WeakRing.v
WeakShared.v
WeakLatest.v
