(* ===== verification/Prelude.v ===== *)
(** * lock-free-ring-buf: a verification development

    The repository is a C++20 library of lock-free queues that live in memory
    mapped from a file and shared between processes, with benchmark programs
    that drive them.  This development models the library (include/lf_ring and
    src) and its benchmark clients (bench), and proves what makes them correct,
    and where they are not, what goes wrong.

    ** The program and its model

    Every object of the library is a mapped file that starts with a header,
    followed by a control block of five cache-line padded 64-bit atomics
    (head_reserve, head_publish, tail_reserve, tail_publish, sequence) and by a
    byte ring.  The files of the development, in dependency order:

    - [Prelude]: unsigned arithmetic at its width ([u64], [add64], [sub64], ...),
      bytes and little-endian encoding, tactics and hint databases.
    - [Memory]: byte arrays, bounds-checked reads and writes, circular
      addressing ([rbyte], [rbytes]).
    - [Layout]: ring_layout.hpp: constants, [align_up], [Header],
      [RecordHeader], [ControlBlock], region sizes.
    - [Prog]: programs as trees of shared-memory accesses ([prog]), one step
      ([step1]), sequential runs ([eval], [run]), interleavings of any number of
      threads ([cnext], [crun], [creach]), and a rely-guarantee logic for them
      ([wp], [rg_sound]).  The wake-up of futex waiters is an access of its own
      ([WakeAll]) that changes nothing in the mapped memory.
    - [Records]: record headers in the ring, the segments of records and padding
      between head and tail ([seg]), the calls [OPush] and [OPop] and their
      histories.
    - [Owner]: what a ring promises to a thread that fills or reads a stretch of
      it (classes [RingOwner], [RingReader], [RingConsumer]) and the pop loop
      that SPSC and MPSC share.
    - [SpscRing], [MpscRing], [MpmcRing]: shared_ring_buffer_spsc.cpp,
      shared_ring_buffer.cpp, shared_ring_buffer_mpmc.cpp; [RingWriter]:
      ring_writer.hpp, the push that MPSC and MPMC share; [OneConsumer]: what
      the two promise their clients when a single thread pops; [ManyConsumers]:
      the MPMC ring with any number of consumers.  Each [try_push]
      and [try_pop] is a [prog], one access per atomic operation, header member
      or payload byte of the source, one [Ret None] per [continue].
    - [Solo]: the same operations run without interference, against the contract
      [RingQueue] of a queue of numbered messages; [Progress]: how a
      configuration with calls under way gets to one without.
    - [Mapping]: shared_memory_mapping.cpp over an abstract operating system
      ([Syscalls] with the laws [Posix]): [create_mapping], [open_mapping],
      [Mapping::reset], moves.
    - [SpscQueue]: spsc_queue.hpp, [SharedLatest]: shared_latest.hpp (seqlock,
      heartbeat, takeover); [WaitFree]: the number of accesses of their calls;
      [QueueRestart]: the death of a queue's producer inside a push; [Recovery]: several processes that take over one slot at a time.
    - [Futex]: futex.hpp and wait_for_update over an abstract kernel ([Kernel]
      with the laws [FutexManual]); readers that wait, interleaved with the programs
      of SharedLatest, whose [WakeAll] is the kernel's.
    - [Attach]: create, open and claim of the rings and slots: accesses to the
      memory behind a mapping of a file.
    - [MemorySafety]: the objects that opening a file yields, whatever the file
      contains, and the bounds of every access of their calls.
    - [Subscriber]: the polling threads of SpscSubscriber and
      SpscByteSubscriber of ipc_adapter.hpp, with their controller and their
      publisher, against the interface [Channel] that both queues implement.
    - [IpcAdapter]: topic paths and constructors of ipc_adapter.hpp;
      [LatestSubscriber]: its SharedLatestSubscriber, thread and controller.
    - [TypedMessage]: typed_message.hpp: codecs, typed writer and reader over
      the [RingQueue] contract.
    - [BenchData]: paths, payloads and structures of the benchmark programs;
      [Workload]: threads that repeat calls a fixed number of times, on top of
      any component's interleavings.
    - [Bench]: the ring benchmarks of benchmark_ring_buffer.cpp and the reference
      queue [LockedQueue]; [BenchQueue]: benchmarks of queues given by a contract
      ([QueueObject], [QueueContract]), those of benchmark_boost_lockfree.cpp;
      [BenchLocked]: [LockedQueue] access by access under its mutex;
      [BenchFixed], [BenchLatest]: the benchmarks of SPSCQueue and SharedLatest in
      all three programs; [BenchHandoff], [BenchPingPong]: the spinning and the
      futex handoff of benchmark_futex.cpp; [BenchFixtures]: the static objects of
      the three programs, from their temporary files to the end of the process.
    - [Tests]: the single-threaded tests of tests/, run on the model.
    - [WeakMemory]: the same programs on release/acquire memory, where every
      atomic keeps its whole history, a load returns any value its thread has not
      yet seen overwritten, and an unordered plain access is an error ([wstep1],
      [wreach], [wrg_sound]); [WeakChannel]: the invariant of producers that claim and
      publish stretches, and of one consumer, there; [WeakTransfer]: how the
      rely-guarantee proofs of a component, with one producer or with several,
      carry over to it (class [ChannelSystem]); [WeakRing], [WeakQueue],
      [WeakShared], [WeakLatest]: the SPSC ring, SPSCQueue, the MPSC and MPMC rings
      with one consumer, and SharedLatest, with the memory orders of their
      sources.

    ** What is proved

    - Concurrency, in every interleaving (C1, C3, C4, C6, C12, C15, C19-C21): the SPSC
      ring and the SPSC queue deliver the pushed messages in order, once, intact;
      the MPSC ring and the MPMC ring with one consumer deliver the messages of any
      number of producers, and nothing else, in one global order that respects
      each producer's; so does the MPMC ring with any number of consumers, split
      between them, as long as no consumer takes the last published bytes (C6),
      and without that condition it can deliver a message that nobody sent (C40);
      a pop that finds nothing has seen every push that returned before it
      started, and an SPSC queue that refuses a push is full; seqlock snapshots
      are never torn and never go back.
    - Memory orders (C2, C5, C14, C16, C31): on release/acquire memory the SPSC
      ring, the SPSC queue, and the MPSC and MPMC rings with any number of producers
      and one consumer, with the orders of the source, still deliver what was
      pushed, in order, once and intact, and have no data race; the queue is free of
      races exactly when none of its four orders is relaxed; the orders of SharedLatest do not suffice there: a
      reader can accept a torn snapshot.
    - Progress (C7, C32): producers that wait for each other and the consumer
      cannot deadlock, whatever access each has reached; the calls of the SPSC
      queue (and of the slot, [shared_latest_wait_free]) end within a stated
      number of their own accesses, whatever the other threads do.
    - Memory safety (C8): with arbitrary values in the shared memory and any mix of
      calls no access leaves the ring, provided that the offsets in the header
      neither wrap nor overlap, a ring is not empty and a slot is not smaller than
      its type; the code does not check the last two, and both are needed.
    - Sequential behaviour (C9-C11, C13, C17): every call ends within two loop
      iterations plus one per spurious compare-exchange failure, with the result
      of an abstract queue; when exactly a push is refused.
    - Files and ownership (C25-C27, [move_assign_ownership]): creation and opening
      in every outcome of the system calls, round trip, mode check, each resource
      released once.
    - Takeover after a crash (C18, C22-C24, [spsc_claim_existing],
      [dead_writer_read]): a producer may die at any point of
      a push and the next claim finds every accepted message; an SPSC queue survives
      the death of its producer; at most one of the processes that race to recover a
      slot wins; the outcomes of claiming a slot, and of reading one whose writer is
      dead.
    - Clients (C28-C30, C37-C39, [latest_value_reported]): the subscribers deliver
      in order, none lost by stop; stop returns; what a typed reader returns for a
      typed message, unchanged unless its buffer is longer than the message; no
      futex notification is missed by a wait with a timeout that is not negative;
      the latest-value subscriber reports only published values, in order.
    - Benchmarks (C33-C36, [mpsc_benchmarks_deliver], [queue_benchmarks_complete],
      [rw_benchmark_reads], [fixtures_lifecycle]): as long as no push is refused, sequences of calls on
      the rings and on the mutex-based queue they are compared with give the same
      results; the mutex-based queue is linearizable; the concurrent programs
      transfer what they count, those on the fixed-size queue, the mutex-based
      queue and the Boost queues can always run to their end, and the readers of
      the slot benchmarks read what was written; the spinning handoff alternates
      strictly, the futex handoff does not ([futex_handoff_unpaired]); every static
      object is fresh, has a file of its own and is released at exit.
    - Agreement with the tests ([tests_pass]): the 41 tests that need no second
      thread pass on the model and leave nothing behind.
    - Behaviours that contradict the documentation or lose data: C8, C16, C40, and
      theorems beside the components for the others (refusal by an empty ring,
      wrapping sizes, a slot opened for a larger type, a ring of no bytes, sequence numbers that repeat
      after recovery, stale bytes after a longer message, colliding topic names, a
      lost latest value, the futex handoff), each by a concrete schedule or for all
      states.

    ** Choices

    - A 64-bit access is atomic.  Outside the [Weak] files the interleaving is
      sequentially consistent and the memory orders of the source are not
      distinguished.
    - In the [Weak] files a memory is a list of messages per atomic, each with the
      view its writer released; stores are appended (the modification order is the
      order of execution), loads do not read from the future, and a plain access
      that does not see every earlier conflicting one is recorded as a data race
      ([wc_race]).
    - [std::memcpy] of payloads is one access per byte; record headers are read
      and written one member at a time.
    - Loops: [for (;;)] bodies are single iterations that a thread restarts;
      termination theorems use [run] with an explicit number of iterations, and
      state that it suffices.  The retry loops of SharedLatest are bounded in the
      source.
    - Counters are 64-bit and wrap.  The theorems on the byte rings ask that the
      capacity divides 2^64 or that the tail does not wrap, because the source
      takes positions modulo the capacity; those on SPSCQueue need no such
      condition.  kCacheLineSize is 64.
    - A value of a trivially copyable type is its list of bytes.
    - Failed calls of [Posix] change nothing; std::filesystem::exists is a lookup
      in the directory.
    - A benchmark run on a ring or queue starts on a fresh object, after the start
      barrier, one on a slot in any state at rest; the number of iterations, which
      the framework chooses, is a parameter.
    - The queues of Boost are not in the repository: they are an argument, an
      object with atomic operations and the contract of a FIFO queue that accepts
      a value when it is empty ([bounded_buffer_contract] is an instance).

    ** Not modelled

    Release/acquire memory for several consumers of an MPMC ring, for refused
    pushes and pops, and for the clients, whose theorems are about sequentially
    consistent interleavings, and executions in which a load returns a value stored later;
    condition variables beyond "may wake at any time"; the implementation of the
    Boost queues; the timing, scheduling and reporting calls of the benchmark
    programs, which are calls of the operating system and of the measuring
    framework; the tests with several threads, whose assertions are instances of the
    theorems on interleavings. *)

From Stdlib Require Import ZArith Lia Strings.Byte.
From stdpp Require Import base list numbers.

#[global] Open Scope Z_scope.

(** ** Tactics and hint databases *)

(** [lia] with [/] and [mod] replaced by their defining equations. *)
Ltac dlia := Z.div_mod_to_equations; lia.

(** Turn the boolean comparisons of the context and of the goal into
    propositions over [Z]. *)
Ltac bool_to_prop :=
  repeat match goal with
  | H : (_ && _) = true |- _ => apply andb_prop in H; destruct H
  | H : (_ && _) = false |- _ => apply andb_false_iff in H
  | H : (_ || _) = false |- _ => apply orb_false_iff in H; destruct H
  | H : negb _ = true |- _ => apply negb_true_iff in H
  | H : negb _ = false |- _ => apply negb_false_iff in H
  | H : (_ <=? _) = true |- _ => apply Z.leb_le in H
  | H : (_ <=? _) = false |- _ => apply Z.leb_gt in H
  | H : (_ <? _) = true |- _ => apply Z.ltb_lt in H
  | H : (_ <? _) = false |- _ => apply Z.ltb_ge in H
  | H : (_ >? _) = true |- _ => rewrite Z.gtb_ltb in H; apply Z.ltb_lt in H
  | H : (_ >? _) = false |- _ => rewrite Z.gtb_ltb in H; apply Z.ltb_ge in H
  | H : (_ =? _) = true |- _ => apply Z.eqb_eq in H
  | H : (_ =? _) = false |- _ => apply Z.eqb_neq in H
  end.

(** Case analysis on the condition of an [if] of the goal. *)
Ltac case_if :=
  match goal with
  | |- context [if ?b then _ else _] =>
      lazymatch type of b with bool => destruct b eqn:? end
  end; bool_to_prop.

Create HintDb lfring discriminated.
Create Rewrite HintDb lfring.

(** ** Fixed-width unsigned integers *)

Definition u16 (z : Z) : Z := z mod 2 ^ 16.
Definition u32 (z : Z) : Z := z mod 2 ^ 32.
Definition u64 (z : Z) : Z := z mod 2 ^ 64.

(** Unsigned 64-bit addition, subtraction and bitwise complement. *)
Definition add64 (a b : Z) : Z := u64 (a + b).
Definition sub64 (a b : Z) : Z := u64 (a - b).
Definition not64 (a : Z) : Z := 2 ^ 64 - 1 - a.

Lemma u64_range z : 0 <= u64 z < 2 ^ 64.
Proof. apply Z.mod_pos_bound. lia. Qed.

Lemma u64_small z : 0 <= z < 2 ^ 64 -> u64 z = z.
Proof. apply Z.mod_small. Qed.

Lemma u64_u64 z : u64 (u64 z) = u64 z.
Proof. apply u64_small, u64_range. Qed.

Lemma u64_add_l a b : u64 (u64 a + b) = u64 (a + b).
Proof. unfold u64. dlia. Qed.

Lemma u64_add_r a b : u64 (a + u64 b) = u64 (a + b).
Proof. unfold u64. dlia. Qed.

Lemma u64_sub a b : u64 (u64 a - u64 b) = u64 (a - b).
Proof. unfold u64. dlia. Qed.

(** The 64-bit difference of two counters is their true distance as long as
    the distance fits in 64 bits: the free-running counter idiom. *)
Lemma sub64_u64 a b : 0 <= a - b < 2 ^ 64 -> sub64 (u64 a) (u64 b) = a - b.
Proof. intros. unfold sub64. rewrite u64_sub. by apply u64_small. Qed.

Lemma add64_u64 a b : add64 (u64 a) b = u64 (a + b).
Proof. apply u64_add_l. Qed.

(** Two counters that are less than [2^64] apart are equal when their 64-bit
    representations are. *)
Lemma u64_inj a b : 0 <= b - a < 2 ^ 64 -> u64 a = u64 b -> a = b.
Proof. unfold u64. dlia. Qed.

#[export] Hint Rewrite u64_u64 u64_add_l u64_add_r u64_sub add64_u64 : lfring.

(** [idx_ok cap n]: the counter value [n] has not been reduced modulo [2^64],
    or reducing it does not change its residue modulo the capacity. *)
Definition idx_ok (cap n : Z) : Prop := n < 2 ^ 64 \/ (cap | 2 ^ 64).

Lemma idx_ok_le cap m n : m <= n -> idx_ok cap n -> idx_ok cap m.
Proof. unfold idx_ok. intuition lia. Qed.

Lemma u64_mod cap n :
  0 < cap -> 0 <= n -> idx_ok cap n -> u64 n mod cap = n mod cap.
Proof.
  intros Hc Hn [Hs | Hd]; [by rewrite u64_small by lia |].
  unfold u64. by apply Z.mod_mod_divide.
Qed.

(** ** Bytes and little-endian scalars *)

#[export] Instance byte_eq_dec : EqDecision byte := Byte.byte_eq_dec.
#[export] Instance byte_inhabited : Inhabited byte := populate x00.

Definition Z_of_byte (b : byte) : Z := Z.of_N (Byte.to_N b).

Definition byte_of_Z (z : Z) : byte :=
  match Byte.of_N (Z.to_N (z mod 256)) with Some b => b | None => x00 end.

Lemma Z_of_byte_range b : 0 <= Z_of_byte b < 256.
Proof. unfold Z_of_byte. pose proof (Byte.to_N_bounded b). lia. Qed.

Lemma Z_of_byte_of_Z z : Z_of_byte (byte_of_Z z) = z mod 256.
Proof.
  unfold byte_of_Z. destruct (Byte.of_N _) eqn:E.
  - apply Byte.to_of_N in E. unfold Z_of_byte. rewrite E. dlia.
  - apply Byte.of_N_None_iff in E. dlia.
Qed.

Lemma byte_of_Z_of_byte b : byte_of_Z (Z_of_byte b) = b.
Proof.
  unfold byte_of_Z. rewrite Z.mod_small by apply Z_of_byte_range.
  unfold Z_of_byte. by rewrite N2Z.id, Byte.of_to_N.
Qed.

(** The object representation of an unsigned [n]-byte scalar on the
    little-endian targets of the code. *)
Fixpoint le_enc (n : nat) (z : Z) : list byte :=
  match n with
  | O => []
  | S n => byte_of_Z z :: le_enc n (z / 256)
  end.

Fixpoint le_dec (bs : list byte) : Z :=
  match bs with
  | [] => 0
  | b :: bs => Z_of_byte b + 256 * le_dec bs
  end.

Lemma length_le_enc n z : length (le_enc n z) = n.
Proof. revert z; induction n; intros; simpl; auto. Qed.

Lemma le_dec_enc n z : le_dec (le_enc n z) = z mod 256 ^ Z.of_nat n.
Proof.
  revert z; induction n as [|n IH]; intros z; simpl le_enc; simpl le_dec.
  - by rewrite Z.mod_1_r.
  - rewrite Z_of_byte_of_Z, IH, Nat2Z.inj_succ, Z.pow_succ_r by lia.
    rewrite Z.rem_mul_r; [lia | lia | apply Z.pow_pos_nonneg; lia].
Qed.

Lemma le_dec_range bs : 0 <= le_dec bs < 256 ^ Z.of_nat (length bs).
Proof.
  induction bs as [|b bs IH]; simpl le_dec; simpl length; [lia |].
  rewrite Nat2Z.inj_succ, Z.pow_succ_r by lia.
  pose proof (Z_of_byte_range b). lia.
Qed.

Lemma le_enc_dec bs : le_enc (length bs) (le_dec bs) = bs.
Proof.
  induction bs as [|b bs IH]; [done |]. cbn [length le_enc le_dec].
  pose proof (Z_of_byte_range b) as Hb. f_equal.
  - rewrite <- (byte_of_Z_of_byte b) at 2. unfold byte_of_Z.
    by replace ((Z_of_byte b + 256 * le_dec bs) mod 256)
      with (Z_of_byte b mod 256) by dlia.
  - etransitivity; [| exact IH]. f_equal. dlia.
Qed.

Lemma le_dec_zeros n : le_dec (replicate n x00) = 0.
Proof. induction n as [|n IH]; simpl; [done|]. rewrite IH. done. Qed.
