(* ===== verification/Memory.v ===== *)
(** * Byte memory

    The mapped ring region as a list of bytes, with the [memcpy]-style reads
    and writes of the code.  An access outside the region is undefined
    behaviour in C++ and is [None] here.  The second half views the region as
    a circular buffer addressed by unbounded ("logical") positions, which is
    how the head and tail counters of the code address it. *)

From Stdlib Require Import ZArith Lia Strings.Byte.
From stdpp Require Import base list numbers.
From S2P Require Import Prelude.

(** ** Bounds-checked access *)

Definition mem_read (m : list byte) (off n : Z) : option (list byte) :=
  if (0 <=? off) && (0 <=? n) && (off + n <=? Z.of_nat (length m))
  then Some (take (Z.to_nat n) (drop (Z.to_nat off) m))
  else None.

(** Overwrite the bytes at [off]. *)
Definition splice (m : list byte) (off : Z) (bs : list byte) : list byte :=
  take (Z.to_nat off) m ++ bs ++ drop (Z.to_nat off + length bs) m.

Definition mem_write (m : list byte) (off : Z) (bs : list byte) : option (list byte) :=
  if (0 <=? off) && (off + Z.of_nat (length bs) <=? Z.of_nat (length m))
  then Some (splice m off bs)
  else None.

Lemma length_splice m off bs :
  0 <= off -> off + Z.of_nat (length bs) <= Z.of_nat (length m) ->
  length (splice m off bs) = length m.
Proof.
  intros. unfold splice. rewrite !length_app, length_take, length_drop. lia.
Qed.

Lemma mem_write_Some m off bs :
  0 <= off -> off + Z.of_nat (length bs) <= Z.of_nat (length m) ->
  mem_write m off bs = Some (splice m off bs).
Proof.
  intros. unfold mem_write.
  by rewrite (proj2 (Z.leb_le _ _)), (proj2 (Z.leb_le _ _)) by lia.
Qed.

Lemma mem_read_Some m off n :
  0 <= off -> 0 <= n -> off + n <= Z.of_nat (length m) ->
  mem_read m off n = Some (take (Z.to_nat n) (drop (Z.to_nat off) m)).
Proof.
  intros. unfold mem_read.
  by rewrite !(proj2 (Z.leb_le _ _)) by lia.
Qed.

Lemma mem_read_length m off n bs :
  mem_read m off n = Some bs -> Z.of_nat (length bs) = n.
Proof.
  unfold mem_read. case_if; [|done]. intros [= <-].
  rewrite length_take, length_drop. lia.
Qed.

Lemma mem_write_length m off bs m' :
  mem_write m off bs = Some m' -> length m' = length m.
Proof.
  unfold mem_write. case_if; [|done]. intros [= <-]. apply length_splice; lia.
Qed.

(** Writing a run byte by byte is writing it at once. *)
Lemma splice_cons m off b bs :
  0 <= off -> off + Z.of_nat (S (length bs)) <= Z.of_nat (length m) ->
  splice (splice m off [b]) (off + 1) bs = splice m off (b :: bs).
Proof.
  intros Ho Hl. unfold splice. simpl length.
  replace (Z.to_nat (off + 1)) with (Z.to_nat off + 1)%nat by lia.
  set (n := Z.to_nat off). assert (n < length m)%nat by lia.
  assert (Hn : length (take n m) = n) by (rewrite length_take; lia).
  rewrite take_app_ge, drop_app_ge by lia. rewrite Hn.
  replace (n + 1 - n)%nat with 1%nat by lia.
  replace (n + 1 + length bs - n)%nat with (S (length bs)) by lia. simpl.
  rewrite take_0, drop_drop, <- app_assoc. simpl. do 4 f_equal. lia.
Qed.

(** Reading back what was written. *)
Lemma mem_read_splice m off bs :
  0 <= off -> off + Z.of_nat (length bs) <= Z.of_nat (length m) ->
  mem_read (splice m off bs) off (Z.of_nat (length bs)) = Some bs.
Proof.
  intros. rewrite mem_read_Some by (rewrite ?length_splice; lia).
  unfold splice. rewrite Nat2Z.id, drop_app_ge by (rewrite length_take; lia).
  rewrite length_take, Nat.min_l, Nat.sub_diag, drop_0 by lia.
  by rewrite take_app_length.
Qed.

(** ** Physical bytes *)

Definition mbyte (m : list byte) (i : Z) : byte := m !!! Z.to_nat i.

Lemma mbyte_splice m off bs i :
  0 <= off -> off + Z.of_nat (length bs) <= Z.of_nat (length m) -> 0 <= i ->
  mbyte (splice m off bs) i =
    if (off <=? i) && (i <? off + Z.of_nat (length bs))
    then bs !!! Z.to_nat (i - off) else mbyte m i.
Proof.
  intros Ho Hl Hi. unfold mbyte, splice. case_if.
  - rewrite lookup_total_app_r by (rewrite length_take; lia).
    rewrite lookup_total_app_l by (rewrite length_take; lia).
    f_equal. rewrite length_take. lia.
  - destruct (decide (i < off)).
    + rewrite lookup_total_app_l by (rewrite length_take; lia).
      rewrite lookup_total_take_lt by lia. done.
    + rewrite lookup_total_app_r by (rewrite length_take; lia).
      rewrite lookup_total_app_r by (rewrite length_take; lia).
      rewrite lookup_total_drop, length_take. f_equal. lia.
Qed.

(** ** The circular view *)

Section Circular.
Context (cap : Z) (Hcap : 0 < cap).

(** The byte at logical position [x]. *)
Definition rbyte (m : list byte) (x : Z) : byte := mbyte m (x mod cap).

(** The [n] bytes from logical position [a]. *)
Definition rbytes (m : list byte) (a n : Z) : list byte :=
  (fun i => rbyte m (a + Z.of_nat i)) <$> seq 0 (Z.to_nat n).

Lemma length_rbytes m a n : length (rbytes m a n) = Z.to_nat n.
Proof. unfold rbytes. by rewrite length_fmap, length_seq. Qed.

Lemma rbytes_ext m m' a n :
  (forall x, a <= x < a + n -> rbyte m' x = rbyte m x) ->
  rbytes m' a n = rbytes m a n.
Proof.
  intros H. unfold rbytes. apply list_fmap_ext. intros i j Hij.
  apply lookup_seq in Hij. apply H. lia.
Qed.

Lemma rbytes_app m a n1 n2 :
  0 <= n1 -> 0 <= n2 ->
  rbytes m a (n1 + n2) = rbytes m a n1 ++ rbytes m (a + n1) n2.
Proof.
  intros. unfold rbytes. rewrite Z2Nat.inj_add, seq_app, fmap_app by lia.
  f_equal. rewrite Nat.add_0_l, <- (Nat.add_0_r (Z.to_nat n1)), <- fmap_add_seq, <- list_fmap_compose.
  apply list_fmap_ext. intros i j Hij. simpl. f_equal. lia.
Qed.

Lemma rbytes_lookup m a n i :
  0 <= i < n -> rbytes m a n !!! Z.to_nat i = rbyte m (a + i).
Proof.
  intros. apply list_lookup_total_correct. unfold rbytes.
  rewrite list_lookup_fmap, lookup_seq_lt by lia. simpl. do 2 f_equal. lia.
Qed.

(** A run of bytes that does not cross the end of the region sits at
    consecutive physical offsets. *)
Lemma mod_add_small a i :
  0 <= i -> a mod cap + i < cap -> (a + i) mod cap = a mod cap + i.
Proof.
  intros. pose proof (Z.mod_pos_bound a cap Hcap).
  rewrite <- (Zplus_mod_idemp_l a i cap). apply Z.mod_small. lia.
Qed.

Lemma mem_read_rbytes_le m a n :
  cap <= Z.of_nat (length m) -> 0 <= n -> a mod cap + n <= cap ->
  mem_read m (a mod cap) n = Some (rbytes m a n).
Proof.
  intros Hl Hn Hle. pose proof (Z.mod_pos_bound a cap Hcap).
  rewrite mem_read_Some by lia. f_equal. apply list_eq_same_length with (n := Z.to_nat n).
  - rewrite length_rbytes. lia.
  - rewrite length_take, length_drop. lia.
  - intros i x y Hi Hx Hy.
    apply list_lookup_total_correct in Hx, Hy. subst.
    rewrite lookup_total_take_lt, lookup_total_drop by lia.
    replace i with (Z.to_nat (Z.of_nat i)) at 2 by lia.
    rewrite rbytes_lookup by lia. unfold rbyte, mbyte.
    rewrite mod_add_small by lia. f_equal. lia.
Qed.

Lemma mem_read_rbytes m a n :
  Z.of_nat (length m) = cap -> 0 <= n -> a mod cap + n <= cap ->
  mem_read m (a mod cap) n = Some (rbytes m a n).
Proof. intros. apply mem_read_rbytes_le; lia. Qed.

(** The effect of a write at logical position [a] on every logical byte. *)
Lemma rbyte_splice m a bs x :
  Z.of_nat (length m) = cap -> a mod cap + Z.of_nat (length bs) <= cap ->
  rbyte (splice m (a mod cap) bs) x =
    if (x - a) mod cap <? Z.of_nat (length bs)
    then bs !!! Z.to_nat ((x - a) mod cap) else rbyte m x.
Proof.
  intros Hl Hle. unfold rbyte.
  pose proof (Z.mod_pos_bound a cap Hcap). pose proof (Z.mod_pos_bound x cap Hcap).
  rewrite mbyte_splice by lia. rewrite Zminus_mod.
  destruct (decide (a mod cap <= x mod cap)).
  - rewrite (Z.mod_small (x mod cap - a mod cap)) by lia.
    do 2 case_if; auto; lia.
  - replace ((x mod cap - a mod cap) mod cap) with (x mod cap - a mod cap + cap)
      by (apply Z.mod_unique_pos with (-1); lia).
    do 2 case_if; auto; lia.
Qed.

(** Inside any window of [cap] positions that contains the written run, the
    write changes that run and nothing else. *)
Lemma rbyte_splice_other m a bs lo x :
  Z.of_nat (length m) = cap -> a mod cap + Z.of_nat (length bs) <= cap ->
  lo <= a -> a + Z.of_nat (length bs) <= lo + cap -> lo <= x < lo + cap ->
  ~ (a <= x < a + Z.of_nat (length bs)) ->
  rbyte (splice m (a mod cap) bs) x = rbyte m x.
Proof.
  intros Hl Hle ? ? ? Hx. rewrite rbyte_splice by done.
  destruct (decide (a <= x)).
  - rewrite (Z.mod_small (x - a)) by lia. case_if; auto; lia.
  - replace ((x - a) mod cap) with (x - a + cap)
      by (apply Z.mod_unique_pos with (-1); lia).
    case_if; auto; lia.
Qed.

Lemma rbyte_splice_in m a bs x :
  Z.of_nat (length m) = cap -> a mod cap + Z.of_nat (length bs) <= cap ->
  a <= x < a + Z.of_nat (length bs) ->
  rbyte (splice m (a mod cap) bs) x = bs !!! Z.to_nat (x - a).
Proof.
  intros Hl Hle ?. pose proof (Z.mod_pos_bound a cap Hcap).
  rewrite rbyte_splice, (Z.mod_small (x - a)) by lia. case_if; auto; lia.
Qed.

Lemma rbytes_splice_same m a bs :
  Z.of_nat (length m) = cap -> a mod cap + Z.of_nat (length bs) <= cap ->
  rbytes (splice m (a mod cap) bs) a (Z.of_nat (length bs)) = bs.
Proof.
  intros Hl Hle. apply list_eq_same_length with (n := length bs); [done | |].
  - rewrite length_rbytes. lia.
  - intros i x y Hi Hx Hy. apply list_lookup_total_correct in Hx, Hy. subst.
    replace i with (Z.to_nat (Z.of_nat i)) by lia.
    rewrite rbytes_lookup, rbyte_splice_in by lia. f_equal. lia.
Qed.

Lemma rbytes_splice_other m a bs lo b n :
  Z.of_nat (length m) = cap -> a mod cap + Z.of_nat (length bs) <= cap ->
  lo <= a -> a + Z.of_nat (length bs) <= lo + cap ->
  lo <= b -> b + n <= lo + cap ->
  b + n <= a \/ a + Z.of_nat (length bs) <= b ->
  rbytes (splice m (a mod cap) bs) b n = rbytes m b n.
Proof.
  intros. apply rbytes_ext. intros x ?. eapply rbyte_splice_other with (lo := lo); lia.
Qed.
End Circular.
