(* ===== verification/Layout.v ===== *)
(** * ring_layout.hpp

    The constants, structures and sizes of the shared-memory layout:
    [align_up], the file [Header], the per-record [RecordHeader], the control
    block with its cache-line padded atomics, and the region sizes.  Structures
    come with their object representation (the bytes a mapped file holds). *)

From Stdlib Require Import ZArith Lia Strings.Byte.
From stdpp Require Import base list numbers.
From S2P Require Import Prelude Memory.

(** ** Constants *)

Definition kCacheLineSize : Z := 64.
Definition kAlignment : Z := 8.
Definition kMagic : Z := 0x4C465242.
Definition kVersion : Z := 4.
Definition kWrapFlag : Z := 0x1.
Definition kFlagMPSC : Z := 0x1.
Definition kFlagMPMC : Z := 0x2.
Definition kFlagSPSC : Z := 0x4.
Definition kFlagLatest : Z := 0x8.
Definition kFlagFixedSPSC : Z := 0x10.

(** ** Sizes *)

Definition align_up (value alignment : Z) : Z :=
  Z.land (sub64 (add64 value alignment) 1) (not64 (sub64 alignment 1)).

(** [sizeof] of the structures of the layout on the 64-bit targets: the
    members of [Header] and [RecordHeader] are naturally aligned, and each of
    the five [PaddedAtomicU64] members of [ControlBlock] fills one cache
    line. *)
Definition sizeof_Header : Z := 4 + 2 + 2 + 8 + 8 + 8 + 8 + 8.
Definition sizeof_RecordHeader : Z := 4 + 2 + 2 + 8.
Definition sizeof_PaddedAtomicU64 : Z := 8 + (kCacheLineSize - 8).
Definition sizeof_ControlBlock : Z := 5 * sizeof_PaddedAtomicU64.

Definition header_region_size : Z := align_up sizeof_Header kCacheLineSize.
Definition control_region_size : Z := align_up sizeof_ControlBlock kCacheLineSize.

Definition required_mapping_size (capacity_bytes : Z) : Z :=
  let cap := align_up capacity_bytes kAlignment in
  add64 (add64 header_region_size control_region_size) cap.

(** ** Structures *)

Record Header := mkHeader {
  h_magic : Z;
  h_version : Z;
  h_header_size : Z;
  h_capacity_bytes : Z;
  h_control_offset : Z;
  h_ring_offset : Z;
  h_alignment : Z;
  h_flags : Z;
}.

Record RecordHeader := mkRecordHeader {
  rh_size : Z;
  rh_type : Z;
  rh_flags : Z;
  rh_sequence : Z;
}.

(** The five counters of the control block; the padding carries no data. *)
Record ControlBlock := mkControl {
  head_reserve : Z;
  head_publish : Z;
  tail_reserve : Z;
  tail_publish : Z;
  sequence : Z;
}.

Inductive ClaimResult := kCreated | kResumed | kRecovered.

#[export] Instance ClaimResult_eq_dec : EqDecision ClaimResult.
Proof. solve_decision. Defined.
#[export] Instance ControlBlock_eq_dec : EqDecision ControlBlock.
Proof. solve_decision. Defined.

(** Member offsets inside [RecordHeader]. *)
Definition off_size : Z := 0.
Definition off_type : Z := 4.
Definition off_flags : Z := 6.
Definition off_sequence : Z := 8.

(** Object representations. *)
Definition Header_bytes (h : Header) : list byte :=
  le_enc 4 (h_magic h) ++ le_enc 2 (h_version h) ++ le_enc 2 (h_header_size h) ++
  le_enc 8 (h_capacity_bytes h) ++ le_enc 8 (h_control_offset h) ++
  le_enc 8 (h_ring_offset h) ++ le_enc 8 (h_alignment h) ++ le_enc 8 (h_flags h).

Definition RecordHeader_bytes (h : RecordHeader) : list byte :=
  le_enc 4 (rh_size h) ++ le_enc 2 (rh_type h) ++ le_enc 2 (rh_flags h) ++
  le_enc 8 (rh_sequence h).

(** A member of a structure, read out of the bytes of the structure. *)
Definition member (bs : list byte) (off n : nat) : Z := le_dec (take n (drop off bs)).

Definition Header_of_bytes (bs : list byte) : Header :=
  mkHeader (member bs 0 4) (member bs 4 2) (member bs 6 2) (member bs 8 8)
           (member bs 16 8) (member bs 24 8) (member bs 32 8) (member bs 40 8).

Definition RecordHeader_of_bytes (bs : list byte) : RecordHeader :=
  mkRecordHeader (member bs 0 4) (member bs 4 2) (member bs 6 2) (member bs 8 8).

(** ** Facts *)

Lemma not64_ldiff y : 0 <= y < 2 ^ 64 -> not64 y = Z.ldiff (Z.ones 64) y.
Proof.
  intros Hy. unfold not64. change (2 ^ 64 - 1) with (Z.ones 64).
  apply Z.sub_nocarry_ldiff. apply Z.ldiff_ones_r_low; [lia|].
  destruct (decide (y = 0)) as [->|]; [done|]. apply Z.log2_lt_pow2; lia.
Qed.

Lemma testbit_above x n : 0 <= x < 2 ^ 64 -> 64 <= n -> Z.testbit x n = false.
Proof.
  intros Hx Hn. destruct (decide (x = 0)) as [->|]; [apply Z.bits_0|].
  apply Z.bits_above_log2; [lia|]. apply Z.log2_lt_pow2; [lia|].
  apply Z.lt_le_trans with (2 ^ 64); [lia | apply Z.pow_le_mono_r; lia].
Qed.

(** Masking with the complement of [2^k - 1] rounds down to a multiple. *)
Lemma land_not64_mask x k :
  0 <= x < 2 ^ 64 -> 0 <= k < 64 ->
  Z.land x (not64 (2 ^ k - 1)) = 2 ^ k * (x / 2 ^ k).
Proof.
  intros Hx Hk.
  assert (0 < 2 ^ k < 2 ^ 64) by (split; [lia | apply Z.pow_lt_mono_r; lia]).
  rewrite not64_ldiff by lia.
  replace (2 ^ k - 1) with (Z.ones k) by (rewrite Z.ones_equiv; lia).
  rewrite <- Z.shiftr_div_pow2, Z.mul_comm, <- Z.shiftl_mul_pow2 by lia.
  rewrite <- Z.ldiff_ones_r by lia. apply Z.bits_inj'. intros n Hn.
  rewrite Z.land_spec, !Z.ldiff_spec.
  destruct (decide (n < 64)).
  - rewrite (Z.ones_spec_low 64) by lia. done.
  - by rewrite (testbit_above x n) by lia.
Qed.

(** [align_up] rounds up to a multiple of a power of two as long as the
    intermediate sum does not overflow. *)
Lemma align_up_pow2 v k :
  0 <= k < 64 -> 0 <= v -> v + 2 ^ k - 1 < 2 ^ 64 ->
  align_up v (2 ^ k) = 2 ^ k * ((v + 2 ^ k - 1) / 2 ^ k).
Proof.
  intros Hk Hv Ho.
  assert (0 < 2 ^ k < 2 ^ 64) by (split; [lia | apply Z.pow_lt_mono_r; lia]).
  unfold align_up, add64, sub64.
  replace (u64 (u64 (v + 2 ^ k) - 1)) with (v + 2 ^ k - 1).
  2: { unfold u64. rewrite Zminus_mod_idemp_l. symmetry. apply Z.mod_small. lia. }
  rewrite (u64_small (2 ^ k - 1)) by lia. apply land_not64_mask; lia.
Qed.

Lemma align_up_8 v : 0 <= v < 2 ^ 63 -> align_up v kAlignment = 8 * ((v + 7) / 8).
Proof.
  intros. change kAlignment with (2 ^ 3). rewrite align_up_pow2 by lia.
  change (2 ^ 3) with 8. f_equal. f_equal. lia.
Qed.

(** [align_up] on the alignments of the code returns the least multiple of
    the alignment that is not below the value. *)
Theorem align_up_least v k :
  0 <= k < 64 -> 0 <= v -> v + 2 ^ k - 1 < 2 ^ 64 ->
  (2 ^ k | align_up v (2 ^ k)) /\ v <= align_up v (2 ^ k) < v + 2 ^ k /\
  forall m, (2 ^ k | m) -> v <= m -> align_up v (2 ^ k) <= m.
Proof.
  intros Hk Hv Ho. assert (0 < 2 ^ k) by lia. rewrite align_up_pow2 by done.
  pose proof (Z.div_mod (v + 2 ^ k - 1) (2 ^ k) ltac:(lia)).
  pose proof (Z.mod_pos_bound (v + 2 ^ k - 1) (2 ^ k) ltac:(lia)).
  split; [apply Z.divide_factor_l | split; [lia |]].
  intros m [q ->] Hm. rewrite (Z.mul_comm q). apply Z.mul_le_mono_nonneg_l; [lia|].
  apply Z.lt_succ_r, Z.div_lt_upper_bound; lia.
Qed.

Lemma align_up_least_witness :
  (2 ^ 3 | align_up 60 (2 ^ 3)) /\ 60 <= align_up 60 (2 ^ 3) < 60 + 2 ^ 3 /\
  forall m, (2 ^ 3 | m) -> 60 <= m -> align_up 60 (2 ^ 3) <= m.
Proof. apply (align_up_least 60 3); lia. Defined.

(** The record size of every ring: header plus payload, rounded up to 8. *)
Definition record_size (size : Z) : Z :=
  align_up (sizeof_RecordHeader + size) kAlignment.

Lemma record_size_eq size :
  0 <= size < 2 ^ 32 -> record_size size = 8 * ((size + 23) / 8).
Proof.
  intros. unfold record_size. rewrite align_up_8 by (unfold sizeof_RecordHeader; lia).
  unfold sizeof_RecordHeader. do 2 f_equal. lia.
Qed.

Lemma record_size_bounds size :
  0 <= size < 2 ^ 32 ->
  sizeof_RecordHeader + size <= record_size size < sizeof_RecordHeader + size + 8 /\
  (8 | record_size size).
Proof.
  intros. rewrite record_size_eq by done. unfold sizeof_RecordHeader.
  split; [dlia | apply Z.divide_factor_l].
Qed.

(** Reading a member back out of a concatenation of encoded members. *)
Lemma member_here n z rest :
  0 <= z < 256 ^ Z.of_nat n -> member (le_enc n z ++ rest) 0 n = z.
Proof.
  intros. unfold member. rewrite drop_0, take_app_le, take_ge
    by (rewrite length_le_enc; lia).
  rewrite le_dec_enc. by apply Z.mod_small.
Qed.

Lemma member_skip k z rest off n :
  (k <= off)%nat -> member (le_enc k z ++ rest) off n = member rest (off - k) n.
Proof.
  intros. unfold member.
  by rewrite drop_app_ge, length_le_enc by (rewrite length_le_enc; lia).
Qed.

Definition RecordHeader_wf (h : RecordHeader) : Prop :=
  0 <= rh_size h < 2 ^ 32 /\ 0 <= rh_type h < 2 ^ 16 /\
  0 <= rh_flags h < 2 ^ 16 /\ 0 <= rh_sequence h < 2 ^ 64.

Definition Header_wf (h : Header) : Prop :=
  0 <= h_magic h < 2 ^ 32 /\ 0 <= h_version h < 2 ^ 16 /\
  0 <= h_header_size h < 2 ^ 16 /\ 0 <= h_capacity_bytes h < 2 ^ 64 /\
  0 <= h_control_offset h < 2 ^ 64 /\ 0 <= h_ring_offset h < 2 ^ 64 /\
  0 <= h_alignment h < 2 ^ 64 /\ 0 <= h_flags h < 2 ^ 64.

Ltac read_members :=
  repeat (rewrite member_skip by lia; cbn [Nat.sub]);
  first [ apply member_here; lia
        | rewrite <- (app_nil_r (le_enc _ _)); apply member_here; lia ].

Lemma RecordHeader_of_to_bytes h :
  RecordHeader_wf h -> RecordHeader_of_bytes (RecordHeader_bytes h) = h.
Proof.
  destruct h as [sz ty fl sq]. intros (? & ? & ? & ?). simpl in *.
  unfold RecordHeader_of_bytes, RecordHeader_bytes; simpl rh_size;
    simpl rh_type; simpl rh_flags; simpl rh_sequence.
  f_equal; read_members.
Qed.

Lemma Header_of_to_bytes h :
  Header_wf h -> Header_of_bytes (Header_bytes h) = h.
Proof.
  destruct h. intros (? & ? & ? & ? & ? & ? & ? & ?). simpl in *.
  unfold Header_of_bytes, Header_bytes. simpl h_magic; simpl h_version;
    simpl h_header_size; simpl h_capacity_bytes; simpl h_control_offset;
    simpl h_ring_offset; simpl h_alignment; simpl h_flags.
  f_equal; read_members.
Qed.

Lemma length_RecordHeader_bytes h : length (RecordHeader_bytes h) = 16%nat.
Proof. unfold RecordHeader_bytes. by rewrite !length_app, !length_le_enc. Qed.

Lemma length_Header_bytes h : length (Header_bytes h) = 48%nat.
Proof. unfold Header_bytes. by rewrite !length_app, !length_le_enc. Qed.
