(* ===== verification/Prog.v ===== *)
(** * Shared-memory programs

    The operations of the library run concurrently on one control block and
    one byte ring that several threads (or processes) have mapped.  They are
    written here as [prog] values: trees of the atomic and plain accesses the
    C++ code performs, in program order, with the local computation in the
    continuations.  A program that ends in [None] asks for another iteration
    of its [for (;;)] loop; [Some r] is a [return r].

    Three semantics share these terms:
    - [step1] performs one access of one thread;
    - [run] executes an operation alone (the sequential reading of the code);
    - [cnext] interleaves the accesses of any number of threads.

    The interleaving is sequentially consistent: the memory orders of the code
    are not distinguished (file [WeakMemory] runs the same terms on release/acquire
    memory).  A rely-guarantee weakest precondition [wp] proves
    invariants of all interleavings thread by thread ([rg_sound]). *)

From Stdlib Require Import ZArith Lia Strings.Byte.
From stdpp Require Import base list numbers gmap.
From S2P Require Import Prelude Memory Layout.

(** ** Shared state *)

(** The five atomics of [ControlBlock]. *)
Inductive field := FHeadReserve | FHeadPublish | FTailReserve | FTailPublish | FSequence.

#[export] Instance field_eq_dec : EqDecision field.
Proof. solve_decision. Defined.

(** The mapped memory, and the machine-wide monotonic clock in nanoseconds. *)
Record shared := mkShared { ctl : ControlBlock; ring : list byte; clock : Z }.

Definition get_field (f : field) (c : ControlBlock) : Z :=
  match f with
  | FHeadReserve => head_reserve c
  | FHeadPublish => head_publish c
  | FTailReserve => tail_reserve c
  | FTailPublish => tail_publish c
  | FSequence => sequence c
  end.

Definition set_field (f : field) (v : Z) (c : ControlBlock) : ControlBlock :=
  let '(mkControl hr hp tr tp sq) := c in
  match f with
  | FHeadReserve => mkControl v hp tr tp sq
  | FHeadPublish => mkControl hr v tr tp sq
  | FTailReserve => mkControl hr hp v tp sq
  | FTailPublish => mkControl hr hp tr v sq
  | FSequence => mkControl hr hp tr tp v
  end.

Definition load (f : field) (s : shared) : Z := get_field f (ctl s).
Definition store (f : field) (v : Z) (s : shared) : shared :=
  mkShared (set_field f v (ctl s)) (ring s) (clock s).
Definition with_ring (m : list byte) (s : shared) : shared :=
  mkShared (ctl s) m (clock s).
Definition tick (d : Z) (s : shared) : shared :=
  mkShared (ctl s) (ring s) (clock s + d).

Lemma load_store_eq f v s : load f (store f v s) = v.
Proof. destruct s as [[] ? ?], f; reflexivity. Qed.

Lemma load_store_ne f g v s : f <> g -> load f (store g v s) = load f s.
Proof. destruct s as [[] ? ?], f, g; reflexivity || done. Qed.

Lemma load_with_ring f m s : load f (with_ring m s) = load f s.
Proof. reflexivity. Qed.

Lemma ring_store f v s : ring (store f v s) = ring s.
Proof. reflexivity. Qed.

Lemma ring_with_ring m s : ring (with_ring m s) = m.
Proof. reflexivity. Qed.

Lemma tick_same d s : (forall f, load f (tick d s) = load f s) /\ ring (tick d s) = ring s.
Proof. done. Qed.

Arguments load : simpl never.
Arguments store : simpl never.
Arguments with_ring : simpl never.

#[export] Hint Rewrite load_store_eq load_with_ring ring_store ring_with_ring : lfring.
#[export] Hint Rewrite load_store_ne using done : lfring.

(** Simplify reads of an updated shared state, everywhere. *)
Ltac sh_simpl := simpl in *; autorewrite with lfring in *.

(** ** Programs *)

(** [WakeAll] is [futex_wake_all] on the notification word: it changes nothing in
    the mapped memory; what it does to sleeping threads is in file [Futex]. *)
Inductive prog (A : Type) : Type :=
| Ret (a : A)
| Load (f : field) (k : Z -> prog A)
| Store (f : field) (v : Z) (k : prog A)
| Cas (weak : bool) (f : field) (expected desired : Z) (k : bool -> prog A)
| FetchAdd (f : field) (v : Z) (k : Z -> prog A)
| Await (f : field) (v : Z) (k : prog A)
| Read (off n : Z) (k : list byte -> prog A)
| Write (off : Z) (bs : list byte) (k : prog A)
| Now (k : Z -> prog A)
| WakeAll (k : prog A)
| Undefined.

Arguments Ret {A} a.
Arguments Load {A} f k.
Arguments Store {A} f v k.
Arguments Cas {A} weak f expected desired k.
Arguments FetchAdd {A} f v k.
Arguments Await {A} f v k.
Arguments Read {A} off n k.
Arguments Write {A} off bs k.
Arguments Now {A} k.
Arguments WakeAll {A} k.
Arguments Undefined {A}.

Declare Scope prog_scope.
Delimit Scope prog_scope with prog.
Bind Scope prog_scope with prog.

(** [let! x := access in k] passes the value of the access to [k];
    [do! access in k] is for accesses without a value. *)
Notation "'let!' x := m 'in' k" := (m (fun x => k))
  (at level 10, x binder, m at level 100, k at level 200, only parsing) : prog_scope.
Notation "'do!' m 'in' k" := (m k)
  (at level 10, m at level 100, k at level 200, only parsing) : prog_scope.

#[global] Open Scope prog_scope.

(** [std::memcpy] into and out of the mapped memory, byte by byte. *)
Fixpoint memcpy_to {A} (off : Z) (bs : list byte) (k : prog A) : prog A :=
  match bs with
  | [] => k
  | b :: bs => do! Write off [b] in memcpy_to (off + 1) bs k
  end.

Fixpoint memcpy_from {A} (off : Z) (n : nat) (k : list byte -> prog A) : prog A :=
  match n with
  | O => k []
  | S n => let! b := Read off 1 in memcpy_from (off + 1) n (fun bs => k (b ++ bs))
  end.

(** Map over the result of a program. *)
Fixpoint pmap {A B} (f : A -> B) (p : prog A) : prog B :=
  match p with
  | Ret a => Ret (f a)
  | Load x k => Load x (fun v => pmap f (k v))
  | Store x v k => Store x v (pmap f k)
  | Cas w x e d k => Cas w x e d (fun b => pmap f (k b))
  | FetchAdd x v k => FetchAdd x v (fun v => pmap f (k v))
  | Await x v k => Await x v (pmap f k)
  | Read off n k => Read off n (fun bs => pmap f (k bs))
  | Write off bs k => Write off bs (pmap f k)
  | Now k => Now (fun v => pmap f (k v))
  | WakeAll k => WakeAll (pmap f k)
  | Undefined => Undefined
  end.

(** ** One access *)

Inductive next (A : Type) : Type :=
| Step (s : shared) (p : prog A)
| Halt
| Fault.
Arguments Step {A} s p.
Arguments Halt {A}.
Arguments Fault {A}.

(** [spur] lets a weak compare-exchange fail spuriously. *)
Definition step1 {A} (spur : bool) (s : shared) (p : prog A) : next A :=
  match p with
  | Ret _ => Halt
  | Load f k => Step s (k (load f s))
  | Store f v k => Step (store f v s) k
  | Cas weak f e d k =>
      if (load f s =? e) && negb (weak && spur)
      then Step (store f d s) (k true)
      else Step s (k false)
  | FetchAdd f v k => Step (store f (add64 (load f s) v) s) (k (load f s))
  | Await f v k => if load f s =? v then Step s k else Step s p
  | Read off n k =>
      match mem_read (ring s) off n with
      | Some bs => Step s (k bs)
      | None => Fault
      end
  | Write off bs k =>
      match mem_write (ring s) off bs with
      | Some m => Step (with_ring m s) k
      | None => Fault
      end
  | Now k => Step s (k (clock s))
  | WakeAll k => Step s k
  | Undefined => Fault
  end.

(** ** Sequential execution *)

(** [eval spurs s p] runs [p] to its end with no interference.  [spurs] says
    which of the weak compare-exchanges fail spuriously.  [Blocked] is an
    [Await] that nobody can satisfy. *)
Inductive outcome (A : Type) : Type :=
| Done (a : A) (s : shared) (spurs : list bool)
| Blocked
| Undef.
Arguments Done {A} a s spurs.
Arguments Blocked {A}.
Arguments Undef {A}.

Fixpoint eval {A} (spurs : list bool) (s : shared) (p : prog A) : outcome A :=
  match p with
  | Ret a => Done a s spurs
  | Load f k => eval spurs s (k (load f s))
  | Store f v k => eval spurs (store f v s) k
  | Cas weak f e d k =>
      let '(spur, rest) :=
        match weak, spurs with true, b :: bs => (b, bs) | _, _ => (false, spurs) end in
      if (load f s =? e) && negb (weak && spur)
      then eval rest (store f d s) (k true)
      else eval rest s (k false)
  | FetchAdd f v k => eval spurs (store f (add64 (load f s) v) s) (k (load f s))
  | Await f v k => if load f s =? v then eval spurs s k else Blocked
  | Read off n k =>
      match mem_read (ring s) off n with
      | Some bs => eval spurs s (k bs)
      | None => Undef
      end
  | Write off bs k =>
      match mem_write (ring s) off bs with
      | Some m => eval spurs (with_ring m s) k
      | None => Undef
      end
  | Now k => eval spurs s (k (clock s))
  | WakeAll k => eval spurs s k
  | Undefined => Undef
  end.

(** [for (;;) body], at most [fuel] iterations. *)
Fixpoint run {R} (fuel : nat) (spurs : list bool) (body : prog (option R)) (s : shared)
  : option (outcome R) :=
  match fuel with
  | O => None
  | S fuel =>
      match eval spurs s body with
      | Done (Some r) s' spurs' => Some (Done r s' spurs')
      | Done None s' spurs' => run fuel spurs' body s'
      | Blocked => Some Blocked
      | Undef => Some Undef
      end
  end.

Lemma eval_memcpy_to {A} spurs s off bs (k : prog A) :
  0 <= off -> off + Z.of_nat (length bs) <= Z.of_nat (length (ring s)) ->
  eval spurs s (memcpy_to off bs k) =
    eval spurs (with_ring (splice (ring s) off bs) s) k.
Proof.
  revert s off. induction bs as [|b bs IH]; intros s off Ho Hl; simpl in *.
  - unfold splice. rewrite Nat.add_0_r, app_nil_l, take_drop. by destruct s.
  - rewrite mem_write_Some by (simpl; lia).
    rewrite IH by (simpl; rewrite ?length_splice by (simpl; lia); lia).
    unfold with_ring. simpl. by rewrite splice_cons by lia.
Qed.

Lemma eval_memcpy_from {A} spurs s off n (k : list byte -> prog A) :
  0 <= off -> off + Z.of_nat n <= Z.of_nat (length (ring s)) ->
  eval spurs s (memcpy_from off n k) =
    eval spurs s (k (take n (drop (Z.to_nat off) (ring s)))).
Proof.
  revert off k. induction n as [|n IH]; intros off k Ho Hl; simpl; [done|].
  rewrite mem_read_Some by lia. rewrite IH by lia. do 2 f_equal.
  destruct (lookup_lt_is_Some_2 (ring s) (Z.to_nat off)) as [b Hb]; [lia|].
  rewrite (drop_S _ b) by done.
  replace (Z.to_nat (off + 1)) with (S (Z.to_nat off)) by lia.
  by change (Z.to_nat 1) with 1%nat.
Qed.

(** ** Interleaved execution *)

(** What a thread that waits for an atomic to have a value knows: a condition that
    a proof may ask of every [Await] (by default none).  It says whom the thread
    waits for, and is used to prove that waiting ends. *)
Class Waits (G : Type) := waits : nat -> field -> Z -> shared * G -> Prop.

#[export] Instance waits_any G : Waits G | 100 := fun _ _ _ _ => True.

Section System.
Context {Op R : Type}.
(** One iteration of each operation's loop, and which thread may call what
    (a single consumer, say). *)
Context (body : Op -> prog (option R)) (role : nat -> Op -> bool).

(** A thread that is not in [c_thr] is between calls.  [c_log] lists the
    completed calls in the order of their returns. *)
Record config := Config {
  c_sh : shared;
  c_thr : gmap nat (Op * prog (option R));
  c_log : list (nat * (Op * R));
  c_fault : bool;
}.

Inductive act :=
| AStart (t : nat) (op : Op)
| AStep (t : nat) (spur : bool)
| ATick (d : Z).

Definition cnext (a : act) (c : config) : option config :=
  let '(Config s thr log fault) := c in
  match a with
  | AStart t op =>
      match thr !! t with
      | None => if role t op then Some (Config s (<[t := (op, body op)]> thr) log fault)
                else None
      | Some _ => None
      end
  | AStep t spur =>
      match thr !! t with
      | None => None
      | Some (op, Ret None) => Some (Config s (<[t := (op, body op)]> thr) log fault)
      | Some (op, Ret (Some r)) => Some (Config s (delete t thr) (log ++ [(t, (op, r))]) fault)
      | Some (op, p) =>
          match step1 spur s p with
          | Step s' p' => Some (Config s' (<[t := (op, p')]> thr) log fault)
          | Halt => None
          | Fault => Some (Config s (delete t thr) log true)
          end
      end
  | ATick d => if 0 <=? d then Some (Config (tick d s) thr log fault) else None
  end.

(** [n] accesses of thread [t]. *)
Definition steps (t n : nat) : list act := replicate n (AStep t false).

(** A schedule is a list of actions. *)
Fixpoint crun (acts : list act) (c : config) : option config :=
  match acts with
  | [] => Some c
  | a :: acts => match cnext a c with Some c' => crun acts c' | None => None end
  end.

(** What can be seen of the end of a schedule, without the programs of the
    threads that are still running. *)
Lemma crun_observe {O} acts c0 (f : config -> O) o (P : config -> Prop) :
  option_map f (crun acts c0) = Some o -> (forall c, f c = o -> P c) ->
  exists c, crun acts c0 = Some c /\ P c.
Proof. destruct (crun acts c0) as [c|]; simpl; [|done]. intros [= He] HP. eauto. Qed.

Lemma crun_app acts1 acts2 c :
  crun (acts1 ++ acts2) c = match crun acts1 c with Some c' => crun acts2 c' | None => None end.
Proof. revert c. induction acts1 as [|a acts1 IH]; intros c; simpl; [done|]. by destruct (cnext a c). Qed.

(** The end of a schedule that can be followed. *)
Definition after (acts : list act) (c : config) : config := default c (crun acts c).

Lemma crun_after acts c :
  match crun acts c with Some _ => true | None => false end = true ->
  crun acts c = Some (after acts c).
Proof. unfold after. by destruct (crun acts c). Qed.

Definition init_config (s : shared) : config := Config s ∅ [] false.

(** The completed calls of one thread, oldest first. *)
Definition tlog (t : nat) (log : list (nat * (Op * R))) : list (Op * R) :=
  (filter (fun e => e.1 = t) log).*2.

Lemma tlog_app t l1 l2 : tlog t (l1 ++ l2) = tlog t l1 ++ tlog t l2.
Proof. unfold tlog. by rewrite filter_app, fmap_app. Qed.

Lemma tlog_one_eq t x : tlog t [(t, x)] = [x].
Proof. unfold tlog. rewrite filter_cons_True, filter_nil; done. Qed.

Lemma tlog_one_ne t t' x : t <> t' -> tlog t [(t', x)] = [].
Proof. intros. unfold tlog. rewrite filter_cons_False, filter_nil; done. Qed.

(** Executions whose shared-state changes all satisfy [allowed]. *)
Context (allowed : shared -> shared -> Prop).

Inductive cstep (c c' : config) : Prop :=
| cstep_intro a : cnext a c = Some c' -> allowed (c_sh c) (c_sh c') -> cstep c c'.

Definition creach (s : shared) : config -> Prop := rtc cstep (init_config s).

(** A schedule whose shared-state changes all pass the test [chk] is such an
    execution. *)
Fixpoint crun_checked (chk : shared -> shared -> bool) (acts : list act) (c : config)
  : option config :=
  match acts with
  | [] => Some c
  | a :: acts =>
      match cnext a c with
      | Some c' => if chk (c_sh c) (c_sh c') then crun_checked chk acts c' else None
      | None => None
      end
  end.

Lemma crun_checked_steps chk acts c c' :
  (forall s1 s2, chk s1 s2 = true -> allowed s1 s2) ->
  crun_checked chk acts c = Some c' -> crun acts c = Some c' /\ rtc cstep c c'.
Proof.
  intros Hchk. revert c.
  induction acts as [|a acts IH]; simpl; intros c0; [intros [= <-]; split; [done | apply rtc_refl]|].
  destruct (cnext a c0) as [c1|] eqn:E; [|done]. case_if; [|done].
  intros [? ?]%IH. split; [done|]. eapply rtc_l; [|done]. econstructor; eauto.
Qed.

Lemma crun_checked_reach chk acts s c :
  (forall s1 s2, chk s1 s2 = true -> allowed s1 s2) ->
  crun_checked chk acts (init_config s) = Some c -> creach s c.
Proof. intros Hchk Hr. by eapply crun_checked_steps. Qed.

Lemma crun_checked_after chk acts c :
  (forall s1 s2, chk s1 s2 = true -> allowed s1 s2) ->
  match crun_checked chk acts c with Some _ => true | None => false end = true ->
  rtc cstep c (after acts c).
Proof.
  intros Hchk. destruct (crun_checked chk acts c) as [c'|] eqn:E; [intros _ | done].
  apply (crun_checked_steps chk) in E as [E ?]; [|done]. unfold after. by rewrite E.
Qed.

Lemma crun_rtc acts c c' :
  (forall s1 s2, allowed s1 s2) -> crun acts c = Some c' -> rtc cstep c c'.
Proof.
  intros Hall. revert c. induction acts as [|a acts IH]; intros c; simpl; [intros [= <-]; apply rtc_refl|].
  destruct (cnext a c) as [c1|] eqn:E; [|done]. intros Hr.
  eapply rtc_l; [by econstructor | by apply IH].
Qed.

Lemma crun_after_rtc acts c :
  (forall s1 s2, allowed s1 s2) ->
  match crun acts c with Some _ => true | None => false end = true -> rtc cstep c (after acts c).
Proof. intros Hall H. by apply (crun_rtc acts), crun_after. Qed.

(** *** Rely-guarantee reasoning *)

Context {G : Type} {W : Waits G}.
Abbreviation state := (shared * G)%type.
Context (Inv : state -> Prop).
(** [rely t s s']: what thread [t] tolerates from the other threads. *)
Context (rely : nat -> state -> state -> Prop).
(** What is known of thread [t] between calls, given its completed calls. *)
Context (P : nat -> list (Op * R) -> state -> Prop).

(** A change of the shared state by thread [t]: some ghost update makes it
    tolerable for every other thread and keeps the invariant. *)
Definition change (t : nat) (s : state) (s1 : shared) (K : state -> Prop) : Prop :=
  allowed s.1 s1 ->
  exists g', (forall t', t' <> t -> rely t' s (s1, g')) /\ Inv (s1, g') /\ K (s1, g').

Section Wp.
Context (t : nat) {A : Type} (Q : A -> state -> Prop).

Fixpoint wp (p : prog A) (s : state) : Prop :=
  forall s', rely t s s' -> Inv s' ->
  match p with
  | Ret a => Q a s'
  | Load f k => wp (k (load f s'.1)) s'
  | Store f v k => change t s' (store f v s'.1) (wp k)
  | Cas weak f e d k =>
      (load f s'.1 <> e \/ weak = true -> wp (k false) s') /\
      (load f s'.1 = e -> change t s' (store f d s'.1) (wp (k true)))
  | FetchAdd f v k =>
      change t s' (store f (add64 (load f s'.1) v) s'.1) (wp (k (load f s'.1)))
  | Await f v k => waits t f v s' /\ (load f s'.1 = v -> wp k s')
  | Read off n k => exists bs, mem_read (ring s'.1) off n = Some bs /\ wp (k bs) s'
  | Write off bs k =>
      exists m, mem_write (ring s'.1) off bs = Some m /\ change t s' (with_ring m s'.1) (wp k)
  | Now k => wp (k (clock s'.1)) s'
  | WakeAll k => wp k s'
  | Undefined => False
  end.
End Wp.

Context {rely_pre : forall t, PreOrder (rely t)}.

Lemma wp_stable t {A} (Q : A -> state -> Prop) p s s' :
  wp t Q p s -> rely t s s' -> wp t Q p s'.
Proof.
  intros H Hr. destruct p; intros s'' Hr'; exact (H s'' (transitivity Hr Hr')).
Qed.

(** [J i] holds once the first [i] bytes have been written. *)
Lemma wp_memcpy_to t {A} (Q : A -> state -> Prop) off bs k (J : nat -> state -> Prop) s :
  J O s ->
  (forall i s1 s2, J i s1 -> rely t s1 s2 -> Inv s2 -> J i s2) ->
  (forall i b s1, bs !! i = Some b -> J i s1 -> Inv s1 ->
     exists m, mem_write (ring s1.1) (off + Z.of_nat i) [b] = Some m /\
     change t s1 (with_ring m s1.1) (J (S i))) ->
  (forall s1, J (length bs) s1 -> wp t Q k s1) ->
  wp t Q (memcpy_to off bs k) s.
Proof.
  intros H0 Hst. revert off s J H0 Hst.
  induction bs as [|b bs IH]; intros off s J H0 Hst Hw Hk; simpl; [by apply Hk|].
  intros s' Hr HI. destruct (Hw O b s') as (m & Hm & Hc); eauto.
  rewrite Z.add_0_r in Hm. exists m. split; [done|].
  intros Ha. destruct (Hc Ha) as (g' & ? & ? & HJ). exists g'. split_and!; auto.
  apply (IH (off + 1) _ (fun i => J (S i))); eauto.
  intros i b' s1 Hi HJ1 HI1. replace (off + 1 + Z.of_nat i) with (off + Z.of_nat (S i)) by lia.
  apply (Hw (S i)); auto.
Qed.

(** [J bs] holds once the bytes [bs] have been read. *)
Lemma wp_memcpy_from t {A} (Q : A -> state -> Prop) off n k (J : list byte -> state -> Prop) s :
  J [] s ->
  (forall bs s1 s2, J bs s1 -> rely t s1 s2 -> Inv s2 -> J bs s2) ->
  (forall bs s1, (length bs < n)%nat -> J bs s1 -> Inv s1 ->
     exists b, mem_read (ring s1.1) (off + Z.of_nat (length bs)) 1 = Some [b] /\
     J (bs ++ [b]) s1) ->
  (forall bs s1, length bs = n -> J bs s1 -> wp t Q (k bs) s1) ->
  wp t Q (memcpy_from off n k) s.
Proof.
  intros H0 Hst. revert off s k J H0 Hst.
  induction n as [|n IH]; intros off s k J H0 Hst Hrd Hk; simpl; [by apply Hk|].
  intros s' Hr HI. destruct (Hrd [] s') as (b & Hb & HJ); eauto; [simpl; lia|].
  rewrite Z.add_0_r in Hb. exists [b]. split; [done|].
  apply (IH _ _ _ (fun bs => J ([b] ++ bs))); eauto.
  - intros bs s1 Hl HJ1 HI1.
    destruct (Hrd ([b] ++ bs) s1) as (b' & Hb' & HJ'); simpl; auto; [lia|].
    exists b'. split; [|done]. rewrite <- Hb'. f_equal. simpl. lia.
  - intros bs s1 Hl HJ1. apply Hk; [simpl; lia | done].
Qed.

Lemma change_mono t s s1 (K K' : state -> Prop) :
  (forall s', K s' -> K' s') -> change t s s1 K -> change t s s1 K'.
Proof.
  intros HK H Ha. destruct (H Ha) as (g' & ? & ? & ?). eauto 6.
Qed.

Lemma wp_mono t {A} (Q Q' : A -> state -> Prop) p s :
  (forall a s', Q a s' -> Q' a s') -> wp t Q p s -> wp t Q' p s.
Proof.
  intros HQ. revert s. induction p; intros s Hw s' Hr HI; simpl in Hw;
    specialize (Hw s' Hr HI); simpl in *; eauto using change_mono.
  - destruct Hw as [Hf Hs]. split; eauto using change_mono.
  - destruct Hw as [? Hw]. split; eauto.
  - destruct Hw as (bs & ? & ?). eauto.
  - destruct Hw as (m & ? & ?). eauto using change_mono.
Qed.

Lemma wp_pmap t {A B} (f : A -> B) (Q : B -> state -> Prop) p s :
  wp t (fun a => Q (f a)) p s -> wp t Q (pmap f p) s.
Proof.
  revert s. induction p; intros s Hw s' Hr HI; simpl in Hw;
    specialize (Hw s' Hr HI); simpl in *; eauto using change_mono.
  - destruct Hw as [Hf Hs]. split; eauto using change_mono.
  - destruct Hw as [? Hw]. split; eauto.
  - destruct Hw as (bs & ? & ?). eauto.
  - destruct Hw as (m & ? & ?). eauto using change_mono.
Qed.

Definition post (t : nat) (op : Op) (l : list (Op * R)) (o : option R) (s : state) : Prop :=
  match o with
  | None => P t l s
  | Some r => P t (l ++ [(op, r)]) s
  end.

Hypothesis P_stable : forall t l s s', P t l s -> rely t s s' -> Inv s' -> P t l s'.
Hypothesis body_ok : forall t op l s,
  role t op = true -> P t l s -> Inv s -> wp t (post t op l) (body op) s.
Hypothesis tick_ok : forall d s g, 0 <= d -> allowed s (tick d s) -> Inv (s, g) ->
  Inv (tick d s, g) /\ forall t, rely t (s, g) (tick d s, g).

Definition thread_ok (s : state) (log : list (nat * (Op * R))) (t : nat)
    (o : option (Op * prog (option R))) : Prop :=
  match o with
  | None => P t (tlog t log) s
  | Some (op, p) => role t op = true /\ wp t (post t op (tlog t log)) p s
  end.

Definition config_ok (c : config) (g : G) : Prop :=
  c_fault c = false /\ Inv (c_sh c, g) /\
  forall t, thread_ok (c_sh c, g) (c_log c) t (c_thr c !! t).

Lemma thread_ok_stable s s' log t o :
  thread_ok s log t o -> rely t s s' -> Inv s' -> thread_ok s' log t o.
Proof.
  destruct o as [[op p]|]; simpl; [intros [? ?] | ]; eauto using wp_stable.
Qed.

(** Replace one thread's state after a change of the shared state. *)
Lemma config_ok_update s thr log t g s1 g1 o :
  config_ok (Config s thr log false) g -> Inv (s1, g1) ->
  (forall t', t' <> t -> rely t' (s, g) (s1, g1)) ->
  thread_ok (s1, g1) log t o ->
  config_ok (Config s1 (partial_alter (fun _ => o) t thr) log false) g1.
Proof.
  intros (_ & _ & Ht) HI Hr Ho. split_and!; [done | done |]. intros t'. simpl.
  destruct (decide (t = t')) as [<-|].
  - by rewrite lookup_partial_alter_eq.
  - rewrite lookup_partial_alter_ne by done.
    eapply thread_ok_stable; [apply Ht | apply Hr; congruence | done].
Qed.

(** Adding a completed call to the log. *)
Lemma config_ok_return s thr log t op r g :
  config_ok (Config s thr log false) g -> P t (tlog t log ++ [(op, r)]) (s, g) ->
  config_ok (Config s (delete t thr) (log ++ [(t, (op, r))]) false) g.
Proof.
  intros (_ & HI & Ht) HP. split_and!; [done | done |]. intros t'. simpl.
  specialize (Ht t'). simpl in Ht.
  destruct (decide (t = t')) as [<-|].
  - rewrite lookup_delete_eq. simpl. by rewrite tlog_app, tlog_one_eq.
  - rewrite lookup_delete_ne by done. unfold thread_ok in *.
    by rewrite tlog_app, tlog_one_ne, app_nil_r by done.
Qed.

(** One access of a thread, by the shape of its program. *)
Lemma wp_step1 t op log s g p spur :
  Inv (s, g) -> wp t (post t op (tlog t log)) p (s, g) ->
  match step1 spur s p with
  | Step s' p' => allowed s s' -> exists g', Inv (s', g') /\
      (forall t', t' <> t -> rely t' (s, g) (s', g')) /\
      wp t (post t op (tlog t log)) p' (s', g')
  | Halt => exists a, p = Ret a
  | Fault => False
  end.
Proof.
  intros HI Hw. pose proof Hw as Hw0.
  destruct p; simpl in Hw; specialize (Hw (s, g) (reflexivity _) HI); simpl in *.
  - eauto.
  - intros _. exists g. split_and!; auto. reflexivity.
  - intros Ha. destruct (Hw Ha) as (g' & ? & ? & ?). eauto.
  - destruct Hw as [Hf Hs]. case_if; intros Ha.
    + destruct (Hs ltac:(done) Ha) as (g' & ? & ? & ?). eauto.
    + exists g. split_and!; auto; [reflexivity|]. apply Hf.
      destruct weak; [by right | left].
      intros E. apply Z.eqb_eq in E. rewrite E in *. by destruct_or!.
  - intros Ha. destruct (Hw Ha) as (g' & ? & ? & ?). eauto.
  - destruct Hw as [_ Hw]. case_if; intros _; exists g; split_and!; auto; reflexivity.
  - destruct Hw as (bs & -> & Hw). intros _. exists g. split_and!; auto. reflexivity.
  - destruct Hw as (m & -> & Hw). intros Ha.
    destruct (Hw Ha) as (g' & ? & ? & ?). eauto.
  - intros _. exists g. split_and!; auto. reflexivity.
  - intros _. exists g. split_and!; auto. reflexivity.
  - done.
Qed.

(** What every thread tolerates holds along an execution: a step of one thread
    is tolerated by some other one. *)
Definition observes (c : config) (g : G) (c' : config) (g' : G) : Prop :=
  forall Obs : relation state, PreOrder Obs ->
  (forall t s s', rely t s s' -> Obs s s') -> Obs (c_sh c, g) (c_sh c', g').

Lemma config_ok_step c c' g :
  config_ok c g -> cstep c c' -> exists g', config_ok c' g' /\ observes c g c' g'.
Proof.
  destruct c as [s thr log fault]. intros Hc [a Ha Hal].
  pose proof Hc as (Hf & HI & Ht). simpl in Hf. subst fault.
  assert (Hsame : forall c1, c_sh c1 = s -> observes (Config s thr log false) g c1 g)
    by (intros c1 E Obs HO _; simpl; rewrite E; reflexivity).
  destruct a as [t op | t spur | d]; simpl in Ha.
  - specialize (Ht t). simpl in Ht. destruct (thr !! t) eqn:E; [done|].
    destruct (role t op) eqn:Er; [|done]. injection Ha as <-. exists g. split; [|by apply Hsame].
    apply (config_ok_update s thr log t g s g (Some (op, body op))); auto.
    { intros; reflexivity. } split; auto.
  - specialize (Ht t). simpl in Ht. destruct (thr !! t) as [[op p]|] eqn:E; [|done].
    destruct Ht as [Hrole Hw]. pose proof (wp_step1 t op log s g p spur HI Hw) as Hs.
    destruct p as [[r|]| | | | | | | | | |].
    1: { injection Ha as <-. exists g. split; [|by apply Hsame]. apply config_ok_return; [done|].
      apply (Hw (s, g)); [reflexivity | done]. }
    1: { injection Ha as <-. exists g. split; [|by apply Hsame].
      apply (config_ok_update s thr log t g s g (Some (op, body op))); auto.
      { intros; reflexivity. } split; [done|]. apply body_ok; auto.
      apply (Hw (s, g)); [reflexivity | done]. }
    all: destruct (step1 spur s _) as [s' p'| |];
      [ injection Ha as <-; simpl in Hal; destruct (Hs Hal) as (g' & HI' & Hrel & ?);
        exists g'; split;
        [ apply (config_ok_update s thr log t g _ _ (Some (op, p'))); simpl; auto
        | intros Obs _ HO; apply (HO (S t)), Hrel; lia ]
      | done | done ].
  - destruct (0 <=? d) eqn:E; [|done]. bool_to_prop. injection Ha as <-. exists g.
    destruct (tick_ok d s g E Hal HI) as [HI' Hr]. split; [|intros Obs _ HO; apply (HO O), Hr].
    split_and!; [done | done |].
    intros t. eapply thread_ok_stable; [apply Ht | apply Hr | done].
Qed.

Lemma config_ok_steps c c' g :
  config_ok c g -> rtc cstep c c' -> exists g', config_ok c' g' /\ observes c g c' g'.
Proof.
  intros Hc Hr. revert g Hc. induction Hr as [c|c1 c2 c3 Hs _ IH]; intros g Hc.
  - exists g. split; [done|]. intros Obs ? _. reflexivity.
  - destruct (config_ok_step c1 c2 g Hc Hs) as (g2 & Hc2 & Ho2).
    destruct (IH g2 Hc2) as (g3 & Hc3 & Ho3). exists g3. split; [done|].
    intros Obs HO HR. transitivity (c_sh c2, g2); [by apply Ho2 | by apply Ho3].
Qed.

(** Soundness: every reachable configuration is free of undefined behaviour,
    satisfies the invariant, and each thread between calls satisfies its
    assertion for the calls it has completed. *)
Theorem rg_sound s0 g0 c :
  Inv (s0, g0) -> (forall t, P t [] (s0, g0)) -> creach s0 c ->
  exists g, config_ok c g.
Proof.
  intros HI HP Hr.
  assert (H0 : config_ok (init_config s0) g0).
  { split_and!; [done | done |]. intros t. simpl. rewrite lookup_empty. apply HP. }
  destruct (config_ok_steps _ _ _ H0 Hr) as (g & Hc & _). by exists g.
Qed.
End System.

(** ** Refining the ghost state

    A proof of a thread's programs carries over to a system with more ghost state
    ([proj] forgets the rest), if every change that the smaller system tolerates
    is one the larger system tolerates. *)

Section Refine.
Context {G G' : Type} {W : Waits G} {W' : Waits G'} (proj : G' -> G).
Context (allowed allowed' : shared -> shared -> Prop).
Context (Inv : shared * G -> Prop) (Inv' : shared * G' -> Prop).
Context (rely : nat -> shared * G -> shared * G -> Prop) (rely' : nat -> shared * G' -> shared * G' -> Prop).

Definition down (s : shared * G') : shared * G := (s.1, proj s.2).

Context (t : nat).
Hypothesis Inv_down : forall s, Inv' s -> Inv (down s).
Hypothesis rely_down : forall s s', rely' t s s' -> rely t (down s) (down s').
Hypothesis waits_up : forall f v s, waits t f v (down s) -> waits t f v s.
Hypothesis allowed_down : forall s s', allowed' s s' -> allowed s s'.
Hypothesis change_up : forall s s1 g1, Inv' s -> allowed' s.1 s1 ->
  (forall t', t' <> t -> rely t' (down s) (s1, g1)) -> Inv (s1, g1) ->
  exists g1', proj g1' = g1 /\ (forall t', t' <> t -> rely' t' s (s1, g1')) /\ Inv' (s1, g1').

Lemma change_refine s s1 (K : shared * G -> Prop) (K' : shared * G' -> Prop) :
  Inv' s -> (forall s', K (down s') -> K' s') ->
  change allowed Inv rely t (down s) s1 K -> change allowed' Inv' rely' t s s1 K'.
Proof.
  intros HI HK Hc Ha. destruct (Hc (allowed_down _ _ Ha)) as (g1 & Hr & HI1 & HK1).
  destruct (change_up s s1 g1 HI Ha Hr HI1) as (g1' & <- & Hr' & HI1'). exists g1'. split_and!; auto.
Qed.

Lemma wp_refine {A} (Q : A -> shared * G -> Prop) p s :
  wp allowed Inv rely t Q p (down s) -> wp allowed' Inv' rely' t (fun a s => Q a (down s)) p s.
Proof.
  revert s. induction p as [a|f k IH|f v k IH|w f e d k IH|f v k IH|f v k IH|off n k IH|off bs k IH|k IH|k IH|];
    intros s Hw s' Hr HI; simpl in Hw; specialize (Hw _ (rely_down _ _ Hr) (Inv_down _ HI)); simpl in *;
    eauto using change_refine.
  - destruct Hw as [Hf Hs]. split; [auto|]. eauto using change_refine.
  - destruct Hw as [? Hw]. split; auto.
  - destruct Hw as (bs & ? & ?). eauto.
  - destruct Hw as (m & ? & ?). exists m. split; [done|]. eauto using change_refine.
Qed.
End Refine.
