(* ===== verification/Records.v ===== *)
(** * Records in a circular byte ring

    The variable-size rings (MPSC, MPMC and SPSC) store records: a
    [RecordHeader], the payload, and padding to a multiple of 8.  A record
    never crosses the end of the ring: the tail end is skipped, with a wrap
    record when a header still fits there.  This file holds the accesses the
    three rings share and the predicate [seg], which says which messages the
    bytes between two logical positions hold. *)

From Stdlib Require Import ZArith Lia Strings.Byte.
From stdpp Require Import base list numbers.
From S2P Require Import Prelude Memory Layout Prog.

(** ** Accesses *)

(** [a % b] on unsigned integers; a zero divisor is undefined behaviour. *)
Definition umod {A} (a b : Z) (k : Z -> prog A) : prog A :=
  if b =? 0 then Undefined else k (a mod b).

(** Plain loads and stores of an [n]-byte unsigned scalar. *)
Definition read_uint {A} (off : Z) (n : nat) (k : Z -> prog A) : prog A :=
  let! bs := Read off (Z.of_nat n) in k (le_dec bs).

Definition write_uint {A} (off : Z) (n : nat) (v : Z) (k : prog A) : prog A :=
  do! Write off (le_enc n v) in k.

(** The four member assignments that fill in a [RecordHeader] at [pos]. *)
Definition write_header {A} (pos : Z) (h : RecordHeader) (k : prog A) : prog A :=
  do! write_uint (pos + off_size) 4 (rh_size h) in
  do! write_uint (pos + off_type) 2 (rh_type h) in
  do! write_uint (pos + off_flags) 2 (rh_flags h) in
  do! write_uint (pos + off_sequence) 8 (rh_sequence h) in k.

Definition wrap_header : RecordHeader := mkRecordHeader 0 0 kWrapFlag 0.

(** [std::memcpy(ring + off, data, size)] from caller memory: a null pointer
    or a buffer shorter than [size] is undefined behaviour. *)
Definition memcpy_in {A} (off : Z) (data : option (list byte)) (size : Z) (k : prog A) : prog A :=
  match data with
  | Some bs => if size <=? Z.of_nat (length bs)
               then memcpy_to off (take (Z.to_nat size) bs) k else Undefined
  | None => Undefined
  end.

(** [std::vector<std::byte>::resize], and [memcpy] to the front of a vector
    that is long enough. *)
Definition resize (out : list byte) (n : Z) : list byte :=
  take (Z.to_nat n) out ++ replicate (Z.to_nat n - length out) x00.

Definition copy_front (out bs : list byte) : list byte := bs ++ drop (length bs) out.

(** [if (out.size() < n) out.resize(n)] followed by [memcpy(out.data(), bs, n)]. *)
Definition fill_out (out bs : list byte) : list byte :=
  let out := if Z.of_nat (length out) <? Z.of_nat (length bs)
             then resize out (Z.of_nat (length bs)) else out in
  copy_front out bs.

Lemma fill_out_eq out bs : fill_out out bs = bs ++ drop (length bs) out.
Proof.
  unfold fill_out, copy_front. case_if; [|done]. f_equal. unfold resize.
  rewrite Nat2Z.id, !drop_ge; [done | lia |].
  rewrite length_app, length_take, length_replicate. lia.
Qed.

(** What [try_pop] leaves behind: its result, the out vector, the type and,
    when the caller passed a pointer, the sequence number. *)
Record popped := mkPopped {
  p_ok : bool;
  p_out : list byte;
  p_type : Z;
  p_seq : option Z;
}.

(** ** Arguments of a push *)

(** The bytes a push is asked to send. *)
Definition push_payload (data : option (list byte)) (size : Z) : list byte :=
  match data with Some bs => take (Z.to_nat size) bs | None => [] end.

(** The caller's obligations: [size] and [type] fit their C++ types, and a
    non-null [data] points to at least [size] bytes. *)
Definition push_args_ok (data : option (list byte)) (size type : Z) : bool :=
  (0 <=? size) && (size <? 2 ^ 32) && (0 <=? type) && (type <? 2 ^ 16) &&
  match data with Some bs => size <=? Z.of_nat (length bs) | None => true end.

Lemma push_args_spec data size type :
  push_args_ok data size type = true ->
  0 <= size < 2 ^ 32 /\ 0 <= type < 2 ^ 16 /\
  ((data = None -> size = 0) -> Z.of_nat (length (push_payload data size)) = size).
Proof.
  unfold push_args_ok. intros H. bool_to_prop. split_and!; try lia.
  destruct data as [bs|]; simpl; intros Hn; bool_to_prop;
    [rewrite length_take; lia | rewrite Hn; done].
Qed.

(** ** Messages *)

Record msg := mkMsg { m_type : Z; m_payload : list byte; m_seq : Z }.

#[export] Instance msg_eq_dec : EqDecision msg.
Proof. solve_decision. Defined.

(** The sequence numbers of a published history: record [i] (from 0) carries
    [i + 1]. *)
Definition numbered (pub : list msg) : Prop :=
  forall i x, pub !! i = Some x -> m_seq x = u64 (Z.of_nat i + 1).

Lemma numbered_snoc pub x :
  numbered pub -> m_seq x = u64 (Z.of_nat (length pub) + 1) -> numbered (pub ++ [x]).
Proof.
  intros Hn Hx i y Hi. apply lookup_app_Some in Hi as [Hi | [Hl Hi]]; [eauto|].
  apply list_lookup_singleton_Some in Hi as [Hi <-].
  replace i with (length pub) by lia. done.
Qed.

(** ** Calls and their histories *)

(** The two operations of a ring and their results. *)
Inductive op :=
| OPush (data : option (list byte)) (size type : Z)
| OPop (out : list byte) (type : Z) (sequence : option Z).

Inductive res :=
| RPush (ok : bool)
| RPop (p : popped).

(** The messages of the successful pushes of a thread, in call order. *)
Definition pushed (l : list (op * res)) : list (Z * list byte) :=
  omap (fun e => match e with
                 | (OPush data size type, RPush true) => Some (type, push_payload data size)
                 | _ => None
                 end) l.

(** The arguments and results of the successful pops of a thread. *)
Definition pops (l : list (op * res)) : list (list byte * option Z * popped) :=
  omap (fun e => match e with
                 | (OPop out _ sq, RPop p) => if p_ok p then Some (out, sq, p) else None
                 | _ => None
                 end) l.

(** The last call of a thread was a pop that returned [false]. *)
Definition refused (l : list (op * res)) : Prop :=
  match list.last l with
  | Some (OPop _ _ _, RPop p) => p_ok p = false
  | _ => False
  end.

(** A pop that returns [false] leaves the caller's vector as it was. *)
Definition untouched (l : list (op * res)) : Prop :=
  Forall (fun e => match e with
                   | (OPop out _ _, RPop p) => p_ok p = false -> p_out p = out
                   | _ => True
                   end) l.

Definition msg_key (x : msg) : Z * list byte := (m_type x, m_payload x).

(** The effect of popping message [x] into a vector [out]. *)
Definition delivers (out : list byte) (sq : option Z) (p : popped) (x : msg) : Prop :=
  p = mkPopped true (fill_out out (m_payload x)) (m_type x)
        (match sq with Some _ => Some (m_seq x) | None => None end).

(** ** The contents of a stretch of the ring *)

(** The well-formed capacities: what [create_mapping] produces, and small
    enough for sums of three sizes to stay below [2^64]. *)
Definition cap_ok (cap : Z) : Prop := 0 < cap < 2 ^ 62 /\ (8 | cap).

Section Seg.
Context (cap : Z) (Hcap : cap_ok cap).

(** Bytes from logical position [a] to the end of the ring. *)
Definition room (a : Z) : Z := cap - a mod cap.

(** Header members of the record at logical position [a]. *)
Definition at_size (m : list byte) (a : Z) : Z := le_dec (rbytes cap m (a + off_size) 4).
Definition at_type (m : list byte) (a : Z) : Z := le_dec (rbytes cap m (a + off_type) 2).
Definition at_flags (m : list byte) (a : Z) : Z := le_dec (rbytes cap m (a + off_flags) 2).
Definition at_seq (m : list byte) (a : Z) : Z := le_dec (rbytes cap m (a + off_sequence) 8).

Definition is_wrap (m : list byte) (a : Z) : Prop := Z.land (at_flags m a) kWrapFlag <> 0.

(** The record of message [x] at [a]. *)
Record is_record (m : list byte) (a : Z) (x : msg) : Prop := {
  ir_room : record_size (Z.of_nat (length (m_payload x))) <= room a;
  ir_len : Z.of_nat (length (m_payload x)) < 2 ^ 32;
  ir_flags : Z.land (at_flags m a) kWrapFlag = 0;
  ir_size : at_size m a = Z.of_nat (length (m_payload x));
  ir_type : at_type m a = m_type x;
  ir_seq : at_seq m a = m_seq x;
  ir_payload : rbytes cap m (a + sizeof_RecordHeader) (Z.of_nat (length (m_payload x))) = m_payload x;
}.

Definition msize (x : msg) : Z := record_size (Z.of_nat (length (m_payload x))).

Inductive seg (m : list byte) : Z -> Z -> list msg -> Prop :=
| seg_nil a : seg m a a []
| seg_short a b xs :
    room a < sizeof_RecordHeader -> seg m (a + room a) b xs -> seg m a b xs
| seg_wrap a b xs :
    sizeof_RecordHeader <= room a -> is_wrap m a -> seg m (a + room a) b xs -> seg m a b xs
| seg_rec a b x xs :
    is_record m a x -> seg m (a + msize x) b xs -> seg m a b (x :: xs).

Lemma cap_pos : 0 < cap.
Proof. apply Hcap. Qed.

Lemma room_range a : 0 < room a <= cap.
Proof. unfold room. pose proof (Z.mod_pos_bound a cap cap_pos). lia. Qed.

Lemma pos_range a : 0 <= a mod cap < cap.
Proof. apply Z.mod_pos_bound, cap_pos. Qed.

(** The end of the ring is a position whose residue is 0. *)
Lemma room_end a : (a + room a) mod cap = 0.
Proof.
  unfold room. replace (a + (cap - a mod cap)) with (a - a mod cap + 1 * cap) by lia.
  rewrite Z.mod_add by (pose proof cap_pos; lia).
  rewrite Zminus_mod, Z.mod_mod, Z.sub_diag by (pose proof cap_pos; lia). done.
Qed.

Lemma msize_bounds x :
  Z.of_nat (length (m_payload x)) < 2 ^ 32 ->
  sizeof_RecordHeader + Z.of_nat (length (m_payload x)) <= msize x <
    sizeof_RecordHeader + Z.of_nat (length (m_payload x)) + 8 /\ (8 | msize x).
Proof. intros. apply record_size_bounds. lia. Qed.

Lemma is_record_msize m a x : is_record m a x ->
  sizeof_RecordHeader + Z.of_nat (length (m_payload x)) <= msize x <= room a.
Proof. intros []. pose proof (msize_bounds x). unfold msize in *. lia. Qed.

Lemma seg_le m a b xs : seg m a b xs -> a <= b.
Proof.
  induction 1; try (pose proof (room_range a)); try lia.
  apply is_record_msize in H. unfold sizeof_RecordHeader in *. lia.
Qed.

Lemma seg_app m a b c xs ys : seg m a b xs -> seg m b c ys -> seg m a c (xs ++ ys).
Proof. induction 1; simpl; eauto using seg. Qed.

(** [is_record] and [seg] depend only on the bytes they cover. *)
Lemma is_record_ext m m' a x :
  is_record m a x ->
  (forall y, a <= y < a + msize x -> rbyte cap m' y = rbyte cap m y) ->
  is_record m' a x.
Proof.
  intros Hr He. pose proof (is_record_msize _ _ _ Hr) as Hb.
  unfold sizeof_RecordHeader in *. destruct Hr.
  assert (Hx : forall o n, 0 <= o -> 0 <= n -> o + n <= 16 ->
    rbytes cap m' (a + o) n = rbytes cap m (a + o) n).
  { intros. apply rbytes_ext. intros. apply He. lia. }
  constructor; auto; unfold at_flags, at_size, at_type, at_seq, off_flags, off_size,
    off_type, off_sequence in *; rewrite ?Hx by lia; auto.
  rewrite <- ir_payload0 at 2. apply rbytes_ext. intros. apply He.
  unfold sizeof_RecordHeader in *. lia.
Qed.

Lemma is_wrap_ext m m' a :
  is_wrap m a -> (forall y, a <= y < a + sizeof_RecordHeader -> rbyte cap m' y = rbyte cap m y) ->
  is_wrap m' a.
Proof.
  unfold is_wrap, at_flags, sizeof_RecordHeader, off_flags. intros H He.
  erewrite rbytes_ext; [done|]. intros. apply He. lia.
Qed.

Lemma seg_ext m m' a b xs :
  seg m a b xs -> (forall y, a <= y < b -> rbyte cap m' y = rbyte cap m y) ->
  seg m' a b xs.
Proof.
  induction 1 as [a|a b xs ? H IH|a b xs ? ? H IH|a b x xs Hr H IH]; intros He;
    pose proof (room_range a); try (pose proof (seg_le _ _ _ _ H)).
  - constructor.
  - apply seg_short; [done|]. apply IH. intros; apply He; lia.
  - apply seg_wrap; [done | eapply is_wrap_ext; eauto; intros; apply He; lia |].
    apply IH. intros; apply He; lia.
  - pose proof (is_record_msize _ _ _ Hr). unfold sizeof_RecordHeader in *.
    apply seg_rec; [eapply is_record_ext; eauto; intros; apply He; lia|].
    apply IH. intros; apply He; lia.
Qed.

(** An empty stretch holds nothing. *)
Lemma seg_empty m a xs : seg m a a xs -> xs = [].
Proof.
  inversion 1 as [|? ? ? ? H'|? ? ? ? ? H'|? ? x ? Hr H']; subst; auto;
    apply seg_le in H'; pose proof (room_range a); try lia.
  apply is_record_msize in Hr. unfold sizeof_RecordHeader in *. lia.
Qed.

(** What is at the front of a non-empty stretch: bytes to skip, or a record;
    and how many bytes it takes. *)
Inductive front (m : list byte) (a : Z) : option msg -> Z -> Prop :=
| front_skip :
    room a < sizeof_RecordHeader \/ sizeof_RecordHeader <= room a /\ is_wrap m a ->
    front m a None (room a)
| front_rec x : is_record m a x -> front m a (Some x) (msize x).

Lemma is_record_inj m a x y : is_record m a x -> is_record m a y -> x = y.
Proof.
  intros [? ? ? Hs1 Ht1 Hq1 Hp1] [? ? ? Hs2 Ht2 Hq2 Hp2]. destruct x as [tx px qx], y as [ty py qy].
  simpl in *. assert (Hl : length px = length py) by lia. rewrite Hl in Hp1. congruence.
Qed.

Lemma front_det m a o d o' d' : front m a o d -> front m a o' d' -> o = o' /\ d = d'.
Proof.
  unfold sizeof_RecordHeader.
  assert (Hx : forall x, is_record m a x ->
    ~ (room a < sizeof_RecordHeader \/ sizeof_RecordHeader <= room a /\ is_wrap m a)).
  { intros x Hr [Hs | [_ Hw]].
    - apply is_record_msize in Hr. lia.
    - destruct Hr. unfold is_wrap in Hw. congruence. }
  intros [Hs | x Hr] [Hs' | x' Hr']; auto; try (exfalso; by eapply Hx).
  by replace x' with x by (eapply is_record_inj; eauto).
Qed.

Lemma front_pos m a o d : front m a o d -> 0 < d <= room a.
Proof.
  pose proof (room_range a). intros [? | x Hr]; [lia|].
  apply is_record_msize in Hr. unfold sizeof_RecordHeader in Hr. lia.
Qed.

Lemma front_ext m m' a o d :
  front m a o d -> (forall y, a <= y < a + d -> rbyte cap m' y = rbyte cap m y) ->
  front m' a o d.
Proof.
  intros [[Hs | [Hs Hw]] | x Hr] He; constructor; auto.
  - right. split; [done|]. eapply is_wrap_ext; eauto. intros; apply He; lia.
  - by eapply is_record_ext.
Qed.

(** A non-empty stretch starts with its front. *)
Lemma seg_front m a b xs :
  seg m a b xs -> a <> b ->
  exists o d xs', front m a o d /\ a + d <= b /\ xs = option_list o ++ xs' /\ seg m (a + d) b xs'.
Proof.
  intros Hs Hne. inversion Hs as [|? ? ? Hr Hs'|? ? ? Hr Hw Hs'|? ? x ? Hr Hs']; subst; [done|..];
    pose proof (seg_le _ _ _ _ Hs').
  - exists None, (room a), xs. split_and!; auto. constructor. auto.
  - exists None, (room a), xs. split_and!; auto. constructor. auto.
  - exists (Some x), (msize x), xs0. split_and!; auto. by constructor.
Qed.

(** Removing a known front. *)
Lemma seg_advance m a b xs o d :
  seg m a b xs -> front m a o d -> a + d <= b ->
  exists xs', xs = option_list o ++ xs' /\ seg m (a + d) b xs'.
Proof.
  intros Hs Hf Hle. pose proof (front_pos _ _ _ _ Hf).
  destruct (seg_front _ _ _ _ Hs) as (o' & d' & xs' & Hf' & _ & ? & ?); [lia|].
  destruct (front_det _ _ _ _ _ _ Hf Hf') as [-> ->]. eauto.
Qed.

(** A stretch that starts like a longer one leaves the rest of it. *)
Lemma seg_suffix m a b c xs ys : seg m a b xs -> seg m a c ys -> b <= c -> exists zs, seg m b c zs.
Proof.
  intros Hs. revert ys. induction Hs as [a|a b xs ? H IH|a b xs ? ? H IH|a b x xs Hr H IH]; intros ys Hc Hle;
    [eauto|..]; pose proof (seg_le _ _ _ _ H);
    (eapply seg_advance in Hc as (zs & _ & Hz); [exact (IH _ Hz Hle) | constructor; eauto | lia]).
Qed.

(** What a front covers is a stretch. *)
Lemma front_seg m a o d : front m a o d -> seg m a (a + d) (option_list o).
Proof.
  intros [[?|[? ?]]|x Hr]; simpl.
  - apply seg_short; [done | constructor].
  - apply seg_wrap; [done | done | constructor].
  - apply seg_rec; [done | constructor].
Qed.

(** Reading from the record at [a]. *)
Lemma mem_read_at m a off n :
  Z.of_nat (length m) = cap -> 0 <= off -> 0 < n -> off + n <= room a ->
  mem_read m (a mod cap + off) n = Some (rbytes cap m (a + off) n).
Proof.
  intros Hl Ho Hn Hr. unfold room in Hr.
  rewrite <- mod_add_small by (apply cap_pos || lia).
  apply mem_read_rbytes; [apply cap_pos | done | lia |].
  rewrite mod_add_small by (apply cap_pos || lia). lia.
Qed.

(** The unsigned arithmetic of the loop body, in terms of the logical
    positions. *)
Lemma remaining_eq T : 0 <= T -> idx_ok cap T -> sub64 cap (u64 T mod cap) = room T.
Proof.
  intros. rewrite u64_mod by (apply Hcap || done). unfold sub64, room.
  pose proof (pos_range T). destruct Hcap as [? _].
  apply u64_small. lia.
Qed.

End Seg.

(** ** Writing to a stretch that does not cross the end of the ring *)

Definition apart (o : Z) (bs : list byte) (e : Z * list byte) : Prop :=
  o + Z.of_nat (length bs) <= e.1 \/ e.1 + Z.of_nat (length e.2) <= o.

(** Closes the disjointness goals of the header writes. *)
Ltac all_apart :=
  repeat first [apply List.Forall_nil | apply List.Forall_cons];
  cbv [apart]; cbn [fst snd]; rewrite ?length_le_enc, ?length_take; lia.

Section Wrote.
Context {cap a n : Z} (Hcap : cap_ok cap) (Hn : 0 <= n <= room cap a).

(** [wrote l m]: the bytes at each offset of [l] from [a] are as listed. *)
Definition wrote (l : list (Z * list byte)) (m : list byte) : Prop :=
  Forall (fun e => 0 <= e.1 /\ e.1 + Z.of_nat (length e.2) <= n /\
                   rbytes cap m (a + e.1) (Z.of_nat (length e.2)) = e.2) l.

Lemma stretch_pos o (bs : list byte) : bs <> [] -> 0 <= o -> o + Z.of_nat (length bs) <= n ->
  (a + o) mod cap = a mod cap + o /\ (a + o) mod cap + Z.of_nat (length bs) <= cap.
Proof.
  intros Hbs Ho Hl. unfold room in Hn. destruct bs; [done|]. simpl in *.
  rewrite mod_add_small by (apply Hcap || lia). lia.
Qed.

Lemma wrote_splice l o bs m :
  wrote l m -> Z.of_nat (length m) = cap -> bs <> [] -> 0 <= o ->
  o + Z.of_nat (length bs) <= n -> Forall (apart o bs) l ->
  wrote ((o, bs) :: l) (splice m ((a + o) mod cap) bs).
Proof.
  intros Hw Hm Hbs Ho Hl Hap. pose proof (proj1 Hcap).
  pose proof (room_range cap Hcap a). destruct (stretch_pos o bs) as [Hp Hq]; auto.
  constructor; [simpl; split_and!; auto; apply rbytes_splice_same; lia|].
  apply Forall_forall. intros [o' bs'] Hin.
  unfold wrote in Hw. rewrite Forall_forall in Hw, Hap. specialize (Hap _ Hin). unfold apart in Hap.
  destruct (Hw _ Hin) as (? & ? & Hb). simpl in *. split_and!; auto.
  rewrite <- Hb at 2. apply rbytes_splice_other with (lo := a); lia.
Qed.

Lemma wrote_nil m : wrote [] m.
Proof. unfold wrote. constructor. Qed.

(** The written bytes form the record of the message. *)
Lemma wrote_record x m :
  Z.of_nat (length (m_payload x)) < 2 ^ 32 -> 0 <= m_type x < 2 ^ 16 ->
  0 <= m_seq x < 2 ^ 64 -> msize x <= n ->
  wrote [(8, le_enc 8 (m_seq x)); (16, m_payload x); (6, le_enc 2 0);
         (4, le_enc 2 (m_type x)); (0, le_enc 4 (Z.of_nat (length (m_payload x))))] m ->
  is_record cap m a x.
Proof.
  intros Hlen Hty Hsq Hms Hw. unfold wrote in Hw.
  rewrite !Forall_cons_iff in Hw. destruct Hw as (H8 & H16 & H6 & H4 & H0 & _).
  cbn [fst snd] in *. rewrite !length_le_enc in H8, H6, H4, H0.
  destruct H8 as (_ & _ & H8), H16 as (_ & _ & H16), H6 as (_ & _ & H6),
    H4 as (_ & _ & H4), H0 as (_ & _ & H0).
  change (Z.of_nat 8) with 8 in H8. change (Z.of_nat 2) with 2 in H6, H4.
  change (Z.of_nat 4) with 4 in H0. unfold msize in *.
  constructor; unfold at_flags, at_size, at_type, at_seq, off_flags, off_size,
    off_type, off_sequence; rewrite ?H8, ?H6, ?H4, ?H0, ?le_dec_enc by done;
    try lia; try (apply Z.mod_small; simpl; lia); done.
Qed.

(** A wrap record. *)
Lemma wrote_wrap m :
  wrote [(8, le_enc 8 0); (6, le_enc 2 kWrapFlag); (4, le_enc 2 0); (0, le_enc 4 0)] m ->
  is_wrap cap m a.
Proof.
  unfold wrote. rewrite !Forall_cons_iff. intros (_ & (_ & _ & H6) & _).
  unfold is_wrap, at_flags, off_flags. cbn [fst snd] in H6.
  rewrite length_le_enc in H6. change (Z.of_nat 2) with 2 in H6. by rewrite H6.
Qed.
End Wrote.

(** A zeroed 64-byte ring, for concrete runs. *)
Definition ring64 : shared := mkShared (mkControl 0 0 0 0 0) (replicate 64 x00) 0.

Lemma cap_ok_64 : cap_ok 64.
Proof. split; [lia | by exists 8]. Qed.
