(* ===== verification/Owner.v ===== *)
(** * Writing to an owned stretch of the ring

    A producer fills in its record byte by byte while other threads run.  It
    may, because it owns the stretch: no other thread writes there, and nobody
    reads it before it is published.  [RingOwner] is what a ring has to promise
    for that; the lemmas below are then the producer's side, for every ring. *)

From Stdlib Require Import ZArith Lia Strings.Byte.
From stdpp Require Import base list numbers.
From S2P Require Import Prelude Memory Layout Prog Records.

(** Thread [t] owns the [n] bytes from logical position [a] in the states that
    satisfy [Own]: other threads leave them alone, and writing to them is a
    change everybody tolerates. *)
Class RingOwner {G : Type} (cap : Z) (allowed : shared -> shared -> Prop)
    (Inv : shared * G -> Prop) (rely : nat -> shared * G -> shared * G -> Prop)
    (t : nat) (a n : Z) (Own : shared * G -> Prop) : Prop := {
  own_cap : cap_ok cap;
  own_room : 0 <= n <= room cap a;
  own_len : forall s, Inv s -> Z.of_nat (length (ring s.1)) = cap;
  own_stable : forall s s', Own s -> rely t s s' -> Inv s' ->
    Own s' /\ forall x, a <= x < a + n -> rbyte cap (ring s'.1) x = rbyte cap (ring s.1) x;
  own_write : forall s o bs, Own s -> Inv s -> bs <> [] -> 0 <= o ->
    o + Z.of_nat (length bs) <= n ->
    let m := splice (ring s.1) ((a + o) mod cap) bs in
    change allowed Inv rely t s (with_ring m s.1) (fun s' => s'.1 = with_ring m s.1 /\ Own s');
}.

Section Owner.
Context {G : Type} {W : Waits G} {cap : Z} {allowed : shared -> shared -> Prop}
  {Inv : shared * G -> Prop} {rely : nat -> shared * G -> shared * G -> Prop}
  {t : nat} {a n : Z} {Own : shared * G -> Prop}
  {Hown : RingOwner cap allowed Inv rely t a n Own}
  {rely_pre : forall t, PreOrder (rely t)}.

Abbreviation wp := (wp allowed Inv rely t).
Abbreviation wrote := (@wrote cap a n).

Lemma wrote_stable l s s' :
  Own s -> wrote l (ring s.1) -> rely t s s' -> Inv s' -> Own s' /\ wrote l (ring s'.1).
Proof.
  intros HO Hw Hr HI. destruct (own_stable _ _ HO Hr HI) as [HO' He]. split; [done|].
  eapply Forall_impl; [|exact Hw]. intros [o bs] (? & ? & Hb). simpl in *.
  split_and!; auto. rewrite <- Hb at 2. apply rbytes_ext. intros. apply He. lia.
Qed.

(** One plain store to the owned stretch. *)
Lemma wp_own_write {A} (Q : A -> shared * G -> Prop) l o bs k s :
  Own s -> wrote l (ring s.1) -> bs <> [] -> 0 <= o ->
  o + Z.of_nat (length bs) <= n -> Forall (apart o bs) l ->
  (forall s', Own s' -> wrote ((o, bs) :: l) (ring s'.1) -> wp Q k s') ->
  wp Q (Write (a mod cap + o) bs k) s.
Proof.
  intros HO Hw Hbs Ho Hl Hap Hk s' Hr HI.
  destruct (wrote_stable l s s') as [HO' Hw']; auto. pose proof (own_len _ HI) as Hlen.
  destruct (stretch_pos own_cap own_room o bs) as [Hp Hq]; auto.
  pose proof (pos_range cap own_cap a). pose proof (pos_range cap own_cap (a + o)).
  exists (splice (ring s'.1) ((a + o) mod cap) bs). split.
  - rewrite <- Hp. apply mem_write_Some; lia.
  - eapply change_mono; [| apply own_write; auto].
    intros s1 [Hs1 HO1]. apply Hk; [done|]. rewrite Hs1. apply (wrote_splice own_cap own_room); auto.
Qed.

(** [memcpy] to the owned stretch. *)
Lemma wp_own_memcpy {A} (Q : A -> shared * G -> Prop) l o bs k s :
  Own s -> wrote l (ring s.1) -> 0 <= o ->
  o + Z.of_nat (length bs) <= n -> Forall (apart o bs) l ->
  (forall s', Own s' -> wrote ((o, bs) :: l) (ring s'.1) -> wp Q k s') ->
  wp Q (memcpy_to (a mod cap + o) bs k) s.
Proof.
  intros HO Hw Ho Hl Hap Hk.
  apply wp_memcpy_to with
    (J := fun i s => Own s /\ wrote ((o, take i bs) :: l) (ring s.1)); auto.
  - split; [done|]. constructor; [simpl; split_and!; auto; lia | done].
  - intros i s1 s2 [HO1 Hw1] Hr HI. by apply wrote_stable with s1.
  - intros i b s1 Hi [HO1 Hw1] HI.
    pose proof (lookup_lt_Some _ _ _ Hi) as Hil. pose proof (own_len _ HI) as Hlen.
    destruct (stretch_pos own_cap own_room (o + Z.of_nat i) [b]) as [Hp Hq]; [done | lia | simpl; lia |].
    pose proof (pos_range cap own_cap a).
    exists (splice (ring s1.1) ((a + (o + Z.of_nat i)) mod cap) [b]). split.
    { rewrite Hp in *. rewrite <- mem_write_Some by (simpl in *; lia). f_equal. lia. }
    eapply change_mono; [| apply own_write; auto; simpl; lia].
    intros s2 [Hs2 HO2]. split; [done|]. rewrite Hs2. simpl.
    assert (Hb : length (take i bs) = i) by (rewrite length_take; lia).
    assert (Hw2 : wrote ((o + Z.of_nat i, [b]) :: (o, take i bs) :: l)
      (splice (ring s1.1) ((a + (o + Z.of_nat i)) mod cap) [b])).
    { apply (wrote_splice own_cap own_room); auto; [lia | simpl; lia |].
      constructor; [right; simpl; lia|]. eapply Forall_impl; [|exact Hap].
      intros [o' bs'] Hd. unfold apart in *. simpl in *. lia. }
    apply Forall_cons_iff in Hw2 as [Hx Hw2]. apply Forall_cons_iff in Hw2 as [Hy Hw2].
    simpl in Hx, Hy. rewrite Hb in Hy. constructor; [|done]. simpl.
    rewrite (take_S_r _ _ b), length_app, Hb by done. simpl.
    split_and!; [lia | lia |].
    rewrite Nat2Z.inj_add, rbytes_app by lia.
    f_equal; [apply Hy |]. rewrite <- Z.add_assoc. apply Hx.
  - intros s1 [HO1 Hw1]. rewrite take_ge in Hw1 by lia. auto.
Qed.

(** The four member assignments of a header. *)
Lemma wp_own_header {A} (Q : A -> shared * G -> Prop) h k s :
  Own s -> sizeof_RecordHeader <= n ->
  (forall s', Own s' ->
     wrote [(8, le_enc 8 (rh_sequence h)); (6, le_enc 2 (rh_flags h));
            (4, le_enc 2 (rh_type h)); (0, le_enc 4 (rh_size h))] (ring s'.1) ->
     wp Q k s') ->
  wp Q (write_header (a mod cap) h k) s.
Proof.
  unfold sizeof_RecordHeader. intros HO Hn Hk.
  unfold write_header, write_uint, off_size, off_type, off_flags, off_sequence.
  apply (wp_own_write _ [] 0 _ _ _ HO (wrote_nil _)); [done | done | rewrite length_le_enc; lia | constructor |].
  intros s1 HO1 Hw1.
  apply (wp_own_write _ _ _ _ _ _ HO1 Hw1); [done | done | rewrite length_le_enc; lia | |].
  { all_apart. }
  intros s2 HO2 Hw2.
  apply (wp_own_write _ _ _ _ _ _ HO2 Hw2); [done | done | rewrite length_le_enc; lia | |].
  { all_apart. }
  intros s3 HO3 Hw3.
  apply (wp_own_write _ _ _ _ _ _ HO3 Hw3); [done | done | rewrite length_le_enc; lia | |].
  { all_apart. }
  done.
Qed.

(** Filling in a record: header, then payload. *)
Lemma wp_own_fill {A} (Q : A -> shared * G -> Prop) data size type k s :
  Own s -> sizeof_RecordHeader + size <= n -> push_args_ok data size type = true ->
  (data = None -> size = 0) ->
  (forall s', Own s' ->
     wrote [(16, push_payload data size); (6, le_enc 2 0); (4, le_enc 2 type);
            (0, le_enc 4 size)] (ring s'.1) -> wp Q k s') ->
  wp Q (write_header (a mod cap) (mkRecordHeader size type 0 0)
          (if size >? 0 then memcpy_in (a mod cap + sizeof_RecordHeader) data size k
           else k)) s.
Proof.
  intros HO Hn Hv Hnull Hk. destruct (push_args_spec _ _ _ Hv) as (Hsz & Hty & Hpay).
  specialize (Hpay Hnull). unfold sizeof_RecordHeader in *.
  apply wp_own_header; [done | unfold sizeof_RecordHeader; lia |].
  cbn [rh_size rh_type rh_flags rh_sequence]. intros s1 HO1 Hw1.
  assert (Hw1' : wrote [(6, le_enc 2 0); (4, le_enc 2 type); (0, le_enc 4 size)] (ring s1.1)).
  { by apply Forall_cons_iff in Hw1 as [_ ?]. }
  case_if.
  - destruct data as [bs|]; [|specialize (Hnull eq_refl); lia]. unfold memcpy_in. simpl push_payload in *.
    rewrite length_take in Hpay. case_if; [|lia].
    apply (wp_own_memcpy _ _ _ _ _ _ HO1 Hw1'); auto; [lia | rewrite length_take; lia |].
    all_apart.
  - apply Hk; [done|]. assert (Hz : push_payload data size = []).
    { destruct (push_payload data size); [done | simpl in Hpay; lia]. }
    rewrite Hz. constructor; [simpl; split_and!; auto; lia | done].
Qed.

End Owner.

(** ** Reading a published record

    Thread [t] may read the record of message [x] at logical position [a] in
    the states that satisfy [Hold]: other threads keep both. *)
Class RingReader {G : Type} (cap : Z) (Inv : shared * G -> Prop)
    (rely : nat -> shared * G -> shared * G -> Prop) (t : nat) (a : Z) (x : msg)
    (Hold : shared * G -> Prop) : Prop := {
  rd_cap : cap_ok cap;
  rd_len : forall s, Inv s -> Z.of_nat (length (ring s.1)) = cap;
  rd_stable : forall s s', Hold s -> rely t s s' -> Inv s' -> Hold s';
  rd_record : forall s, Hold s -> Inv s -> is_record cap (ring s.1) a x;
}.

Section Reader.
Context {G : Type} {W : Waits G} {cap : Z} {allowed : shared -> shared -> Prop}
  {Inv : shared * G -> Prop} {rely : nat -> shared * G -> shared * G -> Prop}
  {t : nat} {a : Z} {x : msg} {Hold : shared * G -> Prop}
  {Hrd : RingReader cap Inv rely t a x Hold}
  {rely_pre : forall t, PreOrder (rely t)}.

Abbreviation wp := (wp allowed Inv rely t).

(** Any scalar inside the record, given its value. *)
Lemma wp_read_uint {A} (Q : A -> shared * G -> Prop) off n v k s :
  Hold s -> 0 <= off -> (0 < n)%nat -> off + Z.of_nat n <= sizeof_RecordHeader ->
  (forall m, is_record cap m a x -> le_dec (rbytes cap m (a + off) (Z.of_nat n)) = v) ->
  (forall s', Hold s' -> wp Q (k v) s') ->
  wp Q (read_uint (a mod cap + off) n k) s.
Proof.
  intros HO Ho Hn Hl Hv Hk s' Hr HI. pose proof (rd_stable _ _ HO Hr HI) as HO'.
  pose proof (rd_record _ HO' HI) as Hrec. pose proof (is_record_msize _ _ _ _ Hrec).
  exists (rbytes cap (ring s'.1) (a + off) (Z.of_nat n)). split.
  - apply mem_read_at; [apply rd_cap | by apply rd_len | lia..].
  - rewrite Hv by done. auto.
Qed.

Lemma wp_read_flags {A} (Q : A -> shared * G -> Prop) k s :
  Hold s -> (forall s' f, Hold s' -> Z.land f kWrapFlag = 0 -> wp Q (k f) s') ->
  wp Q (read_uint (a mod cap + off_flags) 2 k) s.
Proof.
  intros HO Hk s' Hr HI. pose proof (rd_stable _ _ HO Hr HI) as HO'.
  pose proof (rd_record _ HO' HI) as Hrec. pose proof (is_record_msize _ _ _ _ Hrec).
  exists (rbytes cap (ring s'.1) (a + off_flags) 2). split.
  - apply mem_read_at; unfold off_flags, sizeof_RecordHeader in *;
      [apply rd_cap | by apply rd_len | lia..].
  - apply Hk; [done|]. apply (ir_flags _ _ _ _ Hrec).
Qed.

Lemma wp_read_size {A} (Q : A -> shared * G -> Prop) k s :
  Hold s -> (forall s', Hold s' -> wp Q (k (Z.of_nat (length (m_payload x)))) s') ->
  wp Q (read_uint (a mod cap + off_size) 4 k) s.
Proof.
  intros. apply (wp_read_uint _ _ _ (Z.of_nat (length (m_payload x)))); [done | done | lia | done | | done].
  intros m Hm. apply (ir_size _ _ _ _ Hm).
Qed.

Lemma wp_read_type {A} (Q : A -> shared * G -> Prop) k s :
  Hold s -> (forall s', Hold s' -> wp Q (k (m_type x)) s') ->
  wp Q (read_uint (a mod cap + off_type) 2 k) s.
Proof.
  intros. apply (wp_read_uint _ _ _ (m_type x)); [done | done | lia | done | | done].
  intros m Hm. apply (ir_type _ _ _ _ Hm).
Qed.

Lemma wp_read_seq {A} (Q : A -> shared * G -> Prop) k s :
  Hold s -> (forall s', Hold s' -> wp Q (k (m_seq x)) s') ->
  wp Q (read_uint (a mod cap + off_sequence) 8 k) s.
Proof.
  intros. apply (wp_read_uint _ _ _ (m_seq x)); [done | done | lia | done | | done].
  intros m Hm. apply (ir_seq _ _ _ _ Hm).
Qed.

Lemma wp_read_payload {A} (Q : A -> shared * G -> Prop) k s :
  Hold s -> (forall s', Hold s' -> wp Q (k (m_payload x)) s') ->
  wp Q (memcpy_from (a mod cap + sizeof_RecordHeader) (length (m_payload x)) k) s.
Proof.
  intros HO Hk. apply wp_memcpy_from with
    (J := fun bs s => Hold s /\ bs = take (length bs) (m_payload x)); auto.
  - intros bs s1 s2 [H1 H2] Hr HI. split; [|done]. by apply rd_stable with s1.
  - intros bs s1 Hl [H1 H2] HI. pose proof (rd_record _ H1 HI) as Hrec.
    pose proof (is_record_msize _ _ _ _ Hrec) as Hms.
    pose proof (ir_payload _ _ _ _ Hrec) as Hp.
    exists (m_payload x !!! length bs). rewrite <- Z.add_assoc.
    rewrite mem_read_at; try (apply rd_cap || by apply rd_len);
      try (unfold sizeof_RecordHeader in *; lia).
    split.
    + f_equal. unfold rbytes. simpl. f_equal. rewrite Z.add_0_r.
      rewrite <- Hp at 1. replace (length bs) with (Z.to_nat (Z.of_nat (length bs))) at 2 by lia.
      rewrite rbytes_lookup by lia. f_equal. lia.
    + split; [done|]. rewrite length_app. simpl. rewrite Nat.add_1_r.
      rewrite H2 at 1. symmetry. apply take_S_r. by apply list_lookup_lookup_total_lt.
  - intros bs s1 Hl [H1 H2]. rewrite H2, Hl, take_ge by lia. auto.
Qed.
End Reader.

(** ** The single-consumer pop

    [SharedRingBuffer::try_pop_internal] and
    [SharedRingBufferSPSC::try_pop_internal] are the same loop up to the order
    in which the new head is stored, which is the parameter [advance] here.
    Both are instances of [pop_loop] by conversion.  [pop_rest] is what follows the
    two loads. *)
Definition pop_rest (advance : Z -> prog (option popped) -> prog (option popped))
    (capacity : Z) (out : list byte) (type : Z) (sequence : option Z) (tail head : Z)
  : prog (option popped) :=
  let fail := Ret (Some (mkPopped false out type sequence)) in
  if head =? tail then fail else
  let! pos := umod head capacity in
  let remaining := sub64 capacity pos in
  let skip := do! advance (add64 head remaining) in Ret None in
  if remaining <? sizeof_RecordHeader then skip else
  let! flags := read_uint (pos + off_flags) 2 in
  if negb (Z.land flags kWrapFlag =? 0) then skip else
  let! payload_size := read_uint (pos + off_size) 4 in
  let record_size := align_up (add64 sizeof_RecordHeader payload_size) kAlignment in
  if record_size >? remaining then fail else
  if sub64 tail head <? record_size then fail else
  let finish out :=
    let! type := read_uint (pos + off_type) 2 in
    let return_true sequence :=
      do! advance (add64 head record_size) in
      Ret (Some (mkPopped true out type sequence)) in
    match sequence with
    | Some _ => let! sq := read_uint (pos + off_sequence) 8 in return_true (Some sq)
    | None => return_true None
    end in
  let out := if Z.of_nat (length out) <? payload_size then resize out payload_size else out in
  if payload_size >? 0
  then let! bs := memcpy_from (pos + sizeof_RecordHeader) (Z.to_nat payload_size) in
       finish (copy_front out bs)
  else finish out.

Definition pop_loop (advance : Z -> prog (option popped) -> prog (option popped))
    (capacity : Z) (out : list byte) (type : Z) (sequence : option Z) : prog (option popped) :=
  let! tail := Load FTailPublish in
  let! head := Load FHeadPublish in
  pop_rest advance capacity out type sequence tail head.

(** What the loop needs of a ring.  [Knows pop] is what the consumer knows
    between calls (it has popped [pop]); [Seen H pop o d] what it knows once it
    has seen that the head is [H] and the [d] bytes there are [o]; [Dry pop] what
    it concludes from a ring that it finds empty after having popped [pop]. *)
Class RingConsumer {G : Type} {W : Waits G} (cap : Z) (allowed : shared -> shared -> Prop)
    (Inv : shared * G -> Prop) (rely : nat -> shared * G -> shared * G -> Prop) (t : nat)
    (advance : Z -> prog (option popped) -> prog (option popped))
    (Knows : list msg -> shared * G -> Prop)
    (Seen : Z -> list msg -> option msg -> Z -> shared * G -> Prop)
    (Dry : list msg -> Prop) : Prop := {
  rc_cap : cap_ok cap;
  rc_len : forall s, Inv s -> Z.of_nat (length (ring s.1)) = cap;
  rc_knows : forall pop s s', Knows pop s -> rely t s s' -> Inv s' -> Knows pop s';
  rc_forget : forall H pop o d s, Seen H pop o d s -> Knows pop s;
  rc_seen : forall H pop o d s s', Seen H pop o d s -> rely t s s' -> Inv s' -> Seen H pop o d s';
  rc_front : forall H pop o d s, Seen H pop o d s -> front cap (ring s.1) H o d;
  rc_loads : forall pop s1 s2, Knows pop s1 -> Inv s1 -> rely t s1 s2 -> Inv s2 ->
    exists H T, load FTailPublish s1.1 = u64 T /\ load FHeadPublish s2.1 = u64 H /\
      0 <= H <= T /\ T <= H + cap /\ idx_ok cap H /\
      (H = T /\ Dry pop \/ exists o d, H + d <= T /\ Seen H pop o d s2);
  rc_advance : forall (Q : option popped -> shared * G -> Prop) H pop o d k s,
    Seen H pop o d s ->
    (forall s', Knows (pop ++ option_list o) s' -> wp allowed Inv rely t Q k s') ->
    wp allowed Inv rely t Q (advance (u64 (H + d)) k) s;
}.

Section Consumer.
Context {G : Type} {W : Waits G} {cap : Z} {allowed : shared -> shared -> Prop}
  {Inv : shared * G -> Prop} {rely : nat -> shared * G -> shared * G -> Prop} {t : nat}
  {advance : Z -> prog (option popped) -> prog (option popped)}
  {Knows : list msg -> shared * G -> Prop}
  {Seen : Z -> list msg -> option msg -> Z -> shared * G -> Prop} {Dry : list msg -> Prop}
  {Hrc : RingConsumer cap allowed Inv rely t advance Knows Seen Dry}
  {rely_pre : forall t, PreOrder (rely t)}.

Abbreviation wp := (wp allowed Inv rely t).

(** The effect of a call: the ring found empty, or one message delivered. *)
Definition pop_post (out : list byte) (sq : option Z) (pop : list msg)
    (o : option popped) (s : shared * G) : Prop :=
  match o with
  | Some p => if p_ok p then exists x, delivers out sq p x /\ Knows (pop ++ [x]) s
              else p_out p = out /\ Knows pop s /\ Dry pop
  | None => Knows pop s
  end.

Lemma pop_unchanged out sq o pop s :
  match o with Some p => p_ok p = false /\ p_out p = out /\ Dry pop | None => True end ->
  Knows pop s -> wp (pop_post out sq pop) (Ret o) s.
Proof.
  intros Ho Hk s' Hr HI. unfold pop_post.
  destruct o as [p|]; [destruct Ho as (-> & ? & ?); split_and!; [done | | done] |]; by eapply rc_knows.
Qed.

Lemma consumer_reader H pop x :
  RingReader cap Inv rely t H x (Seen H pop (Some x) (msize x)).
Proof.
  split; [apply rc_cap | apply rc_len | intros; by eapply rc_seen |].
  intros s HS _. apply rc_front in HS. by inversion HS.
Qed.

(** Skipping the end of the ring. *)
Lemma pop_skip out sq H pop d s :
  Seen H pop None d s -> wp (pop_post out sq pop) (advance (u64 (H + d)) (Ret None)) s.
Proof.
  intros HS. eapply rc_advance; [exact HS|]. intros s' Hk. simpl in Hk.
  rewrite app_nil_r in Hk. by apply pop_unchanged.
Qed.

(** Copying out a record and returning it. *)
Lemma pop_record out sq H pop x s :
  Seen H pop (Some x) (msize x) s ->
  let pos := H mod cap in
  let finish out :=
    let! type := read_uint (pos + off_type) 2 in
    let return_true sequence :=
      do! advance (u64 (H + msize x)) in
      Ret (Some (mkPopped true out type sequence)) in
    match sq with
    | Some _ => let! sq := read_uint (pos + off_sequence) 8 in return_true (Some sq)
    | None => return_true None
    end in
  wp (pop_post out sq pop)
    (if Z.of_nat (length (m_payload x)) >? 0
     then memcpy_from (pos + sizeof_RecordHeader) (length (m_payload x))
            (fun bs => finish (copy_front
               (if Z.of_nat (length out) <? Z.of_nat (length (m_payload x))
                then resize out (Z.of_nat (length (m_payload x))) else out) bs))
     else finish (if Z.of_nat (length out) <? Z.of_nat (length (m_payload x))
                  then resize out (Z.of_nat (length (m_payload x))) else out)) s.
Proof.
  intros HS pos finish. pose proof (consumer_reader H pop x) as Hrd.
  assert (Hret : forall p s', delivers out sq p x -> Seen H pop (Some x) (msize x) s' ->
    wp (pop_post out sq pop) (advance (u64 (H + msize x)) (Ret (Some p))) s').
  { intros p s' Hp HS'. eapply rc_advance; [exact HS'|]. intros s2 Hk s3 Hr HI.
    unfold pop_post. replace (p_ok p) with true by (by rewrite Hp).
    exists x. split; [done|]. by eapply rc_knows. }
  assert (Hfin : forall s', Seen H pop (Some x) (msize x) s' ->
    wp (pop_post out sq pop) (finish (fill_out out (m_payload x))) s').
  { intros s1 HS1. apply (wp_read_type (Hrd := Hrd)); [done|]. intros s2 HS2.
    destruct sq as [q|].
    - apply (wp_read_seq (Hrd := Hrd)); [done|]. intros s3 HS3.
      refine (Hret (mkPopped _ _ _ _) s3 _ HS3). reflexivity.
    - refine (Hret (mkPopped _ _ _ _) s2 _ HS2). reflexivity. }
  destruct (Z.of_nat (length (m_payload x)) >? 0) eqn:E; bool_to_prop.
  - apply (wp_read_payload (Hrd := Hrd)); [done|]. intros s1 HS1. exact (Hfin _ HS1).
  - assert (Hnil : m_payload x = []) by (destruct (m_payload x); [done | simpl in *; lia]).
    specialize (Hfin _ HS). rewrite Hnil in *. exact Hfin.
Qed.

(** The loop body after its loads. *)
Lemma pop_rest_wp out type sq pop H T s2 :
  Knows pop s2 -> Inv s2 -> 0 <= H <= T -> T <= H + cap -> idx_ok cap H ->
  (H = T /\ Dry pop \/ exists o d, H + d <= T /\ Seen H pop o d s2) ->
  wp (pop_post out sq pop) (pop_rest advance cap out type sq (u64 T) (u64 H)) s2.
Proof.
  intros Hk2 HI2 HH HT Hidx Hcase. pose proof rc_cap as Hcap. pose proof (proj1 Hcap) as Hc. unfold pop_rest.
  destruct (decide (H = T)) as [<- | Hne].
  { rewrite Z.eqb_refl. apply pop_unchanged; [|done]. split_and!; [done | done |].
    destruct Hcase as [[_ ?] | (o & d & Hd & HS)]; [done|].
    apply rc_front, front_pos in HS; [lia | done]. }
  destruct Hcase as [[? _] | (o & d & Hd & HS)]; [done|].
  case_if; [apply u64_inj in Heqb; lia|].
  unfold umod. case_if; [lia|]. rewrite remaining_eq, u64_mod by (done || lia).
  rewrite add64_u64. pose proof (rc_front _ _ _ _ _ HS) as Hf.
  destruct Hf as [Hw | x Hrec].
  - case_if; [by apply pop_skip|]. destruct Hw as [? | [Hr Hw]]; [lia|].
    intros s3 Hr3 HI3. pose proof (rc_seen _ _ _ _ _ _ HS Hr3 HI3) as HS3.
    exists (rbytes cap (ring s3.1) (H + off_flags) 2). split.
    { apply mem_read_at; auto; unfold off_flags, sizeof_RecordHeader in *; try lia. by apply rc_len. }
    pose proof (rc_front _ _ _ _ _ HS3) as Hf3. inversion Hf3 as [Hw3|]; subst.
    destruct Hw3 as [? | [_ Hw3]]; [lia|].
    unfold is_wrap, at_flags in Hw3. apply Z.eqb_neq in Hw3. rewrite Hw3. by apply pop_skip.
  - pose proof (consumer_reader H pop x) as Hrd.
    pose proof (is_record_msize _ _ _ _ Hrec) as Hms.
    pose proof (ir_len _ _ _ _ Hrec) as Hlen. pose proof (msize_bounds x Hlen) as [Hmb _].
    case_if; [unfold sizeof_RecordHeader in *; lia|].
    apply (wp_read_flags (Hrd := Hrd)); [done|].
    intros s3 f HS3 Hfl. rewrite Hfl, Z.eqb_refl. simpl negb. cbv iota.
    apply (wp_read_size (Hrd := Hrd)); [done|].
    intros s4 HS4.
    replace (add64 sizeof_RecordHeader (Z.of_nat (length (m_payload x)))) with
      (sizeof_RecordHeader + Z.of_nat (length (m_payload x)))
      by (unfold add64, sizeof_RecordHeader; rewrite u64_small; lia).
    rewrite add64_u64.
    change (align_up (sizeof_RecordHeader + Z.of_nat (length (m_payload x))) kAlignment)
      with (msize x).
    case_if; [lia|]. rewrite sub64_u64 by lia. case_if; [lia|].
    rewrite Nat2Z.id. by apply pop_record.
Qed.
(** One iteration of the loop. *)
Lemma pop_loop_wp out type sq pop s :
  Knows pop s -> Inv s -> wp (pop_post out sq pop) (pop_loop advance cap out type sq) s.
Proof.
  intros Hk HI. unfold pop_loop.
  intros s1 Hr1 HI1. pose proof (rc_knows _ _ _ Hk Hr1 HI1) as Hk1.
  intros s2 Hr2 HI2. pose proof (rc_knows _ _ _ Hk1 Hr2 HI2) as Hk2.
  destruct (rc_loads _ _ _ Hk1 HI1 Hr2 HI2) as (H & T & -> & -> & HH & HT & Hidx & Hcase).
  by apply pop_rest_wp.
Qed.
End Consumer.

(** The consumer's call history after one more iteration of [pop_loop]: the
    successful pops are the popped messages, in order, and a call that was
    refused after the first [n] ones found the ring [Dry]. *)
Definition consumed {G} (Knows : list msg -> shared * G -> Prop) (Dry : list msg -> Prop)
    (n : nat) (l : list (op * res)) (s : shared * G) : Prop :=
  exists pop, Knows pop s /\ Forall2 (fun e x => delivers e.1.1 e.1.2 e.2 x) (pops l) pop /\
    untouched l /\ ((n < length l)%nat -> refused l -> Dry pop).

Lemma pop_history {G} {Knows : list msg -> shared * G -> Prop} {Dry} n out type sq l pop o s' :
  Forall2 (fun e x => delivers e.1.1 e.1.2 e.2 x) (pops l) pop -> untouched l ->
  ((n < length l)%nat -> refused l -> Dry pop) ->
  pop_post (Knows := Knows) (Dry := Dry) out sq pop o s' ->
  consumed Knows Dry n
    (l ++ match option_map RPop o with Some r => [(OPop out type sq, r)] | None => [] end) s'.
Proof.
  intros Hl HU HD. unfold consumed, untouched, pops, refused in *. rewrite omap_app.
  destruct o as [p|]; simpl; [|intros Hk; exists pop; by rewrite !app_nil_r].
  rewrite last_snoc. destruct (p_ok p) eqn:E; simpl.
  - intros (x & Hd & Hk). exists (pop ++ [x]).
    split_and!; [done | by apply Forall2_app; auto | | intros _ ?; congruence].
    apply Forall_app. split; [done|]. apply Forall_singleton. congruence.
  - intros (Hout & Hk & Hdry). exists pop. rewrite app_nil_r. split_and!; try done.
    apply Forall_app. split; [done|]. by apply Forall_singleton.
Qed.

Lemma consumed_stable {G} (Knows : list msg -> shared * G -> Prop) Dry n l s s' :
  (forall pop, Knows pop s -> Knows pop s') -> consumed Knows Dry n l s -> consumed Knows Dry n l s'.
Proof. intros H (pop & ? & ? & ? & ?). exists pop. auto. Qed.
