(* ===== verification/SpscRing.v ===== *)
(** * shared_ring_buffer_spsc.cpp: the variable-size SPSC ring

    [SharedRingBufferSPSC]: one producer thread calls [try_push], one consumer
    thread calls [try_pop].  Each definition below is one iteration of the
    [for (;;)] loop of the method it is named after. *)

From Stdlib Require Import ZArith Lia Strings.Byte.
From stdpp Require Import base list numbers gmap.
From S2P Require Import Prelude Memory Layout Prog Records Owner.

(** The loop body of [try_push] after its two loads. *)
Definition push_rest (capacity : Z) (data : option (list byte)) (size type record_size head tail : Z)
  : prog (option bool) :=
  let used := sub64 tail head in
  if used >? capacity then Ret (Some false) else
  let! pos := umod tail capacity in
  let remaining := sub64 capacity pos in
  if remaining <? sizeof_RecordHeader then
    if add64 used remaining >? capacity then Ret (Some false) else
    let tail := add64 tail remaining in
    do! Store FTailReserve tail in
    do! Store FTailPublish tail in
    Ret None
  else if remaining <? record_size then
    let padding := remaining in
    if add64 (add64 used padding) record_size >? capacity then Ret (Some false) else
    let publish_padding :=
      let tail := add64 tail padding in
      do! Store FTailReserve tail in
      do! Store FTailPublish tail in
      Ret None in
    if padding >=? sizeof_RecordHeader
    then do! write_header pos wrap_header in publish_padding
    else publish_padding
  else if add64 used record_size >? capacity then Ret (Some false) else
  do! write_header pos (mkRecordHeader size type 0 0) in
  let publish :=
    let! sq := FetchAdd FSequence 1 in
    do! write_uint (pos + off_sequence) 8 (add64 sq 1) in
    let tail := add64 tail record_size in
    do! Store FTailReserve tail in
    do! Store FTailPublish tail in
    Ret (Some true) in
  if size >? 0
  then do! memcpy_in (pos + sizeof_RecordHeader) data size in publish
  else publish.

(** [capacity] is [mapping_.capacity]; [data] is [None] for a null pointer. *)
Definition try_push (capacity : Z) (data : option (list byte)) (size type : Z)
  : prog (option bool) :=
  if (match data with None => true | Some _ => false end) && negb (size =? 0)
  then Ret (Some false) else
  let record_size := align_up (add64 sizeof_RecordHeader size) kAlignment in
  if record_size >? capacity then Ret (Some false) else
  let! head := Load FHeadPublish in
  let! tail := Load FTailPublish in
  push_rest capacity data size type record_size head tail.

Definition try_pop_internal (capacity : Z) (out : list byte) (type : Z) (sequence : option Z)
  : prog (option popped) :=
  let fail := Ret (Some (mkPopped false out type sequence)) in
  let! tail := Load FTailPublish in
  let! head := Load FHeadPublish in
  if head =? tail then fail else
  let! pos := umod head capacity in
  let remaining := sub64 capacity pos in
  let skip :=
    let head := add64 head remaining in
    do! Store FHeadReserve head in
    do! Store FHeadPublish head in
    Ret None in
  if remaining <? sizeof_RecordHeader then skip else
  let! flags := read_uint (pos + off_flags) 2 in
  if negb (Z.land flags kWrapFlag =? 0) then skip else
  let! payload_size := read_uint (pos + off_size) 4 in
  let record_size := align_up (add64 sizeof_RecordHeader payload_size) kAlignment in
  if record_size >? remaining then fail else
  if sub64 tail head <? record_size then fail else
  let finish out :=
    let! type := read_uint (pos + off_type) 2 in
    let return_true sequence :=
      let head := add64 head record_size in
      do! Store FHeadReserve head in
      do! Store FHeadPublish head in
      Ret (Some (mkPopped true out type sequence)) in
    match sequence with
    | Some _ => let! sq := read_uint (pos + off_sequence) 8 in return_true (Some sq)
    | None => return_true None
    end in
  let out := if Z.of_nat (length out) <? payload_size then resize out payload_size else out in
  if payload_size >? 0
  then let! bs := memcpy_from (pos + sizeof_RecordHeader) (Z.to_nat payload_size) in
       finish (copy_front out bs)
  else finish out.

(** The two public overloads. *)
Definition try_pop (capacity : Z) (out : list byte) (type : Z) : prog (option popped) :=
  try_pop_internal capacity out type None.
Definition try_pop_seq (capacity : Z) (out : list byte) (type sequence : Z) : prog (option popped) :=
  try_pop_internal capacity out type (Some sequence).

(** The [std::span] overload of [try_push]: the length is narrowed to 32 bits. *)
Definition try_push_span (capacity : Z) (data : list byte) (type : Z) : prog (option bool) :=
  try_push capacity (Some data) (u32 (Z.of_nat (length data))) type.

Definition approx_size (capacity : Z) : prog Z :=
  let! head := Load FHeadPublish in
  let! tail := Load FTailPublish in
  let used := sub64 tail head in
  if used >? capacity then Ret capacity else Ret used.

(** ** Concurrent correctness

    Thread 1 is the producer and thread 0 the consumer. *)

Definition body (capacity : Z) (o : op) : prog (option res) :=
  match o with
  | OPush data size type => pmap (option_map RPush) (try_push capacity data size type)
  | OPop out type sq => pmap (option_map RPop) (try_pop_internal capacity out type sq)
  end.

Definition role (t : nat) (o : op) : bool :=
  match t, o with
  | 1%nat, OPush data size type => push_args_ok data size type
  | O, OPop _ _ _ => true
  | _, _ => false
  end.

Section Spsc.
Context (cap : Z) (Hcap : cap_ok cap).

(** Ghost state: the logical head and tail, everything ever published and
    everything ever popped. *)
Record ghost := mkGhost { gH : Z; gT : Z; gpub : list msg; gpop : list msg }.

Abbreviation state := (shared * ghost)%type.

Record Inv (s : state) : Prop := {
  i_len : Z.of_nat (length (ring s.1)) = cap;
  i_head : load FHeadPublish s.1 = u64 (gH s.2);
  i_tail : load FTailPublish s.1 = u64 (gT s.2);
  i_pos : 0 <= gH s.2 <= gT s.2 /\ gT s.2 <= gH s.2 + cap;
  i_idx : idx_ok cap (gT s.2);
  i_seg : exists xs, seg cap (ring s.1) (gH s.2) (gT s.2) xs /\ gpub s.2 = gpop s.2 ++ xs;
  i_num : numbered (gpub s.2);
  i_sq : u64 (load FSequence s.1) = load FSequence s.1;
}.

Definition consumer_rely (s s' : state) : Prop :=
  gH s'.2 = gH s.2 /\ gpop s'.2 = gpop s.2 /\ gT s.2 <= gT s'.2 /\
  load FHeadReserve s'.1 = load FHeadReserve s.1 /\ gpub s.2 `prefix_of` gpub s'.2 /\
  forall x, gH s.2 <= x < gT s.2 -> rbyte cap (ring s'.1) x = rbyte cap (ring s.1) x.

Definition producer_rely (s s' : state) : Prop :=
  ring s'.1 = ring s.1 /\ gT s'.2 = gT s.2 /\ gpub s'.2 = gpub s.2 /\
  load FSequence s'.1 = load FSequence s.1 /\ gH s.2 <= gH s'.2 /\
  exists xs, seg cap (ring s.1) (gH s.2) (gH s'.2) xs.

(** An observer sees the published messages accumulate. *)
Definition observer_rely (s s' : state) : Prop := gpub s.2 `prefix_of` gpub s'.2.

Definition rely (t : nat) : state -> state -> Prop :=
  match t with
  | O => consumer_rely
  | 1%nat => producer_rely
  | _ => observer_rely
  end.

#[local] Instance spsc_rely_pre t : PreOrder (rely t).
Proof.
  destruct t as [|[|t]]; simpl;
    unfold consumer_rely, producer_rely, observer_rely; split; try by intros ?.
  - intros s1 s2 s3 (H1 & H2 & H3 & H5 & H6 & H4) (H1' & H2' & H3' & H5' & H6' & H4'). cbv beta.
    split_and!; try congruence; [lia | by etrans |]. intros x Hx. rewrite H4', H4; auto. lia.
  - intros s. split_and!; try done. exists []. constructor.
  - intros s1 s2 s3 (Hr & ? & ? & ? & ? & xs & Hx) (? & ? & ? & ? & ? & ys & Hy). cbv beta.
    split_and!; try congruence; [lia|]. exists (xs ++ ys). rewrite Hr in Hy. by eapply seg_app.
  - intros s1 s2 s3 ? ?. by etrans.
Qed.

(** Executions in which the 64-bit tail counter does not wrap around, or
    any execution when the capacity divides [2^64]. *)
Definition no_wrap (s s' : shared) : Prop :=
  (cap | 2 ^ 64) \/ load FTailPublish s <= load FTailPublish s'.

Definition producer_knows (sent : list (Z * list byte)) (s : state) : Prop :=
  msg_key <$> gpub s.2 = sent /\ load FSequence s.1 = u64 (Z.of_nat (length (gpub s.2))).

(** The consumer between calls, and while it has seen nothing: [pub] was
    published at some earlier point. *)
Definition Knows (pub pop : list msg) (s : state) : Prop :=
  gpop s.2 = pop /\ load FHeadReserve s.1 = u64 (gH s.2) /\ pub `prefix_of` gpub s.2.

(** All of [pub] has been popped. *)
Definition Dry (pub pop : list msg) : Prop := (length pub <= length pop)%nat.

Definition P (pub : list msg) (n : nat) (t : nat) (l : list (op * res)) (s : state) : Prop :=
  match t with
  | O => consumed (Knows pub) (Dry pub) n l s
  | 1%nat => producer_knows (pushed l) s
  | _ => True
  end.

Lemma spsc_producer_knows_stable sent s s' :
  producer_knows sent s -> producer_rely s s' -> producer_knows sent s'.
Proof. intros [? ?] (? & ? & Hp & ? & ?). split; rewrite ?Hp; congruence. Qed.

(** A change by the producer: tolerable for the consumer, and nobody else
    runs. *)
Lemma producer_change s s1 g' K :
  consumer_rely s (s1, g') ->
  (no_wrap s.1 s1 -> Inv (s1, g')) -> K (s1, g') -> change no_wrap Inv rely 1 s s1 K.
Proof.
  intros Hr. intros. intros Ha. exists g'. split_and!; auto. intros [|[|t']] ?; [done.. |].
  apply Hr.
Qed.

Lemma consumer_change s s1 g' K :
  producer_rely s (s1, g') -> Inv (s1, g') -> K (s1, g') ->
  change no_wrap Inv rely 0 s s1 K.
Proof.
  intros Hr. intros. intros _. exists g'. split_and!; auto. intros [|[|t']] ?; [done.. |].
  destruct Hr as (_ & _ & Hp & _). unfold rely, observer_rely. by rewrite Hp.
Qed.

(** The producer owns what lies between the tail and the head one lap
    ahead. *)
Definition Own (H T : Z) (pub : list msg) (sq : Z) (s : state) : Prop :=
  gT s.2 = T /\ H <= gH s.2 /\ gpub s.2 = pub /\ load FSequence s.1 = sq.

#[local] Instance producer_owner H T pub sq n :
  0 <= n <= room cap T -> T + n <= H + cap ->
  RingOwner cap no_wrap Inv rely 1 T n (Own H T pub sq).
Proof.
  intros Hn Hle. split; auto.
  - apply i_len.
  - intros s s' (? & ? & ? & ?) (Hr & ? & ? & ? & ?) HI. split.
    + unfold Own. split_and!; congruence || lia.
    + intros. by rewrite Hr.
  - intros s o bs (HT & HH & Hp & Hs) HI Hbs Ho Hl m. destruct HI.
    assert (Hpos : (T + o) mod cap + Z.of_nat (length bs) <= cap).
    { destruct bs; [done|]. simpl in *. pose proof (cap_pos cap Hcap).
      unfold room in Hn. rewrite mod_add_small by lia. lia. }
    pose proof (pos_range cap Hcap (T + o)).
    assert (He : forall x, gH s.2 <= x < gT s.2 -> rbyte cap m x = rbyte cap (ring s.1) x).
    { intros x Hx. unfold m. apply rbyte_splice_other with (lo := gH s.2);
        try apply Hcap; lia. }
    apply producer_change with (g' := s.2).
    + unfold consumer_rely. split_and!; auto. reflexivity.
    + intros _. destruct i_seg0 as (xs & Hseg & Hx). constructor; auto; simpl.
      * unfold m. rewrite length_splice by lia. done.
      * exists xs. split; [|done]. by apply seg_ext with (ring s.1).
    + split; [done|]. by repeat split.
Qed.

(** Publishing [d] bytes that hold the messages [xs]. *)
Lemma spsc_wp_publish {A} (Q : A -> state -> Prop) H T pub sq d xs k s :
  Own H T pub sq s -> seg cap (ring s.1) T (T + d) xs -> numbered (pub ++ xs) ->
  0 < d <= cap -> T + d <= H + cap ->
  (forall s', Own H (T + d) (pub ++ xs) sq s' -> wp no_wrap Inv rely 1 Q k s') ->
  wp no_wrap Inv rely 1 Q
    (Store FTailReserve (add64 (u64 T) d) (Store FTailPublish (add64 (u64 T) d) k)) s.
Proof.
  rewrite add64_u64. intros HO Hseg Hnum Hd Hle Hk s1 (Hr & H1 & H2 & H3 & H4) HI.
  destruct HO as (HT & HH & Hp & Hs). rewrite <- Hr in Hseg.
  apply producer_change with (g' := s1.2);
    [unfold consumer_rely; sh_simpl; split_and!; auto; reflexivity | |].
  { intros _. destruct HI. constructor; simpl; autorewrite with lfring; auto. }
  intros s2 (Hr' & H1' & H2' & H3' & H4') HI2. simpl in Hr'. rewrite <- Hr' in Hseg.
  apply producer_change with (g' := mkGhost (gH s2.2) (T + d) (pub ++ xs) (gpop s2.2)).
  - unfold consumer_rely. sh_simpl. split_and!; auto; [lia|].
    rewrite H2', H2, Hp. by apply prefix_app_r.
  - intros Hnw. destruct HI2 as [? ? Ht ? Hidx Hsg ?]. simpl in *.
    assert (gT s2.2 = T) as HT2 by congruence. rewrite HT2 in *.
    destruct Hsg as (ys & Hys & Hpub). constructor; simpl; autorewrite with lfring; auto; [lia | |].
    + destruct Hidx as [Hs64 | ?]; [|by right]. destruct Hnw as [? | Hnw]; [by right|].
      left. autorewrite with lfring in Hnw.
      rewrite Ht in Hnw. destruct Hcap as [? _]. unfold u64 in *. dlia.
    + exists (ys ++ xs). split; [by eapply seg_app|]. by rewrite app_assoc, <- Hpub, H2', H2, Hp.
  - apply Hk. unfold Own. simpl in *. autorewrite with lfring in *.
    split_and!; auto; [lia | congruence].
Qed.

Abbreviation wp1 := (wp no_wrap Inv rely 1).

(** What a push returns and what the producer knows then. *)
Definition push_post (sent : list (Z * list byte)) (x : Z * list byte) (o : option bool)
    (s : state) : Prop :=
  producer_knows (sent ++ match o with Some true => [x] | _ => [] end) s.

Lemma spsc_push_unchanged sent x o s :
  o <> Some true -> producer_knows sent s -> wp1 (push_post sent x) (Ret o) s.
Proof.
  intros Ho Hk s' Hr _. unfold push_post.
  replace (match o with Some true => [x] | _ => [] end) with (@nil (Z * list byte))
    by (destruct o as [[]|]; done).
  rewrite app_nil_r. by eapply spsc_producer_knows_stable.
Qed.

Lemma Own_knows H T pub s :
  Own H T pub (u64 (Z.of_nat (length pub))) s -> producer_knows (msg_key <$> pub) s.
Proof. intros (? & ? & Hp & ?). split; rewrite Hp; done. Qed.

(** Skipping to the start of the ring, with a wrap record if one fits. *)
Lemma push_skip x H T pub s :
  Own H T pub (u64 (Z.of_nat (length pub))) s -> numbered pub ->
  T + room cap T <= H + cap ->
  let publish := Store FTailReserve (add64 (u64 T) (room cap T))
                   (Store FTailPublish (add64 (u64 T) (room cap T)) (Ret None)) in
  wp1 (push_post (msg_key <$> pub) x)
    (if room cap T >=? sizeof_RecordHeader
     then write_header (T mod cap) wrap_header publish else publish) s.
Proof.
  intros HO Hnum Hle publish. pose proof (room_range cap Hcap T).
  assert (Hpub : forall s', Own H T pub (u64 (Z.of_nat (length pub))) s' ->
    room cap T < sizeof_RecordHeader \/ is_wrap cap (ring s'.1) T ->
    wp1 (push_post (msg_key <$> pub) x) publish s').
  { intros s' HO' Hw. eapply (spsc_wp_publish _ H T pub _ _ []); eauto; try lia.
    - destruct (decide (room cap T < sizeof_RecordHeader)).
      + apply seg_short; [done | constructor].
      + destruct Hw; [done|]. apply seg_wrap; [lia | done | constructor].
    - by rewrite app_nil_r.
    - rewrite app_nil_r. intros s2 HO2. apply spsc_push_unchanged; [done|].
      by eapply Own_knows. }
  rewrite Z.geb_leb. case_if; [|apply Hpub; auto].
  pose proof (producer_owner H T pub (u64 (Z.of_nat (length pub))) (room cap T)
    ltac:(lia) Hle) as Hown.
  apply (wp_own_header (Hown := Hown)); [done | done |].
  intros s' HO' Hw. apply Hpub; [done|]. right. by eapply wrote_wrap.
Qed.

(** Writing and publishing one record. *)
Lemma push_record data size type H T pub s :
  push_args_ok data size type = true -> (data = None -> size = 0) ->
  Own H T pub (u64 (Z.of_nat (length pub))) s -> numbered pub ->
  record_size size <= room cap T -> T + record_size size <= H + cap ->
  let publish :=
    let! sq := FetchAdd FSequence 1 in
    do! write_uint (T mod cap + off_sequence) 8 (add64 sq 1) in
    do! Store FTailReserve (add64 (u64 T) (record_size size)) in
    do! Store FTailPublish (add64 (u64 T) (record_size size)) in
    Ret (Some true) in
  wp1 (push_post (msg_key <$> pub) (type, push_payload data size))
    (write_header (T mod cap) (mkRecordHeader size type 0 0)
      (if size >? 0 then memcpy_in (T mod cap + sizeof_RecordHeader) data size publish
       else publish)) s.
Proof.
  intros Hv Hnull HO Hnum Hroom Hle publish.
  destruct (push_args_spec _ _ _ Hv) as (Hsz & Hty & Hpay). specialize (Hpay Hnull).
  pose proof (record_size_bounds size Hsz) as [Hrs _].
  pose proof (producer_owner H T pub (u64 (Z.of_nat (length pub))) (record_size size)
    ltac:(unfold sizeof_RecordHeader in *; lia) Hle) as Hown.
  apply (wp_own_fill (Hown := Hown)); auto; [lia|].
  intros s1 HO1 Hw1. unfold publish.
  set (x := mkMsg type (push_payload data size) (u64 (Z.of_nat (length pub) + 1))).
  intros s2 Hr2 HI2. destruct (wrote_stable (Hown := Hown) _ _ _ HO1 Hw1 Hr2 HI2) as [HO2 Hw2].
  destruct HO2 as (HT2 & HH2 & Hp2 & Hs2). rewrite Hs2, add64_u64.
  apply producer_change with (g' := s2.2).
  { unfold consumer_rely. sh_simpl. split_and!; auto. reflexivity. }
  { intros _. destruct HI2. constructor; sh_simpl; auto. }
  set (sq := u64 (Z.of_nat (length pub) + 1)).
  pose proof (producer_owner H T pub sq (record_size size)
    ltac:(unfold sizeof_RecordHeader in *; lia) Hle) as Hown'.
  unfold write_uint.
  apply (wp_own_write (Hown := Hown') _
    [(16, push_payload data size); (6, le_enc 2 0); (4, le_enc 2 type); (0, le_enc 4 size)]
    off_sequence).
  - unfold Own. sh_simpl. split_and!; auto.
  - sh_simpl. exact Hw2.
  - done.
  - done.
  - rewrite length_le_enc. unfold off_sequence, sizeof_RecordHeader in *. lia.
  - unfold off_sequence. all_apart.
  - intros s3 HO3 Hw3.
    apply (spsc_wp_publish _ H T pub sq (record_size size) [x]); auto.
    + replace (record_size size) with (msize x) by (unfold msize; simpl; congruence).
      apply seg_rec; [|constructor].
      apply (wrote_record (own_room (RingOwner := Hown'))); simpl; try lia; [apply u64_range | |].
      * unfold msize. simpl. rewrite Hpay. lia.
      * by rewrite Hpay.
    + by apply numbered_snoc.
    + unfold sizeof_RecordHeader in *. pose proof (room_range cap Hcap T). lia.
    + intros s4 (? & ? & Hp4 & Hs4) s5 Hr5 HI5. unfold push_post.
      apply spsc_producer_knows_stable with s4; [|exact Hr5].
      split; [by rewrite Hp4, fmap_app|]. rewrite Hp4, length_app. simpl. rewrite Hs4.
      unfold sq. f_equal. lia.
Qed.

(** The loop body after its loads: [H] is a head that was seen. *)
Lemma push_rest_wp data size type H T s2 :
  push_args_ok data size type = true -> (data = None -> size = 0) -> record_size size <= cap ->
  Own H T (gpub s2.2) (u64 (Z.of_nat (length (gpub s2.2)))) s2 -> H <= T -> T <= H + cap -> Inv s2 ->
  wp1 (push_post (msg_key <$> gpub s2.2) (type, push_payload data size))
    (push_rest cap data size type (record_size size) (u64 H) (u64 T)) s2.
Proof.
  intros Hv Hnull Hrc HO HHT HTH HI2. destruct (push_args_spec _ _ _ Hv) as (Hsz & Hty & _).
  pose proof (record_size_bounds size Hsz) as [Hrs _].
  unfold sizeof_RecordHeader in Hrs. destruct Hcap as [Hc _]. unfold push_rest.
  rewrite sub64_u64 by lia. case_if; [lia|]. unfold umod. case_if; [lia|].
  pose proof (i_idx _ HI2) as Hidx. pose proof (i_pos _ HI2). destruct HO as (<- & HO'). set (T := gT s2.2) in *.
  assert (HO : Own H T (gpub s2.2) (u64 (Z.of_nat (length (gpub s2.2)))) s2) by (by split).
  pose proof (room_range cap Hcap T) as HR.
  rewrite remaining_eq by (lia || done). rewrite u64_mod by (lia || done).
  pose proof (i_num _ HI2) as Hnum.
  assert (Ha : forall a b, 0 <= a -> 0 <= b -> a + b < 2 ^ 64 -> add64 a b = a + b)
    by (intros; unfold add64; apply u64_small; lia).
  rewrite !(Ha (T - H)) by lia.
  destruct (room cap T <? sizeof_RecordHeader) eqn:E1; bool_to_prop.
  - case_if; [apply spsc_push_unchanged; [done | by eapply Own_knows]|].
    pose proof (push_skip (type, push_payload data size) H T (gpub s2.2) s2 HO Hnum
      ltac:(lia)) as Hs. simpl in Hs. rewrite Z.geb_leb in Hs.
    by rewrite (proj2 (Z.leb_gt _ _) E1) in Hs.
  - unfold sizeof_RecordHeader in E1. destruct (room cap T <? record_size size) eqn:E2; bool_to_prop.
    + rewrite Ha by lia. case_if; [apply spsc_push_unchanged; [done | by eapply Own_knows]|].
      apply (push_skip _ H T); auto. lia.
    + case_if; [apply spsc_push_unchanged; [done | by eapply Own_knows]|].
      apply (push_record _ _ _ H T); auto; lia.
Qed.

Lemma spsc_push_wp data size type sent s :
  push_args_ok data size type = true -> producer_knows sent s -> Inv s ->
  wp1 (push_post sent (type, push_payload data size)) (try_push cap data size type) s.
Proof.
  intros Hv Hk HI. destruct (push_args_spec _ _ _ Hv) as (Hsz & Hty & _).
  unfold try_push. case_if; [by apply spsc_push_unchanged|].
  assert (Hnull : data = None -> size = 0) by (intros ->; destruct_or?; bool_to_prop; done).
  replace (add64 sizeof_RecordHeader size) with (sizeof_RecordHeader + size)
    by (unfold add64, sizeof_RecordHeader; rewrite u64_small; lia).
  fold (record_size size). case_if; [by apply spsc_push_unchanged|].
  intros s1 Hr1 HI1. apply (spsc_producer_knows_stable _ _ _ Hk) in Hr1 as Hk1.
  intros s2 Hr2 HI2. destruct (spsc_producer_knows_stable _ _ _ Hk1 Hr2) as [<- Hsq].
  rewrite (i_head _ HI1), (i_tail _ HI2). destruct Hr2 as (_ & HT & _ & _ & ? & _). pose proof (i_pos _ HI1).
  apply push_rest_wp; auto; [unfold Own; split_and!; auto; lia | lia | lia].
Qed.

(** *** The consumer *)

Abbreviation wp0 := (wp no_wrap Inv rely 0).

(** The consumer has seen that [d] bytes at the head [H] are published, and
    what they hold. *)
Definition Seen (pub : list msg) (H : Z) (pop : list msg) (o : option msg) (d : Z) (s : state) : Prop :=
  gH s.2 = H /\ Knows pub pop s /\ H + d <= gT s.2 /\ front cap (ring s.1) H o d.

Lemma spsc_Knows_stable pub pop s s' : Knows pub pop s -> consumer_rely s s' -> Knows pub pop s'.
Proof. intros (<- & Hh & Hp) (HH & Hp' & _ & Hhr & Hpub & _). split_and!; try congruence. by etrans. Qed.

Lemma spsc_Seen_stable pub H pop o d s s' :
  Seen pub H pop o d s -> consumer_rely s s' -> Seen pub H pop o d s'.
Proof.
  intros (? & Hk & ? & Hf) Hr. pose proof (spsc_Knows_stable _ _ _ _ Hk Hr) as Hk'.
  destruct Hr as (? & ? & ? & _ & _ & He). unfold Seen. split_and!; try congruence; [lia|].
  eapply front_ext; eauto. intros. apply He. lia.
Qed.

(** Advancing the head over the front. *)
Lemma wp_advance {A} (Q : A -> state -> Prop) pub H pop o d k s :
  Seen pub H pop o d s ->
  (forall s', Knows pub (pop ++ option_list o) s' -> wp0 Q k s') ->
  wp0 Q (Store FHeadReserve (u64 (H + d)) (Store FHeadPublish (u64 (H + d)) k)) s.
Proof.
  intros HS Hk s1 Hr1 HI1.
  apply (spsc_Seen_stable _ _ _ _ _ _ _ HS) in Hr1 as (HH1 & (Hp1 & _ & Hpre) & Hle1 & Hf1).
  apply consumer_change with (g' := s1.2).
  { unfold producer_rely. sh_simpl. split_and!; auto; [lia|]. exists []. constructor. }
  { destruct HI1. constructor; sh_simpl; auto. }
  intros s2 (HH & Hp & HT & Hhr & Hpre' & He) HI2. sh_simpl. rewrite HH1 in HH. rewrite Hp1 in Hp.
  assert (Hf : front cap (ring s2.1) H o d).
  { eapply front_ext; [exact Hf1|]. intros. apply He. lia. }
  pose proof (front_pos _ Hcap _ _ _ _ Hf).
  apply consumer_change with (g' := mkGhost (H + d) (gT s2.2) (gpub s2.2) (pop ++ option_list o)).
  - unfold producer_rely. sh_simpl. split_and!; auto; [lia|]. exists (option_list o).
    rewrite HH. by apply front_seg.
  - destruct HI2 as [? ? ? ? ? (xs & Hs & Hpub) ? ?]. rewrite HH in *.
    destruct (seg_advance _ Hcap _ _ _ _ _ _ Hs Hf ltac:(lia)) as (ys & -> & Hys).
    constructor; sh_simpl; auto; [lia|]. exists ys. split; [done|].
    by rewrite Hpub, Hp, app_assoc.
  - apply Hk. split_and!; sh_simpl; [done | exact Hhr | by etrans].
Qed.

(** The head is recorded in [head_reserve], then published. *)
Definition advance (h : Z) (k : prog (option popped)) : prog (option popped) :=
  do! Store FHeadReserve h in do! Store FHeadPublish h in k.

(** What the consumer has seen when it has loaded the tail in [s1] and the head
    in [s2]. *)
Lemma spsc_loads pub pop s1 s2 :
  Knows pub pop s1 -> Inv s1 -> consumer_rely s1 s2 -> Inv s2 ->
  gH s2.2 = gT s1.2 /\ Dry pub pop \/
  exists o d, gH s2.2 + d <= gT s1.2 /\ Seen pub (gH s2.2) pop o d s2.
Proof.
  intros Hk HI1 Hr HI2. destruct (i_seg _ HI1) as (xs & Hseg & Hx).
  pose proof (spsc_Knows_stable _ _ _ _ Hk Hr) as Hk2. destruct Hk as (Hp & _ & Hpre).
  destruct Hr as (HH & Hp2 & HT & _ & _ & He). rewrite <- HH in *.
  destruct (decide (gH s2.2 = gT s1.2)) as [Heq|Hne]; [left | right].
  - split; [done|]. rewrite Heq in Hseg. apply (seg_empty cap Hcap) in Hseg as ->.
    rewrite Hx, app_nil_r, Hp in Hpre. by apply prefix_length.
  - destruct (seg_front _ Hcap _ _ _ _ Hseg Hne) as (o & d & ys & Hf & Hd & _).
    exists o, d. split; [done|]. unfold Seen. split_and!; [done | done | lia |].
    eapply front_ext; eauto. intros. apply He. lia.
Qed.

#[local] Instance spsc_consumer pub :
  RingConsumer cap no_wrap Inv rely 0 advance (Knows pub) (Seen pub) (Dry pub).
Proof.
  split; auto.
  - apply i_len.
  - intros. by eapply spsc_Knows_stable.
  - intros H pop o d s (_ & Hk & _). done.
  - intros. by eapply spsc_Seen_stable.
  - intros H pop o d s (_ & _ & _ & Hf). done.
  - intros pop s1 s2 Hk HI1 Hr HI2. exists (gH s2.2), (gT s1.2).
    pose proof (spsc_loads pub pop s1 s2 Hk HI1 Hr HI2).
    destruct Hr as (HH & _ & HT & _). pose proof (i_pos _ HI1). rewrite <- HH in *.
    split_and!; try lia; [apply HI1 | apply HI2 | | done].
    eapply idx_ok_le; [|apply (i_idx _ HI2)]. lia.
  - intros. by eapply wp_advance.
Qed.

Lemma pop_wp pub out type sq pop s :
  Knows pub pop s -> Inv s ->
  wp0 (pop_post (Knows := Knows pub) (Dry := Dry pub) out sq pop) (try_pop_internal cap out type sq) s.
Proof. intros Hk HI. by apply (pop_loop_wp (Hrc := spsc_consumer pub)). Qed.

(** *** All interleavings *)

Lemma spsc_P_stable pub n t l s s' : P pub n t l s -> rely t s s' -> Inv s' -> P pub n t l s'.
Proof.
  destruct t as [|[|t]]; simpl; auto; [|intros; by eapply spsc_producer_knows_stable].
  intros HP Hr _. eapply consumed_stable; [|done]. intros. by eapply spsc_Knows_stable.
Qed.

Lemma spsc_body_ok pub n t o l s :
  role t o = true -> P pub n t l s -> Inv s ->
  wp no_wrap Inv rely t (post (P pub n) t o l) (body cap o) s.
Proof.
  intros Hrole HP HI. destruct t as [|[|t]], o; try done; unfold body; apply wp_pmap.
  - destruct HP as (pop & Hk & Hl & HU & HD). eapply wp_mono; [|by apply (pop_wp pub)].
    intros o s' Hp. pose proof (pop_history n out type sequence l pop o s' Hl HU HD Hp) as Hc.
    destruct o; simpl in *; [done | by rewrite app_nil_r in Hc].
  - eapply wp_mono; [|by apply spsc_push_wp].
    intros [b|] s'; unfold push_post, post, P, pushed; simpl; [|by rewrite app_nil_r].
    rewrite omap_app. simpl. by destruct b.
Qed.

Lemma spsc_tick_ok d s g : 0 <= d -> no_wrap s (tick d s) -> Inv (s, g) ->
  Inv (tick d s, g) /\ forall t, rely t (s, g) (tick d s, g).
Proof.
  intros _ _ []. split; [by constructor|].
  intros t. pose proof (reflexivity (R := rely t) (s, g)) as Hr. by destruct t as [|[|t]].
Qed.

(** A freshly created ring. *)
Definition fresh (s : shared) : Prop :=
  ctl s = mkControl 0 0 0 0 0 /\ Z.of_nat (length (ring s)) = cap.

Lemma spsc_fresh_Inv s : fresh s -> Inv (s, mkGhost 0 0 [] []).
Proof.
  intros [Hctl Hlen]. destruct Hcap. constructor; simpl; auto; try (by unfold load; rewrite Hctl).
  - lia.
  - left. lia.
  - exists []. split; [constructor | done].
  - intros i x. by rewrite lookup_nil.
Qed.

Lemma spsc_fresh_P s t : fresh s -> P [] 0 t [] (s, mkGhost 0 0 [] []).
Proof.
  intros [Hctl _]. destruct t as [|[|t]]; simpl; [|split|done];
    [|by unfold load; simpl; rewrite ?Hctl..].
  exists []. split_and!; [split_and!; unfold load; simpl; by rewrite ?Hctl | constructor | constructor |].
  intros _ _. unfold Dry. done.
Qed.

Definition reachable (s : shared) : config -> Prop := creach (body cap) role no_wrap s.

Lemma spsc_reach s c :
  fresh s -> reachable s c ->
  exists g, config_ok role no_wrap Inv rely (P [] 0) c g.
Proof.
  intros Hf Hr. eapply (rg_sound (body cap) role no_wrap Inv rely (P [] 0));
    eauto using spsc_P_stable, spsc_body_ok, spsc_tick_ok, spsc_fresh_Inv, spsc_fresh_P.
Qed.

Lemma rely_observer t s s' : rely t s s' -> observer_rely s s'.
Proof.
  unfold observer_rely. destruct t as [|[|t]]; simpl; [intros Hr; apply Hr | | done].
  by intros (_ & _ & -> & _).
Qed.

Lemma spsc_reach_steps pub n c c' g :
  config_ok role no_wrap Inv rely (P pub n) c g -> rtc (cstep (body cap) role no_wrap) c c' ->
  exists g', config_ok role no_wrap Inv rely (P pub n) c' g' /\ gpub g `prefix_of` gpub g'.
Proof.
  intros Hc Hs. destruct (config_ok_steps (body cap) role no_wrap Inv rely (P pub n)
    (spsc_P_stable _ _) (spsc_body_ok _ _) spsc_tick_ok c c' g Hc Hs) as (g' & Hc' & Ho).
  exists g'. split; [done|]. apply (Ho observer_rely); [apply (spsc_rely_pre 2) | apply rely_observer].
Qed.

(** From a point where the producer is between calls: whatever it does
    afterwards, what it had pushed stays published. *)
Lemma spsc_reach_later s c0 c :
  fresh s -> reachable s c0 -> c_thr c0 !! 1%nat = None ->
  rtc (cstep (body cap) role no_wrap) c0 c ->
  exists g, config_ok role no_wrap Inv rely (P [] 0) c g /\
    pushed (tlog 1 (c_log c0)) `prefix_of` (msg_key <$> gpub g).
Proof.
  intros Hf Hr Hidle Hs. destruct (spsc_reach s c0 Hf Hr) as (g0 & Hc0).
  pose proof Hc0 as (_ & _ & Ht). specialize (Ht 1%nat). rewrite Hidle in Ht. destruct Ht as [<- _].
  destruct (spsc_reach_steps _ _ _ _ _ Hc0 Hs) as (g & Hc & k & Hk).
  exists g. split; [done|]. simpl in Hk. rewrite Hk, fmap_app. by apply prefix_app_r.
Qed.

(** From a point where the consumer is between calls: everything published so
    far is what a later refused pop must have seen. *)
Lemma spsc_mark c g :
  config_ok role no_wrap Inv rely (P [] 0) c g -> c_thr c !! O = None ->
  config_ok role no_wrap Inv rely (P (gpub g) (length (tlog 0 (c_log c)))) c g.
Proof.
  intros (Hf & HI & Ht) Hidle. split_and!; [done | done |]. intros t. specialize (Ht t).
  destruct t as [|t]; [rewrite Hidle in *|].
  - destruct Ht as (pop & (? & ? & _) & ? & ? & _). exists pop. split_and!; try done. intros. lia.
  - destruct (c_thr c !! S t) as [[o p]|]; [|by destruct t]. destruct Ht as [? Hw]. split; [done|].
    eapply wp_mono; [|exact Hw]. by intros [r|]; destruct t.
Qed.
End Spsc.

(** C1: in every interleaving of one producer and one consumer on a fresh ring
    of capacity [cap] whose tail counter does not wrap (no restriction when
    [cap] divides [2^64]): no access is out of bounds; the popped messages are,
    in order, a prefix of the pushed ones, delivered with their type, payload
    and consecutive sequence numbers; a refused pop leaves the caller's vector
    as it was. *)
Theorem spsc_fifo cap s c :
  cap_ok cap -> fresh cap s -> reachable cap s c ->
  c_fault c = false /\
  exists pub popd rest, pub = popd ++ rest /\ numbered pub /\
    (c_thr c !! 1%nat = None -> pushed (tlog 1 (c_log c)) = msg_key <$> pub) /\
    (c_thr c !! O = None ->
       Forall2 (fun e x => delivers e.1.1 e.1.2 e.2 x) (pops (tlog 0 (c_log c))) popd /\
       untouched (tlog 0 (c_log c))).
Proof.
  intros Hc Hf Hr. destruct (spsc_reach cap Hc s c Hf Hr) as (g & Hfl & HI & Ht).
  split; [done|]. destruct (i_seg _ _ HI) as (xs & _ & Hp).
  exists (gpub g), (gpop g), xs. split_and!; [done | apply HI | |]; intros Hidle.
  - specialize (Ht 1%nat). rewrite Hidle in Ht. by destruct Ht as [<- _].
  - specialize (Ht O). rewrite Hidle in Ht. by destruct Ht as (? & (<- & _) & ? & ? & _).
Qed.

(** The consumer finds the ring empty, then starts a second pop while the
    producer is halfway through a push; then both finish. *)
Definition demo_schedule : list act :=
  [AStart 0 (OPop [] 0 (Some 0))] ++ steps 0 3 ++
  [AStart 1 (OPush (Some [x61; x62; x63]) 3 7)] ++ steps 1 8 ++
  [AStart 0 (OPop [x01; x02; x03; x04] 0 (Some 0))] ++
  steps 1 5 ++ steps 0 4 ++ steps 1 1 ++ steps 0 8.

Lemma spsc_fifo_witness :
  exists c, crun (body 64) role demo_schedule (init_config ring64) = Some c /\
    pops (tlog 0 (c_log c)) =
      [([x01; x02; x03; x04], Some 0, mkPopped true [x61; x62; x63; x04] 7 (Some 1))] /\
    c_fault c = false /\
    exists pub popd rest, pub = popd ++ rest /\ numbered pub /\
      (c_thr c !! 1%nat = None -> pushed (tlog 1 (c_log c)) = msg_key <$> pub) /\
      (c_thr c !! O = None ->
         Forall2 (fun e x => delivers e.1.1 e.1.2 e.2 x) (pops (tlog 0 (c_log c))) popd /\
       untouched (tlog 0 (c_log c))).
Proof.
  eexists. split; [vm_compute; reflexivity|]. split; [vm_compute; reflexivity|].
  apply (spsc_fifo 64 ring64 _ cap_ok_64); [by split|].
  apply (crun_checked_reach _ _ _ (fun _ _ => true) demo_schedule); [|vm_compute; reflexivity].
  intros. left. by exists (2 ^ 58).
Defined.

(** C19: a pop that returns [false] has seen every push that returned before it
    started.  In every interleaving on a fresh ring: take a point [c0] where the
    producer is between calls, a later point [c1] where the consumer is between
    calls, and a point [c] where the consumer has completed further calls of
    which the last was refused; then the consumer has by then popped at least
    every message accepted before [c0]. *)
Theorem spsc_empty_pop cap s c0 c1 c :
  cap_ok cap -> fresh cap s -> reachable cap s c0 ->
  rtc (cstep (body cap) role (no_wrap cap)) c0 c1 ->
  rtc (cstep (body cap) role (no_wrap cap)) c1 c ->
  c_thr c0 !! 1%nat = None -> c_thr c1 !! O = None -> c_thr c !! O = None ->
  (length (tlog 0 (c_log c1)) < length (tlog 0 (c_log c)))%nat -> refused (tlog 0 (c_log c)) ->
  (length (pushed (tlog 1 (c_log c0))) <= length (pops (tlog 0 (c_log c))))%nat.
Proof.
  intros Hc Hf Hr H01 H1c Hp Hi0 Hi Hlt Href.
  destruct (spsc_reach cap Hc s c0 Hf Hr) as (g0 & Hc0).
  pose proof Hc0 as (_ & _ & Ht0). specialize (Ht0 1%nat). rewrite Hp in Ht0. destruct Ht0 as [<- _].
  destruct (spsc_reach_steps _ Hc _ _ _ _ _ Hc0 H01) as (g1 & Hc1 & Hpre).
  apply (spsc_mark _ _ _ Hc1) in Hi0.
  destruct (spsc_reach_steps _ Hc _ _ _ _ _ Hi0 H1c) as (g & (_ & _ & Ht) & _).
  specialize (Ht O). rewrite Hi in Ht. destruct Ht as (pop & _ & Hl & HU & HD).
  apply prefix_length in Hpre. specialize (HD Hlt Href). unfold Dry in HD. simpl in *.
  rewrite length_fmap, (Forall2_length _ _ _ Hl). lia.
Qed.

(** The producer has pushed one message and is in the middle of the next push
    when the consumer pops twice: the second pop is refused. *)
Definition empty_before : list act := [AStart 1 (OPush (Some [x61]) 1 7)] ++ steps 1 12.
Definition empty_between : list act := [AStart 1 (OPush (Some [x62]) 1 8)] ++ steps 1 6.
Definition empty_after : list act :=
  [AStart 0 (OPop [] 0 None)] ++ steps 0 9 ++ [AStart 0 (OPop [] 0 None)] ++ steps 0 3.

Lemma no_wrap_64 s s' : no_wrap 64 s s'.
Proof. left. by exists (2 ^ 58). Qed.

Lemma spsc_empty_pop_witness :
  let c0 := after (body 64) role empty_before (init_config ring64) in
  let c1 := after (body 64) role empty_between c0 in
  let c := after (body 64) role empty_after c1 in
  pushed (tlog 1 (c_log c0)) = [(7, [x61])] /\
  (length (pushed (tlog 1 (c_log c0))) <= length (pops (tlog 0 (c_log c))))%nat.
Proof.
  intros c0 c1 c. split; [vm_compute; reflexivity|].
  apply (spsc_empty_pop 64 ring64 c0 c1 c cap_ok_64); [by split | ..].
  - apply crun_after_rtc; [apply no_wrap_64 | vm_compute; reflexivity].
  - apply crun_after_rtc; [apply no_wrap_64 | vm_compute; reflexivity].
  - apply crun_after_rtc; [apply no_wrap_64 | vm_compute; reflexivity].
  - vm_compute. reflexivity.
  - vm_compute. reflexivity.
  - vm_compute. reflexivity.
  - apply Nat.ltb_lt. vm_compute. reflexivity.
  - vm_compute. reflexivity.
Defined.
