(* ===== verification/RingWriter.v ===== *)
(** * ring_writer.hpp: the multi-producer push

    [detail::try_push], shared by the MPSC and the MPMC ring: producers reserve
    a stretch of the ring with a compare-exchange on [tail_reserve], fill it in
    without synchronisation, and publish in reservation order. *)

From Stdlib Require Import ZArith Lia Strings.Byte.
From stdpp Require Import base list numbers gmap.
From S2P Require Import Prelude Memory Layout Prog Records Owner.

(** One iteration of the reservation loop, with the rest of the function after
    its [break]. *)
Definition try_push (capacity : Z) (data : option (list byte)) (size type : Z)
  : prog (option bool) :=
  if (match data with None => true | Some _ => false end) && negb (size =? 0)
  then Ret (Some false) else
  let record_size := align_up (add64 sizeof_RecordHeader size) kAlignment in
  if record_size >? capacity then Ret (Some false) else
  let! head := Load FHeadPublish in
  let! tail := Load FTailReserve in
  let used := sub64 tail head in
  if used >? capacity then Ret (Some false) else
  let! pos := umod tail capacity in
  let remaining := sub64 capacity pos in
  let '(padding, needs_wrap_record) :=
    if remaining <? sizeof_RecordHeader then (remaining, false)
    else if remaining <? record_size then (remaining, true)
    else (0, false) in
  let total := add64 padding record_size in
  if add64 used total >? capacity then Ret (Some false) else
  let desired := add64 tail total in
  let! exchanged := Cas true FTailReserve tail desired in
  if negb exchanged then Ret None else
  let start := tail in
  let! pos := umod start capacity in
  let fill pos :=
    do! write_header pos (mkRecordHeader size type 0 0) in
    let publish :=
      let publish_at := start in
      let publish_to := add64 (add64 start padding) record_size in
      do! Await FTailPublish publish_at in
      let! sq := FetchAdd FSequence 1 in
      do! write_uint (pos + off_sequence) 8 (add64 sq 1) in
      do! Store FTailPublish publish_to in
      Ret (Some true) in
    if size >? 0
    then do! memcpy_in (pos + sizeof_RecordHeader) data size in publish
    else publish in
  if padding >? 0 then
    if needs_wrap_record && (padding >=? sizeof_RecordHeader)
    then do! write_header pos wrap_header in fill 0
    else fill 0
  else fill pos.

(** ** Ghost state

    Reservations between [tail_publish] and [tail_reserve], oldest first:
    owner, start, padding, record size, the message being sent, and whether
    its sequence number has been drawn. *)

Record resv := mkResv {
  v_tid : nat; v_start : Z; v_pad : Z; v_rec : Z; v_drawn : bool;
}.

Definition v_len (r : resv) : Z := v_pad r + v_rec r.
Definition v_end (r : resv) : Z := v_start r + v_len r.

Record ghost := mkGhost {
  gH : Z;   (* head_publish *)
  gTp : Z;  (* tail_publish *)
  gTr : Z;  (* tail_reserve *)
  gres : list resv;
  gpub : list (nat * msg);  (* published, with their producers *)
  gpop : list msg;
}.

Fixpoint chain (a b : Z) (l : list resv) : Prop :=
  match l with
  | [] => a = b
  | r :: l => v_start r = a /\ 0 <= v_pad r /\ 0 < v_rec r /\ chain (v_end r) b l
  end.

(** The reservations, and the published messages, of one producer. *)
Definition own (t : nat) (l : list resv) : list resv := filter (fun r => v_tid r = t) l.
Definition pub_by (t : nat) (l : list (nat * msg)) : list msg :=
  (filter (fun e => e.1 = t) l).*2.

(** A published history: numbered from 1, every message sent by a producer. *)
Definition attributed (l : list (nat * msg)) : Prop :=
  numbered l.*2 /\ Forall (fun e => e.1 <> O) l.

Lemma attributed_snoc t l x :
  t <> O -> attributed l -> m_seq x = u64 (Z.of_nat (length l) + 1) -> attributed (l ++ [(t, x)]).
Proof.
  intros Ht [Hn Hl] Hx. split.
  - rewrite fmap_app. apply numbered_snoc; [done|]. by rewrite length_fmap.
  - apply Forall_app. split; [done|]. by apply Forall_singleton.
Qed.

(** A producer that waits to publish has a reservation that starts at the value it
    waits for; nobody waits for another atomic. *)
#[export] Instance writer_waits : Waits ghost := fun t f v s =>
  match f with
  | FTailPublish => exists r, own t (gres s.2) = [r] /\ v = u64 (v_start r)
  | _ => load f s.1 = v
  end.

Lemma own_app t l1 l2 : own t (l1 ++ l2) = own t l1 ++ own t l2.
Proof. apply filter_app. Qed.

Lemma own_cons_eq t r l : v_tid r = t -> own t (r :: l) = r :: own t l.
Proof. intros. unfold own. by rewrite filter_cons_True. Qed.

Lemma own_cons_ne t r l : v_tid r <> t -> own t (r :: l) = own t l.
Proof. intros. unfold own. by rewrite filter_cons_False. Qed.

Lemma own_In t l r : In r (own t l) -> In r l /\ v_tid r = t.
Proof.
  rewrite <- !list_elem_of_In. unfold own. intros H.
  apply list_elem_of_filter in H. tauto.
Qed.

Lemma pub_by_snoc_eq t l x : pub_by t (l ++ [(t, x)]) = pub_by t l ++ [x].
Proof.
  unfold pub_by. rewrite filter_app, fmap_app, filter_cons_True, filter_nil by done. done.
Qed.

Lemma pub_by_snoc_ne t t' l x : t' <> t -> pub_by t' (l ++ [(t, x)]) = pub_by t' l.
Proof.
  intros. unfold pub_by.
  rewrite filter_app, filter_cons_False, filter_nil, app_nil_r; simpl; congruence.
Qed.

Lemma pub_by_none t l : Forall (fun e => e.1 <> t) l -> pub_by t l = [].
Proof.
  unfold pub_by. induction 1 as [|e l He _ IH]; [done|]. by rewrite filter_cons_False.
Qed.

Lemma chain_snoc a b l r :
  chain a b l -> v_start r = b -> 0 <= v_pad r -> 0 < v_rec r -> chain a (v_end r) (l ++ [r]).
Proof.
  revert a. induction l as [|r' l IH]; simpl; intros a; [intros ->; auto|].
  intros (? & ? & ? & ?) ? ? ?. auto.
Qed.

Lemma chain_le a b l : chain a b l -> a <= b.
Proof.
  revert a. induction l as [|r l IH]; simpl; intros a; [lia|].
  intros (? & ? & ? & H). apply IH in H. unfold v_end, v_len in H. lia.
Qed.

(** Every reservation lies between the published and the reserved tail. *)
Lemma chain_In a b l r : chain a b l -> In r l -> a <= v_start r /\ v_end r <= b.
Proof.
  revert a. induction l as [|r' l IH]; simpl; intros a; [done|].
  intros (Hs & ? & ? & Hc) [<- | Hin].
  - apply chain_le in Hc. lia.
  - apply IH in Hc; auto. unfold v_end, v_len in *. lia.
Qed.

(** The reservation at the published tail is the oldest one. *)
Lemma chain_head a b l r : chain a b l -> In r l -> v_start r = a -> exists l', l = r :: l'.
Proof.
  destruct l as [|r' l]; simpl; [done|]. intros (Hs & ? & ? & Hc) [<- | Hin] Ha; [eauto|].
  apply (chain_In _ _ _ r) in Hc; auto. unfold v_end, v_len in Hc. lia.
Qed.

(** Distinct reservations do not overlap. *)
Lemma chain_disjoint a b l r1 r2 :
  chain a b l -> In r1 l -> In r2 l -> r1 = r2 \/ v_end r1 <= v_start r2 \/ v_end r2 <= v_start r1.
Proof.
  revert a. induction l as [|r l IH]; simpl; intros a; [done|].
  intros (? & ? & ? & Hc) [<- | Hi1] [<- | Hi2]; auto.
  - apply (chain_In _ _ _ r2) in Hc; auto. lia.
  - apply (chain_In _ _ _ r1) in Hc; auto. lia.
  - eauto.
Qed.

Section Writer.
Context (cap : Z) (Hcap : cap_ok cap).

Abbreviation state := (shared * ghost)%type.

Definition drawn (l : list resv) : Z :=
  match l with r :: _ => if v_drawn r then 1 else 0 | [] => 0 end.

Record Inv (s : state) : Prop := {
  i_len : Z.of_nat (length (ring s.1)) = cap;
  i_head : load FHeadPublish s.1 = u64 (gH s.2);
  i_tp : load FTailPublish s.1 = u64 (gTp s.2);
  i_tr : load FTailReserve s.1 = u64 (gTr s.2);
  i_pos : 0 <= gH s.2 <= gTp s.2 /\ gTr s.2 <= gH s.2 + cap /\ gTr s.2 < 2 ^ 64;
  i_chain : chain (gTp s.2) (gTr s.2) (gres s.2);
  i_seg : exists xs, seg cap (ring s.1) (gH s.2) (gTp s.2) xs /\ (gpub s.2).*2 = gpop s.2 ++ xs;
  i_num : attributed (gpub s.2);
  i_seq : load FSequence s.1 = u64 (Z.of_nat (length (gpub s.2)) + drawn (gres s.2));
  i_drawn : Forall (fun r => v_drawn r = false) (tail (gres s.2));
  i_resv : Forall (fun r => v_tid r <> O) (gres s.2);
}.

(** Thread 0 is the consumer. *)
Definition consumer_rely (s s' : state) : Prop :=
  gH s'.2 = gH s.2 /\ gpop s'.2 = gpop s.2 /\ gTp s.2 <= gTp s'.2 /\
  load FHeadReserve s'.1 = load FHeadReserve s.1 /\ gpub s.2 `prefix_of` gpub s'.2 /\
  forall x, gH s.2 <= x < gTp s.2 -> rbyte cap (ring s'.1) x = rbyte cap (ring s.1) x.

(** What was the end of a record, and has not been passed by the head, still is. *)
Definition ends_kept (s s' : state) : Prop :=
  forall T xs, T <= gTp s.2 -> seg cap (ring s.1) (gH s.2) T xs -> gH s'.2 <= T ->
  exists ys, seg cap (ring s'.1) (gH s'.2) T ys.

Lemma ends_same s s' : ring s'.1 = ring s.1 -> gH s'.2 = gH s.2 -> ends_kept s s'.
Proof. intros Hr HH T xs _ Hs _. rewrite Hr, HH. eauto. Qed.

#[local] Hint Resolve ends_same : core.

(** Every other thread is a producer. *)
Definition producer_rely (t : nat) (s s' : state) : Prop :=
  own t (gres s'.2) = own t (gres s.2) /\ pub_by t (gpub s'.2) = pub_by t (gpub s.2) /\
  (forall r x, In r (own t (gres s.2)) -> v_start r <= x < v_end r ->
     rbyte cap (ring s'.1) x = rbyte cap (ring s.1) x) /\
  gH s.2 <= gH s'.2 /\ gTp s.2 <= gTp s'.2 /\ (gTp s'.2 = gTp s.2 -> gpub s'.2 = gpub s.2) /\
  gpub s.2 `prefix_of` gpub s'.2 /\ ends_kept s s'.

Definition rely (t : nat) : state -> state -> Prop :=
  match t with O => consumer_rely | _ => producer_rely t end.

#[export] Instance wr_rely_pre t : PreOrder (rely t).
Proof.
  destruct t as [|t]; simpl; unfold consumer_rely, producer_rely; split.
  - intros s. cbv beta. split_and!; auto. lia.
  - intros s1 s2 s3 (H1 & H2 & H3 & H4 & H6 & H5) (H1' & H2' & H3' & H4' & H6' & H5'). cbv beta.
    split_and!; try congruence; [lia | by etrans |]. intros x Hx. rewrite H5', H5; auto. lia.
  - intros s. cbv beta. split_and!; auto; lia.
  - intros s1 s2 s3 (H1 & H2 & H3 & H4 & H5 & H6 & H7 & H8) (H1' & H2' & H3' & H4' & H5' & H6' & H7' & H8').
    cbv beta. split_and!; try congruence; try lia.
    + intros r x Hr Hx. rewrite (H3' r x), (H3 r x); auto. by rewrite H1.
    + intros E. rewrite H6', H6; auto; lia.
    + by etrans.
    + intros T xs HT Hs HH. destruct (H8 T xs HT Hs) as [ys Hy]; [lia|]. apply (H8' T ys); [lia | done | done].
Qed.

(** Executions in which fewer than [2^64] bytes are ever reserved. *)
Definition no_wrap (s s' : shared) : Prop := load FTailReserve s <= load FTailReserve s'.

Abbreviation wp := (wp no_wrap Inv rely).

(** A producer's writes: any stretch of its reservation.  [F] is what else it
    knows about the bytes of the reservation, and [fp] the whole published
    history once it is this producer's turn to publish. *)
Definition Own (t : nat) (r : resv) (pub : list msg) (F : list byte -> Prop)
    (fp : option (list (nat * msg))) (s : state) : Prop :=
  own t (gres s.2) = [r] /\ pub_by t (gpub s.2) = pub /\ F (ring s.1) /\
  match fp with Some l => gTp s.2 = v_start r /\ gpub s.2 = l | None => True end.

(** [F] depends only on the bytes of [r] outside [a, a + n). *)
Definition framed (r : resv) (a n : Z) (F : list byte -> Prop) : Prop :=
  forall m m', F m ->
  (forall x, v_start r <= x < v_end r -> ~ (a <= x < a + n) -> rbyte cap m' x = rbyte cap m x) ->
  F m'.

(** It stays this producer's turn until it publishes. *)
Lemma turn_stable t r s s' :
  t <> O -> own t (gres s.2) = [r] -> gTp s.2 = v_start r -> rely t s s' -> Inv s' ->
  gTp s'.2 = v_start r /\ gpub s'.2 = gpub s.2.
Proof.
  intros Ht Ho HT Hr HI. destruct t as [|t]; [done|].
  destruct Hr as (Ho' & _ & _ & _ & Hle & Hp & _). rewrite Ho in Ho'.
  assert (Hin : In r (gres s'.2)) by (apply (own_In (S t)); rewrite Ho'; by left).
  pose proof (chain_In _ _ _ _ (i_chain _ HI) Hin).
  assert (gTp s'.2 = v_start r) by lia. split; [done|]. apply Hp. congruence.
Qed.

Lemma writer_owner t r pub F fp a n :
  t <> O -> v_start r <= a -> a + n <= v_end r -> 0 <= n <= room cap a -> framed r a n F ->
  RingOwner cap no_wrap Inv rely t a n (Own t r pub F fp).
Proof.
  intros Ht Ha Hn Hroom HF. split; auto.
  - apply i_len.
  - intros s s' (Ho & Hp & Hf & Hfp) Hr HI.
    pose proof (turn_stable t r s s' Ht Ho) as Hturn.
    destruct t as [|t]; [done|]. pose proof Hr as (H1 & H2 & H3 & _).
    assert (He : forall x, v_start r <= x < v_end r -> rbyte cap (ring s'.1) x = rbyte cap (ring s.1) x).
    { intros x Hx. apply (H3 r); auto. rewrite Ho. by left. }
    split; [|intros; apply He; lia]. unfold Own. split_and!; try congruence.
    + apply (HF (ring s.1)); auto.
    + destruct fp as [l|]; [|done]. destruct Hfp as [HT <-]. auto.
  - intros s o bs (Ho & Hp & Hf & Hfp) HI Hbs Hoff Hl m _. exists s.2.
    assert (Hr : In r (gres s.2)).
    { apply (own_In t). rewrite Ho. by left. }
    assert (Hrt : v_tid r = t).
    { apply (own_In t (gres s.2)). rewrite Ho. by left. }
    pose proof (i_chain _ HI) as Hch. pose proof (i_pos _ HI) as (Hpos & Hpos' & _).
    pose proof (chain_In _ _ _ _ Hch Hr) as Hin. pose proof (i_len _ HI) as Hlen.
    assert (Hpos2 : (a + o) mod cap + Z.of_nat (length bs) <= cap).
    { destruct bs; [done|]. simpl in *. pose proof (cap_pos cap Hcap).
      unfold room in Hroom. rewrite mod_add_small by lia. lia. }
    assert (He : forall x, gH s.2 <= x < gH s.2 + cap -> ~ (a <= x < a + n) ->
      rbyte cap m x = rbyte cap (ring s.1) x).
    { intros x Hx Hna. unfold m. apply rbyte_splice_other with (lo := gH s.2);
        try apply Hcap; lia. }
    split_and!.
    + intros [|t'] Ht'; simpl; unfold consumer_rely, producer_rely; sh_simpl.
      * split_and!; auto; [lia|]. intros. apply He; lia.
      * split_and!; auto; try lia.
        -- intros r' x Hr' Hx. apply own_In in Hr' as [Hr' Ht''].
           pose proof (chain_In _ _ _ _ Hch Hr').
           destruct (chain_disjoint _ _ _ _ _ Hch Hr Hr') as [-> | Hd]; [congruence|].
           apply He; lia.
        -- intros T xs HT Hs _. exists xs. eapply seg_ext; eauto. intros. sh_simpl. apply He; lia.
    + destruct HI as [? ? ? ? ? ? (xs & Hs & Hx) ? ? ? ?]. constructor; sh_simpl; auto.
      * unfold m. rewrite length_splice; auto; try lia. apply pos_range; auto.
      * exists xs. split; [|done]. apply seg_ext with (ring s.1); auto.
        intros. apply He; lia.
    + done.
    + unfold Own. split_and!; auto. sh_simpl. apply (HF (ring s.1)); auto.
      intros x Hx Hna. apply He; lia.
Qed.

Definition producer_knows (t : nat) (sent : list (Z * list byte)) (s : state) : Prop :=
  own t (gres s.2) = [] /\ msg_key <$> pub_by t (gpub s.2) = sent.

Lemma wr_producer_knows_stable t sent s s' :
  t <> O -> producer_knows t sent s -> rely t s s' -> producer_knows t sent s'.
Proof.
  intros Ht [Ho Hp] Hr. destruct t as [|t]; [done|]. destruct Hr as (H1 & H2 & _).
  split; congruence.
Qed.

(** The compare-exchange that reserves [pad + rec] bytes. *)
Lemma wp_reserve t T pad rec s K :
  t <> O -> Inv s -> own t (gres s.2) = [] -> gTr s.2 = T -> 0 <= pad -> 0 < rec ->
  T + (pad + rec) <= gH s.2 + cap ->
  (forall s', Own t (mkResv t T pad rec false) (pub_by t (gpub s.2)) (fun _ => True) None s' -> K s') ->
  change no_wrap Inv rely t s (store FTailReserve (add64 (u64 T) (pad + rec)) s.1) K.
Proof.
  intros Ht HI Ho HT Hpad Hrec Hle HK Hnw. rewrite add64_u64 in *.
  set (r := mkResv t T pad rec false). destruct Hcap as [Hc _].
  exists (mkGhost (gH s.2) (gTp s.2) (T + (pad + rec)) (gres s.2 ++ [r]) (gpub s.2) (gpop s.2)).
  assert (Hr : forall t', t' <> t -> own t' (gres s.2 ++ [r]) = own t' (gres s.2)).
  { intros. by rewrite own_app, own_cons_ne, app_nil_r by (simpl; congruence). }
  destruct HI as [? ? ? Htr (Hp1 & Hp2 & Hp3) Hch ? ? Hsq Hdr Hrs]. split_and!.
  - intros [|t'] Ht'; simpl; unfold consumer_rely, producer_rely; sh_simpl;
      split_and!; auto; lia.
  - pose proof (chain_le _ _ _ Hch). constructor; sh_simpl; auto.
    + split_and!; try lia. unfold no_wrap in Hnw. autorewrite with lfring in Hnw.
      rewrite Htr, HT in Hnw. unfold u64 in Hnw. dlia.
    + change (T + (pad + rec)) with (v_end r). by apply chain_snoc with (gTr s.2).
    + rewrite Hsq. f_equal. f_equal. by destruct (gres s.2).
    + destruct (gres s.2); simpl; [constructor|]. simpl in Hdr.
      apply List.Forall_app. split; [done|]. by repeat constructor.
    + apply Forall_app. split; [done|]. by apply Forall_singleton.
  - apply HK. unfold Own. sh_simpl. split_and!; auto.
    by rewrite own_app, Ho, own_cons_eq.
Qed.

(** The padding in front of a record: none, or the unused end of the ring. *)
Definition pad_ok (T pad : Z) (m : list byte) : Prop :=
  pad = 0 \/ pad = room cap T /\ front cap m T None pad.

Lemma pad_seg T pad m : pad_ok T pad m -> seg cap m T (T + pad) [].
Proof.
  intros [-> | [-> Hf]]; [rewrite Z.add_0_r; constructor|].
  inversion Hf as [[? | [? ?]] |]; [apply seg_short | apply seg_wrap]; auto; constructor.
Qed.

Lemma pad_framed t T pad rec d :
  0 <= rec -> framed (mkResv t T pad rec d) (T + pad) rec (pad_ok T pad).
Proof.
  intros Hrec m m' [-> | [Hp Hf]] He; [by left|]. right. split; [done|].
  eapply front_ext; eauto. intros. apply He; unfold v_end, v_len; simpl; lia.
Qed.

(** What a push returns and what its producer knows then. *)
Definition push_post (t : nat) (sent : list (Z * list byte)) (x : Z * list byte)
    (o : option bool) (s : state) : Prop :=
  producer_knows t (sent ++ match o with Some true => [x] | _ => [] end) s.

(** At the published tail: drawing the sequence number. *)
Lemma wp_draw t T pad rec pub F s K :
  t <> O -> Inv s -> Own t (mkResv t T pad rec false) pub F None s -> gTp s.2 = T ->
  (forall s', Own t (mkResv t T pad rec true) pub F (Some (gpub s.2)) s' ->
              ring s'.1 = ring s.1 -> K s') ->
  load FSequence s.1 = u64 (Z.of_nat (length (gpub s.2))) /\
  change no_wrap Inv rely t s (store FSequence (add64 (load FSequence s.1) 1) s.1) K.
Proof.
  intros Ht HI (Ho & Hp & HF & _) HT HK. set (r := mkResv t T pad rec false) in *.
  set (r' := mkResv t T pad rec true) in *.
  assert (Hin : In r (gres s.2)) by (apply (own_In t); rewrite Ho; by left).
  destruct (chain_head _ _ _ _ (i_chain _ HI) Hin) as [l Hl]; [by subst r|].
  rewrite Hl in Ho. rewrite own_cons_eq in Ho by done. injection Ho as Hol.
  destruct HI as [? ? ? ? ? Hch ? ? Hsq Hdr Hrs]. rewrite Hl in *. simpl in Hsq.
  rewrite Z.add_0_r in Hsq. split; [done|]. intros _.
  exists (mkGhost (gH s.2) (gTp s.2) (gTr s.2) (r' :: l) (gpub s.2) (gpop s.2)). split_and!.
  - intros [|t'] Ht'; simpl; unfold consumer_rely, producer_rely; sh_simpl; rewrite ?Hl.
    + split_and!; auto. lia.
    + rewrite !own_cons_ne by (simpl; congruence). split_and!; auto; lia.
  - constructor; sh_simpl; auto; [by rewrite Hsq, add64_u64|]. by inversion Hrs; constructor.
  - apply HK; sh_simpl; auto. unfold Own. sh_simpl. split_and!; auto.
    rewrite own_cons_eq by done. by rewrite Hol.
Qed.

(** Publishing: the oldest reservation becomes visible. *)
Lemma wr_wp_publish t T pad rec pub F fp x s K :
  t <> O -> Inv s -> Own t (mkResv t T pad rec true) pub F (Some fp) s ->
  seg cap (ring s.1) T (T + (pad + rec)) [x] ->
  m_seq x = u64 (Z.of_nat (length fp) + 1) ->
  (forall s', own t (gres s'.2) = [] -> pub_by t (gpub s'.2) = pub ++ [x] -> K s') ->
  change no_wrap Inv rely t s (store FTailPublish (u64 (T + (pad + rec))) s.1) K.
Proof.
  intros Ht HI (Ho & Hp & HF & HT & Hfp) Hseg Hx HK _. simpl in HT. subst fp. set (r := mkResv t T pad rec true) in *.
  assert (Hin : In r (gres s.2)) by (apply (own_In t); rewrite Ho; by left).
  destruct (chain_head _ _ _ _ (i_chain _ HI) Hin) as [l Hl]; [by subst r|].
  rewrite Hl in Ho. rewrite own_cons_eq in Ho by done. injection Ho as Hol.
  pose proof (i_chain _ HI) as Hch0. rewrite Hl in Hch0.
  destruct Hch0 as (_ & Hpad & Hrec & Hch0).
  change (v_pad r) with pad in Hpad. change (v_rec r) with rec in Hrec.
  change (v_end r) with (T + (pad + rec)) in Hch0.
  pose proof (chain_le _ _ _ Hch0) as Hle.
  destruct HI as [? ? ? ? ? Hch (xs & Hxs & Hpub) Hnum Hsq Hdr Hrs]. rewrite Hl in *. simpl in Hsq, Hdr.
  exists (mkGhost (gH s.2) (T + (pad + rec)) (gTr s.2) l (gpub s.2 ++ [(t, x)]) (gpop s.2)).
  rewrite HT in *. split_and!.
  - intros [|t'] Ht'; simpl; unfold consumer_rely, producer_rely; sh_simpl; rewrite ?Hl, ?HT.
    + split_and!; auto; [lia | by apply prefix_app_r].
    + rewrite !own_cons_ne by (simpl; congruence). rewrite pub_by_snoc_ne by done.
      split_and!; auto; try lia. by apply prefix_app_r.
  - constructor; sh_simpl; auto.
    + lia.
    + exists (xs ++ [x]). split; [by eapply seg_app|]. rewrite fmap_app, Hpub, app_assoc. done.
    + by apply attributed_snoc.
    + rewrite Hsq, length_app. simpl. f_equal.
      assert (drawn l = 0) as ->; [|lia].
      destruct l as [|r2 l]; [done|]. simpl. inversion Hdr as [|? ? Hr2]. by rewrite Hr2.
    + destruct l; simpl; [constructor|]. by inversion Hdr.
    + by inversion Hrs.
  - apply HK; sh_simpl; auto. by rewrite pub_by_snoc_eq, Hp.
Qed.

(** From the reserved stretch to the published message. *)
Lemma push_fill t data size type T pad pub s :
  t <> O -> push_args_ok data size type = true -> (data = None -> size = 0) ->
  0 <= pad -> record_size size <= room cap (T + pad) ->
  Own t (mkResv t T pad (record_size size) false) pub (pad_ok T pad) None s ->
  let pos := (T + pad) mod cap in
  let publish :=
    do! Await FTailPublish (u64 T) in
    let! sq := FetchAdd FSequence 1 in
    do! write_uint (pos + off_sequence) 8 (add64 sq 1) in
    do! Store FTailPublish (add64 (add64 (u64 T) pad) (record_size size)) in
    Ret (Some true) in
  wp t (push_post t (msg_key <$> pub) (type, push_payload data size))
    (write_header pos (mkRecordHeader size type 0 0)
      (if size >? 0 then memcpy_in (pos + sizeof_RecordHeader) data size publish
       else publish)) s.
Proof.
  intros Ht Hv Hnull Hpad Hroom HO pos publish.
  destruct (push_args_spec _ _ _ Hv) as (Hsz & Hty & Hpay). specialize (Hpay Hnull).
  pose proof (record_size_bounds size Hsz) as [Hrs _]. unfold sizeof_RecordHeader in Hrs.
  set (rs := record_size size) in *. set (r := fun d => mkResv t T pad rs d) in *.
  assert (Hown : forall d fp, RingOwner cap no_wrap Inv rely t (T + pad) rs
      (Own t (r d) pub (pad_ok T pad) fp)).
  { intros. apply writer_owner; simpl; auto; unfold v_end, v_len; simpl; try lia.
    apply pad_framed. lia. }
  pose (l := [(16, push_payload data size); (6, le_enc 2 0); (4, le_enc 2 type); (0, le_enc 4 size)]).
  apply (wp_own_fill (Hown := Hown false None)); auto; [unfold sizeof_RecordHeader; lia|].
  intros s1 HO1 Hw1. fold l in Hw1. unfold publish.
  intros s2 Hr2 HI2.
  destruct (wrote_stable (Hown := Hown false None) _ _ _ HO1 Hw1 Hr2 HI2) as [HO2 Hw2].
  split; [exists (r false); split; [apply HO2 | done] | intros Haw].
  assert (HT2 : gTp s2.2 = T).
  { pose proof HO2 as (Ho & _). assert (Hin : In (r false) (gres s2.2))
      by (apply (own_In t); rewrite Ho; by left).
    pose proof (chain_In _ _ _ _ (i_chain _ HI2) Hin) as [Hc1 Hc2].
    unfold v_end, v_len in Hc2. simpl in Hc1, Hc2. pose proof (i_pos _ HI2).
    apply u64_inj; [lia|]. by rewrite <- (i_tp _ HI2). }
  intros s3 Hr3 HI3.
  destruct (wrote_stable (Hown := Hown false None) _ _ _ HO2 Hw2 Hr3 HI3) as [HO3 Hw3].
  assert (HT3 : gTp s3.2 = T).
  { pose proof HO2 as (Ho & _). by destruct (turn_stable t (r false) s2 s3). }
  refine (proj2 (wp_draw t T pad rs pub (pad_ok T pad) s3 _ Ht HI3 HO3 HT3 _)).
  destruct (wp_draw t T pad rs pub (pad_ok T pad) s3 (fun _ => True)) as [Hsq _]; auto.
  rewrite Hsq, add64_u64. intros s4 HO4 Hr4. rewrite <- Hr4 in Hw3.
  set (fp := gpub s3.2) in *. set (sq := u64 (Z.of_nat (length fp) + 1)).
  set (x := mkMsg type (push_payload data size) sq).
  unfold write_uint. apply (wp_own_write (Hown := Hown true (Some fp)) _ l off_sequence);
    [exact HO4 | exact Hw3 | done | done | | |].
  { rewrite length_le_enc. unfold off_sequence. lia. }
  { unfold off_sequence, l. all_apart. }
  intros s5 HO5 Hw5 s6 Hr6 HI6.
  destruct (wrote_stable (Hown := Hown true (Some fp)) _ _ _ HO5 Hw5 Hr6 HI6) as [HO6 Hw6].
  rewrite add64_u64, add64_u64, <- Z.add_assoc.
  assert (Hmx : msize x = rs) by (unfold msize; simpl; by rewrite Hpay).
  apply (wr_wp_publish t T pad rs pub (pad_ok T pad) fp x); auto.
  - rewrite Z.add_assoc. apply (seg_app _ _ _ (T + pad) _ [] [x]).
    + apply pad_seg. apply HO6.
    + rewrite <- Hmx. apply seg_rec; [|constructor].
      apply (wrote_record (own_room (RingOwner := Hown true (Some fp)))); simpl; try lia; [apply u64_range|].
      by rewrite Hpay.
  - intros s7 Ho7 Hp7 s8 Hr8 HI8. apply (wr_producer_knows_stable t _ s7); auto.
    split; [done|]. by rewrite Hp7, fmap_app.
Qed.

Lemma wr_push_unchanged t sent x o s :
  t <> O -> o <> Some true -> producer_knows t sent s -> wp t (push_post t sent x) (Ret o) s.
Proof.
  intros Ht Ho Hk s' Hr _. unfold push_post.
  replace (match o with Some true => [x] | _ => [] end) with (@nil (Z * list byte))
    by (destruct o as [[]|]; done).
  rewrite app_nil_r. by eapply wr_producer_knows_stable.
Qed.

(** The reserved stretch, by the shape of its padding: none, too short for a
    header, or covered by a wrap record. *)
Definition padding_of (T rs : Z) : Z * bool :=
  if room cap T <? sizeof_RecordHeader then (room cap T, false)
  else if room cap T <? rs then (room cap T, true) else (0, false).

Lemma push_reserved t data size type T pad wrap pub s :
  t <> O -> push_args_ok data size type = true -> (data = None -> size = 0) ->
  record_size size <= cap -> padding_of T (record_size size) = (pad, wrap) ->
  Own t (mkResv t T pad (record_size size) false) pub (fun _ => True) None s ->
  let fill pos :=
    do! write_header pos (mkRecordHeader size type 0 0) in
    let publish :=
      do! Await FTailPublish (u64 T) in
      let! sq := FetchAdd FSequence 1 in
      do! write_uint (pos + off_sequence) 8 (add64 sq 1) in
      do! Store FTailPublish (add64 (add64 (u64 T) pad) (record_size size)) in
      Ret (Some true) in
    if size >? 0 then memcpy_in (pos + sizeof_RecordHeader) data size publish
    else publish in
  wp t (push_post t (msg_key <$> pub) (type, push_payload data size))
    (if pad >? 0 then
       if wrap && (pad >=? sizeof_RecordHeader)
       then write_header (T mod cap) wrap_header (fill 0) else fill 0
     else fill (T mod cap)) s.
Proof.
  intros Ht Hv Hnull Hrs Hpad HO fill. pose proof (room_range cap Hcap T) as HR.
  pose proof (push_args_spec _ _ _ Hv) as (Hsz & _).
  pose proof (record_size_bounds size Hsz) as [Hb _]. unfold sizeof_RecordHeader in Hb.
  assert (Hfill : forall s', Own t (mkResv t T pad (record_size size) false) pub (pad_ok T pad) None s' ->
    record_size size <= room cap (T + pad) -> 0 <= pad ->
    wp t (push_post t (msg_key <$> pub) (type, push_payload data size)) (fill ((T + pad) mod cap)) s').
  { intros. by apply push_fill. }
  assert (Hpo : forall s', Own t (mkResv t T pad (record_size size) false) pub (fun _ => True) None s' ->
    pad_ok T pad (ring s'.1) ->
    Own t (mkResv t T pad (record_size size) false) pub (pad_ok T pad) None s').
  { intros s' (? & ? & _ & ?) ?. unfold Own. by split_and!. }
  assert (Hroom0 : room cap (T + room cap T) = cap) by (unfold room at 1; rewrite room_end; auto; lia).
  unfold padding_of in Hpad. destruct (room cap T <? sizeof_RecordHeader) eqn:E1; bool_to_prop.
  - injection Hpad as <- <-. rewrite (proj2 (Z.gtb_lt _ _)) by lia. cbn [andb].
    rewrite <- (room_end cap Hcap T). apply Hfill; [|lia | lia].
    apply Hpo; [done|]. right. split; [done|]. constructor. by left.
  - destruct (room cap T <? record_size size) eqn:E2; bool_to_prop; injection Hpad as <- <-.
    + rewrite (proj2 (Z.gtb_lt _ _)) by lia. rewrite Z.geb_leb, (proj2 (Z.leb_le _ _)) by lia.
      cbn [andb].
      assert (Hown : RingOwner cap no_wrap Inv rely t T (room cap T)
        (Own t (mkResv t T (room cap T) (record_size size) false) pub (fun _ => True) None)).
      { apply writer_owner; auto; unfold v_end, v_len; simpl; try lia. by intros m m' _ _. }
      apply (wp_own_header (Hown := Hown)); [done | done |].
      intros s1 HO1 Hw1. rewrite <- (room_end cap Hcap T). apply Hfill; [|lia | lia].
      apply Hpo; [done|]. right. split; [done|]. constructor. right. split; [done|].
      by eapply wrote_wrap.
    + change (0 >? 0) with false. cbv iota.
      replace (T mod cap) with ((T + 0) mod cap) by (f_equal; lia). apply Hfill; [| rewrite Z.add_0_r; lia | lia].
      apply Hpo; [done|]. by left.
Qed.

Lemma wr_push_wp t data size type sent s :
  t <> O -> push_args_ok data size type = true -> producer_knows t sent s -> Inv s ->
  wp t (push_post t sent (type, push_payload data size)) (try_push cap data size type) s.
Proof.
  intros Ht Hv Hk HI. destruct (push_args_spec _ _ _ Hv) as (Hsz & Hty & _).
  unfold try_push. case_if; [by apply wr_push_unchanged|].
  assert (Hnull : data = None -> size = 0) by (intros ->; destruct_or?; bool_to_prop; done).
  replace (add64 sizeof_RecordHeader size) with (sizeof_RecordHeader + size)
    by (unfold add64, sizeof_RecordHeader; rewrite u64_small; lia).
  fold (record_size size). pose proof (record_size_bounds size Hsz) as [Hrs _].
  unfold sizeof_RecordHeader in Hrs. destruct Hcap as [Hc _].
  case_if; [by apply wr_push_unchanged|].
  intros s1 Hr1 HI1. apply (wr_producer_knows_stable _ _ _ _ Ht Hk) in Hr1 as Hk1.
  intros s2 Hr2 HI2. apply (wr_producer_knows_stable _ _ _ _ Ht Hk1) in Hr2 as Hk2.
  rewrite (i_head _ HI1), (i_tr _ HI2). set (H := gH s1.2). set (T := gTr s2.2).
  assert (HH2 : H <= gH s2.2) by (destruct t as [|t]; [done | apply Hr2]).
  pose proof (i_pos _ HI1) as (Hp1 & _). pose proof (i_pos _ HI2) as (Hp2 & Hp2' & Hp2'').
  pose proof (chain_le _ _ _ (i_chain _ HI2)). fold T in Hp2', Hp2''. fold H in Hp1.
  rewrite sub64_u64 by lia. case_if; [by apply wr_push_unchanged|].
  unfold umod at 1. case_if; [lia|].
  pose proof (room_range cap Hcap T) as HR.
  rewrite remaining_eq by (lia || done || by left).
  fold (padding_of T (record_size size)).
  destruct (padding_of T (record_size size)) as [pad wrap] eqn:Epad.
  assert (Hpad : 0 <= pad <= cap).
  { unfold padding_of in Epad. destruct (room cap T <? sizeof_RecordHeader);
      [|destruct (room cap T <? record_size size)]; injection Epad as <- <-; lia. }
  assert (Ha : forall a b, 0 <= a -> 0 <= b -> a + b < 2 ^ 64 -> add64 a b = a + b)
    by (intros; unfold add64; apply u64_small; lia).
  rewrite (Ha pad) by lia. rewrite (Ha (T - H)) by lia.
  case_if; [by apply wr_push_unchanged|].
  intros s3 Hr3 HI3. apply (wr_producer_knows_stable _ _ _ _ Ht Hk2) in Hr3 as Hk3.
  assert (HH3 : H <= gH s3.2) by (destruct t as [|t]; [done |]; destruct Hr3 as (_ & _ & _ & ? & _); lia).
  split; [intros _; by apply wr_push_unchanged|]. intros Heq.
  pose proof (i_pos _ HI3) as (? & ? & ?). pose proof (chain_le _ _ _ (i_chain _ HI3)).
  assert (HT3 : gTr s3.2 = T).
  { rewrite (i_tr _ HI3) in Heq. rewrite !u64_small in Heq by lia. done. }
  destruct Hk3 as [Ho3 <-].
  apply wp_reserve; auto; [lia | lia | lia |].
  intros s4 HO4. cbn [negb]. unfold umod. case_if; [lia|].
  rewrite u64_mod by (lia || by left).
  apply (push_reserved t data size type T pad wrap (pub_by t (gpub s3.2)) s4); auto.
Qed.

(** ** The consumer's side, for the rings that use this writer *)

(** It has popped [pop], and [pub] was published at some earlier point. *)
Definition Popped (pub : list (nat * msg)) (pop : list msg) (s : state) : Prop :=
  gpop s.2 = pop /\ pub `prefix_of` gpub s.2.

(** Between calls [head_reserve] and [head_publish] agree. *)
Definition Rests (pub : list (nat * msg)) (pop : list msg) (s : state) : Prop :=
  Popped pub pop s /\ load FHeadReserve s.1 = u64 (gH s.2).

(** All of [pub] has been popped. *)
Definition Dry (pub : list (nat * msg)) (pop : list msg) : Prop := (length pub <= length pop)%nat.

(** The consumer has seen that [d] bytes at the head [H] are published, and
    what they hold. *)
Definition Seen (pub : list (nat * msg)) (H : Z) (pop : list msg) (o : option msg) (d : Z)
    (s : state) : Prop :=
  gH s.2 = H /\ Popped pub pop s /\ H + d <= gTp s.2 /\ front cap (ring s.1) H o d.

Lemma Popped_stable pub pop s s' : Popped pub pop s -> consumer_rely s s' -> Popped pub pop s'.
Proof. intros [<- ?] (_ & Hp & _ & _ & ? & _). split; [done | by etrans]. Qed.

Lemma Rests_stable pub pop s s' : Rests pub pop s -> consumer_rely s s' -> Rests pub pop s'.
Proof.
  intros [Hp ?] Hr. split; [by eapply Popped_stable|].
  destruct Hr as (? & _ & _ & ? & _). congruence.
Qed.

Lemma wr_Seen_stable pub H pop o d s s' :
  Seen pub H pop o d s -> consumer_rely s s' -> Seen pub H pop o d s'.
Proof.
  intros (? & Hk & ? & Hf) Hr. pose proof (Popped_stable _ _ _ _ Hk Hr) as Hk'.
  destruct Hr as (? & ? & ? & _ & _ & He). unfold Seen.
  split_and!; try congruence; [lia|]. eapply front_ext; eauto. intros. apply He. lia.
Qed.

(** The consumer has seen what [d] bytes at the head [H] hold, and the reserved
    head is [R]. *)
Definition Holds (pub : list (nat * msg)) (R H : Z) (pop : list msg) (o : option msg) (d : Z)
    (s : state) : Prop :=
  Seen pub H pop o d s /\ load FHeadReserve s.1 = u64 R.

Lemma Holds_stable pub R H pop o d s s' :
  Holds pub R H pop o d s -> consumer_rely s s' -> Holds pub R H pop o d s'.
Proof.
  intros [HS ?] Hr. split; [by eapply wr_Seen_stable|]. destruct Hr as (_ & _ & _ & ? & _). congruence.
Qed.

Lemma Holds_Rests pub H pop o d s : Holds pub H H pop o d s -> Rests pub pop s.
Proof. intros [(HH & ? & _) ?]. split; [done | congruence]. Qed.

(** What the consumer sees between two of its loads: the tail [T] first, then
    its own head. *)
Lemma first_seen pub pop s1 s2 :
  Popped pub pop s1 -> Inv s1 -> consumer_rely s1 s2 ->
  gH s2.2 = gTp s1.2 /\ Dry pub pop \/
  exists o d, gH s2.2 + d <= gTp s1.2 /\ Seen pub (gH s2.2) pop o d s2.
Proof.
  intros Hk HI1 Hr. destruct (i_seg _ HI1) as (xs & Hseg & Hx).
  pose proof (Popped_stable _ _ _ _ Hk Hr) as Hk2. destruct Hk as [Hp Hpre].
  destruct Hr as (HH & Hp2 & HT & _ & _ & He). rewrite <- HH in *.
  destruct (decide (gH s2.2 = gTp s1.2)) as [Heq|Hne]; [left | right].
  - split; [done|]. rewrite Heq in Hseg. apply (seg_empty cap Hcap) in Hseg as ->.
    apply prefix_length in Hpre. apply (f_equal length) in Hx.
    rewrite app_nil_r, length_fmap, Hp in Hx. unfold Dry. lia.
  - destruct (seg_front _ Hcap _ _ _ _ Hseg Hne) as (o & d & ys & Hf & Hd & _).
    exists o, d. split; [done|]. unfold Seen. split_and!; [done | done | lia |].
    eapply front_ext; eauto. intros. apply He. lia.
Qed.

(** A store by the consumer that no producer looks at. *)
Lemma consumer_store f v s K :
  f = FHeadReserve -> Inv s -> K (store f v s.1, s.2) ->
  change no_wrap Inv rely 0 s (store f v s.1) K.
Proof.
  intros -> HI HK _. exists s.2. split_and!; auto.
  - intros [|t'] Ht'; [done|]. simpl. unfold producer_rely. sh_simpl. split_and!; auto; lia.
  - destruct HI. constructor; sh_simpl; auto.
Qed.

(** Publishing the head after the front has been consumed. *)
Definition advanced (o : option msg) (d : Z) (g : ghost) : ghost :=
  mkGhost (gH g + d) (gTp g) (gTr g) (gres g) (gpub g) (gpop g ++ option_list o).

Lemma advanced_ok o d s :
  Inv s -> front cap (ring s.1) (gH s.2) o d -> gH s.2 + d <= gTp s.2 ->
  let s' := (store FHeadPublish (u64 (gH s.2 + d)) s.1, advanced o d s.2) in
  Inv s' /\ forall t, producer_rely t s s'.
Proof.
  intros HI Hf Hle s'. pose proof (front_pos _ Hcap _ _ _ _ Hf). split.
  - destruct HI as [? ? ? ? Hpos ? (xs & Hs & Hpub) ? ? ? ?].
    destruct (seg_advance _ Hcap _ _ _ _ _ _ Hs Hf Hle) as (ys & -> & Hys).
    unfold s'. constructor; sh_simpl; auto; [lia|]. exists ys. split; [done|]. by rewrite Hpub, app_assoc.
  - intros t. unfold producer_rely, s'. sh_simpl. split_and!; auto; try lia. intros T xs _ Hs HT. simpl in *.
    destruct (seg_advance _ Hcap _ _ _ _ _ _ Hs Hf HT) as (ys & _ & Hys). eauto.
Qed.

Lemma consumer_advance pub H pop o d s K :
  Inv s -> Seen pub H pop o d s ->
  (forall s', gH s'.2 = H + d -> Popped pub (pop ++ option_list o) s' ->
     load FHeadReserve s'.1 = load FHeadReserve s.1 -> K s') ->
  change no_wrap Inv rely 0 s (store FHeadPublish (u64 (H + d)) s.1) K.
Proof.
  intros HI (<- & [<- Hpre] & Hle & Hf) HK _. destruct (advanced_ok o d s HI Hf Hle) as [HI' Hr].
  exists (advanced o d s.2). split_and!; [|done|].
  - intros [|t'] Ht'; [done | apply Hr].
  - apply HK; [done | by split | by sh_simpl].
Qed.

Lemma wr_tick_ok d s g : 0 <= d -> no_wrap s (tick d s) -> Inv (s, g) ->
  Inv (tick d s, g) /\ forall t, rely t (s, g) (tick d s, g).
Proof.
  intros _ _ []. split; [by constructor|].
  intros [|t]; simpl; unfold consumer_rely, producer_rely; split_and!; auto; simpl; lia.
Qed.

(** A freshly created ring. *)
Definition fresh (s : shared) : Prop :=
  ctl s = mkControl 0 0 0 0 0 /\ Z.of_nat (length (ring s)) = cap.

Definition g_init : ghost := mkGhost 0 0 0 [] [] [].

Lemma wr_fresh_Inv s : fresh s -> Inv (s, g_init).
Proof.
  intros [Hctl Hlen]. destruct Hcap.
  constructor; simpl; auto; try (by unfold load; rewrite Hctl).
  - lia.
  - exists []. split; [constructor | done].
  - split; [|constructor]. by intros i x Hi.
Qed.
End Writer.
