(* ===== verification/OneConsumer.v ===== *)
(** * Many producers, one consumer

    What the MPSC ring, and the MPMC ring when a single thread pops, have in
    common for their clients: the interface [OneConsumer] of a pop on top of the
    shared writer of [RingWriter], and the properties of all interleavings that
    follow from it. *)

From Stdlib Require Import ZArith Lia Strings.Byte.
From stdpp Require Import base list numbers gmap.
From S2P Require Import Prelude Memory Layout Prog Records Owner RingWriter.

(** Thread 0 is the consumer; every other thread is a producer. *)
Definition role (t : nat) (o : op) : bool :=
  match t, o with
  | S _, OPush data size type => push_args_ok data size type
  | O, OPop _ _ _ => true
  | _, _ => false
  end.

(** [Knows pub pop]: what the consumer knows between calls, when it has popped
    [pop] and [pub] has been published earlier. *)
Class OneConsumer (cap : Z) (body : op -> prog (option res))
    (Knows : list (nat * msg) -> list msg -> shared * ghost -> Prop) : Prop := {
  oc_cap : cap_ok cap;
  oc_push : forall data size type,
    body (OPush data size type) = pmap (option_map RPush) (RingWriter.try_push cap data size type);
  oc_popped : forall pub pop s, Knows pub pop s -> gpop s.2 = pop;
  oc_rest : forall pub pop s, Knows pub pop s -> load FHeadReserve s.1 = u64 (gH s.2);
  oc_mark : forall pub pop s, Knows pub pop s -> Knows (gpub s.2) pop s;
  oc_fresh : forall s, fresh cap s -> Knows [] [] (s, g_init);
  oc_stable : forall pub pop s s',
    Knows pub pop s -> consumer_rely cap s s' -> Knows pub pop s';
  oc_pop : forall pub out type sq pop s, Knows pub pop s -> Inv cap s ->
    wp no_wrap (Inv cap) (rely cap) 0
      (fun o s' => exists p, o = option_map RPop p /\
         pop_post (Knows := Knows pub) (Dry := Dry pub) out sq pop p s')
      (body (OPop out type sq)) s;
}.

Section Clients.
Context {cap : Z} {body : op -> prog (option res)}
  {Knows : list (nat * msg) -> list msg -> shared * ghost -> Prop}
  {Hoc : OneConsumer cap body Knows}.

Abbreviation state := (shared * ghost)%type.
Abbreviation step := (cstep body role no_wrap).

Definition P (pub : list (nat * msg)) (n : nat) (t : nat) (l : list (op * res)) (s : state) : Prop :=
  match t with
  | O => consumed (Knows pub) (Dry pub) n l s
  | _ => producer_knows t (pushed l) s
  end.

Abbreviation ok pub n := (config_ok role no_wrap (Inv cap) (rely cap) (P pub n)).

Lemma oc_P_stable pub n t l s s' : P pub n t l s -> rely cap t s s' -> Inv cap s' -> P pub n t l s'.
Proof.
  destruct t as [|t]; simpl; intros HP Hr _; [|by apply (wr_producer_knows_stable cap (S t) _ s)].
  eapply consumed_stable; [|done]. intros. by eapply oc_stable.
Qed.

Lemma oc_body_ok pub n t o l s :
  role t o = true -> P pub n t l s -> Inv cap s ->
  wp no_wrap (Inv cap) (rely cap) t (post (P pub n) t o l) (body o) s.
Proof.
  intros Hrole HP HI. destruct t as [|t], o; try done.
  - destruct HP as (pop & Hk & Hl & HU & HD). eapply wp_mono; [|by apply oc_pop].
    intros o s' (p & -> & Hp). pose proof (pop_history n out type sequence l pop p s' Hl HU HD Hp) as Hc.
    destruct p; simpl in *; [done | by rewrite app_nil_r in Hc].
  - rewrite oc_push. apply wp_pmap. eapply wp_mono; [|by apply (wr_push_wp _ oc_cap)].
    intros [b|] s'; unfold push_post, post, P, pushed; simpl; [|by rewrite app_nil_r].
    rewrite omap_app. simpl. by destruct b.
Qed.

Lemma oc_reach s c :
  fresh cap s -> creach body role no_wrap s c -> exists g, ok [] 0%nat c g.
Proof.
  intros Hf Hr. eapply (rg_sound body role no_wrap (Inv cap) (rely cap) (P [] 0));
    eauto using oc_P_stable, oc_body_ok, wr_tick_ok.
  - by apply wr_fresh_Inv; [apply oc_cap|].
  - intros [|t]; simpl; [|by split]. exists []. split_and!; [by apply oc_fresh | constructor | constructor |].
    intros. by unfold Dry.
Qed.

Definition observer_rely (s s' : state) : Prop := gpub s.2 `prefix_of` gpub s'.2.

#[local] Instance observer_pre : PreOrder observer_rely.
Proof. split; [by intros s; unfold observer_rely | intros s1 s2 s3; unfold observer_rely; by etrans]. Qed.

Lemma oc_steps pub n c c' g :
  ok pub n c g -> rtc step c c' -> exists g', ok pub n c' g' /\ gpub g `prefix_of` gpub g'.
Proof.
  intros Hc Hs. destruct (config_ok_steps body role no_wrap (Inv cap) (rely cap) (P pub n)
    (oc_P_stable _ _) (oc_body_ok _ _) (wr_tick_ok cap) c c' g Hc Hs) as (g' & Hc' & Ho).
  exists g'. split; [done|]. apply (Ho observer_rely); [apply _|].
  intros [|t] s s' Hr; simpl in Hr; apply Hr.
Qed.

(** From a point where the consumer is between calls: everything published so
    far is what a later refused pop must have seen. *)
Lemma oc_marked c g :
  ok [] 0%nat c g -> c_thr c !! O = None -> ok (gpub g) (length (tlog 0 (c_log c))) c g.
Proof.
  intros (Hf & HI & Ht) Hidle. split_and!; [done | done |]. intros t. specialize (Ht t).
  destruct t as [|t]; [rewrite Hidle in *|].
  - destruct Ht as (pop & Hk & ? & ? & _). exists pop. apply oc_mark in Hk. split_and!; try done. intros. lia.
  - destruct (c_thr c !! S t) as [[o p]|]; [|by destruct t]. destruct Ht as [? Hw]. split; [done|].
    eapply wp_mono; [|exact Hw]. by intros [r|].
Qed.

(** One publication order explains every producer's and the consumer's calls. *)
Lemma oc_linear s c :
  fresh cap s -> creach body role no_wrap s c ->
  c_fault c = false /\
  exists pub popd rest, pub.*2 = popd ++ rest /\ attributed pub /\
    (forall t, c_thr c !! S t = None ->
       pushed (tlog (S t) (c_log c)) = msg_key <$> pub_by (S t) pub) /\
    (c_thr c !! O = None ->
       Forall2 (fun e x => delivers e.1.1 e.1.2 e.2 x) (pops (tlog 0 (c_log c))) popd /\
       untouched (tlog 0 (c_log c))).
Proof.
  intros Hf Hr. destruct (oc_reach s c Hf Hr) as (g & Hfl & HI & Ht).
  split; [done|]. destruct (i_seg _ _ HI) as (xs & _ & Hp).
  exists (gpub g), (gpop g), xs. split_and!; [done | apply HI | |].
  - intros t Hidle. specialize (Ht (S t)). rewrite Hidle in Ht. by destruct Ht as [_ <-].
  - intros Hidle. specialize (Ht O). rewrite Hidle in Ht.
    destruct Ht as (pop & Hk & ? & ? & _). apply oc_popped in Hk. simpl in Hk. by subst pop.
Qed.

(** A refused pop has popped what was pushed before it started. *)
Lemma oc_empty_pop s c0 c1 c t :
  fresh cap s -> creach body role no_wrap s c0 -> rtc step c0 c1 -> rtc step c1 c ->
  c_thr c0 !! S t = None -> c_thr c1 !! O = None -> c_thr c !! O = None ->
  (length (tlog 0 (c_log c1)) < length (tlog 0 (c_log c)))%nat -> refused (tlog 0 (c_log c)) ->
  exists pub popd, popd `prefix_of` pub.*2 /\
    Forall2 (fun e x => delivers e.1.1 e.1.2 e.2 x) (pops (tlog 0 (c_log c))) popd /\
    pushed (tlog (S t) (c_log c0)) `prefix_of` (msg_key <$> pub_by (S t) (take (length popd) pub)).
Proof.
  intros Hf Hr H01 H1c Hp Hi0 Hi Hlt Href. destruct (oc_reach s c0 Hf Hr) as (g0 & Hc0).
  pose proof Hc0 as (_ & _ & Ht0). specialize (Ht0 (S t)). rewrite Hp in Ht0. destruct Ht0 as [_ <-].
  destruct (oc_steps _ _ _ _ _ Hc0 H01) as (g1 & Hc1 & Hpre1).
  apply (oc_marked _ _ Hc1) in Hi0.
  destruct (oc_steps _ _ _ _ _ Hi0 H1c) as (g & (_ & HI & Ht) & Hpre2).
  specialize (Ht O). rewrite Hi in Ht. destruct Ht as (pop & Hk & Hl & HU & HD).
  apply oc_popped in Hk. simpl in Hk. specialize (HD Hlt Href). unfold Dry in HD.
  destruct (i_seg _ _ HI) as (xs & _ & Hpub). simpl in Hpub. rewrite Hk in Hpub.
  exists (gpub g), pop. split_and!; [by exists xs | done |].
  destruct (transitivity Hpre1 Hpre2) as [k1 Hg]. simpl in *. apply prefix_length in Hpre1.
  rewrite Hg, take_app, (take_ge (gpub g0)) by lia.
  unfold pub_by. rewrite filter_app, !fmap_app. by apply prefix_app_r.
Qed.
End Clients.
