(* ===== verification/MpscRing.v ===== *)
(** * shared_ring_buffer.cpp: the MPSC ring

    [SharedRingBuffer]: any number of producers call [try_push] (the shared
    [detail::try_push] of [RingWriter]); a single consumer calls [try_pop]. *)

From Stdlib Require Import ZArith Lia Strings.Byte.
From stdpp Require Import base list numbers gmap.
From S2P Require Import Prelude Memory Layout Prog Records Owner RingWriter OneConsumer.

Definition try_push (capacity : Z) (data : option (list byte)) (size type : Z)
  : prog (option bool) :=
  RingWriter.try_push capacity data size type.

(** The [std::span] overload: the length is narrowed to 32 bits. *)
Definition try_push_span (capacity : Z) (data : list byte) (type : Z) : prog (option bool) :=
  try_push capacity (Some data) (u32 (Z.of_nat (length data))) type.

(** One iteration of the [for (;;)] loop of [try_pop_internal]. *)
Definition try_pop_internal (capacity : Z) (out : list byte) (type : Z) (sequence : option Z)
  : prog (option popped) :=
  let fail := Ret (Some (mkPopped false out type sequence)) in
  let! tail := Load FTailPublish in
  let! head := Load FHeadPublish in
  if head =? tail then fail else
  let! pos := umod head capacity in
  let remaining := sub64 capacity pos in
  let skip :=
    let head := add64 head remaining in
    do! Store FHeadPublish head in
    do! Store FHeadReserve head in
    Ret None in
  if remaining <? sizeof_RecordHeader then skip else
  let! flags := read_uint (pos + off_flags) 2 in
  if negb (Z.land flags kWrapFlag =? 0) then skip else
  let! payload_size := read_uint (pos + off_size) 4 in
  let record_size := align_up (add64 sizeof_RecordHeader payload_size) kAlignment in
  if record_size >? remaining then fail else
  if sub64 tail head <? record_size then fail else
  let finish out :=
    let! type := read_uint (pos + off_type) 2 in
    let return_true sequence :=
      let head := add64 head record_size in
      do! Store FHeadPublish head in
      do! Store FHeadReserve head in
      Ret (Some (mkPopped true out type sequence)) in
    match sequence with
    | Some _ => let! sq := read_uint (pos + off_sequence) 8 in return_true (Some sq)
    | None => return_true None
    end in
  let out := if Z.of_nat (length out) <? payload_size then resize out payload_size else out in
  if payload_size >? 0
  then let! bs := memcpy_from (pos + sizeof_RecordHeader) (Z.to_nat payload_size) in
       finish (copy_front out bs)
  else finish out.

(** The two public overloads. *)
Definition try_pop (capacity : Z) (out : list byte) (type : Z) : prog (option popped) :=
  try_pop_internal capacity out type None.
Definition try_pop_seq (capacity : Z) (out : list byte) (type sequence : Z) : prog (option popped) :=
  try_pop_internal capacity out type (Some sequence).

Definition approx_size (capacity : Z) : prog Z :=
  let! head := Load FHeadPublish in
  let! tail := Load FTailPublish in
  let used := sub64 tail head in
  if used >? capacity then Ret capacity else Ret used.

(** ** Concurrent correctness

    Thread 0 is the consumer; every other thread is a producer. *)

Definition body (capacity : Z) (o : op) : prog (option res) :=
  match o with
  | OPush data size type => pmap (option_map RPush) (try_push capacity data size type)
  | OPop out type sq => pmap (option_map RPop) (try_pop_internal capacity out type sq)
  end.

Section Mpsc.
Context (cap : Z) (Hcap : cap_ok cap).

(** The new head is published, then recorded in [head_reserve]. *)
Definition advance (h : Z) (k : prog (option popped)) : prog (option popped) :=
  do! Store FHeadPublish h in do! Store FHeadReserve h in k.

#[local] Instance mpsc_consumer pub :
  RingConsumer cap no_wrap (Inv cap) (rely cap) 0 advance (Rests pub) (fun H => Holds cap pub H H) (Dry pub).
Proof.
  split; auto.
  - apply i_len.
  - intros. by eapply Rests_stable.
  - intros. by eapply Holds_Rests.
  - intros. by eapply Holds_stable.
  - intros H pop o d s [(_ & _ & _ & Hf) _]. done.
  - intros pop s1 s2 Hp HI1 Hr HI2. exists (gH s2.2), (gTp s1.2).
    pose proof (first_seen _ Hcap _ _ _ _ (proj1 Hp) HI1 Hr) as Hs.
    pose proof (proj2 (Rests_stable _ _ _ _ _ Hp Hr)) as Hh.
    destruct Hr as (HH & _). pose proof (i_pos _ _ HI1) as (? & ? & ?).
    pose proof (chain_le _ _ _ (i_chain _ _ HI1)). rewrite <- HH in *.
    split_and!; try lia; [apply HI1 | apply HI2 | left; lia |].
    destruct Hs as [?|(o & d & ? & ?)]; [by left | right; exists o, d; by split_and!].
  - intros Q H pop o d k s HS Hk s1 Hr1 HI1. apply (Holds_stable _ _ _ _ _ _ _ _ _ HS) in Hr1 as [HS1 _].
    apply (consumer_advance cap Hcap pub H pop o d); auto.
    intros s2 HH2 Hp2 _ s3 Hr3 HI3. apply consumer_store; auto.
    apply Hk. pose proof (Popped_stable _ _ _ _ _ Hp2 Hr3). destruct Hr3 as (HH3 & _).
    split; sh_simpl; [done | congruence].
Qed.

#[export] Instance mpsc_one_consumer : OneConsumer cap (body cap) Rests.
Proof.
  split; [done | done | by intros pub pop s [[] ?] | by intros pub pop s [] | by intros pub pop s [[] ?] | | |].
  - intros s [Hctl _]. split; [done|]. unfold load. simpl. by rewrite Hctl.
  - intros. by eapply Rests_stable.
  - intros pub out type sq pop s Hk HI. apply wp_pmap.
    eapply wp_mono; [|by apply (pop_loop_wp (Hrc := mpsc_consumer pub) _ _ _ pop)].
    intros o s' Hp. by exists o.
Qed.
End Mpsc.

Definition reachable (cap : Z) (s : shared) : config -> Prop := creach (body cap) role no_wrap s.

(** C3: in every interleaving of any number of producers and one consumer on a
    fresh MPSC ring that reserves fewer than [2^64] bytes: no access is out of
    bounds; there is one publication order [pub] of (producer, message) pairs
    such that each producer's messages appear in the order of its successful
    calls, exactly once, every published message is some producer's, the sequence
    numbers count the publications, and the popped messages are a prefix of
    [pub]; a refused pop leaves the caller's vector as it was. *)
Theorem mpsc_linear cap s c :
  cap_ok cap -> fresh cap s -> reachable cap s c ->
  c_fault c = false /\
  exists pub popd rest, pub.*2 = popd ++ rest /\ attributed pub /\
    (forall t, c_thr c !! S t = None ->
       pushed (tlog (S t) (c_log c)) = msg_key <$> pub_by (S t) pub) /\
    (c_thr c !! O = None ->
       Forall2 (fun e x => delivers e.1.1 e.1.2 e.2 x) (pops (tlog 0 (c_log c))) popd /\
       untouched (tlog 0 (c_log c))).
Proof. intros Hc. apply (oc_linear (Hoc := mpsc_one_consumer cap Hc)). Qed.

(** Two producers whose reservations overlap in time: the second one fills in
    its record first and waits for the first one to publish. *)
Definition demo_schedule : list act :=
  [AStart 1 (OPush (Some [x61; x62; x63]) 3 7)] ++ steps 1 4 ++
  [AStart 2 (OPush (Some [x64]) 1 9)] ++ steps 2 12 ++
  [AStart 0 (OPop [] 0 (Some 0))] ++ steps 0 3 ++
  steps 1 11 ++ steps 2 5 ++
  [AStart 0 (OPop [] 0 (Some 0))] ++ steps 0 12 ++
  [AStart 0 (OPop [] 0 (Some 0))] ++ steps 0 10.

Lemma mpsc_linear_witness :
  exists c, crun (body 64) role demo_schedule (init_config ring64) = Some c /\
    (pops (tlog 0 (c_log c))).*2 =
      [mkPopped true [x61; x62; x63] 7 (Some 1); mkPopped true [x64] 9 (Some 2)] /\
    c_fault c = false /\
    exists pub popd rest, pub.*2 = popd ++ rest /\ attributed pub /\
      (forall t, c_thr c !! S t = None ->
         pushed (tlog (S t) (c_log c)) = msg_key <$> pub_by (S t) pub) /\
      (c_thr c !! O = None ->
         Forall2 (fun e x => delivers e.1.1 e.1.2 e.2 x) (pops (tlog 0 (c_log c))) popd /\
       untouched (tlog 0 (c_log c))).
Proof.
  eexists. split; [vm_compute; reflexivity|]. split; [vm_compute; reflexivity|].
  apply (mpsc_linear 64 ring64 _ cap_ok_64); [by split|].
  apply (crun_checked_reach _ _ _
    (fun s s' => load FTailReserve s <=? load FTailReserve s') demo_schedule);
    [|vm_compute; reflexivity].
  intros s s' H. unfold no_wrap. lia.
Defined.
