(* ===== verification/MpmcRing.v ===== *)
(** * shared_ring_buffer_mpmc.cpp: the MPMC ring

    [SharedRingBufferMPMC]: producers call [try_push] (the shared
    [detail::try_push] of [RingWriter]); consumers reserve a record with a
    compare-exchange on [head_reserve], copy it out, and release it in
    reservation order through [head_publish]. *)

From Stdlib Require Import ZArith Lia Strings.Byte.
From stdpp Require Import base list numbers gmap.
From S2P Require Import Prelude Memory Layout Prog Records Owner RingWriter OneConsumer MpscRing.

Definition try_push (capacity : Z) (data : option (list byte)) (size type : Z)
  : prog (option bool) :=
  RingWriter.try_push capacity data size type.

(** The [std::span] overload: the length is narrowed to 32 bits. *)
Definition try_push_span (capacity : Z) (data : list byte) (type : Z) : prog (option bool) :=
  try_push capacity (Some data) (u32 (Z.of_nat (length data))) type.

(** The loop of the three-argument [try_pop] once the counters have been loaded. *)
Definition try_pop_rest (capacity : Z) (out : list byte) (type sequence tail head : Z)
  : prog (option popped) :=
  let fail := Ret (Some (mkPopped false out type (Some sequence))) in
  if head =? tail then fail else
  let! pos := umod head capacity in
  let remaining := sub64 capacity pos in
  let available := sub64 tail head in
  let skip :=
    if available <? remaining then fail else
    let new_head := add64 head remaining in
    let! exchanged := Cas true FHeadReserve head new_head in
    if negb exchanged then Ret None else
    do! Await FHeadPublish head in
    do! Store FHeadPublish new_head in
    Ret None in
  if remaining <? sizeof_RecordHeader then skip else
  if available <? sizeof_RecordHeader then fail else
  let! flags := read_uint (pos + off_flags) 2 in
  if negb (Z.land flags kWrapFlag =? 0) then skip else
  let! payload_size := read_uint (pos + off_size) 4 in
  let record_size := align_up (add64 sizeof_RecordHeader payload_size) kAlignment in
  if record_size >? remaining then fail else
  if available <? record_size then fail else
  let new_head := add64 head record_size in
  let! exchanged := Cas true FHeadReserve head new_head in
  if negb exchanged then Ret None else
  let finish out :=
    let! type := read_uint (pos + off_type) 2 in
    let! sequence := read_uint (pos + off_sequence) 8 in
    do! Await FHeadPublish head in
    do! Store FHeadPublish new_head in
    Ret (Some (mkPopped true out type (Some sequence))) in
  let out := if Z.of_nat (length out) <? payload_size then resize out payload_size else out in
  if payload_size >? 0
  then let! bs := memcpy_from (pos + sizeof_RecordHeader) (Z.to_nat payload_size) in
       finish (copy_front out bs)
  else finish out.

(** One iteration of its [for (;;)] loop. *)
Definition try_pop_seq (capacity : Z) (out : list byte) (type sequence : Z)
  : prog (option popped) :=
  let! tail := Load FTailPublish in
  let! head := Load FHeadReserve in
  try_pop_rest capacity out type sequence tail head.

(** The two-argument overload ignores the sequence number. *)
Definition without_seq (p : popped) : popped := mkPopped (p_ok p) (p_out p) (p_type p) None.

Definition try_pop (capacity : Z) (out : list byte) (type : Z) : prog (option popped) :=
  pmap (option_map without_seq) (try_pop_seq capacity out type 0).

Definition approx_size (capacity : Z) : prog Z :=
  let! head := Load FHeadPublish in
  let! tail := Load FTailPublish in
  let used := sub64 tail head in
  if used >? capacity then Ret capacity else Ret used.

Definition body (capacity : Z) (o : op) : prog (option res) :=
  match o with
  | OPush data size type => pmap (option_map RPush) (try_push capacity data size type)
  | OPop out type (Some sq) => pmap (option_map RPop) (try_pop_seq capacity out type sq)
  | OPop out type None => pmap (option_map RPop) (try_pop capacity out type)
  end.

(** ** Copying out a reserved record *)

(** What [try_pop_seq] does after it has reserved the record of [x] at [H]. *)
Definition release (cap H : Z) (x : msg) (out : list byte) : prog (option popped) :=
  let! type := read_uint (H mod cap + off_type) 2 in
  let! sequence := read_uint (H mod cap + off_sequence) 8 in
  do! Await FHeadPublish (u64 H) in
  do! Store FHeadPublish (u64 (H + msize x)) in
  Ret (Some (mkPopped true out type (Some sequence))).

Definition copy_out (cap H : Z) (x : msg) (out : list byte) : prog (option popped) :=
  let n := Z.of_nat (length (m_payload x)) in
  let out := if Z.of_nat (length out) <? n then resize out n else out in
  if n >? 0
  then memcpy_from (H mod cap + sizeof_RecordHeader) (length (m_payload x))
         (fun bs => release cap H x (copy_front out bs))
  else release cap H x out.

Section CopyOut.
Context {G : Type} {W : Waits G} {cap : Z} {allowed : shared -> shared -> Prop}
  {Inv : shared * G -> Prop} {rely : nat -> shared * G -> shared * G -> Prop}
  {t : nat} {H : Z} {x : msg} {Hold : shared * G -> Prop}
  {Hrd : RingReader cap Inv rely t H x Hold} {rely_pre : forall t, PreOrder (rely t)}.

Lemma copy_out_wp (Q : option popped -> shared * G -> Prop) out s :
  Hold s ->
  (forall s', Hold s' -> wp allowed Inv rely t Q
     (do! Await FHeadPublish (u64 H) in
      do! Store FHeadPublish (u64 (H + msize x)) in
      Ret (Some (mkPopped true (fill_out out (m_payload x)) (m_type x) (Some (m_seq x))))) s') ->
  wp allowed Inv rely t Q (copy_out cap H x out) s.
Proof.
  intros HH Hk. unfold copy_out. cbv zeta.
  assert (Hfin : forall s', Hold s' -> wp allowed Inv rely t Q (release cap H x (fill_out out (m_payload x))) s').
  { intros s1 HH1. apply (wp_read_type (Hrd := Hrd)); [done|]. intros s2 HH2.
    apply (wp_read_seq (Hrd := Hrd)); [done|]. intros s3 HH3. exact (Hk s3 HH3). }
  destruct (Z.of_nat (length (m_payload x)) >? 0) eqn:E; bool_to_prop.
  - apply (wp_read_payload (Hrd := Hrd)); [done|]. intros s1 HS1. exact (Hfin _ HS1).
  - assert (Hnil : m_payload x = []) by (destruct (m_payload x); [done | simpl in *; lia]).
    specialize (Hfin _ HH). rewrite Hnil in *. exact Hfin.
Qed.
End CopyOut.

(** ** One consumer

    Thread 0 is the consumer; every other thread is a producer. *)

Section Mpmc.
Context (cap : Z) (Hcap : cap_ok cap).

Abbreviation state := (shared * ghost)%type.
Abbreviation wp0 := (wp no_wrap (Inv cap) (rely cap) 0).

(** The compare-exchange that reserves the front, and its spurious failure. *)
Lemma wp_head_reserve {A} (Q : A -> state -> Prop) pub H pop o d k kf s :
  Holds cap pub H H pop o d s ->
  (forall s', Holds cap pub (H + d) H pop o d s' -> wp0 Q k s') ->
  (forall s', Rests pub pop s' -> wp0 Q kf s') ->
  wp0 Q (Cas true FHeadReserve (u64 H) (u64 (H + d)) (fun b => if negb b then kf else k)) s.
Proof.
  intros HH Hk Hkf s1 Hr HI. apply (Holds_stable _ _ _ _ _ _ _ _ _ HH) in Hr as [HS ?].
  split; intros _; [apply Hkf; by eapply Holds_Rests|].
  apply consumer_store; auto. apply Hk. split; sh_simpl; auto.
Qed.

(** Releasing the reserved front. *)
Lemma wp_head_release {A} (Q : A -> state -> Prop) pub H pop o d k s :
  Holds cap pub (H + d) H pop o d s ->
  (forall s', Rests pub (pop ++ option_list o) s' -> wp0 Q k s') ->
  wp0 Q (Await FHeadPublish (u64 H) (Store FHeadPublish (u64 (H + d)) k)) s.
Proof.
  intros HH Hk s1 Hr1 HI1. apply (Holds_stable _ _ _ _ _ _ _ _ _ HH) in Hr1 as HH1.
  split; [|intros _].
  { destruct HH1 as [(<- & _) _]. apply (i_head _ _ HI1). }
  intros s2 Hr2 HI2. apply (Holds_stable _ _ _ _ _ _ _ _ _ HH1) in Hr2 as [HS2 HR2].
  apply (consumer_advance cap Hcap pub H pop o d); auto.
  intros s3 HH3 Hp3 Hr3. apply Hk. split; [done | congruence].
Qed.

Abbreviation pop_post pub := (pop_post (Knows := Rests pub) (Dry := Dry pub)).

Lemma mpmc_pop_unchanged pub out sq o pop s :
  match o with Some p => p_ok p = false /\ p_out p = out /\ Dry pub pop | None => True end ->
  Rests pub pop s -> wp0 (pop_post pub out sq pop) (Ret o) s.
Proof.
  intros Ho Hk s' Hr HI. pose proof (Rests_stable _ _ _ _ _ Hk Hr) as Hk'. unfold Owner.pop_post.
  by destruct o as [p|]; [destruct Ho as (-> & ? & ?)|].
Qed.

Lemma mpmc_reader pub R H pop x :
  RingReader cap (Inv cap) (rely cap) 0 H x (Holds cap pub R H pop (Some x) (msize x)).
Proof.
  split; auto; [apply i_len | intros; by eapply Holds_stable |].
  intros s [(_ & _ & _ & Hf) _] _. by inversion Hf.
Qed.

(** Copying out a reserved record and releasing it. *)
Lemma mpmc_pop_record pub out q H pop x s :
  Holds cap pub (H + msize x) H pop (Some x) (msize x) s ->
  wp0 (pop_post pub out (Some q) pop) (copy_out cap H x out) s.
Proof.
  intros HH. apply (copy_out_wp (Hrd := mpmc_reader pub (H + msize x) H pop x)); [done|].
  intros s1 HH1. apply (wp_head_release _ pub _ pop (Some x)); [done|]. intros s2 Hk s3 Hr HI.
  exists x. split; [reflexivity|]. by eapply Rests_stable.
Qed.

(** Skipping the unused end of the ring. *)
Lemma mpmc_pop_skip pub out q H pop d s :
  Holds cap pub H H pop None d s ->
  wp0 (pop_post pub out (Some q) pop)
    (Cas true FHeadReserve (u64 H) (u64 (H + d)) (fun exchanged =>
       if negb exchanged then Ret None else
       do! Await FHeadPublish (u64 H) in
       do! Store FHeadPublish (u64 (H + d)) in Ret None)) s.
Proof.
  intros HH. eapply wp_head_reserve; [exact HH | |]; intros s1 H1; [|by apply mpmc_pop_unchanged].
  eapply wp_head_release; [exact H1|]. intros s2 Hk. simpl in Hk. rewrite app_nil_r in Hk.
  by apply mpmc_pop_unchanged.
Qed.

(** The head and the tail that the consumer has loaded. *)
Lemma mpmc_loads pub pop s1 s2 :
  Rests pub pop s1 -> Inv cap s1 -> consumer_rely cap s1 s2 ->
  0 <= gH s2.2 <= gTp s1.2 /\ gTp s1.2 <= gH s2.2 + cap /\ idx_ok cap (gH s2.2) /\
  (gH s2.2 = gTp s1.2 /\ Dry pub pop \/
   exists o d, gH s2.2 + d <= gTp s1.2 /\ Holds cap pub (gH s2.2) (gH s2.2) pop o d s2).
Proof.
  intros Hk HI1 Hr. pose proof (Rests_stable _ _ _ _ _ Hk Hr) as [_ Hh2].
  destruct (first_seen _ Hcap _ _ _ _ (proj1 Hk) HI1 Hr) as [[? ?] | (o & d & ? & HS)];
    destruct Hr as (HH & _); pose proof (i_pos _ _ HI1) as (? & ? & ?);
    pose proof (chain_le _ _ _ (i_chain _ _ HI1)); rewrite <- HH in *;
    split_and!; try lia; try (left; lia); auto.
  right. exists o, d. done.
Qed.

(** The front is the unused end of the ring. *)
Lemma mpmc_pop_end pub out type q H T pop s :
  let remaining := room cap H in
  let fail := Ret (Some (mkPopped false out type (Some q))) in
  let skip := Cas true FHeadReserve (u64 H) (u64 (H + remaining)) (fun exchanged =>
       if negb exchanged then Ret None else
       do! Await FHeadPublish (u64 H) in
       do! Store FHeadPublish (u64 (H + remaining)) in Ret None) in
  forall k,
  Holds cap pub H H pop None remaining s -> H + remaining <= T ->
  wp0 (pop_post pub out (Some q) pop)
    (if remaining <? sizeof_RecordHeader
     then if T - H <? remaining then fail else skip
     else if T - H <? sizeof_RecordHeader then fail else
     let! flags := read_uint (H mod cap + off_flags) 2 in
     if negb (Z.land flags kWrapFlag =? 0)
     then if T - H <? remaining then fail else skip
     else k) s.
Proof.
  intros remaining fail skip k HH HT. subst remaining fail skip.
  rewrite (proj2 (Z.ltb_ge (T - H) (room cap H))) by lia.
  pose proof HH as [(_ & _ & _ & Hf) _]. inversion Hf as [Hw|]; subst.
  case_if; [by apply mpmc_pop_skip|]. destruct Hw as [? | [Hr Hw]]; [lia|].
  rewrite (proj2 (Z.ltb_ge (T - H) sizeof_RecordHeader)) by lia.
  intros s3 Hr3 HI3. pose proof (Holds_stable _ _ _ _ _ _ _ _ _ HH Hr3) as HH3.
  exists (rbytes cap (ring s3.1) (H + off_flags) 2). split.
  { apply mem_read_at; auto; unfold off_flags, sizeof_RecordHeader in *; try lia. by apply i_len. }
  pose proof HH3 as [(_ & _ & _ & Hf3) _]. inversion Hf3 as [Hw3|]; subst.
  destruct Hw3 as [? | [_ Hw3]]; [lia|].
  unfold is_wrap, at_flags in Hw3. apply Z.eqb_neq in Hw3. rewrite Hw3. by apply mpmc_pop_skip.
Qed.

Lemma mpmc_rest_wp pub out type q H T pop s :
  Rests pub pop s -> 0 <= H <= T -> T <= H + cap -> idx_ok cap H ->
  (H = T /\ Dry pub pop \/ exists o d, H + d <= T /\ Holds cap pub H H pop o d s) ->
  wp0 (pop_post pub out (Some q) pop) (try_pop_rest cap out type q (u64 T) (u64 H)) s.
Proof.
  intros Hk2 HH HT Hidx Hcase. pose proof (proj1 Hcap) as Hc. unfold try_pop_rest.
  destruct (decide (H = T)) as [<- | Hne].
  { rewrite Z.eqb_refl. apply mpmc_pop_unchanged; [|done]. split_and!; [done | done |].
    destruct Hcase as [[_ ?] | (o & d & Hd & [(_ & _ & _ & Hf) _])]; [done|].
    apply (front_pos _ Hcap) in Hf. lia. }
  destruct Hcase as [[? _] | (o & d & Hd & HHo)]; [done|].
  case_if; [apply u64_inj in Heqb; lia|].
  unfold umod. case_if; [lia|]. rewrite remaining_eq, u64_mod by (done || lia).
  rewrite !add64_u64, sub64_u64 by lia.
  pose proof HHo as [(_ & _ & _ & Hf) _]. destruct Hf as [Hw | x Hrec].
  - by apply (mpmc_pop_end pub out type q H T).
  - pose proof (mpmc_reader pub H H pop x) as Hrd.
    pose proof (is_record_msize _ _ _ _ Hrec) as Hms.
    pose proof (ir_len _ _ _ _ Hrec) as Hlen.
    case_if; [lia|]. case_if; [lia|].
    apply (wp_read_flags (Hrd := Hrd)); [done|].
    intros s3 f HS3 Hfl. rewrite Hfl, Z.eqb_refl. simpl negb. cbv iota.
    apply (wp_read_size (Hrd := Hrd)); [done|]. intros s4 HS4.
    replace (add64 sizeof_RecordHeader (Z.of_nat (length (m_payload x)))) with
      (sizeof_RecordHeader + Z.of_nat (length (m_payload x)))
      by (unfold add64, sizeof_RecordHeader; rewrite u64_small; lia).
    rewrite add64_u64. fold (record_size (Z.of_nat (length (m_payload x)))).
    fold (msize x). case_if; [lia|]. case_if; [lia|].
    eapply wp_head_reserve; [exact HS4 | |]; intros s5 H5; [|by apply mpmc_pop_unchanged].
    rewrite Nat2Z.id. by apply mpmc_pop_record.
Qed.

Lemma mpmc_pop_wp pub out type q pop s :
  Rests pub pop s -> Inv cap s -> wp0 (pop_post pub out (Some q) pop) (try_pop_seq cap out type q) s.
Proof.
  intros Hk HI. unfold try_pop_seq.
  intros s1 Hr1 HI1. pose proof (Rests_stable _ _ _ _ _ Hk Hr1) as Hk1.
  intros s2 Hr2 HI2. pose proof (Rests_stable _ _ _ _ _ Hk1 Hr2) as Hk2.
  destruct (mpmc_loads _ _ _ _ Hk1 HI1 Hr2) as (HH & HT & Hidx & Hcase).
  rewrite (proj2 Hk2), (i_tp _ _ HI1). by apply mpmc_rest_wp.
Qed.

Lemma without_seq_delivers pub out q pop o s :
  pop_post pub out (Some q) pop o s -> pop_post pub out None pop (option_map without_seq o) s.
Proof.
  unfold Owner.pop_post. destruct o as [p|]; simpl; [|done].
  destruct (p_ok p); [|done]. intros (x & -> & Hk). exists x. split; [reflexivity | done].
Qed.

#[export] Instance mpmc_single : OneConsumer cap (body cap) Rests.
Proof.
  split; [done | done | by intros pub pop s [[] ?] | by intros pub pop s [] | | | |].
  - intros pub pop s [[? ?] ?]. by split_and!.
  - intros s [Hctl _]. split; [done|]. unfold load. simpl. by rewrite Hctl.
  - intros. by eapply Rests_stable.
  - intros pub out type sq pop s Hk HI. unfold body, try_pop.
    destruct sq as [q|]; repeat apply wp_pmap;
      (eapply wp_mono; [|by apply (mpmc_pop_wp pub)]); intros o s' Hp; eexists; (split; [done|]);
      [done | by apply without_seq_delivers in Hp].
Qed.
End Mpmc.

Definition reachable (cap : Z) (s : shared) : config -> Prop := creach (body cap) role no_wrap s.

(** C4: the MPMC ring with any number of producers and one consumer, in every
    interleaving that reserves fewer than [2^64] bytes: no access is out of
    bounds, and the popped messages are a prefix of one publication order in
    which each producer's messages appear exactly once, in call order; a refused
    pop leaves the caller's vector as it was. *)
Theorem mpmc_one_consumer cap s c :
  cap_ok cap -> fresh cap s -> reachable cap s c ->
  c_fault c = false /\
  exists pub popd rest, pub.*2 = popd ++ rest /\ attributed pub /\
    (forall t, c_thr c !! S t = None ->
       pushed (tlog (S t) (c_log c)) = msg_key <$> pub_by (S t) pub) /\
    (c_thr c !! O = None ->
       Forall2 (fun e x => delivers e.1.1 e.1.2 e.2 x) (pops (tlog 0 (c_log c))) popd /\
       untouched (tlog 0 (c_log c))).
Proof. intros Hc. apply (oc_linear (Hoc := mpmc_single cap Hc)). Qed.

Definition demo_schedule : list act :=
  [AStart 1 (OPush (Some [x61; x62; x63]) 3 7)] ++ steps 1 4 ++
  [AStart 2 (OPush (Some [x64]) 1 9)] ++ steps 2 12 ++
  [AStart 0 (OPop [] 0 (Some 0))] ++ steps 0 3 ++
  steps 1 11 ++ steps 2 5 ++
  [AStart 0 (OPop [] 0 (Some 0))] ++ steps 0 13 ++
  [AStart 0 (OPop [] 0 None)] ++ steps 0 11.

Lemma mpmc_one_consumer_witness :
  exists c, crun (body 64) role demo_schedule (init_config ring64) = Some c /\
    (pops (tlog 0 (c_log c))).*2 =
      [mkPopped true [x61; x62; x63] 7 (Some 1); mkPopped true [x64] 9 None] /\
    c_fault c = false /\
    exists pub popd rest, pub.*2 = popd ++ rest /\ attributed pub /\
      (forall t, c_thr c !! S t = None ->
         pushed (tlog (S t) (c_log c)) = msg_key <$> pub_by (S t) pub) /\
      (c_thr c !! O = None ->
         Forall2 (fun e x => delivers e.1.1 e.1.2 e.2 x) (pops (tlog 0 (c_log c))) popd /\
       untouched (tlog 0 (c_log c))).
Proof.
  eexists. split; [vm_compute; reflexivity|]. split; [vm_compute; reflexivity|].
  apply (mpmc_one_consumer 64 ring64 _ cap_ok_64); [by split|].
  apply (crun_checked_reach _ _ _
    (fun s s' => load FTailReserve s <=? load FTailReserve s') demo_schedule);
    [|vm_compute; reflexivity].
  intros s s' H. unfold no_wrap. lia.
Defined.

(** C20: on the MPSC ring, and on the MPMC ring with one consumer, a pop that
    returns [false] has seen every push that returned before it started.  Take a
    point [c0] where producer [t] is between calls, a later [c1] where the
    consumer is between calls, and a point [c] where the last of its further
    calls was refused; then all that [t] had pushed by [c0] is among the messages
    popped by [c]. *)
Theorem shared_empty_pop cap body s c0 c1 c t :
  body = MpscRing.body \/ body = MpmcRing.body -> cap_ok cap -> fresh cap s ->
  creach (body cap) role no_wrap s c0 ->
  rtc (cstep (body cap) role no_wrap) c0 c1 -> rtc (cstep (body cap) role no_wrap) c1 c ->
  c_thr c0 !! S t = None -> c_thr c1 !! O = None -> c_thr c !! O = None ->
  (length (tlog 0 (c_log c1)) < length (tlog 0 (c_log c)))%nat -> refused (tlog 0 (c_log c)) ->
  exists pub popd, popd `prefix_of` pub.*2 /\
    Forall2 (fun e x => delivers e.1.1 e.1.2 e.2 x) (pops (tlog 0 (c_log c))) popd /\
    pushed (tlog (S t) (c_log c0)) `prefix_of` (msg_key <$> pub_by (S t) (take (length popd) pub)).
Proof.
  intros [-> | ->] Hc;
    [apply (oc_empty_pop (Hoc := mpsc_one_consumer cap Hc)) | apply (oc_empty_pop (Hoc := mpmc_single cap Hc))].
Qed.

(** Producer 1 has pushed a message and producer 2 has reserved the space behind
    it without publishing: the consumer pops the first and is then refused. *)
Definition empty_before : list act := [AStart 1 (OPush (Some [x61]) 1 7)] ++ steps 1 13.
Definition empty_between : list act := [AStart 2 (OPush (Some [x62]) 1 8)] ++ steps 2 4.
Definition empty_after : list act :=
  [AStart 0 (OPop [] 0 None)] ++ steps 0 11 ++ [AStart 0 (OPop [] 0 None)] ++ steps 0 3.

Definition monotone (s s' : shared) : bool := load FTailReserve s <=? load FTailReserve s'.

Lemma monotone_allowed s s' : monotone s s' = true -> no_wrap s s'.
Proof. unfold monotone, no_wrap. lia. Qed.

Lemma shared_empty_pop_witness :
  let c0 := after (body 64) role empty_before (init_config ring64) in
  let c1 := after (body 64) role empty_between c0 in
  let c := after (body 64) role empty_after c1 in
  pushed (tlog 1 (c_log c0)) = [(7, [x61])] /\ (length (tlog 0 (c_log c)) = 2)%nat /\
  exists pub popd, popd `prefix_of` pub.*2 /\
    Forall2 (fun e x => delivers e.1.1 e.1.2 e.2 x) (pops (tlog 0 (c_log c))) popd /\
    pushed (tlog 1 (c_log c0)) `prefix_of` (msg_key <$> pub_by 1 (take (length popd) pub)).
Proof.
  intros c0 c1 c. split; [vm_compute; reflexivity|]. split; [vm_compute; reflexivity|].
  apply (shared_empty_pop 64 body ring64 c0 c1 c 0); [by right | apply cap_ok_64 | by split | ..].
  - apply (crun_checked_after _ _ _ monotone); [apply monotone_allowed | vm_compute; reflexivity].
  - apply (crun_checked_after _ _ _ monotone); [apply monotone_allowed | vm_compute; reflexivity].
  - apply (crun_checked_after _ _ _ monotone); [apply monotone_allowed | vm_compute; reflexivity].
  - vm_compute. reflexivity.
  - vm_compute. reflexivity.
  - vm_compute. reflexivity.
  - apply Nat.ltb_lt. vm_compute. reflexivity.
  - vm_compute. reflexivity.
Defined.

(** ** Two consumers

    [try_pop] loads [tail_publish] before [head_reserve].  A second consumer
    can move [head_reserve] past the tail the first one has loaded; then
    [tail - head] wraps around and passes for a large number of available
    bytes. *)

Definition two_consumers (t : nat) (o : op) : bool :=
  match t, o with
  | 1%nat, OPush data size type => push_args_ok data size type
  | O, OPop _ _ _ | 2%nat, OPop _ _ _ => true
  | _, _ => false
  end.

(** Consumer 0 loads the tail of the empty ring; producer 1 pushes one message,
    which consumer 2 pops; consumer 0 goes on. *)
Definition phantom_schedule : list act :=
  [AStart 0 (OPop [] 5 (Some 5))] ++ steps 0 1 ++
  [AStart 1 (OPush (Some [x61; x62; x63]) 3 7)] ++ steps 1 15 ++
  [AStart 2 (OPop [] 5 (Some 5))] ++ steps 2 13 ++
  steps 0 9.

(** C40: with two consumers the MPMC ring delivers a message nobody sent: after
    one push there is an execution in which both consumers' pops succeed, the
    second with an empty payload, type 0 and sequence number 0; the head has
    then passed the tail and every later push fails. *)
Theorem mpmc_two_consumers_phantom :
  exists c, crun (body 64) two_consumers phantom_schedule (init_config ring64) = Some c /\
    c_fault c = false /\ c_thr c = empty /\
    pushed (tlog 1 (c_log c)) = [(7, [x61; x62; x63])] /\
    (pops (tlog 2 (c_log c))).*2 = [mkPopped true [x61; x62; x63] 7 (Some 1)] /\
    (pops (tlog 0 (c_log c))).*2 = [mkPopped true [] 0 (Some 0)] /\
    load FTailPublish (c_sh c) < load FHeadPublish (c_sh c) /\
    forall spurs data size type,
      eval spurs (c_sh c) (try_push 64 data size type) = Done (Some false) (c_sh c) spurs.
Proof.
  eexists. split; [vm_compute; reflexivity|].
  repeat (split; [vm_compute; reflexivity|]).
  intros spurs data size type. unfold try_push, RingWriter.try_push.
  destruct (_ && _); [done|]. by destruct (_ >? 64).
Qed.
