(* ===== verification/ManyConsumers.v ===== *)
(** * Several consumers of the MPMC ring

    [SharedRingBufferMPMC::try_pop] reserves a record with a compare-exchange on
    [head_reserve].  It loads [tail_publish] first, and another consumer may have
    moved [head_reserve] past that value by the time it is loaded; the amount of
    available bytes is then a huge number and the record at the head is taken
    without having been seen to be published ([MpmcRing.mpmc_two_consumers_phantom]).

    As long as no consumer takes the last published bytes of the ring ([undrained])
    there is a published record at the head at all times, and any number of
    producers and consumers may run: this file proves it.  The producers' part is
    the one of [RingWriter], refined by the reservations of the consumers. *)

From Stdlib Require Import ZArith Lia Strings.Byte.
From stdpp Require Import base list numbers gmap.
From S2P Require Import Prelude Memory Layout Prog Records Owner RingWriter MpmcRing.

(** A consumer's reservation, with the message in it (none where the unused end of
    the ring is skipped). *)
Abbreviation take_resv := (resv * option msg)%type.

Record cghost := mkCghost {
  cW : ghost;                    (* the writer's ghost state *)
  cR : Z;                        (* head_reserve *)
  cres : list take_resv;         (* reserved and not released, oldest first *)
  ctaken : list (nat * msg);     (* reserved messages with their consumers *)
}.

Definition cown (t : nat) (l : list take_resv) : list take_resv := filter (fun r => v_tid r.1 = t) l.

Lemma cown_app t l1 l2 : cown t (l1 ++ l2) = cown t l1 ++ cown t l2.
Proof. apply filter_app. Qed.

Lemma cown_cons_eq t r l : v_tid r.1 = t -> cown t (r :: l) = r :: cown t l.
Proof. intros. unfold cown. by rewrite filter_cons_True. Qed.

Lemma cown_cons_ne t r l : v_tid r.1 <> t -> cown t (r :: l) = cown t l.
Proof. intros. unfold cown. by rewrite filter_cons_False. Qed.

Lemma cown_In t l r l' : cown t l = r :: l' -> In r l /\ v_tid r.1 = t.
Proof.
  intros H. assert (Hr : r ∈ cown t l) by (rewrite H; left).
  apply list_elem_of_filter in Hr as [? ?]. by rewrite <- list_elem_of_In.
Qed.

(** The messages taken by one consumer. *)
Abbreviation taken_by := pub_by.

(** A waiting producer has a reservation at the value it waits for, and so has a
    waiting consumer, unless it need not wait. *)
#[export] Instance cwaits : Waits cghost := fun t f v s =>
  match f with
  | FTailPublish => exists r, own t (gres (cW s.2)) = [r] /\ v = u64 (v_start r)
  | FHeadPublish => load f s.1 = v \/ exists r, cown t (cres s.2) = [r] /\ v = u64 (v_start r.1)
  | _ => load f s.1 = v
  end.

Section Many.
Context (cap : Z) (Hcap : cap_ok cap) (consumer : nat -> bool) (H0 : consumer O = true).

Abbreviation state := (shared * cghost)%type.
Abbreviation down := (down cW).

Definition mrole (t : nat) (o : op) : bool :=
  match o with
  | OPush data size type => negb (consumer t) && push_args_ok data size type
  | OPop _ _ _ => consumer t
  end.

(** No consumer takes the last published bytes, and [tail_reserve] does not wrap. *)
Definition undrained (s s' : shared) : Prop :=
  no_wrap s s' /\
  (load FHeadReserve s' = load FHeadReserve s \/ load FHeadReserve s' <> load FTailPublish s').

Record MInv (s : state) : Prop := {
  mi_base : Inv cap (down s);
  mi_head : load FHeadReserve s.1 = u64 (cR s.2);
  mi_chain : chain (gH (cW s.2)) (cR s.2) (cres s.2).*1;
  mi_tail : cR s.2 <= gTp (cW s.2);
  mi_left : cR s.2 = gTp (cW s.2) -> cR s.2 = 0;
  mi_front : Forall (fun r => front cap (ring s.1) (v_start r.1) r.2 (v_len r.1)) (cres s.2);
  mi_taken : (ctaken s.2).*2 = gpop (cW s.2) ++ omap snd (cres s.2);
  mi_owner : Forall (fun e => consumer e.1 = true) (ctaken s.2);
  mi_pub : forall t, consumer t = true -> pub_by t (gpub (cW s.2)) = [];
}.

(** What a consumer tolerates: its reservation and its messages stay, the bytes
    behind [head_reserve] and in its reservation too. *)
Definition crely (t : nat) (s s' : state) : Prop :=
  cown t (cres s'.2) = cown t (cres s.2) /\ taken_by t (ctaken s'.2) = taken_by t (ctaken s.2) /\
  cR s.2 <= cR s'.2 /\ gH (cW s.2) <= gH (cW s'.2) /\ gTp (cW s.2) <= gTp (cW s'.2) /\
  (forall x, cR s'.2 <= x < gTp (cW s.2) -> rbyte cap (ring s'.1) x = rbyte cap (ring s.1) x) /\
  (forall r x, In r (cown t (cres s.2)) -> v_start r.1 <= x < v_end r.1 ->
     rbyte cap (ring s'.1) x = rbyte cap (ring s.1) x).

Definition mrely (t : nat) (s s' : state) : Prop :=
  if consumer t then crely t s s' else producer_rely cap t (down s) (down s').

#[export] Instance mrely_pre t : PreOrder (mrely t).
Proof.
  unfold mrely. destruct (consumer t) eqn:E.
  - unfold crely. split.
    + intros s. cbv beta. split_and!; auto; lia.
    + intros s1 s2 s3 (H1 & H2 & H3 & H4 & H5 & H6 & H7) (H1' & H2' & H3' & H4' & H5' & H6' & H7').
      cbv beta. split_and!; try congruence; try lia.
      * intros x Hx. rewrite H6', H6 by lia. done.
      * intros r x Hr Hx. rewrite (H7' r x), (H7 r x); auto. by rewrite H1.
  - destruct t as [|t]; [congruence|]. pose proof (wr_rely_pre cap (S t)) as [Hr Ht]. split.
    + intros s. apply Hr.
    + intros s1 s2 s3. apply Ht.
Qed.

Abbreviation mwp := (wp undrained MInv mrely).

(** The fronts of consecutive reservations make up the start of a segment. *)
Lemma seg_reserved m a b c l xs :
  seg cap m a c xs -> chain a b l.*1 -> b <= c ->
  Forall (fun r => front cap m (v_start r.1) r.2 (v_len r.1)) l ->
  exists ys, xs = omap snd l ++ ys /\ seg cap m b c ys.
Proof.
  revert a xs. induction l as [|[r o] l IH]; simpl; intros a xs Hs Hch Hb Hf.
  { subst b. by exists xs. }
  destruct Hch as (<- & _ & _ & Hch). apply Forall_cons in Hf as [Hf Hfs]. simpl in Hf.
  pose proof (chain_le _ _ _ Hch) as Hle. unfold v_end in *.
  destruct (seg_advance cap Hcap _ _ _ _ _ _ Hs Hf) as (xs' & -> & Hs'); [lia|].
  destruct (IH _ _ Hs' Hch Hb Hfs) as (ys & -> & Hy). exists ys. split; [|done].
  destruct o; simpl; [done|]. done.
Qed.

(** The messages behind [head_reserve]. *)
Lemma untaken s : MInv s ->
  exists xs, seg cap (ring s.1) (cR s.2) (gTp (cW s.2)) xs /\ (gpub (cW s.2)).*2 = (ctaken s.2).*2 ++ xs.
Proof.
  intros [[_ _ _ _ _ _ (xs & Hs & Hp) _ _ _ _] _ Hch Ht _ Hf Hk _ _]. simpl in *.
  destruct (seg_reserved _ _ _ _ _ _ Hs Hch Ht Hf) as (ys & -> & Hy). exists ys. split; [done|].
  by rewrite Hp, Hk, app_assoc.
Qed.

(** *** Producers *)

(** A change that producers and the single consumer of [RingWriter] tolerate is
    tolerated by all consumers. *)
Lemma writer_change t s s1 g1 :
  consumer t = false -> MInv s -> undrained s.1 s1 ->
  (forall t', t' <> t -> rely cap t' (down s) (s1, g1)) -> Inv cap (s1, g1) ->
  exists g1', cW g1' = g1 /\ (forall t', t' <> t -> mrely t' s (s1, g1')) /\ MInv (s1, g1').
Proof.
  intros Ht HI _ Hr HI1. destruct (Hr O) as (HH & Hpop & HT & Hhr & _ & He); [congruence|].
  simpl in HH, Hpop, HT, Hhr, He. destruct HI as [Hb Hhd Hch Htl Hlf Hfr Htk Hown Hpub].
  assert (Hbytes : forall r x, In r (cres s.2) -> v_start r.1 <= x < v_end r.1 ->
    rbyte cap (ring s1) x = rbyte cap (ring s.1) x).
  { intros r x Hin Hx. apply (in_map fst) in Hin. pose proof (chain_In _ _ _ _ Hch Hin). apply He. lia. }
  exists (mkCghost g1 (cR s.2) (cres s.2) (ctaken s.2)). split_and!; [done | |].
  - intros t' Hne. unfold mrely. destruct (consumer t') eqn:E.
    + unfold crely. simpl. pose proof (chain_le _ _ _ Hch). split_and!; auto; try lia.
      * intros x Hx. apply He. lia.
      * intros r x Hin Hx. apply (Hbytes r); [|done].
        apply list_elem_of_In, list_elem_of_filter in Hin as [_ Hin]. by apply list_elem_of_In.
    + specialize (Hr t' Hne). destruct t'; [congruence | exact Hr].
  - constructor; simpl; auto; try congruence; try lia.
    + eapply Forall_impl; [apply Forall_and; split; [exact Hfr|] |].
      { apply Forall_forall. intros r Hin. apply list_elem_of_In in Hin. exact Hin. }
      intros r [Hf Hin]. eapply front_ext; [exact Hf|]. intros x Hx. apply (Hbytes r); [done|].
      unfold v_end. lia.
    + intros t' Ht'. destruct t' as [|t'].
      * apply pub_by_none, (i_num _ _ HI1).
      * destruct (Hr (S t')) as (_ & Hp & _); [congruence|]. simpl in Hp. rewrite Hp. by apply Hpub.
Qed.

Lemma many_push_wp t data size type sent s :
  consumer t = false -> push_args_ok data size type = true ->
  producer_knows t sent (down s) -> MInv s ->
  mwp t (fun o s => push_post t sent (type, push_payload data size) o (down s))
    (RingWriter.try_push cap data size type) s.
Proof.
  intros Ht Hv Hk HI. assert (t <> O) by congruence.
  apply (wp_refine cW no_wrap undrained (Inv cap) MInv (rely cap) mrely t).
  - apply mi_base.
  - intros s1 s2. unfold mrely. rewrite Ht. by destruct t.
  - intros f v s1. unfold waits, writer_waits, cwaits. destruct f; simpl; auto.
  - intros s1 s2 [? _]. done.
  - intros. by eapply writer_change.
  - apply wr_push_wp; auto. apply HI.
Qed.

(** *** Consumers *)

Section Consumer.
Context (t : nat) (Ht : consumer t = true).

(** Between calls: no reservation, and these messages taken so far. *)
Definition Idle (pop : list msg) (s : state) : Prop :=
  cown t (cres s.2) = [] /\ taken_by t (ctaken s.2) = pop.

(** The consumer has loaded the head [H], where the bytes were [o]; if the head is
    still [H] then they are, and [phi] holds of what it has read. *)
Definition Peek (pop : list msg) (H : Z) (o : option msg) (d : Z) (phi : Prop) (s : state) : Prop :=
  Idle pop s /\ 0 <= H <= cR s.2 /\
  (cR s.2 = H -> H + d <= gTp (cW s.2) /\ front cap (ring s.1) H o d /\ phi).

Definition crv (H d : Z) (o : option msg) : take_resv := (mkResv t H 0 d false, o).

(** It has reserved the [d] bytes at [H]. *)
Definition Taken (pop : list msg) (H : Z) (o : option msg) (d : Z) (s : state) : Prop :=
  cown t (cres s.2) = [crv H d o] /\ taken_by t (ctaken s.2) = pop ++ option_list o /\
  front cap (ring s.1) H o d.

Lemma mrely_consumer s s' : mrely t s s' -> crely t s s'.
Proof. unfold mrely. by rewrite Ht. Qed.

Lemma Idle_stable pop s s' : Idle pop s -> mrely t s s' -> Idle pop s'.
Proof. intros [? ?] (E1 & E2 & _)%mrely_consumer. split; congruence. Qed.

Lemma Peek_stable pop H o d phi s s' : Peek pop H o d phi s -> mrely t s s' -> Peek pop H o d phi s'.
Proof.
  intros (Hi & Hle & Hc) Hr. split; [by eapply Idle_stable|].
  apply mrely_consumer in Hr as (_ & _ & HR & _ & HT & He & _). split; [lia|]. intros Heq.
  destruct Hc as (Hd & Hf & Hphi); [lia|]. split_and!; [lia | | done].
  eapply front_ext; [exact Hf|]. intros x Hx. apply He. lia.
Qed.

Lemma Taken_stable pop H o d s s' : Taken pop H o d s -> mrely t s s' -> Taken pop H o d s'.
Proof.
  intros (Ho & Hp & Hf) (E1 & E2 & _ & _ & _ & _ & He)%mrely_consumer. unfold Taken.
  split_and!; try congruence. eapply front_ext; [exact Hf|]. intros x Hx. apply (He (crv H d o)).
  - rewrite Ho. by left.
  - unfold v_end, v_len. simpl. lia.
Qed.

(** Reading a member of the header at [H], which may be reserved by others and
    overwritten meanwhile. *)
Lemma wp_peek {A} (Q : A -> state -> Prop) pop H o d (phi : Prop) (psi : Z -> Prop) off n k s :
  sizeof_RecordHeader <= room cap H -> 0 <= off -> (0 < n)%nat -> off + Z.of_nat n <= sizeof_RecordHeader ->
  (forall m, front cap m H o d -> phi -> psi (le_dec (rbytes cap m (H + off) (Z.of_nat n)))) ->
  Peek pop H o d phi s ->
  (forall v s', Peek pop H o d (psi v) s' -> 0 <= v < 256 ^ Z.of_nat n -> mwp t Q (k v) s') ->
  mwp t Q (read_uint (H mod cap + off) n k) s.
Proof.
  intros Hroom Ho Hn Hl Hpsi HP Hk s' Hr HI. apply (Peek_stable _ _ _ _ _ _ _ HP) in Hr as (Hi & Hle & Hc).
  pose proof (i_len _ _ (mi_base _ HI)) as Hlen. simpl in Hlen.
  exists (rbytes cap (ring s'.1) (H + off) (Z.of_nat n)). split; [apply mem_read_at; auto; lia|].
  apply Hk.
  - split; [done|]. split; [done|]. intros Heq. destruct (Hc Heq) as (? & ? & ?). split_and!; auto.
  - pose proof (le_dec_range (rbytes cap (ring s'.1) (H + off) (Z.of_nat n))) as Hv.
    by rewrite length_rbytes, Nat2Z.id in Hv.
Qed.

(** The compare-exchange that reserves what was seen at the head. *)
Lemma wp_take {A} (Q : A -> state -> Prop) pop H o d (phi : Prop) new k kf s :
  Peek pop H o d phi s -> (phi -> new = u64 (H + d)) ->
  (forall s', phi -> Taken pop H o d s' -> mwp t Q k s') ->
  (forall s', Idle pop s' -> mwp t Q kf s') ->
  mwp t Q (Cas true FHeadReserve (u64 H) new (fun b => if negb b then kf else k)) s.
Proof.
  intros HP Hnew Hk Hkf s1 Hr HI. apply (Peek_stable _ _ _ _ _ _ _ HP) in Hr as ([Ho Hp] & Hle & Hc).
  split; [intros _; by apply Hkf|]. intros Heq [_ Hund].
  destruct HI as [Hb Hhd Hch Htl Hlf Hfr Htk Hown Hpub]. pose proof (i_pos _ _ Hb) as (Hb1 & Hb2 & Hb3).
  pose proof (chain_le _ _ _ (i_chain _ _ Hb)) as Hb4. pose proof (i_tp _ _ Hb) as Htp.
  simpl in Hb1, Hb2, Hb3, Hb4, Htp. pose proof (chain_le _ _ _ Hch) as HR0.
  assert (HR : H = cR s1.2) by (apply u64_inj; [lia | congruence]).
  destruct Hc as (Hd & Hf & Hphi); [done|]. specialize (Hnew Hphi). subst new.
  pose proof (front_pos _ Hcap _ _ _ _ Hf) as Hd0.
  exists (mkCghost (cW s1.2) (H + d) (cres s1.2 ++ [crv H d o])
    (ctaken s1.2 ++ ((fun x => (t, x)) <$> option_list o))).
  assert (Hlast : chain (gH (cW s1.2)) (H + d) (cres s1.2 ++ [crv H d o]).*1).
  { rewrite fmap_app. change (H + d) with (v_end (crv H d o).1). by apply chain_snoc with (cR s1.2); simpl; try lia. }
  split_and!.
  - intros t' Hne. unfold mrely. destruct (consumer t') eqn:E.
    + unfold crely. sh_simpl. split_and!; auto; try lia.
      * rewrite cown_app, cown_cons_ne by (simpl; congruence). by rewrite app_nil_r.
      * unfold pub_by. rewrite filter_app, fmap_app. destruct o; simpl; [|by rewrite app_nil_r].
        rewrite filter_cons_False, filter_nil by (simpl; congruence). by rewrite app_nil_r.
    + unfold producer_rely. sh_simpl. split_and!; auto; lia || by apply ends_same.
  - constructor; sh_simpl; auto.
    + destruct Hb. constructor; unfold Prog.down in *; sh_simpl; auto.
    + intros Heq'. exfalso. destruct Hund as [Hund|Hund].
      * rewrite Hhd, <- HR in Hund. symmetry in Hund. apply (u64_inj H) in Hund; lia.
      * apply Hund. by rewrite Htp, Heq'.
    + apply Forall_app. split; [done|]. apply Forall_singleton. by unfold v_len; simpl.
    + rewrite fmap_app, Htk, omap_app, <- app_assoc. by destruct o.
    + apply Forall_app. split; [done|]. by destruct o; repeat constructor.
  - apply Hk; [done|]. unfold Taken. sh_simpl. split_and!; auto.
    + by rewrite cown_app, Ho, cown_cons_eq.
    + rewrite <- Hp. unfold pub_by. rewrite filter_app, fmap_app. destruct o; simpl; [|done].
      by rewrite filter_cons_True, filter_nil.
Qed.

(** The reservation at the published head is the oldest one. *)
Lemma taken_first pop H o d s :
  MInv s -> Taken pop H o d s -> gH (cW s.2) = H ->
  exists l, cres s.2 = crv H d o :: l /\ cown t l = [].
Proof.
  intros HI (Ho & _ & _) HH. pose proof (cown_In _ _ _ _ Ho) as [Hin _].
  pose proof (mi_chain _ HI) as Hch. destruct (cres s.2) as [|r l] eqn:E; [done|].
  destruct Hin as [-> | Hin]; [exists l; split; [done|]; rewrite cown_cons_eq in Ho by done; by injection Ho|].
  destruct Hch as (Hs & ? & ? & Hch). apply (in_map fst) in Hin. apply (chain_In _ _ _ _ Hch) in Hin.
  unfold v_end, v_len in Hin. simpl in Hin. unfold v_end, v_len in *. lia.
Qed.

(** Waiting for one's turn and releasing the reserved bytes. *)
Lemma wp_release {A} (Q : A -> state -> Prop) pop H o d k s :
  Taken pop H o d s -> (forall s', Idle (pop ++ option_list o) s' -> mwp t Q k s') ->
  mwp t Q (Await FHeadPublish (u64 H) (Store FHeadPublish (u64 (H + d)) k)) s.
Proof.
  intros HT Hk s1 Hr1 HI1. apply (Taken_stable _ _ _ _ _ _ HT) in Hr1 as HT1.
  pose proof HT1 as (Ho1 & _). split; [right; exists (crv H d o); by split|]. intros Haw.
  pose proof (i_pos _ _ (mi_base _ HI1)) as (Hp1 & Hp2 & Hp3). simpl in Hp1, Hp2, Hp3.
  pose proof (cown_In _ _ _ _ Ho1) as [Hin1 _]. apply (in_map fst) in Hin1.
  pose proof (chain_In _ _ _ _ (mi_chain _ HI1) Hin1) as [Hc1 Hc1']. simpl in Hc1. unfold v_end, v_len in Hc1'.
  simpl in Hc1'. pose proof (mi_tail _ HI1). pose proof (chain_le _ _ _ (i_chain _ _ (mi_base _ HI1))) as Hle1.
  simpl in Hle1. pose proof (front_pos _ Hcap _ _ _ _ (proj2 (proj2 HT1))) as Hd.
  assert (HH1 : gH (cW s1.2) = H).
  { pose proof (i_head _ _ (mi_base _ HI1)) as Hh. simpl in Hh. apply u64_inj; [lia | congruence]. }
  intros s2 Hr2 HI2. apply (Taken_stable _ _ _ _ _ _ HT1) in Hr2 as HT2. pose proof HT2 as (Ho2 & Hp & Hf).
  assert (HH2 : gH (cW s2.2) = H).
  { apply mrely_consumer in Hr2 as (_ & _ & _ & Hm & _). pose proof (cown_In _ _ _ _ Ho2) as [Hin2 _].
    apply (in_map fst) in Hin2. pose proof (chain_In _ _ _ _ (mi_chain _ HI2) Hin2) as [Hc2 _]. simpl in Hc2. lia. }
  destruct (taken_first _ _ _ _ _ HI2 HT2 HH2) as (l & El & Hol). intros _.
  destruct HI2 as [Hb Hhd Hch Htl Hlf Hfr Htk Hown Hpub]. rewrite El in *.
  destruct Hch as (_ & _ & _ & Hch). unfold v_end, v_len in Hch. simpl in Hch.
  pose proof (chain_le _ _ _ Hch) as HleR. rewrite <- HH2 in Hf.
  destruct (advanced_ok cap Hcap o d (down s2) Hb Hf) as [Hb' Hpr]; [simpl; lia|].
  exists (mkCghost (advanced o d (cW s2.2)) (cR s2.2) l (ctaken s2.2)). simpl in Hb', Hpr. rewrite HH2 in *.
  split_and!.
  - intros t' Hne. unfold mrely. destruct (consumer t') eqn:E; [|apply Hpr].
    unfold crely. sh_simpl. rewrite El, cown_cons_ne by (simpl; congruence). split_and!; auto; lia.
  - constructor; sh_simpl; auto.
    + by rewrite HH2.
    + by apply Forall_cons in Hfr as [_ ?].
    + rewrite Htk, <- app_assoc. by destruct o.
  - apply Hk. split; sh_simpl; [done | congruence].
Qed.

Abbreviation pop_post := (pop_post (Knows := Idle) (Dry := fun _ => True)).

Lemma many_pop_unchanged out sq o pop s :
  match o with Some p => p_ok p = false /\ p_out p = out | None => True end ->
  Idle pop s -> mwp t (pop_post out sq pop) (Ret o) s.
Proof.
  intros Ho Hi s' Hr _. apply (Idle_stable _ _ _ Hi) in Hr. unfold Owner.pop_post.
  by destruct o as [p|]; [destruct Ho as [-> ?]|].
Qed.

Lemma taken_reader pop H x : RingReader cap MInv mrely t H x (Taken pop H (Some x) (msize x)).
Proof.
  split; auto.
  - intros s HI. apply (i_len _ _ (mi_base _ HI)).
  - intros s s' HT Hr _. by eapply Taken_stable.
  - intros s (_ & _ & Hf) _. by inversion Hf.
Qed.

Lemma Peek_weaken pop H o d (phi psi : Prop) s :
  (forall m, front cap m H o d -> phi -> psi) -> Peek pop H o d phi s -> Peek pop H o d psi s.
Proof.
  intros Hp (Hi & Hle & Hc). split; [done|]. split; [done|]. intros Heq.
  destruct (Hc Heq) as (? & ? & ?). split_and!; eauto.
Qed.

(** The head is behind the tail, whatever tail was loaded before. *)
Lemma first_peek pop s1 s2 :
  Idle pop s1 -> MInv s1 -> mrely t s1 s2 -> MInv s2 -> cR s2.2 <> gTp (cW s1.2) ->
  exists o d, Peek pop (cR s2.2) o d True s2.
Proof.
  intros Hi HI1 Hr HI2 Hne. apply (Idle_stable _ _ _ Hi) in Hr as Hi2.
  apply mrely_consumer in Hr as (_ & _ & _ & _ & HT & _).
  pose proof (i_pos _ _ (mi_base _ HI1)) as (Hp & _). simpl in Hp.
  pose proof (i_pos _ _ (mi_base _ HI2)) as (Hp2 & _). simpl in Hp2.
  pose proof (mi_tail _ HI2). pose proof (mi_left _ HI2) as Hl. pose proof (chain_le _ _ _ (mi_chain _ HI2)).
  destruct (untaken _ HI2) as (xs & Hs & _).
  destruct (seg_front _ Hcap _ _ _ _ Hs) as (o & d & ys & Hf & Hd & _).
  { intros Heq. specialize (Hl Heq). lia. }
  exists o, d. split; [done|]. split; [lia|]. done.
Qed.

(** Skipping the unused end of the ring. *)
Lemma many_skip out type q pop H o d (phi : Prop) (av : Z) s :
  Peek pop H o d phi s -> (phi -> o = None /\ d = room cap H) ->
  mwp t (pop_post out (Some q) pop)
    (if av <? room cap H then Ret (Some (mkPopped false out type (Some q))) else
     Cas true FHeadReserve (u64 H) (u64 (H + room cap H)) (fun exchanged =>
       if negb exchanged then Ret None else
       do! Await FHeadPublish (u64 H) in
       do! Store FHeadPublish (u64 (H + room cap H)) in Ret None)) s.
Proof.
  intros HP Hphi. case_if; [apply many_pop_unchanged; [done | apply HP]|].
  eapply wp_take; [exact HP | by intros [_ ->]%Hphi | | intros s9 Hi9; by apply many_pop_unchanged].
  intros s1 [-> ->]%Hphi HT. eapply wp_release; [exact HT|]. cbn [option_list]. rewrite app_nil_r.
  intros s9 Hi9. by apply many_pop_unchanged.
Qed.

(** What the flags and the size at the head say, if the head has not moved. *)
Lemma flags_front m H o d :
  sizeof_RecordHeader <= room cap H -> front cap m H o d ->
  if Z.land (at_flags cap m H) kWrapFlag =? 0 then exists x, o = Some x /\ d = msize x
  else o = None /\ d = room cap H.
Proof.
  intros Hr [[?|[_ Hw]] | x Hx]; [lia | |].
  - unfold is_wrap in Hw. apply Z.eqb_neq in Hw. by rewrite Hw.
  - rewrite (ir_flags _ _ _ _ Hx), Z.eqb_refl. eauto.
Qed.

Lemma many_pop_wp out type q pop s :
  Idle pop s -> MInv s -> mwp t (pop_post out (Some q) pop) (try_pop_seq cap out type q) s.
Proof.
  intros Hi _. pose proof (proj1 Hcap) as Hc. unfold try_pop_seq, try_pop_rest.
  intros s1 Hr1 HI1. apply (Idle_stable _ _ _ Hi) in Hr1 as Hi1.
  intros s2 Hr2 HI2. apply (Idle_stable _ _ _ Hi1) in Hr2 as Hi2.
  pose proof (i_tp _ _ (mi_base _ HI1)) as Htp. simpl in Htp. rewrite Htp, (mi_head _ HI2).
  destruct (_ =? _) eqn:Hht; [by apply many_pop_unchanged|].
  destruct (first_peek _ _ _ Hi1 HI1 Hr2 HI2) as (o & d & HP); [intros Heq; by rewrite Heq, Z.eqb_refl in Hht|].
  set (H := cR s2.2) in *. pose proof HP as (_ & HH & _).
  assert (Hidx : idx_ok cap H).
  { left. pose proof (mi_tail _ HI2). pose proof (i_pos _ _ (mi_base _ HI2)) as (_ & _ & ?).
    pose proof (chain_le _ _ _ (i_chain _ _ (mi_base _ HI2))). simpl in *. lia. }
  unfold umod. case_if; [lia|]. rewrite remaining_eq, u64_mod by (done || lia). rewrite !add64_u64.
  set (av := sub64 (u64 (gTp (cW s1.2))) (u64 H)). case_if.
  { eapply many_skip; [eapply Peek_weaken; [|exact HP] | intros Hx; exact Hx].
    intros m [? | x Hx] _; [done|]. pose proof (is_record_msize _ _ _ _ Hx). lia. }
  case_if; [by apply many_pop_unchanged|].
  eapply (wp_peek _ pop H o d True (fun f => if Z.land f kWrapFlag =? 0
    then exists x, o = Some x /\ d = msize x else o = None /\ d = room cap H));
    [lia | done | lia | done | | exact HP |].
  { intros m Hm _. by apply (flags_front m). }
  intros f s3 HP3 _. destruct (Z.land f kWrapFlag =? 0) eqn:Ef; cbn [negb]; cbv iota;
    [|by eapply many_skip; [exact HP3|]].
  eapply (wp_peek _ pop H o d _ (fun v => exists x, o = Some x /\ d = msize x /\ v = Z.of_nat (length (m_payload x))));
    [lia | done | lia | done | | exact HP3 |].
  { intros m Hm (x & -> & ->). exists x. split_and!; [done | done |]. inversion Hm as [|x' Hx]; subst.
    apply (ir_size _ _ _ _ Hx). }
  intros v s4 HP4 Hv. change (256 ^ Z.of_nat 4) with (2 ^ 32) in Hv.
  replace (add64 sizeof_RecordHeader v) with (sizeof_RecordHeader + v)
    by (unfold add64, sizeof_RecordHeader; rewrite u64_small; lia).
  fold (record_size v). rewrite add64_u64. case_if; [apply many_pop_unchanged; [done | apply HP4]|].
  case_if; [apply many_pop_unchanged; [done | apply HP4]|].
  eapply wp_take; [exact HP4 | by intros (x & -> & -> & ->) | | intros s9 Hi9; by apply many_pop_unchanged].
  intros s5 (x & -> & -> & ->) HT. rewrite Nat2Z.id.
  apply (copy_out_wp (Hrd := taken_reader pop H x) (pop_post out (Some q) pop) out); [done|].
  intros s6 HT6. eapply wp_release; [exact HT6|]. intros s7 Hi7 s8 Hr8 _.
  exists x. split; [reflexivity|]. by eapply Idle_stable.
Qed.
End Consumer.

(** *** All threads *)

Abbreviation body := (MpmcRing.body cap).

Definition MP (t : nat) (l : list (op * res)) (s : state) : Prop :=
  if consumer t then consumed (Idle t) (fun _ => True) 0 l s
  else producer_knows t (pushed l) (down s).

Lemma MP_stable t l s s' : MP t l s -> mrely t s s' -> MInv s' -> MP t l s'.
Proof.
  unfold MP. destruct (consumer t) eqn:E; intros HP Hr _.
  - eapply consumed_stable; [|done]. intros pop Hi. by eapply Idle_stable.
  - unfold mrely in Hr. rewrite E in Hr. assert (t <> O) by congruence.
    apply (wr_producer_knows_stable cap t _ (down s)); [done | done |]. by destruct t.
Qed.

Lemma many_body_ok t o l s :
  mrole t o = true -> MP t l s -> MInv s -> mwp t (post MP t o l) (body o) s.
Proof.
  unfold mrole, MP. destruct o as [data size type | out type sq]; intros Hr HP HI.
  - apply andb_prop in Hr as [Ht%negb_true_iff Hv]. rewrite Ht in HP. unfold body. simpl. apply wp_pmap.
    eapply wp_mono; [|by apply many_push_wp]. intros [b|] s'; unfold push_post, post, MP, pushed; rewrite Ht;
      simpl; [|by rewrite app_nil_r]. rewrite omap_app. simpl. by destruct b.
  - rewrite Hr in HP. destruct HP as (pop & Hi & Hl & HU & HD).
    assert (Hpost : forall p s', Owner.pop_post (Knows := Idle t) (Dry := fun _ => True) out sq pop p s' ->
      post MP t (OPop out type sq) l (option_map RPop p) s').
    { intros p s' Hp. pose proof (pop_history 0 out type sq l pop p s' Hl HU HD Hp) as Hc.
      unfold post, MP. rewrite Hr. destruct p; simpl in *; [done | by rewrite app_nil_r in Hc]. }
    unfold body, MpmcRing.body, try_pop. destruct sq as [q|]; repeat apply wp_pmap;
      (eapply wp_mono; [|by apply (many_pop_wp t Hr)]); intros p s' Hp; apply Hpost; [done|].
    unfold Owner.pop_post in *. destruct p as [p|]; simpl; [|done]. destruct (p_ok p); [|done].
    destruct Hp as (x & -> & Hk). exists x. by split.
Qed.

Lemma many_tick_ok d s g : 0 <= d -> undrained s (tick d s) -> MInv (s, g) ->
  MInv (tick d s, g) /\ forall t, mrely t (s, g) (tick d s, g).
Proof.
  intros Hd [Hn _] HI. pose proof HI as [Hb ? ? ? ? ? ? ? ?]. split.
  - constructor; auto. by destruct (wr_tick_ok cap d s (cW g) Hd Hn Hb).
  - intros t. unfold mrely, crely, producer_rely. case_match; simpl; split_and!; auto; lia || by apply ends_same.
Qed.

Definition c_init : cghost := mkCghost g_init 0 [] [].

Lemma many_reach s c :
  fresh cap s -> creach body mrole undrained s c -> exists g, config_ok mrole undrained MInv mrely MP c g.
Proof.
  intros Hf Hr. eapply (rg_sound body mrole undrained MInv mrely MP) with (g0 := c_init);
    eauto using MP_stable, many_body_ok, many_tick_ok.
  - pose proof (wr_fresh_Inv cap Hcap s Hf) as Hb. destruct Hf as [Hctl Hlen].
    split; simpl; [done | unfold load; by rewrite Hctl | done | done | done | constructor | done | constructor | done].
  - intros t. unfold MP. case_match; [|by split]. exists []. split_and!; try done; constructor.
Qed.
End Many.

(** C6: the MPMC ring with any number of producers and any number of consumers, in
    every interleaving in which no consumer takes the last published bytes and
    fewer than [2^64] bytes are reserved: no access is out of bounds, and there
    are one publication order [pub] and one reservation order [taken], a prefix
    of it.  Each producer's messages appear in [pub] exactly once, in call order,
    and nothing else does; each consumer between calls has received exactly the
    messages that [taken] gives to it, in order and intact, so that no message is
    delivered twice or invented; a refused pop leaves the caller's vector as it
    was. *)
Theorem mpmc_many_consumers cap consumer s c :
  cap_ok cap -> consumer O = true -> fresh cap s ->
  creach (MpmcRing.body cap) (mrole consumer) undrained s c ->
  c_fault c = false /\
  exists pub taken rest, pub.*2 = taken.*2 ++ rest /\ numbered pub.*2 /\
    Forall (fun e => consumer e.1 = false) pub /\ Forall (fun e => consumer e.1 = true) taken /\
    (forall t, consumer t = false -> c_thr c !! t = None ->
       pushed (tlog t (c_log c)) = msg_key <$> pub_by t pub) /\
    (forall t, consumer t = true -> c_thr c !! t = None ->
       Forall2 (fun e x => delivers e.1.1 e.1.2 e.2 x) (pops (tlog t (c_log c))) (pub_by t taken) /\
       untouched (tlog t (c_log c))).
Proof.
  intros Hcap H0 Hf Hr. destruct (many_reach cap Hcap consumer H0 s c Hf Hr) as (g & Hfl & HI & Ht).
  split; [done|]. destruct (untaken cap Hcap consumer _ HI) as (xs & _ & Hp).
  exists (gpub (cW g)), (ctaken g), xs. simpl in Hp. split_and!.
  - done.
  - apply (i_num _ _ (mi_base _ _ _ HI)).
  - apply Forall_forall. intros [t x] Hin. destruct (consumer t) eqn:E; [|done]. exfalso.
    pose proof (mi_pub _ _ _ HI t E) as Hn. simpl in Hn.
    assert (Hx : x ∈ pub_by t (gpub (cW g))); [|rewrite Hn in Hx; by apply not_elem_of_nil in Hx].
    unfold pub_by. apply list_elem_of_fmap. exists (t, x). split; [done|]. by apply list_elem_of_filter.
  - apply (mi_owner _ _ _ HI).
  - intros t Hc Hidle. specialize (Ht t). rewrite Hidle in Ht. simpl in Ht. unfold MP in Ht.
    rewrite Hc in Ht. by destruct Ht as [_ <-].
  - intros t Hc Hidle. specialize (Ht t). rewrite Hidle in Ht. simpl in Ht. unfold MP in Ht.
    rewrite Hc in Ht. destruct Ht as (pop & [_ Hi] & ? & ? & _). simpl in Hi. by rewrite Hi.
Qed.

(** Even threads consume, odd ones produce.  Consumer 0 has loaded the tail of the
    empty ring when producers 1 and 3 push three messages; consumer 2 reserves the
    first one, consumer 0 loads the head behind it and takes the second one, reads
    it and waits; consumer 2 finishes, then consumer 0. *)
Definition ring128 : shared := mkShared (mkControl 0 0 0 0 0) (replicate 128 x00) 0.

Definition many_schedule : list act :=
  [AStart 0 (OPop [] 0 (Some 0))] ++ steps 0 1 ++
  [AStart 1 (OPush (Some [x61]) 1 7)] ++ steps 1 13 ++
  [AStart 3 (OPush (Some [x62]) 1 8)] ++ steps 3 13 ++
  [AStart 1 (OPush (Some [x63]) 1 9)] ++ steps 1 13 ++
  [AStart 2 (OPop [] 0 (Some 0))] ++ steps 2 5 ++ steps 0 9 ++ steps 2 6 ++ steps 0 3.

Definition undrained_test (s s' : shared) : bool :=
  (load FTailReserve s <=? load FTailReserve s') &&
  ((load FHeadReserve s' =? load FHeadReserve s) || negb (load FHeadReserve s' =? load FTailPublish s')).

Lemma undrained_tested s s' : undrained_test s s' = true -> undrained s s'.
Proof. unfold undrained_test, undrained, no_wrap. intros H. bool_to_prop. lia. Qed.

Lemma mpmc_many_consumers_witness :
  let c := after (MpmcRing.body 128) (mrole Nat.even) many_schedule (init_config ring128) in
  (pops (tlog 2 (c_log c))).*2 = [mkPopped true [x61] 7 (Some 1)] /\
  (pops (tlog 0 (c_log c))).*2 = [mkPopped true [x62] 8 (Some 2)] /\
  c_fault c = false /\
  exists pub taken rest, pub.*2 = taken.*2 ++ rest /\ numbered pub.*2 /\
    Forall (fun e => Nat.even e.1 = false) pub /\ Forall (fun e => Nat.even e.1 = true) taken /\
    (forall t, Nat.even t = false -> c_thr c !! t = None ->
       pushed (tlog t (c_log c)) = msg_key <$> pub_by t pub) /\
    (forall t, Nat.even t = true -> c_thr c !! t = None ->
       Forall2 (fun e x => delivers e.1.1 e.1.2 e.2 x) (pops (tlog t (c_log c))) (pub_by t taken) /\
       untouched (tlog t (c_log c))).
Proof.
  intros c. split; [vm_compute; reflexivity|]. split; [vm_compute; reflexivity|].
  apply (mpmc_many_consumers 128 Nat.even ring128 c).
  - split; [lia | by exists 16].
  - reflexivity.
  - by split.
  - apply (crun_checked_after _ _ _ undrained_test); [apply undrained_tested | vm_compute; reflexivity].
Defined.
