(* ===== verification/Solo.v ===== *)
(** * Sequential behaviour of the rings

    What [try_push] and [try_pop] of the three variable-size rings do when no
    other call overlaps: [run] executes the whole [for (;;)] loop, with any
    pattern of spurious compare-exchange failures.  [quiet] relates the mapped
    memory of a quiescent ring to the queue of messages it holds; [RingQueue]
    is the contract of a ring, proved here for each of the three. *)

From Stdlib Require Import ZArith Lia Strings.Byte.
From stdpp Require Import base list numbers gmap.
From S2P Require Import Prelude Memory Layout Prog Records Owner.
From S2P Require Import RingWriter SpscRing MpscRing MpmcRing.

(** ** Writes to a stretch *)

Section Stretch.
Context (cap lo a n : Z) (Hcap : cap_ok cap) (Hn : 0 <= n <= room cap a)
  (Hlo : lo <= a) (Hhi : a + n <= lo + cap).

(** [m'] is [m] with the writes [l] to the stretch of [n] bytes at [a]. *)
Record updated (l : list (Z * list byte)) (m m' : list byte) : Prop := {
  up_len : length m' = length m;
  up_wrote : @wrote cap a n l m';
  up_frame : forall x, lo <= x < lo + cap -> ~ (a <= x < a + n) ->
    rbyte cap m' x = rbyte cap m x;
}.

Lemma updated_nil m : updated [] m m.
Proof. split; auto. apply wrote_nil. Qed.

Lemma updated_splice l m m' o bs :
  Z.of_nat (length m) = cap -> updated l m m' -> bs <> [] -> 0 <= o ->
  o + Z.of_nat (length bs) <= n -> Forall (apart o bs) l ->
  updated ((o, bs) :: l) m (splice m' (a mod cap + o) bs).
Proof.
  intros Hm [Hl Hw Hf] Hbs Ho Hob Hap. destruct (stretch_pos Hcap Hn o bs) as [Hp Hq]; auto.
  pose proof (pos_range cap Hcap a). rewrite <- Hp. split.
  - rewrite length_splice by lia. done.
  - apply (wrote_splice Hcap Hn); auto; lia.
  - intros x Hx Hna. rewrite <- (Hf x Hx Hna). destruct bs; [done|]. simpl in *.
    apply rbyte_splice_other with (lo := lo); simpl; try apply Hcap; lia.
Qed.

Lemma eval_stretch {A} spurs s m m' l o bs (k : prog A) :
  Z.of_nat (length m) = cap -> updated l m m' -> bs <> [] -> 0 <= o ->
  o + Z.of_nat (length bs) <= n ->
  eval spurs (with_ring m' s) (Write (a mod cap + o) bs k) =
    eval spurs (with_ring (splice m' (a mod cap + o) bs) s) k.
Proof.
  intros Hm Hu Hbs Ho Hob. destruct (stretch_pos Hcap Hn o bs) as [Hp Hq]; auto.
  pose proof (pos_range cap Hcap a). pose proof (up_len _ _ _ Hu).
  cbn [eval]. rewrite ring_with_ring, mem_write_Some by lia. done.
Qed.

(** The four member assignments of a header. *)
Lemma eval_header A spurs s m h :
  Z.of_nat (length m) = cap -> sizeof_RecordHeader <= n ->
  exists m', (forall k : prog A, eval spurs (with_ring m s) (write_header (a mod cap) h k) =
      eval spurs (with_ring m' s) k) /\
    updated [(8, le_enc 8 (rh_sequence h)); (6, le_enc 2 (rh_flags h));
             (4, le_enc 2 (rh_type h)); (0, le_enc 4 (rh_size h))] m m'.
Proof.
  unfold sizeof_RecordHeader. intros Hm Hs. pose proof (updated_nil m) as Hu.
  unfold write_header, write_uint, off_size, off_type, off_flags, off_sequence.
  assert (Hstep : forall l m' o bs, updated l m m' -> bs <> [] -> 0 <= o ->
    o + Z.of_nat (length bs) <= n -> Forall (apart o bs) l ->
    exists m'', (forall k', eval spurs (with_ring m' s) (Write (a mod cap + o) bs k') =
      eval spurs (A := A) (with_ring m'' s) k') /\ updated ((o, bs) :: l) m m'').
  { intros. eexists. split; [intros; by eapply eval_stretch | by apply updated_splice]. }
  destruct (Hstep _ m 0 (le_enc 4 (rh_size h)) Hu) as (m1 & E1 & H1);
    [done | done | rewrite length_le_enc; lia | all_apart |].
  destruct (Hstep _ m1 4 (le_enc 2 (rh_type h)) H1) as (m2 & E2 & H2);
    [done | done | rewrite length_le_enc; lia | all_apart |].
  destruct (Hstep _ m2 6 (le_enc 2 (rh_flags h)) H2) as (m3 & E3 & H3);
    [done | done | rewrite length_le_enc; lia | all_apart |].
  destruct (Hstep _ m3 8 (le_enc 8 (rh_sequence h)) H3) as (m4 & E4 & H4);
    [done | done | rewrite length_le_enc; lia | all_apart |].
  exists m4. split; [|done]. intros k. by rewrite E1, E2, E3, E4.
Qed.

(** Header and payload. *)
Lemma eval_fill A spurs s m data size type :
  Z.of_nat (length m) = cap -> sizeof_RecordHeader + size <= n ->
  push_args_ok data size type = true -> (data = None -> size = 0) ->
  exists m', (forall k : prog A, eval spurs (with_ring m s)
      (write_header (a mod cap) (mkRecordHeader size type 0 0)
        (if size >? 0 then memcpy_in (a mod cap + sizeof_RecordHeader) data size k else k)) =
      eval spurs (with_ring m' s) k) /\
    updated [(16, push_payload data size); (6, le_enc 2 0); (4, le_enc 2 type);
             (0, le_enc 4 size)] m m'.
Proof.
  intros Hm Hs Hv Hnull. destruct (push_args_spec _ _ _ Hv) as (Hsz & _ & Hpay).
  specialize (Hpay Hnull). unfold sizeof_RecordHeader in *.
  destruct (eval_header A spurs s m (mkRecordHeader size type 0 0)) as (m1 & E1 & H1);
    [done | unfold sizeof_RecordHeader; lia |].
  cbn [rh_size rh_type rh_flags rh_sequence] in H1.
  assert (H2 : updated [(6, le_enc 2 0); (4, le_enc 2 type); (0, le_enc 4 size)] m m1).
  { destruct H1 as [? Hw ?]. split; auto. by apply Forall_cons_iff in Hw as [_ ?]. }
  pose proof (pos_range cap Hcap a). pose proof (up_len _ _ _ H1) as Hl1.
  destruct (size >? 0) eqn:E; bool_to_prop.
  - destruct data as [bs|]; [|specialize (Hnull eq_refl); lia]. unfold memcpy_in.
    simpl push_payload in *. rewrite length_take in Hpay. case_if; [|lia].
    exists (splice m1 (a mod cap + 16) (take (Z.to_nat size) bs)). split.
    + intros k. rewrite E1. unfold sizeof_RecordHeader.
      by rewrite eval_memcpy_to by (rewrite ?ring_with_ring, ?length_take; unfold room in Hn; lia).
    + apply updated_splice; auto; [| done | rewrite length_take; lia | all_apart].
      intros He. apply (f_equal length) in He. rewrite length_take in He. simpl in He. lia.
  - exists m1. split; [intros; by rewrite E1|]. destruct H2 as [? Hw ?]. split; auto.
    destruct (push_payload data size); [|simpl in Hpay; lia].
    constructor; [simpl; split_and!; auto; lia | done].
Qed.
End Stretch.

(** ** Quiescent rings *)

Section Quiet.
Context (cap : Z) (Hcap : cap_ok cap).

(** No call is in progress; the logical head and tail are [H] and [T], [n]
    messages have been published, and the queue holds [q]. *)
Record quiet (s : shared) (H T n : Z) (q : list msg) : Prop := {
  q_len : Z.of_nat (length (ring s)) = cap;
  q_hr : load FHeadReserve s = u64 H;
  q_hp : load FHeadPublish s = u64 H;
  q_tr : load FTailReserve s = u64 T;
  q_tp : load FTailPublish s = u64 T;
  q_sq : load FSequence s = u64 n;
  q_pos : 0 <= H <= T /\ T <= H + cap;
  q_seg : seg cap (ring s) H T q;
}.

(** The bytes skipped at the end of the ring in front of a record of [rs]
    bytes, and whether a push of [size] bytes fits. *)
Definition padding (T rs : Z) : Z := if room cap T <? rs then room cap T else 0.

Definition fits (H T size : Z) : bool :=
  (record_size size <=? cap) &&
  (T - H + padding T (record_size size) + record_size size <=? cap).

(** The message a push sends. *)
Definition sent (data : option (list byte)) (size type n : Z) : msg :=
  mkMsg type (push_payload data size) (u64 (n + 1)).

Lemma quiet_ext s s' H T n q :
  quiet s H T n q -> ctl s' = ctl s -> length (ring s') = length (ring s) ->
  (forall x, H <= x < T -> rbyte cap (ring s') x = rbyte cap (ring s) x) ->
  quiet s' H T n q.
Proof.
  intros [] Hc Hl Hr. unfold load in *. rewrite <- Hc in *.
  split; auto; [congruence|]. by apply seg_ext with (ring s).
Qed.

(** Publishing a stretch that holds [xs]. *)
Lemma quiet_extend s s' H T T' n n' q xs :
  quiet s H T n q -> H <= T -> T <= T' <= H + cap ->
  length (ring s') = length (ring s) ->
  load FHeadReserve s' = u64 H -> load FHeadPublish s' = u64 H ->
  load FTailReserve s' = u64 T' -> load FTailPublish s' = u64 T' -> load FSequence s' = u64 n' ->
  (forall x, H <= x < T -> rbyte cap (ring s') x = rbyte cap (ring s) x) ->
  seg cap (ring s') T T' xs -> quiet s' H T' n' (q ++ xs).
Proof.
  intros [] ? ? Hl ? ? ? ? ? Hr Hs. split; auto; [congruence | lia |].
  eapply seg_app; [|done]. by apply seg_ext with (ring s).
Qed.

Lemma size_sum size : 0 <= size < 2 ^ 32 ->
  add64 sizeof_RecordHeader size = sizeof_RecordHeader + size.
Proof. intros. unfold add64, sizeof_RecordHeader. rewrite u64_small; lia. Qed.

Lemma add64_small a b : 0 <= a -> 0 <= b -> a + b < 2 ^ 64 -> add64 a b = a + b.
Proof. intros. unfold add64. apply u64_small. lia. Qed.

Lemma umod_ne {A} a b (k : Z -> prog A) : b <> 0 -> umod a b k = k (a mod b).
Proof. intros. unfold umod. by rewrite (proj2 (Z.eqb_neq b 0)). Qed.

(** The null-pointer test of a push. *)
Lemma null_test (data : option (list byte)) size : (data = None -> size = 0) ->
  (match data with None => true | Some _ => false end) && negb (size =? 0) = false.
Proof. destruct data; intros Hn; [done|]. by rewrite Hn. Qed.

(** Writing the header, the payload and the sequence number of a message. *)
Lemma eval_record A spurs s m a lo data size type n :
  lo <= a -> a + record_size size <= lo + cap -> record_size size <= room cap a ->
  Z.of_nat (length m) = cap ->
  push_args_ok data size type = true -> (data = None -> size = 0) ->
  exists m1 m2,
    (forall k : prog A, eval spurs (with_ring m s)
      (write_header (a mod cap) (mkRecordHeader size type 0 0)
        (if size >? 0 then memcpy_in (a mod cap + sizeof_RecordHeader) data size k else k)) =
      eval spurs (with_ring m1 s) k) /\
    (forall s' (k : prog A), eval spurs (with_ring m1 s')
      (write_uint (a mod cap + off_sequence) 8 (u64 (n + 1)) k) = eval spurs (with_ring m2 s') k) /\
    length m2 = length m /\
    (forall x, lo <= x < lo + cap -> ~ (a <= x < a + record_size size) ->
       rbyte cap m2 x = rbyte cap m x) /\
    is_record cap m2 a (sent data size type n) /\ msize (sent data size type n) = record_size size.
Proof.
  intros Hlo Hhi Hroom Hm Hv Hnull.
  destruct (push_args_spec _ _ _ Hv) as (Hsz & Hty & Hpay). specialize (Hpay Hnull).
  pose proof (record_size_bounds size Hsz) as [Hrs _]. unfold sizeof_RecordHeader in Hrs.
  assert (Hn : 0 <= record_size size <= room cap a) by lia.
  assert (Hms : msize (sent data size type n) = record_size size)
    by (unfold msize; simpl; by rewrite Hpay).
  destruct (eval_fill cap lo a (record_size size) Hcap Hn Hlo Hhi A spurs s m data size type)
    as (m1 & E1 & H1); auto; [unfold sizeof_RecordHeader; lia|].
  exists m1, (splice m1 (a mod cap + off_sequence) (le_enc 8 (u64 (n + 1)))).
  pose proof (updated_splice cap lo a (record_size size) Hcap Hn Hlo Hhi _ _ _ off_sequence
    (le_enc 8 (u64 (n + 1))) Hm H1) as H2.
  destruct H2 as [Hl Hw Hf]; auto; [done | rewrite length_le_enc; unfold off_sequence; lia |
    unfold off_sequence; all_apart |].
  split_and!; auto.
  - intros s' k. eapply (eval_stretch cap lo a (record_size size)); eauto; [done|].
    rewrite length_le_enc. unfold off_sequence. lia.
  - apply (wrote_record Hn); simpl; try lia; [apply u64_range|]. by rewrite Hpay.
Qed.

(** *** The SPSC push *)

Lemma spsc_push_record spurs s H T n q data size type :
  quiet s H T n q -> idx_ok cap T -> push_args_ok data size type = true ->
  (data = None -> size = 0) -> record_size size <= room cap T ->
  exists s', eval spurs s (SpscRing.try_push cap data size type) =
      Done (Some (T - H + record_size size <=? cap)) s' spurs /\
    if T - H + record_size size <=? cap
    then quiet s' H (T + record_size size) (n + 1) (q ++ [sent data size type n]) else s' = s.
Proof.
  intros Hq Hidx Hv Hnull Hroom. destruct (push_args_spec _ _ _ Hv) as (Hsz & _).
  pose proof (record_size_bounds size Hsz) as [Hrs _]. pose proof (room_range cap Hcap T) as HR.
  destruct (q_pos _ _ _ _ _ Hq) as [Hp1 Hp2]. pose proof (proj1 Hcap) as Hc.
  assert (Hh : sizeof_RecordHeader = 16) by done.
  unfold SpscRing.try_push, SpscRing.push_rest. rewrite null_test by done.
  rewrite size_sum by lia. fold (record_size size). case_if; [lia|]. cbn [eval].
  rewrite (q_hp _ _ _ _ _ Hq), (q_tp _ _ _ _ _ Hq), sub64_u64 by lia. case_if; [lia|].
  unfold umod. case_if; [lia|]. rewrite remaining_eq, u64_mod by (done || lia).
  case_if; [lia|]. case_if; [lia|]. rewrite (add64_small (T - H)) by lia.
  destruct (T - H + record_size size <=? cap) eqn:E; bool_to_prop.
  2: { exists s. rewrite (proj2 (Z.gtb_lt _ _)) by lia. done. }
  rewrite Z.gtb_ltb, (proj2 (Z.ltb_ge _ _)) by lia.
  destruct (eval_record (option bool) spurs s (ring s) T H data size type n)
    as (m1 & m2 & E1 & E2 & Hl & Hf & Hrec & Hms); auto; try lia; [apply Hq|].
  replace (with_ring (ring s) s) with s in E1 by (by destruct s).
  rewrite E1. cbn [eval]. rewrite load_with_ring, (q_sq _ _ _ _ _ Hq), !add64_u64.
  change (store FSequence (u64 (n + 1)) (with_ring m1 s))
    with (with_ring m1 (store FSequence (u64 (n + 1)) s)).
  rewrite E2. cbn [eval]. eexists. split; [reflexivity|].
  clear E1 E2. pose proof Hq as [].
  eapply quiet_extend with (T := T) (s := s); sh_simpl; eauto; try lia.
  - intros. apply Hf; lia.
  - rewrite <- Hms. apply seg_rec; [done | constructor].
Qed.

Lemma spsc_push_skip spurs s H T n q data size type :
  quiet s H T n q -> idx_ok cap T -> push_args_ok data size type = true ->
  (data = None -> size = 0) -> record_size size <= cap -> room cap T < record_size size ->
  (eval spurs s (SpscRing.try_push cap data size type) = Done (Some false) s spurs /\
    cap < T - H + room cap T + record_size size) \/
  exists s', eval spurs s (SpscRing.try_push cap data size type) = Done None s' spurs /\
    T - H + room cap T <= cap /\ quiet s' H (T + room cap T) n q.
Proof.
  intros Hq Hidx Hv Hnull Hle Hroom. destruct (push_args_spec _ _ _ Hv) as (Hsz & _).
  pose proof (record_size_bounds size Hsz) as [Hrs _]. pose proof (room_range cap Hcap T) as HR.
  destruct (q_pos _ _ _ _ _ Hq) as [Hp1 Hp2]. pose proof (proj1 Hcap) as Hc.
  assert (Hh : sizeof_RecordHeader = 16) by done.
  unfold SpscRing.try_push, SpscRing.push_rest. rewrite null_test by done.
  rewrite size_sum by lia. fold (record_size size). case_if; [lia|]. cbn [eval].
  rewrite (q_hp _ _ _ _ _ Hq), (q_tp _ _ _ _ _ Hq), sub64_u64 by lia. case_if; [lia|].
  unfold umod. case_if; [lia|]. rewrite remaining_eq, u64_mod by (done || lia).
  rewrite !add64_u64, !(add64_small (T - H)) by lia.
  assert (Hskip : forall m', length m' = length (ring s) ->
    (forall x, H <= x < T -> rbyte cap m' x = rbyte cap (ring s) x) ->
    front cap m' T None (room cap T) -> T - H + room cap T <= cap ->
    exists s', eval spurs (with_ring m' s)
        (do! Store FTailReserve (u64 (T + room cap T)) in
         do! Store FTailPublish (u64 (T + room cap T)) in Ret (A := option bool) None) =
        Done None s' spurs /\ T - H + room cap T <= cap /\ quiet s' H (T + room cap T) n q).
  { intros m' Hl Hf Hfr Hfit. cbn [eval]. eexists. split; [reflexivity|]. split; [done|].
    rewrite <- (app_nil_r q). pose proof Hq as [].
    eapply quiet_extend with (T := T) (s := s); sh_simpl; eauto; try lia.
    inversion Hfr as [[?|[? ?]]|]; [apply seg_short | apply seg_wrap]; auto; constructor. }
  destruct (room cap T <? sizeof_RecordHeader) eqn:E1; bool_to_prop.
  - case_if; [left; split; [done|]; unfold sizeof_RecordHeader in *; lia | right].
    replace s with (with_ring (ring s) s) at 1 by (by destruct s).
    apply Hskip; auto. constructor. by left.
  - case_if; [|lia]. rewrite add64_small by lia. case_if; [left; split; [done | lia] | right].
    rewrite Z.geb_leb, (proj2 (Z.leb_le _ _)) by lia.
    destruct (eval_header cap H T (room cap T) Hcap ltac:(lia) ltac:(lia) ltac:(lia)
      (option bool) spurs s (ring s) wrap_header) as (m' & Em & [Hl Hw Hf]); [apply Hq | done |].
    replace (with_ring (ring s) s) with s in Em by (by destruct s). rewrite Em.
    apply Hskip; auto; [intros; apply Hf; lia | | lia]. constructor. right. split; [done|].
    by eapply wrote_wrap.
Qed.

(** *** The contract of a ring *)

(** The result of a pop of the queue [q]. *)
Definition pop_result (out : list byte) (type : Z) (sq : option Z) (q : list msg) : popped :=
  match q with
  | [] => mkPopped false out type sq
  | x :: _ => mkPopped true (fill_out out (m_payload x)) (m_type x)
                (match sq with Some _ => Some (m_seq x) | None => None end)
  end.

(** A push on a quiescent ring returns [fits], and appends its message to the
    queue when it returns [true]; a pop removes the oldest message, or returns
    [false] when there is none.  Neither takes more than two iterations, plus
    one per spurious failure. *)
Class RingQueue (push : Z -> option (list byte) -> Z -> Z -> prog (option bool))
    (pop : Z -> list byte -> Z -> option Z -> prog (option popped)) : Prop := {
  rq_push : forall data size type spurs s H T n q,
    push_args_ok data size type = true -> (data = None -> size = 0) ->
    quiet s H T n q -> idx_ok cap (T + cap) ->
    exists s' spurs' T',
      run (2 + length spurs) spurs (push cap data size type) s =
        Some (Done (fits H T size) s' spurs') /\ T <= T' <= T + 2 * cap /\
      quiet s' H T' (if fits H T size then n + 1 else n)
        (q ++ if fits H T size then [sent data size type n] else []);
  rq_pop : forall out type sq spurs s H T n q,
    quiet s H T n q -> idx_ok cap T ->
    exists s' spurs' H',
      run (2 + length spurs) spurs (pop cap out type sq) s =
        Some (Done (pop_result out type sq q) s' spurs') /\
      quiet s' H' T n (tail q);
}.

Lemma fits_room H T size :
  record_size size <= room cap T -> fits H T size = (T - H + record_size size <=? cap).
Proof.
  intros Hr. pose proof (room_range cap Hcap T). unfold fits, padding.
  rewrite (proj2 (Z.ltb_ge _ _)), (proj2 (Z.leb_le (record_size size) cap)) by lia. simpl. f_equal. lia.
Qed.

Lemma fits_skip H T size :
  record_size size <= cap -> room cap T < record_size size ->
  fits H T size = (T - H + room cap T + record_size size <=? cap).
Proof.
  intros Hr Hlt. unfold fits, padding.
  by rewrite (proj2 (Z.ltb_lt _ _)), (proj2 (Z.leb_le (record_size size) cap)) by lia.
Qed.

Lemma run_mono {R} fuel k spurs (body : prog (option R)) s r :
  run fuel spurs body s = Some r -> run (fuel + k) spurs body s = Some r.
Proof.
  revert spurs s. induction fuel as [|fuel IH]; intros spurs s; simpl; [done|].
  destruct (eval spurs s body) as [[a|] s' spurs'| |]; auto.
Qed.

Lemma run_return {R} fuel spurs (body : prog (option R)) s r s' spurs' :
  eval spurs s body = Done (Some r) s' spurs' ->
  run (S fuel) spurs body s = Some (Done r s' spurs').
Proof. intros E. simpl. by rewrite E. Qed.

Lemma run_again {R} fuel spurs (body : prog (option R)) s s' spurs' :
  eval spurs s body = Done None s' spurs' ->
  run (S fuel) spurs body s = run fuel spurs' body s'.
Proof. intros E. simpl. by rewrite E. Qed.

Lemma spsc_push_run data size type spurs s H T n q :
  push_args_ok data size type = true -> (data = None -> size = 0) ->
  quiet s H T n q -> idx_ok cap (T + cap) ->
  exists s' spurs' T',
    run (2 + length spurs) spurs (SpscRing.try_push cap data size type) s =
      Some (Done (fits H T size) s' spurs') /\ T <= T' <= T + 2 * cap /\
    quiet s' H T' (if fits H T size then n + 1 else n)
      (q ++ if fits H T size then [sent data size type n] else []).
Proof.
  intros Hv Hnull Hq Hidx. change (2 + length spurs)%nat with (S (S (length spurs))).
  destruct (push_args_spec _ _ _ Hv) as (Hsz & _).
  pose proof (record_size_bounds size Hsz) as [Hrs _].
  assert (Hh : sizeof_RecordHeader = 16) by done.
  pose proof (room_range cap Hcap T) as HR. pose proof (proj1 Hcap) as Hc.
  assert (HidxT : forall T', T <= T' <= T + cap -> idx_ok cap T')
    by (intros; eapply idx_ok_le; [|exact Hidx]; lia).
  assert (Hdone : forall f s1 T1, (0 < f)%nat -> quiet s1 H T1 n q -> T <= T1 <= T + cap ->
    record_size size <= room cap T1 -> (T - H + record_size size + (T1 - T) <=? cap) = fits H T size ->
    exists s' spurs' T',
      run f spurs (SpscRing.try_push cap data size type) s1 =
        Some (Done (fits H T size) s' spurs') /\ T <= T' <= T + 2 * cap /\
      quiet s' H T' (if fits H T size then n + 1 else n)
        (q ++ if fits H T size then [sent data size type n] else [])).
  { intros f s1 T1 Hf Hq1 HT1 Hr1 Hfit. destruct f as [|f]; [lia|].
    destruct (spsc_push_record spurs s1 H T1 n q data size type) as (s' & E & Hs'); auto.
    replace (T1 - H + record_size size) with (T - H + record_size size + (T1 - T)) in E, Hs' by lia.
    rewrite Hfit in E, Hs'. exists s', spurs. rewrite (run_return _ _ _ _ _ _ _ E).
    pose proof (room_range cap Hcap T1). destruct (fits H T size).
    - exists (T1 + record_size size). split_and!; auto; lia.
    - subst s'. exists T1. rewrite app_nil_r. split_and!; auto; lia. }
  destruct (decide (record_size size <= cap)) as [Hle|Hgt].
  2: { exists s, spurs, T. assert (fits H T size = false) as ->.
    { unfold fits. by rewrite (proj2 (Z.leb_gt _ _)) by lia. }
    split_and!; [| lia | lia | by rewrite app_nil_r].
    apply run_return. unfold SpscRing.try_push, SpscRing.push_rest. rewrite null_test, size_sum by (done || lia).
    fold (record_size size). case_if; [done | lia]. }
  destruct (decide (record_size size <= room cap T)) as [Hr|Hr].
  { apply (Hdone _ s T); auto; try lia. rewrite fits_room by done. f_equal. lia. }
  destruct (spsc_push_skip spurs s H T n q data size type) as [[E Hbig]|(s1 & E & Hfit & Hq1)];
    auto; try lia; [apply HidxT; lia | |].
  - exists s, spurs, T. rewrite (run_return _ _ _ _ _ _ _ E), fits_skip, (proj2 (Z.leb_gt _ _)) by lia.
    rewrite app_nil_r. split_and!; auto; lia.
  - rewrite (run_again _ _ _ _ _ _ E).
    apply (Hdone _ s1 (T + room cap T)); auto; try lia.
    + unfold room at 1. rewrite (room_end cap Hcap T). lia.
    + rewrite fits_skip by lia. f_equal. lia.
Qed.

(** *** The multi-producer push *)

(** From the reserved stretch to the end of the call. *)
Lemma writer_publish spurs s s1 H T pad n q data size type :
  quiet s H T n q -> push_args_ok data size type = true -> (data = None -> size = 0) ->
  0 <= pad -> T + pad + record_size size <= H + cap -> record_size size <= room cap (T + pad) ->
  s1 = store FTailReserve (u64 (T + (pad + record_size size))) s ->
  forall m, length m = length (ring s) ->
  (forall x, H <= x < T -> rbyte cap m x = rbyte cap (ring s) x) ->
  seg cap m T (T + pad) [] ->
  let pos := (T + pad) mod cap in
  exists s', eval spurs (with_ring m s1)
      (write_header pos (mkRecordHeader size type 0 0)
        (let publish :=
           do! Await FTailPublish (u64 T) in
           let! sq := FetchAdd FSequence 1 in
           do! write_uint (pos + off_sequence) 8 (add64 sq 1) in
           do! Store FTailPublish (add64 (add64 (u64 T) pad) (record_size size)) in
           Ret (Some true) in
         if size >? 0 then memcpy_in (pos + sizeof_RecordHeader) data size publish else publish)) =
      Done (Some true) s' spurs /\
    quiet s' H (T + pad + record_size size) (n + 1) (q ++ [sent data size type n]).
Proof.
  intros Hq Hv Hnull Hpad Hle Hroom -> m Hm Hf Hseg pos. pose proof (q_len _ _ _ _ _ Hq) as Hlen.
  destruct (push_args_spec _ _ _ Hv) as (Hsz & _). destruct (q_pos _ _ _ _ _ Hq) as [Hp1 Hp2].
  pose proof (record_size_bounds size Hsz) as [Hrs _]. unfold sizeof_RecordHeader in Hrs.
  destruct (eval_record (option bool) spurs
    (store FTailReserve (u64 (T + (pad + record_size size))) s) m (T + pad) H data size type n)
    as (m1 & m2 & E1 & E2 & Hl & Hf2 & Hrec & Hms); auto; try lia.
  subst pos. cbv zeta. rewrite E1. cbn [eval].
  rewrite !load_with_ring, !load_store_ne, (q_tp _ _ _ _ _ Hq), Z.eqb_refl by done.
  rewrite (q_sq _ _ _ _ _ Hq), !add64_u64.
  match goal with |- context [store FSequence ?v (with_ring m1 ?s0)] =>
    change (store FSequence v (with_ring m1 s0)) with (with_ring m1 (store FSequence v s0)) end.
  rewrite E2. cbn [eval]. eexists. split; [reflexivity|]. clear E1 E2. pose proof Hq as [].
  eapply quiet_extend with (T := T) (s := s); sh_simpl; eauto; try lia.
  - f_equal. lia.
  - intros. rewrite Hf2 by lia. auto.
  - apply (seg_app _ _ _ (T + pad) _ [] [_]).
    + apply seg_ext with m; auto. intros. apply Hf2; lia.
    + rewrite <- Hms. apply seg_rec; [done | constructor].
Qed.

Lemma writer_reserved spurs s H T n q data size type w :
  quiet s H T n q -> push_args_ok data size type = true -> (data = None -> size = 0) ->
  let rs := record_size size in
  let pad := padding T rs in
  rs <= cap -> T + pad + rs <= H + cap ->
  (w = true -> sizeof_RecordHeader <= room cap T) ->
  (w = false -> room cap T < rs -> room cap T < sizeof_RecordHeader) ->
  let fill pos :=
    do! write_header pos (mkRecordHeader size type 0 0) in
    let publish :=
      do! Await FTailPublish (u64 T) in
      let! sq := FetchAdd FSequence 1 in
      do! write_uint (pos + off_sequence) 8 (add64 sq 1) in
      do! Store FTailPublish (add64 (add64 (u64 T) pad) rs) in
      Ret (Some true) in
    if size >? 0 then memcpy_in (pos + sizeof_RecordHeader) data size publish
    else publish in
  exists s', eval spurs (store FTailReserve (u64 (T + (pad + rs))) s)
      (if pad >? 0 then
         if w && (pad >=? sizeof_RecordHeader)
         then write_header (T mod cap) wrap_header (fill 0) else fill 0
       else fill (T mod cap)) = Done (Some true) s' spurs /\
    quiet s' H (T + pad + rs) (n + 1) (q ++ [sent data size type n]).
Proof.
  intros Hq Hv Hnull rs pad Hrs Hle Hw1 Hw2 fill. pose proof (room_range cap Hcap T) as HR.
  destruct (q_pos _ _ _ _ _ Hq) as [Hp1 Hp2]. pose proof (proj1 Hcap) as Hc.
  set (s1 := store FTailReserve (u64 (T + (pad + rs))) s).
  pose proof (q_len _ _ _ _ _ Hq) as Hlen.
  assert (Hs1 : with_ring (ring s) s1 = s1) by done.
  pose proof (fun Hpad => writer_publish spurs s s1 H T pad n q data size type Hq Hv Hnull Hpad Hle)
    as Hpub.
  assert (Hroom0 : room cap (T + room cap T) = cap)
    by (unfold room at 1; rewrite room_end by done; lia).
  unfold pad, padding in *. destruct (room cap T <? rs) eqn:E; bool_to_prop.
  - rewrite (Z.gtb_ltb (room cap T) 0), (proj2 (Z.ltb_lt 0 (room cap T))) by lia.
    specialize (Hpub ltac:(lia) ltac:(rewrite Hroom0; lia) eq_refl).
    rewrite (room_end cap Hcap T) in Hpub. destruct w; cbn [andb].
    + specialize (Hw1 eq_refl). rewrite Z.geb_leb, (proj2 (Z.leb_le _ _)) by lia.
      destruct (eval_header cap H T (room cap T) Hcap ltac:(lia) ltac:(lia) ltac:(subst rs; lia)
        (option bool) spurs s1 (ring s) wrap_header) as (m' & Em & [Hl Hw Hf]); [done | done |].
      rewrite Hs1 in Em. rewrite Em. apply Hpub; auto; [intros; apply Hf; lia|].
      apply seg_wrap; [done | by eapply wrote_wrap | constructor].
    + rewrite <- Hs1. apply Hpub; auto. apply seg_short; [auto | constructor].
  - change (0 >? 0) with false. cbv iota. rewrite <- Hs1.
    rewrite Z.add_0_r in Hpub |- *. apply Hpub; auto; [lia | constructor].
Qed.

Lemma writer_push_eval spurs s H T n q data size type :
  quiet s H T n q -> idx_ok cap T -> push_args_ok data size type = true ->
  (data = None -> size = 0) ->
  if fits H T size then
    match spurs with
    | true :: rest => eval spurs s (RingWriter.try_push cap data size type) = Done None s rest
    | _ => exists s', eval spurs s (RingWriter.try_push cap data size type) =
             Done (Some true) s' (tail spurs) /\
           quiet s' H (T + padding T (record_size size) + record_size size) (n + 1)
             (q ++ [sent data size type n])
    end
  else eval spurs s (RingWriter.try_push cap data size type) = Done (Some false) s spurs.
Proof.
  intros Hq Hidx Hv Hnull. destruct (push_args_spec _ _ _ Hv) as (Hsz & _).
  pose proof (record_size_bounds size Hsz) as [Hrs _]. pose proof (room_range cap Hcap T) as HR.
  destruct (q_pos _ _ _ _ _ Hq) as [Hp1 Hp2]. pose proof (proj1 Hcap) as Hc.
  assert (Hh : sizeof_RecordHeader = 16) by done.
  unfold RingWriter.try_push, fits. rewrite null_test, size_sum by (done || lia).
  fold (record_size size). rewrite (Z.gtb_ltb (record_size size) cap).
  destruct (record_size size <=? cap) eqn:Ec; bool_to_prop;
    [rewrite (proj2 (Z.ltb_ge _ _)) by lia | by rewrite (proj2 (Z.ltb_lt _ _)) by lia].
  cbn [eval andb]. rewrite (q_hp _ _ _ _ _ Hq), (q_tr _ _ _ _ _ Hq), sub64_u64 by lia.
  rewrite (Z.gtb_ltb (T - H) cap), (proj2 (Z.ltb_ge cap (T - H))) by lia.
  rewrite umod_ne, remaining_eq by (done || lia).
  fold (RingWriter.padding_of cap T (record_size size)).
  assert (Hpo : exists w, RingWriter.padding_of cap T (record_size size) =
      (padding T (record_size size), w) /\ (w = true -> sizeof_RecordHeader <= room cap T) /\
      (w = false -> room cap T < record_size size -> room cap T < sizeof_RecordHeader)).
  { unfold RingWriter.padding_of, padding. destruct (room cap T <? sizeof_RecordHeader) eqn:E1; bool_to_prop.
    - rewrite (proj2 (Z.ltb_lt _ _)) by lia. exists false. split_and!; [done | done | lia].
    - exists (room cap T <? record_size size). case_if; split_and!; auto; lia. }
  destruct Hpo as (w & Ew & Hw1 & Hw2). rewrite Ew. cbv beta iota zeta.
  set (pad := padding T (record_size size)) in *.
  assert (Hpad : 0 <= pad <= cap) by (unfold pad, padding; case_if; lia).
  rewrite (add64_small pad), (add64_small (T - H)) by lia.
  rewrite (Z.gtb_ltb (T - H + (pad + _)) cap).
  replace (T - H + (pad + record_size size)) with (T - H + pad + record_size size) by lia.
  destruct (T - H + pad + record_size size <=? cap) eqn:Ef; bool_to_prop;
    [rewrite (proj2 (Z.ltb_ge _ _)) by lia | by rewrite (proj2 (Z.ltb_lt _ _)) by lia].
  cbn [eval]. rewrite (q_tr _ _ _ _ _ Hq), Z.eqb_refl.
  destruct spurs as [|[] rest]; cbn [andb negb tail]; [| done |].
  all: rewrite umod_ne, u64_mod by (done || lia).
  all: rewrite (add64_u64 T (pad + _)).
  all: apply writer_reserved; auto; lia.
Qed.

Lemma pushed_bounds s s' H T n n' q q' size :
  0 <= size < 2 ^ 32 -> quiet s H T n q ->
  quiet s' H (T + padding T (record_size size) + record_size size) n' q' ->
  T <= T + padding T (record_size size) + record_size size <= T + 2 * cap.
Proof.
  intros Hsz Hq Hq'. pose proof (q_pos _ _ _ _ _ Hq). pose proof (q_pos _ _ _ _ _ Hq').
  pose proof (room_range cap Hcap T). pose proof (record_size_bounds size Hsz) as [Hrs _].
  unfold padding, sizeof_RecordHeader in *. case_if; lia.
Qed.

Lemma writer_push_run data size type spurs s H T n q :
  push_args_ok data size type = true -> (data = None -> size = 0) ->
  quiet s H T n q -> idx_ok cap (T + cap) ->
  exists s' spurs' T',
    run (2 + length spurs) spurs (RingWriter.try_push cap data size type) s =
      Some (Done (fits H T size) s' spurs') /\ T <= T' <= T + 2 * cap /\
    quiet s' H T' (if fits H T size then n + 1 else n)
      (q ++ if fits H T size then [sent data size type n] else []).
Proof.
  intros Hv Hnull Hq Hidx. pose proof (proj1 Hcap) as Hc.
  pose proof (proj1 (push_args_spec _ _ _ Hv)) as Hsz.
  assert (HidxT : idx_ok cap T) by (eapply idx_ok_le; [|exact Hidx]; lia).
  induction spurs as [|b rest IH]; pose proof (fun sp => writer_push_eval sp s H T n q data size type
    Hq HidxT Hv Hnull) as He; destruct (fits H T size) eqn:Hfit.
  2, 4: eexists _, _, T; rewrite app_nil_r; split_and!; [apply run_return, He | lia | lia | done].
  - destruct (He []) as (s' & E & Hq'). eexists _, _, _.
    split; [by apply run_return|]. split; [by eapply pushed_bounds | exact Hq'].
  - destruct b.
    + change (2 + length (true :: rest))%nat with (S (2 + length rest)).
      rewrite (run_again _ _ _ _ _ _ (He (true :: rest))). apply IH.
    + destruct (He (false :: rest)) as (s' & E & Hq'). eexists _, _, _.
      split; [by apply run_return|]. split; [by eapply pushed_bounds | exact Hq'].
Qed.

(** *** Pops *)

(** Both heads at [h]. *)
Definition set_head (h : Z) (s : shared) : shared :=
  store FHeadPublish h (store FHeadReserve h s).

Lemma quiet_advance s H T n q o d :
  quiet s H T n q -> front cap (ring s) H o d -> H + d <= T ->
  exists q', q = option_list o ++ q' /\ quiet (set_head (u64 (H + d)) s) (H + d) T n q'.
Proof.
  intros [] Hf Hd. destruct (seg_advance cap Hcap _ _ _ _ _ _ q_seg0 Hf Hd) as (q' & -> & Hs).
  pose proof (front_pos cap Hcap _ _ _ _ Hf). exists q'. split; [done|].
  unfold set_head. split; sh_simpl; auto. lia.
Qed.

Lemma eval_read_uint {A} spurs s a off n (k : Z -> prog A) :
  Z.of_nat (length (ring s)) = cap -> 0 <= off -> (0 < n)%nat -> off + Z.of_nat n <= room cap a ->
  eval spurs s (read_uint (a mod cap + off) n k) =
    eval spurs s (k (le_dec (rbytes cap (ring s) (a + off) (Z.of_nat n)))).
Proof.
  intros. unfold read_uint. cbn [eval]. by rewrite mem_read_at by (done || lia).
Qed.

Lemma eval_read_payload {A} spurs s a x (k : list byte -> prog A) :
  Z.of_nat (length (ring s)) = cap -> is_record cap (ring s) a x ->
  eval spurs s (memcpy_from (a mod cap + sizeof_RecordHeader) (length (m_payload x)) k) =
    eval spurs s (k (m_payload x)).
Proof.
  intros Hl Hr. pose proof (is_record_msize _ _ _ _ Hr) as Hms. pose proof (pos_range cap Hcap a).
  unfold room in Hms. assert (Hh : sizeof_RecordHeader = 16) by done.
  rewrite eval_memcpy_from by lia. do 2 f_equal.
  destruct (m_payload x) as [|b bs] eqn:Ep; [done|]. rewrite <- Ep in *.
  pose proof (mem_read_at cap Hcap (ring s) a sizeof_RecordHeader (Z.of_nat (length (m_payload x))) Hl) as Hm.
  rewrite (ir_payload _ _ _ _ Hr), mem_read_Some, Nat2Z.id in Hm by lia.
  rewrite Ep in Hm at 1. simpl length in Hm. unfold room in Hm.
  injection Hm; auto; rewrite ?Ep; simpl; rewrite Ep in *; simpl in *; lia.
Qed.

(** What one iteration of a pop does: nothing on an empty ring; otherwise it
    consumes the front, unless its compare-exchange fails spuriously. *)
Record PopStep (out : list byte) (type : Z) (sq : option Z) (pop : prog (option popped)) : Prop := {
  ps_empty : forall spurs s H n q, quiet s H H n q ->
    eval spurs s pop = Done (Some (mkPopped false out type sq)) s spurs;
  ps_front : forall spurs s H T n q o d,
    quiet s H T n q -> idx_ok cap H -> front cap (ring s) H o d -> H + d <= T ->
    (exists rest, spurs = true :: rest /\ eval spurs s pop = Done None s rest) \/
    (exists rest, (length rest <= length spurs)%nat /\
       eval spurs s pop = Done (option_map (fun x => pop_result out type sq [x]) o)
         (set_head (u64 (H + d)) s) rest);
}.

(** After the unused end of the ring comes a record, or nothing. *)
Lemma no_second_skip m H T o d : T < H + cap -> H mod cap = 0 -> front cap m H o d -> H + d <= T ->
  exists x, o = Some x.
Proof.
  intros HT H0 [? | x Hr] Hd; [|eauto]. unfold room in Hd. rewrite H0 in Hd. lia.
Qed.

Section Run.
Context (out : list byte) (type : Z) (sq : option Z) (pop : prog (option popped)).
Hypothesis Hps : PopStep out type sq pop.

(** A ring whose front is not a skip. *)
Lemma pop_run_record fuel spurs s H T n q :
  quiet s H T n q -> idx_ok cap T -> T = H \/ (exists x, front cap (ring s) H (Some x) (msize x) /\
    H + msize x <= T) -> (length spurs < fuel)%nat ->
  exists s' spurs' H',
    run fuel spurs pop s = Some (Done (pop_result out type sq q) s' spurs') /\
    quiet s' H' T n (tail q).
Proof.
  intros Hq Hidx [-> | (x & Hf & Hd)].
  - intros Hl. destruct fuel as [|fuel]; [lia|]. pose proof (q_seg _ _ _ _ _ Hq) as Hs.
    apply (seg_empty cap Hcap) in Hs. subst q. exists s, spurs, H.
    rewrite (run_return _ _ _ _ _ _ _ (ps_empty _ _ _ _ Hps spurs _ _ _ _ Hq)). done.
  - assert (Hi : idx_ok cap H) by (eapply idx_ok_le; [apply Hq | exact Hidx]).
    pose proof (fun sp => ps_front _ _ _ _ Hps sp _ _ _ _ _ _ _ Hq Hi Hf Hd) as Hstep.
    destruct (quiet_advance _ _ _ _ _ _ _ Hq Hf Hd) as (q' & -> & Hq').
    revert fuel. induction spurs as [|b spurs IH]; intros fuel Hl;
      (destruct fuel as [|fuel]; [simpl in Hl; lia|]).
    + destruct (Hstep []) as [(? & ? & _)|(rest & _ & E)]; [done|].
      rewrite (run_return _ _ _ _ _ _ _ E). eauto.
    + destruct (Hstep (b :: spurs)) as [(rest & Es & E)|(rest & _ & E)].
      * injection Es as -> ->. rewrite (run_again _ _ _ _ _ _ E). apply IH. simpl in Hl. lia.
      * rewrite (run_return _ _ _ _ _ _ _ E). eauto.
Qed.

(** Behind a skipped end of the ring. *)
Lemma pop_run_skipped fuel spurs s H T n q :
  quiet s H T n q -> idx_ok cap T -> front cap (ring s) H None (room cap H) ->
  H + room cap H <= T -> (length spurs < fuel)%nat ->
  exists s' spurs' H',
    run fuel spurs pop (set_head (u64 (H + room cap H)) s) =
      Some (Done (pop_result out type sq q) s' spurs') /\
    quiet s' H' T n (tail q).
Proof.
  intros Hq Hidx Hf Hd Hl. destruct (q_pos _ _ _ _ _ Hq) as [? ?].
  pose proof (room_range cap Hcap H).
  destruct (quiet_advance _ _ _ _ _ _ _ Hq Hf Hd) as (q1 & Eq & Hq1). simpl in Eq. subst q1.
  eapply pop_run_record; eauto.
  destruct (decide (T = H + room cap H)) as [->|Hne1]; [by left | right].
  destruct (seg_front cap Hcap _ _ _ _ (q_seg _ _ _ _ _ Hq1) ltac:(done))
    as (o1 & d1 & q2 & Hf1 & Hd1 & _).
  destruct (no_second_skip _ (H + room cap H) T o1 d1 ltac:(lia) (room_end cap Hcap H) Hf1 Hd1) as [x ->].
  inversion Hf1; subst; eauto.
Qed.

Lemma pop_run spurs s H T n q :
  quiet s H T n q -> idx_ok cap T ->
  exists s' spurs' H',
    run (2 + length spurs) spurs pop s = Some (Done (pop_result out type sq q) s' spurs') /\
    quiet s' H' T n (tail q).
Proof.
  intros Hq Hidx. destruct (decide (T = H)) as [->|Hne].
  { eapply pop_run_record; eauto. lia. }
  destruct (seg_front cap Hcap _ _ _ _ (q_seg _ _ _ _ _ Hq) ltac:(done))
    as (o & d & q' & Hf & Hd & -> & _).
  destruct o as [x|].
  { inversion Hf; subst. eapply pop_run_record; eauto. lia. }
  inversion Hf; subst. cbn [option_list app] in *.
  assert (Hi : idx_ok cap H) by (eapply idx_ok_le; [apply Hq | exact Hidx]).
  pose proof (fun sp => ps_front _ _ _ _ Hps sp _ _ _ _ _ _ _ Hq Hi Hf Hd) as Hstep.
  induction spurs as [|b spurs IH].
  - destruct (Hstep []) as [(? & ? & _)|(rest & Hr & E)]; [done|].
    change (2 + length (@nil bool))%nat with (S 1). rewrite (run_again _ _ _ _ _ _ E). apply pop_run_skipped; auto. simpl in Hr. lia.
  - destruct (Hstep (b :: spurs)) as [(rest & Es & E)|(rest & Hr & E)];
      change (2 + length (b :: spurs))%nat with (S (2 + length spurs));
      rewrite (run_again _ _ _ _ _ _ E).
    + injection Es as -> ->. auto.
    + apply pop_run_skipped; auto. simpl in Hr. lia.
Qed.
End Run.

(** *** The two pop loops *)

(** The members of the record at the front. *)
Lemma record_reads s H x :
  Z.of_nat (length (ring s)) = cap -> is_record cap (ring s) H x ->
  Z.land (le_dec (rbytes cap (ring s) (H + off_flags) (Z.of_nat 2))) kWrapFlag = 0 /\
  le_dec (rbytes cap (ring s) (H + off_size) (Z.of_nat 4)) = Z.of_nat (length (m_payload x)) /\
  le_dec (rbytes cap (ring s) (H + off_type) (Z.of_nat 2)) = m_type x /\
  le_dec (rbytes cap (ring s) (H + off_sequence) (Z.of_nat 8)) = m_seq x /\
  align_up (add64 sizeof_RecordHeader (Z.of_nat (length (m_payload x)))) kAlignment = msize x /\
  sizeof_RecordHeader <= msize x <= room cap H.
Proof.
  intros Hl Hr. pose proof (is_record_msize _ _ _ _ Hr). pose proof (ir_len _ _ _ _ Hr).
  split_and!; try apply Hr; try lia. by rewrite size_sum by lia.
Qed.

(** Copying a payload out, as the code does it and as [fill_out]. *)
Lemma eval_copy_out {A} spurs s a x out (k : list byte -> prog A) :
  Z.of_nat (length (ring s)) = cap -> is_record cap (ring s) a x ->
  let n := Z.of_nat (length (m_payload x)) in
  let out' := if Z.of_nat (length out) <? n then resize out n else out in
  eval spurs s (if n >? 0
      then memcpy_from (a mod cap + sizeof_RecordHeader) (Z.to_nat n) (fun bs => k (copy_front out' bs))
      else k out') =
    eval spurs s (k (fill_out out (m_payload x))).
Proof.
  intros Hl Hr n out'. unfold n. destruct (Z.of_nat (length (m_payload x)) >? 0) eqn:E; bool_to_prop.
  - rewrite Nat2Z.id, (eval_read_payload _ _ _ x) by done. done.
  - unfold out', n. destruct (m_payload x); [|simpl in E; lia]. done.
Qed.

Lemma pop_loop_step advance out type sq :
  (forall spurs s h k, eval spurs s (advance h k) = eval spurs (set_head h s) k) ->
  PopStep out type sq (pop_loop advance cap out type sq).
Proof.
  intros Hadv. pose proof (proj1 Hcap) as Hc. split.
  - intros spurs s H n q Hq. unfold pop_loop, pop_rest. cbn [eval].
    by rewrite (q_tp _ _ _ _ _ Hq), (q_hp _ _ _ _ _ Hq), Z.eqb_refl.
  - intros spurs s H T n q o d Hq Hidx Hf Hd. right. exists spurs. split; [done|].
    pose proof (q_pos _ _ _ _ _ Hq). pose proof (front_pos _ Hcap _ _ _ _ Hf).
    pose proof (q_len _ _ _ _ _ Hq) as Hl. pose proof (room_range cap Hcap H).
    unfold pop_loop, pop_rest. cbn [eval]. rewrite (q_tp _ _ _ _ _ Hq), (q_hp _ _ _ _ _ Hq).
    case_if; [apply u64_inj in Heqb; lia|].
    rewrite umod_ne, remaining_eq, u64_mod, !add64_u64 by (done || lia).
    destruct Hf as [Hw | x Hr].
    + case_if; [by rewrite Hadv|]. destruct Hw as [?|[? Hw]]; [lia|].
      rewrite eval_read_uint by (done || unfold off_flags, sizeof_RecordHeader in *; lia).
      unfold is_wrap, at_flags in Hw. apply Z.eqb_neq in Hw.
      change (Z.of_nat 2) with 2. rewrite Hw. cbn [negb]. by rewrite Hadv.
    + destruct (record_reads s H x Hl Hr) as (R1 & R2 & R3 & R4 & R5 & R6).
      case_if; [lia|]. unfold sizeof_RecordHeader in R6.
      rewrite eval_read_uint, R1 by (done || unfold off_flags; lia). cbn [negb Z.eqb].
      rewrite eval_read_uint, R2 by (done || unfold off_size; lia).
      rewrite R5, add64_u64, sub64_u64 by lia. case_if; [lia|]. case_if; [lia|].
      refine (eq_trans (eval_copy_out spurs s H x out (fun out =>
        let! type := read_uint (H mod cap + off_type) 2 in
        let return_true sequence :=
          advance (u64 (H + msize x)) (Ret (Some (mkPopped true out type sequence))) in
        match sq with
        | Some _ => let! v := read_uint (H mod cap + off_sequence) 8 in return_true (Some v)
        | None => return_true None
        end) Hl Hr) _).
      rewrite eval_read_uint, R3 by (done || unfold off_type; lia).
      destruct sq as [v|]; [rewrite eval_read_uint, R4 by (done || unfold off_sequence; lia)|];
        cbv beta zeta; by rewrite Hadv.
Qed.

(** The compare-exchange on [head_reserve]. *)
Lemma eval_head_cas spurs s (h e : Z) (k : prog (option popped)) :
  load FHeadReserve s = e ->
  (exists rest, spurs = true :: rest /\
     eval spurs s (Cas true FHeadReserve e h (fun b => if negb b then Ret None else k)) =
       Done None s rest) \/
  exists rest, (length rest <= length spurs)%nat /\
     eval spurs s (Cas true FHeadReserve e h (fun b => if negb b then Ret None else k)) =
       eval rest (store FHeadReserve h s) k.
Proof.
  intros E. cbn [eval]. rewrite E, Z.eqb_refl.
  destruct spurs as [|[] rest]; [right; exists [] | left; by exists rest | right; exists rest];
    split; done || simpl; lia.
Qed.

Lemma mpmc_pop_step out type q :
  PopStep out type (Some q) (MpmcRing.try_pop_seq cap out type q).
Proof.
  pose proof (proj1 Hcap) as Hc. split.
  - intros spurs s H n ms Hq. unfold MpmcRing.try_pop_seq, MpmcRing.try_pop_rest. cbn [eval].
    by rewrite (q_tp _ _ _ _ _ Hq), (q_hr _ _ _ _ _ Hq), Z.eqb_refl.
  - intros spurs s H T n ms o d Hq Hidx Hf Hd.
    pose proof (q_pos _ _ _ _ _ Hq). pose proof (front_pos _ Hcap _ _ _ _ Hf).
    pose proof (q_len _ _ _ _ _ Hq) as Hl. pose proof (room_range cap Hcap H).
    assert (Hrel : forall spurs' h (r : option popped),
      eval spurs' (store FHeadReserve h s) (Await FHeadPublish (u64 H) (Store FHeadPublish h (Ret r)))
        = Done r (set_head h s) spurs').
    { intros. cbn [eval]. by rewrite load_store_ne, (q_hp _ _ _ _ _ Hq), Z.eqb_refl by done. }
    unfold MpmcRing.try_pop_seq, MpmcRing.try_pop_rest. cbn [eval]. rewrite (q_tp _ _ _ _ _ Hq), (q_hr _ _ _ _ _ Hq).
    case_if; [apply u64_inj in Heqb; lia|].
    rewrite umod_ne, remaining_eq, u64_mod, !add64_u64, sub64_u64 by (done || lia).
    destruct Hf as [Hw | x Hr].
    + rewrite (proj2 (Z.ltb_ge (T - H) (room cap H))) by lia.
      assert (Hskip : forall P, P = (Cas true FHeadReserve (u64 H) (u64 (H + room cap H))
          (fun b => if negb b then Ret None else
             do! Await FHeadPublish (u64 H) in
             do! Store FHeadPublish (u64 (H + room cap H)) in Ret (A := option popped) None)) ->
        (exists rest, spurs = true :: rest /\ eval spurs s P = Done None s rest) \/
        (exists rest, (length rest <= length spurs)%nat /\
           eval spurs s P = Done None (set_head (u64 (H + room cap H)) s) rest)).
      { intros P ->. edestruct eval_head_cas as [?|(rest & ? & ->)]; [apply Hq | by left | right].
        exists rest. split; [done|]. apply Hrel. }
      case_if; [by apply Hskip|]. destruct Hw as [?|[? Hw]]; [lia|].
      rewrite (proj2 (Z.ltb_ge (T - H) sizeof_RecordHeader)) by lia.
      rewrite eval_read_uint by (done || unfold off_flags, sizeof_RecordHeader in *; lia).
      unfold is_wrap, at_flags in Hw. apply Z.eqb_neq in Hw.
      change (Z.of_nat 2) with 2. rewrite Hw. cbn [negb]. by apply Hskip.
    + destruct (record_reads s H x Hl Hr) as (R1 & R2 & R3 & R4 & R5 & R6).
      case_if; [lia|]. case_if; [lia|]. unfold sizeof_RecordHeader in R6.
      rewrite eval_read_uint, R1 by (done || unfold off_flags; lia). cbn [negb Z.eqb].
      rewrite eval_read_uint, R2 by (done || unfold off_size; lia).
      rewrite R5, add64_u64. case_if; [lia|]. case_if; [lia|].
      edestruct eval_head_cas as [?|(rest & ? & ->)]; [apply Hq | by left | right].
      exists rest. split; [done|]. set (s1 := store FHeadReserve (u64 (H + msize x)) s).
      refine (eq_trans (eval_copy_out rest s1 H x out (fun out =>
        let! type := read_uint (H mod cap + off_type) 2 in
        let! sequence := read_uint (H mod cap + off_sequence) 8 in
        do! Await FHeadPublish (u64 H) in
        do! Store FHeadPublish (u64 (H + msize x)) in
        Ret (Some (mkPopped true out type (Some sequence)))) Hl Hr) _).
      rewrite eval_read_uint by (done || unfold off_type; lia). cbv beta.
      change (ring s1) with (ring s). rewrite R3.
      rewrite eval_read_uint by (done || unfold off_sequence; lia). cbv beta.
      change (ring s1) with (ring s). rewrite R4. apply Hrel.
Qed.

(** *** The three rings *)

Inductive ring_kind := SPSC | MPSC | MPMC.

Definition push_of (k : ring_kind) : Z -> option (list byte) -> Z -> Z -> prog (option bool) :=
  match k with
  | SPSC => SpscRing.try_push
  | MPSC => MpscRing.try_push
  | MPMC => MpmcRing.try_push
  end.

Definition pop_of (k : ring_kind) : Z -> list byte -> Z -> option Z -> prog (option popped) :=
  match k with
  | SPSC => SpscRing.try_pop_internal
  | MPSC => MpscRing.try_pop_internal
  | MPMC => fun capacity out type sq =>
      match sq with
      | Some q => MpmcRing.try_pop_seq capacity out type q
      | None => MpmcRing.try_pop capacity out type
      end
  end.

Definition size_of (k : ring_kind) : Z -> prog Z :=
  match k with
  | SPSC => SpscRing.approx_size
  | MPSC => MpscRing.approx_size
  | MPMC => MpmcRing.approx_size
  end.

Lemma eval_pmap {A B} (f : A -> B) spurs s (p : prog A) :
  eval spurs s (pmap f p) =
    match eval spurs s p with
    | Done a s' spurs' => Done (f a) s' spurs'
    | Blocked => Blocked
    | Undef => Undef
    end.
Proof.
  revert spurs s. induction p; intros spurs s; simpl; auto.
  - destruct (match weak with true => _ | false => _ end) as [spur rest]. by destruct (_ && _).
  - by destruct (_ =? _).
  - by destruct (mem_read _ _ _).
  - by destruct (mem_write _ _ _).
Qed.

Lemma run_pmap {A B} (f : A -> B) fuel spurs (body : prog (option A)) s :
  run fuel spurs (pmap (option_map f) body) s =
    match run fuel spurs body s with
    | Some (Done a s' spurs') => Some (Done (f a) s' spurs')
    | Some Blocked => Some Blocked
    | Some Undef => Some Undef
    | None => None
    end.
Proof.
  revert spurs s. induction fuel as [|fuel IH]; intros spurs s; [done|]. cbn [run].
  rewrite eval_pmap. destruct (eval spurs s body) as [[a|] s' spurs'| |]; simpl; auto.
Qed.

(** Forgetting the sequence number. *)
Lemma without_seq_step out type :
  PopStep out type None (MpmcRing.try_pop cap out type).
Proof.
  pose proof (mpmc_pop_step out type 0) as [He Hf]. unfold MpmcRing.try_pop. split.
  - intros. rewrite eval_pmap. by erewrite He.
  - intros spurs s H T n q o d Hq Hi Hfr Hd. rewrite eval_pmap.
    destruct (Hf spurs s H T n q o d Hq Hi Hfr Hd) as [(rest & Es & ->)|(rest & Hr & ->)];
      [left | right]; exists rest; split; auto. by destruct o.
Qed.

Lemma pop_of_step k out type sq : PopStep out type sq (pop_of k cap out type sq).
Proof.
  destruct k; simpl.
  - apply (pop_loop_step SpscRing.advance). reflexivity.
  - apply (pop_loop_step MpscRing.advance). intros spurs [[] ? ?]. reflexivity.
  - destruct sq; [apply mpmc_pop_step | apply without_seq_step].
Qed.

#[export] Instance ring_queue k : RingQueue (push_of k) (pop_of k).
Proof.
  split.
  - intros. destruct k; [by apply spsc_push_run | by apply writer_push_run..].
  - intros. by eapply (pop_run _ _ _ _ (pop_of_step k out type sq)).
Qed.
End Quiet.

(** C10: a push on a quiescent ring of any of the three kinds terminates within
    two iterations (plus one per spurious compare-exchange failure) and returns
    [true] exactly when the free space takes the padding and the record; the
    queue then ends with the message, numbered one above the last, and is
    unchanged otherwise. *)
Theorem ring_push_total cap k data size type spurs s H T n q :
  cap_ok cap -> push_args_ok data size type = true -> (data = None -> size = 0) ->
  quiet cap s H T n q -> idx_ok cap (T + cap) ->
  exists s' spurs' T',
    run (2 + length spurs) spurs (push_of k cap data size type) s =
      Some (Done (fits cap H T size) s' spurs') /\ T <= T' <= T + 2 * cap /\
    quiet cap s' H T' (if fits cap H T size then n + 1 else n)
      (q ++ if fits cap H T size then [sent data size type n] else []).
Proof. intros Hcap. intros. by apply (rq_push cap (RingQueue := ring_queue cap Hcap k)). Qed.

(** C11: a pop on a quiescent ring of any of the three kinds terminates within
    two iterations (plus one per spurious failure); it returns [false] exactly
    when the queue is empty, and otherwise delivers and removes the oldest
    message. *)
Theorem ring_pop_total cap k out type sq spurs s H T n q :
  cap_ok cap -> quiet cap s H T n q -> idx_ok cap T ->
  exists s' spurs' H',
    run (2 + length spurs) spurs (pop_of k cap out type sq) s =
      Some (Done (pop_result out type sq q) s' spurs') /\
    quiet cap s' H' T n (tail q).
Proof. intros Hcap. intros. by eapply (rq_pop cap (RingQueue := ring_queue cap Hcap k)). Qed.

(** ** Sequences of calls *)

(** One call, run alone to its end. *)
Definition seq_call (k : ring_kind) (capacity : Z) (o : op) (s : shared) : option (res * shared) :=
  match o with
  | OPush data size type =>
      match run 2 [] (push_of k capacity data size type) s with
      | Some (Done b s' _) => Some (RPush b, s')
      | _ => None
      end
  | OPop out type sq =>
      match run 2 [] (pop_of k capacity out type sq) s with
      | Some (Done p s' _) => Some (RPop p, s')
      | _ => None
      end
  end.

Fixpoint seq_calls (k : ring_kind) (capacity : Z) (ops : list op) (s : shared)
  : option (list res * shared) :=
  match ops with
  | [] => Some ([], s)
  | o :: ops =>
      match seq_call k capacity o s with
      | Some (r, s') =>
          match seq_calls k capacity ops s' with
          | Some (rs, s'') => Some (r :: rs, s'')
          | None => None
          end
      | None => None
      end
  end.

(** The specification: a queue of numbered messages that may refuse a push. *)
Inductive queue_step : list msg * Z -> op -> res -> list msg * Z -> Prop :=
| qs_push q n data size type :
    queue_step (q, n) (OPush data size type) (RPush true) (q ++ [sent data size type n], n + 1)
| qs_full q n data size type : queue_step (q, n) (OPush data size type) (RPush false) (q, n)
| qs_pop q n out type sq :
    queue_step (q, n) (OPop out type sq) (RPop (pop_result out type sq q)) (tail q, n).

Inductive queue_steps : list msg * Z -> list op -> list res -> list msg * Z -> Prop :=
| qss_nil a : queue_steps a [] [] a
| qss_cons a o r b ops rs c :
    queue_step a o r b -> queue_steps b ops rs c -> queue_steps a (o :: ops) (r :: rs) c.

(** The caller's obligations. *)
Definition op_ok (o : op) : bool :=
  match o with OPush data size type => push_args_ok data size type | OPop _ _ _ => true end.

Section Calls.
Context (cap : Z) (Hcap : cap_ok cap) (k : ring_kind).

(** A null pointer with a size: refused at once. *)
Lemma null_push size type s : size <> 0 ->
  run 2 [] (push_of k cap None size type) s = Some (Done false s []).
Proof.
  intros Hs. apply run_return. destruct k; simpl;
    unfold MpscRing.try_push, MpmcRing.try_push, RingWriter.try_push, SpscRing.try_push, SpscRing.push_rest;
    by rewrite (proj2 (Z.eqb_neq _ _) Hs).
Qed.

Lemma seq_call_ok o s H T n q :
  op_ok o = true -> quiet cap s H T n q -> idx_ok cap (T + cap) ->
  exists r s' H' T' n' q', seq_call k cap o s = Some (r, s') /\
    queue_step (q, n) o r (q', n') /\ quiet cap s' H' T' n' q' /\ T <= T' <= T + 2 * cap.
Proof.
  intros Ho Hq Hidx. pose proof (proj1 Hcap) as Hc. pose proof (ring_queue cap Hcap k) as Hrq.
  destruct o as [data size type | out type sq]; unfold seq_call.
  - destruct (decide (data = None /\ size <> 0)) as [[-> Hs] | Hn].
    { rewrite null_push by done. eexists _, _, H, T, n, q. split_and!; auto; [constructor | lia..]. }
    destruct (rq_push cap data size type [] s H T n q) as (s' & sp & T' & E & HT & Hq'); auto.
    { intros ->. destruct (decide (size = 0)); [done|]. exfalso. by apply Hn. }
    cbn [length Nat.add] in E. rewrite E.
    eexists _, s', H, T', _, _. split_and!; [reflexivity | | exact Hq' | lia | lia].
    destruct (fits cap H T size); [|rewrite app_nil_r]; constructor.
  - destruct (rq_pop cap out type sq [] s H T n q) as (s' & sp & H' & E & Hq'); auto.
    { eapply idx_ok_le; [|exact Hidx]. lia. }
    cbn [length Nat.add] in E. rewrite E.
    eexists _, s', H', T, n, _. split_and!; [reflexivity | constructor | exact Hq' | lia | lia].
Qed.

Lemma seq_calls_ok ops s H T n q :
  forallb op_ok ops = true -> quiet cap s H T n q ->
  idx_ok cap (T + 2 * cap * Z.of_nat (length ops)) ->
  exists rs s' H' T' n' q', seq_calls k cap ops s = Some (rs, s') /\
    queue_steps (q, n) ops rs (q', n') /\ quiet cap s' H' T' n' q'.
Proof.
  pose proof (proj1 Hcap) as Hc.
  revert s H T n q. induction ops as [|o ops IH]; intros s H T n q Hok Hq Hidx; simpl.
  { exists [], s, H, T, n, q. split_and!; auto. constructor. }
  simpl in Hok. apply andb_true_iff in Hok as [Ho Hok]. simpl length in Hidx.
  destruct (seq_call_ok o s H T n q) as (r & s1 & H1 & T1 & n1 & q1 & -> & Hs & Hq1 & HT); auto.
  { eapply idx_ok_le; [|exact Hidx]. nia. }
  destruct (IH s1 H1 T1 n1 q1) as (rs & s2 & H2 & T2 & n2 & q2 & -> & Hss & Hq2); auto.
  { eapply idx_ok_le; [|exact Hidx]. nia. }
  exists (r :: rs), s2, H2, T2, n2, q2. split_and!; auto. by econstructor.
Qed.
End Calls.

(** A freshly created ring is quiescent and empty. *)
Lemma quiet_fresh cap s :
  cap_ok cap -> ctl s = mkControl 0 0 0 0 0 -> Z.of_nat (length (ring s)) = cap ->
  quiet cap s 0 0 0 [].
Proof.
  intros [Hc _] Hctl Hl. split; auto; try (unfold load; by rewrite Hctl); [lia | constructor].
Qed.

(** C9: every sequence of calls on a fresh ring of any kind runs to completion
    without undefined behaviour, and its results are those of the queue
    specification: pops return the accepted messages in push order, each once,
    numbered from 1; a pop fails only on an empty queue. *)
Theorem ring_refines_queue cap k ops s :
  cap_ok cap -> ctl s = mkControl 0 0 0 0 0 -> Z.of_nat (length (ring s)) = cap ->
  forallb op_ok ops = true -> idx_ok cap (2 * cap * Z.of_nat (length ops)) ->
  exists rs s' H T n q, seq_calls k cap ops s = Some (rs, s') /\
    queue_steps ([], 0) ops rs (q, n) /\ quiet cap s' H T n q.
Proof.
  intros Hc Hctl Hl Hok Hidx.
  by destruct (seq_calls_ok cap Hc k ops s 0 0 0 []) as (rs & s' & H & T & n & q & ? & ? & ?);
    eauto 12 using quiet_fresh.
Qed.

(** The bytes the queued records occupy. *)
Definition queued_bytes (q : list msg) : Z := foldr (fun x n => msize x + n) 0 q.

Lemma seg_bytes cap m a b q : cap_ok cap -> seg cap m a b q -> queued_bytes q <= b - a.
Proof.
  intros Hc. induction 1; simpl; try pose proof (room_range cap Hc a); lia.
Qed.

(** [approx_size] of a quiescent ring is the number of bytes between head
    and tail: at most the capacity, and at least what the queued records
    occupy. *)
Theorem approx_size_quiet cap k spurs s H T n q :
  cap_ok cap -> quiet cap s H T n q ->
  eval spurs s (size_of k cap) = Done (T - H) s spurs /\
  queued_bytes q <= T - H <= cap.
Proof.
  intros Hc Hq. pose proof (q_pos _ _ _ _ _ _ Hq). pose proof (proj1 Hc).
  pose proof (seg_bytes _ _ _ _ _ Hc (q_seg _ _ _ _ _ _ Hq)). split; [|lia].
  destruct k; simpl; rewrite (q_hp _ _ _ _ _ _ Hq), (q_tp _ _ _ _ _ _ Hq), sub64_u64 by lia;
    case_if; done || lia.
Qed.

(** ** Concrete runs *)

Definition bytes24 : list byte := replicate 24 x61.
Definition bytes48 : list byte := replicate 48 x62.

Lemma quiet64 : quiet 64 ring64 0 0 0 [].
Proof. by apply quiet_fresh; [apply cap_ok_64 | |]. Qed.

Lemma idx64 T : idx_ok 64 T.
Proof. right. by exists (2 ^ 58). Qed.

Lemma ring_push_total_witness :
  exists s' spurs' T',
    run 4 [true; true] (push_of MPMC 64 (Some bytes24) 24 3) ring64 =
      Some (Done true s' spurs') /\ 0 <= T' <= 0 + 2 * 64 /\
    quiet 64 s' 0 T' 1 [mkMsg 3 bytes24 1].
Proof.
  apply (ring_push_total 64 MPMC (Some bytes24) 24 3 [true; true] ring64 0 0 0 []);
    [apply cap_ok_64 | reflexivity | discriminate | apply quiet64 | apply idx64].
Defined.

Lemma ring_pop_total_witness :
  exists s' spurs' H',
    run 2 [] (pop_of MPSC 64 [x01] 9 (Some 0)) ring64 =
      Some (Done (mkPopped false [x01] 9 (Some 0)) s' spurs') /\
    quiet 64 s' H' 0 0 [].
Proof.
  apply (ring_pop_total 64 MPSC [x01] 9 (Some 0) [] ring64 0 0 0 []);
    [apply cap_ok_64 | apply quiet64 | apply idx64].
Defined.

Definition demo_ops : list op :=
  [OPop [] 0 None; OPush (Some bytes24) 24 3; OPush None 5 1; OPush (Some bytes48) 48 4;
   OPop [] 0 (Some 0); OPush (Some bytes24) 24 5; OPop [] 0 (Some 0)].

Lemma ring_refines_queue_witness :
  exists rs s' H T n q, seq_calls SPSC 64 demo_ops ring64 = Some (rs, s') /\
    queue_steps ([], 0) demo_ops rs (q, n) /\ quiet 64 s' H T n q.
Proof.
  apply (ring_refines_queue 64 SPSC demo_ops ring64);
    [apply cap_ok_64 | reflexivity | reflexivity | reflexivity | apply idx64].
Defined.

Lemma approx_size_quiet_witness :
  eval [] ring64 (size_of SPSC 64) = Done (0 - 0) ring64 [] /\ queued_bytes [] <= 0 - 0 <= 64.
Proof. apply (approx_size_quiet 64 SPSC [] ring64 0 0 0 []); [apply cap_ok_64 | apply quiet64]. Defined.

(** A message whose record is exactly as large as the ring is accepted by a
    fresh ring, but after one smaller message has been pushed and popped the
    ring is empty and refuses it, on every later attempt: the skipped end of
    the ring counts against the free space. *)
Theorem empty_ring_refuses k :
  (exists s, seq_calls k 64 [OPush (Some bytes48) 48 4] ring64 = Some ([RPush true], s)) /\
  exists s, seq_calls k 64 [OPush (Some bytes24) 24 3; OPop [] 0 None] ring64 =
      Some ([RPush true; RPop (mkPopped true bytes24 3 None)], s) /\
    eval [] s (size_of k 64) = Done 0 s [] /\
    forall m, seq_calls k 64 (replicate m (OPush (Some bytes48) 48 4)) s =
      Some (replicate m (RPush false), s).
Proof.
  split; [destruct k; eexists; vm_compute; reflexivity|].
  assert (Hm : forall s m, seq_call k 64 (OPush (Some bytes48) 48 4) s = Some (RPush false, s) ->
    seq_calls k 64 (replicate m (OPush (Some bytes48) 48 4)) s = Some (replicate m (RPush false), s)).
  { intros s m E. induction m as [|m IH]; [done|]. simpl replicate. cbn [seq_calls]. by rewrite E, IH. }
  destruct k; eexists; (split; [vm_compute; reflexivity|]); (split; [vm_compute; reflexivity|]);
    intros m; apply Hm; vm_compute; reflexivity.
Qed.
