(* ===== verification/Progress.v ===== *)
(** * Waiting ends

    The multi-producer push publishes in reservation order: a producer that has
    filled in its record waits until every earlier reservation is published.  This
    file shows that such waiting cannot deadlock.  From every configuration that
    producers and a consumer can reach, all calls under way can return, whatever
    point each of them has reached:
    - run every thread until it ends an iteration of its loop or waits
      ([to_rest]; it ends because each access leaves a smaller program);
    - the thread whose reservation is the oldest does not wait, so that in the end
      nobody does ([nobody_waits]);
    - the ring is then quiescent, and the calls that lost a compare-exchange
      complete one after the other ([finish_all]). *)

From Stdlib Require Import ZArith Lia Strings.Byte.
From stdpp Require Import base list numbers gmap.
From S2P Require Import Prelude Memory Layout Prog Records Owner RingWriter OneConsumer MpscRing MpmcRing Solo.

(** ** Running to rest *)

(** A program that has ended or waits for another thread. *)
Definition resting {A} (s : shared) (p : prog A) : bool :=
  match p with
  | Ret _ => true
  | Await f v _ => negb (load f s =? v)
  | _ => false
  end.

(** The rest of a program after one access. *)
Definition shrinks {A} (p' p : prog A) : Prop :=
  exists s s', resting s p = false /\ step1 true s p = Step s' p'.

Lemma shrinks_wf {A} (p : prog A) : Acc shrinks p.
Proof.
  induction p as [a|f k IH|f v k IH|w f e d k IH|f v k IH|f v k IH|off n k IH|off bs k IH|k IH|k IH|];
    constructor; intros p' (s & s' & Hr & Hs); cbn [resting step1] in Hr, Hs.
  - discriminate.
  - injection Hs as _ <-. apply IH.
  - injection Hs as _ <-. apply IH.
  - destruct (_ && _); injection Hs as _ <-; apply IH.
  - injection Hs as _ <-. apply IH.
  - destruct (_ =? _); [|discriminate]. injection Hs as _ <-. apply IH.
  - destruct (mem_read _ _ _); [|discriminate]. injection Hs as _ <-. apply IH.
  - destruct (mem_write _ _ _); [|discriminate]. injection Hs as _ <-. apply IH.
  - injection Hs as _ <-. apply IH.
  - injection Hs as _ <-. apply IH.
  - discriminate.
Qed.

Section Rest.
Context {Op R : Type}.

Definition one_shrinks (m' m : gmap nat (Op * prog (option R))) : Prop :=
  exists t o p p', m !! t = Some (o, p) /\ shrinks p' p /\ m' = <[t := (o, p')]> m.

Lemma one_shrinks_insert t o p (m : gmap nat (Op * prog (option R))) :
  Acc shrinks p -> Acc one_shrinks m -> m !! t = None -> Acc one_shrinks (<[t := (o, p)]> m).
Proof.
  intros Hp. revert m. induction Hp as [p _ IHp]. intros m Hm. induction Hm as [m Ha IHm].
  intros Ht. constructor. intros m' (t' & o' & q & q' & Hq & Hs & ->).
  destruct (decide (t' = t)) as [-> | Hne].
  - rewrite lookup_insert_eq in Hq. injection Hq as <- <-. rewrite insert_insert_eq.
    apply IHp; [done | by constructor | done].
  - rewrite lookup_insert_ne in Hq by done. rewrite insert_insert_ne by done.
    apply IHm; [exists t', o', q, q'; by split_and! | by rewrite lookup_insert_ne].
Qed.

Lemma one_shrinks_wf (m : gmap nat (Op * prog (option R))) : Acc one_shrinks m.
Proof.
  induction m as [|t [o p] m Ht IH] using map_ind.
  - constructor. intros m' (t & o & p & p' & Hp & _). by rewrite lookup_empty in Hp.
  - by apply one_shrinks_insert; [apply shrinks_wf|..].
Qed.

Context {G : Type} {W : Waits G} (body : Op -> prog (option R)) (role : nat -> Op -> bool)
  (allowed : shared -> shared -> Prop) (Inv : shared * G -> Prop)
  (rely : nat -> shared * G -> shared * G -> Prop)
  (P : nat -> list (Op * R) -> shared * G -> Prop)
  {rely_pre : forall t, PreOrder (rely t)}.
Hypothesis P_stable : forall t l s s', P t l s -> rely t s s' -> Inv s' -> P t l s'.
Hypothesis body_ok : forall t op l s,
  role t op = true -> P t l s -> Inv s -> wp allowed Inv rely t (post P t op l) (body op) s.
Hypothesis tick_ok : forall d s g, 0 <= d -> allowed s (tick d s) -> Inv (s, g) ->
  Inv (tick d s, g) /\ forall t, rely t (s, g) (tick d s, g).

(** Accesses whose compare-exchanges fail keep [keep]. *)
Context (keep : relation shared) {keep_pre : PreOrder keep} (tame : prog (option R) -> Prop).
Hypothesis keep_allowed : forall s s', keep s s' -> allowed s s'.
Hypothesis tame_step : forall s p s' p',
  tame p -> step1 true s p = Step s' p' -> keep s s' /\ tame p'.

Abbreviation ok := (config_ok role allowed Inv rely P).
Abbreviation step := (cstep body role allowed).

Definition tame_config (c : config (Op := Op) (R := R)) : Prop :=
  forall t o p, c_thr c !! t = Some (o, p) -> tame p.

(** A thread that can go on. *)
Lemma pick_thread (c : config (Op := Op) (R := R)) :
  (forall t o p, c_thr c !! t = Some (o, p) -> resting (c_sh c) p = true) \/
  exists t o p, c_thr c !! t = Some (o, p) /\ resting (c_sh c) p = false.
Proof.
  destruct (decide (map_Forall (fun _ e => resting (c_sh c) e.2 = true) (c_thr c))) as [H|H].
  - left. intros t o p Hp. apply (H t (o, p) Hp).
  - right. apply map_not_Forall in H; [|intros; apply _]. destruct H as (t & [o p] & Hp & Hr).
    exists t, o, p. split; [done|]. by apply not_true_is_false.
Qed.

Lemma to_rest c g :
  ok c g -> tame_config c ->
  exists c' g', rtc step c c' /\ ok c' g' /\ keep (c_sh c) (c_sh c') /\ c_log c' = c_log c /\
    fst <$> c_thr c' = fst <$> c_thr c /\
    forall t o p, c_thr c' !! t = Some (o, p) -> resting (c_sh c') p = true.
Proof.
  remember (c_thr c) as m eqn:Em. revert c g Em.
  induction (one_shrinks_wf m) as [m _ IH]. intros c g -> Hc Ht.
  destruct (pick_thread c) as [Hr | (t & o & p & Hp & Hr)].
  { exists c, g. split_and!; auto. apply rtc_refl. reflexivity. }
  destruct c as [s thr log f]. simpl in *. pose proof Hc as (Hf & HI & Hth). simpl in Hf. subst f.
  pose proof (Hth t) as Hw. simpl in Hw. rewrite Hp in Hw. destruct Hw as [_ Hw].
  pose proof (wp_step1 allowed Inv rely P t o log s g p true HI Hw) as Hs.
  destruct (step1 true s p) as [s' p'| |] eqn:Es; [| by destruct Hs as [a ->] | done].
  destruct (tame_step s p s' p' (Ht t o p Hp) Es) as [Hk Htp].
  assert (Hstep : step (Config s thr log false) (Config s' (<[t := (o, p')]> thr) log false)).
  { apply (cstep_intro _ _ _ _ _ (AStep t true)); [|by apply keep_allowed]. simpl. rewrite Hp.
    destruct p as [a| | | | | | | | | |]; [done|..]; by rewrite Es. }
  destruct (config_ok_step body role allowed Inv rely P P_stable body_ok tick_ok _ _ g Hc Hstep)
    as (g1 & Hc1 & _).
  destruct (IH (<[t := (o, p')]> thr)) with (c := Config s' (<[t := (o, p')]> thr) log false) (g := g1)
    as (c2 & g2 & Hr2 & Hc2 & Hk2 & Hl2 & Hm2 & Hz2); [| done | done | |].
  - exists t, o, p, p'. split_and!; [done | by exists s, s' | done].
  - intros t' o' q Hq. simpl in Hq. apply lookup_insert_Some in Hq as [[_ [= <- <-]]|[_ Hq]]; eauto.
  - exists c2, g2. split_and!; auto; [by eapply rtc_l | by etrans |].
    rewrite Hm2. simpl. rewrite fmap_insert. simpl. apply insert_id.
    by rewrite lookup_fmap, Hp.
Qed.
End Rest.

(** ** Reservations of a program

    [tame n p]: along any path [p] tries to move [tail_reserve] forward at most
    [n] times with success, by at most [2 * cap] bytes, with compare-exchanges that
    may fail, and changes it in no other way. *)

Section Tame.
Context (cap : Z) {A : Type}.

Fixpoint tame (n : nat) (p : prog A) : Prop :=
  match p with
  | Ret _ | Undefined => True
  | Load _ k | Now k => forall v, tame n (k v)
  | FetchAdd f _ k => f <> FTailReserve /\ forall v, tame n (k v)
  | Store f _ k => f <> FTailReserve /\ tame n k
  | Await _ _ k | Write _ _ k | WakeAll k => tame n k
  | Read _ _ k => forall bs, tame n (k bs)
  | Cas weak FTailReserve e d k =>
      match n with
      | O => False
      | S m => weak = true /\ (exists z, 0 <= z <= 2 * cap /\ d = add64 e z) /\
          tame m (k true) /\ tame n (k false)
      end
  | Cas _ _ _ _ k => forall b, tame n (k b)
  end.

Lemma tame_umod n a b k : (forall v, tame n (k v)) -> tame n (umod a b k).
Proof. intros H. unfold umod. by case_if. Qed.

Lemma tame_memcpy_to n off bs k : tame n k -> tame n (memcpy_to off bs k).
Proof. revert off. induction bs as [|b bs IH]; intros off Hk; simpl; auto. Qed.

Lemma tame_memcpy_in n off data size k : tame n k -> tame n (memcpy_in off data size k).
Proof. intros Hk. unfold memcpy_in. repeat case_match; try done; by apply tame_memcpy_to. Qed.

Lemma tame_memcpy_from n off len k : (forall bs, tame n (k bs)) -> tame n (memcpy_from off len k).
Proof. revert off k. induction len as [|len IH]; intros off k Hk; simpl; auto. Qed.

(** A compare-exchange that fails leaves [tail_reserve] alone. *)
Lemma tame_failing n s p s' p' :
  tame n p -> step1 true s p = Step s' p' -> load FTailReserve s = load FTailReserve s' /\ tame n p'.
Proof.
  destruct p as [a|f k|f v k|w f e d k|f v k|f v k|off len k|off bs k|k|k|]; cbn [tame step1]; intros Ht Hs.
  - discriminate.
  - injection Hs as <- <-. auto.
  - destruct Ht. injection Hs as <- <-. by rewrite load_store_ne.
  - destruct (decide (f = FTailReserve)) as [-> | Hf].
    + destruct n as [|n]; [done|]. destruct Ht as (-> & _ & _ & Ht). rewrite andb_false_r in Hs.
      by injection Hs as <- <-.
    + assert (Hk : forall b, tame n (k b)) by (by destruct f).
      destruct (_ && _); injection Hs as <- <-; [rewrite load_store_ne by done|]; auto.
  - destruct Ht. injection Hs as <- <-. by rewrite load_store_ne.
  - destruct (_ =? _); by injection Hs as <- <-.
  - destruct (mem_read _ _ _); [|discriminate]. injection Hs as <- <-. auto.
  - destruct (mem_write _ _ _); [|discriminate]. injection Hs as <- <-. by rewrite load_with_ring.
  - injection Hs as <- <-. auto.
  - injection Hs as <- <-. auto.
  - discriminate.
Qed.
End Tame.

Lemma tame_pmap {A B} cap (f : A -> B) n p : tame cap n p -> tame cap n (pmap f p).
Proof.
  revert n. induction p as [a|g k IH|g v k IH|w g e d k IH|g v k IH|g v k IH|off len k IH|off bs k IH|k IH|k IH|];
    intros n; cbn [tame pmap]; try (intuition; fail).
  destruct g; try (intros H b; by apply IH). destruct n; [done|]. intuition.
Qed.

Create HintDb tame.
#[export] Hint Resolve tame_umod tame_memcpy_to tame_memcpy_in tame_memcpy_from tame_pmap : tame.

(** Check a program by its structure. *)
Ltac tame_step :=
  lazymatch goal with
  | |- tame _ _ (if ?b then _ else _) => destruct b eqn:?
  | |- tame _ _ (match ?x with _ => _ end) => destruct x eqn:?
  | |- tame _ _ (umod _ _ _) => apply tame_umod; intros
  | |- tame _ _ (memcpy_to _ _ _) => apply tame_memcpy_to
  | |- tame _ _ (memcpy_in _ _ _ _) => apply tame_memcpy_in
  | |- tame _ _ (memcpy_from _ _ _) => apply tame_memcpy_from; intros
  | |- tame _ _ (pmap _ _) => apply tame_pmap
  | |- forall _, _ => intro
  | |- _ <> FTailReserve /\ _ => split; [done|]
  | |- tame _ _ (read_uint _ _ _) => unfold read_uint
  | |- tame _ _ (write_uint _ _ _ _) => unfold write_uint
  | |- tame _ _ (write_header _ _ _) => unfold write_header
  | |- tame _ _ _ => progress cbn [tame]
  end.
Ltac tame_prog := repeat (cbv zeta beta; tame_step).

Lemma pop_tame k cap n out type sq : tame cap n (pop_of k cap out type sq).
Proof.
  destruct k; unfold pop_of, SpscRing.try_pop_internal, MpscRing.try_pop_internal.
  1, 2: by tame_prog.
  destruct sq; unfold MpmcRing.try_pop, MpmcRing.try_pop_seq, MpmcRing.try_pop_rest; by tame_prog.
Qed.

Lemma writer_tame cap data size type :
  cap_ok cap -> push_args_ok data size type = true -> tame cap 1 (RingWriter.try_push cap data size type).
Proof.
  intros [Hc _] Hv. destruct (push_args_spec _ _ _ Hv) as (Hsz & _).
  unfold RingWriter.try_push. replace (add64 sizeof_RecordHeader size) with (sizeof_RecordHeader + size)
    by (unfold add64, sizeof_RecordHeader; rewrite u64_small; lia).
  fold (record_size size). pose proof (record_size_bounds size Hsz) as [Hrs _].
  unfold sizeof_RecordHeader in Hrs. case_if; [done|]. case_if; [done|]. bool_to_prop.
  intros head tail. cbv zeta. case_if; [done|]. apply tame_umod. intros pos.
  set (remaining := sub64 cap pos). pose proof (u64_range (cap - pos)) as HR. fold (sub64 cap pos) in HR. fold remaining in HR.
  assert (Hcas : forall pad d (k : bool -> prog (option bool)), 0 <= pad <= cap ->
    d = add64 tail (add64 pad (record_size size)) -> tame cap 0 (k true) -> tame cap 1 (k false) ->
    tame cap 1 (Cas true FTailReserve tail d k)).
  { intros pad d k Hp -> H1 H2. split_and!; auto. exists (add64 pad (record_size size)). split; [|done].
    unfold add64. rewrite u64_small; lia. }
  destruct (remaining <? sizeof_RecordHeader) eqn:E1; [|destruct (remaining <? record_size size) eqn:E2];
    bool_to_prop; unfold sizeof_RecordHeader in *; (case_if; [done|]); eapply Hcas;
    try reflexivity; try lia; by tame_prog.
Qed.

(** ** One thread at a time *)

Lemma eval_no_spurs {A} s (p : prog A) a s' sp : eval [] s p = Done a s' sp -> sp = [].
Proof.
  revert s. induction p as [a0|f k IH|f v k IH|w f e d k IH|f v k IH|f v k IH|off n k IH|off bs k IH|k IH|k IH|];
    intros s; cbn [eval]; eauto; try discriminate.
  - congruence.
  - destruct w; destruct (_ && _); eauto.
  - destruct (_ =? _); [eauto | discriminate].
  - destruct (mem_read _ _ _); [eauto | discriminate].
  - destruct (mem_write _ _ _); [eauto | discriminate].
Qed.

Definition body_of (k : ring_kind) : Z -> op -> prog (option res) :=
  match k with
  | SPSC => SpscRing.body
  | MPSC => MpscRing.body
  | MPMC => MpmcRing.body
  end.

Lemma body_call k cap o s r s' :
  seq_call k cap o s = Some (r, s') -> exists sp, run 2 [] (body_of k cap o) s = Some (Done r s' sp).
Proof.
  unfold seq_call. destruct o as [data size type | out type sq]; intros H.
  - destruct (run 2 [] (push_of k cap data size type) s) as [[b s1 sp| |]|] eqn:E; try done.
    injection H as <- <-. exists sp. pose proof (run_pmap RPush 2 [] (push_of k cap data size type) s) as H. rewrite E in H. by destruct k.
  - destruct (run 2 [] (pop_of k cap out type sq) s) as [[p s1 sp| |]|] eqn:E; try done.
    injection H as <- <-. exists sp. pose proof (run_pmap RPop 2 [] (pop_of k cap out type sq) s) as H. rewrite E in H. by destruct k, sq.
Qed.

Section Alone.
Context {Op R : Type} (body : Op -> prog (option R)) (role : nat -> Op -> bool) (cap : Z).
Context (Hc : 0 < cap) (t : nat) (o : Op) (thr : gmap nat (Op * prog (option R)))
  (log : list (nat * (Op * R))) (f : bool).

Abbreviation step := (cstep body role no_wrap).
Abbreviation at_prog p s := (Config s (<[t := (o, p)]> thr) log f).

(** [z] bytes can be reserved without [tail_reserve] wrapping around. *)
Definition headroom (z : Z) (s : shared) : Prop :=
  0 <= load FTailReserve s /\ load FTailReserve s + z < 2 ^ 64.

Lemma alone_step p p1 s s1 :
  step1 false s p = Step s1 p1 -> load FTailReserve s <= load FTailReserve s1 ->
  step (at_prog p s) (at_prog p1 s1).
Proof.
  intros Hs Hn. apply (cstep_intro _ _ _ _ _ (AStep t false)); [|done]. simpl. rewrite lookup_insert_eq.
  destruct p as [a| | | | | | | | | |]; [done|..]; rewrite Hs; by rewrite insert_insert_eq.
Qed.

Lemma alone_eval n p s a s' sp :
  eval [] s p = Done a s' sp -> tame cap n p -> headroom (2 * cap * Z.of_nat n) s ->
  rtc step (at_prog p s) (at_prog (Ret a) s') /\
  load FTailReserve s <= load FTailReserve s' <= load FTailReserve s + 2 * cap * Z.of_nat n.
Proof.
  revert n s. induction p as [a0|g k IH|g v k IH|w g e d k IH|g v k IH|g v k IH|off m k IH|off bs k IH|k IH|k IH|];
    intros n s; cbn [eval tame]; intros He Ht Hh; try discriminate.
  (* every access but a successful compare-exchange on [tail_reserve] keeps it *)
  all: assert (Hgo : forall p1 s1 p', step1 false s p' = Step s1 p1 ->
      load FTailReserve s1 = load FTailReserve s ->
      (headroom (2 * cap * Z.of_nat n) s1 ->
        rtc step (at_prog p1 s1) (at_prog (Ret a) s') /\
        load FTailReserve s1 <= load FTailReserve s' <= load FTailReserve s1 + 2 * cap * Z.of_nat n) ->
      rtc step (at_prog p' s) (at_prog (Ret a) s') /\
      load FTailReserve s <= load FTailReserve s' <= load FTailReserve s + 2 * cap * Z.of_nat n)
    by (intros p1 s1 p' H1 H2 H3; destruct H3 as [H3 H4]; [unfold headroom in *; by rewrite H2|];
        rewrite H2 in H4; split; [eapply rtc_l; [apply alone_step; [done | lia] | done] | done]).
  - injection He as -> -> _. split; [apply rtc_refl | nia].
  - eapply Hgo; [done | done |]. intros. by apply IH.
  - destruct Ht as [Hg Ht]. eapply Hgo; [done | by rewrite load_store_ne |]. intros. by apply IH.
  - replace (match w with true | _ => (false, []) end) with (false, @nil bool) in He by (by destruct w).
    destruct ((load g s =? e) && negb (w && false)) eqn:E; rewrite ?E in He.
    + destruct (decide (g = FTailReserve)) as [-> | Hg].
      * destruct n as [|n]; [done|]. destruct Ht as (_ & (z & Hz & ->) & Ht & _).
        apply andb_prop in E as [<-%Z.eqb_eq E].
        assert (Hl : add64 (load FTailReserve s) z = load FTailReserve s + z)
          by (unfold headroom in Hh; unfold add64; rewrite u64_small; nia).
        rewrite Hl in *. destruct (IH true n (store FTailReserve (load FTailReserve s + z) s)) as [Hr Hb]; auto.
        { unfold headroom in *. rewrite load_store_eq. nia. }
        rewrite load_store_eq in Hb. split; [|lia]. eapply rtc_l; [|exact Hr].
        apply alone_step; [simpl; by rewrite Z.eqb_refl, E | rewrite load_store_eq; lia].
      * eapply Hgo; [simpl; by rewrite E | by rewrite load_store_ne |]. intros. apply IH; auto. by destruct g.
    + eapply Hgo; [simpl; by rewrite E | done |]. intros. apply IH; auto.
      destruct g; auto. destruct n; [done|]. apply Ht.
  - destruct Ht as [Hg Ht]. eapply Hgo; [done | by rewrite load_store_ne |]. intros. by apply IH.
  - destruct (load g s =? v) eqn:E; [|discriminate].
    eapply Hgo; [simpl; by rewrite E | done |]. intros. by apply IH.
  - destruct (mem_read (ring s) off m) as [bs|] eqn:E; [|discriminate].
    eapply Hgo; [simpl; by rewrite E | done |]. intros. by apply IH.
  - destruct (mem_write (ring s) off bs) as [m|] eqn:E; [|discriminate].
    eapply Hgo; [simpl; by rewrite E | by rewrite load_with_ring |]. intros. by apply IH.
  - eapply Hgo; [done | done |]. intros. by apply IH.
  - eapply Hgo; [done | done |]. intros. by apply IH.
Qed.

(** The whole loop, from the end of an iteration that asks for another one. *)
Lemma alone_run fuel s r s' sp :
  thr !! t = None -> run fuel [] (body o) s = Some (Done r s' sp) -> tame cap 1 (body o) ->
  headroom (2 * cap * Z.of_nat fuel) s ->
  rtc step (at_prog (Ret None) s) (Config s' thr (log ++ [(t, (o, r))]) f) /\
  load FTailReserve s <= load FTailReserve s' <= load FTailReserve s + 2 * cap * Z.of_nat fuel.
Proof.
  intros Hi Hrun Ht. revert s Hrun. induction fuel as [|fuel IH]; intros s; cbn [run]; [done|].
  destruct (eval [] s (body o)) as [a s1 sp1| |] eqn:E; try done. pose proof (eval_no_spurs _ _ _ _ _ E) as ->.
  intros Hrun Hh. unfold headroom in Hh.
  destruct (alone_eval 1 (body o) s a s1 [] E Ht) as [Hr Hb]; [unfold headroom; nia|].
  assert (H0 : step (at_prog (Ret None) s) (at_prog (body o) s)).
  { apply (cstep_intro _ _ _ _ _ (AStep t false)); [|unfold no_wrap; simpl; lia]. simpl.
    by rewrite lookup_insert_eq, insert_insert_eq. }
  destruct a as [r'|].
  - injection Hrun as -> -> _. split; [|nia]. eapply rtc_l; [exact H0|]. eapply rtc_r; [exact Hr|].
    apply (cstep_intro _ _ _ _ _ (AStep t false)); [|unfold no_wrap; simpl; lia]. simpl.
    by rewrite lookup_insert_eq, delete_insert_id.
  - destruct (IH s1 Hrun) as [Hr1 Hb1]; [unfold headroom; nia|]. split; [|nia].
    eapply rtc_l; [exact H0|]. by etrans.
Qed.
End Alone.

(** ** The shared-writer rings *)

Lemma tame_weaken {A} cap n m (p : prog A) : (n <= m)%nat -> tame cap n p -> tame cap m p.
Proof.
  revert n m. induction p as [a|g k IH|g v k IH|w g e d k IH|g v k IH|g v k IH|off len k IH|off bs k IH|k IH|k IH|];
    intros n m Hle; cbn [tame]; try (intuition eauto; fail).
  destruct g; eauto. destruct n as [|n]; [done|]. destruct m as [|m]; [lia|].
  intros (? & ? & ? & ?). split_and!; eauto. eapply IH; [|done]. lia.
Qed.

Lemma tame_step1 {A} cap n spur s (p : prog A) s' p' :
  tame cap n p -> step1 spur s p = Step s' p' -> tame cap n p'.
Proof.
  destruct p as [a|f k|f v k|w f e d k|f v k|f v k|off len k|off bs k|k|k|]; cbn [tame step1]; intros Ht Hs;
    repeat case_match; simplify_eq; try (intuition; fail).
  destruct Ht as (_ & _ & Ht & _). eapply tame_weaken; [|done]. lia.
Qed.

Definition same_tail (s s' : shared) : Prop := load FTailReserve s = load FTailReserve s'.

#[export] Instance same_tail_pre : PreOrder same_tail.
Proof. split; [done | intros ? ? ?; unfold same_tail; congruence]. Qed.

(** What holds of the programs that calls start with and is kept by every access
    holds of all programs under way. *)
Lemma creach_progs {Op R} (body : Op -> prog (option R)) role allowed (D : prog (option R) -> Prop) s c :
  (forall t o, role t o = true -> D (body o)) ->
  (forall spur s p s' p', D p -> step1 spur s p = Step s' p' -> D p') ->
  creach body role allowed s c ->
  forall t o p, c_thr c !! t = Some (o, p) -> role t o = true /\ D p.
Proof.
  intros Hb Hd Hr. assert (Hc : map_Forall (fun t e => role t e.1 = true /\ D e.2) (c_thr c)).
  { unfold creach in Hr. revert c Hr. apply rtc_ind_r; [apply map_Forall_empty|].
    intros c1 c2 _ [a Ha _] H1. destruct c1 as [s1 thr log f]. simpl in H1.
    destruct a as [t o | t spur | d]; simpl in Ha.
    - destruct (thr !! t); [done|]. destruct (role t o) eqn:E; [|done]. injection Ha as <-. simpl.
      apply map_Forall_insert_2; [split; [done | by eapply Hb] | done].
    - destruct (thr !! t) as [[o p]|] eqn:E; [|done]. destruct (H1 _ _ E) as [Hro Hp]. simpl in Hro, Hp.
      destruct p as [[r|]| | | | | | | | | |].
      1: { injection Ha as <-. by apply map_Forall_delete. }
      1: { injection Ha as <-. apply map_Forall_insert_2; [split; [done | by eapply Hb] | done]. }
      all: destruct (step1 spur s1 _) as [s' p'| |] eqn:Es; [|done|]; injection Ha as <-;
        [apply map_Forall_insert_2; [split; [done | by eapply Hd] | done] | by apply map_Forall_delete].
    - destruct (0 <=? d); [|done]. by injection Ha as <-. }
  intros t o p Hp. apply (Hc t (o, p) Hp).
Qed.

Section Finish.
Context (cap : Z) (Hcap : cap_ok cap) (k : ring_kind)
  (Knows : list (nat * msg) -> list msg -> shared * ghost -> Prop)
  {Hoc : OneConsumer cap (body_of k cap) Knows}.

Abbreviation body := (body_of k cap).
Abbreviation step := (cstep body role no_wrap).
Abbreviation P := (P (Knows := Knows) [] 0%nat).
Abbreviation ok := (config_ok role no_wrap (Inv cap) (rely cap) P).

Definition all_ended (c : config (Op := op) (R := res)) : Prop :=
  forall t o p, c_thr c !! t = Some (o, p) -> exists a, p = Ret a.

Lemma body_tame t o : role t o = true -> tame cap 1 (body o).
Proof.
  destruct t as [|t], o as [data size type|out type sq]; try done; intros Hr.
  - pose proof (pop_tame k cap 1 out type sq) as Hp. apply (tame_pmap cap (option_map RPop)) in Hp.
    by destruct k, sq.
  - rewrite oc_push. by apply tame_pmap, writer_tame.
Qed.

(** What is known of a thread that has ended an iteration, or is between calls. *)
Lemma ended_P c g t :
  ok c g -> (forall o p, c_thr c !! t = Some (o, p) -> exists a, p = Ret a) -> exists l, P t l (c_sh c, g).
Proof.
  intros (_ & HI & Ht) He. specialize (Ht t). destruct (c_thr c !! t) as [[o p]|]; [|eauto].
  destruct (He o p eq_refl) as [a ->]. destruct Ht as [_ Hw]. specialize (Hw _ (reflexivity _) HI).
  destruct a as [r|]; simpl in Hw; eauto.
Qed.

Lemma ended_own c g t :
  ok c g -> (forall o p, c_thr c !! t = Some (o, p) -> exists a, p = Ret a) -> t <> O -> own t (gres g) = [].
Proof. intros Hc He Ht. destruct (ended_P c g t Hc He) as [l Hl]. destruct t; [done|]. apply Hl. Qed.

(** A thread that waits is behind another reservation. *)
Lemma waits_behind c g t o p :
  ok c g -> c_thr c !! t = Some (o, p) -> resting (c_sh c) p = true ->
  (exists a, p = Ret a) \/
  exists r, own t (gres g) = [r] /\ v_start r <> gTp g.
Proof.
  intros (_ & HI & Ht) Hp Hr. specialize (Ht t). rewrite Hp in Ht. destruct Ht as [_ Hw].
  destruct p as [a| | | | |f v q| | | | |]; try done; [by left; exists a | right]. simpl in Hr.
  destruct (load f (c_sh c) =? v) eqn:E; [done|]. bool_to_prop.
  destruct (Hw _ (reflexivity _) HI) as [Hwait _]. simpl in Hwait. unfold waits, writer_waits in Hwait.
  destruct f; try (by simpl in Hwait). destruct Hwait as (r & Ho & ->). exists r. split; [done|].
  intros Hs. destruct E. pose proof (i_tp _ _ HI) as Htp. simpl in Htp. rewrite Htp. by f_equal.
Qed.

Lemma nobody_waits c g :
  ok c g -> (forall t o p, c_thr c !! t = Some (o, p) -> resting (c_sh c) p = true) ->
  gres g = [] /\ all_ended c.
Proof.
  intros Hc Hr. assert (Hg : gres g = []).
  { pose proof Hc as (_ & HI & _). pose proof (i_chain _ _ HI) as Hch. pose proof (i_resv _ _ HI) as Hrs.
    simpl in Hch, Hrs. destruct (gres g) as [|r l] eqn:E; [done|]. destruct Hch as [Hs _].
    apply Forall_cons in Hrs as [Ht _].
    destruct (c_thr c !! v_tid r) as [[o p]|] eqn:Ep.
    - destruct (waits_behind _ _ _ _ _ Hc Ep (Hr _ _ _ Ep)) as [[a ->] | (r' & Ho & Hne)].
      + pose proof (ended_own c g (v_tid r) Hc) as Ho. rewrite E, own_cons_eq in Ho by done.
        discriminate Ho; [|done]. rewrite Ep. intros o' p' [= <- <-]. eauto.
      + rewrite E, own_cons_eq in Ho by done. by injection Ho as <- _.
    - pose proof (ended_own c g (v_tid r) Hc) as Ho. rewrite E, own_cons_eq in Ho by done.
      discriminate Ho; [|done]. by rewrite Ep. }
  split; [done|]. intros t o p Hp.
  destruct (waits_behind _ _ _ _ _ Hc Hp (Hr _ _ _ Hp)) as [? | (r & Ho & _)]; [done|].
  by rewrite Hg in Ho.
Qed.

(** When all iterations have ended the ring is quiescent. *)
Lemma ended_quiet c g :
  ok c g -> all_ended c ->
  exists q, quiet cap (c_sh c) (gH g) (gTr g) (Z.of_nat (length (gpub g))) q.
Proof.
  intros Hc He. destruct (nobody_waits c g Hc) as [Hg _].
  { intros t o p Hp. by destruct (He t o p Hp) as [a ->]. }
  destruct (ended_P c g O Hc (He O)) as (l & pop & Hk & _). pose proof (oc_rest _ _ _ Hk) as Hrest.
  destruct Hc as (_ & [Hlen Hh Htp Htr Hpos Hch (xs & Hseg & _) _ Hsq _ _] & _). simpl in *.
  rewrite Hg in Hch, Hsq. simpl in Hch, Hsq. rewrite Z.add_0_r in Hsq. rewrite Hch in *.
  exists xs. split; simpl; auto. lia.
Qed.

(** The calls under way. *)
Definition under_way (c : config (Op := op) (R := res)) : list (nat * op) :=
  map_to_list (fst <$> c_thr c).

(** The calls of a part of the log. *)
Definition calls (l : list (nat * (op * res))) : list (nat * op) := (fun e => (e.1, e.2.1)) <$> l.

Lemma under_way_delete s thr log f s' log' f' t o p :
  thr !! t = Some (o, p) ->
  under_way (Config s thr log f) ≡ₚ (t, o) :: under_way (Config s' (delete t thr) log' f').
Proof.
  intros Ht. unfold under_way. simpl. rewrite fmap_delete.
  rewrite <- (insert_delete_id (fst <$> thr) t o) at 1 by (by rewrite lookup_fmap, Ht).
  apply map_to_list_insert, lookup_delete_eq.
Qed.

(** One call whose iteration has ended returns. *)
Lemma finish_one c g t o p :
  ok c g -> all_ended c -> c_thr c !! t = Some (o, p) -> headroom (4 * cap) (c_sh c) ->
  exists r s', let c' := Config s' (delete t (c_thr c)) (c_log c ++ [(t, (o, r))]) (c_fault c) in
    rtc step c c' /\ load FTailReserve (c_sh c) <= load FTailReserve s' <= load FTailReserve (c_sh c) + 4 * cap.
Proof.
  intros Hc He Ht Hh. pose proof (He t o p Ht) as [a ->]. pose proof (proj1 Hcap) as Hc0.
  pose proof Hc as (_ & HI & Hth). specialize (Hth t). rewrite Ht in Hth. destruct Hth as [Hrole _].
  destruct c as [s thr log f]. cbn [c_sh c_thr c_log c_fault] in *. destruct a as [r|].
  { exists r, s. split; [|lia]. apply rtc_once, (cstep_intro _ _ _ _ _ (AStep t false)); [|unfold no_wrap; simpl; lia].
    simpl. by rewrite Ht. }
  destruct (ended_quiet _ _ Hc He) as [q Hq]. cbn [c_sh] in Hq. pose proof (i_pos _ _ HI) as Hpos.
  pose proof (q_tr _ _ _ _ _ _ Hq) as Htr. simpl in Hpos. unfold headroom in Hh.
  rewrite Htr, u64_small in Hh by (pose proof (q_pos _ _ _ _ _ _ Hq); lia).
  destruct (seq_call_ok cap Hcap k o s (gH g) (gTr g) (Z.of_nat (length (gpub g))) q)
    as (r & s' & _ & _ & _ & _ & E & _); [by destruct t, o | done | left; lia |].
  apply body_call in E as [sp E].
  destruct (alone_run body role cap (proj1 Hc0) t o (delete t thr) log f 2 s r s' sp) as [Hr Hb];
    [apply lookup_delete_eq | done | by eapply body_tame | |].
  { unfold headroom. rewrite Htr, u64_small; [lia|]. pose proof (q_pos _ _ _ _ _ _ Hq). lia. }
  rewrite insert_delete_id in Hr by done. exists r, s'. split; [done|]. lia.
Qed.

Lemma finish_all n c g :
  length (under_way c) = n -> ok c g -> all_ended c -> headroom (4 * cap * Z.of_nat n) (c_sh c) ->
  exists c' new, rtc step c c' /\ c_thr c' = ∅ /\ c_log c' = c_log c ++ new /\ calls new ≡ₚ under_way c.
Proof.
  revert c g. induction n as [|n IH]; intros c g Hn Hc He Hh.
  { exists c, []. unfold under_way in *. apply length_zero_iff_nil in Hn. rewrite Hn.
    split_and!; [apply rtc_refl | | by rewrite app_nil_r | done].
    apply map_to_list_empty_iff in Hn. by apply fmap_empty_inv in Hn. }
  destruct (under_way c) as [|[t o] l] eqn:El; [done|].
  assert (Ht : exists p, c_thr c !! t = Some (o, p)).
  { assert (Hin : (t, o) ∈ under_way c) by (rewrite El; left).
    apply elem_of_map_to_list in Hin. rewrite lookup_fmap in Hin.
    destruct (c_thr c !! t) as [[o' p]|] eqn:E; [|done]. simpl in Hin. injection Hin as ->. eauto. }
  destruct Ht as [p Ht]. pose proof (proj1 Hcap) as Hc0.
  destruct (finish_one c g t o p Hc He Ht) as (r & s' & Hs & Hb); [unfold headroom in *; nia|].
  set (c1 := Config s' _ _ _) in Hs.
  assert (Hp : (t, o) :: under_way c1 ≡ₚ under_way c).
  { destruct c as [s thr log f]. symmetry. by eapply under_way_delete. }
  destruct (config_ok_steps body role no_wrap (Inv cap) (rely cap) P (oc_P_stable _ _) (oc_body_ok _ _)
    (wr_tick_ok cap) c c1 g Hc Hs) as (g1 & Hc1 & _).
  destruct (IH c1 g1) as (c' & new & Hs' & Hi & Hl & Hnew); auto.
  - apply Permutation_length in Hp. rewrite El in Hp. simpl in *. lia.
  - intros t' o' p' Hp'. simpl in Hp'. apply lookup_delete_Some in Hp' as [_ Hp']. eauto.
  - unfold headroom in *. simpl c_sh. nia.
  - exists c', ((t, (o, r)) :: new). rewrite <- El, <- Hp. split_and!; [by etrans | done | |].
    + rewrite Hl. simpl. by rewrite <- app_assoc.
    + simpl. by rewrite Hnew.
Qed.

Lemma finish_pending s c :
  fresh cap s -> creach body role no_wrap s c ->
  headroom (4 * cap * Z.of_nat (length (under_way c))) (c_sh c) ->
  exists c' new, rtc step c c' /\ c_thr c' = ∅ /\ c_log c' = c_log c ++ new /\ calls new ≡ₚ under_way c.
Proof.
  intros Hf Hr Hh. destruct (oc_reach s c Hf Hr) as [g Hc].
  destruct (to_rest body role no_wrap (Inv cap) (rely cap) P (oc_P_stable _ _) (oc_body_ok _ _) (wr_tick_ok cap)
    same_tail (tame cap 1)) with (c := c) (g := g)
    as (c1 & g1 & Hs1 & Hc1 & Hk1 & Hl1 & Hm1 & Hz1); auto.
  - intros ? ?. unfold same_tail, no_wrap. lia.
  - intros ? ? ? ?. apply tame_failing.
  - intros t o p Hp. by eapply (creach_progs body role no_wrap (tame cap 1)); eauto using body_tame, tame_step1.
  - destruct (nobody_waits c1 g1 Hc1 Hz1) as [_ He].
    assert (Hu : under_way c1 = under_way c) by (unfold under_way; by rewrite Hm1).
    destruct (finish_all _ c1 g1 eq_refl Hc1 He) as (c' & new & Hs' & Hi & Hl & Hnew).
    { unfold headroom, same_tail in *. by rewrite Hu, <- Hk1. }
    exists c', new. rewrite <- Hu. split_and!; [by etrans | done | congruence | done].
Qed.
End Finish.

(** C7: no deadlock in the rings with a shared writer.  From every configuration that
    any number of producers and one consumer can reach on a fresh MPSC or MPMC
    ring (producers may wait for each other's reservations, lose
    compare-exchanges, and stand at any access), some continuation completes
    exactly the calls under way: afterwards no thread is inside a call, and the
    log has grown by one entry for each call that was.  The calls may reserve
    [4 * cap] bytes each, which must fit in front of [2^64]. *)
Theorem pending_calls_complete cap body s c :
  body = MpscRing.body \/ body = MpmcRing.body -> cap_ok cap -> fresh cap s ->
  creach (body cap) role no_wrap s c ->
  headroom (4 * cap * Z.of_nat (length (under_way c))) (c_sh c) ->
  exists c' new, rtc (cstep (body cap) role no_wrap) c c' /\ c_thr c' = ∅ /\
    c_log c' = c_log c ++ new /\ calls new ≡ₚ under_way c.
Proof.
  intros [-> | ->] Hc.
  - apply (finish_pending cap Hc MPSC Rests (Hoc := mpsc_one_consumer cap Hc)).
  - apply (finish_pending cap Hc MPMC Rests (Hoc := mpmc_single cap Hc)).
Qed.

(** Producer 1 has reserved a record and not filled it in; producer 2 has filled in
    the next one and waits for producer 1; producer 3 has loaded both counters
    before either of them reserved, and its compare-exchange will fail. *)
Definition waiting_schedule : list act :=
  [AStart 3 (OPush (Some [x65]) 1 5)] ++ steps 3 2 ++
  [AStart 1 (OPush (Some [x61; x62; x63]) 3 7)] ++ steps 1 4 ++
  [AStart 2 (OPush (Some [x64]) 1 9)] ++ steps 2 12 ++ [AStart 0 (OPop [] 0 None)] ++ steps 0 1.

Definition waits_for (t : nat) (c : config (Op := op) (R := res)) : option (field * Z) :=
  match c_thr c !! t with Some (_, Await f v _) => Some (f, v) | _ => None end.

Lemma pending_calls_complete_witness :
  let c := after (MpmcRing.body 64) role waiting_schedule (init_config ring64) in
  waits_for 2 c = Some (FTailPublish, 24) /\
  load FTailPublish (c_sh c) = 0 /\ length (under_way c) = 4%nat /\
  exists c' new, rtc (cstep (MpmcRing.body 64) role no_wrap) c c' /\ c_thr c' = ∅ /\
    c_log c' = c_log c ++ new /\ calls new ≡ₚ under_way c.
Proof.
  intros c. split; [vm_compute; reflexivity|]. split; [vm_compute; reflexivity|].
  split; [vm_compute; reflexivity|].
  apply (pending_calls_complete 64 MpmcRing.body ring64 c); [by right | apply cap_ok_64 | by split | |].
  - apply (crun_checked_after _ _ _ monotone); [apply monotone_allowed | vm_compute; reflexivity].
  - vm_compute. split; [discriminate | reflexivity].
Defined.
