(* ===== verification/Mapping.v ===== *)
(** * shared_memory_mapping.cpp: creating and opening mapped files

    [detail::Mapping] owns a file descriptor and a memory mapping;
    [create_mapping] and [open_mapping] build one from a path, and close what
    they have opened when a later step fails.  The operating system is a
    parameter: [Syscalls] are the calls the code makes, [Posix] what their
    documentation says about the files, descriptors and mappings of the
    process. *)

From Stdlib Require Import ZArith Lia Strings.Byte.
From stdpp Require Import base list numbers gmap strings.
From S2P Require Import Prelude Memory Layout Prog Records.

(** ** The operating system *)

(** Files have contents; directory entries, descriptors and mappings refer to
    files.  A mapping has an address and a length. *)
Record world := mkWorld {
  inodes : gmap nat (list byte);
  dir : gmap string nat;
  fds : gmap Z nat;
  maps : gmap Z (nat * Z);
}.

Definition with_inodes (f : gmap nat (list byte)) (w : world) : world :=
  mkWorld f (dir w) (fds w) (maps w).
Definition with_fds (f : gmap Z nat) (w : world) : world :=
  mkWorld (inodes w) (dir w) f (maps w).
Definition with_maps (f : gmap Z (nat * Z)) (w : world) : world :=
  mkWorld (inodes w) (dir w) (fds w) f.

(** [open] with [O_CREAT | O_EXCL] or without, [ftruncate], the size [fstat]
    reports, [mmap] with [MAP_SHARED] at offset 0, [munmap] and [close]. *)
Record Syscalls := mkSyscalls {
  sys_open : string -> bool -> world -> option Z * world;
  sys_ftruncate : Z -> Z -> world -> bool * world;
  sys_fstat : Z -> world -> option Z;
  sys_mmap : Z -> Z -> world -> option Z * world;
  sys_munmap : Z -> Z -> world -> world;
  sys_close : Z -> world -> world;
}.

(** Truncating or extending a file with zero bytes. *)
Definition resize_file (bs : list byte) (n : Z) : list byte :=
  take (Z.to_nat n) bs ++ replicate (Z.to_nat n - length bs) x00.

(** What the manual pages promise.  Any call may fail; a call that fails
    changes nothing. *)
Record Posix (sys : Syscalls) : Prop := {
  open_create : forall p w fd w', sys_open sys p true w = (Some fd, w') ->
    dir w !! p = None /\ 0 <= fd /\ fds w !! fd = None /\
    exists i, inodes w !! i = None /\
      w' = mkWorld (<[i := []]> (inodes w)) (<[p := i]> (dir w)) (<[fd := i]> (fds w)) (maps w);
  open_existing : forall p w fd w', sys_open sys p false w = (Some fd, w') ->
    0 <= fd /\ fds w !! fd = None /\
    exists i bs, dir w !! p = Some i /\ inodes w !! i = Some bs /\
      w' = with_fds (<[fd := i]> (fds w)) w;
  open_fails : forall p c w w', sys_open sys p c w = (None, w') -> w' = w;
  ftruncate_ok : forall fd n w w', sys_ftruncate sys fd n w = (true, w') ->
    0 <= n /\ exists i bs, fds w !! fd = Some i /\ inodes w !! i = Some bs /\
      w' = with_inodes (<[i := resize_file bs n]> (inodes w)) w;
  ftruncate_fails : forall fd n w w', sys_ftruncate sys fd n w = (false, w') -> w' = w;
  fstat_size : forall fd w n, sys_fstat sys fd w = Some n ->
    exists i bs, fds w !! fd = Some i /\ inodes w !! i = Some bs /\ n = Z.of_nat (length bs);
  mmap_ok : forall fd n w a w', sys_mmap sys fd n w = (Some a, w') ->
    0 < n /\ 0 < a /\ maps w !! a = None /\
    exists i, fds w !! fd = Some i /\ w' = with_maps (<[a := (i, n)]> (maps w)) w;
  mmap_fails : forall fd n w w', sys_mmap sys fd n w = (None, w') -> w' = w;
  munmap_ok : forall a n w i, maps w !! a = Some (i, n) ->
    sys_munmap sys a n w = with_maps (delete a (maps w)) w;
  close_ok : forall fd w i, fds w !! fd = Some i ->
    sys_close sys fd w = with_fds (delete fd (fds w)) w;
}.

(** ** Effects *)

(** [throw_errno] and [throw std::runtime_error], by their messages. *)
Inductive exn := Errno (message : string) | RuntimeError (message : string).

(** A call returns, throws, or has undefined behaviour (an access outside a
    mapping, or beyond the end of the mapped file). *)
Inductive result (A : Type) : Type :=
| Ok (a : A)
| Throw (e : exn)
| UB.
Arguments Ok {A} a.
Arguments Throw {A} e.
Arguments UB {A}.

Definition M (A : Type) : Type := world -> result A * world.

#[export] Instance M_ret : MRet M := fun A a w => (Ok a, w).
#[export] Instance M_bind : MBind M := fun A B f m w =>
  match m w with
  | (Ok a, w') => f a w'
  | (Throw e, w') => (Throw e, w')
  | (UB, w') => (UB, w')
  end.

Definition throw {A} (e : exn) : M A := fun w => (Throw e, w).

(** The bytes [off, off + n) of the mapping at [a]. *)
Definition map_file (a : Z) (w : world) : option (nat * Z * list byte) :=
  match maps w !! a with
  | Some (i, n) => match inodes w !! i with Some bs => Some (i, n, bs) | None => None end
  | None => None
  end.

Definition map_read (a off n : Z) : M (list byte) := fun w =>
  match map_file a w with
  | Some (i, len, bs) =>
      if off + n <=? len then
        match mem_read bs off n with Some r => (Ok r, w) | None => (UB, w) end
      else (UB, w)
  | None => (UB, w)
  end.

Definition map_write (a off : Z) (r : list byte) : M unit := fun w =>
  match map_file a w with
  | Some (i, len, bs) =>
      if off + Z.of_nat (length r) <=? len then
        match mem_write bs off r with
        | Some bs' => (Ok tt, with_inodes (<[i := bs']> (inodes w)) w)
        | None => (UB, w)
        end
      else (UB, w)
  | None => (UB, w)
  end.

Definition map_read_uint (a off : Z) (n : nat) : M Z :=
  bs ← map_read a off (Z.of_nat n); mret (le_dec bs).

Definition map_write_uint (a off : Z) (n : nat) (v : Z) : M unit :=
  map_write a off (le_enc n v).

(** ** [detail::Mapping] *)

(** Pointers are addresses; 0 is the null pointer. *)
Record Mapping := mkMapping {
  fd : Z;
  mapping : Z;
  mapping_size : Z;
  header : Z;
  control : Z;
  ring_ptr : Z;
  capacity : Z;
}.

Definition empty_mapping : Mapping := mkMapping (-1) 0 0 0 0 0 0.

(** Member offsets inside [Header] and [ControlBlock]. *)
Definition off_magic : Z := 0.
Definition off_version : Z := 4.
Definition off_header_size : Z := 6.
Definition off_capacity_bytes : Z := 8.
Definition off_control_offset : Z := 16.
Definition off_ring_offset : Z := 24.
Definition off_alignment : Z := 32.
Definition off_header_flags : Z := 40.

Definition off_field (f : field) : Z :=
  match f with
  | FHeadReserve => 0
  | FHeadPublish => 1 * sizeof_PaddedAtomicU64
  | FTailReserve => 2 * sizeof_PaddedAtomicU64
  | FTailPublish => 3 * sizeof_PaddedAtomicU64
  | FSequence => 4 * sizeof_PaddedAtomicU64
  end.

Section WithOs.
Context (sys : Syscalls).

Definition open_file_create (path : string) : M Z := fun w =>
  match sys_open sys path true w with
  | (Some fd, w') => (Ok fd, w')
  | (None, w') => (Throw (Errno "open (create) failed"), w')
  end.

Definition open_file_existing (path : string) : M Z := fun w =>
  match sys_open sys path false w with
  | (Some fd, w') => (Ok fd, w')
  | (None, w') => (Throw (Errno "open failed"), w')
  end.

Definition ftruncate (fd n : Z) : M bool := fun w =>
  let '(ok, w') := sys_ftruncate sys fd n w in (Ok ok, w').
Definition fstat (fd : Z) : M (option Z) := fun w => (Ok (sys_fstat sys fd w), w).
Definition mmap (fd n : Z) : M (option Z) := fun w =>
  let '(a, w') := sys_mmap sys fd n w in (Ok a, w').
Definition munmap (a n : Z) : M unit := fun w => (Ok tt, sys_munmap sys a n w).
Definition close (fd : Z) : M unit := fun w => (Ok tt, sys_close sys fd w).

(** [Mapping::reset] (also the destructor), with the emptied object. *)
Definition reset (m : Mapping) : M Mapping :=
  (if negb (mapping m =? 0) && (mapping_size m >? 0)
   then munmap (mapping m) (mapping_size m) else mret tt) ≫= fun _ =>
  (if fd m >=? 0 then close (fd m) else mret tt) ≫= fun _ =>
  mret empty_mapping.

(** The move assignment: the new values of [*this] and [other].  [same] says
    whether they are one object. *)
Definition move_assign (same : bool) (this other : Mapping) : M (Mapping * Mapping) :=
  if same then mret (this, other) else
  _ ← reset this; mret (other, empty_mapping).

Definition move_construct (other : Mapping) : M (Mapping * Mapping) :=
  move_assign false empty_mapping other.

(** A size as an [off_t]. *)
Definition as_off_t (n : Z) : Z := if n <? 2 ^ 63 then n else n - 2 ^ 64.

(** The part of [create_mapping] that fills in the mapped file; it returns the
    offsets of the control block and of the ring, read back from the header. *)
Definition init_mapping (mapping mapping_size cap header_size ring_offset flags : Z) : M (Z * Z) :=
  _ ← map_write mapping 0 (replicate (Z.to_nat mapping_size) x00);
  _ ← map_write_uint mapping off_magic 4 kMagic;
  _ ← map_write_uint mapping off_version 2 kVersion;
  _ ← map_write_uint mapping off_header_size 2 (u16 sizeof_Header);
  _ ← map_write_uint mapping off_capacity_bytes 8 cap;
  _ ← map_write_uint mapping off_control_offset 8 header_size;
  _ ← map_write_uint mapping off_ring_offset 8 ring_offset;
  _ ← map_write_uint mapping off_alignment 8 kAlignment;
  _ ← map_write_uint mapping off_header_flags 8 flags;
  control_offset ← map_read_uint mapping off_control_offset 8;
  _ ← map_write_uint mapping (control_offset + off_field FHeadReserve) 8 0;
  _ ← map_write_uint mapping (control_offset + off_field FHeadPublish) 8 0;
  _ ← map_write_uint mapping (control_offset + off_field FTailReserve) 8 0;
  _ ← map_write_uint mapping (control_offset + off_field FTailPublish) 8 0;
  _ ← map_write_uint mapping (control_offset + off_field FSequence) 8 0;
  ring_off ← map_read_uint mapping off_ring_offset 8;
  mret (control_offset, ring_off).

Definition create_mapping (path : string) (capacity_bytes flags : Z) : M Mapping :=
  if capacity_bytes =? 0 then throw (RuntimeError "capacity_bytes must be > 0") else
  let cap := align_up capacity_bytes kAlignment in
  let header_size := header_region_size in
  let control_size := control_region_size in
  let ring_offset := add64 header_size control_size in
  let mapping_size := add64 ring_offset cap in
  fd ← open_file_create path;
  ok ← ftruncate fd (as_off_t mapping_size);
  if negb ok then _ ← close fd; throw (Errno "ftruncate failed") else
  m ← mmap fd mapping_size;
  match m with
  | None => _ ← close fd; throw (Errno "mmap failed")
  | Some mapping =>
      '(control_offset, ring_off) ← init_mapping mapping mapping_size cap header_size ring_offset flags;
      mret (mkMapping fd mapping mapping_size mapping (mapping + control_offset)
              (mapping + ring_off) cap)
  end.

Definition open_mapping (path : string) (expected_flags : Z) : M Mapping :=
  fd ← open_file_existing path;
  st ← fstat fd;
  match st with
  | None => _ ← close fd; throw (Errno "fstat failed")
  | Some st_size =>
  if st_size <? sizeof_Header
  then _ ← close fd; throw (RuntimeError "shared memory file too small") else
  let mapping_size := st_size in
  m ← mmap fd mapping_size;
  match m with
  | None => _ ← close fd; throw (Errno "mmap failed")
  | Some mapping =>
  let fail message : M Mapping :=
    _ ← munmap mapping mapping_size; _ ← close fd; throw (RuntimeError message) in
  magic ← map_read_uint mapping off_magic 4;
  if negb (magic =? kMagic) then fail "invalid ring buffer magic" else
  version ← map_read_uint mapping off_version 2;
  if negb (version =? kVersion) then fail "unsupported ring buffer version" else
  flags ← map_read_uint mapping off_header_flags 8;
  if negb (flags =? expected_flags) then fail "ring buffer mode mismatch" else
  cap ← map_read_uint mapping off_capacity_bytes 8;
  ring_offset ← map_read_uint mapping off_ring_offset 8;
  control_offset ← map_read_uint mapping off_control_offset 8;
  if add64 ring_offset cap >? mapping_size
  then fail "ring buffer mapping size mismatch" else
  if add64 control_offset sizeof_ControlBlock >? mapping_size
  then fail "ring buffer control block out of range" else
  mret (mkMapping fd mapping mapping_size mapping (mapping + control_offset)
          (mapping + ring_offset) cap)
  end
  end.
End WithOs.

(** The control block and ring a [Mapping] gives access to, in the bytes of
    the mapped file. *)
Definition shared_at (bs : list byte) (control_offset ring_offset cap : Z) : shared :=
  let f x := member bs (Z.to_nat (control_offset + off_field x)) 8 in
  mkShared (mkControl (f FHeadReserve) (f FHeadPublish) (f FTailReserve) (f FTailPublish)
              (f FSequence))
    (take (Z.to_nat cap) (drop (Z.to_nat ring_offset) bs)) 0.

(** ** Reasoning about mapped files *)

Lemma bind_ok {A B} (m : M A) (f : A -> M B) w a w' :
  m w = (Ok a, w') -> (m ≫= f) w = f a w'.
Proof. intros E. unfold mbind, M_bind. by rewrite E. Qed.

Lemma bind_throw {A B} (m : M A) (f : A -> M B) w e w' :
  m w = (Throw e, w') -> (m ≫= f) w = (Throw e, w').
Proof. intros E. unfold mbind, M_bind. by rewrite E. Qed.

(** The world with the contents of one file replaced. *)
Definition set_file (i : nat) (bs : list byte) (w : world) : world :=
  with_inodes (<[i := bs]> (inodes w)) w.

Lemma set_file_twice i bs bs' w : set_file i bs' (set_file i bs w) = set_file i bs' w.
Proof. unfold set_file, with_inodes. simpl. by rewrite insert_insert_eq. Qed.

Lemma map_write_ok a i len off r bs w :
  maps w !! a = Some (i, len) -> 0 <= off -> off + Z.of_nat (length r) <= len ->
  off + Z.of_nat (length r) <= Z.of_nat (length bs) ->
  map_write a off r (set_file i bs w) = (Ok tt, set_file i (splice bs off r) w).
Proof.
  intros Hm Ho Hl Hb. unfold map_write, map_file. simpl. rewrite Hm, lookup_insert_eq.
  rewrite (proj2 (Z.leb_le _ _)), mem_write_Some by lia. f_equal. apply set_file_twice.
Qed.

Lemma map_read_ok a i len off n bs w :
  maps w !! a = Some (i, len) -> inodes w !! i = Some bs -> 0 <= off -> 0 <= n ->
  off + n <= len -> off + n <= Z.of_nat (length bs) ->
  map_read a off n w = (Ok (take (Z.to_nat n) (drop (Z.to_nat off) bs)), w).
Proof.
  intros Hm Hi Ho Hn Hl Hb. unfold map_read, map_file. rewrite Hm, Hi.
  by rewrite (proj2 (Z.leb_le _ _)), mem_read_Some by lia.
Qed.

Lemma map_read_uint_ok a i len off n bs w :
  maps w !! a = Some (i, len) -> inodes w !! i = Some bs -> 0 <= off ->
  off + Z.of_nat n <= len -> off + Z.of_nat n <= Z.of_nat (length bs) ->
  map_read_uint a off n w = (Ok (member bs (Z.to_nat off) n), w).
Proof.
  intros. unfold map_read_uint. erewrite bind_ok by (eapply map_read_ok; eauto; lia).
  unfold member. by rewrite Nat2Z.id.
Qed.

(** Writing zero-initialised memory from front to back. *)
Lemma splice_zeros pre n r :
  (length r <= n)%nat ->
  splice (pre ++ replicate n x00) (Z.of_nat (length pre)) r =
    (pre ++ r) ++ replicate (n - length r) x00.
Proof.
  intros Hl. unfold splice. rewrite Nat2Z.id, take_app_length.
  rewrite drop_app_ge, drop_replicate by lia. rewrite <- app_assoc. do 3 f_equal. lia.
Qed.

Lemma splice_same m off r :
  0 <= off -> mem_read m off (Z.of_nat (length r)) = Some r -> splice m off r = m.
Proof.
  intros Ho Hm. unfold splice.
  assert (Hr : r = take (length r) (drop (Z.to_nat off) m)).
  { unfold mem_read in Hm. rewrite Nat2Z.id in Hm. by repeat case_match; simplify_eq. }
  rewrite Hr at 1. rewrite <- drop_drop, take_drop, take_drop. done.
Qed.

(** Zero stores to memory that is zero. *)
Lemma splice_zero_id pre n off k :
  Z.of_nat (length pre) <= off -> off + Z.of_nat k <= Z.of_nat (length pre + n) ->
  splice (pre ++ replicate n x00) off (replicate k x00) = pre ++ replicate n x00.
Proof.
  intros Hl Hk. apply splice_same; [lia|]. rewrite length_replicate.
  rewrite mem_read_Some by (rewrite ?length_app, ?length_replicate; lia).
  rewrite drop_app_ge, drop_replicate, Nat2Z.id, take_replicate by lia. do 2 f_equal. lia.
Qed.

(** *** The contents of a created file *)

Definition created_header (cap flags : Z) : Header :=
  mkHeader kMagic kVersion sizeof_Header cap header_region_size
    (add64 header_region_size control_region_size) kAlignment flags.

Definition image (cap flags : Z) : list byte :=
  Header_bytes (created_header cap flags) ++ replicate (Z.to_nat (336 + cap)) x00.

Lemma created_header_wf cap flags :
  0 <= cap < 2 ^ 64 -> 0 <= flags < 2 ^ 64 -> Header_wf (created_header cap flags).
Proof. intros. unfold Header_wf. simpl. by repeat split; try lia. Qed.

(** A member of the header of a created file. *)
Lemma member_app bs rest off n :
  (off + n <= length bs)%nat -> member (bs ++ rest) off n = member bs off n.
Proof.
  intros. unfold member. rewrite drop_app_le, take_app_le by (rewrite ?length_drop; lia). done.
Qed.

Lemma image_header cap flags :
  0 <= cap < 2 ^ 64 -> 0 <= flags < 2 ^ 64 ->
  Header_of_bytes (image cap flags) = created_header cap flags.
Proof.
  intros Hc Hf. rewrite <- (Header_of_to_bytes (created_header cap flags))
    by (by apply created_header_wf).
  pose proof (length_Header_bytes (created_header cap flags)).
  unfold Header_of_bytes, image. by rewrite !member_app by lia.
Qed.

Lemma length_image cap flags : 0 <= cap -> Z.of_nat (length (image cap flags)) = 384 + cap.
Proof.
  intros. unfold image. rewrite length_app, length_replicate, length_Header_bytes. lia.
Qed.

(** One store to a file whose tail is still zero. *)
Lemma write_front a i len pre n k v w :
  maps w !! a = Some (i, len) -> (k <= n)%nat -> Z.of_nat (length pre + n) <= len ->
  map_write_uint a (Z.of_nat (length pre)) k v (set_file i (pre ++ replicate n x00) w) =
    (Ok tt, set_file i ((pre ++ le_enc k v) ++ replicate (n - k) x00) w).
Proof.
  intros Hm Hk Hl. unfold map_write_uint.
  rewrite (map_write_ok a i len) by
    (rewrite ?length_app, ?length_replicate, ?length_le_enc; auto; lia).
  rewrite splice_zeros by (rewrite length_le_enc; lia). by rewrite length_le_enc.
Qed.

(** A zero store to it. *)
Lemma write_zero a i len pre n off k w :
  maps w !! a = Some (i, len) -> Z.of_nat (length pre) <= off ->
  off + Z.of_nat k <= Z.of_nat (length pre + n) -> Z.of_nat (length pre + n) <= len ->
  map_write_uint a off k 0 (set_file i (pre ++ replicate n x00) w) =
    (Ok tt, set_file i (pre ++ replicate n x00) w).
Proof.
  intros Hm Ho Hk Hl. unfold map_write_uint.
  rewrite (map_write_ok a i len) by
    (rewrite ?length_app, ?length_replicate, ?length_le_enc; auto; lia).
  assert (Hz : forall j, le_enc j 0 = replicate j x00).
  { induction j as [|j IH]; [done|]. cbn [le_enc replicate]. change (0 / 256) with 0. by rewrite IH. }
  by rewrite Hz, splice_zero_id.
Qed.

Lemma init_mapping_ok a i cap flags bs w :
  maps w !! a = Some (i, 384 + cap) -> 0 <= cap < 2 ^ 63 -> 0 <= flags < 2 ^ 64 ->
  Z.of_nat (length bs) = 384 + cap ->
  init_mapping a (384 + cap) cap 64 384 flags (set_file i bs w) =
    (Ok (64, 384), set_file i (image cap flags) w).
Proof.
  intros Hm Hc Hf Hl. unfold init_mapping.
  set (N := Z.to_nat (384 + cap)). assert (HN : Z.of_nat N = 384 + cap) by lia.
  erewrite bind_ok by (apply (map_write_ok a i (384 + cap)); auto; rewrite ?length_replicate; lia).
  replace (splice bs 0 (replicate N x00)) with ([] ++ replicate N x00).
  2: { unfold splice. simpl. rewrite length_replicate, drop_ge by lia. by rewrite app_nil_r. }
  do 8 (erewrite bind_ok by (apply (write_front a i (384 + cap)); auto;
    rewrite ?length_app, ?length_le_enc; simpl length; lia)).
  match goal with |- context [set_file i (?pre ++ _) w] => set (hdr := pre) end.
  assert (Hh : hdr = Header_bytes (created_header cap flags)).
  { unfold hdr, Header_bytes. rewrite <- !app_assoc. done. }
  replace (N - 4 - 2 - 2 - 8 - 8 - 8 - 8 - 8)%nat with (Z.to_nat (336 + cap)) by lia.
  rewrite Hh. fold (image cap flags). set (w1 := set_file i (image cap flags) w).
  assert (Hm1 : maps w1 !! a = Some (i, 384 + cap)) by done.
  assert (Hi1 : inodes w1 !! i = Some (image cap flags)) by (unfold w1; simpl; apply lookup_insert_eq).
  pose proof (image_header cap flags ltac:(lia) Hf) as Hhd.
  pose proof (length_image cap flags ltac:(lia)) as Hli.
  assert (Hco : member (image cap flags) 16 8 = 64) by exact (f_equal h_control_offset Hhd).
  assert (Hro : member (image cap flags) 24 8 = 384) by exact (f_equal h_ring_offset Hhd).
  erewrite bind_ok by (apply (map_read_uint_ok a i (384 + cap)); eauto; unfold off_control_offset; lia).
  change (Z.to_nat off_control_offset) with 16%nat. rewrite Hco.
  unfold w1, image.
  do 5 (erewrite bind_ok by (apply (write_zero a i (384 + cap)); auto;
    rewrite length_Header_bytes; unfold off_field, sizeof_PaddedAtomicU64, kCacheLineSize; lia)).
  fold (image cap flags). fold w1.
  erewrite bind_ok by (apply (map_read_uint_ok a i (384 + cap)); eauto; unfold off_ring_offset; lia).
  change (Z.to_nat off_ring_offset) with 24%nat. by rewrite Hro.
Qed.

Section Mappings.
Context (sys : Syscalls) (Hos : Posix sys).

(** The world after a successful creation: one more file, named [path], one
    more descriptor and one more mapping. *)
Definition created (path : string) (cap flags : Z) (i : nat) (fdv a : Z) (w : world) : world :=
  mkWorld (<[i := image cap flags]> (inodes w)) (<[path := i]> (dir w))
    (<[fdv := i]> (fds w)) (<[a := (i, 384 + cap)]> (maps w)).

(** The world after a failed creation: at most a file has been left behind. *)
Definition leftover (path : string) (w w' : world) : Prop :=
  w' = w \/ exists i bs, dir w !! path = None /\ inodes w !! i = None /\
    w' = mkWorld (<[i := bs]> (inodes w)) (<[path := i]> (dir w)) (fds w) (maps w).

Lemma create_sizes c : 0 < c < 2 ^ 63 ->
  let cap := align_up c kAlignment in
  c <= cap < c + 8 /\ (8 | cap) /\
  add64 (add64 header_region_size control_region_size) cap = 384 + cap.
Proof.
  intros Hc cap. unfold cap. rewrite align_up_8 by lia.
  split; [dlia | split; [apply Z.divide_factor_l|]].
  change (add64 header_region_size control_region_size) with 384.
  unfold add64. apply u64_small. dlia.
Qed.

Lemma as_off_t_id n : 0 <= as_off_t n -> n < 2 ^ 64 -> n < 2 ^ 63 /\ as_off_t n = n.
Proof. unfold as_off_t. case_if; lia. Qed.

Lemma create_mapping_cases path c flags w :
  0 < c < 2 ^ 63 -> 0 <= flags < 2 ^ 64 ->
  let cap := align_up c kAlignment in
  (exists i fdv a, create_mapping sys path c flags w =
      (Ok (mkMapping fdv a (384 + cap) a (a + 64) (a + 384) cap), created path cap flags i fdv a w) /\
    dir w !! path = None /\ inodes w !! i = None /\ fds w !! fdv = None /\ maps w !! a = None /\
    0 <= fdv /\ 0 < a) \/
  (exists e w', create_mapping sys path c flags w = (Throw e, w') /\ leftover path w w').
Proof.
  intros Hc Hf cap. destruct (create_sizes c Hc) as (Hcap & _ & Hsz). fold cap in Hcap, Hsz.
  unfold create_mapping. fold cap. rewrite (proj2 (Z.eqb_neq c 0)), Hsz by lia.
  unfold open_file_create.
  destruct (sys_open sys path true w) as [[fdv|] w1] eqn:E1.
  2: { right. eexists _, _. split; [erewrite bind_throw by (by rewrite E1); reflexivity|].
    left. by apply (open_fails sys Hos) in E1. }
  erewrite bind_ok by (by rewrite E1).
  destruct (open_create sys Hos _ _ _ _ E1) as (Hd & Hfd & Hfds & i & Hi & ->).
  set (w1 := mkWorld _ _ _ _) in *. unfold ftruncate.
  assert (Hclose : forall bs, sys_close sys fdv (set_file i bs w1) =
    mkWorld (<[i := bs]> (inodes w)) (<[path := i]> (dir w)) (fds w) (maps w)).
  { intros bs. rewrite (close_ok sys Hos) with (i := i) by (simpl; apply lookup_insert_eq).
    unfold with_fds, set_file, with_inodes. simpl. by rewrite insert_insert_eq, delete_insert_id. }
  destruct (sys_ftruncate sys fdv (as_off_t (384 + cap)) w1) as [ok w2] eqn:E2.
  erewrite bind_ok by (by rewrite E2). destruct ok; cbn [negb].
  2: { apply (ftruncate_fails sys Hos) in E2. subst w2. right. eexists _, _. split; [reflexivity|].
    right. exists i, []. split_and!; auto. rewrite <- Hclose. unfold set_file, with_inodes. simpl.
    by rewrite insert_insert_eq. }
  destruct (ftruncate_ok sys Hos _ _ _ _ E2) as (H0 & i' & bs & Hi' & Hbs & ->).
  simpl in Hi', Hbs. rewrite lookup_insert_eq in Hi'. injection Hi' as <-.
  rewrite lookup_insert_eq in Hbs. injection Hbs as <-.
  destruct (as_off_t_id (384 + cap) H0 ltac:(lia)) as [Hlt ->].
  change (with_inodes _ w1) with (set_file i (resize_file [] (384 + cap)) w1).
  set (w2 := set_file i _ w1) in *. unfold mmap.
  destruct (sys_mmap sys fdv (384 + cap) w2) as [[a|] w3] eqn:E3; erewrite bind_ok by (by rewrite E3).
  2: { apply (mmap_fails sys Hos) in E3. subst w3. right. eexists _, _. split; [reflexivity|].
    right. exists i, (resize_file [] (384 + cap)). split_and!; [done | done | apply Hclose]. }
  destruct (mmap_ok sys Hos _ _ _ _ _ E3) as (_ & Ha & Hma & i' & Hi' & ->).
  simpl in Hi'. rewrite lookup_insert_eq in Hi'. injection Hi' as <-. left. exists i, fdv, a.
  split; [|by split_and!].
  set (w3 := with_maps (<[a := (i, 384 + cap)]> (maps w)) w1).
  change (with_maps _ w2) with (set_file i (resize_file [] (384 + cap)) w3).
  change header_region_size with 64. change (add64 64 control_region_size) with 384.
  erewrite bind_ok by (apply init_mapping_ok; [simpl; apply lookup_insert_eq | lia | done |
    unfold resize_file; rewrite take_nil, length_app, length_replicate; simpl; lia]).
  unfold mret, M_ret. f_equal. unfold set_file, with_inodes, created. simpl.
  by rewrite insert_insert_eq.
Qed.

(** What [open_mapping] has checked of the header. *)
Definition header_ok (h : Header) (flags size : Z) : Prop :=
  h_magic h = kMagic /\ h_version h = kVersion /\ h_flags h = flags /\
  add64 (h_ring_offset h) (h_capacity_bytes h) <= size /\
  add64 (h_control_offset h) sizeof_ControlBlock <= size.

Definition header_okb (h : Header) (flags size : Z) : bool :=
  (h_magic h =? kMagic) && (h_version h =? kVersion) && (h_flags h =? flags) &&
  (add64 (h_ring_offset h) (h_capacity_bytes h) <=? size) &&
  (add64 (h_control_offset h) sizeof_ControlBlock <=? size).

Lemma header_okb_spec h flags size : header_okb h flags size = true <-> header_ok h flags size.
Proof.
  unfold header_okb, header_ok. rewrite !andb_true_iff, !Z.eqb_eq, !Z.leb_le. tauto.
Qed.

Definition opened (i : nat) (fdv a n : Z) (w : world) : world :=
  mkWorld (inodes w) (dir w) (<[fdv := i]> (fds w)) (<[a := (i, n)]> (maps w)).

(** Unmapping and closing again. *)
Lemma unwind_open i fdv a n w :
  fds w !! fdv = None -> maps w !! a = None ->
  sys_close sys fdv (sys_munmap sys a n (opened i fdv a n w)) = w.
Proof.
  intros Hf Hm. rewrite (munmap_ok sys Hos) with (i := i) by (simpl; apply lookup_insert_eq).
  rewrite (close_ok sys Hos) with (i := i) by (simpl; apply lookup_insert_eq).
  unfold with_fds, with_maps. simpl. rewrite !delete_insert_id by done. by destruct w.
Qed.

(** The checks of an existing file, once it is mapped. *)
Lemma open_mapping_mapped path flags w i bs fdv a :
  sys_open sys path false w = (Some fdv, with_fds (<[fdv := i]> (fds w)) w) ->
  sys_fstat sys fdv (with_fds (<[fdv := i]> (fds w)) w) = Some (Z.of_nat (length bs)) ->
  sys_mmap sys fdv (Z.of_nat (length bs)) (with_fds (<[fdv := i]> (fds w)) w) =
    (Some a, opened i fdv a (Z.of_nat (length bs)) w) ->
  inodes w !! i = Some bs -> fds w !! fdv = None -> maps w !! a = None ->
  sizeof_Header <= Z.of_nat (length bs) ->
  let h := Header_of_bytes bs in
  if header_okb h flags (Z.of_nat (length bs)) then
    open_mapping sys path flags w =
      (Ok (mkMapping fdv a (Z.of_nat (length bs)) a (a + h_control_offset h)
             (a + h_ring_offset h) (h_capacity_bytes h)),
       opened i fdv a (Z.of_nat (length bs)) w)
  else exists message, open_mapping sys path flags w = (Throw (RuntimeError message), w).
Proof.
  intros E1 E2 E3 Hi Hf Hm Hl h. set (n := Z.of_nat (length bs)) in *.
  unfold sizeof_Header in Hl. unfold open_mapping, open_file_existing.
  erewrite bind_ok by (by rewrite E1). unfold fstat. erewrite bind_ok by reflexivity. rewrite E2.
  rewrite (proj2 (Z.ltb_ge n sizeof_Header)) by (unfold sizeof_Header; lia).
  unfold mmap. erewrite bind_ok by (by rewrite E3).
  assert (Hrd : forall off k, 0 <= off -> off + Z.of_nat k <= 48 ->
    map_read_uint a off k (opened i fdv a n w) =
      (Ok (member bs (Z.to_nat off) k), opened i fdv a n w)).
  { intros. apply (map_read_uint_ok a i n); simpl; auto; [apply lookup_insert_eq | lia | lia]. }
  assert (Hfail : forall message,
    (_ ← munmap sys a n; _ ← close sys fdv; throw (RuntimeError message)) (opened i fdv a n w) =
      (Throw (A := Mapping) (RuntimeError message), w)).
  { intros. unfold munmap, close, throw, mbind, M_bind. by rewrite unwind_open. }
  unfold off_magic, off_version, off_header_flags, off_capacity_bytes, off_ring_offset,
    off_control_offset.
  erewrite bind_ok by (apply Hrd; lia).
  unfold header_okb. change (member bs (Z.to_nat 0) 4) with (h_magic h).
  destruct (h_magic h =? kMagic); cbn [negb andb]; [|rewrite Hfail; eauto].
  erewrite bind_ok by (apply Hrd; lia). change (member bs (Z.to_nat 4) 2) with (h_version h).
  destruct (h_version h =? kVersion); cbn [negb andb]; [|rewrite Hfail; eauto].
  erewrite bind_ok by (apply Hrd; lia). change (member bs (Z.to_nat 40) 8) with (h_flags h).
  destruct (h_flags h =? flags); cbn [negb andb]; [|rewrite Hfail; eauto].
  do 3 (erewrite bind_ok by (apply Hrd; lia)).
  change (member bs (Z.to_nat 8) 8) with (h_capacity_bytes h).
  change (member bs (Z.to_nat 24) 8) with (h_ring_offset h).
  change (member bs (Z.to_nat 16) 8) with (h_control_offset h).
  rewrite !Z.gtb_ltb, !Z.ltb_antisym.
  destruct (_ <=? n); cbn [negb andb]; [|rewrite Hfail; eauto].
  destruct (_ <=? n); cbn [negb andb]; [done | rewrite Hfail; eauto].
Qed.

Lemma open_mapping_cases path flags w :
  (exists i bs fdv a, let h := Header_of_bytes bs in let n := Z.of_nat (length bs) in
    open_mapping sys path flags w =
      (Ok (mkMapping fdv a n a (a + h_control_offset h) (a + h_ring_offset h) (h_capacity_bytes h)),
       opened i fdv a n w) /\
    dir w !! path = Some i /\ inodes w !! i = Some bs /\ fds w !! fdv = None /\
    maps w !! a = None /\ 0 <= fdv /\ 0 < a /\ sizeof_Header <= n /\ header_ok h flags n) \/
  exists e, open_mapping sys path flags w = (Throw e, w) /\
    match e with
    | Errno _ => True
    | RuntimeError _ => exists i bs, dir w !! path = Some i /\ inodes w !! i = Some bs /\
        (Z.of_nat (length bs) < sizeof_Header \/
         header_okb (Header_of_bytes bs) flags (Z.of_nat (length bs)) = false)
    end.
Proof.
  destruct (sys_open sys path false w) as [[fdv|] w1] eqn:E1.
  2: { right. pose proof (open_fails sys Hos _ _ _ _ E1). subst w1. eexists.
    unfold open_mapping, open_file_existing.
    split; [by erewrite bind_throw by (by rewrite E1) | done]. }
  destruct (open_existing sys Hos _ _ _ _ E1) as (Hfd & Hf & i & bs & Hd & Hi & ->).
  set (w1 := with_fds _ w) in *.
  assert (Hcl : sys_close sys fdv w1 = w).
  { rewrite (close_ok sys Hos) with (i := i) by (simpl; apply lookup_insert_eq).
    unfold w1, with_fds. simpl. rewrite delete_insert_id by done. by destruct w. }
  assert (Hend : forall e, (_ ← close sys fdv; throw e) w1 = (Throw (A := Mapping) e, w)).
  { intros. unfold close, throw, mbind, M_bind. by rewrite Hcl. }
  destruct (sys_fstat sys fdv w1) as [n|] eqn:E2.
  2: { right. eexists. unfold open_mapping, open_file_existing. erewrite bind_ok by (by rewrite E1).
    unfold fstat. erewrite bind_ok by reflexivity. rewrite E2. split; [apply Hend | done]. }
  destruct (fstat_size sys Hos _ _ _ E2) as (i' & bs' & Hi' & Hbs' & ->).
  simpl in Hi', Hbs'. rewrite lookup_insert_eq in Hi'. injection Hi' as <-.
  rewrite Hi in Hbs'. injection Hbs' as <-.
  destruct (decide (Z.of_nat (length bs) < sizeof_Header)) as [Hs|Hs].
  { right. eexists. unfold open_mapping, open_file_existing. erewrite bind_ok by (by rewrite E1).
    unfold fstat. erewrite bind_ok by reflexivity.
    rewrite E2, (proj2 (Z.ltb_lt _ _)) by lia. split; [apply Hend|].
    exists i, bs. split_and!; auto. }
  destruct (sys_mmap sys fdv (Z.of_nat (length bs)) w1) as [[a|] w2] eqn:E3.
  2: { right. pose proof (mmap_fails sys Hos _ _ _ _ E3). subst w2. eexists.
    unfold open_mapping, open_file_existing. erewrite bind_ok by (by rewrite E1).
    unfold fstat. erewrite bind_ok by reflexivity. rewrite E2, (proj2 (Z.ltb_ge _ _)) by lia.
    unfold mmap. erewrite bind_ok by (by rewrite E3). split; [apply Hend | done]. }
  destruct (mmap_ok sys Hos _ _ _ _ _ E3) as (_ & Ha & Hma & i' & Hi' & ->).
  simpl in Hi'. rewrite lookup_insert_eq in Hi'. injection Hi' as <-.
  pose proof (open_mapping_mapped path flags w i bs fdv a E1 E2 E3 Hi Hf Hma ltac:(lia)) as Ho.
  cbv zeta in Ho. destruct (header_okb _ _ _) eqn:Eh; [left | right].
  2: { destruct Ho as [e He]. exists (RuntimeError e). split; [done|]. exists i, bs. auto. }
  exists i, bs, fdv, a. cbv zeta. split_and!; auto; [lia|]. by apply header_okb_spec.
Qed.
End Mappings.

(** A created file, seen as a ring. *)
Lemma image_shared cap flags :
  0 <= cap -> shared_at (image cap flags) 64 384 cap =
    mkShared (mkControl 0 0 0 0 0) (replicate (Z.to_nat cap) x00) 0.
Proof.
  intros Hc. pose proof (length_Header_bytes (created_header cap flags)) as Hl.
  assert (Hm : forall off, (48 <= off)%nat -> member (image cap flags) off 8 = 0).
  { intros off Ho. unfold member, image.
    rewrite drop_app_ge, drop_replicate, take_replicate by lia. apply le_dec_zeros. }
  assert (Hr : take (Z.to_nat cap) (drop (Z.to_nat 384) (image cap flags)) =
    replicate (Z.to_nat cap) x00).
  { unfold image. rewrite drop_app_ge, drop_replicate, take_replicate by lia. f_equal. lia. }
  unfold shared_at. rewrite Hr. by rewrite !Hm by (apply Nat.leb_le; reflexivity).
Qed.

(** C25: [create_mapping] has no undefined behaviour whatever the system calls
    do.  It returns a mapping of a new file with the requested capacity rounded
    up to 8, a control block of zeros and a zero ring inside the file; or it
    throws, and then no descriptor and no mapping is left open. *)
Theorem create_mapping_total sys path c flags w :
  Posix sys -> 0 < c < 2 ^ 63 -> 0 <= flags < 2 ^ 64 ->
  let cap := align_up c kAlignment in
  (exists m i, create_mapping sys path c flags w =
      (Ok m, created path cap flags i (fd m) (mapping m) w) /\
    capacity m = cap /\ c <= cap < c + 8 /\ (8 | cap) /\
    dir w !! path = None /\ fds w !! fd m = None /\ maps w !! mapping m = None /\
    control m = mapping m + 64 /\ ring_ptr m = mapping m + 384 /\
    mapping_size m = required_mapping_size c /\
    shared_at (image cap flags) 64 384 cap =
      mkShared (mkControl 0 0 0 0 0) (replicate (Z.to_nat cap) x00) 0) \/
  (exists e w', create_mapping sys path c flags w = (Throw e, w') /\
    fds w' = fds w /\ maps w' = maps w /\ leftover path w w').
Proof.
  intros Hos Hc Hf cap. destruct (create_sizes c Hc) as (Hcap & Hd & Hsz).
  fold cap in Hcap, Hd, Hsz.
  destruct (create_mapping_cases sys Hos path c flags w Hc Hf)
    as [(i & fdv & a & E & ? & ? & ? & ? & ?)|(e & w' & E & Hl)]; fold cap in E; [left | right].
  - eexists _, i. split; [exact E|]. simpl. split_and!; auto; try lia. apply image_shared. lia.
  - exists e, w'. split_and!; auto; by destruct Hl as [->|(? & ? & _ & _ & ->)].
Qed.

(** C26: [open_mapping] has no undefined behaviour whatever the file contains.
    When it throws, descriptors, mappings and files are as before; when it
    returns, the file has the magic number, the version and the requested mode,
    and the control block and ring it found lie inside the mapping as far as
    the (wrapping) sums of the header fields say. *)
Theorem open_mapping_total sys path flags w :
  Posix sys ->
  (exists m i bs, open_mapping sys path flags w =
      (Ok m, opened i (fd m) (mapping m) (mapping_size m) w) /\
    dir w !! path = Some i /\ inodes w !! i = Some bs /\
    fds w !! fd m = None /\ maps w !! mapping m = None /\
    mapping_size m = Z.of_nat (length bs) /\
    let h := Header_of_bytes bs in
    header_ok h flags (mapping_size m) /\ capacity m = h_capacity_bytes h /\
    control m = mapping m + h_control_offset h /\ ring_ptr m = mapping m + h_ring_offset h /\
    (h_ring_offset h + h_capacity_bytes h < 2 ^ 64 -> ring_ptr m + capacity m <= mapping m + mapping_size m)) \/
  (exists e, open_mapping sys path flags w = (Throw e, w)).
Proof.
  intros Hos. destruct (open_mapping_cases sys Hos path flags w)
    as [(i & bs & fdv & a & E & ? & ? & ? & ? & ? & ? & ? & Hh)|(e & E & _)]; [left | right; eauto].
  eexists _, i, bs. split; [exact E|]. simpl. split_and!; auto. intros Hs.
  destruct Hh as (_ & _ & _ & Hr & _). unfold add64 in Hr.
  pose proof (le_dec_range (take 8 (drop 8 bs))). pose proof (le_dec_range (take 8 (drop 24 bs))).
  rewrite u64_small in Hr; simpl in *; unfold member in *; lia.
Qed.

Lemma created_header_ok cap flags :
  0 <= cap < 2 ^ 63 -> header_okb (created_header cap flags) flags (384 + cap) = true.
Proof.
  intros Hc. apply header_okb_spec. unfold header_ok, created_header. simpl.
  change (add64 header_region_size control_region_size) with 384.
  split_and!; auto; [unfold add64; rewrite u64_small; lia|].
  change (add64 header_region_size sizeof_ControlBlock) with 384. lia.
Qed.

(** Opening a file made by [create_mapping] with the mode it was made for. *)
Lemma reopen_cases sys path c flags w m w1 :
  Posix sys -> 0 < c < 2 ^ 62 -> 0 <= flags < 2 ^ 64 ->
  create_mapping sys path c flags w = (Ok m, w1) ->
  exists i fdv a, let cap := align_up c kAlignment in
  m = mkMapping fdv a (384 + cap) a (a + 64) (a + 384) cap /\ w1 = created path cap flags i fdv a w /\
  ((exists message, open_mapping sys path flags w1 = (Throw (Errno message), w1)) \/
   exists fdv2 a2, open_mapping sys path flags w1 =
       (Ok (mkMapping fdv2 a2 (384 + cap) a2 (a2 + 64) (a2 + 384) cap), opened i fdv2 a2 (384 + cap) w1) /\
     0 <= fdv2 /\ 0 < a2 /\ fds w1 !! fdv2 = None /\ maps w1 !! a2 = None).
Proof.
  intros Hos Hc Hf E. destruct (create_sizes c ltac:(lia)) as (Hcap & _ & _).
  destruct (create_mapping_cases sys Hos path c flags w ltac:(lia) Hf)
    as [(i & fdv & a & E' & _)|(e & w' & E' & _)]; [|congruence].
  rewrite E' in E. injection E as <- <-. set (cap := align_up c kAlignment) in *.
  exists i, fdv, a. cbv zeta. split_and!; [done | done |].
  pose proof (image_header cap flags ltac:(lia) Hf) as Hhd.
  pose proof (length_image cap flags ltac:(lia)) as Hli.
  set (w1 := created path cap flags i fdv a w).
  assert (Hp : dir w1 !! path = Some i) by apply lookup_insert_eq.
  assert (Hi : inodes w1 !! i = Some (image cap flags)) by apply lookup_insert_eq.
  destruct (open_mapping_cases sys Hos path flags w1)
    as [(i' & bs & fdv' & a' & E & Hp' & Hi' & ? & ? & ? & ? & _)|(e & E & He)].
  - rewrite Hp in Hp'. injection Hp' as <-. rewrite Hi in Hi'. injection Hi' as <-.
    right. exists fdv', a'. rewrite Hhd, Hli in E. split_and!; auto.
  - left. destruct e as [msg|msg]; [eauto|]. destruct He as (i' & bs & Hp' & Hi' & Hbad).
    rewrite Hp in Hp'. injection Hp' as <-. rewrite Hi in Hi'. injection Hi' as <-. exfalso.
    rewrite Hhd, Hli in Hbad. destruct Hbad as [Hbad|Hbad]; [unfold sizeof_Header in Hbad; lia|].
    apply not_true_iff_false in Hbad. apply Hbad. apply created_header_ok. lia.
Qed.

(** C27: a file made by [create_mapping] is accepted by [open_mapping] with the
    same mode: unless a system call fails, it yields a second mapping of the
    same file with the same capacity and the same offsets. *)
Theorem create_open_roundtrip sys path c flags w m w1 :
  Posix sys -> 0 < c < 2 ^ 62 -> 0 <= flags < 2 ^ 64 ->
  create_mapping sys path c flags w = (Ok m, w1) ->
  (exists m2 i, open_mapping sys path flags w1 =
      (Ok m2, opened i (fd m2) (mapping m2) (mapping_size m2) w1) /\
    maps w1 !! mapping m = Some (i, mapping_size m) /\
    capacity m2 = capacity m /\ mapping_size m2 = mapping_size m /\
    control m2 - mapping m2 = control m - mapping m /\
    ring_ptr m2 - mapping m2 = ring_ptr m - mapping m) \/
  (exists message, open_mapping sys path flags w1 = (Throw (Errno message), w1)).
Proof.
  intros Hos Hc Hf E.
  destruct (reopen_cases sys path c flags w m w1 Hos Hc Hf E)
    as (i & fdv & a & -> & -> & [?|(fdv2 & a2 & E2 & _)]); [by right | left].
  eexists _, i. split; [exact E2|]. simpl. rewrite lookup_insert_eq. split_and!; auto; lia.
Qed.

(** A file created in one mode is never opened in another: the call
    throws and leaves everything as it was. *)
Theorem open_wrong_mode sys path c flags flags' w m w1 :
  Posix sys -> 0 < c < 2 ^ 62 -> 0 <= flags < 2 ^ 64 -> flags' <> flags ->
  create_mapping sys path c flags w = (Ok m, w1) ->
  exists e, open_mapping sys path flags' w1 = (Throw e, w1).
Proof.
  intros Hos Hc Hf Hne E. destruct (create_sizes c ltac:(lia)) as (Hcap & _ & _).
  destruct (create_mapping_cases sys Hos path c flags w ltac:(lia) Hf)
    as [(i & fdv & a & E' & ? & ? & ? & ? & ?)|(e & w' & E' & _)]; [|congruence].
  rewrite E' in E. injection E as <- <-. clear E'.
  destruct (open_mapping_cases sys Hos path flags' (created path (align_up c kAlignment) flags i fdv a w))
    as [(i' & bs & fdv' & a' & E & Hp' & Hi' & _ & _ & _ & _ & _ & Hh)|(e & E & _)]; [|eauto].
  exfalso. unfold created in Hp', Hi'. simpl in Hp', Hi'.
  rewrite lookup_insert_eq in Hp'. injection Hp' as <-.
  rewrite lookup_insert_eq in Hi'. injection Hi' as <-.
  destruct Hh as (_ & _ & Hfl & _). rewrite image_header in Hfl by lia. by apply Hne.
Qed.

(** ** Ownership *)

(** [m] owns a descriptor and a mapping of the file [i]. *)
Definition live (i : nat) (m : Mapping) (w : world) : Prop :=
  0 <= fd m /\ 0 < mapping m /\ 0 < mapping_size m /\
  fds w !! fd m = Some i /\ maps w !! mapping m = Some (i, mapping_size m).

Definition released (m : Mapping) (w : world) : world :=
  mkWorld (inodes w) (dir w) (delete (fd m) (fds w)) (delete (mapping m) (maps w)).

Lemma reset_live sys i m w : Posix sys -> live i m w -> reset sys m w = (Ok empty_mapping, released m w).
Proof.
  intros Hos (Hf & Ha & Hn & Hfd & Hm). unfold reset.
  rewrite (proj2 (Z.eqb_neq _ _)), Z.gtb_ltb, (proj2 (Z.ltb_lt 0 _)), Z.geb_leb, (proj2 (Z.leb_le _ _)) by lia.
  cbn [negb andb]. erewrite bind_ok by reflexivity. erewrite bind_ok by reflexivity.
  rewrite (munmap_ok sys Hos) with (i := i) by done.
  by rewrite (close_ok sys Hos) with (i := i) by done.
Qed.

Lemma reset_empty sys w : reset sys empty_mapping w = (Ok empty_mapping, w).
Proof. done. Qed.

(** A mapping obtained from [create_mapping] gives back, when it is reset
    or destroyed, exactly the descriptor and the mapping it took; a second
    [reset] of the emptied object does nothing. *)
Theorem mapping_lifecycle sys path c flags w m w1 :
  Posix sys -> 0 < c < 2 ^ 63 -> 0 <= flags < 2 ^ 64 ->
  create_mapping sys path c flags w = (Ok m, w1) ->
  exists w2, reset sys m w1 = (Ok empty_mapping, w2) /\
    fds w2 = fds w /\ maps w2 = maps w /\ dir w2 = dir w1 /\ inodes w2 = inodes w1 /\
    reset sys empty_mapping w2 = (Ok empty_mapping, w2).
Proof.
  intros Hos Hc Hf E. destruct (create_sizes c Hc) as (Hcap & _ & _).
  destruct (create_mapping_cases sys Hos path c flags w Hc Hf)
    as [(i & fdv & a & E' & ? & ? & ? & ? & ? & ?)|(e & w' & E' & _)]; [|congruence].
  rewrite E' in E. injection E as <- <-. eexists. split.
  { apply (reset_live _ i); [done|]. unfold live. simpl. rewrite !lookup_insert_eq. split_and!; auto; lia. }
  unfold released, created. simpl. rewrite !delete_insert_id by done. split_and!; auto.
Qed.

(** Move assignment between two live mappings closes what the target
    owned, hands over what the source owned, and leaves the source empty, so
    that destroying both objects releases every resource exactly once; moving
    an object to itself changes nothing. *)
Theorem move_assign_ownership sys i j this other w :
  Posix sys -> live i this w -> live j other w ->
  fd this <> fd other -> mapping this <> mapping other ->
  move_assign sys false this other w = (Ok (other, empty_mapping), released this w) /\
  live j other (released this w) /\
  reset sys empty_mapping (released this w) = (Ok empty_mapping, released this w) /\
  reset sys other (released this w) = (Ok empty_mapping, released other (released this w)) /\
  move_assign sys true this this w = (Ok (this, this), w).
Proof.
  intros Hos Ht Ho Hfd Hm.
  assert (Ho' : live j other (released this w)).
  { destruct Ho as (? & ? & ? & ? & ?). unfold live. simpl.
    rewrite !lookup_delete_ne by done. by split_and!. }
  split_and!; auto using reset_empty; [|by apply (reset_live _ j)].
  unfold move_assign. by erewrite bind_ok by (by apply (reset_live _ i)).
Qed.

(** ** A system whose calls succeed whenever they may *)

Definition above {A} (m : gmap Z A) : Z := map_fold (fun k _ n => Z.max (k + 1) n) 3 m.
Definition above_nat {A} (m : gmap nat A) : nat := map_fold (fun k _ n => Nat.max (S k) n) O m.

Lemma above_spec {A} (m : gmap Z A) : 3 <= above m /\ forall k, above m <= k -> m !! k = None.
Proof.
  unfold above. apply (map_fold_weak_ind (fun n m => 3 <= n /\ forall k, n <= k -> m !! k = None)).
  - split; [lia|]. intros. apply lookup_empty.
  - intros k x m' n _ [? IH]. split; [lia|]. intros k' Hk.
    rewrite lookup_insert_ne by lia. apply IH. lia.
Qed.

Lemma above_nat_spec {A} (m : gmap nat A) k : (above_nat m <= k)%nat -> m !! k = None.
Proof.
  revert k. unfold above_nat. apply (map_fold_weak_ind (fun n m => forall k, (n <= k)%nat -> m !! k = None)).
  - intros. apply lookup_empty.
  - intros k x m' n _ IH k' Hk. rewrite lookup_insert_ne by lia. apply IH. lia.
Qed.

Definition ideal_sys : Syscalls := mkSyscalls
  (fun p create w =>
     let fd := above (fds w) in
     match create, dir w !! p with
     | true, None =>
         let i := above_nat (inodes w) in
         (Some fd, mkWorld (<[i := []]> (inodes w)) (<[p := i]> (dir w)) (<[fd := i]> (fds w)) (maps w))
     | false, Some i =>
         match inodes w !! i with
         | Some _ => (Some fd, with_fds (<[fd := i]> (fds w)) w)
         | None => (None, w)
         end
     | _, _ => (None, w)
     end)
  (fun fd n w =>
     match fds w !! fd with
     | Some i =>
         match inodes w !! i with
         | Some bs => if 0 <=? n then (true, with_inodes (<[i := resize_file bs n]> (inodes w)) w)
                      else (false, w)
         | None => (false, w)
         end
     | None => (false, w)
     end)
  (fun fd w =>
     match fds w !! fd with
     | Some i => option_map (fun bs => Z.of_nat (length bs)) (inodes w !! i)
     | None => None
     end)
  (fun fd n w =>
     match fds w !! fd with
     | Some i => if 0 <? n then
                   let a := above (maps w) in (Some a, with_maps (<[a := (i, n)]> (maps w)) w)
                 else (None, w)
     | None => (None, w)
     end)
  (fun a n w => with_maps (delete a (maps w)) w)
  (fun fd w => with_fds (delete fd (fds w)) w).

Lemma ideal_posix : Posix ideal_sys.
Proof.
  split; simpl; intros.
  - pose proof (above_spec (fds w)) as [? Hf]. destruct (dir w !! p) eqn:E; simplify_eq.
    split_and!; auto; try lia; [apply Hf; lia|]. exists (above_nat (inodes w)).
    split; [|done]. by apply above_nat_spec.
  - pose proof (above_spec (fds w)) as [? Hf]. destruct (dir w !! p) as [i|] eqn:E; [|done].
    destruct (inodes w !! i) as [bs|] eqn:E'; simplify_eq.
    split_and!; try lia; [apply Hf; lia|]. exists i, bs. by split_and!.
  - destruct c, (dir w !! p) as [i|]; simplify_eq; auto. by destruct (inodes w !! i); simplify_eq.
  - destruct (fds w !! fd0) as [i|] eqn:E; [|done]. destruct (inodes w !! i) as [bs|] eqn:E'; [|done].
    destruct (0 <=? n) eqn:En; simplify_eq. split; [lia|]. exists i, bs. by split_and!.
  - destruct (fds w !! fd0) as [i|]; [|by simplify_eq].
    destruct (inodes w !! i) as [bs|]; [|by simplify_eq]. by destruct (0 <=? n); simplify_eq.
  - destruct (fds w !! fd0) as [i|] eqn:E; [|done].
    destruct (inodes w !! i) as [bs|] eqn:E'; simplify_eq/=. exists i, bs. by split_and!.
  - destruct (fds w !! fd0) as [i|] eqn:E; [|done]. destruct (0 <? n) eqn:En; simplify_eq.
    pose proof (above_spec (maps w)) as [? Hm]. split_and!; try lia; [apply Hm; lia|]. by exists i.
  - destruct (fds w !! fd0) as [i|]; [|by simplify_eq]. by destruct (0 <? n); simplify_eq.
  - done.
  - done.
Qed.

Definition empty_world : world := mkWorld ∅ ∅ ∅ ∅.
Definition m64 : Mapping := mkMapping 3 3 448 3 67 387 64.

(** The file system after the creation of a 64-byte ring. *)
Definition world64 (flags : Z) : world := created "ring" 64 flags O 3 3 empty_world.

Lemma create64 : create_mapping ideal_sys "ring" 60 kFlagSPSC empty_world = (Ok m64, world64 kFlagSPSC).
Proof. vm_compute. reflexivity. Qed.

Lemma create_mapping_total_witness :
  exists m i, create_mapping ideal_sys "ring" 60 kFlagSPSC empty_world =
      (Ok m, created "ring" 64 kFlagSPSC i (fd m) (mapping m) empty_world) /\
    capacity m = 64.
Proof.
  destruct (create_mapping_total ideal_sys "ring" 60 kFlagSPSC empty_world ideal_posix)
    as [(m & i & E & Hc & _)|(e & w' & E & _)]; [lia | done | eauto | by rewrite create64 in E].
Defined.

Lemma open_mapping_total_witness :
  exists m i (bs : list byte), open_mapping ideal_sys "ring" kFlagSPSC (world64 kFlagSPSC) =
      (Ok m, opened i (fd m) (mapping m) (mapping_size m) (world64 kFlagSPSC)) /\
    mapping_size m = Z.of_nat (length bs).
Proof.
  destruct (open_mapping_total ideal_sys "ring" kFlagSPSC (world64 kFlagSPSC) ideal_posix)
    as [(m & i & bs & E & _ & _ & _ & _ & Hm & _)|(e & E)]; [eauto | by vm_compute in E].
Defined.

Lemma create_open_roundtrip_witness :
  exists m2 i, open_mapping ideal_sys "ring" kFlagSPSC (world64 kFlagSPSC) =
      (Ok m2, opened i (fd m2) (mapping m2) (mapping_size m2) (world64 kFlagSPSC)) /\
    capacity m2 = 64.
Proof.
  destruct (create_open_roundtrip ideal_sys "ring" 60 kFlagSPSC empty_world m64
    (world64 kFlagSPSC) ideal_posix) as [(m2 & i & E & _ & Hc & _)|(e & E)];
    [lia | done | apply create64 | eauto | by vm_compute in E].
Defined.

Lemma open_wrong_mode_witness :
  exists e, open_mapping ideal_sys "ring" kFlagMPMC (world64 kFlagSPSC) =
    (Throw e, world64 kFlagSPSC).
Proof.
  apply (open_wrong_mode ideal_sys "ring" 60 kFlagSPSC kFlagMPMC empty_world m64);
    [apply ideal_posix | lia | done | done | apply create64].
Defined.

Lemma mapping_lifecycle_witness :
  exists w2, reset ideal_sys m64 (world64 kFlagSPSC) = (Ok empty_mapping, w2) /\
    fds w2 = ∅ /\ maps w2 = ∅ /\ dir w2 = dir (world64 kFlagSPSC) /\
    inodes w2 = inodes (world64 kFlagSPSC) /\
    reset ideal_sys empty_mapping w2 = (Ok empty_mapping, w2).
Proof.
  apply (mapping_lifecycle ideal_sys "ring" 60 kFlagSPSC empty_world m64);
    [apply ideal_posix | lia | done | apply create64].
Defined.

(** Two mappings of the same file. *)
Definition m64' : Mapping := mkMapping 4 4 448 4 68 388 64.
Definition world64' : world := opened O 4 4 448 (world64 kFlagSPSC).

Lemma move_assign_ownership_witness :
  move_assign ideal_sys false m64 m64' world64' = (Ok (m64', empty_mapping), released m64 world64') /\
  live O m64' (released m64 world64') /\
  reset ideal_sys empty_mapping (released m64 world64') = (Ok empty_mapping, released m64 world64') /\
  reset ideal_sys m64' (released m64 world64') =
    (Ok empty_mapping, released m64' (released m64 world64')) /\
  move_assign ideal_sys true m64 m64 world64' = (Ok (m64, m64), world64').
Proof.
  apply (move_assign_ownership ideal_sys O O); [apply ideal_posix | | | done | done];
    unfold live; split_and!; by vm_compute.
Defined.

(** ** Arithmetic on sizes that the code does not guard *)

(** The range check of [open_mapping] adds two header fields modulo
    [2^64]: a corrupted file whose [ring_offset] is close to [2^64] is accepted,
    and the ring of the returned mapping lies outside the mapped file. *)
Theorem open_mapping_offset_wraps :
  let h := mkHeader kMagic kVersion sizeof_Header 16 64 (2 ^ 64 - 8) kAlignment kFlagSPSC in
  let w := mkWorld {[ O := Header_bytes h ++ replicate 336 x00 ]} {[ "ring" := O ]} ∅ ∅ in
  exists m w', open_mapping ideal_sys "ring" kFlagSPSC w = (Ok m, w') /\
    mapping m + mapping_size m < ring_ptr m.
Proof. eexists _, _. split; [vm_compute; reflexivity | vm_compute; reflexivity]. Qed.

(** [create_mapping] does not guard the sum of offset and capacity either:
    a capacity of [2^64 - 8] yields a ring that claims [2^64 - 8] bytes in a
    mapping of 376. *)
Theorem create_mapping_size_wraps :
  exists m w', create_mapping ideal_sys "ring" (2 ^ 64 - 8) kFlagSPSC empty_world = (Ok m, w') /\
    capacity m = 2 ^ 64 - 8 /\ mapping_size m = 376.
Proof. eexists _, _. split; [vm_compute; reflexivity | done]. Qed.

(** A full disk: [ftruncate] fails. *)
Definition full_disk_sys : Syscalls :=
  mkSyscalls (sys_open ideal_sys) (fun _ _ w => (false, w)) (sys_fstat ideal_sys)
    (sys_mmap ideal_sys) (sys_munmap ideal_sys) (sys_close ideal_sys).

Lemma full_disk_posix : Posix full_disk_sys.
Proof. destruct ideal_posix. split; try assumption; simpl; congruence. Qed.

(** When [ftruncate] fails, [create_mapping] closes its descriptor but
    leaves an empty file behind; later, with enough space, neither creating nor
    opening the ring at that path succeeds. *)
Theorem create_failure_blocks_path :
  exists w', create_mapping full_disk_sys "ring" 60 kFlagSPSC empty_world =
      (Throw (Errno "ftruncate failed"), w') /\ fds w' = ∅ /\
    create_mapping ideal_sys "ring" 60 kFlagSPSC w' = (Throw (Errno "open (create) failed"), w') /\
    open_mapping ideal_sys "ring" kFlagSPSC w' =
      (Throw (RuntimeError "shared memory file too small"), w').
Proof. eexists. split; [vm_compute; reflexivity|]. by vm_compute. Qed.
