(* ===== verification/SpscQueue.v ===== *)
(** * spsc_queue.hpp: the fixed-slot SPSC queue

    [SPSCQueue<T, Capacity>]: one producer and one consumer, slots of
    [sizeof(T)] bytes, free-running 64-bit indices masked to a slot.  A value of
    the trivially copyable type [T] is its object representation, a list of
    [sizeof(T)] bytes. *)

From Stdlib Require Import ZArith Lia Strings.Byte.
From stdpp Require Import base list numbers gmap strings.
From S2P Require Import Prelude Memory Layout Prog Records Mapping.

(** ** The operations *)

Section Code.
(** The template arguments: [sizeof(T)] and [Capacity]. *)
Context (sizeof_T Capacity : Z).

Definition kMask : Z := Capacity - 1.

(** What [try_push] and [try_pop] do after their two loads. *)
Definition push_slot (value : list byte) (t h : Z) : prog (option bool) :=
  if sub64 t h >=? Capacity then Ret (Some false) else
  let slot := u64 (Z.land t kMask * sizeof_T) in
  do! memcpy_to slot (take (Z.to_nat sizeof_T) value) in
  do! Store FTailPublish (add64 t 1) in
  Ret (Some true).

Definition pop_slot (out : list byte) (h t : Z) : prog (option (bool * list byte)) :=
  if h =? t then Ret (Some (false, out)) else
  let slot := u64 (Z.land h kMask * sizeof_T) in
  let! bs := memcpy_from slot (Z.to_nat sizeof_T) in
  do! Store FHeadPublish (add64 h 1) in
  Ret (Some (true, bs)).

Definition try_push (value : list byte) : prog (option bool) :=
  let! t := Load FTailPublish in
  let! h := Load FHeadPublish in
  push_slot value t h.

(** The result and the value of [out] afterwards. *)
Definition try_pop (out : list byte) : prog (option (bool * list byte)) :=
  let! h := Load FHeadPublish in
  let! t := Load FTailPublish in
  pop_slot out h t.

Definition size : prog (option Z) :=
  let! t := Load FTailPublish in
  let! h := Load FHeadPublish in
  Ret (Some (sub64 t h)).

Definition empty : prog (option bool) := pmap (option_map (fun n => n =? 0)) size.

(** *** Creating, opening and claiming *)

Context (sys : Syscalls).

Definition create (path : string) : M Mapping :=
  create_mapping sys path (u64 (Capacity * sizeof_T)) kFlagFixedSPSC.

(** The local [mapping] is destroyed on the throwing path.  (The messages of the
    exceptions are given without the two sizes.) *)
Definition open (path : string) : M Mapping :=
  mapping ← open_mapping sys path kFlagFixedSPSC;
  if negb (capacity mapping =? u64 (Capacity * sizeof_T))
  then _ ← reset sys mapping; throw (RuntimeError "SPSCQueue::open capacity mismatch")
  else mret mapping.

(** [std::filesystem::exists] is a directory lookup. *)
Definition claim (path : string) : M (Mapping * ClaimResult) := fun w =>
  match dir w !! path with
  | None =>
      (m ← create_mapping sys path (u64 (Capacity * sizeof_T)) kFlagFixedSPSC;
       mret (m, kCreated)) w
  | Some _ =>
      (mapping ← open_mapping sys path kFlagFixedSPSC;
       if negb (capacity mapping =? u64 (Capacity * sizeof_T))
       then _ ← reset sys mapping; throw (RuntimeError "SPSCQueue::claim capacity mismatch")
       else mret (mapping, kResumed)) w
  end.
End Code.

(** ** Calls *)

Inductive qop := QPush (value : list byte) | QPop (out : list byte) | QSize.
Inductive qres := QPushed (ok : bool) | QPopped (ok : bool) (out : list byte) | QSized (n : Z).

Definition qbody (sizeof_T Capacity : Z) (o : qop) : prog (option qres) :=
  match o with
  | QPush value => pmap (option_map QPushed) (try_push sizeof_T Capacity value)
  | QPop out => pmap (option_map (fun r => QPopped r.1 r.2)) (try_pop sizeof_T Capacity out)
  | QSize => pmap (option_map QSized) size
  end.

(** Thread 1 produces, thread 0 consumes; both may ask for the size.  The
    argument of a push is a [T]. *)
Definition qrole (sizeof_T : Z) (t : nat) (o : qop) : bool :=
  match t, o with
  | 1%nat, QPush value => Z.of_nat (length value) =? sizeof_T
  | O, QPop _ => true
  | O, QSize | 1%nat, QSize => true
  | _, _ => false
  end.

Definition qpushed (l : list (qop * qres)) : list (list byte) :=
  omap (fun e => match e with (QPush v, QPushed true) => Some v | _ => None end) l.
Definition qpopped (l : list (qop * qres)) : list (list byte) :=
  omap (fun e => match e with (QPop _, QPopped true v) => Some v | _ => None end) l.
(** The last call of a thread was refused: a pop from an empty queue or a push
    to a full one. *)
Definition qrefused (l : list (qop * qres)) : Prop :=
  match list.last l with
  | Some (QPop _, QPopped ok _) | Some (QPush _, QPushed ok) => ok = false
  | _ => False
  end.
Definition qsizes (l : list (qop * qres)) : list Z :=
  omap (fun e => match e with (QSize, QSized n) => Some n | _ => None end) l.

(** ** Concurrent correctness *)

Section Queue.
Context (sz k : Z).
Abbreviation Cap := (2 ^ k).
(** [Capacity] is a power of two, and the slots fit in memory. *)
Context (Hsz : 0 < sz) (Hk : 0 <= k) (Hmem : Cap * sz < 2 ^ 62).

(** How many values have been popped, and every value pushed so far. *)
Record qghost := mkQ { qH : nat; qpub : list (list byte) }.
Abbreviation state := (shared * qghost)%type.

(** Slot [j] holds the value [v]; its first [n] bytes are those of [v]. *)
Definition slot_at (j : Z) : Z := (j mod Cap) * sz.
Definition holds_upto (n : Z) (m : list byte) (j : Z) (v : list byte) : Prop :=
  forall i, 0 <= i < n -> mbyte m (slot_at j + i) = v !!! Z.to_nat i.
Definition holds (m : list byte) (j : Z) (v : list byte) : Prop :=
  Z.of_nat (length v) = sz /\ holds_upto sz m j v.

Record qInv (s : state) : Prop := {
  qi_len : Cap * sz <= Z.of_nat (length (ring s.1));
  qi_head : load FHeadPublish s.1 = u64 (Z.of_nat (qH s.2));
  qi_tail : load FTailPublish s.1 = u64 (Z.of_nat (length (qpub s.2)));
  qi_pos : (qH s.2 <= length (qpub s.2))%nat /\
           Z.of_nat (length (qpub s.2)) <= Z.of_nat (qH s.2) + Cap;
  qi_slots : forall j v, (qH s.2 <= j)%nat -> qpub s.2 !! j = Some v -> holds (ring s.1) (Z.of_nat j) v;
}.

(** What the consumer and the producer tolerate from each other. *)
Definition qconsumer_rely (s s' : state) : Prop :=
  qH s'.2 = qH s.2 /\ qpub s.2 `prefix_of` qpub s'.2.
Definition qproducer_rely (s s' : state) : Prop :=
  qpub s'.2 = qpub s.2 /\ (qH s.2 <= qH s'.2)%nat /\ ring s'.1 = ring s.1.

(** An observer sees both counters grow. *)
Definition qobserver_rely (s s' : state) : Prop :=
  (qH s.2 <= qH s'.2)%nat /\ qpub s.2 `prefix_of` qpub s'.2.

Definition qrely (t : nat) : state -> state -> Prop :=
  match t with
  | O => qconsumer_rely
  | 1%nat => qproducer_rely
  | _ => qobserver_rely
  end.

#[local] Instance qrely_pre t : PreOrder (qrely t).
Proof.
  destruct t as [|[|t]]; simpl; unfold qconsumer_rely, qproducer_rely, qobserver_rely;
    split; try by intros ?.
  - intros s1 s2 s3 [? ?] [? ?]. cbv beta. split; [congruence | by etrans].
  - intros s1 s2 s3 (? & ? & ?) (? & ? & ?). cbv beta. split_and!; congruence || lia.
  - intros s1 s2 s3 [? ?] [? ?]. cbv beta. split; [lia | by etrans].
Qed.

Lemma qrely_observer t s s' : qrely t s s' -> qobserver_rely s s'.
Proof.
  unfold qobserver_rely. destruct t as [|[|t]]; simpl; [intros [-> ?] | intros (-> & ? & _) | done]; by split.
Qed.

#[local] Instance qconsumer_pre : PreOrder qconsumer_rely := qrely_pre 0.

Abbreviation any := (fun _ _ : shared => True).

Lemma Cap_pos : 0 < Cap.
Proof. lia. Qed.

Lemma Cap_lt : Cap < 2 ^ 62 /\ k < 62.
Proof.
  pose proof Cap_pos. assert (Hlt : Cap < 2 ^ 62) by nia. split; [done|].
  apply (Z.pow_lt_mono_r_iff 2); lia.
Qed.

(** The masked index is the slot number: wrap-around of the 64-bit index is
    harmless. *)
Lemma slot_offset j : 0 <= j -> u64 (Z.land (u64 j) (kMask Cap) * sz) = slot_at j.
Proof.
  intros Hj. pose proof Cap_lt as [? ?]. unfold kMask, slot_at.
  replace (Cap - 1) with (Z.ones k) by (rewrite Z.ones_equiv; lia).
  rewrite Z.land_ones by lia. unfold u64 at 2. rewrite Z.mod_mod_divide.
  - apply u64_small. pose proof (Z.mod_pos_bound j Cap Cap_pos). nia.
  - exists (2 ^ (64 - k)). rewrite <- Z.pow_add_r by lia. f_equal. lia.
Qed.

Lemma slot_range j i : 0 <= i < sz -> 0 <= slot_at j /\ slot_at j + i < Cap * sz.
Proof. intros. unfold slot_at. pose proof (Z.mod_pos_bound j Cap Cap_pos). nia. Qed.

(** Distinct indices less than [Cap] apart use disjoint slots. *)
Lemma slot_disjoint j j' i i' :
  j < j' < j + Cap -> 0 <= i < sz -> 0 <= i' < sz -> slot_at j + i <> slot_at j' + i'.
Proof.
  intros Hj Hi Hi' He. unfold slot_at in He.
  assert (j mod Cap = j' mod Cap) by nia.
  assert (Hd : (j' - j) mod Cap = 0) by (rewrite Zminus_mod; replace (j' mod Cap) with (j mod Cap) by done;
    rewrite Z.sub_diag; apply Zmod_0_l).
  rewrite Z.mod_small in Hd by lia. lia.
Qed.

(** Writing byte [i] of slot [T]. *)
Lemma slot_write m T v i b :
  Cap * sz <= Z.of_nat (length m) -> (i < length v)%nat -> Z.of_nat (length v) = sz ->
  v !! i = Some b -> holds_upto (Z.of_nat i) m T v ->
  let m' := splice m (slot_at T + Z.of_nat i) [b] in
  length m' = length m /\ holds_upto (Z.of_nat (S i)) m' T v /\
  forall j w, j < T < j + Cap -> holds m j w -> holds m' j w.
Proof.
  intros Hm Hi Hv Hb Hup m'. pose proof (slot_range T (Z.of_nat i) ltac:(lia)) as [? ?].
  assert (Hat : forall x, 0 <= x -> mbyte m' x =
    if x =? slot_at T + Z.of_nat i then b else mbyte m x).
  { intros x Hx. unfold m'. rewrite mbyte_splice by (simpl; lia). simpl.
    destruct (x =? _) eqn:E; bool_to_prop.
    - subst x. rewrite (proj2 (Z.leb_le _ _)), (proj2 (Z.ltb_lt _ _)), Z.sub_diag by lia. done.
    - case_if; [lia | done]. }
  split; [|split].
  - apply length_splice; simpl; lia.
  - intros x Hx. rewrite Hat by lia. case_if.
    + replace (Z.to_nat x) with i by lia. symmetry. by apply list_lookup_total_correct.
    + apply Hup. lia.
  - intros j w Hj [Hw Hh]. split; [done|]. intros x Hx. pose proof (slot_range j x Hx) as [? ?].
    rewrite Hat by lia. case_if; [|by apply Hh].
    exfalso. by apply (slot_disjoint j T x (Z.of_nat i)); auto; lia.
Qed.

(** Reading byte [i] of a filled slot. *)
Lemma slot_read m j v i :
  Cap * sz <= Z.of_nat (length m) -> holds m j v -> 0 <= i < sz ->
  mem_read m (slot_at j + i) 1 = Some [v !!! Z.to_nat i].
Proof.
  intros Hm [_ Hh] Hi. destruct (slot_range j i Hi) as [? ?].
  rewrite mem_read_Some by lia. f_equal. rewrite <- (Hh i Hi).
  unfold mbyte. change (Z.to_nat 1) with 1%nat.
  destruct (lookup_lt_is_Some_2 m (Z.to_nat (slot_at j + i))) as [c Hc]; [lia|].
  rewrite (drop_S _ c) by done. by erewrite list_lookup_total_correct.
Qed.

Abbreviation wp := (wp any qInv qrely).

Lemma qproducer_change s s1 g' K :
  qconsumer_rely s (s1, g') -> qInv (s1, g') -> K (s1, g') -> change any qInv qrely 1 s s1 K.
Proof.
  intros Hr. intros. intros _. exists g'. split_and!; auto. intros [|[|t']] ?; [done.. |].
  by apply (qrely_observer 0).
Qed.

Lemma qconsumer_change s s1 g' K :
  qproducer_rely s (s1, g') -> qInv (s1, g') -> K (s1, g') -> change any qInv qrely 0 s s1 K.
Proof.
  intros Hr. intros. intros _. exists g'. split_and!; auto. intros [|[|t']] ?; [done.. |].
  by apply (qrely_observer 1).
Qed.

(** The distance between the published tail and a head is small. *)
Lemma distance (a b : nat) : (b <= a)%nat -> Z.of_nat a <= Z.of_nat b + Cap ->
  sub64 (u64 (Z.of_nat a)) (u64 (Z.of_nat b)) = Z.of_nat a - Z.of_nat b.
Proof. pose proof Cap_lt. intros. apply sub64_u64. lia. Qed.

(** *** The producer *)

(** Filling slot [T], of which [i] bytes are written. *)
Definition filling (h : nat) (pub : list (list byte)) (v : list byte) (i : nat) (s : state) : Prop :=
  (h <= qH s.2)%nat /\ qpub s.2 = pub /\ Z.of_nat (length pub) < Z.of_nat (qH s.2) + Cap /\
  holds_upto (Z.of_nat i) (ring s.1) (Z.of_nat (length pub)) v.

Lemma filling_stable h pub v i s s' : filling h pub v i s -> qproducer_rely s s' -> filling h pub v i s'.
Proof.
  intros (Hl & Hp & Hr & Hh) (Hp' & Hr' & Hm). unfold filling. rewrite Hm. split_and!; auto; [lia | congruence | lia].
Qed.

Lemma filling_write h pub v i b s :
  Z.of_nat (length v) = sz -> v !! i = Some b -> filling h pub v i s -> qInv s ->
  exists m, mem_write (ring s.1) (slot_at (Z.of_nat (length pub)) + Z.of_nat i) [b] = Some m /\
    change any qInv qrely 1 s (with_ring m s.1) (filling h pub v (S i)).
Proof.
  intros Hv Hb (Hle & Hp & Hr & Hh) HI. pose proof (lookup_lt_Some _ _ _ Hb) as Hi.
  pose proof (qi_len _ HI) as Hlen.
  destruct (slot_range (Z.of_nat (length pub)) (Z.of_nat i)) as [? ?]; [lia|].
  destruct (slot_write (ring s.1) (Z.of_nat (length pub)) v i b) as (Hl & Hup & Hoth); auto.
  eexists. split; [apply mem_write_Some; simpl; lia|].
  apply qproducer_change with (g' := s.2); [done | |].
  - destruct HI as [? ? ? [? ?] Hs]. constructor; sh_simpl; auto; [lia|].
    intros j w Hj Hw. apply Hoth; [|auto]. rewrite Hp in *. apply lookup_lt_Some in Hw. lia.
  - unfold filling. sh_simpl. by split_and!.
Qed.

(** Publishing slot [T]; freeing the first slot. *)
Lemma qInv_publish s h pub v :
  qInv (s, mkQ h pub) -> Z.of_nat (length v) = sz -> Z.of_nat (length pub) < Z.of_nat h + Cap ->
  holds_upto sz (ring s) (Z.of_nat (length pub)) v ->
  qInv (store FTailPublish (u64 (Z.of_nat (length pub) + 1)) s, mkQ h (pub ++ [v])).
Proof.
  intros [? ? ? [? ?] Hs] Hv Hr Hh. simpl in *. constructor; sh_simpl; auto.
  - rewrite length_app. simpl. f_equal. lia.
  - rewrite length_app. simpl. lia.
  - intros j w Hj Hw. apply lookup_app_Some in Hw as [Hw | [Hl Hw]]; [auto|].
    apply list_lookup_singleton_Some in Hw as [Hj0 <-].
    by replace j with (length pub) by lia.
Qed.

Lemma qInv_free s h pub :
  qInv (s, mkQ h pub) -> (h < length pub)%nat ->
  qInv (store FHeadPublish (u64 (Z.of_nat h + 1)) s, mkQ (S h) pub).
Proof.
  intros [? ? ? [? ?] Hs] Hlt. simpl in *.
  constructor; sh_simpl; auto; [f_equal; lia | lia |]. intros. apply Hs; auto. lia.
Qed.

(** The push after its loads; [h] is a head that was seen. *)
Lemma push_slot_wp v h s (Q : option bool -> state -> Prop) :
  Z.of_nat (length v) = sz -> qInv s -> h <= Z.of_nat (qH s.2) ->
  h <= Z.of_nat (length (qpub s.2)) <= h + Cap ->
  (forall s', qInv s' -> (qH s.2 <= qH s'.2)%nat -> qpub s'.2 = qpub s.2 ->
     h + Cap <= Z.of_nat (length (qpub s.2)) -> Q (Some false) s') ->
  (forall s', qInv s' -> (qH s.2 <= qH s'.2)%nat -> qpub s'.2 = qpub s.2 ++ [v] ->
     Q (Some true) s') ->
  wp 1 Q (push_slot sz Cap v (u64 (Z.of_nat (length (qpub s.2)))) (u64 h)) s.
Proof.
  intros Hv HI Hh Hd Hf Ht. pose proof Cap_lt. unfold push_slot.
  rewrite sub64_u64, Z.geb_leb by lia.
  case_if. { intros s3 (Hp3 & ? & _) HI3. apply Hf; [done | lia | congruence | lia]. }
  rewrite slot_offset, take_ge by lia. set (pub := qpub s.2) in *.
  apply wp_memcpy_to with (J := filling (qH s.2) pub v).
  - unfold filling. split_and!; auto; [lia..|]. intros i Hi. lia.
  - intros. by eapply filling_stable.
  - intros. by apply filling_write.
  - intros s3 HJ3 s4 Hr4 HI4. apply (filling_stable _ _ _ _ _ _ HJ3) in Hr4 as (Hl4 & Hp4 & Hr4 & Hh4).
    rewrite add64_u64. apply qproducer_change with (g' := mkQ (qH s4.2) (pub ++ [v])).
    + split; [done|]. simpl. rewrite Hp4. by apply prefix_app_r.
    + rewrite Hv in Hh4. apply qInv_publish; auto. rewrite <- Hp4. by destruct s4 as [? []].
    + intros s5 (Hp5 & Hl5 & _) HI5. simpl in Hp5, Hl5. apply Ht; [done | lia | congruence].
Qed.

Lemma qpush_wp v s (Q : option bool -> state -> Prop) :
  Z.of_nat (length v) = sz -> qInv s ->
  (forall s', qInv s' -> (qH s.2 <= qH s'.2)%nat -> qpub s'.2 = qpub s.2 ->
     Z.of_nat (qH s.2) + Cap <= Z.of_nat (length (qpub s.2)) -> Q (Some false) s') ->
  (forall s', qInv s' -> (qH s.2 <= qH s'.2)%nat -> qpub s'.2 = qpub s.2 ++ [v] ->
     Q (Some true) s') ->
  wp 1 Q (try_push sz Cap v) s.
Proof.
  intros Hv HI Hf Ht. unfold try_push.
  intros s1 (Hp1 & Hh1 & _) HI1 s2 (Hp2 & Hh2 & _) HI2.
  rewrite (qi_tail _ HI1), (qi_head _ HI2), <- Hp2. destruct (qi_pos _ HI2) as [? ?].
  apply push_slot_wp; auto; [lia | lia | |]; intros s' HI' Hh' Hp'; [intros Hfull; apply Hf | apply Ht]; auto;
    try congruence; try lia. rewrite Hp2, Hp1 in Hfull. lia.
Qed.

(** *** The consumer *)

(** The pop after its loads; [t] is a tail that was seen. *)
Lemma pop_slot_wp out t s (Q : option (bool * list byte) -> state -> Prop) :
  qInv s -> Z.of_nat (qH s.2) <= t <= Z.of_nat (length (qpub s.2)) ->
  (forall s', qInv s' -> qobserver_rely s s' ->
     take (qH s'.2) (qpub s'.2) = take (qH s.2) (qpub s.2) -> t <= Z.of_nat (qH s.2) -> Q (Some (false, out)) s') ->
  (forall s' v, qInv s' -> qobserver_rely s s' -> take (qH s'.2) (qpub s'.2) = take (qH s.2) (qpub s.2) ++ [v] ->
     Q (Some (true, v)) s') ->
  wp 0 Q (pop_slot sz Cap out (u64 (Z.of_nat (qH s.2))) (u64 t)) s.
Proof.
  intros HI Hd Hf Ht. pose proof Cap_lt. unfold pop_slot. destruct (qi_pos _ HI) as [Hp0 Hp1].
  assert (Hsame : forall s', qconsumer_rely s s' -> take (qH s'.2) (qpub s'.2) = take (qH s.2) (qpub s.2)).
  { intros s' [-> [l ->]]. by rewrite take_app_le by lia. }
  case_if.
  { intros s3 Hr3 HI3. apply Hf; [done | by apply (qrely_observer 0) | by apply Hsame |].
    apply u64_inj in Heqb; lia. }
  assert (Hlt : (qH s.2 < length (qpub s.2))%nat).
  { destruct (decide (Z.of_nat (qH s.2) = t)) as [e|]; [|lia]. by rewrite e in Heqb. }
  destruct (lookup_lt_is_Some_2 _ _ Hlt) as [v Hv]. rewrite slot_offset by lia.
  set (hd := qH s.2) in *.
  assert (Hst : forall s1 s2, (qH s1.2 = hd /\ qpub s1.2 !! hd = Some v) -> qconsumer_rely s1 s2 ->
    qH s2.2 = hd /\ qpub s2.2 !! hd = Some v).
  { intros a b [Ha Hb] [Hc Hd']. split; [congruence|]. by eapply prefix_lookup_Some. }
  assert (Hlen : length v = Z.to_nat sz).
  { destruct (qi_slots _ HI hd v) as [Hl _]; auto. lia. }
  apply wp_memcpy_from with (J := fun bs s' => qconsumer_rely s s' /\
    (qH s'.2 = hd /\ qpub s'.2 !! hd = Some v) /\ bs = take (length bs) v).
  - split_and!; auto. reflexivity.
  - intros bs a b (Ha & Hb & Hc) Hrab HIb. split_and!; auto; [by transitivity a | by eapply Hst..].
  - intros bs a Hbs (Ha & [Hb Hb'] & Hc) HIa. exists (v !!! length bs).
    pose proof (qi_slots _ HIa hd v ltac:(lia) Hb') as Hh. pose proof (qi_len _ HIa).
    split.
    + rewrite (slot_read _ _ v) by (done || lia). by rewrite Nat2Z.id.
    + split_and!; auto. rewrite length_app. simpl. rewrite Nat.add_1_r, Hc at 1.
      symmetry. apply take_S_r. apply list_lookup_lookup_total_lt. lia.
  - intros bs s3 Hbs (Hr3 & [Hb Hb'] & ->) s4 Hr4 HI4. rewrite take_ge by lia.
    destruct (Hst s3 s4) as [Hb4 Hb4']; auto. assert (Hr34 : qconsumer_rely s s4) by (by transitivity s3).
    rewrite add64_u64. apply qconsumer_change with (g' := mkQ (S hd) (qpub s4.2)).
    + unfold qproducer_rely. sh_simpl. split_and!; auto. lia.
    + apply lookup_lt_Some in Hb4' as Hlt4. apply qInv_free; [|done].
      rewrite <- Hb4. by destruct s4 as [? []].
    + intros s5 Hr5 HI5. apply Ht; [done | |].
      { destruct Hr34 as [? ?], Hr5 as [Hh5 Hp5]. simpl in Hh5, Hp5.
        unfold qobserver_rely. split; [lia | by etrans]. }
      destruct Hr5 as [Hh5 [l Hp5]]. simpl in Hh5, Hp5.
      apply lookup_lt_Some in Hb4' as Hlt4. rewrite Hh5, Hp5, take_app_le by lia.
      rewrite (take_S_r _ _ v) by done. f_equal. rewrite <- (Hsame s4), Hb4 by done. done.
Qed.

Lemma qpop_wp out s (Q : option (bool * list byte) -> state -> Prop) :
  qInv s ->
  (forall s', qInv s' -> qobserver_rely s s' ->
     take (qH s'.2) (qpub s'.2) = take (qH s.2) (qpub s.2) -> (length (qpub s.2) <= qH s.2)%nat ->
     Q (Some (false, out)) s') ->
  (forall s' v, qInv s' -> qobserver_rely s s' -> take (qH s'.2) (qpub s'.2) = take (qH s.2) (qpub s.2) ++ [v] ->
     Q (Some (true, v)) s') ->
  wp 0 Q (try_pop sz Cap out) s.
Proof.
  intros HI Hf Ht. unfold try_pop.
  intros s1 Hr1 HI1 s2 Hr2 HI2. assert (Hr : qconsumer_rely s s2) by (by transitivity s1).
  rewrite (qi_head _ HI1), (qi_tail _ HI2). destruct Hr2 as [<- _].
  destruct (qi_pos _ HI) as [Hp0 _]. destruct (qi_pos _ HI2) as [? ?].
  assert (Hsame : take (qH s2.2) (qpub s2.2) = take (qH s.2) (qpub s.2)).
  { destruct Hr as [-> [l ->]]. by rewrite take_app_le by lia. }
  assert (Ho : forall s', qobserver_rely s2 s' -> qobserver_rely s s').
  { intros s' [? ?]. destruct Hr as [? ?]. unfold qobserver_rely. split; [lia | by etrans]. }
  apply pop_slot_wp; auto; [lia | |]; rewrite Hsame; intros; [apply Hf | apply Ht]; auto.
  destruct Hr as [? Hpre%prefix_length]. lia.
Qed.

Lemma qsize_wp t s (Q : option Z -> state -> Prop) :
  (t < 2)%nat -> qInv s ->
  (forall s' n, qInv s' -> qrely t s s' -> 0 <= n <= Cap -> Q (Some n) s') -> wp t Q size s.
Proof.
  intros Ht HI HQ. unfold size. intros s1 Hr1 HI1 s2 Hr2 HI2 s3 Hr3 HI3.
  apply HQ; [done | by do 2 (etransitivity; [eassumption|])|].
  rewrite (qi_tail _ HI1), (qi_head _ HI2).
  destruct (qi_pos _ HI1) as [? ?], (qi_pos _ HI2) as [? ?].
  assert ((qH s2.2 <= length (qpub s1.2))%nat /\
    Z.of_nat (length (qpub s1.2)) <= Z.of_nat (qH s2.2) + Cap) as [? ?].
  { destruct t as [|[|t]]; [destruct Hr2 as [-> _]; lia | | lia].
    destruct Hr2 as (<- & ? & _). lia. }
  rewrite distance by done. lia.
Qed.

(** *** All interleavings

    From a queue whose counters are [b]: what was pushed and popped before. *)

Context (b : qghost).

(** The counters were [m] at an earlier point, at which thread [who] had made
    [n] calls; [seen] is what a refused call after that point tells. *)
Definition seen (who n : nat) (m : qghost) (t : nat) (l : list (qop * qres)) (s : state) : Prop :=
  t = who ->
  ((qH m <= qH s.2)%nat /\ (length (qpub m) <= length (qpub s.2))%nat) /\
  ((n < length l)%nat -> qrefused l ->
   match t with
   | O => (length (qpub m) <= qH s.2)%nat
   | _ => Z.of_nat (qH m) + Cap <= Z.of_nat (length (qpub s.2))
   end).

Definition qP (who n : nat) (m : qghost) (t : nat) (l : list (qop * qres)) (s : state) : Prop :=
  Forall (fun n => 0 <= n <= Cap) (qsizes l) /\ seen who n m t l s /\
  match t with
  | O => (qH s.2 <= length (qpub s.2))%nat /\
         take (qH s.2) (qpub s.2) = take (qH b) (qpub b) ++ qpopped l
  | 1%nat => qpub s.2 = qpub b ++ qpushed l
  | _ => True
  end.

Lemma qP_stable who n m t l s s' : qP who n m t l s -> qrely t s s' -> qInv s' -> qP who n m t l s'.
Proof.
  intros (Hs & Hseen & HP) Hr _. pose proof (qrely_observer _ _ _ Hr) as [? Hpre%prefix_length].
  split_and!; [done | |].
  { intros E. destruct (Hseen E) as [? Hm]. split; [lia|]. intros Hn Hq. specialize (Hm Hn Hq).
    destruct t; lia. }
  destruct t as [|[|t]]; simpl in *.
  - destruct HP as [? ?], Hr as [-> [l' ->]]. rewrite length_app, take_app_le by done. split; [lia | done].
  - destruct Hr as (-> & _). done.
  - done.
Qed.

(** A call's result joins the thread's history. *)
Lemma q_histories (l : list (qop * qres)) o r :
  qsizes (l ++ [(o, r)]) = qsizes l ++ qsizes [(o, r)] /\
  qpushed (l ++ [(o, r)]) = qpushed l ++ qpushed [(o, r)] /\
  qpopped (l ++ [(o, r)]) = qpopped l ++ qpopped [(o, r)].
Proof. unfold qsizes, qpushed, qpopped. by rewrite !omap_app. Qed.

Lemma qbody_ok who n m t o l s :
  qrole sz t o = true -> qP who n m t l s -> qInv s ->
  wp t (post (qP who n m) t o l) (qbody sz Cap o) s.
Proof.
  intros Hrole (Hs & Hseen & HP) HI. destruct o as [v|out|]; unfold qbody; apply wp_pmap.
  - destruct t as [|[|t]]; try done. simpl in Hrole. apply Z.eqb_eq in Hrole.
    apply qpush_wp; auto; [intros s' _ Hh Hp Hfull | intros s' _ Hh Hp];
      unfold post, qP, seen, qrefused; simpl option_map; cbv iota; rewrite last_snoc, Hp.
    + destruct (q_histories l (QPush v) (QPushed false)) as (-> & -> & _). simpl.
      rewrite !app_nil_r. split_and!; [done | intros E; destruct (Hseen E); split; [lia | intros; lia] | done].
    + destruct (q_histories l (QPush v) (QPushed true)) as (-> & -> & _). simpl.
      rewrite app_nil_r, length_app. split_and!; [done | intros E; destruct (Hseen E); split; [lia | done] |].
      by rewrite HP, app_assoc.
  - destruct t as [|[|t]]; try done. simpl in HP. destruct HP as [Hle HP].
    apply qpop_wp; auto; [intros s' HI' Hr Hp Hemp | intros s' v HI' Hr Hp];
      destruct (qi_pos _ HI') as [? _], Hr as [? Hpre%prefix_length];
      unfold post, qP, seen, qrefused; simpl option_map; cbv iota; rewrite last_snoc.
    + destruct (q_histories l (QPop out) (QPopped false out)) as (-> & _ & ->). simpl.
      rewrite !app_nil_r. split_and!; [done | intros E; destruct (Hseen E); split; [lia | intros; lia] | done | congruence].
    + destruct (q_histories l (QPop out) (QPopped true v)) as (-> & _ & ->). simpl.
      rewrite !app_nil_r. split_and!; [done | intros E; destruct (Hseen E); split; [lia | done] | done |].
      by rewrite Hp, HP, app_assoc.
  - apply qsize_wp; auto.
    { destruct t as [|[|t]]; [lia | lia | done]. }
    intros s' n' HI' Hr Hn. unfold post. simpl option_map. cbv iota.
    destruct (qP_stable who n m t l s s') as (_ & Hm' & HP'); [by split_and! | done | done |].
    unfold qP, seen, qrefused. rewrite last_snoc.
    destruct (q_histories l QSize (QSized n')) as (-> & -> & ->). simpl.
    rewrite !app_nil_r. split_and!; [apply Forall_app; by auto | intros E; split; [by apply Hm' | done] | done].
Qed.

Lemma qtick_ok d s g : 0 <= d -> True -> qInv (s, g) ->
  qInv (tick d s, g) /\ forall t, qrely t (s, g) (tick d s, g).
Proof.
  intros _ _ []. split; [by constructor|]. intros [|[|t]]; simpl.
  - split; reflexivity.
  - split_and!; auto.
  - split; [simpl; lia | reflexivity].
Qed.

(** A freshly created queue: the mapping has room for the slots. *)
Definition qfresh (s : shared) : Prop :=
  ctl s = mkControl 0 0 0 0 0 /\ Cap * sz <= Z.of_nat (length (ring s)).

Lemma qfresh_Inv s : qfresh s -> qInv (s, mkQ 0 []).
Proof.
  intros [Hc Hl]. constructor; simpl; auto; try (unfold load; by rewrite Hc); [lia|].
  intros j v _ Hv. by rewrite lookup_nil in Hv.
Qed.

Abbreviation ok who n m := (config_ok (qrole sz) any qInv qrely (qP who n m)).

Lemma q_reach_from s c :
  qInv (s, b) -> creach (qbody sz Cap) (qrole sz) any s c -> exists g, ok 2%nat O b c g.
Proof.
  intros Hf Hr. eapply (rg_sound (qbody sz Cap) (qrole sz) any qInv qrely (qP 2 0 b));
    eauto using qP_stable, qbody_ok, qtick_ok.
  intros t. split_and!; [constructor | intros _; split; [done | intros H; simpl in H; lia] |].
  destruct t as [|[|t]]; simpl; [| by rewrite app_nil_r | done].
  rewrite app_nil_r. split; [apply Hf | done].
Qed.

Lemma q_steps who n m c c' g :
  ok who n m c g -> rtc (cstep (qbody sz Cap) (qrole sz) any) c c' ->
  exists g', ok who n m c' g' /\ (qH g <= qH g')%nat /\ qpub g `prefix_of` qpub g'.
Proof.
  intros Hc Hs. destruct (config_ok_steps (qbody sz Cap) (qrole sz) any qInv qrely (qP who n m)
    (qP_stable _ _ _) (qbody_ok _ _ _) qtick_ok c c' g Hc Hs) as (g' & Hc' & Ho).
  exists g'. split; [done|]. apply (Ho qobserver_rely); [apply (qrely_pre 2) | apply qrely_observer].
Qed.

(** From a point where thread [who] is between calls: the counters at that
    point are what its later refused calls must have seen. *)
Lemma q_mark c g who n m :
  ok 2%nat n m c g -> c_thr c !! who = None -> who <> 2%nat ->
  ok who (length (tlog who (c_log c))) g c g.
Proof.
  intros (Hf & HI & Ht) Hidle Hwho. split_and!; [done | done |]. intros t. specialize (Ht t).
  destruct (decide (t = who)) as [-> | Hne].
  - rewrite Hidle in *. destruct Ht as (? & _ & ?). split_and!; try done.
    intros _. split; [done|]. intros. lia.
  - assert (Hno : forall l s, qP 2 n m t l s -> qP who (length (tlog who (c_log c))) g t l s).
    { intros l s (? & _ & ?). by split_and!. }
    destruct (c_thr c !! t) as [[o p]|]; [|by apply Hno]. destruct Ht as [? Hw]. split; [done|].
    eapply wp_mono; [|exact Hw]. intros [r|] s'; apply Hno.
Qed.
End Queue.

Lemma q_reach sz k s c :
  0 < sz -> 0 <= k -> 2 ^ k * sz < 2 ^ 62 -> qfresh sz k s ->
  creach (qbody sz (2 ^ k)) (qrole sz) (fun _ _ => True) s c ->
  exists g, config_ok (qrole sz) (fun _ _ => True) (qInv sz k) qrely
    (qP k (mkQ 0 []) 2 0 (mkQ 0 [])) c g.
Proof. intros ? ? ? Hf. apply q_reach_from; auto. by apply qfresh_Inv. Qed.

(** C12: in every interleaving of one producer and one consumer on a fresh
    [SPSCQueue] with a power-of-two capacity, and for any number of messages
    (the 64-bit indices may wrap around): no access is out of bounds; the values
    popped are, in order and byte for byte, a prefix of the values pushed, at
    most [Capacity] behind; and [size] as seen by either end is at most
    [Capacity]. *)
Theorem spsc_queue_fifo sz k s c :
  0 < sz -> 0 <= k -> 2 ^ k * sz < 2 ^ 62 -> qfresh sz k s ->
  creach (qbody sz (2 ^ k)) (qrole sz) (fun _ _ => True) s c ->
  c_fault c = false /\
  exists pub n, (n <= length pub)%nat /\ Z.of_nat (length pub - n) <= 2 ^ k /\
    (c_thr c !! 1%nat = None -> qpushed (tlog 1 (c_log c)) = pub) /\
    (c_thr c !! O = None -> qpopped (tlog 0 (c_log c)) = take n pub) /\
    forall t, c_thr c !! t = None -> Forall (fun n => 0 <= n <= 2 ^ k) (qsizes (tlog t (c_log c))).
Proof.
  intros Hsz Hk Hm Hf Hr. destruct (q_reach sz k s c Hsz Hk Hm Hf Hr) as (g & Hfl & HI & Ht).
  split; [done|]. destruct (qi_pos _ _ _ HI) as [? ?]. simpl in *.
  exists (qpub g), (qH g). split_and!; [done | lia | | |].
  - intros Hidle. specialize (Ht 1%nat). rewrite Hidle in Ht. by destruct Ht as (_ & _ & Ht).
  - intros Hidle. specialize (Ht O). rewrite Hidle in Ht. by destruct Ht as (_ & _ & _ & Ht).
  - intros t Hidle. specialize (Ht t). rewrite Hidle in Ht. by destruct Ht.
Qed.

Definition qdemo : list act :=
  [AStart 1 (QPush [x01; x02])] ++ steps 1 3 ++
  [AStart 0 (QPop [])] ++ steps 0 3 ++ steps 1 3 ++
  [AStart 1 (QPush [x03; x04])] ++ steps 1 4 ++
  [AStart 0 (QPop [])] ++ steps 0 3 ++ steps 1 2 ++ steps 0 3 ++
  [AStart 1 QSize] ++ steps 1 3.

Definition queue_mem : shared := mkShared (mkControl 0 0 0 0 0) (replicate 8 x00) 0.

Lemma spsc_queue_fifo_witness :
  exists c, crun (qbody 2 4) (qrole 2) qdemo (init_config queue_mem) = Some c /\
    qpopped (tlog 0 (c_log c)) = [[x01; x02]] /\ c_fault c = false /\
    exists pub n, (n <= length pub)%nat /\ Z.of_nat (length pub - n) <= 2 ^ 2 /\
      (c_thr c !! 1%nat = None -> qpushed (tlog 1 (c_log c)) = pub) /\
      (c_thr c !! O = None -> qpopped (tlog 0 (c_log c)) = take n pub) /\
      forall t, c_thr c !! t = None -> Forall (fun n => 0 <= n <= 2 ^ 2) (qsizes (tlog t (c_log c))).
Proof.
  eexists. split; [vm_compute; reflexivity|]. split; [vm_compute; reflexivity|].
  apply (spsc_queue_fifo 2 2 queue_mem); [lia | lia | lia | by split |].
  apply (crun_checked_reach _ _ _ (fun _ _ => true) qdemo); [done|]. vm_compute. reflexivity.
Defined.

(** C21: refusals are justified.  Take a point [c0] where one end of the queue is
    between calls, a later point [c1] where the other end is, and a point [c]
    where the last of that other end's further calls was refused.  A refused pop
    has popped every value whose push had returned before the pop started; a
    refused push found [Capacity] values that had not been popped before the push
    started. *)
Theorem spsc_queue_refusals sz k s c0 c1 c :
  0 < sz -> 0 <= k -> 2 ^ k * sz < 2 ^ 62 -> qfresh sz k s ->
  creach (qbody sz (2 ^ k)) (qrole sz) (fun _ _ => True) s c0 ->
  rtc (cstep (qbody sz (2 ^ k)) (qrole sz) (fun _ _ => True)) c0 c1 ->
  rtc (cstep (qbody sz (2 ^ k)) (qrole sz) (fun _ _ => True)) c1 c ->
  forall t, c_thr c1 !! t = None -> c_thr c !! t = None ->
  (length (tlog t (c_log c1)) < length (tlog t (c_log c)))%nat -> qrefused (tlog t (c_log c)) ->
  (t = 0%nat -> c_thr c0 !! 1%nat = None ->
     (length (qpushed (tlog 1 (c_log c0))) <= length (qpopped (tlog 0 (c_log c))))%nat) /\
  (t = 1%nat -> c_thr c0 !! 0%nat = None ->
     Z.of_nat (length (qpopped (tlog 0 (c_log c0)))) + 2 ^ k <=
       Z.of_nat (length (qpushed (tlog 1 (c_log c))))).
Proof.
  intros Hsz Hk Hm Hf Hr H01 H1c t Hi1 Hi Hlt Href.
  destruct (q_reach sz k s c0 Hsz Hk Hm Hf Hr) as (g0 & Hc0).
  destruct (q_steps sz k Hsz Hk Hm _ _ _ _ _ _ _ Hc0 H01) as (g1 & Hc1 & Hh1 & Hp1%prefix_length).
  split; intros -> Hi0; destruct Hc0 as (_ & _ & Ht0);
    pose proof (q_mark sz k _ c1 g1 _ _ _ Hc1 Hi1 ltac:(done)) as Hm1;
    destruct (q_steps sz k Hsz Hk Hm _ _ _ _ _ _ _ Hm1 H1c) as (g & (_ & HI & Ht) & _);
    [specialize (Ht 0%nat); specialize (Ht0 1%nat) | specialize (Ht 1%nat); specialize (Ht0 0%nat)];
    rewrite Hi in Ht; rewrite Hi0 in Ht0; destruct Ht as (_ & Hs & Hl), Ht0 as (_ & _ & Hl0);
    destruct (Hs eq_refl) as [_ Hs']; specialize (Hs' Hlt Href); simpl in *.
  - destruct Hl as [? <-]. rewrite <- Hl0, length_take. lia.
  - destruct Hl0 as [? <-]. rewrite <- Hl, length_take. lia.
Qed.

(** The producer fills a queue of two values and is refused; the consumer empties
    it while the producer starts over, and is then refused. *)
Definition full_schedule : list act :=
  concat [[AStart 1 (QPush [x01])]; steps 1 5; [AStart 1 (QPush [x02])]; steps 1 5].
Definition drain_schedule : list act :=
  concat [[AStart 0 (QPop [])]; steps 0 5; [AStart 0 (QPop [])]; steps 0 5;
          [AStart 1 (QPush [x03])]; steps 1 3; [AStart 0 (QPop [])]; steps 0 3].

Lemma spsc_queue_refusals_witness :
  let go acts c := after (qbody 1 2) (qrole 1) acts c in
  let c0 := init_config queue_mem in
  let c1 := go full_schedule c0 in
  let c2 := go ([AStart 1 (QPush [x03])] ++ steps 1 3) c1 in
  let c := go drain_schedule c2 in
  (qpopped (tlog 0 (c_log c)) = [[x01]; [x02]] /\
   (length (qpushed (tlog 1 (c_log c1))) <= length (qpopped (tlog 0 (c_log c))))%nat) /\
  Z.of_nat (length (qpopped (tlog 0 (c_log c0)))) + 2 ^ 1 <= Z.of_nat (length (qpushed (tlog 1 (c_log c2)))).
Proof.
  intros go c0 c1 c2 c.
  assert (H01 : rtc (cstep (qbody 1 2) (qrole 1) (fun _ _ => True)) c0 c1)
    by (apply crun_after_rtc; [done | vm_compute; reflexivity]).
  assert (H12 : rtc (cstep (qbody 1 2) (qrole 1) (fun _ _ => True)) c1 c2)
    by (apply crun_after_rtc; [done | vm_compute; reflexivity]).
  assert (H2c : rtc (cstep (qbody 1 2) (qrole 1) (fun _ _ => True)) c2 c)
    by (apply crun_after_rtc; [done | vm_compute; reflexivity]).
  split; [split; [vm_compute; reflexivity|]|].
  - apply (spsc_queue_refusals 1 1 queue_mem c1 c2 c) with (t := 0%nat); try done || lia.
    apply Nat.ltb_lt. vm_compute. reflexivity.
  - apply (spsc_queue_refusals 1 1 queue_mem c0 c1 c2) with (t := 1%nat); try done || lia.
    + apply rtc_refl.
    + apply Nat.ltb_lt. vm_compute. reflexivity.
Defined.

(** ** Sequential behaviour *)

Section Sequential.
Context (sz k : Z) (Hsz : 0 < sz) (Hk : 0 <= k) (Hmem : 2 ^ k * sz < 2 ^ 62).

(** A whole value written to slot [T]. *)
Lemma slot_write_all m T v :
  2 ^ k * sz <= Z.of_nat (length m) -> Z.of_nat (length v) = sz ->
  let m' := splice m (slot_at sz k T) v in
  length m' = length m /\ holds sz k m' T v /\
  forall j w, j < T < j + 2 ^ k -> holds sz k m j w -> holds sz k m' j w.
Proof.
  intros Hm Hv m'. destruct (slot_range sz k Hsz Hk T (sz - 1)) as [? ?]; [lia|].
  assert (Hat : forall x, 0 <= x -> mbyte m' x =
    if (slot_at sz k T <=? x) && (x <? slot_at sz k T + Z.of_nat (length v))
    then v !!! Z.to_nat (x - slot_at sz k T) else mbyte m x).
  { intros x Hx. unfold m'. by rewrite mbyte_splice by lia. }
  split; [|split].
  - apply length_splice; lia.
  - split; [done|]. intros i Hi. rewrite Hat by lia.
    rewrite (proj2 (Z.leb_le _ _)), (proj2 (Z.ltb_lt _ _)) by lia. simpl. f_equal. lia.
  - intros j w Hj [Hw Hh]. split; [done|]. intros i Hi.
    destruct (slot_range sz k Hsz Hk j i Hi) as [? ?]. rewrite Hat by lia. case_if; [|by apply Hh].
    exfalso. apply (slot_disjoint sz k Hsz Hk j T i (slot_at sz k j + i - slot_at sz k T)); auto; lia.
Qed.

Lemma qpush_eval v s h pub spurs :
  Z.of_nat (length v) = sz -> qInv sz k (s, mkQ h pub) ->
  exists s', eval spurs s (try_push sz (2 ^ k) v) =
      Done (Some (Z.of_nat (length pub - h) <? 2 ^ k)) s' spurs /\
    qInv sz k (s', mkQ h (if Z.of_nat (length pub - h) <? 2 ^ k then pub ++ [v] else pub)).
Proof.
  intros Hv HI. pose proof HI as [Hl Hh Ht [Hp1 Hp2] Hs]. simpl in *. unfold try_push, push_slot. cbn [eval].
  rewrite Ht, Hh, (distance sz k Hsz Hk Hmem) by done. rewrite Z.geb_leb.
  replace (Z.of_nat (length pub) - Z.of_nat h) with (Z.of_nat (length pub - h)) by lia.
  rewrite Z.ltb_antisym. destruct (2 ^ k <=? Z.of_nat (length pub - h)) eqn:E; bool_to_prop; [by exists s|].
  cbn [negb]. rewrite slot_offset, take_ge by (auto; lia).
  destruct (slot_range sz k Hsz Hk (Z.of_nat (length pub)) (sz - 1)) as [? ?]; [lia|].
  rewrite eval_memcpy_to by lia. cbn [eval]. rewrite add64_u64. eexists. split; [reflexivity|].
  destruct (slot_write_all (ring s) (Z.of_nat (length pub)) v) as (Hl' & Hn & Ho); auto.
  constructor; sh_simpl; auto.
  - lia.
  - rewrite length_app. simpl. f_equal. lia.
  - rewrite length_app. simpl. lia.
  - intros j w Hj Hw. apply lookup_app_Some in Hw as [Hw|[Hle Hw]].
    + apply Ho; auto. apply lookup_lt_Some in Hw. lia.
    + apply list_lookup_singleton_Some in Hw as [? <-]. by replace j with (length pub) by lia.
Qed.

Lemma qpop_eval out s h pub spurs :
  qInv sz k (s, mkQ h pub) ->
  exists s', eval spurs s (try_pop sz (2 ^ k) out) =
      Done (Some (match pub !! h with Some v => (true, v) | None => (false, out) end)) s' spurs /\
    qInv sz k (s', mkQ (match pub !! h with Some _ => S h | None => h end) pub).
Proof.
  intros HI. pose proof HI as [Hl Hh Ht [Hp1 Hp2] Hs]. simpl in *. pose proof (Cap_lt sz k Hsz Hk Hmem).
  unfold try_pop, pop_slot. cbn [eval]. rewrite Ht, Hh.
  destruct (pub !! h) as [v|] eqn:E.
  - pose proof (lookup_lt_Some _ _ _ E) as Hlt.
    case_if; [apply u64_inj in Heqb; lia|]. rewrite slot_offset by (auto; lia).
    destruct (Hs h v) as [Hv Hc]; auto.
    destruct (slot_range sz k Hsz Hk (Z.of_nat h) (sz - 1)) as [? ?]; [lia|].
    rewrite eval_memcpy_from by lia. cbn [eval].
    assert (Hr : take (Z.to_nat sz) (drop (Z.to_nat (slot_at sz k (Z.of_nat h))) (ring s)) = v).
    { apply list_eq_same_length with (n := Z.to_nat sz);
        [lia | rewrite length_take, length_drop; lia |].
      intros i x y Hi Hx Hy. specialize (Hc (Z.of_nat i) ltac:(lia)). unfold mbyte in Hc.
      rewrite Nat2Z.id in Hc. apply list_lookup_total_correct in Hy. rewrite Hy in Hc.
      rewrite lookup_take_lt, lookup_drop in Hx by lia. apply list_lookup_total_correct in Hx.
      rewrite <- Hx, <- Hc. f_equal. lia. }
    rewrite Hr, add64_u64. eexists. split; [reflexivity|].
    constructor; sh_simpl; auto; [f_equal; lia | lia |]. intros. apply Hs; auto. lia.
  - apply lookup_ge_None in E. replace h with (length pub) by lia. rewrite Z.eqb_refl.
    exists s. split; [done|]. by replace (length pub) with h by lia.
Qed.
End Sequential.

(** C13: run alone, [try_push] succeeds exactly when fewer than [Capacity]
    values are queued and [try_pop] exactly when one is; neither loops, and
    what was pushed is what is popped, oldest first. *)
Theorem spsc_queue_sequential sz k v out s h pub spurs :
  0 < sz -> 0 <= k -> 2 ^ k * sz < 2 ^ 62 -> Z.of_nat (length v) = sz ->
  qInv sz k (s, mkQ h pub) ->
  (exists s', eval spurs s (try_push sz (2 ^ k) v) =
      Done (Some (Z.of_nat (length pub - h) <? 2 ^ k)) s' spurs /\
    qInv sz k (s', mkQ h (if Z.of_nat (length pub - h) <? 2 ^ k then pub ++ [v] else pub))) /\
  (exists s', eval spurs s (try_pop sz (2 ^ k) out) =
      Done (Some (match pub !! h with Some v => (true, v) | None => (false, out) end)) s' spurs /\
    qInv sz k (s', mkQ (match pub !! h with Some _ => S h | None => h end) pub)) /\
  eval spurs s size = Done (Some (Z.of_nat (length pub - h))) s spurs /\
  eval spurs s empty = Done (Some (Z.of_nat (length pub - h) =? 0)) s spurs.
Proof.
  intros Hsz Hk Hm Hv HI. pose proof HI as [_ Hh Ht [Hp1 Hp2] _]. simpl in *.
  split_and!; [by apply qpush_eval | by apply qpop_eval | |];
    unfold empty, size; cbn [eval pmap]; rewrite Ht, Hh, (distance sz k Hsz Hk Hm) by (auto; lia);
    simpl; repeat f_equal; lia.
Qed.

Lemma spsc_queue_sequential_witness :
  (exists s', eval [] queue_mem (try_push 2 (2 ^ 2) [x07; x08]) = Done (Some true) s' [] /\
    qInv 2 2 (s', mkQ 0 [[x07; x08]])) /\
  (exists s', eval [] queue_mem (try_pop 2 (2 ^ 2) [x09; x09]) = Done (Some (false, [x09; x09])) s' [] /\
    qInv 2 2 (s', mkQ 0 [])) /\
  eval [] queue_mem size = Done (Some 0) queue_mem [] /\
  eval [] queue_mem empty = Done (Some true) queue_mem [].
Proof.
  apply (spsc_queue_sequential 2 2 [x07; x08] [x09; x09] queue_mem 0 [] []); [lia | lia | lia | done |].
  by apply qfresh_Inv.
Defined.

(** ** [size] for a third party *)

Definition qrole_observer (t : nat) (o : qop) : bool :=
  match t, o with 2%nat, QSize => true | _, _ => qrole 2 t o end.

Definition observer_schedule : list act :=
  [AStart 2 QSize] ++ steps 2 1 ++
  [AStart 1 (QPush [x01; x02])] ++ steps 1 6 ++
  [AStart 0 (QPop [])] ++ steps 0 6 ++ steps 2 2.

(** [size] loads the tail before the head, so a thread that is neither the
    producer nor the consumer can compute a negative difference: with a queue
    that never holds more than one value it reports [2^64 - 1]. *)
Theorem observer_size_underflows :
  exists c, crun (qbody 2 4) qrole_observer observer_schedule (init_config queue_mem) = Some c /\
    c_fault c = false /\ qpushed (tlog 1 (c_log c)) = [[x01; x02]] /\
    qsizes (tlog 2 (c_log c)) = [2 ^ 64 - 1].
Proof. eexists. split; [vm_compute; reflexivity|]. by vm_compute. Qed.

(** ** Opening *)

Section Opening.
Context (sz Cap : Z) (sys : Syscalls) (Hos : Posix sys).
Context (Hpos : 0 < Cap * sz < 2 ^ 62).

Lemma u64_bytes : u64 (Cap * sz) = Cap * sz.
Proof. apply u64_small. lia. Qed.

(** Closing an opened mapping again restores the world. *)
Lemma opened_released i m w :
  0 <= fd m -> 0 < mapping m -> 0 < mapping_size m -> fds w !! fd m = None -> maps w !! mapping m = None ->
  reset sys m (opened i (fd m) (mapping m) (mapping_size m) w) = (Ok empty_mapping, w).
Proof.
  intros ? ? ? Hf Hm. rewrite (reset_live _ i) by
    (auto; unfold live, opened; simpl; rewrite !lookup_insert_eq; by split_and!).
  unfold released, opened. simpl. rewrite !delete_insert_id by done. by destruct w.
Qed.

(** Opening the file of a queue with the same parameters. *)
Lemma queue_reopen path w m w1 :
  create sz Cap sys path w = (Ok m, w1) ->
  dir w1 !! path <> None /\
  ((exists e, open_mapping sys path kFlagFixedSPSC w1 = (Throw (Errno e), w1)) \/
   exists m2 w2, open_mapping sys path kFlagFixedSPSC w1 = (Ok m2, w2) /\
     capacity m2 = align_up (Cap * sz) kAlignment /\ reset sys m2 w2 = (Ok empty_mapping, w1)).
Proof.
  unfold create. rewrite u64_bytes. intros E.
  destruct (create_sizes (Cap * sz) ltac:(lia)) as (Hcap & _ & _).
  destruct (reopen_cases sys path (Cap * sz) kFlagFixedSPSC w m w1 Hos Hpos ltac:(done) E)
    as (i & fdv & a & -> & -> & Hcase).
  split; [unfold created; simpl; by rewrite lookup_insert_eq|].
  destruct Hcase as [?|(fdv2 & a2 & E2 & ? & ? & ? & ?)]; [by left | right].
  eexists _, _. split; [exact E2|]. split; [done|].
  apply (opened_released i (mkMapping _ _ _ _ _ _ _)); auto. simpl. lia.
Qed.
End Opening.

(** A queue whose byte size is not a multiple of 8 can be created but never
    opened or claimed again, by any process: [create_mapping] rounds the
    capacity up, and [open] and [claim] compare it with the unrounded size. *)
Theorem spsc_queue_unopenable sz Cap sys path w m w1 :
  Posix sys -> 0 < Cap * sz < 2 ^ 62 -> (Cap * sz) mod 8 <> 0 ->
  create sz Cap sys path w = (Ok m, w1) ->
  (exists e, open sz Cap sys path w1 = (Throw e, w1)) /\
  (exists e, claim sz Cap sys path w1 = (Throw e, w1)).
Proof.
  intros Hos Hpos Hmod E. destruct (create_sizes (Cap * sz) ltac:(lia)) as (_ & [q Hq] & _).
  destruct (queue_reopen sz Cap sys Hos Hpos path w m w1 E) as (Hd & Hcase).
  unfold open, claim. destruct (dir w1 !! path); [|done].
  destruct Hcase as [[e He]|(m2 & w2 & E2 & Hc & Hr)].
  { split; exists (Errno e); by erewrite bind_throw. }
  rewrite (u64_bytes sz Cap Hpos). split; eexists; erewrite bind_ok by done;
    rewrite Hc, (proj2 (Z.eqb_neq _ _)) by (intros Heq; rewrite Hq in Heq; apply Hmod;
      rewrite <- Heq; by apply Z.mod_mul);
    cbn [negb]; by erewrite bind_ok.
Qed.

(** A queue whose byte size is a multiple of 8 can be reopened and
    reclaimed: unless a system call fails, [claim] resumes the existing file
    with the expected capacity, and changes nothing in it. *)
Theorem spsc_queue_claim_resumes sz Cap sys path w m w1 :
  Posix sys -> 0 < Cap * sz < 2 ^ 62 -> (Cap * sz) mod 8 = 0 ->
  create sz Cap sys path w = (Ok m, w1) ->
  (exists e, claim sz Cap sys path w1 = (Throw (Errno e), w1) /\
     open sz Cap sys path w1 = (Throw (Errno e), w1)) \/
  exists m2 w2, claim sz Cap sys path w1 = (Ok (m2, kResumed), w2) /\
    open sz Cap sys path w1 = (Ok m2, w2) /\
    capacity m2 = Cap * sz /\ reset sys m2 w2 = (Ok empty_mapping, w1).
Proof.
  intros Hos Hpos Hmod E. destruct (create_sizes (Cap * sz) ltac:(lia)) as (Hle & [q Hq] & _).
  destruct (queue_reopen sz Cap sys Hos Hpos path w m w1 E) as (Hd & Hcase).
  assert (Hal : align_up (Cap * sz) kAlignment = Cap * sz) by (Z.div_mod_to_equations; lia).
  unfold open, claim. destruct (dir w1 !! path); [|done].
  destruct Hcase as [[e He]|(m2 & w2 & E2 & Hc & Hr)]; [left | right].
  { exists e. by erewrite !bind_throw. }
  exists m2, w2. erewrite !bind_ok by done. rewrite (u64_bytes sz Cap Hpos), Hc, Hal, Z.eqb_refl. done.
Qed.

(** A queue of eight 3-byte values and one of four 3-byte values. *)
Definition queue24 : world := created "q" 24 kFlagFixedSPSC O 3 3 empty_world.
Definition queue16 : world := created "q" 16 kFlagFixedSPSC O 3 3 empty_world.

Lemma spsc_queue_unopenable_witness :
  (exists e, open 3 4 ideal_sys "q" queue16 = (Throw e, queue16)) /\
  (exists e, claim 3 4 ideal_sys "q" queue16 = (Throw e, queue16)).
Proof.
  apply (spsc_queue_unopenable 3 4 ideal_sys "q" empty_world (mkMapping 3 3 400 3 67 387 16));
    [apply ideal_posix | lia | done | vm_compute; reflexivity].
Defined.

Lemma spsc_queue_claim_resumes_witness :
  (exists e, claim 3 8 ideal_sys "q" queue24 = (Throw (Errno e), queue24) /\
     open 3 8 ideal_sys "q" queue24 = (Throw (Errno e), queue24)) \/
  exists m2 w2, claim 3 8 ideal_sys "q" queue24 = (Ok (m2, kResumed), w2) /\
    open 3 8 ideal_sys "q" queue24 = (Ok m2, w2) /\
    capacity m2 = 8 * 3 /\ reset ideal_sys m2 w2 = (Ok empty_mapping, queue24).
Proof.
  apply (spsc_queue_claim_resumes 3 8 ideal_sys "q" empty_world (mkMapping 3 3 408 3 67 387 24));
    [apply ideal_posix | lia | done | vm_compute; reflexivity].
Defined.
