(* ===== verification/SharedLatest.v ===== *)
(** * shared_latest.hpp: the latest-value slot

    [SharedLatest<T>]: one writer overwrites a value of [sizeof(T)] bytes, any
    number of readers take snapshots.  A sequence counter is odd while a write
    is in progress (a seqlock); [head_reserve] holds a heartbeat time stamp and
    [tail_publish] a notification counter.  Values are object representations,
    as in [SpscQueue]. *)

From Stdlib Require Import ZArith Lia Strings.Byte.
From stdpp Require Import base list numbers gmap strings sorting.
From S2P Require Import Prelude Memory Layout Prog Records Mapping.

Inductive ReadResult := kSuccess | kEmpty | kContended | kWriterDead.

#[export] Instance ReadResult_eq_dec : EqDecision ReadResult.
Proof. solve_decision. Defined.

(** ** The operations *)

Section Code.
Context (sizeof_T : Z).

(** [steady_clock::now()] in nanoseconds, as an unsigned 64-bit integer. *)
Definition now_ns {A} (k : Z -> prog A) : prog A := Now (fun n => k (u64 n)).

(** [write], continued by [k]. *)
Definition write_then {A} (value : list byte) (k : prog A) : prog A :=
  let! s := Load FSequence in
  do! Store FSequence (add64 s 1) in
  do! memcpy_to 0 (take (Z.to_nat sizeof_T) value) in
  do! Store FSequence (add64 s 2) in
  let! now := now_ns in
  do! Store FHeadReserve now in k.

Definition write (value : list byte) : prog (option unit) := write_then value (Ret (Some tt)).

Definition write_and_notify (value : list byte) : prog (option unit) :=
  do! write_then value in
  let! _old := FetchAdd FTailPublish 1 in
  do! WakeAll in
  Ret (Some tt).

(** [futex_load]: the low 32 bits of the notification counter. *)
Definition notify_counter : prog (option Z) :=
  let! n := Load FTailPublish in Ret (Some (u32 n)).

Definition raw_sequence : prog (option Z) :=
  let! n := Load FSequence in Ret (Some n).

(** The retry loop of the two-argument [try_read], with [n] retries left; the
    result and the value of [out]. *)
Fixpoint read_loop (n : nat) (out : list byte) : prog (option (bool * list byte)) :=
  match n with
  | O => Ret (Some (false, out))
  | S n =>
      let! s1 := Load FSequence in
      if negb (Z.land s1 1 =? 0) then read_loop n out else
      let! bs := memcpy_from 0 (Z.to_nat sizeof_T) in
      let! s2 := Load FSequence in
      if s1 =? s2 then Ret (Some (true, bs)) else read_loop n bs
  end.

Definition try_read (out : list byte) (max_retries : nat) : prog (option (bool * list byte)) :=
  read_loop max_retries out.

(** The retry loop of the [try_read] with writer-death detection, at retry
    [i]. *)
Fixpoint rich_loop (dead_threshold : Z) (n : nat) (i : Z) (out : list byte)
  : prog (option (ReadResult * list byte)) :=
  match n with
  | O => Ret (Some (kContended, out))
  | S n =>
      let again := rich_loop dead_threshold n (add64 i 1) in
      let! s1 := Load FSequence in
      if negb (Z.land s1 1 =? 0) then
        if Z.land i 0x3F =? 0x3F then
          let! hb := Load FHeadReserve in
          let! now := now_ns in
          if negb (hb =? 0) && (sub64 now hb >? u64 dead_threshold)
          then Ret (Some (kWriterDead, out)) else again out
        else again out
      else
      let! bs := memcpy_from 0 (Z.to_nat sizeof_T) in
      let! s2 := Load FSequence in
      if s1 =? s2 then Ret (Some (kSuccess, bs)) else again bs
  end.

Definition try_read_rich (out : list byte) (dead_threshold : Z) (max_retries : nat)
  : prog (option (ReadResult * list byte)) :=
  let! s1 := Load FSequence in
  if s1 =? 0 then Ret (Some (kEmpty, out)) else
  rich_loop dead_threshold max_retries 0 out.

Definition is_writer_alive (threshold : Z) : prog (option bool) :=
  let! hb := Load FHeadReserve in
  if hb =? 0 then Ret (Some false) else
  let! now := now_ns in
  Ret (Some (sub64 now hb <? u64 threshold)).

(** *** Claiming *)

(** The outcome of a claim: the takeover, or one of the two exceptions. *)
Inductive claimed := Claimed (r : ClaimResult) | LiveWriter | LostRace.

(** [claim] on an existing file, once it is mapped. *)
Definition claim_existing (capacity dead_threshold : Z) : prog (option claimed) :=
  let! s := Load FSequence in
  if Z.land s 1 =? 0 then
    let! now := now_ns in
    do! Store FHeadReserve now in
    Ret (Some (Claimed kResumed))
  else
  let! old_hb := Load FHeadReserve in
  let! now := now_ns in
  if negb (old_hb =? 0) && (sub64 now old_hb <? u64 dead_threshold)
  then Ret (Some LiveWriter) else
  let! exchanged := Cas false FHeadReserve old_hb now in
  if negb exchanged then Ret (Some LostRace) else
  do! memcpy_to 0 (replicate (Z.to_nat capacity) x00) in
  do! Store FSequence 0 in
  let! _old := FetchAdd FTailPublish 1 in
  do! WakeAll in
  Ret (Some (Claimed kRecovered)).

Context (sys : Syscalls).

Definition create (path : string) : M Mapping := create_mapping sys path sizeof_T kFlagLatest.
Definition open (path : string) : M Mapping := open_mapping sys path kFlagLatest.
End Code.

(** ** Calls *)

Inductive lop :=
| LWrite (value : list byte) (notify : bool)
| LRead (out : list byte) (max_retries : nat)
| LReadRich (out : list byte) (dead_threshold : Z) (max_retries : nat)
| LAlive (threshold : Z)
| LClaim (capacity dead_threshold : Z).

Inductive lres :=
| LWrote
| LReadDone (ok : bool) (out : list byte)
| LRichDone (r : ReadResult) (out : list byte)
| LAliveDone (b : bool)
| LClaimDone (c : claimed).

Definition lbody (sz : Z) (o : lop) : prog (option lres) :=
  match o with
  | LWrite v false => pmap (option_map (fun _ => LWrote)) (write sz v)
  | LWrite v true => pmap (option_map (fun _ => LWrote)) (write_and_notify sz v)
  | LRead out n => pmap (option_map (fun r => LReadDone r.1 r.2)) (try_read sz out n)
  | LReadRich out d n => pmap (option_map (fun r => LRichDone r.1 r.2)) (try_read_rich sz out d n)
  | LAlive d => pmap (option_map LAliveDone) (is_writer_alive d)
  | LClaim cap d => pmap (option_map LClaimDone) (claim_existing cap d)
  end.

(** Thread 1 is the writer; any thread but the writer reads; nobody claims. *)
Definition lrole (sz : Z) (t : nat) (o : lop) : bool :=
  match o with
  | LWrite v _ => Nat.eqb t 1 && (Z.of_nat (length v) =? sz)
  | LClaim _ _ => false
  | _ => negb (Nat.eqb t 1)
  end.

(** The values of a thread's completed writes, and its successful snapshots:
    whether the read was the one that reports an empty slot, and the value. *)
Definition lwrites (l : list (lop * lres)) : list (list byte) :=
  omap (fun e => match e with (LWrite v _, LWrote) => Some v | _ => None end) l.
Definition lreads (l : list (lop * lres)) : list (bool * list byte) :=
  omap (fun e => match e with
                 | (LRead _ _, LReadDone true v) => Some (false, v)
                 | (LReadRich _ _ _, LRichDone kSuccess v) => Some (true, v)
                 | _ => None
                 end) l.

(** ** Concurrent correctness *)

Section Seqlock.
Context (sz : Z) (Hsz : 0 < sz).
(** The writes before the run, and the bytes they left in the slot. *)
Context (n0 : nat) (v0 : list byte).

(** The initial value and every committed value, and whether a write is in
    progress. *)
Record lghost := mkL { lvals : list (list byte); lodd : bool }.
Abbreviation state := (shared * lghost)%type.

Definition lpos (g : lghost) : Z :=
  2 * (Z.of_nat n0 + Z.of_nat (length (lvals g)) - 1) + (if lodd g then 1 else 0).

Definition stored (m : list byte) (v : list byte) : Prop :=
  Z.of_nat (length v) = sz /\ forall i, 0 <= i < sz -> mbyte m i = v !!! Z.to_nat i.

Record lInv (s : state) : Prop := {
  li_len : sz <= Z.of_nat (length (ring s.1));
  li_seq : load FSequence s.1 = u64 (lpos s.2);
  li_lt : lpos s.2 < 2 ^ 64;
  li_head : head (lvals s.2) = Some v0;
  li_cur : lodd s.2 = false -> exists v, last (lvals s.2) = Some v /\ stored (ring s.1) v;
}.

Definition lwriter_rely (s s' : state) : Prop :=
  ring s'.1 = ring s.1 /\ s'.2 = s.2.
Definition lreader_rely (s s' : state) : Prop :=
  lvals s.2 `prefix_of` lvals s'.2 /\ lpos s.2 <= lpos s'.2.
Definition lrely (t : nat) : state -> state -> Prop :=
  match t with 1%nat => lwriter_rely | _ => lreader_rely end.

#[local] Instance lreader_pre : PreOrder lreader_rely.
Proof.
  split; [by intros s; split|]. intros a b c [? ?] [? ?]. split; [by etrans | lia].
Qed.
#[local] Instance lwriter_pre : PreOrder lwriter_rely.
Proof. split; [by intros s; split|]. intros a b c [? ?] [? ?]. split; congruence. Qed.
#[local] Instance lrely_pre t : PreOrder (lrely t).
Proof. destruct t as [|[|t]]; simpl; apply _. Qed.

(** Executions in which the sequence counter is neither reset nor wraps. *)
Definition lmono (s s' : shared) : Prop := load FSequence s <= load FSequence s'.

Abbreviation wp := (wp lmono lInv lrely).

Lemma lpos_nonneg s : lInv s -> 2 * Z.of_nat n0 <= lpos s.2.
Proof.
  intros HI. pose proof (li_head _ HI). unfold lpos. destruct (lvals s.2); [done|].
  simpl length. destruct (lodd s.2); lia.
Qed.

(** *** The writer *)

Lemma lwriter_change s s1 g' K :
  lreader_rely s (s1, g') -> (lmono s.1 s1 -> lInv (s1, g')) -> K (s1, g') ->
  change lmono lInv lrely 1 s s1 K.
Proof. intros. intros Ha. exists g'. split_and!; auto. by intros [|[|t']] ?. Qed.

(** A store that is not to the sequence counter. *)
Lemma lwriter_store {A} (Q : A -> state -> Prop) f v k s :
  f <> FSequence -> (forall s', s'.2 = s.2 -> wp 1 Q k s') -> wp 1 Q (Store f v k) s.
Proof.
  intros Hf Hk s1 [Hr Hg] HI. apply lwriter_change with (g' := s1.2); [by split | |].
  - intros _. destruct HI. constructor; sh_simpl; auto.
  - by apply Hk.
Qed.

(** One byte of the payload, while the counter is odd. *)
Lemma writing_byte vals v i b s :
  s.2 = mkL vals true -> Z.of_nat (length v) = sz -> v !! i = Some b ->
  (forall j, 0 <= j < Z.of_nat i -> mbyte (ring s.1) j = v !!! Z.to_nat j) -> lInv s ->
  exists m, mem_write (ring s.1) (0 + Z.of_nat i) [b] = Some m /\
    change lmono lInv lrely 1 s (with_ring m s.1) (fun s' => s'.2 = mkL vals true /\
      forall j, 0 <= j < Z.of_nat (S i) -> mbyte (ring s'.1) j = v !!! Z.to_nat j).
Proof.
  intros Hg Hv Hb Hj HI. pose proof (lookup_lt_Some _ _ _ Hb). pose proof (li_len _ HI).
  rewrite Z.add_0_l. eexists. split; [apply mem_write_Some; simpl; lia|].
  apply lwriter_change with (g' := s.2); [by split | |].
  - intros _. destruct HI. constructor; sh_simpl; auto.
    + rewrite length_splice; simpl; lia.
    + rewrite Hg. done.
  - split; [done|]. cbn [fst]. rewrite ring_with_ring. intros j Hj'.
    rewrite mbyte_splice by (simpl; lia). change (Z.of_nat (length [b])) with 1.
    destruct (decide (j = Z.of_nat i)) as [->|].
    + rewrite (proj2 (Z.leb_le _ _)), (proj2 (Z.ltb_lt _ _)), Z.sub_diag, Nat2Z.id by lia.
      change ([b] !!! Z.to_nat 0) with b. symmetry. by apply list_lookup_total_correct.
    + rewrite (proj2 (Z.leb_gt _ _)) by lia. apply Hj. lia.
Qed.

Lemma lwrite_wp {A} (Q : A -> state -> Prop) v vals k s :
  Z.of_nat (length v) = sz -> s.2 = mkL vals false -> lInv s ->
  (forall s', s'.2 = mkL (vals ++ [v]) false -> wp 1 Q k s') ->
  wp 1 Q (write_then sz v k) s.
Proof.
  intros Hv Hg HI Hk. unfold write_then. intros s1 [_ Hg1] HI1. rewrite Hg in Hg1.
  assert (Hne : (0 < length vals)%nat).
  { pose proof (li_head _ HI1) as H. rewrite Hg1 in H. destruct vals; [done | simpl; lia]. }
  assert (Hnext : forall p a, lmono a (store FSequence (u64 (p + 1)) a) ->
    load FSequence a = u64 p -> 0 <= p < 2 ^ 64 -> p + 1 < 2 ^ 64).
  { intros p a Hm He Hp. unfold lmono in Hm. rewrite He, load_store_eq in Hm. unfold u64 in Hm. dlia. }
  rewrite (li_seq _ HI1), !add64_u64. set (p := lpos s1.2).
  assert (Hp : p = 2 * (Z.of_nat n0 + Z.of_nat (length vals) - 1)) by (unfold p, lpos; rewrite Hg1; simpl; lia).
  intros s2 [_ Hg2] HI2. rewrite Hg1 in Hg2.
  assert (Hp2 : lpos s2.2 = p) by (unfold p; congruence).
  apply lwriter_change with (g' := mkL vals true).
  { split; rewrite Hg2; [done|]. unfold lpos. simpl. lia. }
  { intros Hm. pose proof (li_lt _ HI2). pose proof (li_seq _ HI2) as Hs. rewrite Hp2 in *.
    specialize (Hnext p _ Hm Hs ltac:(lia)).
    destruct HI2 as [? _ _ Hn _]. rewrite Hg2 in Hn. constructor; sh_simpl; [done | | | done | done];
      unfold lpos; simpl; [f_equal|]; lia. }
  rewrite take_ge by lia.
  apply wp_memcpy_to with (J := fun i s => s.2 = mkL vals true /\
    forall j, 0 <= j < Z.of_nat i -> mbyte (ring s.1) j = v !!! Z.to_nat j).
  - split; [done|]. intros. lia.
  - intros i a b [Ha Ha'] [Hm Hgg] _. rewrite Hm. split; [congruence | done].
  - intros i b a Hb [Ha Ha'] HIa. by apply writing_byte.
  - intros s3 [Hg3 Hb3] s4 [Hm4 Hg4] HI4. rewrite Hg3 in Hg4. rewrite <- Hm4 in Hb3.
    assert (Hp4 : lpos s4.2 = p + 1) by (rewrite Hg4; unfold lpos; simpl; lia).
    replace (p + 2) with (p + 1 + 1) by lia.
    apply lwriter_change with (g' := mkL (vals ++ [v]) false).
    + split; rewrite Hg4; [by apply prefix_app_r|]. unfold lpos. cbn [lvals lodd snd].
      rewrite length_app. cbn [length]. lia.
    + intros Hm. pose proof (li_lt _ HI4). pose proof (li_seq _ HI4) as Hs. rewrite Hp4 in *.
      specialize (Hnext (p + 1) _ Hm Hs ltac:(lia)).
      destruct HI4 as [? _ _ Hh4 _]. rewrite Hg4 in Hh4.
      constructor; sh_simpl; [done | | | by destruct vals |]; unfold lpos; cbn [lvals lodd];
        rewrite ?length_app; cbn [length]; [f_equal; lia | lia |].
      intros _. exists v. split; [apply last_snoc|]. split; [done|]. intros i Hi. apply Hb3. lia.
    + intros s5 [_ Hg5] HI5. apply lwriter_store; [done|]. intros s6 Hg6. apply Hk. simpl in Hg5. congruence.
Qed.

(** *** Readers *)

(** A snapshot taken at the even position [p]: if the counter is still [p]
    afterwards, the bytes are the value committed there. *)
Lemma snapshot_wp t {A} (Q : A -> state -> Prop) m k1 k2 s :
  t <> 1%nat -> lpos s.2 = 2 * (Z.of_nat n0 + Z.of_nat m) -> lInv s ->
  (forall s' v, lreader_rely s s' -> lvals s'.2 !! m = Some v -> 2 * (Z.of_nat n0 + Z.of_nat m) <= lpos s'.2 ->
     lInv s' -> wp t Q (k1 v) s') ->
  (forall s' bs, lreader_rely s s' -> lInv s' -> wp t Q (k2 bs) s') ->
  wp t Q (memcpy_from 0 (Z.to_nat sz) (fun bs =>
            Load FSequence (fun s2 => if u64 (2 * (Z.of_nat n0 + Z.of_nat m)) =? s2 then k1 bs else k2 bs))) s.
Proof.
  intros Ht Hp HI Hk1 Hk2.
  assert (Hrel : forall a b, lrely t a b -> lreader_rely a b) by (by destruct t as [|[|t]]).
  assert (Hlast : forall a v, lInv a -> lpos a.2 = 2 * (Z.of_nat n0 + Z.of_nat m) -> lvals a.2 !! m = Some v ->
    stored (ring a.1) v).
  { intros a v HIa Hpa Hva. unfold lpos in Hpa. destruct (lodd a.2) eqn:Eo; [lia|].
    destruct (li_cur _ HIa Eo) as (v' & Hl & Hs). rewrite last_lookup in Hl.
    replace (pred (length (lvals a.2))) with m in Hl by lia. congruence. }
  assert (Hv : exists v, lvals s.2 !! m = Some v).
  { unfold lpos in Hp. apply lookup_lt_is_Some_2. destruct (lodd s.2); lia. }
  destruct Hv as [v Hv]. destruct (Hlast s v HI Hp Hv) as [Hvl _].
  apply wp_memcpy_from with (J := fun bs a => lreader_rely s a /\ lvals a.2 !! m = Some v /\
    2 * (Z.of_nat n0 + Z.of_nat m) <= lpos a.2 /\ (lpos a.2 = 2 * (Z.of_nat n0 + Z.of_nat m) -> bs = take (length bs) v)).
  - split_and!; [by split | done | lia | done].
  - intros bs a b (Hsa & Ha & Hb & Hc) Hr HIb. apply Hrel in Hr as Hab. pose proof Hab as [Hpre Hle].
    split_and!; [by transitivity a | by eapply prefix_lookup_Some | lia |]. intros E. apply Hc. lia.
  - intros bs a Hlt (Hsa & Ha & Hb & Hc) HIa. pose proof (li_len _ HIa).
    destruct (lookup_lt_is_Some_2 (ring a.1) (length bs)) as [b Hb']; [lia|].
    exists b. rewrite mem_read_Some by lia. rewrite Z.add_0_l, Nat2Z.id. split.
    + rewrite (drop_S _ b) by done. done.
    + split_and!; auto. intros E. destruct (Hlast a v HIa E Ha) as [_ Hs].
      specialize (Hs (Z.of_nat (length bs)) ltac:(lia)). unfold mbyte in Hs. rewrite Nat2Z.id in Hs.
      rewrite (list_lookup_total_correct _ _ _ Hb') in Hs. subst b.
      rewrite length_app. simpl. rewrite Nat.add_1_r, (Hc E) at 1.
      symmetry. apply take_S_r. apply list_lookup_lookup_total_lt. lia.
  - intros bs s1 Hbs (Hsa & Ha & Hb & Hc) s2 Hr HI2. apply Hrel in Hr as H12.
    assert (Hs2 : lreader_rely s s2) by (by transitivity s1). pose proof H12 as [Hpre Hle].
    rewrite (li_seq _ HI2). pose proof (li_lt _ HI2). case_if.
    + assert (E : lpos s2.2 = 2 * (Z.of_nat n0 + Z.of_nat m)).
      { rewrite !u64_small in Heqb by lia. done. }
      rewrite (Hc ltac:(lia)), take_ge by lia. apply Hk1; auto; [by eapply prefix_lookup_Some | lia].
    + by apply Hk2.
Qed.

(** The parity of the counter says whether a write is in progress. *)
Lemma lpos_even s : lInv s -> Z.land (u64 (lpos s.2)) 1 = 0 ->
  exists m : nat, lpos s.2 = 2 * (Z.of_nat n0 + Z.of_nat m).
Proof.
  intros HI Hl. pose proof (li_lt _ HI). pose proof (lpos_nonneg _ HI). rewrite u64_small in Hl by lia. change 1 with (Z.ones 1) in Hl.
  rewrite Z.land_ones in Hl by lia. exists (Z.to_nat (lpos s.2 / 2 - Z.of_nat n0)).
  change (2 ^ 1) with 2 in Hl. dlia.
Qed.

(** A reader's result: a value committed no earlier than position [lo]. *)
Definition snapshot (lo : Z) (v : list byte) (s : state) : Prop :=
  exists i : nat, lo <= 2 * (Z.of_nat n0 + Z.of_nat i) <= lpos s.2 /\ lvals s.2 !! i = Some v.

Lemma read_loop_wp t s0 n out s (Q : option (bool * list byte) -> state -> Prop) :
  t <> 1%nat -> lInv s -> lreader_rely s0 s ->
  (forall s' v, lInv s' -> lreader_rely s0 s' -> snapshot (lpos s0.2) v s' -> Q (Some (true, v)) s') ->
  (forall s' bs, lInv s' -> lreader_rely s0 s' -> Q (Some (false, bs)) s') ->
  wp t Q (read_loop sz n out) s.
Proof.
  intros Ht. assert (Hrel : forall a b, lrely t a b -> lreader_rely a b) by (by destruct t as [|[|t]]).
  revert out s. induction n as [|n IH]; intros out s HI H0 Hok Hno; cbn [read_loop].
  { intros s1 Hr HI1. apply Hno; [done|]. transitivity s; auto. }
  intros s1 Hr HI1. apply Hrel in Hr. assert (H1 : lreader_rely s0 s1) by (by transitivity s).
  rewrite (li_seq _ HI1). pose proof (li_lt _ HI1) as Hlt. pose proof (lpos_nonneg _ HI1) as Hge.
  case_if; [by apply IH|].
  destruct (lpos_even s1) as [m Hm]; [done | done |]. rewrite Hm. apply snapshot_wp; auto.
  - intros s2 v H2 Hv Hp _ s3 Hr3 HI3. apply Hrel in Hr3 as H23.
    assert (H3 : lreader_rely s0 s3) by (transitivity s2; [by transitivity s1 | done]).
    apply Hok; [done | done |]. destruct H23 as [Hpre Hle]. exists m.
    split; [destruct H1; lia|]. by eapply prefix_lookup_Some.
  - intros s2 bs H2 HI2. apply IH; auto. by transitivity s1.
Qed.

Lemma rich_loop_wp t s0 d n i out s (Q : option (ReadResult * list byte) -> state -> Prop) :
  t <> 1%nat -> lInv s -> lreader_rely s0 s ->
  (forall s' v, lInv s' -> lreader_rely s0 s' -> snapshot (lpos s0.2) v s' -> Q (Some (kSuccess, v)) s') ->
  (forall s' r bs, r <> kSuccess -> lInv s' -> lreader_rely s0 s' -> Q (Some (r, bs)) s') ->
  wp t Q (rich_loop sz d n i out) s.
Proof.
  intros Ht. assert (Hrel : forall a b, lrely t a b -> lreader_rely a b) by (by destruct t as [|[|t]]).
  revert i out s. induction n as [|n IH]; intros i out s HI H0 Hok Hno; cbn [rich_loop].
  { intros s1 Hr HI1. apply Hno; [done | done |]. transitivity s; auto. }
  intros s1 Hr HI1. apply Hrel in Hr. assert (H1 : lreader_rely s0 s1) by (by transitivity s).
  rewrite (li_seq _ HI1). pose proof (li_lt _ HI1) as Hlt. pose proof (lpos_nonneg _ HI1) as Hge.
  case_if.
  - case_if; [|by apply IH]. intros s2 Hr2 HI2 s3 Hr3 HI3. apply Hrel in Hr2, Hr3.
    assert (H3 : lreader_rely s0 s3) by (transitivity s2; [by transitivity s1 | done]).
    case_if; [|by apply IH]. intros s4 Hr4 HI4. apply Hrel in Hr4.
    apply Hno; [done | done | by transitivity s3].
  - destruct (lpos_even s1) as [m Hm]; [done | done |]. rewrite Hm. apply snapshot_wp; auto.
    + intros s2 v H2 Hv Hp _ s3 Hr3 HI3. apply Hrel in Hr3 as H23.
      assert (H3 : lreader_rely s0 s3) by (transitivity s2; [by transitivity s1 | done]).
      apply Hok; [done | done |]. destruct H23 as [Hpre Hle]. exists m.
      split; [destruct H1; lia|]. by eapply prefix_lookup_Some.
    + intros s2 bs H2 HI2. apply IH; auto. by transitivity s1.
Qed.

(** *** All interleavings *)

(** The snapshots of one reader are committed values at indices that never go
    back, and a read that can report an empty slot never returns the initial
    contents. *)
Definition lP (t : nat) (l : list (lop * lres)) (s : state) : Prop :=
  (exists idx : list nat,
     Forall2 (fun i (e : bool * list byte) => lvals s.2 !! i = Some e.2 /\ (e.1 = true -> (1 <= n0 + i)%nat))
       idx (lreads l) /\
     StronglySorted le idx /\ Forall (fun i => 2 * (Z.of_nat n0 + Z.of_nat i) <= lpos s.2) idx) /\
  match t with
  | 1%nat => lwrites l = tail (lvals s.2) /\ lvals s.2 <> [] /\ lodd s.2 = false
  | _ => True
  end.

Lemma lP_stable t l s s' : lP t l s -> lrely t s s' -> lInv s' -> lP t l s'.
Proof.
  intros [(idx & H1 & H2 & H3) Ht] Hr _.
  assert (Hrr : lreader_rely s s').
  { destruct t as [|[|t]]; try done. destruct Hr as [_ Hg]. unfold lreader_rely. rewrite Hg. by split. }
  destruct Hrr as [Hpre Hle]. split.
  - exists idx. split_and!; [| done |].
    + eapply Forall2_impl; [exact H1|]. intros i e [? ?]. split; [by eapply prefix_lookup_Some | done].
    + eapply Forall_impl; [exact H3|]. intros i Hi. simpl in Hi. lia.
  - destruct t as [|[|t]]; try done. destruct Hr as [_ ->]. done.
Qed.

Lemma sorted_snoc (idx : list nat) i :
  StronglySorted le idx -> Forall (fun j => (j <= i)%nat) idx -> StronglySorted le (idx ++ [i]).
Proof.
  induction 1 as [|j idx Hs IH Hf]; simpl; intros Ha; [by repeat constructor|].
  apply Forall_cons_iff in Ha as [Hj Ha]. constructor; [auto|]. apply List.Forall_app. auto.
Qed.

(** One more successful read. *)
Lemma lP_read t l s s' o r b v lo :
  t <> 1%nat -> lP t l s -> lreads [(o, r)] = [(b, v)] -> lreader_rely s s' ->
  lo = lpos s.2 -> (b = true -> 1 <= lpos s.2) ->
  snapshot lo v s' -> lP t (l ++ [(o, r)]) s'.
Proof.
  intros Ht [(idx & H1 & H2 & H3) _] Hrd [Hpre Hle] -> Hb (i & [Hi1 Hi2] & Hv). split; [|by destruct t as [|[|t]]].
  assert (Happ : lreads (l ++ [(o, r)]) = lreads l ++ [(b, v)])
    by (rewrite <- Hrd; unfold lreads; by rewrite omap_app).
  exists (idx ++ [i]). rewrite Happ. split_and!.
  - apply Forall2_app.
    + eapply Forall2_impl; [exact H1|]. intros j e [? ?]. split; [by eapply prefix_lookup_Some | done].
    + repeat constructor; simpl; [done|]. intros E. specialize (Hb E). lia.
  - apply sorted_snoc; [done|]. eapply Forall_impl; [exact H3|]. intros j Hj. simpl in Hj. lia.
  - apply List.Forall_app. split; [|by repeat constructor].
    eapply Forall_impl; [exact H3|]. intros j Hj. simpl in Hj. lia.
Qed.

(** A call that reads nothing. *)
Lemma lP_other t l s s' o r :
  t <> 1%nat -> lP t l s -> lreads [(o, r)] = [] -> lrely t s s' -> lInv s' -> lP t (l ++ [(o, r)]) s'.
Proof.
  intros Ht HP Hrd Hr HI. destruct (lP_stable t l s s' HP Hr HI) as [H1 _].
  split; [|by destruct t as [|[|t]]].
  assert (Happ : lreads (l ++ [(o, r)]) = lreads l)
    by (unfold lreads in *; by rewrite omap_app, Hrd, app_nil_r).
  by rewrite Happ.
Qed.

(** One more write. *)
Lemma lP_write l s s' v b :
  lP 1 l s -> s'.2 = mkL (lvals s.2 ++ [v]) false -> lP 1 (l ++ [(LWrite v b, LWrote)]) s'.
Proof.
  intros [(idx & H1 & H2 & H3) (Hw & Hh & Ho)] Hg. split.
  - exists idx. assert (Happ : lreads (l ++ [(LWrite v b, LWrote)]) = lreads l)
      by (unfold lreads; rewrite omap_app; simpl; by rewrite app_nil_r).
    rewrite Happ, Hg. split_and!; [| done |].
    + eapply Forall2_impl; [exact H1|]. intros i e [? ?]. split; [|done].
      simpl. by apply lookup_app_l_Some.
    + eapply Forall_impl; [exact H3|]. intros i Hi. simpl in Hi. unfold lpos in *.
      rewrite Ho in Hi. cbn [lvals lodd]. rewrite length_app. cbn [length]. lia.
  - rewrite Hg. simpl. destruct (lvals s.2) as [|x vals]; [done|]. simpl in *.
    split_and!; [|done|done]. unfold lwrites in *. rewrite omap_app, Hw. done.
Qed.

Lemma lbody_ok t o l s :
  lrole sz t o = true -> lP t l s -> lInv s -> wp t (post lP t o l) (lbody sz o) s.
Proof.
  intros Hrole HP HI. destruct o as [v b|out n|out d n|d|? ?]; simpl in Hrole; [| | | |done].
  - apply andb_prop in Hrole as [Ht Hv]. apply Nat.eqb_eq in Ht as ->. apply Z.eqb_eq in Hv.
    assert (Hg : s.2 = mkL (lvals s.2) false).
    { destruct HP as [_ (_ & _ & Ho)]. rewrite <- Ho. by destruct (s.2). }
    assert (Hdone : forall s', s'.2 = mkL (lvals s.2 ++ [v]) false ->
      wp 1 (fun a => post lP 1 (LWrite v b) l (option_map (fun _ => LWrote) a))
        (Ret (Some tt)) s').
    { intros s1 Hg1 s2 [_ Hg2] HI2. unfold post. simpl. eapply lP_write; eauto. congruence. }
    destruct b; unfold lbody; apply wp_pmap; eapply lwrite_wp; eauto.
    intros s1 Hg1 s2 [_ Hg2] HI2. apply lwriter_change with (g' := s2.2); [by split | |].
    + intros _. destruct HI2. constructor; sh_simpl; auto.
    + intros s3 [_ Hg3] HI3. apply Hdone. simpl in Hg3. congruence.
  - destruct (Nat.eqb t 1) eqn:E; [done|]. apply Nat.eqb_neq in E.
    unfold lbody. apply wp_pmap. eapply read_loop_wp; eauto; [by split | |].
    + intros s' v HI' Hr Hsn. unfold post. simpl. by eapply lP_read.
    + intros s' bs HI' Hr. unfold post. simpl. eapply lP_other; eauto. by destruct t as [|[|t]].
  - destruct (Nat.eqb t 1) eqn:E; [done|]. apply Nat.eqb_neq in E.
    assert (Hrel : forall a b, lrely t a b <-> lreader_rely a b) by (by destruct t as [|[|t]]).
    unfold lbody. apply wp_pmap. unfold try_read_rich. intros s1 Hr1 HI1.
    pose proof (lP_stable _ _ _ _ HP Hr1 HI1) as HP1.
    rewrite (li_seq _ HI1). pose proof (li_lt _ HI1). pose proof (lpos_nonneg _ HI1).
    case_if.
    + intros s2 Hr2 HI2. unfold post. simpl. by eapply lP_other.
    + eapply rich_loop_wp; eauto; [by split | |].
      * intros s' v HI' Hr Hsn. unfold post. simpl. eapply lP_read; eauto. intros _.
        rewrite u64_small in Heqb by lia. lia.
      * intros s' r bs Hne HI' Hr. unfold post. simpl. eapply lP_other; eauto; [|by apply Hrel].
        unfold lreads. simpl. by destruct r.
  - destruct (Nat.eqb t 1) eqn:E; [done|]. apply Nat.eqb_neq in E.
    unfold lbody. apply wp_pmap. unfold is_writer_alive. intros s1 Hr1 HI1.
    pose proof (lP_stable _ _ _ _ HP Hr1 HI1) as HP1. case_if.
    + intros s2 Hr2 HI2. by eapply lP_other.
    + intros s2 Hr2 HI2. pose proof (lP_stable _ _ _ _ HP1 Hr2 HI2) as HP2.
      intros s3 Hr3 HI3. by eapply lP_other.
Qed.

Lemma ltick_ok d s g : 0 <= d -> lmono s (tick d s) -> lInv (s, g) ->
  lInv (tick d s, g) /\ forall t, lrely t (s, g) (tick d s, g).
Proof.
  intros _ _ []. split; [by constructor|]. intros [|[|t]]; by split.
Qed.

(** A slot in which no write is under way. *)
Definition lquiet (s : shared) : Prop :=
  load FSequence s = 2 * Z.of_nat n0 /\ 2 * Z.of_nat n0 < 2 ^ 64 /\
  sz <= Z.of_nat (length (ring s)) /\ v0 = take (Z.to_nat sz) (ring s).

Lemma lquiet_Inv s : lquiet s -> lInv (s, mkL [v0] false).
Proof.
  intros (Hc & Hn & Hl & Hv). assert (Hp : lpos (mkL [v0] false) = 2 * Z.of_nat n0) by (unfold lpos; simpl; lia).
  constructor; cbn [fst snd]; [done | by rewrite Hp, u64_small by lia | lia | done |].
  intros _. exists v0. split; [done|]. rewrite Hv. split; [rewrite length_take; lia|].
  intros i Hi. unfold mbyte. by rewrite lookup_total_take_lt by lia.
Qed.

Lemma l_reach s c :
  lquiet s -> creach (lbody sz) (lrole sz) lmono s c ->
  exists g, config_ok (lrole sz) lmono lInv lrely lP c g.
Proof.
  intros Hf Hr. eapply (rg_sound (lbody sz) (lrole sz) lmono lInv lrely lP);
    eauto using lP_stable, lbody_ok, ltick_ok, lquiet_Inv.
  intros t. split; [exists []; by repeat constructor|]. by destruct t as [|[|t]].
Qed.
End Seqlock.

(** The number of writes the sequence counter records. *)
Definition writes_before (s : shared) : nat := Z.to_nat (load FSequence s / 2).

Lemma lquiet_of sz s :
  sz <= Z.of_nat (length (ring s)) -> 0 <= load FSequence s < 2 ^ 64 -> Z.land (load FSequence s) 1 = 0 ->
  lquiet sz (writes_before s) (take (Z.to_nat sz) (ring s)) s.
Proof.
  intros Hl Hq He. change 1 with (Z.ones 1) in He. rewrite Z.land_ones in He by lia. change (2 ^ 1) with 2 in He.
  unfold lquiet, writes_before. split_and!; [dlia | dlia | done | done].
Qed.

(** C15: in every interleaving of one writer and any number of readers on a
    [SharedLatest] that is fresh or at rest after any number of writes, and whose
    sequence counter is not reset and does not wrap: no access is out of bounds,
    and no read is torn.  There is one list of values, the initial contents
    followed by the written ones in order, such that each reader's successful
    snapshots are elements of it, at positions that never go back; on a slot
    that was never written the [try_read] with death detection does not return the
    initial contents. *)
Theorem shared_latest_no_torn_reads sz s c :
  0 < sz -> sz <= Z.of_nat (length (ring s)) ->
  0 <= load FSequence s < 2 ^ 64 -> Z.land (load FSequence s) 1 = 0 ->
  creach (lbody sz) (lrole sz) lmono s c ->
  c_fault c = false /\
  exists vals, head vals = Some (take (Z.to_nat sz) (ring s)) /\
    (c_thr c !! 1%nat = None -> lwrites (tlog 1 (c_log c)) = tail vals) /\
    forall t, c_thr c !! t = None ->
      exists idx : list nat, StronglySorted le idx /\
        Forall2 (fun i (e : bool * list byte) =>
            vals !! i = Some e.2 /\ (e.1 = true -> load FSequence s = 0 -> (1 <= i)%nat))
          idx (lreads (tlog t (c_log c))).
Proof.
  intros Hsz Hl Hq He Hr.
  destruct (l_reach sz Hsz _ _ s c (lquiet_of sz s Hl Hq He) Hr) as (g & Hf & HI & Ht). split; [done|].
  exists (lvals g). split_and!; [apply HI | |].
  - intros Hidle. specialize (Ht 1%nat). rewrite Hidle in Ht. by destruct Ht as [_ (? & _)].
  - intros t Hidle. specialize (Ht t). rewrite Hidle in Ht. destruct Ht as [(idx & Hidx & ? & _) _].
    exists idx. split; [done|]. eapply Forall2_impl; [exact Hidx|]. intros i e [Hv H1]. split; [done|].
    intros E E0. specialize (H1 E). unfold writes_before in H1. by rewrite E0 in H1.
Qed.

Definition ldemo : list act :=
  [ATick 10; AStart 1 (LWrite [x01; x02] false)] ++ steps 1 4 ++
  [AStart 2 (LRead [] 3)] ++ steps 2 2 ++ steps 1 4 ++ steps 2 5 ++
  [AStart 1 (LWrite [x03; x04] true)] ++ steps 1 9 ++
  [AStart 2 (LReadRich [] 100 3)] ++ steps 2 6.

Definition latest_mem : shared := mkShared (mkControl 0 0 0 0 0) (replicate 8 x00) 0.

Lemma shared_latest_no_torn_reads_witness :
  exists c, crun (lbody 2) (lrole 2) ldemo (init_config latest_mem) = Some c /\
    lreads (tlog 2 (c_log c)) = [(false, [x01; x02]); (true, [x03; x04])] /\ c_fault c = false /\
    exists vals, head vals = Some [x00; x00] /\
      (c_thr c !! 1%nat = None -> lwrites (tlog 1 (c_log c)) = tail vals) /\
      forall t, c_thr c !! t = None ->
        exists idx : list nat, StronglySorted le idx /\
          Forall2 (fun i (e : bool * list byte) =>
              vals !! i = Some e.2 /\ (e.1 = true -> load FSequence latest_mem = 0 -> (1 <= i)%nat))
            idx (lreads (tlog t (c_log c))).
Proof.
  eexists. split; [vm_compute; reflexivity|]. split; [vm_compute; reflexivity|].
  apply (shared_latest_no_torn_reads 2 latest_mem); [lia | done | done | done |].
  apply (crun_checked_reach _ _ _ (fun s s' => load FSequence s <=? load FSequence s') ldemo);
    [|vm_compute; reflexivity].
  intros s s' H. unfold lmono. lia.
Defined.

(** ** Sequential behaviour *)

Section Sequential.
Context (sz : Z) (Hsz : 0 < sz).

Lemma even_next n : Z.land n 1 = 0 -> Z.land (add64 n 2) 1 = 0.
Proof.
  change 1 with (Z.ones 1). rewrite !Z.land_ones by lia. change (2 ^ 1) with 2.
  unfold add64, u64. intros H. dlia.
Qed.

(** The slot after a write of [v]. *)
Definition after_write (v : list byte) (s : shared) : shared :=
  store FHeadReserve (u64 (clock s)) (store FSequence (add64 (load FSequence s) 2)
    (with_ring (splice (ring s) 0 v) s)).

Lemma write_eval {A} v s spurs (k : prog A) :
  Z.of_nat (length v) = sz -> sz <= Z.of_nat (length (ring s)) ->
  eval spurs s (write_then sz v k) = eval spurs (after_write v s) k.
Proof.
  intros Hv Hl. unfold write_then. cbn [eval]. rewrite take_ge by lia.
  rewrite eval_memcpy_to by (rewrite ?ring_store; lia). cbn [eval now_ns].
  f_equal. by destruct s as [[] ? ?].
Qed.

(** Reading a slot at rest. *)
Lemma read_eval v s spurs out n :
  Z.land (load FSequence s) 1 = 0 -> Z.of_nat (length v) = sz ->
  take (Z.to_nat sz) (ring s) = v ->
  eval spurs s (read_loop sz (S n) out) = Done (Some (true, v)) s spurs /\
  forall d i, eval spurs s (rich_loop sz d (S n) i out) = Done (Some (kSuccess, v)) s spurs.
Proof.
  intros He Hv Hm. assert (Hl : sz <= Z.of_nat (length (ring s))).
  { rewrite <- Hm, length_take in Hv. lia. }
  split; [|intros d i]; cbn [read_loop rich_loop eval]; rewrite He; cbn [negb Z.eqb];
    rewrite eval_memcpy_from by lia; cbn [eval]; rewrite Z.eqb_refl;
    change (Z.to_nat 0) with O; by rewrite drop_0, Hm.
Qed.
End Sequential.

(** C17: a write to a slot at rest terminates, stamps the heartbeat with the
    current time and leaves a slot from which every read with at least one
    retry returns the value written; [write_and_notify] moreover increments the
    notification counter. *)
Theorem shared_latest_write_read sz v s spurs out n d :
  0 < sz -> Z.of_nat (length v) = sz -> sz <= Z.of_nat (length (ring s)) ->
  Z.land (load FSequence s) 1 = 0 -> add64 (load FSequence s) 2 <> 0 ->
  exists s', eval spurs s (write sz v) = Done (Some tt) s' spurs /\
    load FHeadReserve s' = u64 (clock s) /\
    eval spurs s' (try_read sz out (S n)) = Done (Some (true, v)) s' spurs /\
    eval spurs s' (try_read_rich sz out d (S n)) = Done (Some (kSuccess, v)) s' spurs /\
    eval spurs s (write_and_notify sz v) =
      Done (Some tt) (store FTailPublish (add64 (load FTailPublish s) 1) s') spurs.
Proof.
  intros Hsz Hv Hl He Hn. exists (after_write v s).
  assert (Hseq : load FSequence (after_write v s) = add64 (load FSequence s) 2)
    by (unfold after_write; by autorewrite with lfring).
  destruct (read_eval sz Hsz v (after_write v s) spurs out n) as [R1 R2].
  { rewrite Hseq. by apply even_next. }
  { done. }
  { unfold after_write. autorewrite with lfring. unfold splice. simpl.
    rewrite take_app_le, take_ge by lia. done. }
  unfold write, write_and_notify. rewrite !write_eval by done.
  split_and!; [done | unfold after_write; by autorewrite with lfring | done | |].
  - unfold try_read_rich. cbn [eval]. rewrite Hseq, (proj2 (Z.eqb_neq _ _)) by done. apply R2.
  - cbn [eval]. do 2 f_equal. by destruct s as [[] ? ?].
Qed.

Lemma shared_latest_write_read_witness :
  exists s', eval [] latest_mem (write 2 [x0a; x0b]) = Done (Some tt) s' [] /\
    load FHeadReserve s' = u64 0 /\
    eval [] s' (try_read 2 [] 1) = Done (Some (true, [x0a; x0b])) s' [] /\
    eval [] s' (try_read_rich 2 [] 5 1) = Done (Some (kSuccess, [x0a; x0b])) s' [] /\
    eval [] latest_mem (write_and_notify 2 [x0a; x0b]) =
      Done (Some tt) (store FTailPublish (add64 0 1) s') [].
Proof.
  apply (shared_latest_write_read 2 [x0a; x0b] latest_mem [] [] 0 5); [lia | done | done | done | done].
Defined.

(** The memory after a recovery. *)
Definition recovered (cap now : Z) (s : shared) : shared :=
  store FTailPublish (add64 (load FTailPublish s) 1)
    (store FSequence 0
      (with_ring (splice (ring s) 0 (replicate (Z.to_nat cap) x00)) (store FHeadReserve now s))).

Lemma claim_existing_eval s cap d spurs :
  0 <= cap <= Z.of_nat (length (ring s)) ->
  let hb := load FHeadReserve s in
  let now := u64 (clock s) in
  eval spurs s (claim_existing cap d) =
    if Z.land (load FSequence s) 1 =? 0
    then Done (Some (Claimed kResumed)) (store FHeadReserve now s) spurs
    else if negb (hb =? 0) && (sub64 now hb <? u64 d) then Done (Some LiveWriter) s spurs
    else Done (Some (Claimed kRecovered)) (recovered cap now s) spurs.
Proof.
  intros Hc hb now. unfold claim_existing. cbn [eval]. destruct (Z.land _ 1 =? 0); [done|].
  cbn [eval now_ns]. fold hb now. destruct (_ && _); [done|]. cbn [eval].
  fold hb. rewrite Z.eqb_refl. cbn [andb negb].
  rewrite eval_memcpy_to by (rewrite ?length_replicate, ?ring_store; lia).
  cbn [eval]. unfold recovered. by autorewrite with lfring.
Qed.

(** [claim] on an existing file, run alone.  An even counter is resumed;
    an odd one with a fresh heartbeat is refused and nothing changes; an odd one
    with a stale or zero heartbeat is recovered: the ring is zeroed, the counter
    reset, waiters notified, and the next read reports an empty slot. *)
Theorem claim_existing_cases s cap d spurs out n sz :
  0 <= cap <= Z.of_nat (length (ring s)) ->
  let hb := load FHeadReserve s in
  let now := u64 (clock s) in
  if Z.land (load FSequence s) 1 =? 0 then
    eval spurs s (claim_existing cap d) = Done (Some (Claimed kResumed)) (store FHeadReserve now s) spurs
  else if negb (hb =? 0) && (sub64 now hb <? u64 d) then
    eval spurs s (claim_existing cap d) = Done (Some LiveWriter) s spurs
  else exists s', eval spurs s (claim_existing cap d) = Done (Some (Claimed kRecovered)) s' spurs /\
    load FSequence s' = 0 /\ load FHeadReserve s' = now /\
    take (Z.to_nat cap) (ring s') = replicate (Z.to_nat cap) x00 /\
    load FTailPublish s' = add64 (load FTailPublish s) 1 /\
    eval spurs s' (try_read_rich sz out d n) = Done (Some (kEmpty, out)) s' spurs.
Proof.
  intros Hc hb now. rewrite claim_existing_eval by done. fold hb now.
  destruct (Z.land _ 1 =? 0); [done|]. destruct (_ && _); [done|].
  eexists. split; [reflexivity|]. unfold try_read_rich, recovered. cbn [eval].
  autorewrite with lfring. split_and!; [done | done | | done | done].
  unfold splice. simpl. rewrite take_app_le by (rewrite length_replicate; lia).
  by rewrite take_replicate, Nat.min_id.
Qed.

Lemma claim_existing_cases_witness :
  exists s', eval [] (store FSequence 3 latest_mem) (claim_existing 8 500) =
      Done (Some (Claimed kRecovered)) s' [] /\
    load FSequence s' = 0 /\ load FHeadReserve s' = u64 0 /\
    take (Z.to_nat 8) (ring s') = replicate (Z.to_nat 8) x00 /\ load FTailPublish s' = add64 0 1 /\
    eval [] s' (try_read_rich 2 [] 500 4) = Done (Some (kEmpty, [])) s' [].
Proof. apply (claim_existing_cases (store FSequence 3 latest_mem) 8 500 [] [] 4 2). done. Defined.

(** The writer has been silent for longer than [d]. *)
Definition stale (d : Z) (s : shared) : bool :=
  negb (load FHeadReserve s =? 0) && (sub64 (u64 (clock s)) (load FHeadReserve s) >? u64 d).

(** With the counter odd, the loop looks at the heartbeat at every 64th retry. *)
Lemma rich_loop_odd sz s d n i out spurs :
  Z.land (load FSequence s) 1 = 1 -> 0 <= i -> i + Z.of_nat n < 2 ^ 64 ->
  eval spurs s (rich_loop sz d n i out) =
    Done (Some (if stale d s && (63 <? i mod 64 + Z.of_nat n) then kWriterDead else kContended, out)) s spurs.
Proof.
  intros Ho. revert i. induction n as [|n IH]; intros i Hi Hn; pose proof (Z.mod_pos_bound i 64).
  { simpl. by rewrite (proj2 (Z.ltb_ge 63 _)), andb_false_r by lia. }
  cbn [rich_loop eval]. rewrite Ho. cbn [negb Z.eqb].
  change 0x3F with (Z.ones 6). rewrite Z.land_ones by lia. change (Z.ones 6) with 63.
  change (2 ^ 6) with 64. unfold add64. rewrite (u64_small (i + 1)) by lia.
  destruct (i mod 64 =? 63) eqn:E; bool_to_prop.
  - cbn [eval now_ns]. fold (stale d s). rewrite (proj2 (Z.ltb_lt 63 _)), andb_true_r by lia.
    destruct (stale d s); [done|]. by rewrite IH by lia.
  - rewrite IH by lia. by replace (i mod 64 + Z.of_nat (S n)) with ((i + 1) mod 64 + Z.of_nat n) by dlia.
Qed.

Lemma read_odd sz s d n out spurs :
  Z.land (load FSequence s) 1 = 1 -> Z.of_nat n < 2 ^ 64 ->
  eval spurs s (try_read_rich sz out d n) =
    Done (Some (if stale d s && (63 <? Z.of_nat n) then kWriterDead else kContended, out)) s spurs.
Proof.
  intros Ho Hn. unfold try_read_rich. cbn [eval].
  rewrite (proj2 (Z.eqb_neq _ _)) by (intros E; by rewrite E in Ho).
  by rewrite rich_loop_odd by (done || lia).
Qed.

(** What a reader is told when the writer has died inside a write: with the
    counter odd and [n] retries, the rich [try_read] returns [kWriterDead]
    exactly when the heartbeat has been set, is older than the threshold and
    there are at least 64 retries, and [kContended] otherwise; it leaves [out] and
    the slot alone.  The two-argument [try_read] returns [false]. *)
Theorem dead_writer_read sz s d n out spurs :
  Z.land (load FSequence s) 1 = 1 -> Z.of_nat n < 2 ^ 64 ->
  eval spurs s (try_read_rich sz out d n) =
    Done (Some (if negb (load FHeadReserve s =? 0) &&
                   (sub64 (u64 (clock s)) (load FHeadReserve s) >? u64 d) && (64 <=? Z.of_nat n)
                then kWriterDead else kContended, out)) s spurs /\
  eval spurs s (try_read sz out n) = Done (Some (false, out)) s spurs.
Proof.
  intros Ho Hn. split.
  - rewrite read_odd by done. unfold stale. by replace (64 <=? Z.of_nat n) with (63 <? Z.of_nat n) by lia.
  - unfold try_read. clear Hn. induction n as [|n IH]; [done|]. cbn [read_loop eval]. by rewrite Ho.
Qed.

Lemma dead_writer_read_witness :
  let s := tick 600 (store FHeadReserve 1 (store FSequence 3 latest_mem)) in
  eval [] s (try_read_rich 2 [] 500 1024) = Done (Some (kWriterDead, [])) s [] /\
  eval [] s (try_read 2 [] 1024) = Done (Some (false, [])) s [].
Proof.
  intros s. apply (dead_writer_read 2 s 500 1024 [] []); [reflexivity | lia].
Defined.

(** A writer that dies inside its very first write is never reported: with
    an odd counter and a heartbeat of zero the rich [try_read] returns
    [kContended], whatever the threshold, the time and the retries. *)
Theorem first_write_death_unreported s sz d n out spurs :
  Z.land (load FSequence s) 1 = 1 -> load FHeadReserve s = 0 -> Z.of_nat n < 2 ^ 64 ->
  eval spurs s (try_read_rich sz out d n) = Done (Some (kContended, out)) s spurs.
Proof.
  intros Ho Hh Hn. rewrite read_odd by done. unfold stale. by rewrite Hh.
Qed.

Lemma first_write_death_unreported_witness :
  eval [] (tick (2 ^ 60) (store FSequence 1 latest_mem)) (try_read_rich 2 [] 500 1024) =
    Done (Some (kContended, [])) (tick (2 ^ 60) (store FSequence 1 latest_mem)) [].
Proof. apply (first_write_death_unreported _ 2 500 1024 [] []); done || lia. Defined.

(** ** Recovery *)

Definition lrole_any (t : nat) (o : lop) : bool := true.

(** Writer 1 commits a value, reader 2 copies its first byte, writer 1 dies in
    its next write; 1000 ns later claimant 3 recovers the slot and writes one
    value; reader 2 goes on. *)
Definition recovery_schedule : list act :=
  [ATick 10; AStart 1 (LWrite [x01; x02] false)] ++ steps 1 8 ++
  [AStart 2 (LRead [] 1)] ++ steps 2 2 ++
  [AStart 1 (LWrite [x03; x04] false)] ++ steps 1 3 ++
  [ATick 1000; AStart 3 (LClaim 8 500)] ++ steps 3 16 ++
  [AStart 3 (LWrite [x05; x06] false)] ++ steps 3 8 ++ steps 2 3.

(** Recovery resets the counter to 0, so counter values repeat: a reader
    that slept through a recovery and the new writer's first write returns
    successfully with a torn value, the first byte of the old value and the
    second byte of the new one. *)
Theorem recovery_torn_read :
  exists c, crun (lbody 2) lrole_any recovery_schedule (init_config latest_mem) = Some c /\
    c_fault c = false /\
    lwrites (tlog 1 (c_log c)) = [[x01; x02]] /\
    tlog 3 (c_log c) =
      [(LClaim 8 500, LClaimDone (Claimed kRecovered)); (LWrite [x05; x06] false, LWrote)] /\
    tlog 2 (c_log c) = [(LRead [] 1, LReadDone true [x01; x06])].
Proof.
  apply crun_observe with (f := fun c =>
    (c_fault c, lwrites (tlog 1 (c_log c)), tlog 3 (c_log c), tlog 2 (c_log c)))
    (o := (false, [[x01; x02]],
      [(LClaim 8 500, LClaimDone (Claimed kRecovered)); (LWrite [x05; x06] false, LWrote)],
      [(LRead [] 1, LReadDone true [x01; x06])])).
  - vm_compute. reflexivity.
  - by intros c [= -> -> -> ->].
Qed.

(** Writer 1 is in the middle of its first write, claimant 2 claims. *)
Definition steal_schedule : list act :=
  [AStart 1 (LWrite [x01; x02] false)] ++ steps 1 3 ++
  [AStart 2 (LClaim 8 500)] ++ steps 2 16.

(** A claim can take over from a live writer: the heartbeat is only stamped
    after a write, so a claim that meets a first write in progress recovers the
    slot without any time having passed. *)
Theorem claim_steals_live_writer :
  exists c, crun (lbody 2) lrole_any steal_schedule (init_config latest_mem) = Some c /\
    clock (c_sh c) = 0 /\ c_thr c !! 1%nat <> None /\
    tlog 2 (c_log c) = [(LClaim 8 500, LClaimDone (Claimed kRecovered))] /\
    load FSequence (c_sh c) = 0.
Proof.
  apply crun_observe with (f := fun c =>
    (clock (c_sh c), bool_decide (c_thr c !! 1%nat = None), tlog 2 (c_log c), load FSequence (c_sh c)))
    (o := (0, false, [(LClaim 8 500, LClaimDone (Claimed kRecovered))], 0)).
  - vm_compute. reflexivity.
  - intros c [= -> Hb -> ->]. split_and!; auto. by apply bool_decide_eq_false in Hb.
Qed.

(** On a slot at rest [claim] excludes nobody: two processes that claim it
    one after the other both succeed, so neither is the sole writer. *)
Theorem claim_not_exclusive s cap d spurs :
  Z.land (load FSequence s) 1 = 0 ->
  exists s1 s2, eval spurs s (claim_existing cap d) = Done (Some (Claimed kResumed)) s1 spurs /\
    eval spurs s1 (claim_existing cap d) = Done (Some (Claimed kResumed)) s2 spurs.
Proof.
  intros He. eexists _, _. unfold claim_existing. cbn [eval]. rewrite He. cbn [Z.eqb eval now_ns].
  split; [reflexivity|]. rewrite load_store_ne, He by done. reflexivity.
Qed.

Lemma claim_not_exclusive_witness :
  exists s1 s2, eval [] latest_mem (claim_existing 8 500) = Done (Some (Claimed kResumed)) s1 [] /\
    eval [] s1 (claim_existing 8 500) = Done (Some (Claimed kResumed)) s2 [].
Proof. apply (claim_not_exclusive latest_mem 8 500 []). done. Defined.
