(* ===== verification/WaitFree.v ===== *)
(** * Wait-freedom of the fixed-slot components

    A call of [SPSCQueue] or [SharedLatest] ends after a bounded number of its own
    accesses, whatever the other threads do and wherever they stop.  [bounded n p]
    says that the program [p] has at most [n] accesses on every path, never waits
    and never asks for another iteration of its loop; [wait_free] turns this into
    a property of all schedules. *)

From Stdlib Require Import ZArith Lia Strings.Byte.
From stdpp Require Import base list numbers gmap.
From S2P Require Import Prelude Memory Layout Prog SpscQueue SharedLatest.

Fixpoint bounded {R} (n : nat) (p : prog (option R)) {struct p} : Prop :=
  match p with
  | Ret o => is_Some o
  | Await _ _ _ | Undefined => False
  | Load _ k | FetchAdd _ _ k | Now k =>
      match n with O => False | S n => forall v, bounded n (k v) end
  | Store _ _ k | Write _ _ k | WakeAll k => match n with O => False | S n => bounded n k end
  | Cas _ _ _ _ k => match n with O => False | S n => forall b, bounded n (k b) end
  | Read _ _ k => match n with O => False | S n => forall bs, bounded n (k bs) end
  end.

Lemma bounded_le {R} n m (p : prog (option R)) : (n <= m)%nat -> bounded n p -> bounded m p.
Proof.
  revert n m. induction p; intros i j Hle; try done;
    destruct i as [|i], j as [|j]; simpl; try done; try lia;
    intros Hb; intros; match goal with IH : _ |- _ => eapply IH; [|apply Hb]; lia end.
Qed.

Lemma bounded_memcpy_to {R} n off bs (k : prog (option R)) :
  bounded n k -> bounded (length bs + n) (memcpy_to off bs k).
Proof. revert off. induction bs as [|b bs IH]; intros off Hk; simpl; auto. Qed.

Lemma bounded_memcpy_from {R} n m off (k : list byte -> prog (option R)) :
  (forall bs, bounded m (k bs)) -> bounded (n + m) (memcpy_from off n k).
Proof. revert off k. induction n as [|n IH]; intros off k Hk; simpl; auto. Qed.

Lemma bounded_pmap {A B} (f : A -> B) n p : bounded n p -> bounded n (pmap (option_map f) p).
Proof.
  revert n. induction p as [o | | | | | | | | | |]; intros i; try done;
    destruct i as [|i]; simpl; try done; auto.
  all: intros [a ->]; simpl; eauto.
Qed.

Section Schedules.
Context {Op R : Type} (body : Op -> prog (option R)) (role : nat -> Op -> bool).

(** The accesses of thread [t] in a schedule (its return counts as one), and
    whether it starts another call. *)
Fixpoint own_steps (t : nat) (acts : list (act (Op := Op))) : nat :=
  match acts with
  | [] => 0
  | AStep t' _ :: acts => ((if decide (t' = t) then 1 else 0) + own_steps t acts)%nat
  | _ :: acts => own_steps t acts
  end.

Fixpoint restarts (t : nat) (acts : list (act (Op := Op))) : bool :=
  match acts with
  | [] => false
  | AStart t' _ :: acts => if decide (t' = t) then true else restarts t acts
  | _ :: acts => restarts t acts
  end.

(** What an action of another thread leaves alone. *)
Lemma other_action a c c' t :
  cnext body role a c = Some c' ->
  (forall o, a <> AStart t o) -> (forall spur, a <> AStep t spur) ->
  c_thr c' !! t = c_thr c !! t /\ tlog t (c_log c') = tlog t (c_log c).
Proof.
  destruct c as [s thr log f]. intros Ha Hs Ht. destruct a as [t' o | t' spur | d]; simpl in Ha.
  - destruct (thr !! t'); [done|]. destruct (role t' o); [|done]. injection Ha as <-. simpl.
    rewrite lookup_insert_ne; [done|]. intros ->. by destruct (Hs o).
  - assert (t' <> t) by (intros ->; by destruct (Ht spur)).
    destruct (thr !! t') as [[o p]|]; [|done].
    destruct p as [[r|]| | | | | | | | | |];
      try (destruct (step1 spur s _); [| done |]); injection Ha as <-; simpl;
      rewrite ?lookup_insert_ne, ?lookup_delete_ne by done; split; try done.
    rewrite tlog_app, (tlog_one_ne t t'), app_nil_r by done. done.
  - destruct (0 <=? d); [|done]. by injection Ha as <-.
Qed.

Lemma idle_stays t acts c c' :
  crun body role acts c = Some c' -> restarts t acts = false -> c_thr c !! t = None ->
  own_steps t acts = 0%nat /\ c_thr c' !! t = None /\ tlog t (c_log c') = tlog t (c_log c).
Proof.
  revert c. induction acts as [|a acts IH]; intros c; cbn [crun]; [by intros [= ->]|].
  destruct (cnext body role a c) as [c1|] eqn:E; [|done]. intros Hr Hn Hi.
  assert (Ha : (forall o, a <> AStart t o) /\ (forall spur, a <> AStep t spur) /\
    restarts t acts = false /\ own_steps t (a :: acts) = own_steps t acts).
  { destruct a as [t' o | t' spur | d]; simpl in *; split_and!; try done.
    - intros o' [= -> _]. by rewrite decide_True in Hn.
    - by case_decide.
    - intros spur' [= -> _]. destruct c. simpl in *. by rewrite Hi in E.
    - rewrite decide_False; [done|]. intros ->. destruct c. simpl in *. by rewrite Hi in E. }
  destruct Ha as (H1 & H2 & H3 & ->). destruct (other_action _ _ _ _ E H1 H2) as [He Hl].
  rewrite <- Hl. apply IH; auto. congruence.
Qed.

(** One access of a bounded program. *)
Lemma bounded_step n t o p spur c c' :
  c_thr c !! t = Some (o, p) -> bounded n p -> cnext body role (AStep t spur) c = Some c' ->
  c_fault c' = false ->
  (exists r, c_thr c' = delete t (c_thr c) /\ tlog t (c_log c') = tlog t (c_log c) ++ [(o, r)]) \/
  exists m p', n = S m /\ c_thr c' = <[t := (o, p')]> (c_thr c) /\ bounded m p' /\
    tlog t (c_log c') = tlog t (c_log c).
Proof.
  destruct c as [s thr log f]. intros Ht Hb Ha Hf. simpl in *. rewrite Ht in Ha.
  destruct n as [|n], p as [[r|]| | | | | | | | | |]; simpl in Hb, Ha; try by destruct Hb.
  1,2: injection Ha as <-; left; exists r; simpl; by rewrite tlog_app, tlog_one_eq.
  all: right; exists n; repeat case_match; simplify_eq; simpl in *; try done; eauto.
Qed.

Lemma fault_stays acts c c' : crun body role acts c = Some c' -> c_fault c' = false -> c_fault c = false.
Proof.
  revert c. induction acts as [|a acts IH]; intros c; cbn [crun]; [by intros [= ->]|].
  destruct (cnext body role a c) as [c1|] eqn:E; [|done]. intros Hr Hf. specialize (IH _ Hr Hf).
  destruct c as [s thr log f], a as [t o | t spur | d]; simpl in E.
  - destruct (thr !! t); [done|]. destruct (role t o); [|done]. by injection E as <-.
  - destruct (thr !! t) as [[o p]|]; [|done].
    destruct p as [[r|]| | | | | | | | | |]; try (destruct (step1 spur s _); [| done |]); by injection E as <-.
  - destruct (0 <=? d); [|done]. by injection E as <-.
Qed.

(** A call whose program is bounded by [n]: while it is under way its thread has
    made at most [n] accesses, and when it is not it has returned. *)
Lemma wait_free n t o p acts c c' :
  crun body role acts c = Some c' -> restarts t acts = false -> c_fault c' = false ->
  c_thr c !! t = Some (o, p) -> bounded n p ->
  (c_thr c' !! t = None /\ (own_steps t acts <= S n)%nat /\
     exists r, tlog t (c_log c') = tlog t (c_log c) ++ [(o, r)]) \/
  (exists p', c_thr c' !! t = Some (o, p') /\ (own_steps t acts <= n)%nat /\
     tlog t (c_log c') = tlog t (c_log c)).
Proof.
  intros Hr Hn Hf. revert n p c Hr Hn. induction acts as [|a acts IH]; intros n p c; cbn [crun].
  { intros [= ->] _ Ht Hb. right. exists p. split_and!; [done | simpl; lia | done]. }
  destruct (cnext body role a c) as [c1|] eqn:E; [|done]. intros Hr Hn Ht Hb.
  assert (Ha : (exists spur, a = AStep t spur /\ own_steps t (a :: acts) = S (own_steps t acts)) \/
    (forall o, a <> AStart t o) /\ (forall spur, a <> AStep t spur) /\
    own_steps t (a :: acts) = own_steps t acts).
  { destruct a as [t' o' | t' spur | d]; simpl in *; [right | | by right].
    - split_and!; try done. intros o2 [= -> _]. by rewrite decide_True in Hn.
    - case_decide as Hd; [left; subst; eauto | right]. split_and!; try done. by intros spur' [= -> _]. }
  assert (Hn' : restarts t acts = false) by (destruct a; simpl in Hn; [by case_decide | done..]).
  destruct Ha as [(spur & -> & ->)|(H1 & H2 & ->)].
  - pose proof (fault_stays _ _ _ Hr Hf) as Hf1.
    destruct (bounded_step n t o p spur c c1 Ht Hb E Hf1) as [(r & Hi & Hl)|(m & p' & -> & Ht' & Hb' & Hl)].
    + destruct (idle_stays t _ _ _ Hr Hn') as (-> & ? & Hl'); [by rewrite Hi, lookup_delete_eq|]. left. split_and!; [done | lia |].
      exists r. congruence.
    + rewrite <- Hl. destruct (IH m p' c1 Hr Hn') as [(? & ? & ?)|(p2 & ? & ? & ?)];
        [by rewrite Ht', lookup_insert_eq | done | left | right].
      * split_and!; [done | lia | done].
      * exists p2. split_and!; [done | lia | done].
  - destruct (other_action _ _ _ _ E H1 H2) as [He Hl]. rewrite <- Hl.
    apply (IH n p c1 Hr Hn'); [congruence | done].
Qed.

Lemma can_step n t o p c :
  c_thr c !! t = Some (o, p) -> bounded n p -> exists c1, cnext body role (AStep t false) c = Some c1.
Proof.
  destruct c as [s thr log f]. simpl. intros -> Hb.
  destruct p as [[r|]| | | | | | | | | |]; simpl in Hb; try (by destruct Hb); simpl; repeat case_match; simplify_eq; eauto.
Qed.

(** A call under way can be completed by its thread alone. *)
Lemma finish_call n t o p c :
  c_thr c !! t = Some (o, p) -> bounded n p ->
  (forall acts c', crun body role acts c = Some c' -> c_fault c' = false) ->
  exists m c1, crun body role (steps t m) c = Some c1 /\ c_thr c1 = delete t (c_thr c).
Proof.
  revert p c. induction n as [|n IH]; intros p c Ht Hb Hf;
    destruct (can_step _ t o p c Ht Hb) as [c1 E];
    (assert (Hc1 : crun body role [AStep t false] c = Some c1) by (cbn [crun]; by rewrite E));
    destruct (bounded_step _ t o p false c c1 Ht Hb E (Hf _ _ Hc1)) as [(r & Hi & _)|(m & p' & Hm & Hi & Hb' & _)];
    [by exists 1%nat, c1 | lia | by exists 1%nat, c1 |].
  injection Hm as <-. destruct (IH p' c1) as (m & c2 & Hr & Hd); [by rewrite Hi, lookup_insert_eq | done | |].
  - intros acts c' Ha. apply (Hf (AStep t false :: acts)). cbn [crun]. by rewrite E.
  - exists (S m), c2. unfold steps. cbn [replicate crun]. rewrite E. split; [exact Hr|].
    by rewrite Hd, Hi, delete_insert_eq.
Qed.

(** The calls under way in an execution are bounded, when all calls are. *)
Definition all_bounded (n : nat) (c : config (Op := Op) (R := R)) : Prop :=
  forall t o p, c_thr c !! t = Some (o, p) -> bounded n p.

Lemma all_bounded_step n a c c' :
  (forall o, bounded n (body o)) -> all_bounded n c -> cnext body role a c = Some c' ->
  c_fault c' = false -> all_bounded n c'.
Proof.
  intros Hbody Hc Ha Hf t o p Ht. destruct a as [t' o' | t' spur | d].
  - destruct c as [s thr log f]. simpl in Ha. destruct (thr !! t'); [done|]. destruct (role t' o'); [|done].
    injection Ha as <-. simpl in Ht. destruct (decide (t' = t)) as [->|].
    + rewrite lookup_insert_eq in Ht. by injection Ht as <- <-.
    + rewrite lookup_insert_ne in Ht by done. by apply (Hc t o).
  - destruct (c_thr c !! t') as [[o' p']|] eqn:E; [|destruct c; simpl in *; by rewrite E in Ha].
    destruct (bounded_step n t' o' p' spur c c' E (Hc _ _ _ E) Ha Hf) as [(r & Hi & _)|(m & p2 & -> & Hi & Hb' & _)];
      rewrite Hi in Ht; destruct (decide (t' = t)) as [->|];
      rewrite ?lookup_delete_eq, ?lookup_insert_eq in Ht; try done;
      rewrite ?lookup_delete_ne, ?lookup_insert_ne in Ht by done; try by apply (Hc t o).
    injection Ht as <- <-. eapply bounded_le; [|done]. lia.
  - destruct c as [s thr log f]. simpl in Ha. destruct (0 <=? d); [|done]. injection Ha as <-. by apply (Hc t o).
Qed.
End Schedules.

(** A call from its start. *)
Lemma wait_free_call {Op R} (body : Op -> prog (option R)) role n t o acts c c' :
  bounded n (body o) -> crun body role (AStart t o :: acts) c = Some c' ->
  restarts t acts = false -> c_fault c' = false ->
  (own_steps t acts <= S n)%nat /\
  ((c_thr c' !! t = None /\ exists r, tlog t (c_log c') = tlog t (c_log c) ++ [(o, r)]) \/
   (own_steps t acts <= n)%nat).
Proof.
  intros Hb Hr Hn Hf. cbn [crun] in Hr.
  destruct (cnext body role (AStart t o) c) as [c1|] eqn:E; [|done].
  assert (Hc : c_thr c1 !! t = Some (o, body o) /\ c_log c1 = c_log c).
  { destruct c as [s thr log f]. simpl in E. destruct (thr !! t); [done|]. destruct (role t o); [|done].
    injection E as <-. simpl. by rewrite lookup_insert_eq. }
  destruct Hc as [Ht <-].
  destruct (wait_free body role n t o _ acts c1 c' Hr Hn Hf Ht Hb) as [(? & ? & ?)|(p' & ? & ? & ?)].
  - split; [done | by left].
  - split; [lia | by right].
Qed.

(** ** [SPSCQueue] *)

(** The two counters, the bytes of a value and the publication. *)
Definition queue_bound (sz : Z) : nat := (3 + Z.to_nat sz)%nat.

Lemma queue_bounded sz Cap o : bounded (queue_bound sz) (qbody sz Cap o).
Proof.
  unfold queue_bound. destruct o; cbn [qbody]; apply bounded_pmap.
  - unfold try_push, push_slot. cbn [bounded Nat.add]. intros t h. case_if; [simpl; eauto|].
    apply (bounded_le (length (take (Z.to_nat sz) value) + 1)); [rewrite length_take; lia|].
    apply bounded_memcpy_to. simpl. eauto.
  - unfold try_pop, pop_slot. cbn [bounded Nat.add]. intros h t. case_if; [simpl; eauto|].
    apply (bounded_le (Z.to_nat sz + 1)); [lia|]. apply bounded_memcpy_from. simpl. eauto.
  - simpl. eauto.
Qed.

(** C32: the calls of [SPSCQueue] are wait-free.  In every schedule, with the other
    threads doing anything, a call makes at most [sizeof(T) + 3] accesses before
    its return: at the latest after one more step of its thread it has returned
    and its result is recorded. *)
Theorem spsc_queue_wait_free sz Cap role t o acts c c' :
  crun (qbody sz Cap) role (AStart t o :: acts) c = Some c' ->
  restarts t acts = false -> c_fault c' = false ->
  (own_steps t acts <= S (queue_bound sz))%nat /\
  ((c_thr c' !! t = None /\ exists r, tlog t (c_log c') = tlog t (c_log c) ++ [(o, r)]) \/
   (own_steps t acts <= queue_bound sz)%nat).
Proof. apply wait_free_call, queue_bounded. Qed.

(** ** [SharedLatest] *)

(** A read is bounded by its retries. *)
Definition latest_bound (sz : Z) (o : lop) : nat :=
  match o with
  | LWrite _ _ => (7 + Z.to_nat sz)%nat
  | LRead _ n => (n * (2 + Z.to_nat sz))%nat
  | LReadRich _ _ n => S (n * (3 + Z.to_nat sz))
  | LAlive _ => 2%nat
  | LClaim cap _ => (7 + Z.to_nat cap)%nat
  end.

Lemma read_loop_bounded sz n out : bounded (n * (2 + Z.to_nat sz)) (read_loop sz n out).
Proof.
  revert out. induction n as [|n IH]; intros out; [simpl; eauto|]. cbn [read_loop Nat.mul Nat.add bounded].
  intros s1. case_if; [eapply bounded_le; [|apply IH]; lia|].
  replace (S (Z.to_nat sz + n * S (S (Z.to_nat sz))))%nat
    with (Z.to_nat sz + S (n * (2 + Z.to_nat sz)))%nat by lia.
  apply bounded_memcpy_from. intros bs s2. case_if; [simpl; eauto | apply IH].
Qed.

Lemma rich_loop_bounded sz d n i out : bounded (n * (3 + Z.to_nat sz)) (rich_loop sz d n i out).
Proof.
  revert i out. induction n as [|n IH]; intros i out; [simpl; eauto|].
  cbn [rich_loop Nat.mul Nat.add bounded]. intros s1.
  assert (Hagain : forall m j bs, (n * (3 + Z.to_nat sz) <= m)%nat -> bounded m (rich_loop sz d n j bs)).
  { intros. by eapply bounded_le. }
  case_if; [case_if|].
  - unfold now_ns. cbn [bounded]. intros hb now. case_if; [simpl; eauto | apply Hagain; lia].
  - apply Hagain. lia.
  - replace (S (S (Z.to_nat sz + n * S (S (S (Z.to_nat sz))))))%nat
      with (Z.to_nat sz + S (S (n * (3 + Z.to_nat sz))))%nat by lia.
    apply bounded_memcpy_from. intros bs s2. case_if; [simpl; eauto | apply Hagain; lia].
Qed.

Lemma write_bounded {R} sz v n (k : prog (option R)) :
  bounded n k -> bounded (5 + Z.to_nat sz + n) (write_then sz v k).
Proof.
  intros Hk. unfold write_then, now_ns. cbn [bounded Nat.add]. intros s.
  apply (bounded_le (length (take (Z.to_nat sz) v) + (3 + n))); [rewrite length_take; lia|].
  apply bounded_memcpy_to. cbn [bounded Nat.add]. by intros now.
Qed.

Lemma latest_bounded sz o : bounded (latest_bound sz o) (lbody sz o).
Proof.
  destruct o as [v [] | out n | out d n | d | cap d]; cbn [lbody]; apply bounded_pmap; cbn [latest_bound].
  - eapply bounded_le; [|apply (write_bounded _ _ 2)]; [lia|]. simpl. eauto.
  - eapply bounded_le; [|apply (write_bounded _ _ 0)]; [lia|]. simpl. eauto.
  - apply read_loop_bounded.
  - unfold try_read_rich. cbn [bounded]. intros s1. case_if; [simpl; eauto | apply rich_loop_bounded].
  - unfold is_writer_alive, now_ns. cbn [bounded]. intros hb. case_if; [simpl; eauto|]. cbn [bounded]. eauto.
  - unfold claim_existing, now_ns. cbn [bounded Nat.add]. intros s. case_if; [simpl; eauto|].
    cbn [bounded]. intros hb now. case_if; [simpl; eauto|]. cbn [bounded]. intros b.
    case_if; [simpl; eauto|].
    replace (S (S (S (Z.to_nat cap))))%nat with (length (replicate (Z.to_nat cap) x00) + 3)%nat
      by (rewrite length_replicate; lia).
    apply bounded_memcpy_to. simpl. eauto.
Qed.

(** The calls of [SharedLatest] are wait-free.  A write never waits for a
    reader and a reader never waits for a writer, dead or alive: in every schedule
    a write makes at most [sizeof(T) + 7] accesses, a read at most [sizeof(T) + 3]
    per retry, a claim at most the file's capacity plus 7; then the call has
    returned. *)
Theorem shared_latest_wait_free sz role t o acts c c' :
  crun (lbody sz) role (AStart t o :: acts) c = Some c' ->
  restarts t acts = false -> c_fault c' = false ->
  (own_steps t acts <= S (latest_bound sz o))%nat /\
  ((c_thr c' !! t = None /\ exists r, tlog t (c_log c') = tlog t (c_log c) ++ [(o, r)]) \/
   (own_steps t acts <= latest_bound sz o)%nat).
Proof. apply wait_free_call, latest_bounded. Qed.

(** A push that a pop overlaps: six steps of its own, then it has returned. *)
Definition overlapped : list act :=
  steps 1 3 ++ [AStart 0 (QPop [])] ++ steps 0 2 ++ steps 1 3.

Lemma spsc_queue_wait_free_witness :
  exists c', crun (qbody 2 4) (qrole 2) (AStart 1 (QPush [x01; x02]) :: overlapped)
      (init_config queue_mem) = Some c' /\
    (own_steps 1 overlapped <= 6)%nat /\
    ((c_thr c' !! 1%nat = None /\ exists r, tlog 1 (c_log c') = [(QPush [x01; x02], r)]) \/
     (own_steps 1 overlapped <= 5)%nat).
Proof.
  eexists. split; [vm_compute; reflexivity|].
  apply (spsc_queue_wait_free 2 4 (qrole 2) 1 (QPush [x01; x02]) overlapped (init_config queue_mem));
    [vm_compute; reflexivity..].
Defined.

(** The writer has died in the middle of a write; a reader with three retries
    still returns. *)
Definition half_written : config :=
  after (lbody 2) (lrole 2) (AStart 1 (LWrite [x01; x02] false) :: steps 1 3) (init_config latest_mem).

Lemma shared_latest_wait_free_witness :
  let c' := after (lbody 2) (lrole 2) (AStart 2 (LRead [] 3) :: steps 2 4) half_written in
  (own_steps (Op := lop) 2 (steps 2 4) <= 13)%nat /\
  ((c_thr c' !! 2%nat = None /\
    exists r, tlog 2 (c_log c') = tlog 2 (c_log half_written) ++ [(LRead [] 3, r)]) \/
   (own_steps (Op := lop) 2 (steps 2 4) <= 12)%nat).
Proof.
  intros c'.
  apply (shared_latest_wait_free 2 (lrole 2) 2 (LRead [] 3) (steps 2 4) half_written c').
  - apply crun_after. vm_compute. reflexivity.
  - reflexivity.
  - vm_compute. reflexivity.
Defined.
