(* ===== verification/QueueRestart.v ===== *)
(** * Death of the producer of an [SPSCQueue]

    A producer process can die at any access of a push, and [claim] lets another one
    take its place without changing anything in the file.  [killed] removes a thread
    from a configuration, in the middle of its call if need be; the consumer goes on
    where it was, and a successor starts to push. *)

From Stdlib Require Import ZArith Lia Strings.Byte.
From stdpp Require Import base list numbers gmap.
From S2P Require Import Prelude Memory Layout Prog Solo Progress SpscQueue WaitFree.

(** ** Threads that stop *)

Section Threads.
Context {Op R : Type} (body : Op -> prog (option R)) (role : nat -> Op -> bool).
Context (allowed : shared -> shared -> Prop).

(** The thread's call, if it is inside one, will never return. *)
Definition killed (t : nat) (c : config (Op := Op) (R := R)) : config :=
  Config (c_sh c) (delete t (c_thr c)) (c_log c) (c_fault c).

(** While a thread is inside a call its history does not change. *)
Lemma inside_log a c c' t :
  cnext body role a c = Some c' -> c_thr c' !! t <> None -> tlog t (c_log c') = tlog t (c_log c).
Proof.
  destruct c as [s thr log f]. destruct a as [u o|u spur|d]; simpl; intros E Ht.
  - destruct (thr !! u); [done|]. destruct (role u o); [|done]. by injection E as <-.
  - destruct (thr !! u) as [[o p]|]; [|done]. destruct p as [[r|]| | | | | | | | | |];
      try (destruct (step1 spur s _); [| done |]); injection E as <-; try done.
    simpl in *. destruct (decide (u = t)) as [->|Hne]; [by rewrite lookup_delete_eq in Ht|].
    by rewrite tlog_app, tlog_one_ne, app_nil_r by done.
  - destruct (0 <=? d); [|done]. by injection E as <-.
Qed.

(** The last time that a thread was between calls. *)
Lemma last_idle s t c :
  creach body role allowed s c ->
  exists c0, creach body role allowed s c0 /\ c_thr c0 !! t = None /\
    rtc (cstep body role allowed) c0 c /\ tlog t (c_log c0) = tlog t (c_log c).
Proof.
  revert c. apply rtc_ind_r; [|intros c c' Hr Hs (c0 & H0 & Hi & Hs0 & Hl)].
  { exists (init_config s). split_and!; [apply rtc_refl | by apply lookup_empty | apply rtc_refl | done]. }
  destruct (c_thr c' !! t) eqn:E.
  - exists c0. split_and!; [done | done | by eapply rtc_r |]. destruct Hs as [a Ha _]. rewrite Hl. symmetry.
    eapply inside_log; [exact Ha|]. rewrite E. discriminate.
  - exists c'. split_and!; [eapply rtc_r; [exact Hr|exact Hs] | done | apply rtc_refl | done].
Qed.
End Threads.

Lemma bounded_step1 {R} n spur s (p : prog (option R)) s' p' :
  bounded n p -> step1 spur s p = Step s' p' -> bounded n p'.
Proof.
  intros Hb E. destruct n as [|n], p; simpl in Hb, E; try done; repeat case_match; simplify_eq;
    (eapply bounded_le; [|by apply Hb]); lia.
Qed.

Lemma restarts_steps {Op} t m : restarts (Op := Op) t (steps t m) = false.
Proof. by induction m. Qed.

(** One value more, or none. *)
Lemma prefix_snoc_cases {A} (l x : list A) v : l `prefix_of` x -> x `prefix_of` l ++ [v] -> x = l \/ x = l ++ [v].
Proof.
  intros [y ->] Hp%prefix_app_inv. destruct Hp as [z Hz]. destruct y as [|a y]; [left; apply app_nil_r|].
  right. injection Hz as -> Hz. symmetry in Hz. by apply app_nil in Hz as [-> _].
Qed.

(** ** The queue *)

Section Restart.
Context (sz k : Z) (Hsz : 0 < sz) (Hk : 0 <= k) (Hmem : 2 ^ k * sz < 2 ^ 62).
Abbreviation any := (fun _ _ : shared => True).
Abbreviation Cap := (2 ^ k).
Abbreviation step := (cstep (qbody sz Cap) (qrole sz) any).
Abbreviation b0 := (mkQ 0 []).

#[local] Instance restart_rely_pre t : PreOrder (qrely t) := qrely_pre k Hk t.

Abbreviation qP0 := (qP k b0 2 0 b0).
Abbreviation queue_ok := (config_ok (qrole sz) any (qInv sz k) qrely qP0).

(** What a push under way can have published: the completed pushes, and perhaps its
    own value. *)
Lemma published s c :
  qfresh sz k s -> creach (qbody sz Cap) (qrole sz) any s c ->
  exists g, queue_ok c g /\
    (qpub g = qpushed (tlog 1 (c_log c)) \/
     exists v p, c_thr c !! 1%nat = Some (QPush v, p) /\ qpub g = qpushed (tlog 1 (c_log c)) ++ [v]).
Proof.
  intros Hf Hr. destruct (last_idle _ _ _ s 1 c Hr) as (c0 & Hr0 & Hi0 & Hs0 & Hl0).
  destruct (q_reach sz k s c0 Hsz Hk Hmem Hf Hr0) as (g0 & Hc0).
  destruct (q_steps sz k Hsz Hk Hmem _ _ _ _ _ _ _ Hc0 Hs0) as (g & Hc & _ & Hp0).
  exists g. split; [done|]. destruct Hc0 as (_ & _ & Ht0). specialize (Ht0 1%nat). rewrite Hi0 in Ht0.
  destruct Ht0 as (_ & _ & Ht0). simpl in Ht0. rewrite Hl0 in Ht0. rewrite Ht0 in Hp0.
  destruct (c_thr c !! 1%nat) as [[o p]|] eqn:E.
  2: { left. destruct Hc as (_ & _ & Ht). specialize (Ht 1%nat). rewrite E in Ht. by destruct Ht as (_ & _ & Ht). }
  destruct (creach_progs _ _ _ (bounded (queue_bound sz)) s c
    (fun _ o _ => queue_bounded sz Cap o) (fun spur s p s' p' => bounded_step1 _ spur s p s' p') Hr _ _ _ E) as [Hrole Hb].
  assert (Hfault : forall acts c', crun (qbody sz Cap) (qrole sz) acts c = Some c' -> c_fault c' = false).
  { intros acts c' Ha. destruct (q_steps sz k Hsz Hk Hmem _ _ _ _ c c' g Hc) as (g' & (? & _) & _); [|done].
    by apply (crun_rtc _ _ _ acts). }
  destruct (finish_call (qbody sz Cap) (qrole sz) _ 1 o p c E Hb Hfault) as (m & c1 & Hr1 & Hd).
  destruct (wait_free (qbody sz Cap) (qrole sz) (queue_bound sz) 1 o p _ c c1 Hr1) as [(Hi1 & _ & r & Hl1)|(p' & Hp' & _)];
    [apply restarts_steps | by eapply Hfault | done | done | | by rewrite Hd, lookup_delete_eq in Hp'].
  destruct (q_steps sz k Hsz Hk Hmem _ _ _ _ c c1 g Hc) as (g1 & (_ & _ & Ht1) & _ & Hp1);
    [by apply (crun_rtc _ _ _ (steps 1 m))|].
  specialize (Ht1 1%nat). rewrite Hi1 in Ht1. destruct Ht1 as (_ & _ & Ht1). simpl in Ht1. rewrite Hl1 in Ht1.
  destruct (q_histories (tlog 1 (c_log c)) o r) as (_ & Hh & _). rewrite Hh in Ht1. rewrite Ht1 in Hp1.
  assert (Hone : qpushed [(o, r)] = [] \/ exists v, o = QPush v /\ qpushed [(o, r)] = [v]).
  { destruct o as [v|out|]; [|left; done..]. destruct r as [[]| |]; [right; eauto | left; done..]. }
  destruct Hone as [Hn|(v & -> & Hn)]; rewrite Hn in Hp1.
  - left. rewrite app_nil_r in Hp1. by apply (anti_symm prefix).
  - destruct (prefix_snoc_cases _ _ _ Hp0 Hp1) as [E1 | E1]; [by left | right; eauto].
Qed.

(** What is known of the threads after the death of a producer whose history is
    [l1], when [b] are the values published so far: a successor counts from there. *)
Definition restarted (b : qghost) (l1 : list (qop * qres)) (t : nat) (l : list (qop * qres))
    (s : shared * qghost) : Prop :=
  if Nat.eqb t 1 then exists l', l = l1 ++ l' /\ qP k b 2 0 b 1 l' s else qP0 t l s.

Lemma restarted_stable b l1 t l s s' :
  restarted b l1 t l s -> qrely t s s' -> qInv sz k s' -> restarted b l1 t l s'.
Proof.
  unfold restarted. destruct (Nat.eqb_spec t 1) as [->|Hne].
  - intros (l' & -> & HP) Hr HI. exists l'. split; [done|]. by eapply (qP_stable sz).
  - apply (qP_stable sz k Hk).
Qed.

Lemma restarted_body b l1 t o l s :
  qrole sz t o = true -> restarted b l1 t l s -> qInv sz k s ->
  wp any (qInv sz k) qrely t (post (restarted b l1) t o l) (qbody sz Cap o) s.
Proof.
  unfold restarted. intros Hrole HP HI. destruct (Nat.eqb_spec t 1) as [->|Hne].
  - destruct HP as (l' & -> & HP). eapply wp_mono; [|by apply (qbody_ok sz k Hsz Hk Hmem b 2 0 b 1 o l')].
    intros [r|] s' HP'; unfold post in *; cbn [Nat.eqb]; [exists (l' ++ [(o, r)]) | exists l']; split; auto.
    by rewrite app_assoc.
  - eapply wp_mono; [|by apply (qbody_ok sz k Hsz Hk Hmem b0 2 0 b0)]. apply Nat.eqb_neq in Hne.
    intros [r|] s' HP'; unfold post in *; by rewrite Hne.
Qed.

Lemma killed_ok c g :
  queue_ok c g ->
  config_ok (qrole sz) any (qInv sz k) qrely (restarted g (tlog 1 (c_log c))) (killed 1 c) g.
Proof.
  intros (Hf & HI & Ht). split_and!; [done | done |]. intros t. unfold killed. cbn [c_thr c_sh c_log].
  unfold restarted at 1. destruct (decide (t = 1%nat)) as [->|Hne].
  - rewrite lookup_delete_eq. simpl. exists []. split; [by rewrite app_nil_r|].
    split_and!; [constructor | done | simpl; by rewrite app_nil_r].
  - rewrite lookup_delete_ne by done. specialize (Ht t). apply Nat.eqb_neq in Hne.
    destruct (c_thr c !! t) as [[o p]|]; simpl in *; [|by rewrite Hne].
    destruct Ht as [Hrole Hw]. split; [done|]. eapply wp_mono; [|exact Hw].
    intros [r|] s' HP; unfold post, restarted in *; by rewrite Hne.
Qed.
End Restart.

(** C22: an [SPSCQueue] survives the death of its producer.  The producer may die at
    any access of a push ([c], reached from a fresh queue in any interleaving), also
    while the consumer is inside a pop; [claim] changes nothing in the file, so a
    successor and the consumer go on from there ([c2]).  No access is out of bounds.
    Let [pub] be the values whose pushes had returned, followed or not by the value
    whose push was cut off.  When both threads are between calls, the values that the
    consumer has popped, before and after, are in order and once each a prefix of
    [pub] and what the successor has pushed, and all but at most [Capacity] of them. *)
Theorem spsc_queue_restart sz k s c c2 :
  0 < sz -> 0 <= k -> 2 ^ k * sz < 2 ^ 62 -> qfresh sz k s ->
  creach (qbody sz (2 ^ k)) (qrole sz) (fun _ _ => True) s c ->
  rtc (cstep (qbody sz (2 ^ k)) (qrole sz) (fun _ _ => True)) (killed 1 c) c2 ->
  c_fault c2 = false /\
  exists pub,
    (pub = qpushed (tlog 1 (c_log c)) \/
     exists v p, c_thr c !! 1%nat = Some (QPush v, p) /\ pub = qpushed (tlog 1 (c_log c)) ++ [v]) /\
    (c_thr c2 !! 0%nat = None -> c_thr c2 !! 1%nat = None ->
     exists l, tlog 1 (c_log c2) = tlog 1 (c_log c) ++ l /\
       qpopped (tlog 0 (c_log c2)) `prefix_of` pub ++ qpushed l /\
       Z.of_nat (length (pub ++ qpushed l)) <= Z.of_nat (length (qpopped (tlog 0 (c_log c2)))) + 2 ^ k).
Proof.
  intros Hsz Hk Hm Hf Hr Hs. destruct (published sz k Hsz Hk Hm s c Hf Hr) as (g & Hc & Hpub).
  destruct (config_ok_steps (rely_pre := restart_rely_pre k Hk) (qbody sz (2 ^ k)) (qrole sz) (fun _ _ => True)
    (qInv sz k) qrely (restarted k g (tlog 1 (c_log c)))
    (restarted_stable sz k Hk g _) (restarted_body sz k Hsz Hk Hm g _) (qtick_ok sz k)
    _ c2 g (killed_ok sz k c g Hc) Hs) as (g2 & (Hfl & HI & Ht) & _).
  split; [done|]. exists (qpub g). split; [done|]. intros H0 H1.
  pose proof (Ht 0%nat) as Ha. rewrite H0 in Ha. destruct Ha as (_ & _ & Hle & Ha).
  pose proof (Ht 1%nat) as Hb. rewrite H1 in Hb. destruct Hb as (l & Hl & _ & _ & Hb).
  exists l. simpl in *. rewrite Hb in *. destruct (qi_pos _ _ _ HI) as [_ Hcap]. simpl in Hcap. rewrite Hb in Hcap.
  split_and!; [done | rewrite <- Ha; apply prefix_take |]. rewrite <- Ha, length_take. lia.
Qed.

(** The producer dies after writing the second value's byte, before publishing it,
    while the consumer is inside a pop; its successor pushes another value. *)
Lemma spsc_queue_restart_witness :
  let go acts c := after (qbody 1 2) (qrole 1) acts c in
  let c := go ((AStart 1 (QPush [x01]) :: steps 1 5) ++ (AStart 1 (QPush [x02]) :: steps 1 3) ++
               (AStart 0 (QPop []) :: steps 0 2)) (init_config queue_mem) in
  let c2 := go (AStart 1 (QPush [x03]) :: steps 1 5 ++ steps 0 3 ++ AStart 0 (QPop []) :: steps 0 5) (killed 1 c) in
  qpopped (tlog 0 (c_log c2)) = [[x01]; [x03]] /\ c_fault c2 = false /\
  exists pub,
    (pub = qpushed (tlog 1 (c_log c)) \/
     exists v p, c_thr c !! 1%nat = Some (QPush v, p) /\ pub = qpushed (tlog 1 (c_log c)) ++ [v]) /\
    (c_thr c2 !! 0%nat = None -> c_thr c2 !! 1%nat = None ->
     exists l, tlog 1 (c_log c2) = tlog 1 (c_log c) ++ l /\
       qpopped (tlog 0 (c_log c2)) `prefix_of` pub ++ qpushed l /\
       Z.of_nat (length (pub ++ qpushed l)) <= Z.of_nat (length (qpopped (tlog 0 (c_log c2)))) + 2 ^ 1).
Proof.
  intros go c c2. split; [vm_compute; reflexivity|].
  apply (spsc_queue_restart 1 1 queue_mem c c2); try done || lia;
    (apply crun_after_rtc; [done | vm_compute; reflexivity]).
Defined.
