(* ===== verification/Recovery.v ===== *)
(** * shared_latest.hpp: racing recoveries

    [claim] on a slot whose writer died inside a write: any number of processes
    may try to take it over at once.  A compare-exchange on the heartbeat decides
    the race. *)

From Stdlib Require Import ZArith Lia Strings.Byte.
From stdpp Require Import base list numbers gmap.
From S2P Require Import Prelude Memory Layout Prog Records SharedLatest.

(** Every thread may claim, read and ask whether the writer is alive. *)
Definition claim_role (cap d : Z) (t : nat) (o : lop) : bool :=
  match o with
  | LClaim cap' d' => (cap' =? cap) && (d' =? d)
  | LAlive _ => true
  | _ => false
  end.

(** The recoveries among a thread's calls. *)
Definition recoveries (l : list (lop * lres)) : list lop :=
  omap (fun e => match e with (o, LClaimDone (Claimed kRecovered)) => Some o | _ => None end) l.

Section Race.
Context (sz cap d h0 t0 t1 : Z).
(** The slot has room, the dead writer's heartbeat lies in the past, and all
    happens within the threshold. *)
Context (Hh0 : 0 <= h0 < t0) (Ht1 : t0 <= t1 < 2 ^ 64) (Hd : t1 - t0 < u64 d).

(** The ghost state is the thread that has won the compare-exchange. *)
Abbreviation state := (shared * option nat)%type.

Record rInv (s : state) : Prop := {
  ri_len : cap <= Z.of_nat (length (ring s.1));
  ri_clock : t0 <= clock s.1 <= t1;
  ri_race : match s.2 with
            | None => load FHeadReserve s.1 = h0 /\ Z.land (load FSequence s.1) 1 = 1
            | Some _ => t0 <= load FHeadReserve s.1 <= clock s.1
            end;
}.

(** The winner stays, others do not make a thread the winner, time passes. *)
Definition rrely (t : nat) (s s' : state) : Prop :=
  (forall w, s.2 = Some w -> s'.2 = Some w) /\ (s'.2 = Some t -> s.2 = Some t) /\
  clock s.1 <= clock s'.1.

#[local] Instance rrely_pre t : PreOrder (rrely t).
Proof.
  split; [by intros s; unfold rrely; split_and!; auto; lia|].
  intros s1 s2 s3 (H1 & H2 & H3) (H1' & H2' & H3'). unfold rrely. split_and!; auto. lia.
Qed.

Definition until (s s' : shared) : Prop := clock s' <= t1.

Abbreviation wp := (wp until rInv rrely).

(** [n] recoveries so far: one exactly if this thread is the winner. *)
Definition rP (t : nat) (l : list (lop * lres)) (s : state) : Prop :=
  length (recoveries l) = if decide (s.2 = Some t) then 1%nat else 0%nat.

Lemma rP_stable t l s s' : rP t l s -> rrely t s s' -> rInv s' -> rP t l s'.
Proof.
  unfold rP. intros -> (H1 & H2 & _) _. repeat case_decide; auto; exfalso; auto.
Qed.

Lemma rP_other t l s o r :
  r <> LClaimDone (Claimed kRecovered) -> rP t l s -> rP t (l ++ [(o, r)]) s.
Proof.
  unfold rP, recoveries. rewrite omap_app. intros Hr <-.
  assert (omap (fun e => match e with (o, LClaimDone (Claimed kRecovered)) => Some o | _ => None end) [(o, r)] = [])
    as -> by (by destruct r as [| | | | [[]| |]]).
  by rewrite app_nil_r.
Qed.

(** A change of the memory that leaves the winner in place. *)
Lemma rchange t s s1 K :
  rInv (s1, s.2) -> clock s1 = clock s.1 -> K (s1, s.2) -> change until rInv rrely t s s1 K.
Proof.
  intros HI Hc HK _. exists s.2. split_and!; auto.
  intros t' _. unfold rrely. simpl. rewrite Hc. split_and!; auto. lia.
Qed.

Lemma clock_u64 s : rInv s -> u64 (clock s.1) = clock s.1.
Proof. intros [_ ? _]. apply u64_small. lia. Qed.

(** A heartbeat read when there was a winner is fresh. *)
Lemma winner_fresh w s s' :
  rInv s -> s.2 = Some w -> rInv s' -> clock s.1 <= clock s'.1 ->
  load FHeadReserve s.1 <> 0 /\ sub64 (u64 (clock s'.1)) (load FHeadReserve s.1) < u64 d.
Proof.
  intros [_ Hc Hr] Hw HI' Hle. rewrite Hw in Hr. rewrite (clock_u64 s') by done.
  destruct HI' as [_ Hc' _]. split; [lia|]. unfold sub64. rewrite u64_small by lia. lia.
Qed.

(** The winner clears the ring, resets the counter and wakes the waiters. *)
Lemma recover_wp t (Q : option claimed -> state -> Prop) s :
  s.2 = Some t -> (forall s', s'.2 = Some t -> Q (Some (Claimed kRecovered)) s') ->
  wp t Q (memcpy_to 0 (replicate (Z.to_nat cap) x00)
    (do! Store FSequence 0 in let! _old := FetchAdd FTailPublish 1 in do! WakeAll in
     Ret (Some (Claimed kRecovered)))) s.
Proof.
  intros Hw HQ. assert (Hst : forall s1 s2, s1.2 = Some t -> rrely t s1 s2 -> s2.2 = Some t)
    by (intros s1 s2 H1 (H2 & _); auto).
  apply wp_memcpy_to with (J := fun _ s => s.2 = Some t); [done | eauto | |].
  - intros i b s1 Hb Hw1 HI1. apply lookup_lt_Some in Hb. rewrite length_replicate in Hb.
    pose proof (ri_len _ HI1). eexists. split; [apply mem_write_Some; simpl; lia|].
    apply rchange; [|done|done]. destruct HI1 as [? ? Hr]. rewrite Hw1 in *.
    split; sh_simpl; [rewrite length_splice; simpl; lia | done | done].
  - intros s1 Hw1 s2 Hr2 HI2. pose proof (Hst _ _ Hw1 Hr2) as Hw2. apply rchange; [|done|].
    { destruct HI2 as [? ? Hr]. rewrite Hw2 in *. by split; sh_simpl. }
    intros s3 Hr3 HI3. assert (Hw3 : s3.2 = Some t) by (by eapply Hst; [|exact Hr3]).
    apply rchange; [|done|].
    { destruct HI3 as [? ? Hr]. rewrite Hw3 in *. by split; sh_simpl. }
    intros s4 Hr4 HI4 s5 Hr5 HI5. apply HQ. eapply Hst; [|exact Hr5]. by eapply Hst; [|exact Hr4].
Qed.

Definition claim_post (t : nat) (l : list (lop * lres)) (o : option claimed) (s : state) : Prop :=
  post rP t (LClaim cap d) l (option_map LClaimDone o) s.

Lemma claim_keep t l r s : r <> Claimed kRecovered -> rP t l s -> wp t (claim_post t l) (Ret (Some r)) s.
Proof.
  intros Hr HP s' Hr' HI'. unfold claim_post. simpl. apply rP_other; [congruence|].
  by apply (rP_stable t l s).
Qed.

(** A clean takeover: the counter can only be even once the race is decided. *)
Lemma resume_wp t l s :
  rP t l s -> rInv s -> Z.land (load FSequence s.1) 1 = 0 ->
  wp t (claim_post t l)
    (now_ns (fun now => do! Store FHeadReserve now in Ret (Some (Claimed kResumed)))) s.
Proof.
  intros HP HI He s2 Hr2 HI2 s3 Hr3 HI3. rewrite clock_u64 by done.
  destruct (s.2) as [w|] eqn:Hw; [|pose proof (ri_race _ HI) as Hr; rewrite Hw in Hr; lia].
  assert (Hw3 : s3.2 = Some w) by (apply Hr3, Hr2, Hw).
  pose proof (rP_stable t l s2 s3 (rP_stable t l s s2 HP Hr2 HI2) Hr3 HI3) as HP3.
  apply rchange; [|done | by apply claim_keep].
  pose proof (ri_clock _ HI2). destruct Hr3 as (_ & _ & ?), HI3 as [? ? _]. rewrite Hw3.
  split; sh_simpl; auto. lia.
Qed.

Lemma claim_wp t l s :
  rP t l s -> rInv s -> wp t (claim_post t l) (claim_existing cap d) s.
Proof.
  intros HP HI. unfold claim_existing.
  intros s1 Hr1 HI1. pose proof (rP_stable _ _ _ _ HP Hr1 HI1) as HP1. case_if; [by apply resume_wp|].
  intros s2 Hr2 HI2. pose proof (rP_stable _ _ _ _ HP1 Hr2 HI2) as HP2.
  intros s3 Hr3 HI3. pose proof (rP_stable _ _ _ _ HP2 Hr3 HI3) as HP3.
  case_if; [by apply claim_keep|].
  assert (Hnone : s2.2 = None).
  { destruct (s2.2) as [w|] eqn:Hw; [|done].
    destruct (winner_fresh w s2 s3 HI2 Hw HI3) as [Hz Hf]; [apply Hr3|].
    exfalso. destruct_or?; bool_to_prop; lia. }
  pose proof (ri_race _ HI2) as Hrace. rewrite Hnone in Hrace. destruct Hrace as [-> _].
  intros s4 Hr4 HI4. pose proof (rP_stable _ _ _ _ HP3 Hr4 HI4) as HP4.
  split; [intros _; by apply claim_keep|]. intros Hcas.
  assert (Hn4 : s4.2 = None).
  { pose proof (ri_race _ HI4) as Hr. destruct (s4.2); [lia | done]. }
  intros _. exists (Some t). rewrite clock_u64 by done. split_and!.
  - intros t' Ht'. unfold rrely. rewrite Hn4. simpl. split_and!; [done | congruence | lia].
  - pose proof (ri_clock _ HI3). destruct Hr4 as (_ & _ & ?), HI4 as [? ? _].
    split; sh_simpl; [done | done | lia].
  - apply recover_wp; [done|]. intros s' Hw. unfold claim_post, rP. simpl.
    unfold rP in HP4. rewrite Hn4, decide_False in HP4 by done.
    unfold recoveries in *. rewrite omap_app, length_app, HP4. by rewrite decide_True.
Qed.

Lemma race_body_ok t o l s :
  claim_role cap d t o = true -> rP t l s -> rInv s -> wp t (post rP t o l) (lbody sz o) s.
Proof.
  intros Hrole HP HI. destruct o as [| | |th|cap' d']; try done; unfold lbody; apply wp_pmap.
  - unfold is_writer_alive. intros s1 Hr1 HI1. pose proof (rP_stable _ _ _ _ HP Hr1 HI1) as HP1. case_if.
    + intros s2 Hr2 HI2. apply rP_other; [done | by apply (rP_stable _ _ s1)].
    + intros s2 Hr2 HI2. pose proof (rP_stable _ _ _ _ HP1 Hr2 HI2) as HP2.
      intros s3 Hr3 HI3. apply rP_other; [done | by apply (rP_stable _ _ s2)].
  - simpl in Hrole. bool_to_prop. subst cap' d'. by apply claim_wp.
Qed.

Lemma race_tick_ok n s g : 0 <= n -> until s (tick n s) -> rInv (s, g) ->
  rInv (tick n s, g) /\ forall t, rrely t (s, g) (tick n s, g).
Proof.
  unfold until. simpl. intros Hn Hu [Hl Hc Hr]. simpl in *. split.
  - split; simpl; [done | lia |]. destruct g; [|done].
    change (load FHeadReserve (tick n s)) with (load FHeadReserve s). lia.
  - intros t. unfold rrely. simpl. split_and!; auto. lia.
Qed.

Lemma race_reach s c :
  rInv (s, None) -> creach (lbody sz) (claim_role cap d) until s c ->
  exists g, config_ok (claim_role cap d) until rInv rrely rP c g.
Proof.
  intros HI Hr. eapply (rg_sound (lbody sz) (claim_role cap d) until rInv rrely rP);
    eauto using rP_stable, race_body_ok, race_tick_ok. intros t. done.
Qed.
End Race.

(** C23: at most one process recovers a slot whose writer has died inside a write.
    However many processes call [claim] on it, in every interleaving in which
    less than the threshold passes: no access is out of bounds, and there is at
    most one thread whose claims ever return [kRecovered], and it returns that at
    most once. *)
Theorem recovery_exclusive sz cap d s t1 c :
  cap <= Z.of_nat (length (ring s)) -> Z.land (load FSequence s) 1 = 1 ->
  0 <= load FHeadReserve s < clock s -> clock s <= t1 < 2 ^ 64 -> t1 - clock s < u64 d ->
  creach (lbody sz) (claim_role cap d) (until t1) s c ->
  c_fault c = false /\
  exists winner : option nat, forall t, c_thr c !! t = None ->
    length (recoveries (tlog t (c_log c))) = if decide (winner = Some t) then 1%nat else 0%nat.
Proof.
  intros Hl Ho Hh Ht Hd Hr.
  destruct (race_reach sz cap d (load FHeadReserve s) (clock s) t1 Hh Ht Hd s c) as (g & Hf & _ & Hok); auto.
  { split; simpl; [done | lia | done]. }
  split; [done|]. exists g. intros t Hidle. specialize (Hok t). by rewrite Hidle in Hok.
Qed.

(** A slot of eight bytes whose writer died 1000 ns ago, and three claimants: 1
    and 2 both find the heartbeat stale, 1 wins the exchange; 3 comes when 1 is
    clearing the ring. *)
Definition race_slot : shared :=
  mkShared (mkControl 10 0 0 0 3) (replicate 8 x55) 1010.
Definition race_schedule : list act :=
  [AStart 1 (LClaim 8 500); AStart 2 (LClaim 8 500)] ++ steps 1 3 ++ steps 2 3 ++ steps 1 4 ++
  steps 2 2 ++ [AStart 3 (LClaim 8 500); ATick 20] ++ steps 3 4 ++ steps 1 9.

Lemma recovery_exclusive_witness :
  let c := after (lbody 8) (claim_role 8 500) race_schedule (init_config race_slot) in
  (tlog 1 (c_log c)).*2 = [LClaimDone (Claimed kRecovered)] /\
  (tlog 2 (c_log c)).*2 = [LClaimDone LostRace] /\ (tlog 3 (c_log c)).*2 = [LClaimDone LiveWriter] /\
  c_fault c = false /\
  exists winner : option nat, forall t, c_thr c !! t = None ->
    length (recoveries (tlog t (c_log c))) = if decide (winner = Some t) then 1%nat else 0%nat.
Proof.
  intros c. split; [vm_compute; reflexivity|]. split; [vm_compute; reflexivity|].
  split; [vm_compute; reflexivity|].
  apply (recovery_exclusive 8 8 500 race_slot 1100 c); [simpl; lia | reflexivity | vm_compute; by split.. | reflexivity |].
  apply (crun_checked_after _ _ _ (fun _ s => clock s <=? 1100)).
  - intros s1 s2 H. unfold until. lia.
  - vm_compute. reflexivity.
Defined.
