(* ===== verification/Futex.v ===== *)
(** * futex.hpp: waiting for a notification

    [SharedLatest::write_and_notify] increments the notification counter and
    then wakes all waiters; a reader takes the counter with [notify_counter],
    looks at the slot, and calls [wait_for_update] with the counter it took.
    The kernel's futex is a parameter, [Kernel], with the behaviour futex(2)
    documents, [FutexManual].  The machine below interleaves any number of
    readers with any number of threads that run calls of SharedLatest, access by
    access: the [WakeAll] of a program is the system call. *)

From Stdlib Require Import ZArith Lia Strings.Byte.
From stdpp Require Import base list numbers gmap.
From S2P Require Import Prelude Memory Layout Prog SharedLatest.

(** ** The system call *)

Inductive errno_t := EAGAIN | EINTR | ETIMEDOUT | EINVAL.
(** Zero, or -1 with [errno]. *)
Inductive wait_ret := WZero | WErr (e : errno_t).

(** [k_wait t word expected timeout]: [FUTEX_WAIT] by thread [t] when the word
    holds [word]; [None] means that the thread sleeps.  [k_wake]: [FUTEX_WAKE]
    of everybody.  [k_end t]: a sleep may end by itself, by its timeout, a
    signal or spuriously. *)
Record Kernel (K : Type) := mkKernel {
  k_asleep : K -> nat -> bool;
  k_wait : nat -> Z -> Z -> Z * Z -> K -> option wait_ret * K;
  k_wake : K -> Z * K;
  k_end : nat -> K -> option (wait_ret * K);
}.
Arguments k_asleep {K}.
Arguments k_wait {K}.
Arguments k_wake {K}.
Arguments k_end {K}.

(** A relative timeout that the system call accepts. *)
Definition valid_timespec (ts : Z * Z) : Prop := 0 <= ts.1 /\ 0 <= ts.2 < 1000000000.

Record FutexManual {K} (kn : Kernel K) : Prop := {
  (** The comparison with the expected value and going to sleep are atomic. *)
  wait_differs : forall t word expected ts k, valid_timespec ts -> word <> expected ->
    k_wait kn t word expected ts k = (Some (WErr EAGAIN), k);
  (** EINVAL: tv_sec is negative, or tv_nsec is not less than 1,000,000,000. *)
  wait_invalid : forall t word expected ts k, ts.1 < 0 \/ 1000000000 <= ts.2 ->
    k_wait kn t word expected ts k = (Some (WErr EINVAL), k);
  wait_sleeps : forall t word expected ts k k', k_wait kn t word expected ts k = (None, k') ->
    word = expected /\ forall u, k_asleep kn k' u = (Nat.eqb u t || k_asleep kn k u);
  wait_fails : forall t word expected ts k r k', k_wait kn t word expected ts k = (Some r, k') -> k' = k;
  wake_wakes : forall k n k', k_wake kn k = (n, k') -> forall u, k_asleep kn k' u = false;
  end_ends : forall t k r k', k_end kn t k = Some (r, k') ->
    k_asleep kn k t = true /\ forall u, k_asleep kn k' u = negb (Nat.eqb u t) && k_asleep kn k u;
}.

(** ** The wrappers *)

(** [timeout.count() / 1000] and [% 1000] truncate towards zero. *)
Definition timespec_of (timeout_ms : Z) : Z * Z :=
  (Z.quot timeout_ms 1000, Z.rem timeout_ms 1000 * 1000000).

Definition futex_load (a : Z) : Z := u32 a.

(** What [futex_wait_timeout] makes of the outcome of the system call. *)
Definition wait_result (ret : wait_ret) : bool :=
  match ret with
  | WZero => true
  | WErr EAGAIN | WErr EINTR => true
  | WErr _ => false
  end.

(** The timeout handed to the kernel is the one asked for, in range. *)
Lemma timespec_exact ms : 0 <= ms ->
  let '(sec, nsec) := timespec_of ms in
  sec * 1000000000 + nsec = ms * 1000000 /\ 0 <= sec /\ 0 <= nsec < 1000000000.
Proof.
  intros H. unfold timespec_of. rewrite Z.quot_div_nonneg, Z.rem_mod_nonneg by lia. dlia.
Qed.

Lemma timespec_negative ms : ms <= -1000 -> (timespec_of ms).1 < 0.
Proof.
  intros H. unfold timespec_of. cbn [fst]. pose proof (Z.quot_rem' ms 1000).
  pose proof (Z.rem_bound_pos_neg ms 1000 ltac:(lia) ltac:(lia)). lia.
Qed.

(** ** Programs that notify *)

(** About to call [futex_wake_all]. *)
Definition owes_wake {A} (p : prog A) : bool := match p with WakeAll _ => true | _ => false end.

(** The program changes the notification counter only by a [fetch_add] that is
    followed at once by [futex_wake_all]. *)
Fixpoint notifying {A} (p : prog A) : Prop :=
  match p with
  | Ret _ | Undefined => True
  | FetchAdd f _ k => forall v, notifying (k v) /\ (f = FTailPublish -> owes_wake (k v) = true)
  | Store f _ k => f <> FTailPublish /\ notifying k
  | Cas _ f _ _ k => f <> FTailPublish /\ forall b, notifying (k b)
  | Load _ k | Now k => forall v, notifying (k v)
  | Await _ _ k | Write _ _ k | WakeAll k => notifying k
  | Read _ _ k => forall bs, notifying (k bs)
  end.

Lemma notifying_pmap {A B} (f : A -> B) p : notifying p -> notifying (pmap f p).
Proof.
  induction p as [a|g k IH|g v k IH|w g e d k IH|g v k IH|g v k IH|off n k IH|off bs k IH|k IH|k IH|];
    simpl; try (intuition; fail).
  intros Hk v'. destruct (Hk v') as [H1 H2]. split; [auto|]. intros E. specialize (H2 E). by destruct (k v').
Qed.

Lemma notifying_memcpy_to {A} off bs (k : prog A) : notifying k -> notifying (memcpy_to off bs k).
Proof. revert off. induction bs as [|b bs IH]; intros off Hk; simpl; auto. Qed.

Lemma notifying_memcpy_from {A} off n (k : list byte -> prog A) :
  (forall bs, notifying (k bs)) -> notifying (memcpy_from off n k).
Proof. revert off k. induction n as [|n IH]; intros off k Hk; simpl; auto. Qed.

Lemma notifying_write {A} sz v (k : prog A) : notifying k -> notifying (write_then sz v k).
Proof.
  intros Hk s. split; [done|]. apply notifying_memcpy_to. split; [done|]. intros now. by split.
Qed.

Lemma notifying_read sz n out : notifying (read_loop sz n out).
Proof.
  revert out. induction n as [|n IH]; intros out; [done|]. cbn [read_loop notifying]. intros s1.
  case_if; [apply IH|]. apply notifying_memcpy_from. intros bs s2. case_if; [done | apply IH].
Qed.

Lemma notifying_rich sz d n i out : notifying (rich_loop sz d n i out).
Proof.
  revert i out. induction n as [|n IH]; intros i out; [done|]. cbn [rich_loop notifying]. intros s1. case_if.
  - case_if; [|apply IH]. intros hb now. case_if; [done | apply IH].
  - apply notifying_memcpy_from. intros bs s2. case_if; [done | apply IH].
Qed.

(** Every call of SharedLatest notifies in this way. *)
Lemma latest_notifying sz o : notifying (lbody sz o).
Proof.
  destruct o as [v []|out n|out d n|d|cap d]; cbn [lbody]; apply notifying_pmap.
  - apply notifying_write. simpl. by intros _.
  - by apply notifying_write.
  - apply notifying_read.
  - intros s1. case_if; [done | apply notifying_rich].
  - intros hb. case_if; [done|]. by intros now.
  - intros s. case_if; [by intros now|]. intros hb now. case_if; [done|]. split; [done|].
    intros b. case_if; [done|]. apply notifying_memcpy_to. split; [done|]. by intros _.
Qed.

(** ** Readers and notifying threads *)

(** Not waiting, with a counter taken, inside [wait_for_update], or returned
    from it. *)
Inductive rstate := RIdle | RTaken (last_seen : Z) | RWaiting (last_seen : Z) | RReturned (b : bool).

Section Machine.
Context {K : Type} (kn : Kernel K) (sizeof_T : Z).

(** The mapped memory, the kernel, the readers, and the calls under way. *)
Record fx := mkFx {
  fx_sh : shared;
  fx_kernel : K;
  fx_readers : gmap nat rstate;
  fx_calls : gmap nat (prog (option lres));
}.

(** The notification counter. *)
Definition fx_counter (st : fx) : Z := load FTailPublish (fx_sh st).

Inductive fact :=
| FCall (t : nat) (o : lop)
| FStep (t : nat)
| FTick (d : Z)
| FTake (t : nat)
| FWait (t : nat) (timeout_ms : Z)
| FReturn (t : nat)
| FEnd (t : nat).

Definition reader (st : fx) (t : nat) : rstate := default RIdle (fx_readers st !! t).
Definition set_reader (t : nat) (r : rstate) (k : K) (st : fx) : fx :=
  mkFx (fx_sh st) k (<[t := r]> (fx_readers st)) (fx_calls st).

(** [None]: the calling thread [t] sleeps. *)
Definition futex_wait_timeout (t : nat) (a expected timeout_ms : Z) (k : K) : option bool * K :=
  let ts := timespec_of timeout_ms in
  let '(ret, k) := k_wait kn t (futex_load a) expected ts k in
  (option_map wait_result ret, k).

(** The number of woken threads, and the kernel afterwards. *)
Definition futex_wake_all (k : K) : Z * K := k_wake kn k.

Definition wait_for_update (t : nat) (last_seen timeout_ms : Z) (st : fx) : fx :=
  match futex_wait_timeout t (fx_counter st) last_seen timeout_ms (fx_kernel st) with
  | (Some b, k) => set_reader t (RReturned b) k st
  | (None, k) => set_reader t (RWaiting last_seen) k st
  end.

(** One access of a call, or its return; the system call goes to the kernel. *)
Definition call_step (t : nat) (p : prog (option lres)) (st : fx) : option fx :=
  let '(mkFx s k rs calls) := st in
  match p with
  | Ret _ => Some (mkFx s k rs (delete t calls))
  | WakeAll p => Some (mkFx s (futex_wake_all k).2 rs (<[t := p]> calls))
  | _ =>
      match step1 false s p with
      | Step s p => Some (mkFx s k rs (<[t := p]> calls))
      | _ => None
      end
  end.

Definition fx_step (a : fact) (st : fx) : option fx :=
  match a with
  | FCall t o =>
      match fx_calls st !! t with
      | None => Some (mkFx (fx_sh st) (fx_kernel st) (fx_readers st) (<[t := lbody sizeof_T o]> (fx_calls st)))
      | Some _ => None
      end
  | FStep t => match fx_calls st !! t with Some p => call_step t p st | None => None end
  | FTick d => if 0 <=? d then Some (mkFx (tick d (fx_sh st)) (fx_kernel st) (fx_readers st) (fx_calls st)) else None
  | FTake t =>
      match reader st t with
      | RWaiting _ => None
      | _ => Some (set_reader t (RTaken (futex_load (fx_counter st))) (fx_kernel st) st)
      end
  | FWait t ms =>
      match reader st t with
      | RTaken last_seen => Some (wait_for_update t last_seen ms st)
      | _ => None
      end
  | FReturn t =>
      match reader st t with
      | RWaiting _ => if k_asleep kn (fx_kernel st) t then None
                      else Some (set_reader t (RReturned (wait_result WZero)) (fx_kernel st) st)
      | _ => None
      end
  | FEnd t =>
      match reader st t, k_end kn t (fx_kernel st) with
      | RWaiting _, Some (ret, k) => Some (set_reader t (RReturned (wait_result ret)) k st)
      | _, _ => None
      end
  end.

Fixpoint fx_run (acts : list fact) (st : fx) : option fx :=
  match acts with
  | [] => Some st
  | a :: acts => match fx_step a st with Some st' => fx_run acts st' | None => None end
  end.

(** ** No notification is missed *)

Context (Hk : FutexManual kn).

Definition waking (st : fx) : Prop :=
  exists u p, fx_calls st !! u = Some p /\ owes_wake p = true.

(** A sleeper waits for the present value of the counter, unless a wake-up is
    on its way. *)
Definition sleepers_ok (st : fx) : Prop :=
  forall t last_seen, reader st t = RWaiting last_seen -> k_asleep kn (fx_kernel st) t = true ->
    futex_load (fx_counter st) = last_seen \/ waking st.

Record fx_ok (st : fx) : Prop := {
  fo_calls : map_Forall (fun _ p => notifying p) (fx_calls st);
  fo_sleepers : sleepers_ok st;
}.

Lemma reader_set st t r k u :
  reader (set_reader t r k st) u = if Nat.eqb u t then r else reader st u.
Proof.
  unfold reader, set_reader. simpl. destruct (Nat.eqb_spec u t) as [->|Hne].
  - by rewrite lookup_insert_eq.
  - by rewrite lookup_insert_ne.
Qed.

(** A reader changes its state and does not go to sleep. *)
Lemma fx_ok_awake st t r k :
  fx_ok st -> (forall c, r <> RWaiting c) ->
  (forall u, u <> t -> k_asleep kn k u = true -> k_asleep kn (fx_kernel st) u = true) ->
  fx_ok (set_reader t r k st).
Proof.
  intros [Hc Hok] Hr Hu. split; [done|]. intros u c. rewrite reader_set. destruct (Nat.eqb_spec u t) as [->|Hne].
  - intros E. by destruct (Hr c).
  - intros E Ha. apply (Hok u c); auto.
Qed.

(** An access other than the system call: it leaves the counter alone, or the
    wake-up is the next access. *)
Lemma notifying_step1 {A} s (p : prog A) s' p' :
  notifying p -> step1 false s p = Step s' p' ->
  notifying p' /\ (load FTailPublish s' = load FTailPublish s \/ owes_wake p' = true).
Proof.
  destruct p as [a|f k|f v k|w f e d k|f v k|f v k|off m k|off bs k|k|k|]; cbn [notifying step1];
    intros Hp E; try done.
  - injection E as <- <-. auto.
  - destruct Hp as [Hf Hp]. injection E as <- <-. split; [done|]. left. by rewrite load_store_ne.
  - destruct Hp as [Hf Hp]. destruct (_ && _); injection E as <- <-; (split; [apply Hp|]); left; [by rewrite load_store_ne | done].
  - injection E as <- <-. destruct (Hp (load f s)) as [H1 H2]. split; [done|].
    destruct (decide (f = FTailPublish)); [right; auto | left; by rewrite load_store_ne].
  - destruct (_ =? _); injection E as <- <-; auto.
  - destruct (mem_read _ _ _); [|done]. injection E as <- <-. auto.
  - destruct (mem_write _ _ _); [|done]. injection E as <- <-. auto.
  - injection E as <- <-. auto.
  - injection E as <- <-. auto.
Qed.

Lemma call_step_ok t p st st' :
  fx_ok st -> fx_calls st !! t = Some p -> call_step t p st = Some st' -> fx_ok st'.
Proof.
  intros [Hc Hok] Hp E. pose proof (Hc _ _ Hp) as Hn. simpl in Hn. destruct st as [s k rs calls]. simpl in Hp.
  (* an access that is not the system call *)
  assert (Hacc : owes_wake p = false -> (exists s' p', step1 false s p = Step s' p' /\ st' = mkFx s' k rs (<[t := p']> calls)) ->
    fx_ok st').
  { intros Hw (s' & p' & Es & ->). destruct (notifying_step1 _ _ _ _ Hn Es) as [Hn' Hl].
    split; [by apply map_Forall_insert_2|]. intros u c Hu Ha. simpl in Ha.
    destruct Hl as [Hl|Hl]; [|right; exists t, p'; simpl; by rewrite lookup_insert_eq].
    destruct (Hok u c Hu Ha) as [He|(v & q & Hq & Hqw)]; [left; unfold fx_counter in *; simpl in *; congruence|].
    right. exists v, q. simpl in *. rewrite lookup_insert_ne by congruence. done. }
  destruct p; simpl in E; try (by injection E as <-; apply Hacc; eauto).
  all: try (apply Hacc; [done|]; simpl; repeat case_match; simplify_eq; eauto; fail).
  - injection E as <-. split; [by apply map_Forall_delete|]. intros u c Hu Ha.
    destruct (Hok u c Hu Ha) as [He|(v & q & Hq & Hqw)]; [by left|]. right. exists v, q. simpl in *.
    rewrite lookup_delete_ne; [done|]. intros ->. rewrite Hp in Hq. by injection Hq as <-.
  - injection E as <-. split; [by apply map_Forall_insert_2|]. intros u c _ Ha. simpl in Ha.
    unfold futex_wake_all in Ha. destruct (k_wake kn k) as [m k'] eqn:Ew.
    by rewrite (wake_wakes _ Hk _ _ _ Ew) in Ha.
Qed.

Lemma fx_step_ok a st st' : fx_ok st -> fx_step a st = Some st' -> fx_ok st'.
Proof.
  intros Hok E. destruct a as [t o|t|d|t|t ms|t|t]; cbn [fx_step] in E.
  - destruct (fx_calls st !! t) eqn:Et; [done|]. injection E as <-. destruct Hok as [Hc Hok].
    split; [apply map_Forall_insert_2; [apply latest_notifying | done]|]. intros u c Hu Ha.
    destruct (Hok u c Hu Ha) as [He|(v & q & Hq & Hqw)]; [by left|]. right. exists v, q. simpl.
    rewrite lookup_insert_ne by congruence. done.
  - destruct (fx_calls st !! t) as [p|] eqn:Et; [|done]. by eapply call_step_ok.
  - destruct (0 <=? d); [|done]. injection E as <-. by destruct Hok.
  - destruct (reader st t); simplify_eq; by apply fx_ok_awake.
  - destruct (reader st t) as [|c| |]; simplify_eq. unfold wait_for_update, futex_wait_timeout.
    destruct (k_wait kn _ _ _ _ _) as [[ret|] k'] eqn:Ew; cbn [option_map].
    + apply (wait_fails _ Hk) in Ew as ->. by apply fx_ok_awake.
    + destruct (wait_sleeps _ Hk _ _ _ _ _ _ Ew) as [Heq Hs]. destruct Hok as [Hc Hok]. split; [done|].
      intros u c'. rewrite reader_set. simpl. rewrite Hs.
      destruct (Nat.eqb_spec u t) as [->|Hne]; [|by apply Hok]. intros [= <-] _. by left.
  - destruct (reader st t); try done. destruct (k_asleep kn _ t); simplify_eq. by apply fx_ok_awake.
  - destruct (reader st t); try done. destruct (k_end kn t _) as [[ret k']|] eqn:Ee; simplify_eq.
    destruct (end_ends _ Hk _ _ _ _ Ee) as [_ Hs]. apply fx_ok_awake; auto.
    intros u _. rewrite Hs. by intros [_ ?]%andb_prop.
Qed.

Lemma fx_run_ok acts st st' : fx_ok st -> fx_run acts st = Some st' -> fx_ok st'.
Proof.
  revert st. induction acts as [|a acts IH]; intros st Hok; simpl; [by intros [= <-]|].
  destruct (fx_step a st) as [st1|] eqn:E; [|done]. apply IH. by eapply fx_step_ok.
Qed.
End Machine.

Arguments fx : clear implicits.

(** C38: no notification is missed.  Any number of readers take the counter and wait
    while any number of threads run calls of [SharedLatest] ([write],
    [write_and_notify], [claim] and the reads), access by access, in any
    interleaving.  When no call is between its increment of the counter and its
    wake-up, a reader whose counter is out of date is not asleep: inside
    [wait_for_update] it can return, with [true]; about to call it with a timeout
    that is not negative, the call returns [true] at once.  With a timeout of minus
    one second or less the kernel refuses the call, and [wait_for_update] returns
    [false] although the counter has changed. *)
Theorem no_missed_notification {K} (kn : Kernel K) sz s k acts st t last_seen :
  FutexManual kn -> fx_run kn sz acts (mkFx s k ∅ ∅) = Some st ->
  (forall u p, fx_calls st !! u = Some p -> owes_wake p = false) ->
  futex_load (load FTailPublish (fx_sh st)) <> last_seen ->
  (reader st t = RWaiting last_seen ->
     exists st', fx_step kn sz (FReturn t) st = Some st' /\ reader st' t = RReturned true) /\
  (reader st t = RTaken last_seen -> forall timeout_ms,
     exists st', fx_step kn sz (FWait t timeout_ms) st = Some st' /\
       (0 <= timeout_ms -> reader st' t = RReturned true) /\
       (timeout_ms <= -1000 -> reader st' t = RReturned false)).
Proof.
  intros Hk Hr Hw Hne. assert (Hok : fx_ok kn st).
  { eapply (fx_run_ok kn sz Hk); [|exact Hr]. split; [apply map_Forall_empty|].
    intros u c. unfold reader. simpl. by rewrite lookup_empty. }
  split.
  - intros E. simpl. rewrite E. destruct (k_asleep kn (fx_kernel st) t) eqn:Ea.
    + exfalso. destruct (fo_sleepers _ _ Hok t last_seen E Ea) as [|(u & p & Hu & Hp)]; [done|].
      by rewrite (Hw u p Hu) in Hp.
    + eexists. split; [reflexivity|]. by rewrite reader_set, Nat.eqb_refl.
  - intros E ms. simpl. rewrite E. eexists. split; [reflexivity|].
    unfold wait_for_update, futex_wait_timeout. split; intros Hms.
    + rewrite (wait_differs _ Hk); [| |done].
      * cbn [option_map wait_result]. by rewrite reader_set, Nat.eqb_refl.
      * pose proof (timespec_exact ms Hms) as Ht. destruct (timespec_of ms). unfold valid_timespec. simpl. lia.
    + rewrite (wait_invalid _ Hk) by (left; by apply timespec_negative).
      cbn [option_map wait_result]. by rewrite reader_set, Nat.eqb_refl.
Qed.

(** ** A kernel: the list of sleepers *)

Definition list_kernel : Kernel (list nat) := {|
  k_asleep l t := bool_decide (t ∈ l);
  k_wait t word expected ts l :=
    if (ts.1 <? 0) || (ts.2 <? 0) || (1000000000 <=? ts.2) then (Some (WErr EINVAL), l) else
    if word =? expected then (None, t :: l) else (Some (WErr EAGAIN), l);
  k_wake l := (Z.of_nat (length l), []);
  k_end t l := if bool_decide (t ∈ l) then Some (WErr ETIMEDOUT, filter (fun u => u <> t) l) else None;
|}.

Lemma list_kernel_manual : FutexManual list_kernel.
Proof.
  split; simpl.
  - intros t word e [sec nsec] k [? ?] Hne. simpl in *.
    rewrite (proj2 (Z.ltb_ge _ _)), (proj2 (Z.ltb_ge _ _)), (proj2 (Z.leb_gt _ _)) by lia. simpl.
    by rewrite (proj2 (Z.eqb_neq _ _)).
  - intros t word e [sec nsec] k H. simpl in *. replace (_ || _) with true; [done|]. symmetry.
    apply orb_true_iff. rewrite orb_true_iff, Z.ltb_lt, Z.leb_le. tauto.
  - intros t word e ts k k'. case_if; [done|]. case_if; [|done]. intros [= <-]. bool_to_prop. split; [done|].
    intros u. destruct (Nat.eqb_spec u t); simpl;
      [apply bool_decide_eq_true | apply bool_decide_ext]; set_solver.
  - intros t word e ts k r k'. repeat case_if; try done; by intros [= _ <-].
  - by intros k n k' [= _ <-].
  - intros t k r k'. case_bool_decide; [|done]. intros [= _ <-]. split; [done|].
    intros u. destruct (Nat.eqb_spec u t); simpl;
      [apply bool_decide_eq_false | apply bool_decide_ext]; rewrite list_elem_of_filter; naive_solver.
Qed.

(** Reader 1 takes the counter and sleeps, reader 2 takes it too, a writer writes
    and notifies; then reader 1 wakes up and reader 2 does not fall asleep. *)
Definition fx_acts : list fact :=
  [FTake 1; FWait 1 50; FTake 2; FCall 3 (LWrite [x01; x02] true)] ++ replicate 10 (FStep 3).

Definition fx_end : fx (list nat) :=
  default (mkFx latest_mem [] ∅ ∅) (fx_run list_kernel 2 fx_acts (mkFx latest_mem [] ∅ ∅)).

Lemma no_missed_notification_witness :
  fx_run list_kernel 2 fx_acts (mkFx latest_mem [] ∅ ∅) = Some fx_end /\
  reader fx_end 1 = RWaiting 0 /\ reader fx_end 2 = RTaken 0 /\
  (exists st', fx_step list_kernel 2 (FReturn 1) fx_end = Some st' /\ reader st' 1 = RReturned true) /\
  (forall ms, exists st', fx_step list_kernel 2 (FWait 2 ms) fx_end = Some st' /\
     (0 <= ms -> reader st' 2 = RReturned true) /\ (ms <= -1000 -> reader st' 2 = RReturned false)).
Proof.
  assert (E : fx_run list_kernel 2 fx_acts (mkFx latest_mem [] ∅ ∅) = Some fx_end) by (vm_compute; reflexivity).
  assert (H0 : forall u p, fx_calls fx_end !! u = Some p -> owes_wake p = false).
  { replace (fx_calls fx_end) with (∅ : gmap nat (prog (option lres))) by (vm_compute; reflexivity).
    intros u p. by rewrite lookup_empty. }
  split_and!; [exact E | vm_compute; reflexivity | vm_compute; reflexivity | |].
  - apply (no_missed_notification list_kernel 2 latest_mem [] fx_acts fx_end 1 0 list_kernel_manual E H0);
      vm_compute; done.
  - apply (no_missed_notification list_kernel 2 latest_mem [] fx_acts fx_end 2 0 list_kernel_manual E H0);
      vm_compute; done.
Defined.
