(* ===== verification/Attach.v ===== *)
(** * Creating, opening and claiming rings and slots

    The static members [create], [open] and [claim] of the rings and of
    [SharedLatest] combine [Mapping] with accesses to the mapped memory.
    [exec] runs such accesses on the file behind a mapping: the control block
    and the ring are decoded from the bytes of the file, and encoded again
    afterwards. *)

From Stdlib Require Import ZArith Lia Strings.Byte.
From stdpp Require Import base list numbers gmap strings.
From S2P Require Import Prelude Memory Layout Prog Records Mapping SpscRing Solo SharedLatest.

(** ** Accesses to a mapped file *)

Definition with_clock (now : Z) (s : shared) : shared := mkShared (ctl s) (ring s) now.

(** The bytes of a file after the control block and the ring have changed. *)
Definition put_field (co : Z) (s : shared) (bs : list byte) (f : field) : list byte :=
  splice bs (co + off_field f) (le_enc 8 (load f s)).

Definition put_shared (bs : list byte) (co ro : Z) (s : shared) : list byte :=
  splice
    (foldl (put_field co s) bs [FHeadReserve; FHeadPublish; FTailReserve; FTailPublish; FSequence])
    ro (ring s).

(** Run an operation alone on the file mapped by [m], at time [now], with at most
    [n] iterations of its loop. *)
Definition exec_loop {A} (n : nat) (m : Mapping) (now : Z) (p : prog (option A)) : M A := fun w =>
  match map_file (mapping m) w with
  | Some (i, len, bs) =>
      let co := control m - mapping m in
      let ro := ring_ptr m - mapping m in
      match run n [] p (with_clock now (shared_at bs co ro (capacity m))) with
      | Some (Done a s' _) =>
          (Ok a, with_inodes (<[i := put_shared bs co ro s']> (inodes w)) w)
      | _ => (UB, w)
      end
  | None => (UB, w)
  end.

Definition exec {A} : Mapping -> Z -> prog (option A) -> M A := exec_loop 1.

(** ** The rings *)

Section Code.
Context (sys : Syscalls).

Definition spsc_create (path : string) (capacity_bytes : Z) : M Mapping :=
  create_mapping sys path capacity_bytes kFlagSPSC.
Definition spsc_open (path : string) : M Mapping := open_mapping sys path kFlagSPSC.

Definition mpsc_create (path : string) (capacity_bytes : Z) : M Mapping :=
  create_mapping sys path capacity_bytes kFlagMPSC.
Definition mpsc_open (path : string) : M Mapping := open_mapping sys path kFlagMPSC.

Definition mpmc_create (path : string) (capacity_bytes : Z) : M Mapping :=
  create_mapping sys path capacity_bytes kFlagMPMC.
Definition mpmc_open (path : string) : M Mapping := open_mapping sys path kFlagMPMC.

(** What [SharedRingBufferSPSC::claim] does to an existing ring. *)
Definition claim_sync : prog (option unit) :=
  let! tp := Load FTailPublish in
  do! Store FTailReserve tp in
  Ret (Some tt).

Definition spsc_claim (path : string) (capacity_bytes : Z) : M (Mapping * ClaimResult) := fun w =>
  match dir w !! path with
  | None =>
      (m ← create_mapping sys path capacity_bytes kFlagSPSC; mret (m, kCreated)) w
  | Some _ =>
      (mapping ← open_mapping sys path kFlagSPSC;
       _ ← exec mapping 0 claim_sync;
       mret (mapping, kResumed)) w
  end.

(** [SharedLatest::claim] at time [now]; the mapping is destroyed when it
    throws. *)
Definition latest_claim (sizeof_T : Z) (path : string) (dead_threshold now : Z)
  : M (Mapping * ClaimResult) := fun w =>
  match dir w !! path with
  | None =>
      (m ← create_mapping sys path sizeof_T kFlagLatest; mret (m, kCreated)) w
  | Some _ =>
      (mapping ← open_mapping sys path kFlagLatest;
       c ← exec mapping now (claim_existing (capacity mapping) dead_threshold);
       match c with
       | Claimed r => mret (mapping, r)
       | LiveWriter => _ ← reset sys mapping;
           throw (RuntimeError "SharedLatest::claim: live writer detected (heartbeat is fresh)")
       | LostRace => _ ← reset sys mapping;
           throw (RuntimeError "SharedLatest::claim: another process claimed ownership first")
       end) w
  end.
End Code.

(** ** Decoding what was encoded *)

Lemma member_splice_same m off k z :
  0 <= off -> off + Z.of_nat k <= Z.of_nat (length m) ->
  member (splice m off (le_enc k z)) (Z.to_nat off) k = z mod 256 ^ Z.of_nat k.
Proof.
  intros Ho Hl. unfold member, splice.
  rewrite drop_app_ge by (rewrite length_take; lia).
  rewrite length_take, Nat.min_l, Nat.sub_diag, drop_0 by lia.
  rewrite take_app_le, take_ge by (rewrite length_le_enc; lia). apply le_dec_enc.
Qed.

(** A part of the file that a write does not touch. *)
Lemma slice_splice_other m off r o n :
  0 <= off -> off + Z.of_nat (length r) <= Z.of_nat (length m) ->
  Z.of_nat (o + n) <= off \/ off + Z.of_nat (length r) <= Z.of_nat o ->
  take n (drop o (splice m off r)) = take n (drop o m).
Proof.
  intros Ho Hl Hd. unfold splice. destruct Hd as [Hd|Hd].
  - rewrite drop_app_le by (rewrite length_take; lia).
    rewrite take_app_le by (rewrite length_drop, length_take; lia).
    rewrite !take_drop_commute, take_take. do 2 f_equal. lia.
  - rewrite drop_app_ge by (rewrite length_take; lia).
    rewrite length_take, Nat.min_l by lia.
    rewrite drop_app_ge by lia. rewrite drop_drop. do 2 f_equal. lia.
Qed.

Lemma store_range f v s :
  0 <= v < 2 ^ 64 -> (forall g, 0 <= load g s < 2 ^ 64) -> forall g, 0 <= load g (store f v s) < 2 ^ 64.
Proof.
  intros Hv Hs g. destruct (decide (g = f)) as [->|];
    [by rewrite load_store_eq | by rewrite load_store_ne].
Qed.

(** The layout of a created file. *)
Definition laid_out (cap : Z) (bs : list byte) : Prop :=
  0 <= cap /\ Z.of_nat (length bs) = 384 + cap.

Lemma off_field_range f : 0 <= off_field f <= 256.
Proof. destruct f; done. Qed.

Lemma off_field_apart f g : f <> g -> off_field f + 8 <= off_field g \/ off_field g + 8 <= off_field f.
Proof. destruct f, g; try done; intros _; unfold off_field, sizeof_PaddedAtomicU64, kCacheLineSize; lia. Qed.

Section Layout.
Context (cap : Z) (s : shared).
Context (Hring : Z.of_nat (length (ring s)) = cap) (Hrange : forall f, 0 <= load f s < 2 ^ 64).

Lemma put_field_len bs f : laid_out cap bs -> laid_out cap (put_field 64 s bs f).
Proof.
  intros [Hc Hl]. pose proof (off_field_range f). split; [done|].
  unfold put_field. rewrite length_splice; rewrite ?length_le_enc; lia.
Qed.

Lemma member_put_field_eq bs f : laid_out cap bs ->
  member (put_field 64 s bs f) (Z.to_nat (64 + off_field f)) 8 = load f s.
Proof.
  intros [Hc Hl]. pose proof (off_field_range f). unfold put_field.
  rewrite member_splice_same by lia. apply Z.mod_small. apply Hrange.
Qed.

Lemma member_put_field_ne bs f g : laid_out cap bs -> f <> g ->
  member (put_field 64 s bs g) (Z.to_nat (64 + off_field f)) 8 =
    member bs (Z.to_nat (64 + off_field f)) 8.
Proof.
  intros [Hc Hl] Hne. pose proof (off_field_range f). pose proof (off_field_range g).
  pose proof (off_field_apart f g Hne). unfold member, put_field. f_equal.
  apply slice_splice_other; rewrite ?length_le_enc; lia.
Qed.

(** Encoding and decoding again; the header is not touched. *)
Lemma shared_at_put bs : laid_out cap bs ->
  laid_out cap (put_shared bs 64 384 s) /\
  shared_at (put_shared bs 64 384 s) 64 384 cap = with_clock 0 s /\
  Header_of_bytes (put_shared bs 64 384 s) = Header_of_bytes bs.
Proof.
  intros Hb. unfold put_shared. cbn [foldl].
  pose proof (put_field_len _ FHeadReserve Hb) as H1. pose proof (put_field_len _ FHeadPublish H1) as H2.
  pose proof (put_field_len _ FTailReserve H2) as H3. pose proof (put_field_len _ FTailPublish H3) as H4.
  pose proof (put_field_len _ FSequence H4) as H5.
  set (bs5 := put_field 64 s _ FSequence) in *. destruct H5 as [Hc Hl].
  assert (Hlen : laid_out cap (splice bs5 384 (ring s))).
  { split; [done|]. rewrite length_splice; lia. }
  assert (Hlow : forall o n, (o + n <= 384)%nat ->
    member (splice bs5 384 (ring s)) o n = member bs5 o n).
  { intros. unfold member. f_equal. apply slice_splice_other; lia. }
  split_and!; [done | |].
  - unfold shared_at, with_clock. f_equal.
    + rewrite !Hlow by (apply Nat.leb_le; reflexivity). unfold bs5.
      assert (E : forall f, member bs5 (Z.to_nat (64 + off_field f)) 8 = load f s).
      { intros f. unfold bs5.
        destruct f; repeat (rewrite member_put_field_ne by done); by rewrite member_put_field_eq. }
      fold bs5. rewrite !E. by destruct s as [[] ? ?].
    + unfold splice. rewrite drop_app_ge by (rewrite length_take; lia).
      rewrite length_take, Nat.min_l, Nat.sub_diag, drop_0 by lia.
      by rewrite take_app_le, take_ge by lia.
  - assert (Hhd : forall o n, (o + n <= 64)%nat -> member bs5 o n = member bs o n).
    { intros o n Ho.
      assert (Hput : forall b f, laid_out cap b -> member (put_field 64 s b f) o n = member b o n).
      { intros b f [_ Hb']. pose proof (off_field_range f). unfold member, put_field. f_equal.
        apply slice_splice_other; rewrite ?length_le_enc; lia. }
      unfold bs5. by rewrite !Hput. }
    unfold Header_of_bytes. by rewrite !Hlow, !Hhd by (apply Nat.leb_le; reflexivity).
Qed.
End Layout.

(** ** Existing files *)

Lemma shared_at_range bs co ro cap f : 0 <= load f (shared_at bs co ro cap) < 2 ^ 64.
Proof.
  assert (Hm : forall o, 0 <= member bs o 8 < 2 ^ 64).
  { intros o. unfold member. pose proof (le_dec_range (take 8 (drop o bs))) as Hr.
    assert (256 ^ Z.of_nat (length (take 8 (drop o bs))) <= 256 ^ 8)
      by (apply Z.pow_le_mono_r; rewrite ?length_take; lia).
    change (256 ^ 8) with (2 ^ 64) in *. lia. }
  destruct f; apply Hm.
Qed.

Lemma shared_at_len bs cap : laid_out cap bs -> Z.of_nat (length (ring (shared_at bs 64 384 cap))) = cap.
Proof. intros [? ?]. simpl. rewrite length_take, length_drop. lia. Qed.

(** The mapping of such a file, and the world with its contents replaced. *)
Definition mapping_of (cap fdv a : Z) : Mapping :=
  mkMapping fdv a (384 + cap) a (a + 64) (a + 384) cap.

(** A file in the layout of [create_mapping], whatever its control block and
    ring hold. *)
Record ring_file (path : string) (cap flags : Z) (w : world) (i : nat) (bs : list byte) : Prop := {
  rf_cap : cap < 2 ^ 63;
  rf_dir : dir w !! path = Some i;
  rf_inode : inodes w !! i = Some bs;
  rf_layout : laid_out cap bs;
  rf_header : Header_of_bytes bs = created_header cap flags;
}.

Section Existing.
Context (sys : Syscalls) (Hos : Posix sys).
Context (path : string) (cap flags : Z) (w : world) (i : nat) (bs : list byte)
  (Hrf : ring_file path cap flags w i bs).

Definition claimed_world (s : shared) (fdv a : Z) : world :=
  opened i fdv a (384 + cap) (set_file i (put_shared bs 64 384 s) w).

Lemma open_layout :
  (exists message, open_mapping sys path flags w = (Throw (Errno message), w)) \/
  exists fdv a, open_mapping sys path flags w =
      (Ok (mapping_of cap fdv a), opened i fdv a (384 + cap) w) /\
    0 <= fdv /\ 0 < a /\ fds w !! fdv = None /\ maps w !! a = None.
Proof.
  destruct Hrf as [Hc Hp Hi [Hc0 Hl] Hh].
  destruct (open_mapping_cases sys Hos path flags w)
    as [(i' & bs' & fdv & a & E & Hp' & Hi' & ? & ? & ? & ? & _)|(e & E & He)].
  - rewrite Hp in Hp'. injection Hp' as <-. rewrite Hi in Hi'. injection Hi' as <-.
    right. exists fdv, a. rewrite Hh, Hl in E. split_and!; auto.
  - left. destruct e as [message|message]; [eauto|]. destruct He as (i' & bs' & Hp' & Hi' & Hbad).
    rewrite Hp in Hp'. injection Hp' as <-. rewrite Hi in Hi'. injection Hi' as <-. exfalso.
    rewrite Hh, Hl in Hbad. destruct Hbad as [Hbad|Hbad]; [unfold sizeof_Header in Hbad; lia|].
    by rewrite created_header_ok in Hbad by lia.
Qed.

Lemma exec_opened {A} now (p : prog (option A)) fdv a r s' :
  maps w !! a = None ->
  eval [] (with_clock now (shared_at bs 64 384 cap)) p = Done (Some r) s' [] ->
  exec (mapping_of cap fdv a) now p (opened i fdv a (384 + cap) w) = (Ok r, claimed_world s' fdv a).
Proof.
  intros Hm E. unfold exec, exec_loop, map_file. simpl. rewrite lookup_insert_eq, (rf_inode _ _ _ _ _ _ Hrf).
  replace (a + 64 - a) with 64 by lia. replace (a + 384 - a) with 384 by lia. by rewrite E.
Qed.

(** Putting back what was there. *)
Lemma claimed_world_file s fdv a :
  Z.of_nat (length (ring s)) = cap -> (forall f, 0 <= load f s < 2 ^ 64) ->
  ring_file path cap flags (claimed_world s fdv a) i (put_shared bs 64 384 s) /\
  shared_at (put_shared bs 64 384 s) 64 384 cap = with_clock 0 s.
Proof.
  intros Hl Hr. destruct Hrf as [Hc Hp Hi Hlay Hh].
  destruct (shared_at_put cap s Hl Hr bs Hlay) as (? & ? & Hh'). split; [|done].
  constructor; simpl; auto; [apply lookup_insert_eq | congruence].
Qed.

Lemma claimed_live s fdv a :
  0 <= cap -> 0 <= fdv -> 0 < a -> live i (mapping_of cap fdv a) (claimed_world s fdv a).
Proof. intros. unfold live. simpl. rewrite !lookup_insert_eq. split_and!; auto; lia. Qed.
End Existing.

(** Claiming a ring file that exists: unless a system call fails, the call
    resumes the ring, and the file then holds the same header, counters and
    records with [tail_reserve] set to [tail_publish]; nothing of what was
    published is lost. *)
Theorem spsc_claim_existing sys path capacity_bytes cap w i bs :
  Posix sys -> ring_file path cap kFlagSPSC w i bs ->
  (exists message, spsc_claim sys path capacity_bytes w = (Throw (Errno message), w)) \/
  exists m w' bs', spsc_claim sys path capacity_bytes w = (Ok (m, kResumed), w') /\
    capacity m = cap /\ live i m w' /\ ring_file path cap kFlagSPSC w' i bs' /\
    let s := shared_at bs 64 384 cap in
    shared_at bs' 64 384 cap = store FTailReserve (load FTailPublish s) s.
Proof.
  intros Hos Hrf. pose proof (shared_at_range bs 64 384 cap) as Hr.
  pose proof (shared_at_len bs cap (rf_layout _ _ _ _ _ _ Hrf)) as Hl.
  destruct (rf_layout _ _ _ _ _ _ Hrf) as [Hc0 _].
  unfold spsc_claim. rewrite (rf_dir _ _ _ _ _ _ Hrf).
  destruct (open_layout sys Hos path cap kFlagSPSC w i bs Hrf)
    as [[msg E]|(fdv & a & E & Hfd & Ha & Hf & Hm)]; [left | right].
  { exists msg. by erewrite bind_throw by exact E. }
  set (s := shared_at bs 64 384 cap) in *.
  set (s' := store FTailReserve (load FTailPublish s) s).
  destruct (claimed_world_file path cap kFlagSPSC w i bs Hrf s' fdv a) as [Hrf' Hs']; auto.
  { by apply store_range. }
  eexists _, _, _. split_and!; [| | | exact Hrf' |].
  - erewrite bind_ok by exact E. erewrite bind_ok; [reflexivity|].
    apply (exec_opened path cap kFlagSPSC w i bs Hrf); [done|]. reflexivity.
  - done.
  - by apply claimed_live.
  - rewrite Hs'. reflexivity.
Qed.

(** [latest_claim] once the file is open, by the outcome of the takeover. *)
Lemma latest_claim_opened sys sizeof_T path d now cap w i bs fdv a c s' :
  Posix sys -> ring_file path cap kFlagLatest w i bs ->
  open_mapping sys path kFlagLatest w = (Ok (mapping_of cap fdv a), opened i fdv a (384 + cap) w) ->
  0 <= fdv -> 0 < a -> fds w !! fdv = None -> maps w !! a = None ->
  eval [] (with_clock now (shared_at bs 64 384 cap)) (claim_existing cap d) = Done (Some c) s' [] ->
  match c with
  | Claimed r => latest_claim sys sizeof_T path d now w =
      (Ok (mapping_of cap fdv a, r), claimed_world cap w i bs s' fdv a)
  | _ => exists message, latest_claim sys sizeof_T path d now w =
      (Throw (RuntimeError message), set_file i (put_shared bs 64 384 s') w)
  end.
Proof.
  intros Hos Hrf E Hfd Ha Hf Hm Ev. destruct (rf_layout _ _ _ _ _ _ Hrf) as [Hc0 _].
  pose proof (exec_opened path cap kFlagLatest w i bs Hrf now _ fdv a _ _ Hm Ev) as Hx.
  assert (Hreset : forall e, (_ ← reset sys (mapping_of cap fdv a); throw e)
      (claimed_world cap w i bs s' fdv a) =
    (Throw (A := Mapping * ClaimResult) e, set_file i (put_shared bs 64 384 s') w)).
  { intros e. erewrite bind_ok by (apply (reset_live _ i); [done | by apply claimed_live]).
    unfold throw. f_equal. unfold released, claimed_world, opened. simpl.
    by rewrite !delete_insert_id by done. }
  unfold latest_claim. rewrite (rf_dir _ _ _ _ _ _ Hrf).
  destruct c; [|eexists..]; (erewrite bind_ok by exact E); (erewrite bind_ok by exact Hx);
    [reflexivity | apply Hreset..].
Qed.

Lemma zeroed_ring m cap :
  Z.of_nat (length m) = cap -> splice m 0 (replicate (Z.to_nat cap) x00) = replicate (Z.to_nat cap) x00.
Proof.
  intros Hm. unfold splice. rewrite take_0, drop_ge by (rewrite length_replicate; lia).
  by rewrite app_nil_r.
Qed.


(** C18: a producer may die at any point of a push.  Once the consumer is
    between calls, [claim] leaves a quiescent ring that holds everything
    published and not yet popped; no message whose push had returned is
    lost. *)
Theorem spsc_crash_recovery cap s c0 c :
  cap_ok cap -> fresh cap s -> reachable cap s c0 -> c_thr c0 !! 1%nat = None ->
  rtc (cstep (body cap) role (no_wrap cap)) c0 c -> c_thr c !! O = None ->
  exists s' H T n popd q,
    eval [] (c_sh c) claim_sync = Done (Some tt) s' [] /\
    quiet cap s' H T n q /\ idx_ok cap T /\
    Forall2 (fun e x => delivers e.1.1 e.1.2 e.2 x) (pops (tlog 0 (c_log c))) popd /\
    pushed (tlog 1 (c_log c0)) `prefix_of` (msg_key <$> popd ++ q).
Proof.
  intros Hcap Hf Hr Hidle Hs Hcons.
  destruct (spsc_reach_later cap Hcap s c0 c Hf Hr Hidle Hs) as (g & (_ & HI & Ht) & Hp).
  specialize (Ht O). rewrite Hcons in Ht. destruct Ht as (? & (<- & Hhr & _) & Hd & _).
  destruct HI as [? ? Htl ? ? (q & Hseg & Hpub) _ Hsq]. simpl in *.
  eexists _, (gH g), (gT g), (load FSequence (c_sh c)), (gpop g), q.
  split; [reflexivity|]. split_and!; [| done | done | by rewrite <- Hpub].
  constructor; rewrite ?load_store_eq, ?load_store_ne by done; auto.
Qed.

(** ** Concrete runs *)

Lemma created_ring_file path cap flags i fdv a w :
  0 <= cap < 2 ^ 63 -> 0 <= flags < 2 ^ 64 ->
  ring_file path cap flags (created path cap flags i fdv a w) i (image cap flags).
Proof.
  intros Hc Hf. split; [lia | apply lookup_insert_eq.. | | apply image_header; lia].
  split; [lia | apply length_image; lia].
Qed.

Lemma spsc_claim_existing_witness :
  (exists message, spsc_claim ideal_sys "ring" 0 (world64 kFlagSPSC) =
     (Throw (Errno message), world64 kFlagSPSC)) \/
  exists m w' bs', spsc_claim ideal_sys "ring" 0 (world64 kFlagSPSC) = (Ok (m, kResumed), w') /\
    capacity m = 64 /\ live O m w' /\ ring_file "ring" 64 kFlagSPSC w' O bs' /\
    let s := shared_at (image 64 kFlagSPSC) 64 384 64 in
    shared_at bs' 64 384 64 = store FTailReserve (load FTailPublish s) s.
Proof.
  apply (spsc_claim_existing ideal_sys "ring" 0 64 (world64 kFlagSPSC) O (image 64 kFlagSPSC));
    [apply ideal_posix | by apply created_ring_file].
Defined.

(** A slot whose writer died in its second write, one second ago. *)
Definition died : shared := mkShared (mkControl 5 0 0 0 3) (replicate 64 x01) 0.
Definition latest_world : world := set_file O (put_shared (image 64 kFlagLatest) 64 384 died) (world64 kFlagLatest).

Lemma latest_ring_file :
  ring_file "ring" 64 kFlagLatest latest_world O (put_shared (image 64 kFlagLatest) 64 384 died) /\
  shared_at (put_shared (image 64 kFlagLatest) 64 384 died) 64 384 64 = died.
Proof.
  assert (H0 : ring_file "ring" 64 kFlagLatest (world64 kFlagLatest) O (image 64 kFlagLatest))
    by (by apply created_ring_file).
  destruct (shared_at_put 64 died eq_refl ltac:(intros []; by vm_compute) _ (rf_layout _ _ _ _ _ _ H0))
    as (Hl & Hs & Hh). split; [|done].
  split; [done | apply H0 | apply lookup_insert_eq | done | by rewrite Hh, (rf_header _ _ _ _ _ _ H0)].
Qed.


(** One message is pushed; the producer dies in its second push, after it has
    numbered the record; then the consumer pops. *)
Definition crash_push : list act := [AStart 1 (OPush (Some [x61]) 1 7)] ++ steps 1 12.
Definition crash_rest : list act :=
  [AStart 1 (OPush (Some [x62]) 1 8)] ++ steps 1 8 ++ [AStart 0 (OPop [] 0 None)] ++ steps 0 9.

Lemma spsc_crash_recovery_witness :
  exists c0 c, crun (body 64) role crash_push (init_config ring64) = Some c0 /\
    crun (body 64) role crash_rest c0 = Some c /\
    c_thr c !! O = None /\ load FSequence (c_sh c) = 2 /\ pushed (tlog 1 (c_log c0)) = [(7, [x61])] /\
    exists s' H T n popd q,
      eval [] (c_sh c) claim_sync = Done (Some tt) s' [] /\
      quiet 64 s' H T n q /\ idx_ok 64 T /\
      Forall2 (fun e x => delivers e.1.1 e.1.2 e.2 x) (pops (tlog 0 (c_log c))) popd /\
      pushed (tlog 1 (c_log c0)) `prefix_of` (msg_key <$> popd ++ q).
Proof.
  destruct (crun_observe (body 64) role crash_push (init_config ring64)
    (fun c => (match c_thr c !! 1%nat with None => true | _ => false end, pushed (tlog 1 (c_log c))))
    (true, [(7, [x61])])
    (fun c => c_thr c !! 1%nat = None /\ pushed (tlog 1 (c_log c)) = [(7, [x61])]))
    as (c0 & E0 & Hi0 & Hp0); [vm_compute; reflexivity | intros c [= ? ?]; by case_match |].
  destruct (crun_observe (body 64) role (crash_push ++ crash_rest) (init_config ring64)
    (fun c => (match c_thr c !! O with None => true | _ => false end, load FSequence (c_sh c)))
    (true, 2) (fun c => c_thr c !! O = None /\ load FSequence (c_sh c) = 2))
    as (c & E & Hi & Hq); [vm_compute; reflexivity | intros c [= ? ?]; by case_match |].
  rewrite crun_app, E0 in E. exists c0, c. split_and!; auto.
  assert (Hnw : forall s1 s2, no_wrap 64 s1 s2) by (intros; left; by exists (2 ^ 58)).
  apply (spsc_crash_recovery 64 ring64 c0 c cap_ok_64); auto;
    [by split | by apply (crun_rtc _ _ _ crash_push) | by apply (crun_rtc _ _ _ crash_rest)].
Defined.
