(* ===== verification/MemorySafety.v ===== *)
(** * No access leaves the ring

    The theorems on the queues and rings assume that threads keep to their roles
    and that the mapped memory starts in a state the library has made.  This file
    assumes neither: whatever the five atomics and the bytes of the ring hold,
    whoever calls what, no call reads or writes outside the ring or divides by zero,
    if the header of the file gives the ring the size the object needs.
    [SPSCQueue] checks that size when it opens a file, the others do not
    ([trusts]).  Every operation checks positions and sizes that
    it has loaded before it uses them; [in_bounds] says so for a program on its
    own, for all values it may load. *)

From Stdlib Require Import ZArith Lia Strings.Byte.
From stdpp Require Import base list numbers gmap strings.
From S2P Require Import Prelude Memory Layout Prog Records Owner SpscRing RingWriter MpscRing MpmcRing.
From S2P Require Import Mapping Solo SpscQueue SharedLatest Attach.

Section Bounds.
Context (n : Z) {A : Type}.

(** For any values loaded from the atomics and from the ring, the program stays
    inside a ring of [n] bytes. *)
Fixpoint in_bounds (p : prog A) : Prop :=
  match p with
  | Ret _ => True
  | Load _ k | FetchAdd _ _ k | Now k => forall v, in_bounds (k v)
  | Store _ _ k | Await _ _ k | WakeAll k => in_bounds k
  | Cas _ _ _ _ k => forall b, in_bounds (k b)
  | Read off m k =>
      0 <= off /\ 0 <= m /\ off + m <= n /\ forall bs, Z.of_nat (length bs) = m -> in_bounds (k bs)
  | Write off bs k => 0 <= off /\ off + Z.of_nat (length bs) <= n /\ in_bounds k
  | Undefined => False
  end.

Lemma bounds_step1 spur s p :
  Z.of_nat (length (ring s)) = n -> in_bounds p ->
  match step1 spur s p with
  | Step s' p' => Z.of_nat (length (ring s')) = n /\ in_bounds p'
  | Halt => exists a, p = Ret a
  | Fault => False
  end.
Proof.
  intros Hn. destruct p as [a|f k|f v k|w f e d k|f v k|f v k|off m k|off bs k|k|k|]; cbn [in_bounds step1]; intros Hp.
  - by exists a.
  - split; [done | apply Hp].
  - done.
  - by destruct (_ && _).
  - split; [done | apply Hp].
  - by destruct (_ =? _).
  - destruct Hp as (? & ? & ? & Hp). rewrite mem_read_Some by lia. split; [done|]. apply Hp.
    rewrite length_take, length_drop. lia.
  - destruct Hp as (? & ? & Hp). rewrite mem_write_Some by lia. rewrite ring_with_ring. split; [|done].
    rewrite length_splice by lia. done.
  - split; [done | apply Hp].
  - done.
  - done.
Qed.

Lemma bounds_memcpy_to off bs k :
  0 <= off -> off + Z.of_nat (length bs) <= n -> in_bounds k -> in_bounds (memcpy_to off bs k).
Proof.
  revert off. induction bs as [|b bs IH]; intros off Ho Hl Hk; [done|]. cbn [memcpy_to in_bounds length] in *.
  split_and!; [lia | simpl; lia |]. apply IH; [lia | lia | done].
Qed.

Lemma bounds_memcpy_from off m k :
  0 <= off -> off + Z.of_nat m <= n -> (forall bs, length bs = m -> in_bounds (k bs)) ->
  in_bounds (memcpy_from off m k).
Proof.
  revert off k. induction m as [|m IH]; intros off k Ho Hl Hk; [by apply Hk|]. cbn [memcpy_from in_bounds].
  split_and!; [lia | lia | lia |]. intros b Hb. apply IH; [lia | lia |]. intros bs Hbs.
  apply Hk. rewrite length_app. lia.
Qed.

Lemma bounds_read_uint off m k :
  0 <= off -> off + Z.of_nat m <= n -> (forall v, 0 <= v < 256 ^ Z.of_nat m -> in_bounds (k v)) ->
  in_bounds (read_uint off m k).
Proof.
  intros Ho Hl Hk. cbn [read_uint in_bounds]. split_and!; [lia | lia | lia |]. intros bs Hbs. apply Hk.
  pose proof (le_dec_range bs). by rewrite Hbs in *.
Qed.

Lemma bounds_header pos h k :
  0 <= pos -> pos + sizeof_RecordHeader <= n -> in_bounds k -> in_bounds (write_header pos h k).
Proof.
  unfold sizeof_RecordHeader, write_header, write_uint, off_size, off_type, off_flags, off_sequence.
  intros Hp Hl Hk. cbn [in_bounds]. rewrite !length_le_enc. split_and!; try lia. done.
Qed.
End Bounds.

Lemma bounds_pmap {A B} n (f : A -> B) p : in_bounds n p -> in_bounds n (pmap f p).
Proof. induction p; simpl; intuition. Qed.

(** ** The rings *)

Section Ring.
Context (n cap : Z) (Hcap : 0 < cap <= n) (Hn : n < 2 ^ 64).

(** Position and remaining bytes, for any value of the counter. *)
Lemma position v : 0 <= v mod cap < cap /\ sub64 cap (v mod cap) = cap - v mod cap.
Proof.
  pose proof (Z.mod_pos_bound v cap). split; [lia|]. unfold sub64. apply u64_small. lia.
Qed.

Lemma bounds_memcpy_in {A} off data size (k : prog A) :
  (data = None -> size = 0) -> size > 0 ->
  match data with Some bs => size <=? Z.of_nat (length bs) | None => true end = true ->
  0 <= off -> off + size <= n -> in_bounds n k -> in_bounds n (memcpy_in off data size k).
Proof.
  intros Hnull Hs Hd Ho Hl Hk. unfold memcpy_in. destruct data as [bs|]; [|specialize (Hnull eq_refl); lia].
  rewrite Hd. apply bounds_memcpy_to; [done | | done]. rewrite length_take. lia.
Qed.

Lemma rounded size : 0 <= size < 2 ^ 32 ->
  sizeof_RecordHeader + size <= align_up (add64 sizeof_RecordHeader size) kAlignment.
Proof.
  intros Hs. unfold add64. rewrite u64_small by (unfold sizeof_RecordHeader; lia).
  pose proof (record_size_bounds size Hs) as [Hb _]. unfold record_size in Hb. lia.
Qed.

(** Filling in a record of [size] payload bytes where one fits. *)
Lemma bounds_fill {A} pos data size type (k : prog A) :
  push_args_ok data size type = true -> (data = None -> size = 0) ->
  0 <= pos -> pos + sizeof_RecordHeader + size <= n -> in_bounds n k ->
  in_bounds n (write_header pos (mkRecordHeader size type 0 0)
    (if size >? 0 then memcpy_in (pos + sizeof_RecordHeader) data size k else k)).
Proof.
  intros Hv Hnull Hp Hl Hk. pose proof (push_args_spec _ _ _ Hv) as (Hs & _).
  unfold push_args_ok in Hv. apply andb_prop in Hv as [_ Hv].
  apply bounds_header; [done | lia |]. case_if; [|done]. apply bounds_memcpy_in; auto; [lia.. |];
    unfold sizeof_RecordHeader in *; lia.
Qed.

Lemma writer_bounds data size type :
  push_args_ok data size type = true -> in_bounds n (RingWriter.try_push cap data size type).
Proof.
  intros Hv. pose proof (push_args_spec _ _ _ Hv) as (Hs & _). pose proof (rounded size Hs) as Hr.
  unfold RingWriter.try_push. destruct (_ && _) eqn:E; [done|].
  assert (Hnull : data = None -> size = 0) by (intros ->; simpl in E; apply negb_false_iff in E; lia).
  set (rs := align_up _ _) in *. case_if; [done|]. intros head tail. cbv zeta. case_if; [done|].
  rewrite umod_ne by lia. destruct (position tail) as [Hp ->]. set (pos := tail mod cap) in *.
  assert (Hfill : forall pos' (k : prog (option bool)), 0 <= pos' -> pos' + rs <= n -> in_bounds n k ->
    in_bounds n (write_header pos' (mkRecordHeader size type 0 0)
      (if size >? 0 then memcpy_in (pos' + sizeof_RecordHeader) data size k else k))).
  { intros. apply bounds_fill; auto. lia. }
  assert (Hpub : forall pos' v w (k : prog (option bool)), 0 <= pos' -> pos' + rs <= n -> in_bounds n k ->
    in_bounds n (Await FTailPublish v (FetchAdd FSequence 1 (fun sq =>
      write_uint (pos' + off_sequence) 8 (add64 sq 1) (Store FTailPublish w k))))).
  { intros pos' v w k H1 H2 Hk sq. unfold write_uint, off_sequence. cbn [in_bounds].
    rewrite length_le_enc. unfold sizeof_RecordHeader in *. split_and!; [lia | lia | done]. }
  destruct (cap - pos <? sizeof_RecordHeader) eqn:E1; [|destruct (cap - pos <? rs) eqn:E2];
    bool_to_prop; (case_if; [done|]); intros b; (destruct b; [|done]); cbn [negb];
    rewrite umod_ne by lia; fold pos.
  - rewrite (proj2 (Z.gtb_lt _ _)) by lia. cbn [andb]. apply Hfill; [lia | lia |]. by apply Hpub; [lia | lia |].
  - rewrite (proj2 (Z.gtb_lt _ _)) by lia. cbn [andb].
    assert (H0 : in_bounds n (write_header 0 (mkRecordHeader size type 0 0)
      (if size >? 0 then memcpy_in (0 + sizeof_RecordHeader) data size
         (Await FTailPublish tail (FetchAdd FSequence 1 (fun sq =>
            write_uint (0 + off_sequence) 8 (add64 sq 1)
              (Store FTailPublish (add64 (add64 tail (cap - pos)) rs) (Ret (Some true))))))
       else Await FTailPublish tail (FetchAdd FSequence 1 (fun sq =>
            write_uint (0 + off_sequence) 8 (add64 sq 1)
              (Store FTailPublish (add64 (add64 tail (cap - pos)) rs) (Ret (Some true)))))))).
    { apply Hfill; [lia | lia |]. by apply Hpub; [lia | lia |]. }
    case_if; [|exact H0]. apply bounds_header; [lia | lia | exact H0].
  - change (0 >? 0) with false. cbv iota. apply Hfill; [lia | lia |]. by apply Hpub; [lia | lia |].
Qed.

Lemma spsc_push_bounds data size type :
  push_args_ok data size type = true -> in_bounds n (SpscRing.try_push cap data size type).
Proof.
  intros Hv. pose proof (push_args_spec _ _ _ Hv) as (Hs & _). pose proof (rounded size Hs) as Hr.
  unfold SpscRing.try_push, SpscRing.push_rest. destruct (_ && _) eqn:E; [done|].
  assert (Hnull : data = None -> size = 0) by (intros ->; simpl in E; apply negb_false_iff in E; lia).
  set (rs := align_up _ _) in *. case_if; [done|]. intros head tail. cbv zeta. case_if; [done|].
  rewrite umod_ne by lia. destruct (position tail) as [Hp ->]. set (pos := tail mod cap) in *.
  case_if; [by case_if|]. case_if.
  - case_if; [done|]. case_if; [|done]. by apply bounds_header; [lia | lia |].
  - case_if; [done|]. apply bounds_fill; auto; [lia | lia |]. intros sq.
    unfold write_uint, off_sequence. cbn [in_bounds]. rewrite length_le_enc.
    unfold sizeof_RecordHeader in *. split_and!; [lia | lia | done].
Qed.

Lemma push_bounds kind data size type :
  push_args_ok data size type = true -> in_bounds n (push_of kind cap data size type).
Proof. intros. destruct kind; [by apply spsc_push_bounds | by apply writer_bounds..]. Qed.

Ltac offsets := unfold off_flags, off_size, off_type, off_sequence, sizeof_RecordHeader in *; lia.

Ltac bounds_pop :=
  repeat first
    [ done
    | apply bounds_read_uint; [offsets | offsets | intros ? ?]
    | apply bounds_memcpy_from; [offsets | offsets | intros ? ?]
    | match goal with
      | |- in_bounds _ (if ?b then _ else _) => destruct b eqn:?; bool_to_prop
      | |- in_bounds _ (match ?x with _ => _ end) => destruct x
      | |- forall _, _ => intro
      | |- in_bounds _ _ => progress cbn [in_bounds]
      end ].

Lemma pop_bounds kind out type sq : in_bounds n (pop_of kind cap out type sq).
Proof.
  assert (Hhead : forall (k : Z -> Z -> Z -> prog (option popped)) f fail,
    in_bounds n fail ->
    (forall tail head pos, 0 <= pos < cap -> sub64 cap pos = cap - pos -> in_bounds n (k tail head pos)) ->
    in_bounds n (Load FTailPublish (fun tail => Load f (fun head =>
      if head =? tail then fail else umod head cap (k tail head))))).
  { intros k f fail Hf Hk tail head. cbn beta. case_if; [done|]. rewrite umod_ne by lia.
    destruct (position head). auto. }
  assert (Hm : forall q, in_bounds n (MpmcRing.try_pop_seq cap out type q)).
  { intros q. unfold MpmcRing.try_pop_seq, MpmcRing.try_pop_rest. apply (Hhead (fun tail head pos => _)); [done|].
    intros tail head pos Hp Hsub. cbv zeta.
    destruct (sub64 cap pos <? sizeof_RecordHeader) eqn:E1; bool_to_prop; [by bounds_pop|].
    destruct (sub64 tail head <? sizeof_RecordHeader); [done|].
    apply bounds_read_uint; [offsets | offsets |].
    intros flags _. destruct (negb _); [by bounds_pop|].
    apply bounds_read_uint; [offsets | offsets |].
    intros payload Hpay. change (256 ^ Z.of_nat 4) with (2 ^ 32) in Hpay. pose proof (rounded payload Hpay).
    case_if; [done|]. case_if; [done|]. intros b. destruct b; [|done]. cbn [negb].
    bounds_pop. }
  destruct kind; unfold pop_of.
  3: { destruct sq; [apply Hm | apply bounds_pmap, Hm]. }
  all: unfold SpscRing.try_pop_internal, MpscRing.try_pop_internal.
  all: apply (Hhead (fun tail head pos => _)); [done|].
  all: intros tail head pos Hp Hsub; cbv zeta;
    destruct (sub64 cap pos <? sizeof_RecordHeader) eqn:E1; bool_to_prop; [by bounds_pop|].
  all: apply bounds_read_uint; [offsets | offsets |].
  all: intros flags _; destruct (negb _); [by bounds_pop|].
  all: apply bounds_read_uint; [offsets | offsets |].
  all: intros payload Hpay; change (256 ^ Z.of_nat 4) with (2 ^ 32) in Hpay; pose proof (rounded payload Hpay).
  all: case_if; [done|]; case_if; [done|].
  all: bounds_pop.
Qed.
End Ring.

(** ** Queues and slots *)

Lemma land_le a b : 0 <= b -> 0 <= Z.land a b <= b.
Proof.
  intros Hb. assert (E : b = Z.land a b + Z.ldiff b a).
  { rewrite Z.add_nocarry_lxor; apply Z.bits_inj; intros i;
      rewrite ?Z.lxor_spec, ?Z.land_spec, ?Z.ldiff_spec, ?Z.bits_0; by destruct (Z.testbit a i), (Z.testbit b i). }
  assert (0 <= Z.land a b) by (apply Z.land_nonneg; by right).
  assert (0 <= Z.ldiff b a) by (apply Z.ldiff_nonneg; by left). lia.
Qed.

Section Fixed.
Context (n : Z) (Hn : n < 2 ^ 64).

Lemma slot_bounds sz Cap v : 0 < sz -> 0 < Cap -> Cap * sz <= n ->
  0 <= u64 (Z.land v (kMask Cap) * sz) /\ u64 (Z.land v (kMask Cap) * sz) + sz <= n.
Proof.
  intros Hs HC Hl. destruct (land_le v (kMask Cap)) as [H1 H2]; [unfold kMask; lia|].
  unfold kMask in H2 at 2. rewrite u64_small by nia. nia.
Qed.

Lemma queue_bounds sz Cap o :
  0 < sz -> 0 < Cap -> Cap * sz <= n -> in_bounds n (qbody sz Cap o).
Proof.
  intros Hs HC Hl. pose proof (fun v => slot_bounds sz Cap v Hs HC Hl) as Hslot.
  destruct o as [v|out|]; unfold qbody; apply bounds_pmap.
  - unfold SpscQueue.try_push, push_slot. intros t h. cbv beta zeta. case_if; [done|]. destruct (Hslot t).
    apply bounds_memcpy_to; [done | rewrite length_take; lia | done].
  - unfold SpscQueue.try_pop, pop_slot. intros h t. cbv beta zeta. case_if; [done|]. destruct (Hslot h).
    apply bounds_memcpy_from; [done | lia | done].
  - done.
Qed.

Section Slot.
Context (sz : Z) (Hsz : 0 < sz <= n).

Lemma snapshot_bounds {A} (k : list byte -> prog A) :
  (forall bs, in_bounds n (k bs)) -> in_bounds n (memcpy_from 0 (Z.to_nat sz) k).
Proof. intros Hk. apply bounds_memcpy_from; [done | lia | auto]. Qed.

Lemma read_loop_bounds m out : in_bounds n (read_loop sz m out).
Proof.
  revert out. induction m as [|m IH]; intros out; [done|]. cbn [read_loop]. intros s1. case_if; [apply IH|].
  apply snapshot_bounds. intros bs s2. case_if; [done | apply IH].
Qed.

Lemma rich_loop_bounds d m i out : in_bounds n (rich_loop sz d m i out).
Proof.
  revert i out. induction m as [|m IH]; intros i out; [done|]. cbn [rich_loop]. intros s1. case_if.
  - case_if; [|apply IH]. intros hb now. cbv beta. case_if; [done | apply IH].
  - apply snapshot_bounds. intros bs s2. case_if; [done | apply IH].
Qed.

Lemma latest_bounds o :
  match o with LClaim cap _ => cap <= n | _ => True end -> in_bounds n (lbody sz o).
Proof.
  assert (Hw : forall v (k : prog (option unit)), in_bounds n k -> in_bounds n (write_then sz v k)).
  { intros v k Hk s. apply bounds_memcpy_to; [done | rewrite length_take; lia |]. intros now. done. }
  destruct o as [v nt|out m|out d m|d|cap d]; intros Ho; [destruct nt|..]; unfold lbody; apply bounds_pmap.
  - by apply Hw.
  - by apply Hw.
  - apply read_loop_bounds.
  - intros s1. cbv beta. case_if; [done | apply rich_loop_bounds].
  - intros hb. cbv beta. by case_if.
  - intros s. cbv beta. case_if; [done|]. intros hb now. cbv beta. case_if; [done|]. intros b. case_if; [done|].
    apply bounds_memcpy_to; [done | rewrite length_replicate; lia | done].
Qed.
End Slot.
End Fixed.

(** ** Any mix of calls *)

(** A call on an object that views the mapped memory as one of the rings, as a
    queue or as a latest-value slot; [Sync] is the takeover of an SPSC ring. *)
Inductive call :=
| CRing (k : ring_kind) (capacity : Z) (o : op)
| CSize (k : ring_kind) (capacity : Z)
| CQueue (sizeof_T Capacity : Z) (o : qop)
| CLatest (sizeof_T : Z) (o : lop)
| CSync.

Inductive answer :=
| ARing (r : res)
| ASize (n : Z)
| AQueue (r : qres)
| ALatest (r : lres)
| ASync.

Definition call_body (c : call) : prog (option answer) :=
  match c with
  | CRing k capacity (OPush data size type) =>
      pmap (option_map (fun b => ARing (RPush b))) (push_of k capacity data size type)
  | CRing k capacity (OPop out type sq) =>
      pmap (option_map (fun p => ARing (RPop p))) (pop_of k capacity out type sq)
  | CSize k capacity => pmap (fun n => Some (ASize n)) (size_of k capacity)
  | CQueue sz Cap o => pmap (option_map AQueue) (qbody sz Cap o)
  | CLatest sz o => pmap (option_map ALatest) (lbody sz o)
  | CSync => pmap (option_map (fun _ => ASync)) claim_sync
  end.

(** *** Objects on mapped files *)

#[export] Instance ring_kind_eq_dec : EqDecision ring_kind.
Proof. solve_decision. Defined.

Inductive object := ORing (k : ring_kind) | OQueue (sizeof_T Capacity : Z) | OLatest (sizeof_T : Z).

Definition open_object (sys : Syscalls) (o : object) (path : string) : M Mapping :=
  match o with
  | ORing SPSC => spsc_open sys path
  | ORing MPSC => mpsc_open sys path
  | ORing MPMC => mpmc_open sys path
  | OQueue sz Cap => SpscQueue.open sz Cap sys path
  | OLatest _ => SharedLatest.open sys path
  end.

(** A type has bytes, and the array of slots fits the address space. *)
Definition object_ok (o : object) : Prop :=
  match o with
  | ORing _ => True
  | OQueue sz Cap => 0 < sz /\ 0 < Cap /\ Cap * sz < 2 ^ 64
  | OLatest sz => 0 < sz
  end.

(** The calls that can be made on an object whose ring has [cap] bytes: pushed
    data has as many bytes as it is said to. *)
Definition object_call (o : object) (cap : Z) (_ : nat) (c : call) : bool :=
  match o, c with
  | ORing k, CRing k' cap' (OPush data size type) =>
      bool_decide (k' = k) && (cap' =? cap) && push_args_ok data size type
  | ORing k, CRing k' cap' (OPop _ _ _) => bool_decide (k' = k) && (cap' =? cap)
  | ORing k, CSize k' cap' => bool_decide (k' = k) && (cap' =? cap)
  | ORing k, CSync => bool_decide (k = SPSC)
  | OQueue sz Cap, CQueue sz' Cap' _ => (sz' =? sz) && (Cap' =? Cap)
  | OLatest sz, CLatest sz' l =>
      (sz' =? sz) && match l with LClaim cap' _ => cap' =? cap | _ => true end
  | _, _ => false
  end.

(** What the code believes of the file without a check: a ring is not empty, a
    slot has room for a [T].  [SPSCQueue::open] does check the size. *)
Definition trusts (o : object) (cap : Z) : bool :=
  match o with
  | ORing _ => 0 <? cap
  | OQueue _ _ => true
  | OLatest sz => sz <=? cap
  end.

(** The object has room in its ring. *)
Definition object_fits (o : object) (cap : Z) : Prop :=
  match o with
  | ORing _ => 0 < cap
  | OQueue sz Cap => Cap * sz <= cap
  | OLatest sz => sz <= cap
  end.

Lemma call_bounds o n t c :
  0 <= n < 2 ^ 64 -> object_ok o -> object_fits o n -> object_call o n t c = true ->
  in_bounds n (call_body c).
Proof.
  intros Hn Ho Hf Hc.
  destruct o as [k|sz Cap|sz], c as [k' cap [data size type|out type sq]|k' cap|sz' Cap' q|sz' l|];
    try done; cbn [call_body object_call object_ok object_fits] in *; apply bounds_pmap.
  - apply andb_prop in Hc as [[_ ->%Z.eqb_eq]%andb_prop Hv]. apply push_bounds; [lia | lia | done].
  - apply andb_prop in Hc as [_ ->%Z.eqb_eq]. apply pop_bounds; lia.
  - destruct k'; unfold size_of, SpscRing.approx_size, MpscRing.approx_size, MpmcRing.approx_size;
      intros h tl; cbv beta zeta; by case_if.
  - apply andb_prop in Hc as [->%Z.eqb_eq ->%Z.eqb_eq]. apply queue_bounds; lia.
  - apply andb_prop in Hc as [->%Z.eqb_eq Hl]. apply latest_bounds; [lia|]. destruct l; try done. lia.
Qed.

(** Every configuration of an execution is free of faults. *)
Record safe_config (o : object) (n : Z) (c : config (Op := call) (R := answer)) : Prop := {
  sc_fault : c_fault c = false;
  sc_ring : Z.of_nat (length (ring (c_sh c))) = n;
  sc_thr : map_Forall (fun t e => object_call o n t e.1 = true /\ in_bounds n e.2) (c_thr c);
}.

Section Safe.
Context (o : object) (n : Z) (Hn : 0 <= n < 2 ^ 64) (Ho : object_ok o) (Hfit : object_fits o n).

Lemma safe_step a c c' :
  safe_config o n c -> cnext call_body (object_call o n) a c = Some c' -> safe_config o n c'.
Proof.
  intros [Hf Hl Ht] E. destruct c as [s thr log f]. simpl in *. subst f. destruct a as [t x|t spur|d].
  - destruct (thr !! t); [done|]. destruct (object_call o n t x) eqn:Hx; [|done]. injection E as <-.
    split; [done | done |]. apply map_Forall_insert_2; [split; [done | by eapply call_bounds] | done].
  - destruct (thr !! t) as [[x p]|] eqn:Ep; [|done]. destruct (Ht _ _ Ep) as [Hx Hp]. cbn [fst snd] in Hx, Hp.
    pose proof (bounds_step1 n spur s p Hl Hp) as Hs.
    destruct p as [[r|]| | | | | | | | | |].
    1: { injection E as <-. split; [done | done | by apply map_Forall_delete]. }
    1: { injection E as <-. split; [done | done |].
      apply map_Forall_insert_2; [split; [done | by eapply call_bounds] | done]. }
    all: destruct (step1 spur s _) as [s' p'| |]; [|done|done]; injection E as <-; destruct Hs as [Hl' Hp'];
      (split; [done | done | by apply map_Forall_insert_2]).
  - destruct (0 <=? d); [|done]. by injection E as <-.
Qed.

Lemma safe_run s acts c :
  Z.of_nat (length (ring s)) = n -> crun call_body (object_call o n) acts (init_config s) = Some c ->
  safe_config o n c.
Proof.
  intros Hs. assert (H0 : safe_config o n (init_config s)) by (split; [done | done | apply map_Forall_empty]).
  revert H0. generalize (init_config (Op := call) (R := answer) s).
  induction acts as [|a acts IH]; intros c0 H0; cbn [crun]; [by intros [= <-]|].
  destruct (cnext call_body (object_call o n) a c0) as [c1|] eqn:E; [|done].
  apply IH. by eapply safe_step.
Qed.
End Safe.

(** [SharedLatest::open] and [claim] do not compare [sizeof(T)] with the capacity of
    the file.  On a slot that was created for a smaller type every read that finds
    the counter even copies bytes from behind the slot. *)
Theorem latest_size_unchecked sz n out spurs s :
  Z.of_nat (length (ring s)) < sz -> Z.land (load FSequence s) 1 = 0 ->
  eval spurs s (try_read sz out (S n)) = Undef.
Proof.
  intros Hl He. unfold try_read. cbn [read_loop eval]. rewrite He. cbn [negb Z.eqb].
  assert (Hrd : forall m off (k : list byte -> prog (option (bool * list byte))), 0 <= off ->
    Z.of_nat (length (ring s)) < off + Z.of_nat m -> (0 < m)%nat -> eval spurs s (memcpy_from off m k) = Undef).
  { induction m as [|m IH]; intros off k Ho Hm Hp; [lia|]. cbn [memcpy_from eval]. unfold mem_read.
    destruct (_ && _) eqn:E; [|done]. bool_to_prop. apply IH; lia. }
  apply Hrd; lia.
Qed.

Lemma latest_size_unchecked_witness : eval [] ring64 (try_read 72 [] 3) = Undef.
Proof. apply (latest_size_unchecked 72 2 [] [] ring64); reflexivity. Defined.

(** A ring of no bytes: a pop that does not find head and tail equal divides by
    the capacity. *)
Lemma zero_capacity_pop k out type sq spurs s :
  load FTailPublish s <> load FHeadPublish s -> load FTailPublish s <> load FHeadReserve s ->
  eval spurs s (pop_of k 0 out type sq) = Undef.
Proof.
  intros H1 H2. assert (Hm : forall q, eval spurs s (MpmcRing.try_pop_seq 0 out type q) = Undef).
  { intros q. unfold MpmcRing.try_pop_seq, MpmcRing.try_pop_rest. cbn [eval].
    by rewrite (proj2 (Z.eqb_neq _ _)). }
  destruct k; cbn [pop_of].
  - unfold SpscRing.try_pop_internal. cbn [eval]. by rewrite (proj2 (Z.eqb_neq _ _)).
  - unfold MpscRing.try_pop_internal. cbn [eval]. by rewrite (proj2 (Z.eqb_neq _ _)).
  - destruct sq; [apply Hm|]. unfold MpmcRing.try_pop. by rewrite eval_pmap, Hm.
Qed.

(** When the file is not what the code believes, one call suffices. *)
Lemma distrust o cap :
  0 <= cap -> trusts o cap = false ->
  exists s c, Z.of_nat (length (ring s)) = cap /\ object_call o cap 0 c = true /\
    eval [] s (call_body c) = Undef.
Proof.
  intros Hc Ht. exists (mkShared (mkControl 0 0 0 1 0) (replicate (Z.to_nat cap) x00) 0).
  destruct o as [k|sz Cap|sz]; [|done|]; simpl in Ht; bool_to_prop.
  - exists (CRing k cap (OPop [] 0 None)). cbn [ring object_call call_body]. rewrite length_replicate.
    assert (cap = 0) as -> by lia. split_and!; [done | by rewrite bool_decide_true |].
    by rewrite eval_pmap, zero_capacity_pop.
  - exists (CLatest sz (LRead [] 1)). cbn [ring object_call call_body]. rewrite length_replicate.
    split_and!; [lia | by rewrite Z.eqb_refl |]. rewrite eval_pmap. cbn [lbody]. rewrite eval_pmap.
    rewrite latest_size_unchecked; [done | simpl; rewrite length_replicate; lia | done].
Qed.

(** Opening an object goes through [open_mapping]; the size of a queue is
    compared with the capacity in the file. *)
Lemma open_object_mapping sys o path w m w' :
  open_object sys o path w = (Ok m, w') ->
  (exists flags, open_mapping sys path flags w = (Ok m, w')) /\
  match o with OQueue sz Cap => capacity m = u64 (Cap * sz) | _ => True end.
Proof.
  destruct o as [[]|sz Cap|sz]; cbn [open_object]; intros E; try (by split; [eexists; exact E|]).
  unfold SpscQueue.open, mbind, M_bind in E.
  destruct (open_mapping sys path kFlagFixedSPSC w) as [[m1|e|] w1] eqn:Eo; try done.
  destruct (capacity m1 =? u64 (Cap * sz)) eqn:Ec; cbn [negb] in E.
  - injection E as <- <-. bool_to_prop. split; [by eexists | done].
  - by destruct (reset sys m1 w1) as [[]].
Qed.

(** Control block and ring, as the header places them, neither wrap around nor
    overlap. *)
Definition regions_apart (m : Mapping) : Prop :=
  let co := control m - mapping m in let ro := ring_ptr m - mapping m in
  co + sizeof_ControlBlock < 2 ^ 64 /\ ro + capacity m < 2 ^ 64 /\
  (co + sizeof_ControlBlock <= ro \/ ro + capacity m <= co).

(** C8: no call of the library accesses memory outside the ring of the object it is
    made on.  Open any file, whatever it contains, as a ring, a queue or a slot;
    suppose that the offsets in its header neither wrap around 2^64 nor overlap.
    Then control block and ring lie inside the mapping.  If moreover a ring is not
    empty, and a slot is not smaller than [T] (for a queue the code checks the
    size), then whatever the five atomics and the bytes of the ring hold, run any
    calls on any number of threads in any interleaving, with pushed data as long as
    it is said to be: no access is out of bounds, no division is by zero, and the
    ring keeps its size.  These two conditions, which the code does not check, are
    needed: without them some call on some contents has undefined behaviour. *)
Theorem calls_memory_safe sys o path w m w' :
  Posix sys -> object_ok o -> open_object sys o path w = (Ok m, w') -> regions_apart m ->
  (mapping m <= control m /\ control m + sizeof_ControlBlock <= mapping m + mapping_size m) /\
  (mapping m <= ring_ptr m /\ ring_ptr m + capacity m <= mapping m + mapping_size m) /\
  if trusts o (capacity m)
  then forall s acts c, Z.of_nat (length (ring s)) = capacity m ->
    crun call_body (object_call o (capacity m)) acts (init_config s) = Some c ->
    c_fault c = false /\ Z.of_nat (length (ring (c_sh c))) = capacity m
  else exists s c, Z.of_nat (length (ring s)) = capacity m /\
    object_call o (capacity m) 0 c = true /\ eval [] s (call_body c) = Undef.
Proof.
  intros Hos Ho Eo Hreg. destruct (open_object_mapping _ _ _ _ _ _ Eo) as [[flags E] Hsz].
  destruct (open_mapping_cases sys Hos path flags w)
    as [(i & bs & fdv & a & E' & _ & _ & _ & _ & _ & _ & _ & Hh)|(e & E' & _)]; rewrite E in E'; [|done].
  injection E' as -> _. destruct Hh as (_ & _ & _ & Hr & Hc). destruct Hreg as (Hco & Hro & _).
  cbn [capacity control mapping ring_ptr mapping_size] in *.
  assert (Hpos : forall o n, 0 <= member bs o n < 256 ^ Z.of_nat (length (take n (drop o bs))))
    by (intros; apply le_dec_range).
  assert (Hcap : 0 <= h_capacity_bytes (Header_of_bytes bs)) by apply Hpos.
  assert (0 <= h_ring_offset (Header_of_bytes bs)) by apply Hpos.
  assert (0 <= h_control_offset (Header_of_bytes bs)) by apply Hpos.
  unfold add64 in Hr, Hc. cbn [Header_of_bytes h_capacity_bytes h_ring_offset h_control_offset] in *.
  rewrite u64_small in Hr by lia. change sizeof_ControlBlock with 320 in *. rewrite u64_small in Hc by lia.
  split_and!; [lia | lia | lia | lia |]. set (cap := member bs 8 8) in *.
  destruct (trusts o cap) eqn:Ht; [|by apply distrust].
  intros s acts c Hs Hrun. assert (Hf : object_fits o cap).
  { destruct o as [k|sz Cap|sz]; simpl in *; bool_to_prop; [done | | done].
    destruct Ho as (? & ? & ?). rewrite Hsz, u64_small; nia. }
  destruct (safe_run o cap ltac:(lia) Ho Hf s acts c Hs Hrun) as [Hfl Hl _]. done.
Qed.

(** A ring of 64 bytes whose atomics and bytes are garbage: a pop, a push and a
    takeover. *)
Definition garbage : shared :=
  mkShared (mkControl 3 (2 ^ 64 - 5) 77 (2 ^ 63 + 11) 9) (replicate 64 xff) 0.

Definition garbage_acts : list act :=
  [AStart 0 (CRing SPSC 64 (OPop [] 0 None)); AStart 1 (CRing SPSC 64 (OPop [] 0 (Some 0)));
   AStart 2 (CRing SPSC 64 (OPush (Some [x61; x62]) 2 7)); AStart 3 CSync] ++
  steps 0 3 ++ steps 1 3 ++ steps 2 3 ++ steps 3 3.

Lemma calls_memory_safe_witness :
  open_object ideal_sys (ORing SPSC) "ring" (world64 kFlagSPSC) = (Ok m64', world64') /\
  let c := after call_body (object_call (ORing SPSC) 64) garbage_acts (init_config garbage) in
  length (c_log c) = 2%nat /\ c_fault c = false /\ Z.of_nat (length (ring (c_sh c))) = 64.
Proof.
  assert (E : open_object ideal_sys (ORing SPSC) "ring" (world64 kFlagSPSC) = (Ok m64', world64'))
    by (vm_compute; reflexivity).
  split; [exact E|]. intros c. split; [vm_compute; reflexivity|].
  apply (proj2 (proj2 (calls_memory_safe ideal_sys (ORing SPSC) "ring" (world64 kFlagSPSC) m64' world64'
    ideal_posix I E ltac:(split_and!; [reflexivity | reflexivity | left; vm_compute; discriminate])))
    garbage garbage_acts c eq_refl).
  apply crun_after. vm_compute. reflexivity.
Defined.
