(* ===== verification/Subscriber.v ===== *)
(** * ipc_adapter.hpp: queue subscribers

    [SpscSubscriber] and [SpscByteSubscriber] run a polling thread that drains
    a queue into a callback, between [start] and [stop].  The thread and its
    controller are a state machine here: one transition per test of [running_],
    per [try_pop] with the callback it leads to, per sleep, and per call of the
    controller; calls on the queue are not interrupted (their own
    interleavings are the subject of [SpscRing] and [SpscQueue]).  The two
    classes differ only in the queue, so the machine is written and verified
    against an interface, [Channel], which both queues implement. *)

From Stdlib Require Import ZArith Lia Strings.Byte.
From stdpp Require Import base list numbers gmap.
From S2P Require Import Prelude Memory Layout Prog Records Owner SpscRing Solo Mapping SpscQueue.

(** ** The interface of a queue *)

(** [Buf] holds the variables that [try_pop] fills, [Event] is what the
    callback receives, [Arg] what is published.  [fresh_buf] are the variables
    of the polling loop, [drain_buf] those of the final drain. *)
Class Channel (Buf Event Arg : Type) := {
  ch_push : Arg -> shared -> option (bool * shared);
  ch_pop : Buf -> shared -> option (bool * Buf * shared);
  ch_view : Buf -> Event;
  fresh_buf : Buf;
  drain_buf : Buf -> Buf;
}.

(** What a queue promises: [holds s q] says that [s] is the queue at rest with
    the messages [q]; [shows x e] that a callback with [e] has received [x]. *)
Class ChannelLaws {Buf Event Arg} (C : Channel Buf Event Arg) (Msg : Type)
    (holds : shared -> list Msg -> Prop) (msg_of : Arg -> Msg) (arg_ok : Arg -> Prop)
    (shows : Msg -> Event -> Prop) : Prop := {
  ch_push_ok : forall a s q, arg_ok a -> holds s q ->
    exists (b : bool) s', ch_push a s = Some (b, s') /\
      holds s' (q ++ if b then [msg_of a] else []);
  ch_pop_ok : forall buf s q, holds s q ->
    exists buf' s', holds s' (tail q) /\
      ch_pop buf s = Some (match q with [] => false | _ => true end, buf', s') /\
      forall x, head q = Some x -> shows x (ch_view buf');
}.

(** ** The polling thread and its controller *)

(** Where the thread is: at the test of the outer loop, at [try_pop] in the
    inner loop, asleep, at [try_pop] of the final drain, or returned. *)
Inductive pc := PLoop | PDrain (got_any : bool) | PSleep | PFinal | PExit.

#[export] Instance pc_eq_dec : EqDecision pc.
Proof. solve_decision. Defined.

Section Machine.
Context {Buf Event Arg : Type} {C : Channel Buf Event Arg}.
(** Whether the callback is set. *)
Context (on_message : bool).

Record poller := mkPoller { p_pc : pc; p_buf : Buf }.

(** [sb_thread] is [None] when [thread_] is not joinable; [sb_joining] while
    the controller is inside [stop]; [sb_calls] lists the callback invocations,
    [sb_sent] the publications that were accepted; [sb_terminated] is set by
    an assignment to a joinable [std::thread]. *)
Record sub := mkSub {
  sb_mem : shared;
  sb_running : bool;
  sb_thread : option poller;
  sb_joining : bool;
  sb_calls : list Event;
  sb_sent : list Arg;
  sb_terminated : bool;
}.

Definition construct (s : shared) : sub := mkSub s false None false [] [] false.

Definition start (st : sub) : sub :=
  if sb_running st then st else
  match sb_thread st with
  | Some _ => mkSub (sb_mem st) true (sb_thread st) (sb_joining st) (sb_calls st) (sb_sent st) true
  | None => mkSub (sb_mem st) true (Some (mkPoller PLoop fresh_buf)) (sb_joining st)
              (sb_calls st) (sb_sent st) (sb_terminated st)
  end.

(** [stop] up to the [join], which [join] completes. *)
Definition stop (st : sub) : sub :=
  if negb (sb_running st) then st else
  mkSub (sb_mem st) false (sb_thread st) true (sb_calls st) (sb_sent st) (sb_terminated st).

(** [thread_.join()] blocks until the thread has returned. *)
Definition join (st : sub) : option sub :=
  let returned := mkSub (sb_mem st) (sb_running st) None false (sb_calls st) (sb_sent st)
                    (sb_terminated st) in
  match sb_thread st with
  | None => Some returned
  | Some p => match p_pc p with PExit => Some returned | _ => None end
  end.

(** A [try_pop] followed by the callback, if it succeeds. *)
Definition pop_call (st : sub) (buf : Buf) (popped failed : pc) : option sub :=
  match ch_pop buf (sb_mem st) with
  | Some (ok, buf, s) =>
      Some (mkSub s (sb_running st) (Some (mkPoller (if ok then popped else failed) buf))
        (sb_joining st)
        (sb_calls st ++ if ok && on_message then [ch_view buf] else [])
        (sb_sent st) (sb_terminated st))
  | None => None
  end.

Definition set_pc (st : sub) (p : pc) (buf : Buf) : sub :=
  mkSub (sb_mem st) (sb_running st) (Some (mkPoller p buf)) (sb_joining st) (sb_calls st)
    (sb_sent st) (sb_terminated st).

(** One transition of [poll_loop]. *)
Definition poll_step (st : sub) : option sub :=
  match sb_thread st with
  | None => None
  | Some (mkPoller p buf) =>
      match p with
      | PLoop => Some (if sb_running st then set_pc st (PDrain false) buf
                       else set_pc st PFinal (drain_buf buf))
      | PDrain got_any => pop_call st buf (PDrain true) (if got_any then PLoop else PSleep)
      | PSleep => Some (set_pc st PLoop buf)
      | PFinal => pop_call st buf PFinal PExit
      | PExit => None
      end
  end.

(** [publish] by the peer. *)
Definition publish (a : Arg) (st : sub) : option sub :=
  match ch_push a (sb_mem st) with
  | Some (ok, s) =>
      Some (mkSub s (sb_running st) (sb_thread st) (sb_joining st) (sb_calls st)
        (sb_sent st ++ if ok then [a] else []) (sb_terminated st))
  | None => None
  end.

Inductive sact := CStart | CStop | CJoin | CPoll | CPublish (a : Arg).

(** The controller is one thread: it calls nothing while [stop] waits. *)
Definition sub_step (a : sact) (st : sub) : option sub :=
  match a with
  | CStart => if sb_joining st then None else Some (start st)
  | CStop => if sb_joining st then None else Some (stop st)
  | CJoin => if sb_joining st then join st else None
  | CPoll => poll_step st
  | CPublish a => publish a st
  end.

Fixpoint sub_run (acts : list sact) (st : sub) : option sub :=
  match acts with
  | [] => Some st
  | a :: acts => match sub_step a st with Some st' => sub_run acts st' | None => None end
  end.

Lemma sub_run_app acts1 acts2 st :
  sub_run (acts1 ++ acts2) st =
    match sub_run acts1 st with Some st' => sub_run acts2 st' | None => None end.
Proof.
  revert st. induction acts1 as [|a acts1 IH]; intros st; simpl; [done|]. by destruct (sub_step a st).
Qed.
End Machine.

Arguments sub : clear implicits.
Arguments poller : clear implicits.
Arguments sact : clear implicits.

(** ** Verification against the interface *)

Section Laws.
Context {Buf Event Arg : Type} {C : Channel Buf Event Arg} {Msg : Type}.
Context {holds : shared -> list Msg -> Prop} {msg_of : Arg -> Msg} {arg_ok : Arg -> Prop}
  {shows : Msg -> Event -> Prop} {HC : ChannelLaws C Msg holds msg_of arg_ok shows}.

Abbreviation run := (sub_run true).
Abbreviation sub := (sub Buf Event Arg).

Definition act_ok (a : sact Arg) : Prop := match a with CPublish a => arg_ok a | _ => True end.

(** [q] is what has been published and not yet delivered. *)
Definition backlog (st : sub) (q : list Msg) : Prop :=
  holds (sb_mem st) q /\
  exists delivered, msg_of <$> sb_sent st = delivered ++ q /\ Forall2 shows delivered (sb_calls st).

(** Which combinations of flag, thread and controller occur. *)
Definition lifecycle (st : sub) : Prop :=
  match sb_thread st with
  | None => sb_running st = false /\ sb_joining st = false
  | Some p =>
      if sb_running st
      then sb_joining st = false /\ match p_pc p with PFinal | PExit => False | _ => True end
      else sb_joining st = true
  end.

Record sub_ok (st : sub) : Prop := {
  so_backlog : exists q, backlog st q;
  so_life : lifecycle st;
  so_term : sb_terminated st = false;
}.

(** One [try_pop]. *)
Lemma pop_call_ok st buf popped failed q :
  backlog st q ->
  exists st' buf', pop_call true st buf popped failed = Some st' /\ backlog st' (tail q) /\
    sb_thread st' = Some (mkPoller (match q with [] => failed | _ => popped end) buf') /\
    sb_running st' = sb_running st /\ sb_joining st' = sb_joining st /\
    sb_terminated st' = sb_terminated st /\ sb_sent st' = sb_sent st /\
    sb_calls st `prefix_of` sb_calls st'.
Proof.
  intros (Hh & dl & Hs & Hd). destruct (ch_pop_ok buf _ _ Hh) as (buf' & s' & Hh' & E & Hshow).
  unfold pop_call. rewrite E. eexists _, buf'. split; [reflexivity|].
  unfold backlog. destruct q as [|x q]; simpl in *.
  - rewrite app_nil_r. split_and!; eauto.
  - split_and!; eauto using prefix_app_r. exists (dl ++ [x]).
    split; [by rewrite <- app_assoc | by apply Forall2_app; eauto].
Qed.

Lemma poll_step_ok st st' :
  sub_ok st -> poll_step true st = Some st' -> sub_ok st' /\ sb_calls st `prefix_of` sb_calls st'.
Proof.
  intros [[q Hq] Hl Ht] E. unfold poll_step, lifecycle in *.
  destruct (sb_thread st) as [[p buf]|]; [|done]. simpl in Hl.
  assert (Hpop : forall popped failed, pop_call true st buf popped failed = Some st' ->
    (sb_running st = true -> popped <> PFinal /\ popped <> PExit /\ failed <> PFinal /\ failed <> PExit) ->
    sub_ok st' /\ sb_calls st `prefix_of` sb_calls st').
  { intros popped failed E' Hpc.
    destruct (pop_call_ok st buf popped failed q Hq)
      as (st1 & buf' & E1 & Hb & Hth & Hr & Hj & Htm & _ & Hp).
    rewrite E' in E1. injection E1 as <-. split; [|done]. split; [eauto | | congruence].
    unfold lifecycle. rewrite Hth, Hr, Hj. destruct (sb_running st); [|done].
    destruct Hl as [-> _]. split; [done|]. destruct (Hpc eq_refl) as (? & ? & ? & ?).
    simpl. by destruct q, popped, failed. }
  destruct p as [|got_any| | |].
  - injection E as <-. unfold set_pc. destruct (sb_running st) eqn:Er; (split; [|done]);
      split; try (by exists q); unfold lifecycle; simpl; rewrite ?Er; intuition.
  - apply Hpop with (1 := E). intros _. by destruct got_any.
  - injection E as <-. split; [|done]. split; [by exists q | | done]. exact Hl.
  - apply Hpop with (1 := E). intros Hr. rewrite Hr in Hl. by destruct Hl.
  - done.
Qed.

Lemma sub_step_ok a st st' :
  sub_ok st -> act_ok a -> sub_step true a st = Some st' ->
  sub_ok st' /\ sb_calls st `prefix_of` sb_calls st'.
Proof.
  intros Hok Ha E. pose proof Hok as [[q Hq] Hl Ht]. unfold lifecycle in Hl.
  destruct a as [| | | |a]; simpl in E, Ha.
  - destruct (sb_joining st) eqn:Ej; [done|]. injection E as <-. unfold start.
    destruct (sb_running st) eqn:Er; [done|]. destruct (sb_thread st); [done|].
    split; [|done]. split; [by exists q | | done]. unfold lifecycle. simpl. auto.
  - destruct (sb_joining st) eqn:Ej; [done|]. injection E as <-. unfold stop.
    destruct (sb_running st) eqn:Er; [|done]. simpl. split; [|done].
    split; [by exists q | | done]. unfold lifecycle. simpl.
    by destruct (sb_thread st); [|destruct Hl].
  - destruct (sb_joining st) eqn:Ej; [|done]. unfold join in E.
    destruct (sb_thread st) as [p|]; [|by destruct Hl].
    destruct (p_pc p) eqn:Ep; try done. injection E as <-. split; [|done].
    split; [by exists q | | done]. unfold lifecycle. simpl.
    destruct (sb_running st); [by destruct Hl | done].
  - by apply poll_step_ok.
  - destruct Hq as (Hh & dl & Hs & Hd).
    destruct (ch_push_ok a _ _ Ha Hh) as (b & s' & E1 & Hh'). unfold publish in E. rewrite E1 in E.
    injection E as <-. split; [|done]. split; [|done|done]. eexists. split; [exact Hh'|].
    exists dl. simpl. rewrite fmap_app, Hs, <- app_assoc. split; [|done]. by destruct b.
Qed.

Lemma sub_run_ok acts st st' :
  sub_ok st -> Forall act_ok acts -> run acts st = Some st' ->
  sub_ok st' /\ sb_calls st `prefix_of` sb_calls st'.
Proof.
  intros Hok Ha. revert st Hok. induction Ha as [|a acts Ha _ IH]; intros st Hok; simpl.
  { by intros [= <-]. }
  destruct (sub_step true a st) as [st1|] eqn:E; [|done]. intros Hr.
  destruct (sub_step_ok a st st1 Hok Ha E) as [Hok1 Hp1].
  destruct (IH st1 Hok1 Hr) as [? ?]. split; [done | by etrans].
Qed.

Lemma construct_ok s : holds s [] -> sub_ok (construct s).
Proof. intros Hh. split; [|done|done]. exists []. split; [done|]. by exists []. Qed.

(** Either the thread has not returned, or it has delivered [n] messages. *)
Definition owes (n : nat) (st : sub) : Prop :=
  (n <= length (sb_calls st))%nat \/ exists p, sb_thread st = Some p /\ p_pc p <> PExit.

Lemma sent_grows a st st' :
  sub_step true a st = Some st' -> (length (sb_sent st) <= length (sb_sent st'))%nat.
Proof.
  intros E. destruct a; simpl in E.
  1-3: unfold start, stop, join in E; repeat case_match; simplify_eq; done.
  - unfold poll_step, pop_call, set_pc in E. repeat case_match; simplify_eq; done.
  - unfold publish in E. repeat case_match; simplify_eq; simpl; rewrite ?length_app; lia.
Qed.

(** The thread returns only when a [try_pop] finds nothing. *)
Lemma owes_poll n st st' :
  sub_ok st -> (n <= length (sb_sent st))%nat ->
  (exists p, sb_thread st = Some p /\ p_pc p <> PExit) ->
  poll_step true st = Some st' -> owes n st'.
Proof.
  intros Hok Hn (p & Hth & Hpc) E.
  destruct (poll_step_ok st st' Hok E) as [_ Hp%prefix_length]. pose proof Hok as [[q Hq] _ _].
  unfold poll_step in E. rewrite Hth in E. destruct p as [p buf].
  assert (Hpop : forall popped failed, pop_call true st buf popped failed = Some st' ->
    popped <> PExit -> (failed = PExit -> q = [] -> (n <= length (sb_calls st))%nat) -> owes n st').
  { intros popped failed E' Hpo Hfa.
    destruct (pop_call_ok st buf popped failed q Hq) as (st1 & buf' & E1 & _ & Hth' & _).
    rewrite E' in E1. injection E1 as <-. destruct q; [|right; eauto].
    destruct (decide (failed = PExit)) as [e|]; [left; specialize (Hfa e eq_refl); lia | right; eauto]. }
  destruct p as [|got_any| | |]; simpl in Hpc.
  - injection E as <-. right. by destruct (sb_running st); eexists.
  - apply Hpop with (1 := E); [done|]. by destruct got_any.
  - injection E as <-. right. by eexists.
  - apply Hpop with (1 := E); [done|]. intros _ ->. destruct Hq as (_ & dl & Hs & Hd).
    apply (f_equal length) in Hs. rewrite length_fmap, app_nil_r in Hs.
    apply Forall2_length in Hd. lia.
  - done.
Qed.

Lemma owes_step n a st st' :
  sub_ok st -> act_ok a -> (n <= length (sb_sent st))%nat -> owes n st ->
  sub_step true a st = Some st' -> owes n st'.
Proof.
  intros Hok Ha Hn Ho E. destruct (sub_step_ok a st st' Hok Ha E) as [_ Hp%prefix_length].
  destruct Ho as [Ho|(p & Hth & Hpc)]; [left; lia|].
  pose proof Hok as [_ Hl _]. unfold lifecycle in Hl. rewrite Hth in Hl.
  destruct a as [| | | |a]; simpl in E.
  - unfold start in E. destruct (sb_joining st), (sb_running st); simplify_eq; right; eauto.
  - unfold stop in E. destruct (sb_joining st), (sb_running st); simplify_eq; right; eauto.
  - unfold join in E. rewrite Hth in E. by destruct (sb_joining st), (p_pc p).
  - apply (owes_poll n st st'); eauto.
  - unfold publish in E. destruct (ch_push a (sb_mem st)) as [[b s1]|]; [|done].
    injection E as <-. right. by exists p.
Qed.

Lemma owes_run n acts st st' :
  sub_ok st -> Forall act_ok acts -> (n <= length (sb_sent st))%nat -> owes n st ->
  run acts st = Some st' -> owes n st'.
Proof.
  intros Hok Ha. revert st Hok. induction Ha as [|a acts Ha _ IH]; intros st Hok Hn Ho; simpl.
  { by intros [= <-]. }
  destruct (sub_step true a st) as [st1|] eqn:E; [|done]. intros Hr.
  pose proof (sent_grows a st st1 E). apply (IH st1); auto; [by apply (sub_step_ok a st) | lia |].
  by eapply owes_step; eauto.
Qed.

(** The thread alone returns after [n] transitions, with nothing left. *)
Definition exits (n : nat) (st : sub) : Prop :=
  exists st' buf, run (replicate n CPoll) st = Some st' /\ backlog st' [] /\
    sb_thread st' = Some (mkPoller PExit buf) /\ sb_joining st' = sb_joining st.

Lemma exits_step n st st1 :
  poll_step true st = Some st1 -> sb_joining st1 = sb_joining st -> exits n st1 -> exits (S n) st.
Proof.
  intros E Hj (st2 & buf & E2 & ? & ? & ?). exists st2, buf.
  cbn [replicate sub_run sub_step]. rewrite E. split_and!; auto. congruence.
Qed.

Lemma final_exits q st buf :
  backlog st q -> sb_thread st = Some (mkPoller PFinal buf) -> exits (S (length q)) st.
Proof.
  revert st buf. induction q as [|x q IH]; intros st buf Hq Hth;
    destruct (pop_call_ok st buf PFinal PExit _ Hq) as (st1 & buf1 & E & Hq1 & Hth1 & _ & Hj1 & _);
    (apply exits_step with st1; [unfold poll_step; by rewrite Hth | done |]).
  - by exists st1, buf1.
  - by apply (IH st1 buf1).
Qed.

Lemma loop_exits q st buf :
  backlog st q -> sb_running st = false -> sb_thread st = Some (mkPoller PLoop buf) ->
  exits (2 + length q) st.
Proof.
  intros Hq Hr Hth. apply exits_step with (set_pc st PFinal (drain_buf buf)); [| done |].
  - unfold poll_step. by rewrite Hth, Hr.
  - by eapply final_exits.
Qed.

Lemma sleep_exits q st buf :
  backlog st q -> sb_running st = false -> sb_thread st = Some (mkPoller PSleep buf) ->
  exits (3 + length q) st.
Proof.
  intros Hq Hr Hth. apply exits_step with (set_pc st PLoop buf); [| done |].
  - unfold poll_step. by rewrite Hth.
  - by eapply loop_exits.
Qed.

Lemma drain_exits q st buf got_any :
  backlog st q -> sb_running st = false -> sb_thread st = Some (mkPoller (PDrain got_any) buf) ->
  exists n, (n <= 4 + length q)%nat /\ exits n st.
Proof.
  revert st buf got_any. induction q as [|x q IH]; intros st buf got_any Hq Hr Hth;
    destruct (pop_call_ok st buf (PDrain true) (if got_any then PLoop else PSleep) _ Hq)
      as (st1 & buf1 & E1 & Hq1 & Hth1 & Hr1 & Hj1 & _); rewrite Hr in Hr1;
    (assert (E : poll_step true st = Some st1) by (unfold poll_step; by rewrite Hth)).
  - destruct got_any; [exists 3%nat | exists 4%nat]; (split; [simpl; lia|]);
      (apply exits_step with st1; [done | done |]).
    + by apply (loop_exits [] st1 buf1).
    + by apply (sleep_exits [] st1 buf1).
  - destruct (IH st1 buf1 true Hq1 Hr1 Hth1) as (n & Hn & Hx). exists (S n).
    split; [simpl; lia|]. by apply exits_step with st1.
Qed.

(** From any point of [poll_loop]. *)
Lemma poll_exits q st p :
  backlog st q -> sb_running st = false -> sb_thread st = Some p ->
  exists n, (n <= 4 + length q)%nat /\ (p_pc p <> PExit -> exits n st).
Proof.
  intros Hq Hr Hth. destruct p as [[|got_any| | |] buf].
  - exists (2 + length q)%nat. split; [lia|]. intros _. by eapply loop_exits.
  - destruct (drain_exits q st buf got_any Hq Hr Hth) as (n & ? & ?). eauto.
  - exists (3 + length q)%nat. split; [lia|]. intros _. by eapply sleep_exits.
  - exists (S (length q)). split; [lia|]. intros _. by eapply final_exits.
  - exists O. split; [lia | done].
Qed.
End Laws.

(** C28: a subscriber and its publisher, through every sequence of [start],
    [stop], publications and steps of the polling thread: the callback receives
    the published messages in order, each once; [thread_] is joinable exactly
    while the subscriber runs or [stop] waits, so neither [start] nor the
    destructor meets a joinable thread. *)
Theorem subscriber_delivers {Buf Event Arg Msg} {C : Channel Buf Event Arg} holds msg_of arg_ok shows
    {HC : ChannelLaws C Msg holds msg_of arg_ok shows} s acts st :
  holds s [] -> Forall (act_ok (arg_ok := arg_ok)) acts ->
  sub_run true acts (construct s) = Some st ->
  sb_terminated st = false /\
  (sb_thread st <> None <-> sb_running st = true \/ sb_joining st = true) /\
  exists delivered rest, msg_of <$> sb_sent st = delivered ++ rest /\
    Forall2 shows delivered (sb_calls st) /\ holds (sb_mem st) rest.
Proof.
  intros Hs Ha Hr. destruct (sub_run_ok acts _ st (construct_ok s Hs) Ha Hr) as [[[q Hq] Hl Ht] _].
  split; [done|]. split; [|destruct Hq as (? & dl & ? & ?); eauto 6].
  unfold lifecycle in Hl. destruct (sb_thread st), (sb_running st), (sb_joining st); simpl in Hl;
    split; intros; destruct_and?; destruct_or?; try done; auto.
Qed.

(** C29: [stop] loses nothing: when it has returned, everything that had been
    published while the subscriber was still running has been delivered. *)
Theorem stop_delivers_all {Buf Event Arg Msg} {C : Channel Buf Event Arg} holds msg_of arg_ok shows
    {HC : ChannelLaws C Msg holds msg_of arg_ok shows} s acts1 st1 acts2 st2 :
  holds s [] -> Forall (act_ok (arg_ok := arg_ok)) (acts1 ++ acts2) ->
  sub_run true acts1 (construct s) = Some st1 -> sb_running st1 = true ->
  sub_run true acts2 st1 = Some st2 -> sb_thread st2 = None ->
  exists delivered rest, msg_of <$> sb_sent st2 = delivered ++ rest /\
    Forall2 shows delivered (sb_calls st2) /\ (length (sb_sent st1) <= length delivered)%nat.
Proof.
  intros Hs [Ha1 Ha2]%Forall_app Hr1 Hrun Hr2 Hth.
  destruct (sub_run_ok acts1 _ st1 (construct_ok s Hs) Ha1 Hr1) as [Hok1 _].
  destruct (sub_run_ok acts2 _ st2 Hok1 Ha2 Hr2) as [[[q (_ & dl & Hsent & Hd)] _ _] _].
  exists dl, q. split_and!; auto. rewrite (Forall2_length _ _ _ Hd).
  destruct (owes_run (length (sb_sent st1)) acts2 st1 st2 Hok1 Ha2) as [|(p & Hp & _)]; auto; [|congruence].
  right. pose proof (so_life _ Hok1) as Hl. unfold lifecycle in Hl. rewrite Hrun in Hl.
  destruct (sb_thread st1) as [p|]; [|by destruct Hl]. exists p. split; [done|].
  intros E. rewrite E in Hl. by destruct Hl.
Qed.

(** C30: [stop] returns: once nothing more is published, the polling thread
    delivers the backlog of [q] messages and returns within [4 + length q]
    transitions, and [join] succeeds. *)
Theorem stop_returns {Buf Event Arg Msg} {C : Channel Buf Event Arg} holds msg_of arg_ok shows
    {HC : ChannelLaws C Msg holds msg_of arg_ok shows} s acts st :
  holds s [] -> Forall (act_ok (arg_ok := arg_ok)) acts ->
  sub_run true acts (construct s) = Some st -> sb_joining st = true ->
  exists n st' q, holds (sb_mem st) q /\ (n <= 4 + length q)%nat /\
    sub_run true (replicate n CPoll ++ [CJoin]) st = Some st' /\
    sb_thread st' = None /\ sb_running st' = false.
Proof.
  intros Hs Ha Hr Hj. destruct (sub_run_ok acts _ st (construct_ok s Hs) Ha Hr) as [Hok _].
  pose proof Hok as [[q Hq] Hl _]. unfold lifecycle in Hl.
  destruct (sb_thread st) as [p|] eqn:Hth; [|by destruct Hl; congruence].
  destruct (sb_running st) eqn:Er; [by destruct Hl; congruence|].
  destruct (decide (p_pc p = PExit)) as [Ep|Ep].
  { exists O. eexists _, q. split_and!; [apply Hq | lia | | | ].
    - simpl. rewrite Hj. unfold join. rewrite Hth, Ep. reflexivity.
    - done.
    - exact Er. }
  destruct (poll_exits q st p Hq Er Hth) as (n & Hn & Hx).
  destruct (Hx Ep) as (st1 & buf & E1 & Hq1 & Hth1 & Hj1).
  destruct (sub_run_ok (replicate n CPoll) st st1 Hok) as [[_ Hl1 _] _]; [by apply Forall_replicate | done |].
  unfold lifecycle in Hl1. rewrite Hth1, Hj1, Hj in Hl1.
  exists n. eexists _, q. split_and!; [apply Hq | done | | | ].
  - rewrite sub_run_app, E1. simpl. rewrite Hj1, Hj. unfold join. rewrite Hth1. simpl. reflexivity.
  - done.
  - simpl. destruct (sb_running st1); [by destruct Hl1 | done].
Qed.

(** ** [SpscPublisher] and [SpscSubscriber] *)

(** The result of a call that runs alone. *)
Definition call {A B} (n : nat) (p : prog (option A)) (f : A -> B) (s : shared) : option (B * shared) :=
  match run n [] p s with
  | Some (Done a s' _) => Some (f a, s')
  | _ => None
  end.

Lemma call_run {A B} n p (f : A -> B) s a s' sp :
  run n [] p s = Some (Done a s' sp) -> call n p f s = Some (f a, s').
Proof. intros E. unfold call. by rewrite E. Qed.

Lemma call_eval {A B} p (f : A -> B) s a s' sp :
  eval [] s p = Done (Some a) s' sp -> call 1 p f s = Some (f a, s').
Proof. intros E. eapply call_run. cbn [run]. by rewrite E. Qed.

Definition queue_channel (sizeof_T Capacity : Z) : Channel (list byte) (list byte) (list byte) := {|
  ch_push value := call 1 (SpscQueue.try_push sizeof_T Capacity value) id;
  ch_pop value := call 1 (SpscQueue.try_pop sizeof_T Capacity value) id;
  ch_view value := value;
  fresh_buf := replicate (Z.to_nat sizeof_T) x00;
  drain_buf _ := replicate (Z.to_nat sizeof_T) x00;
|}.

Definition queue_holds (sz k : Z) (s : shared) (q : list (list byte)) : Prop :=
  exists h pub, qInv sz k (s, mkQ h pub) /\ drop h pub = q.

Lemma queue_channel_laws sz k :
  0 < sz -> 0 <= k -> 2 ^ k * sz < 2 ^ 62 ->
  ChannelLaws (queue_channel sz (2 ^ k)) (list byte) (queue_holds sz k) id
    (fun v => Z.of_nat (length v) = sz) (fun v e => e = v).
Proof.
  intros Hsz Hk Hm. split.
  - intros v s q Hv (h & pub & HI & <-).
    destruct (qpush_eval sz k Hsz Hk Hm v s h pub [] Hv HI) as (s' & E & HI').
    eexists _, s'. split; [exact (call_eval _ id _ _ _ _ E)|].
    eexists h, _. split; [exact HI'|]. destruct (qi_pos _ _ _ HI) as [Hp _]. simpl in Hp.
    destruct (_ <? _); [by rewrite drop_app_le | by rewrite app_nil_r].
  - intros out s q (h & pub & HI & <-).
    destruct (qpop_eval sz k Hsz Hk Hm out s h pub [] HI) as (s' & E & HI').
    pose proof (call_eval _ id _ _ _ _ E) as Ec. unfold id in Ec.
    destruct (pub !! h) as [v|] eqn:Ev.
    + rewrite (drop_S _ _ _ Ev). exists v, s'. split_and!; [| exact Ec | by intros x [= <-]].
      by exists (S h), pub.
    + rewrite drop_ge by (by apply lookup_ge_None). exists out, s'. split_and!; [| exact Ec | done].
      exists h, pub. split; [done|]. apply drop_ge. by apply lookup_ge_None.
Qed.

Lemma queue_holds_fresh sz k s :
  0 <= k -> 0 < sz -> qfresh sz k s -> queue_holds sz k s [].
Proof. intros Hk Hs Hf. exists O, []. split; [by apply qfresh_Inv | done]. Qed.

(** ** [SpscBytePublisher] and [SpscByteSubscriber] *)

(** [SpscBytePublisher::publish] of a buffer and of a span. *)
Definition byte_publish_raw (capacity : Z) (data : option (list byte)) (size type : Z) : prog (option bool) :=
  SpscRing.try_push capacity data size type.
Definition byte_publish (capacity : Z) (data : list byte) (type : Z) : prog (option bool) :=
  SpscRing.try_push_span capacity data type.

(** The buffer and the type persist across messages and into the final
    drain. *)
Definition ring_channel (capacity : Z)
  : Channel (list byte * Z) (list byte * Z) (list byte * Z) := {|
  ch_push '(data, type) := call 2 (byte_publish capacity data type) id;
  ch_pop '(buf, type) :=
    call 2 (SpscRing.try_pop capacity buf type) (fun p => (p_ok p, (p_out p, p_type p)));
  ch_view '(buf, type) := (buf, type);
  fresh_buf := ([], 0);
  drain_buf b := b;
|}.

(** The callback gets the payload, possibly followed by bytes of earlier and
    longer messages. *)
Definition ring_shows (x : Z * list byte) (e : list byte * Z) : Prop :=
  e.2 = x.1 /\ exists stale, e.1 = x.2 ++ stale.

Definition ring_holds (cap : Z) (s : shared) (q : list (Z * list byte)) : Prop :=
  exists H T n ms, quiet cap s H T n ms /\ msg_key <$> ms = q.

Lemma ring_channel_laws cap :
  cap_ok cap -> (cap | 2 ^ 64) ->
  ChannelLaws (ring_channel cap) (Z * list byte) (ring_holds cap) (fun a => (a.2, a.1))
    (fun a => Z.of_nat (length a.1) < 2 ^ 32 /\ 0 <= a.2 < 2 ^ 16) ring_shows.
Proof.
  intros Hcap Hdiv. pose proof (ring_queue cap Hcap SPSC) as Hrq. split.
  - intros [d ty] s q [Hl Hty] (H & T & n & ms & Hq & <-). simpl in Hl, Hty.
    destruct (rq_push cap (RingQueue := Hrq) (Some d) (Z.of_nat (length d)) ty [] s H T n ms)
      as (s' & sp & T' & E & _ & Hq'); [| done | done | by right |].
    { unfold push_args_ok. repeat (apply andb_true_intro; split); lia. }
    eexists _, s'. split.
    { simpl. unfold byte_publish, SpscRing.try_push_span, u32. rewrite Z.mod_small by lia.
      exact (call_run 2 _ id _ _ _ _ E). }
    eexists H, T', _, _. split; [exact Hq'|]. rewrite fmap_app. f_equal.
    destruct (fits _ _ _ _); [|done]. simpl. unfold sent, push_payload, msg_key. simpl.
    by rewrite Nat2Z.id, take_ge by lia.
  - intros [buf ty] s q (H & T & n & ms & Hq & <-).
    destruct (rq_pop cap (RingQueue := Hrq) buf ty None [] s H T n ms Hq) as (s' & sp & H' & E & Hq');
      [by right|].
    pose proof (call_run 2 _ (fun p => (p_ok p, (p_out p, p_type p))) _ _ _ _ E) as Ec.
    destruct ms as [|x ms]; eexists _, s'; (split; [eexists _, _, _, _; split; [exact Hq' | done] |]);
      (split; [exact Ec|]); [done|].
    intros y [= <-]. split; [done|]. simpl. rewrite fill_out_eq. eauto.
Qed.

(** ** Concrete runs *)

Lemma queue2_laws : ChannelLaws (queue_channel 2 (2 ^ 2)) (list byte) (queue_holds 2 2) id
  (fun v => Z.of_nat (length v) = 2) (fun v e => e = v).
Proof. apply queue_channel_laws; lia. Qed.

Lemma queue2_empty : queue_holds 2 2 queue_mem [].
Proof. by apply queue_holds_fresh. Qed.

(** Two messages are published before the subscriber sees the first; [stop]
    comes while it drains. *)
Definition sub_acts : list (sact (list byte)) :=
  [CStart; CPublish [x01; x02]; CPoll; CPoll; CPublish [x03; x04]].
Definition stop_acts : list (sact (list byte)) :=
  [CStop; CPoll; CPoll; CPublish [x05; x06]; CPoll; CPoll; CPoll].

Lemma subscriber_delivers_witness :
  exists st, sub_run (C := queue_channel 2 (2 ^ 2)) true (sub_acts ++ stop_acts) (construct queue_mem) = Some st /\
    sb_calls st = [[x01; x02]; [x03; x04]; [x05; x06]] /\
    sb_terminated st = false /\
    (sb_thread st <> None <-> sb_running st = true \/ sb_joining st = true) /\
    exists delivered rest, id <$> sb_sent st = delivered ++ rest /\
      Forall2 (fun v e => e = v) delivered (sb_calls st) /\ queue_holds 2 2 (sb_mem st) rest.
Proof.
  eexists. split; [vm_compute; reflexivity|]. split; [reflexivity|].
  apply (subscriber_delivers (queue_holds 2 2) id (fun v => Z.of_nat (length v) = 2) (fun v e => e = v)
    (HC := queue2_laws) queue_mem (sub_acts ++ stop_acts)).
  - apply queue2_empty.
  - repeat constructor.
  - vm_compute. reflexivity.
Defined.

Lemma stop_delivers_all_witness :
  exists st1 st2, sub_run (C := queue_channel 2 (2 ^ 2)) true sub_acts (construct queue_mem) = Some st1 /\
    sub_run (C := queue_channel 2 (2 ^ 2)) true (stop_acts ++ [CJoin]) st1 = Some st2 /\
    exists delivered rest, id <$> sb_sent st2 = delivered ++ rest /\
      Forall2 (fun v e => e = v) delivered (sb_calls st2) /\ (length (sb_sent st1) <= length delivered)%nat.
Proof.
  eexists _, _. split; [vm_compute; reflexivity|]. split; [vm_compute; reflexivity|].
  eapply (stop_delivers_all (queue_holds 2 2) id (fun v => Z.of_nat (length v) = 2) (fun v e => e = v)
    (HC := queue2_laws) queue_mem sub_acts _ (stop_acts ++ [CJoin])).
  - apply queue2_empty.
  - repeat constructor.
  - vm_compute. reflexivity.
  - reflexivity.
  - vm_compute. reflexivity.
  - reflexivity.
Defined.

Lemma stop_returns_witness :
  exists st, sub_run (C := queue_channel 2 (2 ^ 2)) true (sub_acts ++ [CStop]) (construct queue_mem) = Some st /\
    exists n st' q, queue_holds 2 2 (sb_mem st) q /\ (n <= 4 + length q)%nat /\
      sub_run (C := queue_channel 2 (2 ^ 2)) true (replicate n CPoll ++ [CJoin]) st = Some st' /\
      sb_thread st' = None /\ sb_running st' = false.
Proof.
  eexists. split; [vm_compute; reflexivity|].
  apply (stop_returns (queue_holds 2 2) id (fun v => Z.of_nat (length v) = 2) (fun v e => e = v)
    (HC := queue2_laws) queue_mem (sub_acts ++ [CStop])).
  - apply queue2_empty.
  - repeat constructor.
  - vm_compute. reflexivity.
  - reflexivity.
Defined.

(** The byte subscriber hands its whole buffer to the callback: after a
    message of eight bytes, one of four bytes arrives with four bytes of the
    first behind it. *)
Theorem byte_subscriber_stale :
  exists st, sub_run (C := ring_channel 64) true
      [CStart; CPublish (replicate 8 x61, 1); CPoll; CPoll; CPublish (replicate 4 x62, 2); CPoll]
      (construct ring64) = Some st /\
    sb_sent st = [(replicate 8 x61, 1); (replicate 4 x62, 2)] /\
    sb_calls st = [(replicate 8 x61, 1); (replicate 4 x62 ++ replicate 4 x61, 2)].
Proof. eexists. split; [vm_compute; reflexivity|]. by split. Qed.
