(* ===== verification/IpcAdapter.v ===== *)
(** * ipc_adapter.hpp: topics and publishers

    Topic names become file names; a publisher claims the file of its topic
    and a subscriber opens it. *)

From Stdlib Require Import ZArith Lia Strings.Byte Strings.Ascii.
From stdpp Require Import base list numbers gmap strings sorting.
From S2P Require Import Prelude Memory Layout Prog Records Mapping SpscQueue SharedLatest.
From S2P Require Import Attach Subscriber.

(** ** Topic paths *)

Fixpoint sanitize (topic : string) : string :=
  match topic with
  | EmptyString => EmptyString
  | String c s => String (if Ascii.eqb c "/" then "_"%char else c) (sanitize s)
  end.

Fixpoint last_char (s : string) : option ascii :=
  match s with
  | EmptyString => None
  | String c EmptyString => Some c
  | String _ s => last_char s
  end.

(** [operator/] of [std::filesystem::path] on POSIX: an absolute right-hand
    side replaces the path; otherwise a separator is added if the path ends in
    a file name. *)
Definition is_absolute (p : string) : bool :=
  match p with String c _ => Ascii.eqb c "/" | EmptyString => false end.
Definition has_filename (p : string) : bool :=
  match last_char p with Some c => negb (Ascii.eqb c "/") | None => false end.
Definition path_div (p q : string) : string :=
  if is_absolute q then q else
  if has_filename p then (p ++ "/" ++ q)%string else (p ++ q)%string.

Definition topic_path (base_dir prefix topic : string) : string :=
  path_div base_dir (prefix ++ "___" ++ sanitize topic)%string.

(** [exists] and [temp_directory_path] of [std::filesystem]. *)
Definition default_shm_dir (exists_ : string -> bool) (temp_directory_path : string) : string :=
  if exists_ "/dev/shm"%string then "/dev/shm"%string else temp_directory_path.

(** ** Publishers and subscribers of a topic *)

Section Topics.
Context (sys : Syscalls) (base_dir prefix topic : string).
Abbreviation path := (topic_path base_dir prefix topic).

(** The default threshold of 500 ms. *)
Definition latest_publisher (sizeof_T now : Z) : M (Mapping * ClaimResult) :=
  latest_claim sys sizeof_T path 500000000 now.
Definition latest_subscriber : M Mapping := SharedLatest.open sys path.

Definition spsc_publisher (sizeof_T Capacity : Z) : M (Mapping * ClaimResult) :=
  SpscQueue.claim sizeof_T Capacity sys path.
Definition spsc_subscriber (sizeof_T Capacity : Z) : M Mapping :=
  SpscQueue.open sizeof_T Capacity sys path.

Definition byte_publisher (capacity_bytes : Z) : M (Mapping * ClaimResult) :=
  spsc_claim sys path capacity_bytes.
Definition byte_subscriber : M Mapping := spsc_open sys path.
End Topics.

(** *** Facts about paths *)

Fixpoint has_slash (s : string) : bool :=
  match s with
  | EmptyString => false
  | String c s => Ascii.eqb c "/" || has_slash s
  end.

Lemma sanitize_spec s : has_slash (sanitize s) = false /\ String.length (sanitize s) = String.length s.
Proof.
  induction s as [|c s [IH1 IH2]]; [done|]. simpl. rewrite IH1, IH2. split; [|done].
  destruct (Ascii.eqb c "/") eqn:E; [done|]. by rewrite E.
Qed.

Lemma sanitize_id s : has_slash s = false -> sanitize s = s.
Proof.
  induction s as [|c s IH]; [done|]. simpl. intros [Hc Hs]%orb_false_iff. by rewrite Hc, IH.
Qed.

Lemma has_slash_app s t : has_slash (s ++ t) = has_slash s || has_slash t.
Proof. induction s as [|c s IH]; [done|]. simpl. by rewrite IH, orb_assoc. Qed.

Lemma append_inj_l s t1 t2 : (s ++ t1)%string = (s ++ t2)%string -> t1 = t2.
Proof. induction s as [|c s IH]; [done|]. simpl. intros [= E]. auto. Qed.

Definition separator (p : string) : string := if has_filename p then "/" else "".

Lemma path_div_relative p q :
  has_slash q = false -> path_div p q = (p ++ separator p ++ q)%string.
Proof.
  intros Hq. unfold path_div, separator. replace (is_absolute q) with false; [by case_if|].
  destruct q; [done|]. simpl in *. by apply orb_false_iff in Hq as [-> _].
Qed.

Lemma topic_path_eq base_dir prefix topic :
  has_slash prefix = false ->
  topic_path base_dir prefix topic =
    (base_dir ++ separator base_dir ++ prefix ++ "___" ++ sanitize topic)%string.
Proof.
  intros Hp. unfold topic_path. apply path_div_relative.
  rewrite !has_slash_app, Hp. simpl. apply sanitize_spec.
Qed.

(** Whatever the topic name contains, its file lies directly in the base
    directory, as long as the prefix contains no slash; two topics share a file
    exactly when they differ only in slashes against underscores. *)
Theorem topic_files base_dir prefix t1 t2 :
  has_slash prefix = false ->
  (exists name, topic_path base_dir prefix t1 = (base_dir ++ separator base_dir ++ name)%string /\
     has_slash name = false) /\
  (topic_path base_dir prefix t1 = topic_path base_dir prefix t2 <-> sanitize t1 = sanitize t2) /\
  (has_slash t1 = false -> has_slash t2 = false ->
     topic_path base_dir prefix t1 = topic_path base_dir prefix t2 -> t1 = t2).
Proof.
  intros Hp. rewrite !topic_path_eq by done.
  assert (Hi : (base_dir ++ separator base_dir ++ prefix ++ "___" ++ sanitize t1)%string =
    (base_dir ++ separator base_dir ++ prefix ++ "___" ++ sanitize t2)%string -> sanitize t1 = sanitize t2).
  { intros E. by do 4 apply append_inj_l in E. }
  split_and!.
  - eexists. split; [reflexivity|]. rewrite !has_slash_app, Hp. simpl. apply sanitize_spec.
  - split; [done | by intros ->].
  - intros H1 H2 E. by rewrite <- (sanitize_id t1), <- (sanitize_id t2), (Hi E).
Qed.

Lemma topic_files_witness :
  (exists name, topic_path "/dev/shm" "lf" "../../etc/x" = ("/dev/shm" ++ separator "/dev/shm" ++ name)%string /\
     has_slash name = false) /\
  (topic_path "/dev/shm" "lf" "../../etc/x" = topic_path "/dev/shm" "lf" ".._.._etc_x" <->
     sanitize "../../etc/x" = sanitize ".._.._etc_x") /\
  (has_slash "../../etc/x" = false -> has_slash ".._.._etc_x" = false ->
     topic_path "/dev/shm" "lf" "../../etc/x" = topic_path "/dev/shm" "lf" ".._.._etc_x" ->
     "../../etc/x"%string = ".._.._etc_x"%string).
Proof. apply (topic_files "/dev/shm" "lf" "../../etc/x" ".._.._etc_x"). reflexivity. Defined.

(** Two different topics can collide: the publisher of ["a_b"] finds the
    file of ["a/b"] and resumes that topic's ring. *)
Theorem topics_collide :
  topic_path "/dev/shm" "lf" "a/b" = "/dev/shm/lf___a_b"%string /\
  exists m1 w1 m2 w2,
    byte_publisher ideal_sys "/dev/shm" "lf" "a/b" 64 empty_world = (Ok (m1, kCreated), w1) /\
    byte_publisher ideal_sys "/dev/shm" "lf" "a_b" 64 w1 = (Ok (m2, kResumed), w2) /\
    maps w2 !! mapping m1 = maps w2 !! mapping m2.
Proof.
  split; [reflexivity|]. eexists _, _, _, _.
  split; [vm_compute; reflexivity|]. split; [vm_compute; reflexivity|]. vm_compute. reflexivity.
Qed.
