(* ===== verification/LatestSubscriber.v ===== *)
(** * ipc_adapter.hpp: the latest-value subscriber

    [SharedLatestSubscriber] polls a latest-value slot and reports new values,
    and the death of the writer, to callbacks.  Its thread and its controller are
    a state machine like those of [Subscriber]: one transition per test of
    [running_], per [try_read] or [raw_sequence], per sleep and per call of the
    controller. *)

From Stdlib Require Import ZArith Lia Strings.Byte.
From stdpp Require Import base list numbers gmap sorting.
From S2P Require Import Prelude Memory Layout Prog Records Mapping SharedLatest Subscriber.

(** At the test of the loop, at [try_read], at [raw_sequence] after a
    successful read, asleep, or returned. *)
Inductive lpc := LLoop | LTryRead | LRawSequence | LSleep | LExit.

#[export] Instance lpc_eq_dec : EqDecision lpc.
Proof. solve_decision. Defined.

(** The variables of [poll_loop]. *)
Record lpoller := mkLpoller { lp_pc : lpc; lp_value : list byte; lp_last_seq : Z }.

(** The slot, the members of the subscriber and the callback invocations.
    [ls_joining] is set while the controller is inside [stop], [ls_terminated]
    by an assignment to a joinable [std::thread]. *)
Record lsub := mkLsub {
  ls_mem : shared;
  ls_running : bool;
  ls_thread : option lpoller;
  ls_joining : bool;
  ls_calls : list (list byte);
  ls_deaths : nat;
  ls_terminated : bool;
}.

Section LatestSubscriber.
(** [sizeof(T)], [dead_threshold], and which of the callbacks are set. *)
Context (sizeof_T dead_threshold : Z) (on_message on_death : bool).

Definition lconstruct (s : shared) : lsub := mkLsub s false None false [] 0 false.

Definition lstart (st : lsub) : lsub :=
  if ls_running st then st else
  match ls_thread st with
  | Some _ => mkLsub (ls_mem st) true (ls_thread st) (ls_joining st) (ls_calls st) (ls_deaths st) true
  | None => mkLsub (ls_mem st) true
              (Some (mkLpoller LLoop (replicate (Z.to_nat sizeof_T) x00) 0))
              (ls_joining st) (ls_calls st) (ls_deaths st) (ls_terminated st)
  end.

(** [stop] up to the [join], which [ljoin] completes. *)
Definition lstop (st : lsub) : lsub :=
  if negb (ls_running st) then st else
  mkLsub (ls_mem st) false (ls_thread st) true (ls_calls st) (ls_deaths st) (ls_terminated st).

Definition ljoin (st : lsub) : option lsub :=
  let returned := mkLsub (ls_mem st) (ls_running st) None false (ls_calls st) (ls_deaths st)
                    (ls_terminated st) in
  match ls_thread st with
  | None => Some returned
  | Some p => match lp_pc p with LExit => Some returned | _ => None end
  end.

(** A single synchronous read, and the liveness test. *)
Definition try_read_once (out : list byte) (st : lsub) : option ((ReadResult * list byte) * shared) :=
  call 1 (try_read_rich sizeof_T out dead_threshold 1024) id (ls_mem st).
Definition sub_writer_alive (threshold : Z) (st : lsub) : option (bool * shared) :=
  call 1 (is_writer_alive threshold) id (ls_mem st).

(** The thread goes on at [p]; the rest is as given. *)
Definition lgoto (p : lpoller) (s : shared) (calls : list (list byte)) (deaths : nat) (st : lsub) : lsub :=
  mkLsub s (ls_running st) (Some p) (ls_joining st) calls deaths (ls_terminated st).

(** One transition of [poll_loop]. *)
Definition lpoll (st : lsub) : option lsub :=
  match ls_thread st with
  | None => None
  | Some (mkLpoller p value last_seq) =>
      match p with
      | LLoop =>
          Some (lgoto (mkLpoller (if ls_running st then LTryRead else LExit) value last_seq)
                  (ls_mem st) (ls_calls st) (ls_deaths st) st)
      | LTryRead =>
          match call 1 (try_read_rich sizeof_T value dead_threshold 1024) id (ls_mem st) with
          | Some ((result, value), s) =>
              match result with
              | kSuccess => Some (lgoto (mkLpoller LRawSequence value last_seq) s (ls_calls st) (ls_deaths st) st)
              | kWriterDead =>
                  Some (lgoto (mkLpoller LSleep value last_seq) s (ls_calls st)
                          (ls_deaths st + if on_death then 1 else 0) st)
              | kEmpty | kContended =>
                  Some (lgoto (mkLpoller LSleep value last_seq) s (ls_calls st) (ls_deaths st) st)
              end
          | None => None
          end
      | LRawSequence =>
          match call 1 raw_sequence id (ls_mem st) with
          | Some (seq, s) =>
              if negb (seq =? last_seq)
              then Some (lgoto (mkLpoller LSleep value seq) s
                     (ls_calls st ++ if on_message then [value] else []) (ls_deaths st) st)
              else Some (lgoto (mkLpoller LSleep value last_seq) s (ls_calls st) (ls_deaths st) st)
          | None => None
          end
      | LSleep => Some (lgoto (mkLpoller LLoop value last_seq) (ls_mem st) (ls_calls st) (ls_deaths st) st)
      | LExit => None
      end
  end.

(** The peer's [SharedLatestPublisher::publish]. *)
Definition lpublish (value : list byte) (st : lsub) : option lsub :=
  match call 1 (write sizeof_T value) id (ls_mem st) with
  | Some (_, s) => Some (mkLsub s (ls_running st) (ls_thread st) (ls_joining st)
                     (ls_calls st) (ls_deaths st) (ls_terminated st))
  | None => None
  end.

Inductive lact := LStart | LStop | LJoin | LPoll | LPublish (value : list byte).

(** The controller is one thread: it calls nothing while [stop] waits. *)
Definition lstep (a : lact) (st : lsub) : option lsub :=
  match a with
  | LStart => if ls_joining st then None else Some (lstart st)
  | LStop => if ls_joining st then None else Some (lstop st)
  | LJoin => if ls_joining st then ljoin st else None
  | LPoll => lpoll st
  | LPublish v => lpublish v st
  end.

Fixpoint lrun (acts : list lact) (st : lsub) : option lsub :=
  match acts with
  | [] => Some st
  | a :: acts => match lstep a st with Some st' => lrun acts st' | None => None end
  end.

Lemma lrun_app acts1 acts2 st :
  lrun (acts1 ++ acts2) st =
    match lrun acts1 st with Some st' => lrun acts2 st' | None => None end.
Proof. revert st. induction acts1 as [|a acts1 IH]; intros st; simpl; [done|]. by destruct (lstep a st). Qed.
End LatestSubscriber.

Definition published (acts : list lact) : list (list byte) :=
  omap (fun a => match a with LPublish v => Some v | _ => None end) acts.

Lemma published_cons a acts : published (a :: acts) = published [a] ++ published acts.
Proof. by destruct a. Qed.

Lemma published_one a : (length (published [a]) <= 1)%nat.
Proof. destruct a; simpl; lia. Qed.

(** ** The slot *)

Section LatestProofs.
Context (sz d : Z) (Hsz : 0 < sz).

(** The slot at rest after the writes [vs]. *)
Record lslot (s : shared) (vs : list (list byte)) : Prop := {
  sl_len : sz <= Z.of_nat (length (ring s));
  sl_seq : load FSequence s = 2 * Z.of_nat (length vs);
  sl_val : forall v, last vs = Some v -> Z.of_nat (length v) = sz /\ take (Z.to_nat sz) (ring s) = v;
}.

Lemma lslot_even s vs : lslot s vs -> Z.land (load FSequence s) 1 = 0.
Proof.
  intros []. rewrite sl_seq0. change 1 with (Z.ones 1). rewrite Z.land_ones by lia.
  change (2 ^ 1) with 2. rewrite Z.mul_comm. apply Z.mod_mul. lia.
Qed.

Lemma lslot_write s vs v :
  lslot s vs -> Z.of_nat (length v) = sz -> 2 * Z.of_nat (length vs) + 2 < 2 ^ 64 ->
  exists s', call 1 (write sz v) id s = Some (tt, s') /\ lslot s' (vs ++ [v]).
Proof.
  intros [Hl Hq _] Hv Hn. exists (after_write v s). split.
  { apply (call_eval _ id _ tt _ []). unfold write. by rewrite write_eval. }
  unfold after_write. split; autorewrite with lfring.
  - rewrite length_splice; lia.
  - rewrite length_app. simpl. unfold add64. rewrite Hq, u64_small; lia.
  - intros v' Hv'. rewrite last_snoc in Hv'. injection Hv' as <-. split; [done|].
    unfold splice. simpl. by rewrite take_app_le, take_ge by lia.
Qed.

Lemma lslot_read s vs v out :
  lslot s vs -> last vs = Some v ->
  call 1 (try_read_rich sz out d 1024) id s = Some ((kSuccess, v), s).
Proof.
  intros Hs Hv. destruct (sl_val _ _ Hs v Hv) as [Hlv Hm]. pose proof (lslot_even _ _ Hs).
  apply (call_eval _ id _ _ _ []). unfold try_read_rich. cbn [eval].
  rewrite (sl_seq _ _ Hs). rewrite (proj2 (Z.eqb_neq _ _)).
  - by apply (read_eval sz Hsz v s [] out 1023).
  - destruct vs; [done|]. simpl. lia.
Qed.

Lemma lslot_empty s out : lslot s [] -> call 1 (try_read_rich sz out d 1024) id s = Some ((kEmpty, out), s).
Proof.
  intros Hs. apply (call_eval _ id _ _ _ []). unfold try_read_rich. cbn [eval].
  by rewrite (sl_seq _ _ Hs).
Qed.

Lemma raw_sequence_call s : call 1 raw_sequence id s = Some (load FSequence s, s).
Proof. done. Qed.
End LatestProofs.

(** ** The invariant *)

Section LatestInvariant.
Context (sz d : Z) (od : bool) (Hsz : 0 < sz).
Abbreviation lrun := (lrun sz d true od).

(** The callbacks so far, as positions in the list of published values; a
    value that has been read and not yet reported is not older. *)
Definition reported (vs : list (list byte)) (st : lsub) : Prop :=
  exists idx, StronglySorted le idx /\ Forall2 (fun i v => vs !! i = Some v) idx (ls_calls st) /\
    forall value seq, ls_thread st = Some (mkLpoller LRawSequence value seq) ->
      exists i, vs !! i = Some value /\ Forall (fun j => (j <= i)%nat) idx.

(** Which combinations of flag, thread and controller occur. *)
Definition llife (st : lsub) : Prop :=
  match ls_thread st with
  | None => ls_running st = false /\ ls_joining st = false
  | Some p => if ls_running st then ls_joining st = false /\ lp_pc p <> LExit
              else ls_joining st = true
  end.

Record lsub_ok (vs : list (list byte)) (st : lsub) : Prop := {
  lo_slot : lslot sz (ls_mem st) vs;
  lo_reported : reported vs st;
  lo_life : llife st;
  lo_term : ls_terminated st = false;
}.

Lemma reported_more vs v st : reported vs st -> reported (vs ++ [v]) st.
Proof.
  intros (idx & Hs & Hf & Hp). exists idx. split_and!; [done | |].
  - eapply Forall2_impl; [exact Hf|]. intros. by apply lookup_app_l_Some.
  - intros value seq E. destruct (Hp _ _ E) as (i & Hi & Ha). exists i.
    split; [by apply lookup_app_l_Some | done].
Qed.

(** A transition that invokes no callback. *)
Lemma reported_same vs st st' :
  reported vs st -> ls_calls st' = ls_calls st ->
  (forall value seq, ls_thread st' = Some (mkLpoller LRawSequence value seq) ->
     ls_thread st = ls_thread st' \/ last vs = Some value) ->
  reported vs st'.
Proof.
  intros (idx & Hs & Hf & Hp) Hc Hth. exists idx. rewrite Hc. split_and!; [done | done |].
  intros value seq E. destruct (Hth _ _ E) as [E'|Hl]; [rewrite E in E'; eauto|].
  rewrite last_lookup in Hl. exists (pred (length vs)). split; [done|]. apply Forall_lookup.
  intros n j Hn. destruct (Forall2_lookup_l _ _ _ _ _ Hf Hn) as (w & _ & Hw).
  apply lookup_lt_Some in Hw. lia.
Qed.

Lemma lpoll_ok vs st st' : lsub_ok vs st -> lpoll sz d true od st = Some st' -> lsub_ok vs st'.
Proof.
  intros [Hs Hr Hl Ht] E. unfold lpoll in E. destruct (ls_thread st) as [[p value seq]|] eqn:Eth; [|done].
  assert (Hgo : forall p' calls deaths, (ls_running st = true -> lp_pc p' <> LExit) ->
    reported vs (lgoto p' (ls_mem st) calls deaths st) ->
    lsub_ok vs (lgoto p' (ls_mem st) calls deaths st)).
  { intros p' calls deaths Hx Hr'. split; auto. unfold llife, lgoto in *. simpl. rewrite Eth in Hl.
    destruct (ls_running st); [|done]. destruct Hl. auto. }
  destruct p; [..|done].
  - injection E as <-. apply Hgo; [by intros ->|].
    apply (reported_same vs st); [done | done |]. simpl. intros ? ? E. by destruct (ls_running st).
  - destruct (last vs) as [v|] eqn:Ev.
    + rewrite (lslot_read sz d Hsz _ _ _ _ Hs Ev) in E. injection E as <-. apply Hgo; [done|].
      apply (reported_same vs st); [done | done |]. intros ? ? [= <- <-]. by right.
    + apply last_None in Ev. subst vs. rewrite lslot_empty in E by done. injection E as <-.
      apply Hgo; [done|]. by apply (reported_same [] st).
  - rewrite raw_sequence_call in E. destruct (negb _); injection E as <-; (apply Hgo; [done|]).
    + destruct Hr as (idx & Ho & Hf & Hp). destruct (Hp _ _ Eth) as (i & Hi & Ha).
      exists (idx ++ [i]). split_and!; [by apply sorted_snoc | by apply Forall2_app; auto | done].
    + by apply (reported_same vs st).
  - injection E as <-. apply Hgo; [done|]. by apply (reported_same vs st).
Qed.

Lemma lstep_ok a vs st st' :
  lsub_ok vs st -> Forall (fun v => Z.of_nat (length v) = sz) (published [a]) ->
  2 * Z.of_nat (length vs) + 2 < 2 ^ 64 -> lstep sz d true od a st = Some st' ->
  lsub_ok (vs ++ published [a]) st'.
Proof.
  intros Hok Hv Hn E. pose proof Hok as [Hs Hr Hl Ht]. unfold llife in Hl.
  destruct a as [| | | |v]; cbn [lstep published omap list_omap] in E, Hv |- *; rewrite ?app_nil_r.
  - destruct (ls_joining st) eqn:Ej; [done|]. injection E as <-. unfold lstart.
    destruct (ls_running st) eqn:Er; [done|]. destruct (ls_thread st); [done|].
    split; try done. by apply (reported_same vs st).
  - destruct (ls_joining st) eqn:Ej; [done|]. injection E as <-. unfold lstop.
    destruct (ls_running st) eqn:Er; [|done]. cbn [negb].
    split; [done | exact Hr | | done]. unfold llife. simpl.
    by destruct (ls_thread st); [|destruct Hl].
  - destruct (ls_joining st) eqn:Ej; [|done]. unfold ljoin in E.
    destruct (ls_thread st) as [p|]; [|by destruct Hl].
    destruct (lp_pc p) eqn:Ep; try done. injection E as <-.
    split; [done | by apply (reported_same vs st) | | done]. unfold llife. simpl.
    destruct (ls_running st); [by destruct Hl | done].
  - by apply (lpoll_ok vs st).
  - apply Forall_cons in Hv as [Hv _]. unfold lpublish in E.
    destruct (lslot_write sz Hsz (ls_mem st) vs v Hs Hv Hn) as (s' & Ec & Hs').
    rewrite Ec in E. injection E as <-. split; auto.
    apply (reported_same _ st); [by apply reported_more | done | auto].
Qed.

Lemma lrun_ok acts vs st st' :
  lsub_ok vs st -> Forall (fun v => Z.of_nat (length v) = sz) (published acts) ->
  2 * Z.of_nat (length vs + length acts) + 2 < 2 ^ 64 -> lrun acts st = Some st' ->
  lsub_ok (vs ++ published acts) st'.
Proof.
  revert vs st. induction acts as [|a acts IH]; intros vs st Hok Hv Hn; cbn [lrun].
  { intros [= <-]. by rewrite app_nil_r. }
  destruct (lstep sz d true od a st) as [st1|] eqn:E; [|done]. intros E'.
  rewrite published_cons in Hv |- *. apply Forall_app in Hv as [Hv1 Hv2]. simpl length in Hn.
  rewrite app_assoc. apply (IH _ st1); auto.
  - apply (lstep_ok a vs st); auto. lia.
  - rewrite length_app. pose proof (published_one a). lia.
Qed.

Lemma lconstruct_ok s : lslot sz s [] -> lsub_ok [] (lconstruct s).
Proof. intros Hs. split; auto; [|done]. exists []. by repeat constructor. Qed.
End LatestInvariant.

(** ** Rounds of the polling loop *)

(** The subscriber runs, its thread is at the test of the loop and has reported
    the sequence number [seq] last. *)
Definition at_loop (seq : Z) (st : lsub) : Prop :=
  ls_running st = true /\ exists value, ls_thread st = Some (mkLpoller LLoop value seq).

(** One round of the loop on a slot at rest, which holds [v]. *)
Lemma poll_round sz d od vs v seq st :
  0 < sz -> lslot sz (ls_mem st) vs -> last vs = Some v -> at_loop seq st ->
  exists st', lrun sz d true od (replicate 4 LPoll) st = Some st' /\
    ls_calls st' = ls_calls st ++ (if 2 * Z.of_nat (length vs) =? seq then [] else [v]) /\
    at_loop (2 * Z.of_nat (length vs)) st' /\ ls_mem st' = ls_mem st.
Proof.
  intros Hsz Hs Hv [Hr [value Hth]]. cbn [lrun lstep replicate]. unfold lpoll at 1. rewrite Hth, Hr.
  unfold lpoll at 1, lgoto. cbn [ls_thread ls_mem]. rewrite (lslot_read sz d Hsz _ _ _ _ Hs Hv).
  unfold lpoll at 1, lgoto. cbn [ls_thread ls_mem]. rewrite raw_sequence_call, (sl_seq _ _ _ Hs).
  destruct (_ =? seq) eqn:E; bool_to_prop; cbn [negb]; eexists; (split; [reflexivity|]);
    unfold lgoto, at_loop; simpl; rewrite ?app_nil_r, ?E; split_and!; eauto.
Qed.

(** Later rounds report nothing more. *)
Lemma poll_rounds sz d od vs v n st :
  0 < sz -> lslot sz (ls_mem st) vs -> last vs = Some v -> at_loop (2 * Z.of_nat (length vs)) st ->
  exists st', lrun sz d true od (replicate (4 * n) LPoll) st = Some st' /\ ls_calls st' = ls_calls st.
Proof.
  intros Hsz Hs Hv. revert st Hs. induction n as [|n IH]; intros st Hs Hl; [by exists st|].
  replace (4 * S n)%nat with (4 + 4 * n)%nat by lia. rewrite replicate_add, lrun_app.
  destruct (poll_round sz d od vs v _ st Hsz Hs Hv Hl) as (st3 & -> & Hc & Hl3 & Hm3).
  rewrite Z.eqb_refl, app_nil_r in Hc. rewrite <- Hm3 in Hs.
  destruct (IH st3 Hs Hl3) as (st4 & E4 & Hc4). exists st4. split; [done | congruence].
Qed.

(** A value that stays in the slot is reported by the next round of the
    polling loop, and by no later round: however many rounds follow, the
    callback has received it exactly once (not at all if its sequence number
    was the last one reported). *)
Theorem latest_value_reported sz d od vs v seq st n :
  0 < sz -> lslot sz (ls_mem st) vs -> last vs = Some v -> at_loop seq st ->
  exists st', lrun sz d true od (replicate (4 * S n) LPoll) st = Some st' /\
    ls_calls st' = ls_calls st ++ (if 2 * Z.of_nat (length vs) =? seq then [] else [v]).
Proof.
  intros Hsz Hs Hv Hl. destruct (poll_round sz d od vs v seq st Hsz Hs Hv Hl) as (st1 & E1 & Hc1 & Hl1 & Hm1).
  rewrite <- Hm1 in Hs. destruct (poll_rounds sz d od vs v n st1 Hsz Hs Hv Hl1) as (st2 & E2 & Hc2).
  exists st2. split; [|congruence]. replace (4 * S n)%nat with (4 + 4 * n)%nat by lia.
  by rewrite replicate_add, lrun_app, E1.
Qed.

(** C39: the callback only receives values that were published, and never goes
    back: through any sequence of [start], [stop], publications and polling
    steps the reported values are published values at non-decreasing positions;
    and [thread_] is joinable exactly while the subscriber runs or [stop] waits,
    so that neither [start] nor the destructor meets a joinable thread. *)
Theorem latest_reports_published sz d od s acts st :
  0 < sz -> lslot sz s [] ->
  Forall (fun v => Z.of_nat (length v) = sz) (published acts) ->
  2 * Z.of_nat (length acts) + 2 < 2 ^ 64 -> lrun sz d true od acts (lconstruct s) = Some st ->
  ls_terminated st = false /\
  (ls_thread st <> None <-> ls_running st = true \/ ls_joining st = true) /\
  exists idx, StronglySorted le idx /\
    Forall2 (fun i v => published acts !! i = Some v) idx (ls_calls st).
Proof.
  intros Hsz Hs Hv Hn Hr.
  destruct (lrun_ok sz d od Hsz acts [] (lconstruct s) st (lconstruct_ok sz s Hs) Hv Hn Hr)
    as [_ (idx & ? & ? & _) Hl Ht].
  split; [done|]. split; [|eauto].
  unfold llife in Hl. destruct (ls_thread st), (ls_running st), (ls_joining st); simpl in Hl;
    split; intros; destruct_and?; destruct_or?; try done; auto.
Qed.

Lemma latest_slot : lslot 2 latest_mem [].
Proof. by split. Qed.

Lemma latest_reports_published_witness :
  exists st, lrun 2 500 true true ([LPublish [x01; x02]; LStart] ++ replicate 4 LPoll ++
      [LPublish [x03; x04]; LPublish [x05; x06]] ++ replicate 4 LPoll) (lconstruct latest_mem) = Some st /\
    ls_calls st = [[x01; x02]; [x05; x06]] /\
    ls_terminated st = false /\
    (ls_thread st <> None <-> ls_running st = true \/ ls_joining st = true) /\
    exists idx, StronglySorted le idx /\
      Forall2 (fun i v => [[x01; x02]; [x03; x04]; [x05; x06]] !! i = Some v) idx (ls_calls st).
Proof.
  eexists. split; [vm_compute; reflexivity|]. split; [reflexivity|].
  eapply (latest_reports_published 2 500 true latest_mem
    ([LPublish [x01; x02]; LStart] ++ replicate 4 LPoll ++ [LPublish [x03; x04]; LPublish [x05; x06]] ++
     replicate 4 LPoll)).
  - lia.
  - apply latest_slot.
  - repeat constructor.
  - reflexivity.
  - vm_compute. reflexivity.
Defined.

(** ** [stop] returns *)

(** How many transitions the thread makes after [running_] is cleared. *)
Definition to_exit (p : lpc) : nat :=
  match p with LExit => 0 | LLoop => 1 | LSleep => 2 | LRawSequence => 3 | LTryRead => 4 end.

Lemma lpoll_progress sz d od vs st p :
  0 < sz -> lslot sz (ls_mem st) vs -> ls_running st = false -> ls_thread st = Some p ->
  lp_pc p <> LExit ->
  exists st' p', lpoll sz d true od st = Some st' /\ ls_thread st' = Some p' /\
    (to_exit (lp_pc p') < to_exit (lp_pc p))%nat /\
    ls_running st' = false /\ ls_joining st' = ls_joining st /\ ls_mem st' = ls_mem st.
Proof.
  intros Hsz Hs Hr Hth Hx. unfold lpoll. rewrite Hth. destruct p as [p value seq]. simpl in Hx.
  destruct p; [..|done]; cbv iota.
  - rewrite Hr. eexists _, _. split_and!; [done | done | simpl; lia | done..].
  - destruct (last vs) as [v|] eqn:Ev.
    + rewrite (lslot_read sz d Hsz _ _ _ _ Hs Ev). eexists _, _. split_and!; [done | done | simpl; lia | done..].
    + apply last_None in Ev. subst vs. rewrite lslot_empty by done.
      eexists _, _. split_and!; [done | done | simpl; lia | done..].
  - rewrite raw_sequence_call. destruct (negb _); eexists _, _; split_and!; try done; simpl; lia.
  - eexists _, _. split_and!; [done | done | simpl; lia | done..].
Qed.

Lemma lpoll_exits sz d od vs st p :
  0 < sz -> lslot sz (ls_mem st) vs -> ls_running st = false -> ls_thread st = Some p ->
  exists n st' p', (n <= to_exit (lp_pc p))%nat /\ lrun sz d true od (replicate n LPoll) st = Some st' /\
    ls_thread st' = Some p' /\ lp_pc p' = LExit /\ ls_running st' = false /\ ls_joining st' = ls_joining st.
Proof.
  intros Hsz. remember (to_exit (lp_pc p)) as k eqn:Ek. revert st p Ek.
  induction k as [k IH] using lt_wf_ind. intros st p Ek Hs Hr Hth.
  destruct (decide (lp_pc p = LExit)) as [Hx|Hx].
  { exists O, st, p. split_and!; [lia | done..]. }
  destruct (lpoll_progress sz d od vs st p Hsz Hs Hr Hth Hx) as (st1 & p1 & E & Hth1 & Hlt & Hr1 & Hj1 & Hm1).
  rewrite <- Hm1 in Hs. destruct (IH (to_exit (lp_pc p1)) ltac:(lia) st1 p1 eq_refl Hs Hr1 Hth1)
    as (n & st' & p' & Hn & E' & ? & ? & ? & ?).
  exists (S n), st', p'. split_and!; [lia | | done | done | done | congruence].
  cbn [replicate lrun lstep]. by rewrite E.
Qed.

(** [SharedLatestSubscriber::stop] returns: from any state in which it waits,
    the polling thread exits within four transitions and [join] succeeds. *)
Theorem latest_stop_returns sz d od s acts st :
  0 < sz -> lslot sz s [] ->
  Forall (fun v => Z.of_nat (length v) = sz) (published acts) ->
  2 * Z.of_nat (length acts) + 2 < 2 ^ 64 -> lrun sz d true od acts (lconstruct s) = Some st ->
  ls_joining st = true ->
  exists n st', (n <= 4)%nat /\ lrun sz d true od (replicate n LPoll ++ [LJoin]) st = Some st' /\
    ls_thread st' = None /\ ls_running st' = false.
Proof.
  intros Hsz Hs Hv Hn Hr Hj.
  destruct (lrun_ok sz d od Hsz acts [] (lconstruct s) st (lconstruct_ok sz s Hs) Hv Hn Hr) as [Hsl _ Hl _].
  unfold llife in Hl. destruct (ls_thread st) as [p|] eqn:Hth; [|by destruct Hl; congruence].
  destruct (ls_running st) eqn:Er; [by destruct Hl; congruence|].
  destruct (lpoll_exits sz d od _ st p Hsz Hsl Er Hth) as (n & st' & p' & Hle & E & Hth' & Hx & Hr' & Hj').
  exists n. eexists. split; [by destruct (lp_pc p); simpl in Hle; lia|].
  rewrite lrun_app, E. cbn [lrun lstep]. rewrite Hj', Hj. unfold ljoin. rewrite Hth', Hx, Hr'. done.
Qed.

Lemma latest_stop_returns_witness :
  let acts := [LPublish [x01; x02]; LStart; LPoll; LPoll; LStop] in
  exists st, lrun 2 500 true true acts (lconstruct latest_mem) = Some st /\
    exists n st', (n <= 4)%nat /\ lrun 2 500 true true (replicate n LPoll ++ [LJoin]) st = Some st' /\
      ls_thread st' = None /\ ls_running st' = false.
Proof.
  intros acts. eexists. split; [vm_compute; reflexivity|].
  apply (latest_stop_returns 2 500 true latest_mem acts).
  - lia.
  - apply latest_slot.
  - repeat constructor.
  - reflexivity.
  - vm_compute. reflexivity.
  - reflexivity.
Defined.

(** ** The writer's death *)

(** One round while the writer is dead. *)
Lemma death_round sz d om st seq :
  Z.land (load FSequence (ls_mem st)) 1 = 1 -> stale d (ls_mem st) = true -> at_loop seq st ->
  exists st', lrun sz d om true (replicate 3 LPoll) st = Some st' /\ at_loop seq st' /\
    ls_mem st' = ls_mem st /\ ls_calls st' = ls_calls st /\ ls_deaths st' = S (ls_deaths st).
Proof.
  intros Ho Hst [Hr [value Hth]]. cbn [lrun lstep replicate]. unfold lpoll at 1. rewrite Hth, Hr.
  unfold lpoll at 1, lgoto. cbn [ls_thread ls_mem].
  rewrite (call_eval _ id _ (kWriterDead, value) (ls_mem st) []).
  - eexists. split; [reflexivity|]. unfold at_loop, lgoto. simpl. rewrite Nat.add_1_r. eauto 6.
  - rewrite read_odd by (done || lia). rewrite Hst. reflexivity.
Qed.

(** A writer that has died inside a write is reported: as long as nobody
    recovers the slot, every round of the polling loop invokes [on_death] once
    (again and again, not only at the first detection), and [on_message] never. *)
Theorem death_reported sz d om st seq n :
  Z.land (load FSequence (ls_mem st)) 1 = 1 -> stale d (ls_mem st) = true -> at_loop seq st ->
  exists st', lrun sz d om true (replicate (3 * n) LPoll) st = Some st' /\
    ls_deaths st' = (ls_deaths st + n)%nat /\ ls_calls st' = ls_calls st /\ at_loop seq st'.
Proof.
  intros Ho. revert st Ho. induction n as [|n IH]; intros st Ho Hst Hl.
  { exists st. split_and!; [done | lia | done | done]. }
  replace (3 * S n)%nat with (3 + 3 * n)%nat by lia. rewrite replicate_add, lrun_app.
  destruct (death_round sz d om st seq Ho Hst Hl) as (st1 & -> & Hl1 & Hm1 & Hc1 & Hd1).
  rewrite <- Hm1 in Ho, Hst. destruct (IH st1 Ho Hst Hl1) as (st' & E & Hd & Hc & Hl').
  exists st'. split_and!; [done | lia | congruence | done].
Qed.

(** The slot of a writer that died in its second write, 1000 ns ago. *)
Definition dead_slot : shared := tick 1000 (store FHeadReserve 1 (store FSequence 3 latest_mem)).

Lemma death_reported_witness :
  exists st st', lrun 2 500 true true [LStart] (lconstruct dead_slot) = Some st /\
    lrun 2 500 true true (replicate (3 * 5) LPoll) st = Some st' /\
    ls_deaths st' = (ls_deaths st + 5)%nat /\ ls_calls st' = ls_calls st /\ at_loop 0 st'.
Proof.
  eexists. match goal with |- exists st', _ = Some ?st /\ _ => set (st1 := st) end.
  assert (E : lrun 2 500 true true [LStart] (lconstruct dead_slot) = Some st1)
    by (vm_compute; reflexivity).
  destruct (death_reported 2 500 true st1 0 5) as (st' & E' & Hc);
    [reflexivity | reflexivity | split; [done | by eexists] |].
  exists st'. split; [exact E|]. split; [exact E' | exact Hc].
Defined.

(** ** A lost value *)

(** The first value is published and reported; the second is published between
    a later [try_read] and its [raw_sequence]. *)
Definition lost_acts : list lact :=
  [LPublish [x01; x02]; LStart] ++ replicate 4 LPoll ++ replicate 2 LPoll ++ [LPublish [x03; x04]] ++
  replicate 2 LPoll.

(** The sequence number is read after the value, so a publication in
    between makes the loop report the old value a second time and take the new
    one for reported: although every read of the slot returns the new value, no
    later round reports it. *)
Theorem latest_value_lost :
  exists st, lrun 2 500 true true lost_acts (lconstruct latest_mem) = Some st /\
    ls_calls st = [[x01; x02]; [x01; x02]] /\
    (forall out, try_read_once 2 500 out st = Some ((kSuccess, [x03; x04]), ls_mem st)) /\
    forall n, exists st', lrun 2 500 true true (replicate (4 * n) LPoll) st = Some st' /\
      ls_calls st' = [[x01; x02]; [x01; x02]].
Proof.
  eexists. split; [vm_compute; reflexivity|]. split; [reflexivity|].
  match goal with |- _ /\ forall n, exists st', lrun _ _ _ _ _ ?st = _ /\ _ => set (st0 := st) end.
  assert (Hs : lslot 2 (ls_mem st0) [[x01; x02]; [x03; x04]])
    by (split; [done | done | by intros v [= <-]]).
  split.
  - intros out. by apply (lslot_read 2 500 ltac:(lia) _ [[x01; x02]; [x03; x04]]).
  - intros n. apply (poll_rounds 2 500 true [[x01; x02]; [x03; x04]] [x03; x04] n st0); try done.
    split; [done | by eexists].
Qed.

Lemma latest_value_reported_witness :
  exists st st', lrun 2 500 true true [LPublish [x01; x02]; LStart] (lconstruct latest_mem) = Some st /\
    lrun 2 500 true true (replicate (4 * 3) LPoll) st = Some st' /\
    ls_calls st' = ls_calls st ++ [[x01; x02]].
Proof.
  eexists. match goal with |- exists st', _ = Some ?st /\ _ => set (st1 := st) end.
  assert (E : lrun 2 500 true true [LPublish [x01; x02]; LStart] (lconstruct latest_mem) = Some st1)
    by (vm_compute; reflexivity).
  destruct (latest_value_reported 2 500 true [[x01; x02]] [x01; x02] 0 st1 2) as (st' & E' & Hc).
  - lia.
  - split; [done | done | by intros v [= <-]].
  - done.
  - split; [done | by eexists].
  - exists st'. split; [exact E|]. split; [exact E' | exact Hc].
Defined.
