(* ===== verification/TypedMessage.v ===== *)
(** * typed_message.hpp: codecs and the typed reader and writer

    [MessageCodec<T>] turns values into payload bytes and back; the typed
    writer and reader put it in front of any of the three variable-size rings,
    which they use only through the contract [RingQueue] of [Solo].  A value of
    a trivially copyable type is its object representation. *)

From Stdlib Require Import ZArith Lia Strings.Byte.
From stdpp Require Import base list numbers gmap.
From S2P Require Import Prelude Memory Layout Prog Records Owner.
From S2P Require Import RingWriter SpscRing MpscRing MpmcRing Solo.

(** ** Codecs *)

(** [encode value out] and [decode payload out] return their result and the
    new contents of [out]. *)
Class MessageCodec (T : Type) := {
  encode : T -> list byte -> bool * list byte;
  decode : list byte -> T -> bool * T;
}.

(** What a codec promises for the values that satisfy [ok]. *)
Class CodecLaws (T : Type) (ok : T -> Prop) {C : MessageCodec T} : Prop :=
  decode_encode : forall v out out', ok v ->
    exists bs, encode v out = (true, bs) /\ decode bs out' = (true, v).

(** Trivially copyable [T]. *)
Definition encode_pod (sizeof_T : Z) (value out : list byte) : bool * list byte :=
  let out := resize out sizeof_T in
  (true, copy_front out (take (Z.to_nat sizeof_T) value)).

Definition decode_pod (sizeof_T : Z) (payload out : list byte) : bool * list byte :=
  if negb (Z.of_nat (length payload) =? sizeof_T) then (false, out) else
  (true, take (Z.to_nat sizeof_T) payload).

(** [std::string], a sequence of bytes. *)
Definition encode_string (value out : list byte) : bool * list byte :=
  let out := resize out (Z.of_nat (length value)) in
  match value with
  | [] => (true, out)
  | _ => (true, copy_front out value)
  end.

Definition decode_string (payload out : list byte) : bool * list byte := (true, payload).

(** [std::vector<T>] with trivially copyable [T]. *)
Definition encode_vector (sizeof_T : Z) (value : list (list byte)) (out : list byte)
  : bool * list byte :=
  let bytes := u64 (Z.of_nat (length value) * sizeof_T) in
  let out := resize out bytes in
  if bytes >? 0 then (true, copy_front out (take (Z.to_nat bytes) (concat value)))
  else (true, out).

(** The elements of a contiguous array. *)
Fixpoint elements (n : nat) (count : nat) (bs : list byte) : list (list byte) :=
  match count with
  | O => []
  | S count => take n bs :: elements n count (drop n bs)
  end.

(** [out.resize(count)] followed by a [memcpy] that covers all of it. *)
Definition decode_vector (sizeof_T : Z) (payload : list byte) (out : list (list byte))
  : bool * list (list byte) :=
  let size := Z.of_nat (length payload) in
  if negb (size mod sizeof_T =? 0) then (false, out) else
  let count := size / sizeof_T in
  (true, elements (Z.to_nat sizeof_T) (Z.to_nat count) payload).

Lemma resize_full bs out n : Z.of_nat (length bs) = n -> copy_front (resize out n) bs = bs.
Proof.
  intros Hn. unfold copy_front, resize. rewrite drop_ge; [by rewrite app_nil_r|].
  rewrite length_app, length_take, length_replicate. lia.
Qed.

Lemma elements_concat n vs :
  Forall (fun v => length v = n) vs -> elements n (length vs) (concat vs) = vs.
Proof.
  induction 1 as [|v vs Hv _ IH]; simpl; [done|].
  rewrite take_app_le, take_ge, drop_app_ge, Hv, Nat.sub_diag, drop_0 by lia. by f_equal.
Qed.

Lemma length_concat_same n (vs : list (list byte)) :
  Forall (fun v => length v = n) vs -> length (concat vs) = (length vs * n)%nat.
Proof. induction 1; simpl; [done|]. rewrite length_app. lia. Qed.

(** The three specialisations.  (A C++ type selects its codec; here the codec
    is passed explicitly.) *)
Definition pod_codec (sz : Z) : MessageCodec (list byte) :=
  {| encode := encode_pod sz; decode := decode_pod sz |}.
Definition vector_codec (sz : Z) : MessageCodec (list (list byte)) :=
  {| encode := encode_vector sz; decode := decode_vector sz |}.
Definition string_codec : MessageCodec (list byte) :=
  {| encode := encode_string; decode := decode_string |}.

Definition pod_ok (sz : Z) (v : list byte) : Prop := Z.of_nat (length v) = sz.
Definition vector_ok (sz : Z) (vs : list (list byte)) : Prop :=
  0 < sz /\ Forall (fun v => length v = Z.to_nat sz) vs /\ Z.of_nat (length vs) * sz < 2 ^ 64.

(** Encoding ignores what [out] held; the bytes of each codec. *)
Lemma encode_pod_bytes sz v out : pod_ok sz v -> encode_pod sz v out = (true, v).
Proof. intros Hv. unfold encode_pod, pod_ok in *. by rewrite take_ge, resize_full by lia. Qed.

Lemma encode_string_bytes v out : encode_string v out = (true, v).
Proof. unfold encode_string. destruct v as [|b v]; [done|]. by rewrite resize_full. Qed.

Lemma encode_vector_bytes sz vs out : vector_ok sz vs -> encode_vector sz vs out = (true, concat vs).
Proof.
  intros (Hs & Hv & Hb). unfold encode_vector. rewrite u64_small by lia.
  pose proof (length_concat_same _ _ Hv) as Hl. case_if.
  - by rewrite take_ge, resize_full by lia.
  - assert (length vs = 0%nat) by nia. destruct vs; [done | simpl in *; lia].
Qed.

#[export] Instance pod_laws sz : CodecLaws (list byte) (pod_ok sz) (C := pod_codec sz).
Proof.
  intros v out out' Hv. exists v. split; [by apply encode_pod_bytes|].
  simpl. unfold decode_pod, pod_ok in *. rewrite Hv, Z.eqb_refl. simpl. by rewrite take_ge by lia.
Qed.

#[export] Instance string_laws : CodecLaws (list byte) (fun _ => True) (C := string_codec).
Proof. intros v out out' _. exists v. split; [apply encode_string_bytes | done]. Qed.

#[export] Instance vector_laws sz : CodecLaws (list (list byte)) (vector_ok sz) (C := vector_codec sz).
Proof.
  intros vs out out' Hv. exists (concat vs). split; [by apply encode_vector_bytes|].
  destruct Hv as (Hs & Hv & Hb). pose proof (length_concat_same _ _ Hv) as Hl.
  simpl. unfold decode_vector.
  assert (Hn : Z.of_nat (length (concat vs)) = Z.of_nat (length vs) * sz) by lia.
  rewrite Hn, Z.mod_mul, Z.div_mul by lia. simpl.
  rewrite Nat2Z.id. by rewrite elements_concat.
Qed.

(** ** The typed writer and reader *)

(** [MessageType<T>]: whether it is specialised for [T], and the number of the
    type; the primary template. *)
Record MessageType := mkMessageType { defined : bool; mt_value : Z }.
Definition primary_MessageType : MessageType := mkMessageType false 0.

Record MessageView := mkView { view_type : Z; view_sequence : Z; view_payload : list byte }.

(** The members of a reader: the scratch buffer that [try_pop] fills, and the
    last type and sequence number. *)
Record Reader := mkReader { buffer : list byte; rtype : Z; rsequence : Z }.

(** What the reader makes of the result of the ring's [try_pop]: the view, if
    a message was popped, and the reader afterwards. *)
Definition reader_result (r : Reader) (p : popped) : option MessageView * Reader :=
  let r := mkReader (p_out p) (p_type p)
             (match p_seq p with Some q => q | None => rsequence r end) in
  if p_ok p then (Some (mkView (rtype r) (rsequence r) (buffer r)), r) else (None, r).

(** What [try_pop_typed] makes of it: result, [out] and the reader afterwards. *)
Definition typed_result {T} (C : MessageCodec T) (expected_type : Z) (out : T)
    (vr : option MessageView * Reader) : bool * T * Reader :=
  match vr with
  | (None, r) => (false, out, r)
  | (Some view, r) =>
      if negb (view_type view =? expected_type) then (false, out, r)
      else let '(ok, out) := decode (view_payload view) out in (ok, out, r)
  end.

Section Typed.
(** The ring: which kind, and its capacity. *)
Context (k : ring_kind) (capacity : Z).

(** The [std::span] overload of the ring's [try_push]. *)
Definition ring_push_span (payload : list byte) (type : Z) : prog (option bool) :=
  match k with
  | SPSC => SpscRing.try_push_span capacity payload type
  | MPSC => MpscRing.try_push_span capacity payload type
  | MPMC => MpmcRing.try_push_span capacity payload type
  end.

Definition try_push_bytes (type : Z) (payload : list byte) : prog (option bool) :=
  ring_push_span payload type.

(** [try_push_typed] for a trivially copyable type. *)
Definition try_push_pod (sizeof_T : Z) (value : list byte) (type : Z) : prog (option bool) :=
  push_of k capacity (Some value) (u32 sizeof_T) type.

(** [try_push_typed] for the other types, with the scratch buffer. *)
Definition try_push_typed {T} (C : MessageCodec T) (scratch : list byte) (value : T) (type : Z)
  : prog (option bool) * list byte :=
  let '(ok, scratch) := encode value [] in
  if negb ok then (Ret (Some false), scratch) else (ring_push_span scratch type, scratch).

(** [TypedMessageReader::try_pop]. *)
Definition reader_try_pop (r : Reader) : prog (option (option MessageView * Reader)) :=
  pmap (option_map (reader_result r)) (pop_of k capacity (buffer r) (rtype r) (Some (rsequence r))).

Definition try_pop_typed {T} (C : MessageCodec T) (r : Reader) (expected_type : Z) (out : T)
  : prog (option (bool * T * Reader)) :=
  pmap (option_map (typed_result C expected_type out)) (reader_try_pop r).

(** [try_push<T>] and [try_pop<T>], which take the type number from the
    specialisation of [MessageType]: a program that has none does not compile
    ([None]). *)
Definition writer_try_push_pod (mt : MessageType) (sizeof_T : Z) (value : list byte)
  : option (prog (option bool)) :=
  if defined mt then Some (try_push_pod sizeof_T value (mt_value mt)) else None.

Definition writer_try_push {T} (C : MessageCodec T) (mt : MessageType) (scratch : list byte) (value : T)
  : option (prog (option bool) * list byte) :=
  if defined mt then Some (try_push_typed C scratch value (mt_value mt)) else None.

Definition reader_try_pop_type {T} (C : MessageCodec T) (mt : MessageType) (r : Reader) (out : T)
  : option (prog (option (bool * T * Reader))) :=
  if defined mt then Some (try_pop_typed C r (mt_value mt) out) else None.
End Typed.

(** ** Correctness against the ring contract *)

Section Proofs.
Context (cap : Z) (Hcap : cap_ok cap) (k : ring_kind).
Context (push : Z -> option (list byte) -> Z -> Z -> prog (option bool))
  (pop : Z -> list byte -> Z -> option Z -> prog (option popped))
  {Hrq : RingQueue cap push pop}.

(** The span overload of a payload of less than 4 GiB. *)
Lemma push_span_run payload type spurs s H T n q :
  Z.of_nat (length payload) < 2 ^ 32 -> 0 <= type < 2 ^ 16 ->
  quiet cap s H T n q -> idx_ok cap (T + cap) ->
  let b := fits cap H T (Z.of_nat (length payload)) in
  exists s' spurs' T',
    run (2 + length spurs) spurs
      (push cap (Some payload) (u32 (Z.of_nat (length payload))) type) s = Some (Done b s' spurs') /\
    T <= T' <= T + 2 * cap /\
    quiet cap s' H T' (if b then n + 1 else n)
      (q ++ if b then [mkMsg type payload (u64 (n + 1))] else []).
Proof.
  intros Hl Ht Hq Hidx. unfold u32. rewrite Z.mod_small by lia.
  destruct (rq_push cap (RingQueue := Hrq) (Some payload) (Z.of_nat (length payload)) type spurs s H T n q)
    as (s' & sp & T' & E & HT & Hq'); auto; [| done |].
  { unfold push_args_ok. repeat (apply andb_true_intro; split); lia. }
  exists s', sp, T'. split_and!; auto; try lia. unfold sent, push_payload in Hq'.
  rewrite Nat2Z.id, take_ge in Hq' by lia. done.
Qed.
End Proofs.

Section Rings.
Context (cap : Z) (Hcap : cap_ok cap) (k : ring_kind).

Lemma ring_push_span_eq payload type :
  ring_push_span k cap payload type =
    push_of k cap (Some payload) (u32 (Z.of_nat (length payload))) type.
Proof. by destruct k. Qed.

(** A pop by a reader: the view shows the payload, followed by what the buffer
    held beyond it. *)
Lemma reader_pop_run r spurs s H T n q :
  quiet cap s H T n q -> idx_ok cap T ->
  exists s' spurs' H',
    run (2 + length spurs) spurs (reader_try_pop k cap r) s =
      Some (Done (match q with
                  | [] => (None, r)
                  | x :: _ =>
                      let b := m_payload x ++ drop (length (m_payload x)) (buffer r) in
                      (Some (mkView (m_type x) (m_seq x) b), mkReader b (m_type x) (m_seq x))
                  end) s' spurs') /\
    quiet cap s' H' T n (tail q).
Proof.
  intros Hq Hidx. pose proof (ring_queue cap Hcap k) as Hrq.
  destruct (rq_pop cap (RingQueue := Hrq) (buffer r) (rtype r) (Some (rsequence r)) spurs s H T n q Hq Hidx)
    as (s' & sp & H' & E & Hq'). exists s', sp, H'. split; [|done].
  unfold reader_try_pop. rewrite run_pmap, E. unfold reader_result, pop_result.
  destruct q as [|x q]; simpl; [by destruct r|]. by rewrite fill_out_eq.
Qed.

(** A typed pop of the oldest message [x]: it is consumed, and what is decoded, if
    it has the expected type, is its payload followed by what the buffer held beyond
    it. *)
Lemma typed_pop_run {T} (C : MessageCodec T) r ty out x q spurs s H Tl n :
  quiet cap s H Tl n (x :: q) -> idx_ok cap Tl ->
  let b := m_payload x ++ drop (length (m_payload x)) (buffer r) in
  exists s' spurs' H',
    run (2 + length spurs) spurs (try_pop_typed k cap C r ty out) s =
      Some (Done (if m_type x =? ty then decode b out else (false, out), mkReader b (m_type x) (m_seq x)) s' spurs') /\
    quiet cap s' H' Tl n q.
Proof.
  intros Hq Hidx b. destruct (reader_pop_run r spurs s H Tl n (x :: q) Hq Hidx)
    as (s' & sp & H' & E & Hq'). exists s', sp, H'. split; [|done].
  unfold try_pop_typed, typed_result. rewrite run_pmap, E. cbv zeta. fold b.
  cbn [view_type view_payload]. destruct (m_type x =? ty); cbn [negb]; [by destruct (decode b out) | done].
Qed.
End Rings.


(** A trivially copyable value is pushed without a codec. *)
Lemma pod_pop_run cap (Hcap : cap_ok cap) k sz r ty out x q spurs s H Tl n :
  quiet cap s H Tl n (x :: q) -> idx_ok cap Tl -> m_type x = ty ->
  exists s' spurs' H' r',
    run (2 + length spurs) spurs (try_pop_typed k cap (pod_codec sz) r ty out) s =
      Some (Done (decode_pod sz (m_payload x ++ drop (length (m_payload x)) (buffer r)) out, r')
        s' spurs') /\
    length (buffer r') = Nat.max (length (m_payload x)) (length (buffer r)) /\
    quiet cap s' H' Tl n q.
Proof.
  intros Hq Hidx Hty. destruct (reader_pop_run cap Hcap k r spurs s H Tl n (x :: q) Hq Hidx)
    as (s' & sp & H' & E & Hq'). eexists s', sp, H', _. split_and!; [| | exact Hq'].
  - unfold try_pop_typed, typed_result. rewrite run_pmap, E. cbv zeta.
    cbn [view_type view_payload]. rewrite Hty, Z.eqb_refl. cbn [negb]. simpl decode.
    by destruct (decode_pod sz _ out).
  - simpl. rewrite length_app, length_drop. lia.
Qed.

(** A trivially copyable value travels through any of the three rings by
    its object representation: pushed by address and size on a quiescent ring
    with enough room, it comes back unchanged from a reader whose buffer is
    not longer than the value. *)
Theorem pod_roundtrip cap k sz r v out ty s H Tl n :
  cap_ok cap -> pod_ok sz v -> sz < 2 ^ 32 -> 0 <= ty < 2 ^ 16 ->
  quiet cap s H Tl n [] -> idx_ok cap (Tl + 2 * cap) -> fits cap H Tl sz = true ->
  Z.of_nat (length (buffer r)) <= sz ->
  exists s1 sp1 s2 sp2 H2 T2 r2,
    run 2 [] (try_push_pod k cap sz v ty) s = Some (Done true s1 sp1) /\
    run 2 [] (try_pop_typed k cap (pod_codec sz) r ty out) s1 = Some (Done (true, v, r2) s2 sp2) /\
    quiet cap s2 H2 T2 (n + 1) [].
Proof.
  intros Hcap Hv Hl Hty Hq Hidx Hfit Hbuf. unfold pod_ok in Hv. subst sz.
  pose proof (ring_queue cap Hcap k) as Hrq. pose proof (proj1 Hcap) as Hc.
  destruct (push_span_run cap (push_of k) (pop_of k) v ty [] s H Tl n [] Hl Hty Hq)
    as (s1 & sp1 & T1 & E1 & HT1 & Hq1); [by eapply idx_ok_le; [|exact Hidx]; lia|].
  rewrite Hfit in E1, Hq1. simpl in Hq1.
  destruct (pod_pop_run cap Hcap k (Z.of_nat (length v)) r ty out (mkMsg ty v (u64 (n + 1))) [] [] s1 H T1 (n + 1) Hq1)
    as (s2 & sp2 & H2 & r2 & E2 & _ & Hq2); [by eapply idx_ok_le; [|exact Hidx]; lia | done |].
  exists s1, sp1, s2, sp2, H2, T1, r2. unfold try_push_pod. split_and!; auto.
  cbn [m_payload length Nat.add] in E2. rewrite E2. rewrite drop_ge, app_nil_r by lia.
  unfold decode_pod. rewrite Z.eqb_refl. cbn [negb]. by rewrite take_ge by lia.
Qed.

(** The rings only ever grow the buffer they fill, so once a reader has
    received a message longer than [sizeof(T)] it can never again receive a
    [T]: every matching message is popped, refused and lost, and the buffer
    does not shrink. *)
Theorem long_message_blocks_pod cap k sz r ty out x q spurs s H Tl n :
  cap_ok cap -> quiet cap s H Tl n (x :: q) -> idx_ok cap Tl -> m_type x = ty ->
  pod_ok sz (m_payload x) -> sz < Z.of_nat (length (buffer r)) ->
  exists s' spurs' H' r',
    run (2 + length spurs) spurs (try_pop_typed k cap (pod_codec sz) r ty out) s =
      Some (Done (false, out, r') s' spurs') /\
    quiet cap s' H' Tl n q /\ sz < Z.of_nat (length (buffer r')).
Proof.
  intros Hcap Hq Hidx Hty Hv Hb. unfold pod_ok in Hv.
  destruct (pod_pop_run cap Hcap k sz r ty out x q spurs s H Tl n Hq Hidx Hty)
    as (s' & sp & H' & r' & E & Hr & Hq'). exists s', sp, H', r'. split_and!; [| done | lia].
  rewrite E. unfold decode_pod. rewrite length_app, length_drop.
  rewrite (proj2 (Z.eqb_neq _ _)) by lia. done.
Qed.

(** ** Concrete runs *)

Definition reader0 : Reader := mkReader [] 0 0.


Lemma pod_roundtrip_witness :
  exists s1 sp1 s2 sp2 H2 T2 r2,
    run 2 [] (try_push_pod SPSC 64 24 bytes24 7) ring64 = Some (Done true s1 sp1) /\
    run 2 [] (try_pop_typed SPSC 64 (pod_codec 24) reader0 7 []) s1 =
      Some (Done (true, bytes24, r2) s2 sp2) /\
    quiet 64 s2 H2 T2 (0 + 1) [].
Proof.
  apply (pod_roundtrip 64 SPSC 24 reader0 bytes24 [] 7 ring64 0 0 0); try done;
    [apply cap_ok_64 | apply quiet64 | apply idx64].
Defined.

(** The reader has received eight bytes; a four-byte message follows. *)
Definition reader8 : Reader := mkReader (replicate 8 x62) 7 1.
Definition ring_pod4 : shared :=
  match run 2 [] (try_push_pod MPSC 64 4 (replicate 4 x61) 7) ring64 with
  | Some (Done _ s _) => s
  | _ => ring64
  end.

Lemma quiet_pod4 : exists T, quiet 64 ring_pod4 0 T 1 [mkMsg 7 (replicate 4 x61) 1].
Proof.
  destruct (rq_push 64 (RingQueue := ring_queue 64 cap_ok_64 MPSC) (Some (replicate 4 x61)) 4 7 [] ring64 0 0 0 [])
    as (s' & sp & T & E & _ & Hq); try done; [apply quiet64 | apply idx64 |].
  exists T. unfold ring_pod4, try_push_pod. cbn [length Nat.add] in E.
  change (u32 4) with 4. rewrite E. exact Hq.
Qed.

Lemma long_message_blocks_pod_witness :
  exists T s' spurs' H' r',
    run 2 [] (try_pop_typed MPSC 64 (pod_codec 4) reader8 7 []) ring_pod4 =
      Some (Done (false, [], r') s' spurs') /\
    quiet 64 s' H' T 1 [] /\ 4 < Z.of_nat (length (buffer r')).
Proof.
  destruct quiet_pod4 as [T Hq]. exists T.
  apply (long_message_blocks_pod 64 MPSC 4 reader8 7 [] (mkMsg 7 (replicate 4 x61) 1) [] [] ring_pod4 0 T 1);
    try done; [apply cap_ok_64 | apply idx64].
Defined.
