(* ===== verification/BenchData.v ===== *)
(** * Benchmark data

    What the benchmark programs send: the payload bytes, and the object
    representations of the structures [Tick], [RobotState] and [Command] (the
    x86-64 layout, without padding), with IEEE 754 floating-point members. *)

From Stdlib Require Import ZArith Lia Strings.Byte Strings.Ascii SpecFloat.
From stdpp Require Import base list numbers strings pretty.
From S2P Require Import Prelude Memory Layout IpcAdapter.

(** ** Temporary files *)

(** [counter] is the static counter of [make_temp_path], a 64-bit integer. *)
Definition make_temp_path (temp_directory_path : string) (pid counter : N) (prefix : string)
  : string * N :=
  let id := counter in
  let name := (prefix +:+ "_" +:+ pretty pid +:+ "_" +:+ pretty id)%string in
  (path_div temp_directory_path name, N.modulo (counter + 1) (2 ^ 64)).

(** The fields of a name: digits contain no underscore. *)
Fixpoint has_underscore (s : string) : bool :=
  match s with
  | EmptyString => false
  | String c s => Ascii.eqb c "_"%char || has_underscore s
  end.

Lemma has_underscore_app s t : has_underscore (s +:+ t) = has_underscore s || has_underscore t.
Proof. induction s as [|c s IH]; [done|]. simpl. by rewrite IH, orb_assoc. Qed.

Lemma digit_chars x : Ascii.eqb (pretty_N_char x) "_"%char = false /\ Ascii.eqb (pretty_N_char x) "/"%char = false.
Proof. unfold pretty_N_char. repeat case_match; done. Qed.

Lemma digits_plain (x : N) : has_underscore (pretty x) = false /\ has_slash (pretty x) = false.
Proof.
  assert (Hgo : forall x s, has_underscore s = false /\ has_slash s = false ->
    has_underscore (pretty_N_go x s) = false /\ has_slash (pretty_N_go x s) = false).
  { intros y. induction (N.lt_wf_0 y) as [y _ IH]. intros s Hs.
    destruct (decide (y = 0)%N) as [->|]; [by rewrite pretty_N_go_0|].
    rewrite pretty_N_go_step by lia. apply IH; [apply N.div_lt; lia|].
    destruct (digit_chars (y mod 10)) as [H1 H2]. simpl. by rewrite H1, H2. }
  unfold pretty, pretty_N. case_decide; [done | by apply Hgo].
Qed.

Lemma last_field s1 d1 s2 d2 :
  has_underscore d1 = false -> has_underscore d2 = false ->
  s1 +:+ "_" +:+ d1 = s2 +:+ "_" +:+ d2 -> s1 = s2 /\ d1 = d2.
Proof.
  intros H1 H2. revert s2. induction s1 as [|c s1 IH]; intros [|c2 s2] E; simpl in E.
  - injection E as E. done.
  - injection E as _ E. change (d1 = s2 +:+ "_" +:+ d2) in E.
    rewrite E, has_underscore_app in H1. simpl in H1. by rewrite orb_true_r in H1.
  - injection E as _ E. change (s1 +:+ "_" +:+ d1 = d2) in E.
    rewrite <- E, has_underscore_app in H2. simpl in H2. by rewrite orb_true_r in H2.
  - injection E as -> E. destruct (IH s2 E) as [-> ->]. done.
Qed.

(** The temporary files of the benchmarks are distinct: the path determines the
    prefix, the process and the value of the counter, so that no two benchmark
    objects of any processes on one machine share a file until the 64-bit counter
    has gone round. *)
Theorem temp_paths_distinct dir pid1 pid2 counter1 counter2 prefix1 prefix2 :
  has_slash prefix1 = false -> has_slash prefix2 = false ->
  (make_temp_path dir pid1 counter1 prefix1).1 = (make_temp_path dir pid2 counter2 prefix2).1 ->
  prefix1 = prefix2 /\ pid1 = pid2 /\ counter1 = counter2.
Proof.
  intros H1 H2. unfold make_temp_path. cbn [fst].
  assert (Hs : forall prefix (pid counter : N), has_slash prefix = false ->
    has_slash (prefix +:+ "_" +:+ pretty pid +:+ "_" +:+ pretty counter) = false).
  { intros prefix pid counter Hp. rewrite !has_slash_app, Hp. simpl.
    by rewrite (proj2 (digits_plain pid)), (proj2 (digits_plain counter)). }
  rewrite !path_div_relative by auto. intros E. do 2 apply append_inj_l in E.
  assert (Hassoc : forall a b c : string, a +:+ "_" +:+ b +:+ "_" +:+ c = (a +:+ "_" +:+ b) +:+ "_" +:+ c).
  { intros a b c. induction a as [|x a IH]; [done | exact (f_equal (String x) IH)]. }
  rewrite !Hassoc in E. apply last_field in E as [E Ec]; [|apply digits_plain..].
  apply last_field in E as [E Ep]; [|apply digits_plain..].
  apply (inj pretty) in Ec. apply (inj pretty) in Ep. done.
Qed.

Lemma temp_paths_distinct_witness :
  (make_temp_path "/tmp" 7 1 "lfring_bench_small").1 = "/tmp/lfring_bench_small_7_1" /\
  ("lfring_bench"%string = "lfring_bench"%string /\ 7%N = 7%N /\ 12%N = 12%N).
Proof. split; [reflexivity|]. by apply (temp_paths_distinct "/tmp" 7 7 12 12 "lfring_bench" "lfring_bench"). Defined.

(** ** Floating-point values *)

(** The bits of a [prec]-digit number with exponents below [emax]. *)
Definition ieee_bits (prec emax : Z) (f : spec_float) : Z :=
  let sign (s : bool) := if s then emax * 2 ^ prec else 0 in
  let infinity := (2 * emax - 1) * 2 ^ (prec - 1) in
  match f with
  | S754_zero s => sign s
  | S754_infinity s => sign s + infinity
  | S754_nan => infinity + 2 ^ (prec - 2)
  | S754_finite s m e =>
      let hidden := 2 ^ (prec - 1) in
      sign s + (if Z.pos m <? hidden then Z.pos m
                else (e - (3 - emax - prec) + 1) * hidden + (Z.pos m - hidden))
  end.

Definition double_bytes (f : spec_float) : list byte := le_enc 8 (ieee_bits 53 1024 f).
Definition float_bytes (f : spec_float) : list byte := le_enc 4 (ieee_bits 24 128 f).

(** A decimal literal [n / d] and an integer, rounded to nearest. *)
Definition double_lit (n d : Z) : spec_float :=
  SFdiv 53 1024 (binary_normalize 53 1024 n 0 false) (binary_normalize 53 1024 d 0 false).
Definition float_of_int (n : Z) : spec_float := binary_normalize 24 128 n 0 false.
Definition double_add (a b : spec_float) : spec_float := SFadd 53 1024 a b.

(** Literals from the sources and their encodings: 1.0, 0.1, 123.5 and 31.0f. *)
Example literal_bits :
  ieee_bits 53 1024 <$> [double_lit 1 1; double_lit 1 10; double_lit 1235 10] =
    [0x3FF0000000000000; 0x3FB999999999999A; 0x405EE00000000000] /\
  ieee_bits 24 128 (float_of_int 31) = 0x41F80000.
Proof. by vm_compute. Qed.

(** ** Payloads *)

Definition make_payload (size : nat) : list byte := replicate size x5a.

Record Tick := mkTick { seq : Z; value : spec_float }.

Definition tick_bytes (t : Tick) : list byte := le_enc 8 (seq t) ++ double_bytes (value t).

Record RobotState := mkRobot {
  tick : Z;
  id : Z;
  mode : Z;
  position : list spec_float;
  velocity : list spec_float;
  joints : list spec_float;
}.

Definition robot_bytes (r : RobotState) : list byte :=
  le_enc 8 (tick r) ++ le_enc 4 (id r) ++ le_enc 4 (mode r) ++
  concat (double_bytes <$> position r) ++ concat (double_bytes <$> velocity r) ++
  concat (float_bytes <$> joints r).

Definition zeros (n : nat) : list spec_float := replicate n (S754_zero false).

(** The robot state that the benchmarks send: value-initialised, then assigned. *)
Definition state_msg : RobotState :=
  mkRobot 123 7 2
    [double_lit 1 1; double_lit 2 1; double_lit 3 1]
    [double_lit 1 10; double_lit 2 10; double_lit 3 10]
    ((fun i => float_of_int (Z.of_nat i)) <$> List.seq 0 32).

(** The payloads of bench/benchmark_boost_lockfree.cpp. *)
Definition make_small_payload : list byte := replicate 32 x5a.

Definition make_robot_state : RobotState :=
  mkRobot 123 7 2
    [double_lit 1 1; double_lit 2 1; double_lit 3 1]
    [double_lit 1 10; double_lit 2 10; double_lit 3 10]
    ((fun i => float_of_int (Z.of_nat i)) <$> List.seq 0 32).

(** The one of the readers' benchmarks, whose vectors stay zero. *)
Definition seed_msg : RobotState :=
  mkRobot 123 7 2 (zeros 3) (zeros 3) ((fun i => float_of_int (Z.of_nat i)) <$> List.seq 0 32).

(** [msg.tick++]. *)
Definition next_tick (r : RobotState) : RobotState :=
  mkRobot (add64 (tick r) 1) (id r) (mode r) (position r) (velocity r) (joints r).

Record Command := mkCommand {
  x_pos : spec_float; y_pos : spec_float;
  x_vel : spec_float; y_vel : spec_float;
  yaw_rate : spec_float; pitch_angle : spec_float; body_height : spec_float;
  pan_dir : spec_float; tilt_dir : spec_float;
}.

Definition command_bytes (c : Command) : list byte :=
  concat (double_bytes <$> [x_pos c; y_pos c; x_vel c; y_vel c; yaw_rate c; pitch_angle c;
                            body_height c; pan_dir c; tilt_dir c]).

Definition make_command : Command :=
  let zero := S754_zero false in
  mkCommand zero zero (double_lit 1 1) (double_lit 5 10) (double_lit 1 10) zero (double_lit 3 10)
    zero zero.

(** [cmd.x_vel += 0.001]. *)
Definition next_command (c : Command) : Command :=
  mkCommand (x_pos c) (y_pos c) (double_add (x_vel c) (double_lit 1 1000)) (y_vel c) (yaw_rate c)
    (pitch_angle c) (body_height c) (pan_dir c) (tilt_dir c).

(** ** Sizes *)

Lemma length_concat_bytes {A} (f : A -> list byte) n l :
  (forall a, length (f a) = n) -> length (concat (f <$> l)) = (n * length l)%nat.
Proof.
  intros Hf. induction l as [|a l IH]; [simpl; lia|].
  rewrite fmap_cons. cbn [concat length]. rewrite length_app, Hf, IH. lia.
Qed.

Lemma length_double_bytes f : length (double_bytes f) = 8%nat.
Proof. apply length_le_enc. Qed.

Lemma length_float_bytes f : length (float_bytes f) = 4%nat.
Proof. apply length_le_enc. Qed.

(** [sizeof(Command)]. *)
Lemma length_command_bytes c : length (command_bytes c) = 72%nat.
Proof. unfold command_bytes. by rewrite (length_concat_bytes _ 8) by apply length_double_bytes. Qed.

(** [sizeof(RobotState)], for vectors of the declared lengths. *)
Definition robot_ok (r : RobotState) : Prop :=
  length (position r) = 3%nat /\ length (velocity r) = 3%nat /\ length (joints r) = 32%nat.

Lemma length_robot_bytes r : robot_ok r -> length (robot_bytes r) = 192%nat.
Proof.
  intros (Hp & Hv & Hj). unfold robot_bytes.
  rewrite !length_app, !length_le_enc, !(length_concat_bytes _ 8), (length_concat_bytes _ 4), Hp, Hv, Hj
    by (apply length_double_bytes || apply length_float_bytes). done.
Qed.

Lemma next_tick_ok r : robot_ok r -> robot_ok (next_tick r).
Proof. done. Qed.
