(* ===== verification/Workload.v ===== *)
(** * Closed-loop clients

    The benchmark programs drive a queue from several threads, each of which
    repeats one call a fixed number of times:

    <<
    for (auto _ : state)
      for (int i = 0; i < inner; ++i)
        while (!call(...)) {}
    >>

    [loop] is the state of such a thread; [bnext] interleaves the accesses of all
    threads, a thread starting the call its loop asks for.  The results count the
    successful calls of a run: [finished_successes]. *)

From Stdlib Require Import ZArith Lia.
From stdpp Require Import base list numbers gmap.
From S2P Require Import Prelude Memory Layout Prog.

Lemma sum_list_lt {A} (f g : A -> nat) l i :
  i ∈ l -> (forall j, (f j <= g j)%nat) -> (f i < g i)%nat -> (sum_list (f <$> l) < sum_list (g <$> l))%nat.
Proof.
  intros Hi Hle Hlt. assert (Hall : forall l', (sum_list (f <$> l') <= sum_list (g <$> l'))%nat).
  { induction l' as [|j l' IH]; [done|]. specialize (Hle j). rewrite !fmap_cons. simpl. lia. }
  induction Hi as [i l|i j l Hi IH]; rewrite !fmap_cons; simpl; [specialize (Hall l) | specialize (Hle j); specialize (IH Hlt)]; lia.
Qed.

(** ** Results

    All results of a program satisfy [P]; then so do the logged results of the
    calls. *)

Fixpoint results {A} (P : A -> Prop) (p : prog A) : Prop :=
  match p with
  | Ret a => P a
  | Load _ k | FetchAdd _ _ k | Now k => forall v, results P (k v)
  | Store _ _ k | Await _ _ k | Write _ _ k | WakeAll k => results P k
  | Cas _ _ _ _ k => forall b, results P (k b)
  | Read _ _ k => forall bs, results P (k bs)
  | Undefined => True
  end.

Lemma results_pmap {A B} (f : A -> B) (P : B -> Prop) p : (forall a, P (f a)) -> results P (pmap f p).
Proof. intros Hf. induction p; simpl; auto. Qed.

Section Results.
Context {Op R : Type} (body : Op -> prog (option R)) (role : nat -> Op -> bool).
Context (allowed : shared -> shared -> Prop) (Q : Op -> R -> Prop).
Definition result_ok (o : Op) (x : option R) : Prop := match x with Some r => Q o r | None => True end.
Context (Hbody : forall o, results (result_ok o) (body o)).

Definition results_ok (c : config) : Prop :=
  Forall (fun e => Q e.2.1 e.2.2) (c_log c) /\
  forall t o p, c_thr c !! t = Some (o, p) -> results (result_ok o) p.

Lemma results_step c c' : results_ok c -> cstep body role allowed c c' -> results_ok c'.
Proof.
  destruct c as [s thr log f]. intros [Hl Ht] [a Ha _]. simpl in *.
  assert (Hins : forall t o p, results (result_ok o) p -> forall t' o' p',
    <[t := (o, p)]> thr !! t' = Some (o', p') -> results (result_ok o') p').
  { intros t o p Hp t' o' p' Hlk. apply lookup_insert_Some in Hlk as [[_ [= <- <-]]|[_ Hlk]]; eauto. }
  assert (Hdel : forall t t' o' p', delete t thr !! t' = Some (o', p') -> results (result_ok o') p').
  { intros t t' o' p' Hlk. apply lookup_delete_Some in Hlk as [_ Hlk]. eauto. }
  destruct a as [t o | t spur | d]; simpl in Ha.
  - destruct (thr !! t); [done|]. destruct (role t o); [|done]. injection Ha as <-. split; [done|]. simpl. eauto.
  - destruct (thr !! t) as [[o p]|] eqn:E; [|done]. pose proof (Ht _ _ _ E) as Hp.
    destruct p as [[r|]| | | | | | | | | |]; simpl in Hp;
      [injection Ha as <-; split; [apply Forall_app; split; [done | by apply Forall_singleton] | simpl; eauto]
      |injection Ha as <-; split; [done | simpl; eauto]|..];
      simpl in Ha; repeat case_match; simplify_eq; (split; [done | simpl; eauto]).
  - destruct (0 <=? d); [|done]. by injection Ha as <-.
Qed.

Lemma creach_results s c : creach body role allowed s c -> Forall (fun e => Q e.2.1 e.2.2) (c_log c).
Proof.
  intros Hr. assert (Hc : results_ok c); [|apply Hc]. revert c Hr. unfold creach.
  apply rtc_ind_r; [split; [constructor | done]|]. intros c1 c2 _ Hs H1. by eapply results_step.
Qed.

Lemma tlog_results s c t : creach body role allowed s c -> Forall (fun e => Q e.1 e.2) (tlog t (c_log c)).
Proof.
  intros Hr%creach_results. unfold tlog. apply Forall_fmap, Forall_forall. intros e He.
  apply list_elem_of_filter in He as [_ He]. rewrite Forall_forall in Hr. by apply Hr.
Qed.
End Results.

Section Loops.
Context {Op R L : Type}.
(** The call a thread makes with its local variables, and what a result does to
    them: whether the call succeeded (the [while] loop ends), and the variables
    afterwards. *)
Context (call : L -> Op) (ret : L -> R -> bool * L).

(** [iterations] left, the bound and the index of the inner loop. *)
Record loop := Loop { iterations : nat; inner : nat; index : nat; locals : L }.

Definition next_call (d : loop) : option Op :=
  match iterations d with
  | O => None
  | S _ => if (index d <? inner d)%nat then Some (call (locals d)) else None
  end.

Definition returned (d : loop) (r : R) : loop :=
  let '(ok, l) := ret (locals d) r in
  if negb ok then Loop (iterations d) (inner d) (index d) l
  else if (S (index d) <? inner d)%nat then Loop (iterations d) (inner d) (S (index d)) l
  else Loop (pred (iterations d)) (inner d) 0 l.

(** The thread after a history of completed calls. *)
Definition replay (hist : list (Op * R)) (d : loop) : loop :=
  foldl (fun d e => returned d e.2) d hist.

(** The history is one of this thread. *)
Fixpoint obeys (d : loop) (hist : list (Op * R)) : Prop :=
  match hist with
  | [] => True
  | (o, r) :: hist => next_call d = Some o /\ obeys (returned d r) hist
  end.

(** How many of its calls succeeded, and how many are still to succeed. *)
Fixpoint successes (d : loop) (hist : list (Op * R)) : nat :=
  match hist with
  | [] => 0
  | (_, r) :: hist =>
      ((if (ret (locals d) r).1 then 1 else 0) + successes (returned d r) hist)%nat
  end.

Definition remaining_calls (d : loop) : nat := (iterations d * inner d - index d)%nat.

(** The index of a loop between calls. *)
Definition in_loop (d : loop) : Prop := (index d < inner d \/ index d = 0)%nat.

Lemma returned_locals d r : locals (returned d r) = (ret (locals d) r).2.
Proof. unfold returned. destruct (ret _ _) as [[] l]; simpl; [|done]. by case_if. Qed.

Lemma replay_snoc hist o r d : replay (hist ++ [(o, r)]) d = returned (replay hist d) r.
Proof. unfold replay. by rewrite foldl_app. Qed.

Lemma obeys_snoc hist o r d :
  obeys d hist -> next_call (replay hist d) = Some o -> obeys d (hist ++ [(o, r)]).
Proof.
  revert d. induction hist as [|[o' r'] hist IH]; intros d; simpl; [done|].
  intros [? ?] ?. split; [done|]. by apply IH.
Qed.

Lemma next_call_Some d o :
  next_call d = Some o -> (0 < iterations d)%nat /\ (index d < inner d)%nat /\ o = call (locals d).
Proof.
  unfold next_call. destruct (iterations d); [done|]. destruct (_ <? _)%nat eqn:E; [|done].
  apply Nat.ltb_lt in E. intros [= <-]. split_and!; [lia | done | done].
Qed.

Lemma next_call_None d : in_loop d -> next_call d = None <-> remaining_calls d = 0%nat.
Proof.
  unfold next_call, remaining_calls, in_loop. intros Hi.
  destruct (iterations d) as [|n]; [by simpl|]. simpl.
  destruct (index d <? inner d)%nat eqn:E; [apply Nat.ltb_lt in E | apply Nat.ltb_ge in E].
  - split; [done | lia].
  - split; [|done]. intros _. assert (inner d = 0%nat) as -> by lia. lia.
Qed.

Lemma returned_in_loop d r : in_loop d -> in_loop (returned d r).
Proof.
  unfold returned, in_loop. destruct (ret (locals d) r) as [[] l]; simpl; [|done].
  destruct (S (index d) <? inner d)%nat eqn:E; simpl; [apply Nat.ltb_lt in E|]; lia.
Qed.

Lemma replay_in_loop hist d : in_loop d -> in_loop (replay hist d).
Proof.
  revert d. induction hist as [|[o r] hist IH]; intros d; simpl; [done|]. intros. by apply IH, returned_in_loop.
Qed.

Lemma returned_remaining d o r :
  next_call d = Some o ->
  (remaining_calls (returned d r) + (if (ret (locals d) r).1 then 1 else 0) = remaining_calls d)%nat.
Proof.
  intros (Hn & Hi & _)%next_call_Some. unfold returned, remaining_calls.
  destruct (ret (locals d) r) as [[] l]; simpl; [|lia].
  destruct (iterations d) as [|n]; [lia|]. simpl.
  destruct (S (index d) <? inner d)%nat eqn:E; simpl; [apply Nat.ltb_lt in E | apply Nat.ltb_ge in E]; lia.
Qed.

Lemma replay_remaining hist d :
  obeys d hist -> (remaining_calls (replay hist d) + successes d hist = remaining_calls d)%nat.
Proof.
  revert d. induction hist as [|[o r] hist IH]; intros d; simpl; [lia|].
  intros [Hc Ho]. apply IH in Ho. apply (returned_remaining _ _ r) in Hc. lia.
Qed.

(** ** Runs *)

Context `{EqDecision Op} (body : Op -> prog (option R)) (role : nat -> Op -> bool).
Context (allowed : shared -> shared -> Prop).
(** The threads of the benchmark. *)
Context (bench : list loop).

Definition thread_state (t : nat) (c : config) : option loop :=
  replay (tlog t (c_log c)) <$> bench !! t.

Definition bnext (a : act) (c : config) : option config :=
  match a with
  | AStart t op =>
      match thread_state t c with
      | Some d => if decide (next_call d = Some op) then cnext body role a c else None
      | None => None
      end
  | _ => cnext body role a c
  end.

Inductive bstep (c c' : config) : Prop :=
| bstep_intro a : bnext a c = Some c' -> allowed (c_sh c) (c_sh c') -> bstep c c'.

Definition breach (s : shared) : config -> Prop := rtc bstep (init_config s).

(** Every thread has left its loops. *)
Definition finished (c : config) : bool :=
  forallb (fun t => match thread_state t c, c_thr c !! t with
                    | Some d, None => match next_call d with None => true | Some _ => false end
                    | _, _ => false
                    end) (seq 0 (length bench)).

Lemma bnext_cnext a c c' : bnext a c = Some c' -> cnext body role a c = Some c'.
Proof. destruct a; simpl; [|done..]. destruct (thread_state _ _); [|done]. by case_decide. Qed.

Lemma breach_creach s c : breach s c -> creach body role allowed s c.
Proof.
  apply rtc_subrel. intros c1 c2 [a Ha Hal]. econstructor; [by apply bnext_cnext | done].
Qed.

(** Every thread follows its loop. *)
Definition thread_obeys (c : config) (t : nat) : Prop :=
  match bench !! t with
  | Some d => obeys d (tlog t (c_log c)) /\
      forall o p, c_thr c !! t = Some (o, p) -> next_call (replay (tlog t (c_log c)) d) = Some o
  | None => tlog t (c_log c) = [] /\ c_thr c !! t = None
  end.

(** A step of thread [t] that only changes what it is executing. *)
Lemma thread_obeys_same thr thr' log s s' f f' t t' :
  (forall o p, thr' !! t = Some (o, p) -> exists p', thr !! t = Some (o, p')) ->
  (thr !! t = None -> thr' !! t = None) ->
  thread_obeys (Config s thr log f) t' -> (t' <> t -> thr' !! t' = thr !! t') ->
  thread_obeys (Config s' thr' log f') t'.
Proof.
  intros Hs Hn Ho He. unfold thread_obeys in *. simpl in *.
  destruct (decide (t' = t)) as [->|Hne]; [|by rewrite He].
  destruct (bench !! t) as [d|]; destruct Ho as [H1 H2]; split; auto.
  intros o p Hp. destruct (Hs o p Hp) as [p' Hp']. eauto.
Qed.

Lemma bstep_obeys c c' : (forall t, thread_obeys c t) -> bstep c c' -> forall t, thread_obeys c' t.
Proof.
  intros Ho [a Ha _] t'. destruct c as [s thr log f]. destruct a as [t o | t spur | d].
  - simpl in Ha. unfold thread_state in Ha. simpl in Ha.
    destruct (bench !! t) as [d|] eqn:Eb; [|done]. simpl in Ha. case_decide as Hd; [|done].
    destruct (thr !! t) eqn:E; [done|]. destruct (role t o); [|done]. injection Ha as <-.
    specialize (Ho t'). unfold thread_obeys in *. simpl in *. destruct (decide (t' = t)) as [->|Hne].
    + rewrite Eb in *. destruct Ho as [? _]. split; [done|]. rewrite lookup_insert_eq. by intros o' p [= <- _].
    + by rewrite lookup_insert_ne.
  - simpl in Ha. destruct (thr !! t) as [[o p]|] eqn:E; [|done].
    assert (Hsame : forall s' thr' f', c' = Config s' thr' log f' ->
        (exists p', thr' = <[t:=(o, p')]> thr) \/ thr' = delete t thr -> thread_obeys c' t').
    { intros s' thr' f' -> Ht. eapply (thread_obeys_same thr _ _ _ _ _ _ t); [| | apply Ho |].
      - intros o' p'. destruct Ht as [[q ->]| ->]; [rewrite lookup_insert_eq | by rewrite lookup_delete_eq].
        intros [= <- <-]. eauto.
      - by rewrite E.
      - intros Hne. destruct Ht as [[q ->]| ->]; [by rewrite lookup_insert_ne | by rewrite lookup_delete_ne]. }
    destruct p as [[r|]| | | | | | | | | |].
    1: { injection Ha as <-. pose proof (Ho t) as Hot. specialize (Ho t'). unfold thread_obeys in *. simpl in *.
      rewrite tlog_app. destruct (decide (t' = t)) as [->|Hne].
      - rewrite tlog_one_eq. destruct (bench !! t) as [d|]; [|destruct Hot; congruence].
        destruct Hot as [H1 H2]. split; [by apply obeys_snoc, (H2 _ _ E)|]. by rewrite lookup_delete_eq.
      - by rewrite tlog_one_ne, app_nil_r, lookup_delete_ne by done. }
    1: { injection Ha as <-. eapply Hsame; eauto. }
    all: destruct (step1 spur s _); [|done|]; injection Ha as <-; eapply Hsame; eauto.
  - simpl in Ha. destruct (0 <=? d); [|done]. injection Ha as <-. exact (Ho t').
Qed.

Lemma breach_obeys s c : breach s c -> forall t, thread_obeys c t.
Proof.
  assert (Hall : forall c0 c1, rtc bstep c0 c1 ->
    (forall t, thread_obeys c0 t) -> forall t, thread_obeys c1 t).
  { induction 1 as [|c1 c2 c3 Hs _ IH]; [done|]. intros H1. apply IH. by eapply bstep_obeys. }
  intros Hr. apply (Hall _ _ Hr). intros t. unfold thread_obeys. simpl. by destruct (bench !! t).
Qed.

(** In a finished run every thread is between calls and has succeeded as often
    as its loops say. *)
Lemma finished_successes s c t d :
  breach s c -> finished c = true -> bench !! t = Some d -> in_loop d ->
  c_thr c !! t = None /\ obeys d (tlog t (c_log c)) /\
  successes d (tlog t (c_log c)) = remaining_calls d.
Proof.
  intros Hr Hf Hb Hi. pose proof (breach_obeys s c Hr t) as Ho. unfold thread_obeys in Ho.
  rewrite Hb in Ho. destruct Ho as [Ho _].
  unfold finished in Hf. rewrite forallb_forall in Hf. specialize (Hf t).
  unfold thread_state in Hf. rewrite Hb in Hf. simpl in Hf.
  specialize (Hf ltac:(apply in_seq; apply lookup_lt_Some in Hb; lia)).
  destruct (c_thr c !! t); [done|]. split_and!; [done | done |].
  pose proof (replay_remaining _ _ Ho) as Hrem.
  destruct (next_call (replay (tlog t (c_log c)) d)) eqn:Hn; [done|].
  apply next_call_None in Hn; [lia | by apply replay_in_loop].
Qed.

Lemma other_threads_idle s c t :
  breach s c -> bench !! t = None -> tlog t (c_log c) = [] /\ c_thr c !! t = None.
Proof. intros Hr Hb. pose proof (breach_obeys s c Hr t) as Ho. unfold thread_obeys in Ho. by rewrite Hb in Ho. Qed.

(** *** Progress

    Where the shared state is unrestricted, and as long as some thread's next call
    would succeed if it ran alone, the run can be completed. *)

Section Progress.
Context (Hall : forall s1 s2, allowed s1 s2).

Lemma solo_step t o thr log f p p1 s s1 :
  step1 false s p = Step s1 p1 ->
  bstep (Config s (<[t := (o, p)]> thr) log f) (Config s1 (<[t := (o, p1)]> thr) log f).
Proof.
  intros Hs. apply (bstep_intro _ _ (AStep t false)); [|done]. simpl. rewrite lookup_insert_eq.
  destruct p as [a| | | | | | | | | |]; [done|..]; rewrite Hs; by rewrite insert_insert_eq.
Qed.

Lemma eval_steps t o thr log f r p s s' :
  thr !! t = None -> eval [] s p = Done (Some r) s' [] ->
  rtc bstep (Config s (<[t := (o, p)]> thr) log f) (Config s' thr (log ++ [(t, (o, r))]) f).
Proof.
  intros Ht. revert s.
  induction p as [a|g k IH|g v k IH|w g e d k IH|g v k IH|g v k IH|off n k IH|off bs k IH|k IH|k IH|];
    intros s; cbn [eval]; intros He; try done;
    try (eapply rtc_l; [by apply solo_step | by apply IH]).
  - injection He as -> ->. apply rtc_once, (bstep_intro _ _ (AStep t false)); [|done]. simpl.
    by rewrite lookup_insert_eq, delete_insert_id.
  - replace (match w with true | _ => (false, []) end) with (false, @nil bool) in He by (by destruct w).
    rewrite andb_false_r in He.
    destruct ((load g s =? e) && negb false) eqn:E; (eapply rtc_l; [apply solo_step; simpl;
      rewrite andb_false_r, E; reflexivity | by apply IH]).
  - destruct (load g s =? v) eqn:E; [|done].
    eapply rtc_l; [apply solo_step; simpl; by rewrite E | by apply IH].
  - destruct (mem_read (ring s) off n) as [bs|] eqn:E; [|done].
    eapply rtc_l; [apply solo_step; simpl; by rewrite E | by apply IH].
  - destruct (mem_write (ring s) off bs) as [m|] eqn:E; [|done].
    eapply rtc_l; [apply solo_step; simpl; by rewrite E | by apply IH].
Qed.

(** Accesses of a thread that is in the middle of a call. *)
Lemma accesses_run t m c c' : crun body role (steps t m) c = Some c' -> rtc bstep c c'.
Proof.
  revert c. induction m as [|m IH]; intros c; [intros [= <-]; apply rtc_refl|].
  unfold steps. cbn [replicate crun]. destruct (cnext body role (AStep t false) c) as [c1|] eqn:E; [|done].
  intros Hc. eapply rtc_l; [|by apply IH]. by apply (bstep_intro _ _ (AStep t false)).
Qed.

(** The next call of a thread, while nothing else is running. *)
Lemma call_alone t c d o r s' :
  thread_state t c = Some d -> next_call d = Some o -> role t o = true -> c_thr c !! t = None ->
  eval [] (c_sh c) (body o) = Done (Some r) s' [] ->
  rtc bstep c (Config s' (c_thr c) (c_log c ++ [(t, (o, r))]) (c_fault c)).
Proof.
  intros Hd Ho Hrole Hi He. destruct c as [s thr log f]. simpl in *.
  eapply rtc_l; [|by apply (eval_steps t o thr log f r (body o) s s')].
  apply (bstep_intro _ _ (AStart t o)); [|done]. cbn [bnext]. rewrite Hd, decide_True by done.
  simpl. by rewrite Hi, Hrole.
Qed.

(** The calls that have to succeed before the run is finished. *)
Definition pending (t : nat) (c : config) : nat :=
  match thread_state t c with Some d => remaining_calls d | None => 0%nat end.

Lemma pending_call t c d o r s' t' :
  thread_state t c = Some d -> next_call d = Some o -> (ret (locals d) r).1 = true ->
  let c' := Config s' (c_thr c) (c_log c ++ [(t, (o, r))]) (c_fault c) in
  (pending t' c' <= pending t' c)%nat /\ (pending t c' < pending t c)%nat.
Proof.
  intros Hd Ho Hok c'. unfold pending, thread_state in *. unfold c'. simpl.
  assert (Ht : (match replay (tlog t (c_log c ++ [(t, (o, r))])) <$> bench !! t with
    Some d => remaining_calls d | None => 0%nat end < remaining_calls d)%nat).
  { destruct (bench !! t) as [d0|]; [|done]. simpl in *. injection Hd as <-.
    rewrite tlog_app, tlog_one_eq, replay_snoc.
    pose proof (returned_remaining _ _ r Ho) as Hr. rewrite Hok in Hr. lia. }
  rewrite Hd. split; [|done]. destruct (decide (t' = t)) as [-> | Hne]; [rewrite Hd; lia|].
  by rewrite tlog_app, (tlog_one_ne t' t), app_nil_r by done.
Qed.

(** A condition under which every run can be completed from where no call is
    under way: some thread's next call succeeds when it runs alone. *)
Lemma can_finish s c :
  (forall c1, breach s c1 -> c_thr c1 = ∅ -> finished c1 = false ->
     exists t d o r s', (t < length bench)%nat /\ thread_state t c1 = Some d /\ next_call d = Some o /\
       role t o = true /\ eval [] (c_sh c1) (body o) = Done (Some r) s' [] /\ (ret (locals d) r).1 = true) ->
  breach s c -> c_thr c = ∅ -> exists c', rtc bstep c c' /\ c_thr c' = ∅ /\ finished c' = true.
Proof.
  intros Hprog. remember (sum_list ((fun t => pending t c) <$> seq 0 (length bench))) as n eqn:Hn.
  revert c Hn. induction (lt_wf n) as [n _ IH]. intros c Hn Hr Hi.
  destruct (finished c) eqn:Hf; [by exists c|].
  destruct (Hprog c Hr Hi Hf) as (t & d & o & r & s' & Hlt & Hd & Ho & Hrole & He & Hok).
  pose proof (call_alone t c d o r s' Hd Ho Hrole ltac:(by rewrite Hi) He) as Hc.
  set (c1 := Config s' _ _ _) in Hc.
  destruct (IH (sum_list ((fun t => pending t c1) <$> seq 0 (length bench)))) with (c := c1)
    as (c' & Hc' & ?); [| done | unfold breach in *; by etrans | done |].
  - subst n. apply sum_list_lt with (i := t); [apply elem_of_seq; lia | |];
      intros; by eapply pending_call.
  - exists c'. split; [by etrans | done].
Qed.
End Progress.

(** *** Schedules *)

(** A run given by turns: thread [t] starts its next call if it is between calls,
    and performs [n] accesses.  All changes of the shared state pass [chk]. *)
Fixpoint brun (chk : shared -> shared -> bool) (acts : list act) (c : config) : option config :=
  match acts with
  | [] => Some c
  | a :: acts =>
      match bnext a c with
      | Some c' => if chk (c_sh c) (c_sh c') then brun chk acts c' else None
      | None => None
      end
  end.

Definition begin_call (t : nat) (c : config) : list act :=
  match c_thr c !! t, thread_state t c with
  | None, Some d => match next_call d with Some o => [AStart t o] | None => [] end
  | _, _ => []
  end.

Fixpoint turns (chk : shared -> shared -> bool) (l : list (nat * nat)) (c : config) : option config :=
  match l with
  | [] => Some c
  | (t, n) :: l =>
      match brun chk (begin_call t c ++ steps t n) c with
      | Some c => turns chk l c
      | None => None
      end
  end.

Lemma brun_steps chk acts c c' :
  (forall s1 s2, chk s1 s2 = true -> allowed s1 s2) -> brun chk acts c = Some c' -> rtc bstep c c'.
Proof.
  intros Hchk. revert c. induction acts as [|a acts IH]; intros c; simpl; [intros [= <-]; apply rtc_refl|].
  destruct (bnext a c) as [c1|] eqn:E; [|done]. case_if; [|done].
  intros H%IH. eapply rtc_l; [|done]. econstructor; eauto.
Qed.

Lemma turns_breach chk l s c :
  (forall s1 s2, chk s1 s2 = true -> allowed s1 s2) -> turns chk l (init_config s) = Some c -> breach s c.
Proof.
  intros Hchk. unfold breach. generalize (init_config (Op := Op) (R := R) s) as c0.
  induction l as [|[t n] l IH]; intros c0; simpl; [intros [= <-]; apply rtc_refl|].
  destruct (brun chk _ c0) as [c1|] eqn:E; [|done]. intros H%IH.
  apply brun_steps in E; [|done]. by etrans.
Qed.
End Loops.

Arguments Loop {L} iterations inner index locals.
Arguments loop L : clear implicits.
