(* ===== verification/Bench.v ===== *)
(** * bench/benchmark_ring_buffer.cpp: the ring benchmarks

    The benchmark programs are clients of every queue of the library: threads
    that retry a push or a pop until it succeeds, a fixed number of times.  Each
    benchmark function gives the loops of its threads ([Workload]); the calls run
    in the interleavings of the rings' own models.  [LockedQueue] is the
    mutex-based queue the rings are measured against, and serves as a reference
    here. *)

From Stdlib Require Import ZArith Lia Strings.Byte.
From stdpp Require Import base list numbers gmap strings.
From S2P Require Import Prelude Memory Layout Prog Records Owner SpscRing RingWriter OneConsumer MpscRing MpmcRing.
From S2P Require Import Solo TypedMessage BenchData Workload.

(** ** The reference queue *)

(** [std::queue] under a mutex: each call is one step. *)
Definition enqueue (data : list byte) (queue : list (list byte)) : list (list byte) :=
  queue ++ [data].

Definition dequeue (out : list byte) (queue : list (list byte))
  : bool * list byte * list (list byte) :=
  match queue with
  | [] => (false, out, [])
  | front :: queue => (true, front, queue)
  end.

(** The calls of a ring's client, on the locked queue. *)
Definition locked_call (o : op) (queue : list (list byte)) : bool * list byte * list (list byte) :=
  match o with
  | OPush data size _ => (true, [], enqueue (push_payload data size) queue)
  | OPop out _ _ => dequeue out queue
  end.

Fixpoint locked_calls (ops : list op) (queue : list (list byte)) : list (bool * list byte) :=
  match ops with
  | [] => []
  | o :: ops => let '(ok, out, queue) := locked_call o queue in (ok, out) :: locked_calls ops queue
  end.

(** What a client of a ring sees of a result: success, and the vector. *)
Definition seen_result (r : res) : bool * list byte :=
  match r with RPush ok => (ok, []) | RPop p => (p_ok p, p_out p) end.

(** Messages of one size, popped into a vector that is not longer. *)
Definition sized (n : nat) (o : op) : bool :=
  match o with
  | OPush (Some data) size _ => (Z.to_nat size =? n)%nat && (n <=? length data)%nat
  | OPush None _ _ => false
  | OPop out _ _ => (length out <=? n)%nat
  end.

Lemma fill_exact n out payload : length payload = n -> (length out <= n)%nat -> fill_out out payload = payload.
Proof. intros Hp Ho. rewrite fill_out_eq, drop_ge by lia. apply app_nil_r. Qed.

Lemma queue_locked n a ops rs b :
  queue_steps a ops rs b -> forallb (sized n) ops = true ->
  Forall (fun x => length (m_payload x) = n) a.1 -> Forall (fun r => r <> RPush false) rs ->
  seen_result <$> rs = locked_calls ops (m_payload <$> a.1).
Proof.
  induction 1 as [a|a o r b ops rs c Hs _ IH]; intros Hn Hq Hr; [done|].
  cbn [forallb] in Hn. apply andb_prop in Hn as [Ho Hn]. apply Forall_cons in Hr as [Hr0 Hr].
  rewrite fmap_cons. cbn [locked_calls].
  destruct Hs as [q m data size type|q m data size type|q m out type sq]; [|done|]; cbn [fst] in *.
  - destruct data as [data|]; [|done]. cbn [sized] in Ho. cbn [locked_call seen_result].
    apply andb_prop in Ho as [H1%Nat.eqb_eq H2%Nat.leb_le]. rewrite IH; auto.
    + unfold enqueue. by rewrite fmap_app.
    + apply Forall_app. split; [done|]. apply Forall_singleton. cbn -[take Z.to_nat]. rewrite length_take. lia.
  - cbn [sized] in Ho. apply Nat.leb_le in Ho.
    destruct q as [|x q]; cbn [locked_call fmap list_fmap dequeue tail] in *; rewrite IH; auto.
    + apply Forall_cons in Hq as [Hx _]. simpl. by rewrite (fill_exact n).
    + by apply Forall_cons in Hq as [_ Hq].
Qed.

(** C33: on messages of one size a ring behaves like the mutex-protected queue it
    replaces: a sequence of calls on a fresh ring of any of the three kinds runs
    to completion and, if no push is refused, every call returns what it would
    return on a [LockedQueue], popped bytes included. *)
Theorem ring_equals_locked_queue cap k ops n s :
  cap_ok cap -> ctl s = mkControl 0 0 0 0 0 -> Z.of_nat (length (ring s)) = cap ->
  forallb op_ok ops = true -> forallb (sized n) ops = true ->
  idx_ok cap (2 * cap * Z.of_nat (length ops)) ->
  exists rs s', seq_calls k cap ops s = Some (rs, s') /\
    (Forall (fun r => r <> RPush false) rs -> seen_result <$> rs = locked_calls ops []).
Proof.
  intros Hc Hctl Hl Hok Hn Hidx.
  destruct (seq_calls_ok cap Hc k ops s 0 0 0 []) as (rs & s' & H & T & m & q & E & Hss & _); auto.
  { by apply quiet_fresh. }
  exists rs, s'. split; [done|]. intros Hr. by apply (queue_locked n _ _ _ _ Hss).
Qed.

Definition locked_demo : list op :=
  [OPush (Some [x01; x02]) 2 7; OPop [] 0 None; OPop [x09] 0 (Some 0); OPush (Some [x03; x04]) 2 8;
   OPush (Some [x05; x06]) 2 9; OPop [x01; x02] 7 None].

Lemma ring_equals_locked_queue_witness :
  locked_calls locked_demo [] =
    [(true, []); (true, [x01; x02]); (false, [x09]); (true, []); (true, []); (true, [x03; x04])] /\
  exists rs s', seq_calls MPMC 64 locked_demo ring64 = Some (rs, s') /\
    (Forall (fun r => r <> RPush false) rs -> seen_result <$> rs = locked_calls locked_demo []).
Proof.
  split; [reflexivity|].
  apply (ring_equals_locked_queue 64 MPMC locked_demo 2 ring64 cap_ok_64); try reflexivity.
  left. simpl. lia.
Defined.

(** ** The threads of the ring benchmarks *)

#[export] Instance op_eq_dec : EqDecision op.
Proof. solve_decision. Defined.

(** The local variables of a thread: the consumer's vector and type, or its typed
    reader and value; the producer's payloads and which is next. *)
Inductive rlocals :=
| Popper (out : list byte) (type : Z)
| TypedPopper (C : MessageCodec (list byte)) (expected_type : Z) (reader : Reader) (out : list byte)
| Pusher (payloads : list (list byte)) (next : nat) (type : Z).

(** [ring.try_pop(out, type)], [reader.try_pop_typed(expected_type, out)] and
    [ring.try_push(payload, type)]. *)
Definition ring_call (l : rlocals) : op :=
  match l with
  | Popper out type => OPop out type None
  | TypedPopper _ _ r _ => OPop (buffer r) (rtype r) (Some (rsequence r))
  | Pusher payloads next type =>
      let payload := payloads !!! next in
      OPush (Some payload) (u32 (Z.of_nat (length payload))) type
  end.

Definition ring_return (l : rlocals) (r : res) : bool * rlocals :=
  match l, r with
  | Popper _ _, RPop p => (p_ok p, Popper (p_out p) (p_type p))
  | TypedPopper C ty r out, RPop p =>
      let '(ok, out, r) := typed_result C ty out (reader_result r p) in (ok, TypedPopper C ty r out)
  | Pusher payloads next type, RPush ok =>
      (ok, Pusher payloads (if ok then Nat.modulo (next + 1) (length payloads) else next) type)
  | _, _ => (false, l)
  end.

(** *** The benchmark functions: the loops of thread [thread_index] *)

Section Functions.
Context (iterations threads : nat).
Let producers : nat := (threads - 1)%nat.

Definition BM_Ring_MPSC_Small (thread_index : nat) : loop rlocals :=
  let payload := make_payload 32 in
  if (thread_index =? 0)%nat
  then Loop iterations producers 0 (Popper [] 0)
  else Loop iterations 1 0 (Pusher [payload] 0 1).

Definition BM_Typed_MPSC_Trivial (thread_index : nat) : loop rlocals :=
  let tick := mkTick 42 (double_lit 1235 10) in
  if (thread_index =? 0)%nat
  then Loop iterations producers 0 (TypedPopper (pod_codec 16) 77 reader0 (replicate 16 x00))
  else Loop iterations 1 0 (Pusher [tick_bytes tick] 0 77).

Definition BM_Typed_MPSC_String (thread_index : nat) : loop rlocals :=
  let payload := replicate 256 x78 in
  if (thread_index =? 0)%nat
  then Loop iterations producers 0 (TypedPopper string_codec 88 reader0 [])
  else Loop iterations 1 0 (Pusher [payload] 0 88).

Definition BM_Typed_MPSC_RobotState (thread_index : nat) : loop rlocals :=
  if (thread_index =? 0)%nat
  then Loop iterations producers 0 (TypedPopper (pod_codec 192) 78 reader0 (replicate 192 x00))
  else Loop iterations 1 0 (Pusher [robot_bytes state_msg] 0 78).

Definition BM_Typed_MPSC_RobotState_Burst (burst thread_index : nat) : loop rlocals :=
  if (thread_index =? 0)%nat
  then Loop iterations (producers * burst) 0
         (TypedPopper (pod_codec 192) 78 reader0 (replicate 192 x00))
  else Loop iterations burst 0 (Pusher [robot_bytes state_msg] 0 78).

Definition BM_Ring_MPSC_Variable (thread_index : nat) : loop rlocals :=
  let sizes := [64; 256; 1024; 4096]%nat in
  if (thread_index =? 0)%nat
  then Loop iterations producers 0 (Popper [] 0)
  else
    let payloads := make_payload <$> sizes in
    let index := Nat.modulo thread_index (length sizes) in
    Loop iterations 1 0 (Pusher payloads index 2).

(** The benchmarks with one producer are skipped with an error unless there are
    exactly two threads. *)
Definition BM_Ring_SPSC_Small (thread_index : nat) : option (loop rlocals) :=
  let payload := make_payload 32 in
  if negb (threads =? 2)%nat then None else
  Some (if (thread_index =? 0)%nat
        then Loop iterations 1 0 (Popper [] 0)
        else Loop iterations 1 0 (Pusher [payload] 0 1)).

Definition BM_Typed_SPSC_RobotState (thread_index : nat) : option (loop rlocals) :=
  if negb (threads =? 2)%nat then None else
  Some (if (thread_index =? 0)%nat
        then Loop iterations 1 0 (TypedPopper (pod_codec 192) 78 reader0 (replicate 192 x00))
        else Loop iterations 1 0 (Pusher [robot_bytes state_msg] 0 78)).

(** [SetBenchmarkCounters]: what thread [thread_index] reports as items
    processed. *)
Definition SetBenchmarkCounters (thread_index : nat) (total_items : Z) : option Z :=
  if negb (thread_index =? 0)%nat then None else Some total_items.
End Functions.

(** ** What the threads do *)

(** The payloads a producer sends, in order. *)
Fixpoint stream (type : Z) (payloads : list (list byte)) (next n : nat) : list (Z * list byte) :=
  match n with
  | O => []
  | S n => (type, payloads !!! next) :: stream type payloads (Nat.modulo (next + 1) (length payloads)) n
  end.

Lemma length_stream type payloads next n : length (stream type payloads next n) = n.
Proof. revert next. induction n as [|n IH]; intros next; simpl; [done|]. by rewrite IH. Qed.

(** The values a consumer sees: the contents of its [out] after each success. *)
Definition out_of (l : rlocals) : list byte :=
  match l with Popper out _ | TypedPopper _ _ _ out => out | Pusher _ _ _ => [] end.

Abbreviation rreturned := (returned ring_return).
Abbreviation rsuccesses := (successes ring_return).
Abbreviation robeys := (obeys ring_call ring_return).

Fixpoint received (d : loop rlocals) (hist : list (op * res)) : list (list byte) :=
  match hist with
  | [] => []
  | (_, r) :: hist =>
      (if (ring_return (locals d) r).1 then [out_of (ring_return (locals d) r).2] else []) ++
      received (rreturned d r) hist
  end.

Lemma length_received d hist : length (received d hist) = rsuccesses d hist.
Proof.
  revert d. induction hist as [|[o r] hist IH]; intros d; simpl; [done|]. rewrite length_app, IH.
  by destruct (ring_return _ _) as [[] l].
Qed.

(** A producer sends its stream. *)
Lemma pushed_stream payloads next type d hist :
  locals d = Pusher payloads next type -> robeys d hist ->
  Forall (fun p => Z.of_nat (length p) < 2 ^ 32) payloads -> (next < length payloads)%nat ->
  pushed hist = stream type payloads next (rsuccesses d hist).
Proof.
  intros Hd Ho Hp. revert next d Hd Ho. induction hist as [|[o r] hist IH]; intros next d Hd Ho Hn; [done|].
  destruct Ho as [Hc Ho]. apply next_call_Some in Hc as (_ & _ & ->).
  cbn [successes]. pose proof (returned_locals ring_return d r) as Hl. rewrite Hd in *. cbn [ring_call].
  assert (Hlen : Z.of_nat (length (payloads !!! next)) < 2 ^ 32).
  { apply (Forall_lookup_total_1 _ _ _ Hp Hn). }
  destruct r as [[]|p]; cbn [ring_return fst snd] in *.
  - change (pushed ?h) with (omap (fun e => match e with
      | (OPush data size type, RPush true) => Some (type, push_payload data size) | _ => None end) h) at 1.
    cbn [omap list_omap Nat.add stream]. f_equal.
    + unfold push_payload, u32. rewrite Z.mod_small, Nat2Z.id, take_ge by lia. done.
    + apply (IH _ _ Hl Ho). apply Nat.mod_upper_bound. lia.
  - exact (IH _ _ Hl Ho Hn).
  - exact (IH _ _ Hl Ho Hn).
Qed.

(** Messages of [n] bytes that the consumer can decode. *)
Definition readable (l : rlocals) (n : nat) (x : msg) : Prop :=
  match l with
  | Popper _ _ => True
  | TypedPopper C ty _ _ => m_type x = ty /\ length (m_payload x) = n /\
      forall out, decode (m_payload x) out = (true, m_payload x)
  | Pusher _ _ _ => False
  end.

Definition reader_fits (l : rlocals) (n : nat) : Prop :=
  match l with
  | Popper _ _ => True
  | TypedPopper _ _ r _ => (length (buffer r) <= n)%nat
  | Pusher _ _ _ => False
  end.

(** What the consumer sees of a message: a typed reader the value itself, a plain
    vector its bytes (followed by those of a longer one before it). *)
Definition shows (l : rlocals) (out : list byte) (x : msg) : Prop :=
  match l with Popper _ _ => m_payload x `prefix_of` out | _ => out = m_payload x end.

(** The consumer stays the same kind of consumer. *)
Definition same_consumer (n : nat) (l l' : rlocals) : Prop :=
  reader_fits l' n /\ readable l' n = readable l n /\ shows l' = shows l.

Lemma consumer_step n l r :
  reader_fits l n -> untouched [(ring_call l, r)] ->
  same_consumer n l (ring_return l r).2 /\ (ring_return l r).1 = false /\ pops [(ring_call l, r)] = [] \/
  exists out sq p, pops [(ring_call l, r)] = [(out, sq, p)] /\
    forall x, delivers out sq p x -> readable l n x ->
      same_consumer n l (ring_return l r).2 /\ (ring_return l r).1 = true /\
      shows l (out_of (ring_return l r).2) x.
Proof.
  unfold same_consumer, untouched. rewrite Forall_singleton. intros Hf Hu.
  destruct l as [out ty | C ty rd out | ]; [| |done]; destruct r as [b|p]; simpl in *;
    try (left; by split_and!).
  - destruct (p_ok p) eqn:E; [right | left; by split_and!]. eexists _, _, _. split; [done|].
    intros x -> _. simpl. split_and!; [done.. |]. rewrite fill_out_eq. by apply prefix_app_r.
  - unfold reader_result. destruct (p_ok p) eqn:E; [right | left].
    + eexists _, _, _. split; [done|]. intros x -> (Ht & Hn & Hd). cbn [p_out p_type p_seq].
      unfold typed_result. cbn [view_type rtype]. rewrite Ht, Z.eqb_refl. cbn [negb view_payload buffer].
      rewrite fill_out_eq, drop_ge, app_nil_r, Hd by lia. simpl. by rewrite Hn.
    + simpl. rewrite Hu by done. by split_and!.
Qed.

Lemma pops_cons e hist : pops (e :: hist) = pops [e] ++ pops hist.
Proof. apply (omap_app _ [e]). Qed.

Lemma consumer_received n d hist popd :
  robeys d hist -> reader_fits (locals d) n -> Forall (readable (locals d) n) popd -> untouched hist ->
  Forall2 (fun e x => delivers e.1.1 e.1.2 e.2 x) (pops hist) popd ->
  Forall2 (shows (locals d)) (received d hist) popd.
Proof.
  revert d popd. induction hist as [|[o r] hist IH]; intros d popd Ho Hf Hr Hu Hp.
  { inversion Hp. constructor. }
  destruct Ho as [Hc Ho]. apply next_call_Some in Hc as (_ & _ & ->).
  apply Forall_cons in Hu as [Hu0 Hu]. rewrite pops_cons in Hp. cbn [received].
  pose proof (returned_locals ring_return d r) as Hl. specialize (IH (rreturned d r)). rewrite Hl in IH.
  destruct (consumer_step n (locals d) r Hf) as [((Hf' & Hr' & Hs') & -> & E)|(out & sq & p & E & Hx)];
    [by apply Forall_singleton | |]; rewrite E in Hp; simpl in Hp.
  - rewrite <- Hs'. apply IH; auto. by rewrite Hr'.
  - apply Forall2_cons_inv_l in Hp as (x & popd' & Hd & Hp & ->). apply Forall_cons in Hr as [Hrx Hr].
    destruct (Hx x Hd Hrx) as ((Hf' & Hr' & Hs') & -> & Hsh). constructor; [done|].
    rewrite <- Hs'. apply IH; auto. by rewrite Hr'.
Qed.

(** ** Whole runs *)

(** Messages by producer: [k] threads that published [m] messages each. *)
Lemma pub_count k m (pub : list (nat * msg)) :
  Forall (fun e => 0 < e.1 <= k)%nat pub ->
  (forall t, (0 < t <= k)%nat -> length (pub_by t pub) = m) -> length pub = (k * m)%nat.
Proof.
  revert pub. induction k as [|k IH]; intros pub Hp Hm.
  { destruct pub as [|e pub]; [done|]. apply Forall_cons in Hp as [? _]. lia. }
  set (rest := filter (fun e => e.1 <> S k) pub).
  assert (Hlen : forall l : list (nat * msg),
    length l = (length (pub_by (S k) l) + length (filter (fun e => e.1 <> S k) l))%nat).
  { intros l. unfold pub_by. rewrite length_fmap. induction l as [|e l IHl]; [done|].
    destruct (decide (e.1 = S k)); [rewrite filter_cons_True, filter_cons_False by auto
      | rewrite filter_cons_False, filter_cons_True by auto]; cbn [length]; rewrite IHl; lia. }
  rewrite Hlen, Hm by lia. fold rest. rewrite (IH rest); [lia | |].
  - apply Forall_forall. intros e He. apply list_elem_of_filter in He as [Hne He].
    rewrite Forall_forall in Hp. specialize (Hp e He). simpl in *. lia.
  - intros t Ht. rewrite <- (Hm t) by lia. unfold rest, pub_by. rewrite list_filter_filter_l; [done|].
    intros e ->. lia.
Qed.

(** The benchmarks of the MPSC ring; the argument of [Burst] is [state.range(0)]. *)
Inductive mpsc_benchmark :=
| Ring_MPSC_Small | Typed_MPSC_Trivial | Typed_MPSC_String | Typed_MPSC_RobotState
| Typed_MPSC_RobotState_Burst (burst : nat) | Ring_MPSC_Variable.

Definition mpsc_threads (b : mpsc_benchmark) (iterations threads : nat) : list (loop rlocals) :=
  match b with
  | Ring_MPSC_Small => BM_Ring_MPSC_Small iterations threads
  | Typed_MPSC_Trivial => BM_Typed_MPSC_Trivial iterations threads
  | Typed_MPSC_String => BM_Typed_MPSC_String iterations threads
  | Typed_MPSC_RobotState => BM_Typed_MPSC_RobotState iterations threads
  | Typed_MPSC_RobotState_Burst burst => BM_Typed_MPSC_RobotState_Burst iterations threads burst
  | Ring_MPSC_Variable => BM_Ring_MPSC_Variable iterations threads
  end <$> List.seq 0 threads.

Definition burst_of (b : mpsc_benchmark) : nat :=
  match b with Typed_MPSC_RobotState_Burst burst => burst | _ => 1%nat end.

(** The item count that thread 0 reports. *)
Definition mpsc_items (b : mpsc_benchmark) (iterations threads : nat) : option Z :=
  SetBenchmarkCounters 0 (Z.of_nat iterations * Z.of_nat (threads - 1) * Z.of_nat (burst_of b)).

(** What thread [t > 0] sends, and who receives it. *)
Definition payloads_of (b : mpsc_benchmark) : list (list byte) :=
  match b with
  | Ring_MPSC_Small => [make_payload 32]
  | Typed_MPSC_Trivial => [tick_bytes (mkTick 42 (double_lit 1235 10))]
  | Typed_MPSC_String => [replicate 256 x78]
  | Typed_MPSC_RobotState | Typed_MPSC_RobotState_Burst _ => [robot_bytes state_msg]
  | Ring_MPSC_Variable => make_payload <$> [64; 256; 1024; 4096]%nat
  end.

Definition type_of (b : mpsc_benchmark) : Z :=
  match b with
  | Ring_MPSC_Small => 1
  | Typed_MPSC_Trivial => 77
  | Typed_MPSC_String => 88
  | Typed_MPSC_RobotState | Typed_MPSC_RobotState_Burst _ => 78
  | Ring_MPSC_Variable => 2
  end.

Definition consumer_of (b : mpsc_benchmark) : rlocals :=
  match b with
  | Ring_MPSC_Small | Ring_MPSC_Variable => Popper [] 0
  | Typed_MPSC_Trivial => TypedPopper (pod_codec 16) 77 reader0 (replicate 16 x00)
  | Typed_MPSC_String => TypedPopper string_codec 88 reader0 []
  | Typed_MPSC_RobotState | Typed_MPSC_RobotState_Burst _ =>
      TypedPopper (pod_codec 192) 78 reader0 (replicate 192 x00)
  end.

Definition first_of (b : mpsc_benchmark) (t : nat) : nat :=
  match b with Ring_MPSC_Variable => Nat.modulo t 4 | _ => 0%nat end.

Definition consumer_loop (b : mpsc_benchmark) (iterations threads : nat) : loop rlocals :=
  Loop iterations ((threads - 1) * burst_of b) 0 (consumer_of b).
Definition producer_loop (b : mpsc_benchmark) (iterations t : nat) : loop rlocals :=
  Loop iterations (burst_of b) 0 (Pusher (payloads_of b) (first_of b t) (type_of b)).

Lemma mpsc_threads_lookup b iterations threads t :
  mpsc_threads b iterations threads !! t =
    if decide (t < threads)%nat
    then Some (if (t =? 0)%nat then consumer_loop b iterations threads else producer_loop b iterations t)
    else None.
Proof.
  unfold mpsc_threads. rewrite list_lookup_fmap. case_decide.
  - rewrite lookup_seq_lt by done. cbn [fmap option_fmap option_map Nat.add]. f_equal.
    unfold consumer_loop, producer_loop. destruct b; cbn [burst_of]; rewrite ?Nat.mul_1_r; destruct t; reflexivity.
  - by rewrite lookup_seq_ge by lia.
Qed.

(** The size of the messages of a typed benchmark. *)
Definition size_of (b : mpsc_benchmark) : nat := length (payloads_of b !!! 0%nat).

Lemma payloads_small b : Forall (fun p => Z.of_nat (length p) < 2 ^ 32) (payloads_of b).
Proof. destruct b; repeat constructor. Qed.

Lemma first_in_range b t : (first_of b t < length (payloads_of b))%nat.
Proof. destruct b; cbn [first_of]; simpl; lia. Qed.

Lemma consumer_fits b : reader_fits (consumer_of b) (size_of b).
Proof. destruct b; cbn [consumer_of reader_fits]; try done; simpl; lia. Qed.

Lemma payload_readable b x :
  m_type x = type_of b -> m_payload x ∈ payloads_of b -> readable (consumer_of b) (size_of b) x.
Proof.
  intros Ht Hx. destruct b; cbn [consumer_of readable]; try done;
    cbn [type_of payloads_of] in *; apply list_elem_of_singleton in Hx; unfold size_of;
    (split_and!; [done | by rewrite Hx |]); intros out;
    first [done | cbn [decode pod_codec]; unfold decode_pod; rewrite Hx].
  all: rewrite take_ge; try reflexivity; vm_compute; lia.
Qed.

Lemma stream_elem b next n k :
  (next < length (payloads_of b))%nat -> k ∈ stream (type_of b) (payloads_of b) next n ->
  k.1 = type_of b /\ k.2 ∈ payloads_of b.
Proof.
  revert next. induction n as [|n IH]; intros next Hn Hk; cbn [stream] in Hk; [by apply not_elem_of_nil in Hk|].
  apply elem_of_cons in Hk as [-> | Hk].
  - split; [done|]. by apply list_elem_of_lookup_total_2.
  - eapply IH; [|done]. apply Nat.mod_upper_bound. lia.
Qed.

(** The messages that the producers published. *)
Lemma published_readable b pub threads m :
  Forall (fun e => 0 < e.1 < threads)%nat pub ->
  (forall t, (0 < t < threads)%nat ->
     msg_key <$> pub_by t pub = stream (type_of b) (payloads_of b) (first_of b t) m) ->
  Forall (readable (consumer_of b) (size_of b)) pub.*2.
Proof.
  intros Hp Hs. apply Forall_forall. intros x Hx. apply list_elem_of_fmap in Hx as ([t y] & -> & Hx).
  rewrite Forall_forall in Hp. specialize (Hp _ Hx). cbn [fst snd] in *.
  assert (Hy : msg_key y ∈ stream (type_of b) (payloads_of b) (first_of b t) m).
  { rewrite <- Hs by lia. apply list_elem_of_fmap_2. unfold pub_by. apply list_elem_of_fmap.
    exists (t, y). split; [done|]. by apply list_elem_of_filter. }
  apply stream_elem in Hy as [? ?]; [|apply first_in_range]. by apply payload_readable.
Qed.

Section Finished.
Context (b : mpsc_benchmark) (iterations threads : nat) (body : op -> prog (option res)).
Context (rl : nat -> op -> bool) (allowed : shared -> shared -> Prop).
Context (s : shared) (c : config (Op := op) (R := res)).
Abbreviation threads_of := (mpsc_threads b iterations threads).
Context (Hr : breach ring_call ring_return body rl allowed threads_of s c).
Context (Hfin : finished ring_call ring_return threads_of c = true).

(** The end of a producer and of the consumer. *)
Lemma finished_producer t : (0 < t < threads)%nat ->
  c_thr c !! t = None /\
  pushed (tlog t (c_log c)) =
    stream (type_of b) (payloads_of b) (first_of b t) (iterations * burst_of b).
Proof.
  intros Ht. destruct (finished_successes _ _ _ _ _ _ _ _ t (producer_loop b iterations t) Hr Hfin)
    as (Hi & Ho & Hs); [rewrite mpsc_threads_lookup, decide_True by lia; by destruct t; [lia|] | by right |].
  split; [done|].
  rewrite (pushed_stream (payloads_of b) (first_of b t) (type_of b) (producer_loop b iterations t) _
    eq_refl Ho (payloads_small b) (first_in_range b t)), Hs.
  f_equal. unfold remaining_calls. simpl. lia.
Qed.

Lemma finished_consumer : (0 < threads)%nat ->
  c_thr c !! O = None /\
  robeys (consumer_loop b iterations threads) (tlog 0 (c_log c)) /\
  length (received (consumer_loop b iterations threads) (tlog 0 (c_log c))) =
    ((threads - 1) * (iterations * burst_of b))%nat.
Proof.
  intros Ht. destruct (finished_successes _ _ _ _ _ _ _ _ O (consumer_loop b iterations threads) Hr Hfin)
    as (Hi & Ho & Hs); [rewrite mpsc_threads_lookup, decide_True by lia; done | by right |].
  split_and!; [done | done |]. rewrite length_received, Hs. unfold remaining_calls, consumer_loop.
  cbn [Workload.iterations inner index]. generalize (threads - 1)%nat. lia.
Qed.

(** Only the benchmark's threads publish. *)
Lemma publishers pub :
  Forall (fun e => e.1 <> O) pub ->
  (forall t, c_thr c !! S t = None -> pushed (tlog (S t) (c_log c)) = msg_key <$> pub_by (S t) pub) ->
  Forall (fun e => 0 < e.1 < threads)%nat pub.
Proof.
  intros Htid Hprod. rewrite Forall_forall in Htid |- *. intros [[|t] x] He; [by destruct (Htid _ He)|]. simpl.
  destruct (decide (S t < threads)%nat) as [|Hge]; [lia|].
  destruct (other_threads_idle _ _ _ _ _ _ _ _ (S t) Hr) as [Hl Hi];
    [by rewrite mpsc_threads_lookup, decide_False|].
  specialize (Hprod t Hi). rewrite Hl in Hprod. symmetry in Hprod. apply fmap_nil_inv in Hprod.
  exfalso. apply (not_elem_of_nil x). rewrite <- Hprod. unfold pub_by. apply list_elem_of_fmap.
  exists (S t, x). split; [done|]. by apply list_elem_of_filter.
Qed.
End Finished.

(** The MPSC benchmarks measure what they report.  In every interleaving of
    the [threads - 1] producers and the consumer of one of the six benchmarks, on
    a fresh ring, once all threads have left their loops: no access was out of
    bounds; every producer has published its payloads, in order, [iterations]
    times the burst; the consumer has received all published messages, in
    publication order and intact (a typed reader has decoded the very values);
    and the number of items reported is the number of messages. *)
Theorem mpsc_benchmarks_deliver cap s b iterations threads c :
  cap_ok cap -> fresh cap s -> (0 < threads)%nat ->
  breach ring_call ring_return (MpscRing.body cap) role no_wrap (mpsc_threads b iterations threads) s c ->
  finished ring_call ring_return (mpsc_threads b iterations threads) c = true ->
  c_fault c = false /\
  exists pub, mpsc_items b iterations threads = Some (Z.of_nat (length pub)) /\
    Forall2 (shows (consumer_of b))
      (received (consumer_loop b iterations threads) (tlog 0 (c_log c))) pub.*2 /\
    forall t, (0 < t < threads)%nat ->
      msg_key <$> pub_by t pub =
        stream (type_of b) (payloads_of b) (first_of b t) (iterations * burst_of b).
Proof.
  intros Hcap Hf Hth Hr Hfin. pose proof (breach_creach _ _ _ _ _ _ _ _ Hr) as Hr'.
  destruct (oc_linear (Hoc := mpsc_one_consumer cap Hcap) s c Hf Hr')
    as (Hfl & pub & popd & rest & Hpub & [_ Htid] & Hprod & Hcons).
  split; [done|]. exists pub.
  assert (Hby : forall t, (0 < t < threads)%nat -> msg_key <$> pub_by t pub =
    stream (type_of b) (payloads_of b) (first_of b t) (iterations * burst_of b)).
  { intros [|t] Ht; [lia|]. destruct (finished_producer _ _ _ _ _ _ _ _ Hr Hfin (S t) Ht) as [Hi <-].
    by rewrite Hprod. }
  pose proof (publishers _ _ _ _ _ _ _ _ Hr pub Htid Hprod) as Hrange.
  assert (Hlen : length pub = ((threads - 1) * (iterations * burst_of b))%nat).
  { apply pub_count; [eapply Forall_impl; [exact Hrange|]; simpl; lia|].
    intros t Ht. rewrite <- (length_fmap msg_key), Hby by lia. apply length_stream. }
  destruct (finished_consumer _ _ _ _ _ _ _ _ Hr Hfin Hth) as (Hi & Ho & Hn).
  destruct (Hcons Hi) as [Hd Hu].
  pose proof (published_readable b pub threads _ Hrange Hby) as Hread. rewrite Hpub in Hread.
  apply Forall_app in Hread as [Hread _].
  pose proof (consumer_received (size_of b) _ _ _ Ho (consumer_fits b) Hread Hu Hd) as Hrec.
  assert (rest = []) as ->.
  { apply Forall2_length in Hrec. apply (f_equal length) in Hpub.
    rewrite length_fmap, length_app in Hpub. apply nil_length_inv. lia. }
  rewrite app_nil_r in Hpub. rewrite Hpub. split_and!; [|done | done].
  unfold mpsc_items, SetBenchmarkCounters. simpl. f_equal. lia.
Qed.

(** The consumer finds nothing, both producers are in the ring at once, and the
    second one waits for the first to publish. *)
Definition trivial_turns : list (nat * nat) :=
  [(0, 3); (1, 10); (2, 20); (1, 18); (2, 8); (0, 25); (0, 25)]%nat.

Lemma mpsc_benchmarks_deliver_witness :
  let bench := mpsc_threads Typed_MPSC_Trivial 1 3 in
  let tick := tick_bytes (mkTick 42 (double_lit 1235 10)) in
  exists c, turns ring_call ring_return (MpscRing.body 64) role bench monotone trivial_turns
      (init_config ring64) = Some c /\
    received (consumer_loop Typed_MPSC_Trivial 1 3) (tlog 0 (c_log c)) = [tick; tick] /\
    c_fault c = false /\
    exists pub, Some 2 = Some (Z.of_nat (length pub)) /\
      Forall2 (shows (consumer_of Typed_MPSC_Trivial)) [tick; tick] pub.*2 /\
      forall t, (0 < t < 3)%nat -> msg_key <$> pub_by t pub = stream 77 [tick] 0 1.
Proof.
  intros bench tick. eexists. split; [vm_compute; reflexivity|].
  match goal with |- _ /\ c_fault ?c0 = _ /\ _ => set (c := c0) end.
  assert (Hrec : received (consumer_loop Typed_MPSC_Trivial 1 3) (tlog 0 (c_log c)) = [tick; tick])
    by (vm_compute; reflexivity).
  split; [exact Hrec|]. rewrite <- Hrec.
  apply (mpsc_benchmarks_deliver 64 ring64 Typed_MPSC_Trivial 1 3 c cap_ok_64); [by split | lia | |].
  - apply (turns_breach _ _ _ _ _ _ monotone trivial_turns); [apply monotone_allowed | vm_compute; reflexivity].
  - vm_compute; reflexivity.
Defined.

(** *** The SPSC ring *)

Inductive spsc_benchmark := Ring_SPSC_Small | Typed_SPSC_RobotState.

Definition spsc_threads (b : spsc_benchmark) (iterations threads : nat) : list (loop rlocals) :=
  omap (match b with
        | Ring_SPSC_Small => BM_Ring_SPSC_Small iterations threads
        | Typed_SPSC_RobotState => BM_Typed_SPSC_RobotState iterations threads
        end) (List.seq 0 threads).

(** The MPSC benchmark with the same messages. *)
Definition like (b : spsc_benchmark) : mpsc_benchmark :=
  match b with
  | Ring_SPSC_Small => Ring_MPSC_Small
  | Typed_SPSC_RobotState => Typed_MPSC_RobotState
  end.

Lemma spsc_threads_two b iterations : spsc_threads b iterations 2 = mpsc_threads (like b) iterations 2.
Proof. by destruct b. Qed.

(** With any other number of threads the benchmark is skipped. *)
Lemma spsc_threads_skipped b iterations threads : threads <> 2%nat -> spsc_threads b iterations threads = [].
Proof.
  intros H%Nat.eqb_neq. unfold spsc_threads. destruct b; induction (List.seq 0 threads) as [|t l IH];
    try done; cbn [omap list_omap]; unfold BM_Ring_SPSC_Small, BM_Typed_SPSC_RobotState in *;
    rewrite H in *; exact IH.
Qed.

(** The benchmarks of the SPSC ring, in every interleaving of the producer
    and the consumer on a fresh ring: once both have left their loops, no access
    was out of bounds, the producer has sent its payload [iterations] times, and
    the consumer has received exactly these messages, intact. *)
Theorem spsc_benchmarks_deliver cap s b iterations c :
  cap_ok cap -> SpscRing.fresh cap s ->
  breach ring_call ring_return (SpscRing.body cap) SpscRing.role (SpscRing.no_wrap cap)
    (spsc_threads b iterations 2) s c ->
  finished ring_call ring_return (spsc_threads b iterations 2) c = true ->
  c_fault c = false /\
  exists pub, length pub = iterations /\
    Forall2 (shows (consumer_of (like b)))
      (received (consumer_loop (like b) iterations 2) (tlog 0 (c_log c))) pub /\
    msg_key <$> pub = stream (type_of (like b)) (payloads_of (like b)) 0 iterations.
Proof.
  rewrite spsc_threads_two. intros Hcap Hf Hr Hfin. pose proof (breach_creach _ _ _ _ _ _ _ _ Hr) as Hr'.
  destruct (spsc_reach cap Hcap s c Hf Hr') as (g & Hfl & HI & Ht). split; [done|].
  destruct (finished_producer _ _ _ _ _ _ _ _ Hr Hfin 1) as [Hi1 Hp]; [lia|].
  destruct (finished_consumer _ _ _ _ _ _ _ _ Hr Hfin) as (Hi0 & Ho & Hn); [lia|].
  pose proof (Ht 1%nat) as Ht1. rewrite Hi1 in Ht1. destruct Ht1 as [Ht1 _].
  pose proof (Ht O) as Ht0. rewrite Hi0 in Ht0. destruct Ht0 as (pop & (Hpop & _) & Hd & Hu & _).
  destruct (SpscRing.i_seg _ _ HI) as (xs & _ & Hpub). simpl in *.
  assert (Hkey : msg_key <$> SpscRing.gpub g = stream (type_of (like b)) (payloads_of (like b)) 0 iterations).
  { rewrite Ht1, Hp. f_equal; destruct b; simpl; lia. }
  assert (Hlen : length (SpscRing.gpub g) = iterations).
  { rewrite <- (length_fmap msg_key), Hkey. apply length_stream. }
  assert (Hread : Forall (readable (consumer_of (like b)) (size_of (like b))) (SpscRing.gpub g)).
  { apply Forall_forall. intros x Hx. apply (list_elem_of_fmap_2 msg_key) in Hx. rewrite Hkey in Hx.
    apply stream_elem in Hx as [? ?]; [by apply payload_readable|].
    destruct b; simpl; lia. }
  rewrite Hpub in Hread. apply Forall_app in Hread as [Hread _]. rewrite Hpop in Hread.
  pose proof (consumer_received _ _ _ _ Ho (consumer_fits (like b)) Hread Hu Hd) as Hrec.
  assert (xs = []) as ->.
  { apply Forall2_length in Hrec. apply (f_equal length) in Hpub. rewrite length_app, Hpop in Hpub.
    apply nil_length_inv. destruct b; simpl in *; lia. }
  exists (SpscRing.gpub g). split_and!; [done | | done]. rewrite Hpub, app_nil_r, Hpop. exact Hrec.
Qed.

(** The consumer finds nothing while the first push is under way; the second
    message wraps around the end of the ring. *)
Definition small_turns : list (nat * nat) :=
  [(1, 30); (0, 3); (1, 13); (0, 40); (1, 52); (0, 46)]%nat.

Lemma spsc_benchmarks_deliver_witness :
  let bench := spsc_threads Ring_SPSC_Small 2 2 in
  exists c, turns ring_call ring_return (SpscRing.body 64) SpscRing.role bench (fun _ _ => true)
      small_turns (init_config ring64) = Some c /\
    received (consumer_loop Ring_MPSC_Small 2 2) (tlog 0 (c_log c)) = [make_payload 32; make_payload 32] /\
    c_fault c = false /\
    exists pub, length pub = 2%nat /\
      Forall2 (shows (consumer_of Ring_MPSC_Small))
        (received (consumer_loop Ring_MPSC_Small 2 2) (tlog 0 (c_log c))) pub /\
      msg_key <$> pub = stream 1 [make_payload 32] 0 2.
Proof.
  intros bench. eexists. split; [vm_compute; reflexivity|]. split; [vm_compute; reflexivity|].
  apply (spsc_benchmarks_deliver 64 ring64 Ring_SPSC_Small 2 _ cap_ok_64); [by split | |].
  - apply (turns_breach _ _ _ _ _ _ (fun _ _ => true) small_turns); [|vm_compute; reflexivity].
    intros s1 s2 _. left. by exists (2 ^ 58).
  - vm_compute; reflexivity.
Defined.
