(* ===== verification/BenchQueue.v ===== *)
(** * Benchmarks of other queues

    bench/benchmark_boost_lockfree.cpp drives [boost::lockfree::spsc_queue] and
    [boost::lockfree::queue] in the same way as bench/benchmark_ring_buffer.cpp
    drives the rings and a mutex-based queue.  The queues of Boost are not part of
    the repository: they are an argument here, an object with atomic operations
    ([QueueObject]) and the documented behaviour of a queue that may refuse a push
    while it holds something ([QueueContract]).  The benchmark programs are loops
    of [Workload] that call it. *)

From Stdlib Require Import ZArith Lia Strings.Byte.
From stdpp Require Import base list numbers relations.
From S2P Require Import Prelude BenchData Workload Bench.

(** ** Queue objects *)

Class QueueObject (St V : Type) := {
  qo_init : St;
  qo_push : V -> St -> bool * St;
  qo_pop : St -> option V * St;
}.

(** [contents s] lists what the queue holds, oldest first. *)
Class QueueContract {St V : Type} (Q : QueueObject St V) (contents : St -> list V) : Prop := {
  qc_init : contents qo_init = [];
  qc_push : forall v s,
    contents (qo_push v s).2 = contents s ++ (if (qo_push v s).1 then [v] else []);
  qc_accepts : forall v s, contents s = [] -> (qo_push v s).1 = true;
  qc_pop : forall s,
    (qo_pop s).1 = head (contents s) /\ contents (qo_pop s).2 = tail (contents s);
}.

(** A bounded buffer of [capacity] values, which shows that the contract can be
    met. *)
Definition bounded_buffer (V : Type) (capacity : nat) : QueueObject (list V) V := {|
  qo_init := [];
  qo_push v s := if (length s <? capacity)%nat then (true, s ++ [v]) else (false, s);
  qo_pop s := (head s, tail s);
|}.

Lemma bounded_buffer_contract V capacity :
  (0 < capacity)%nat -> QueueContract (bounded_buffer V capacity) (fun s => s).
Proof.
  intros Hc. split; simpl; try done.
  - intros v s. case_match; simpl; [done | by rewrite app_nil_r].
  - intros v s ->. simpl. destruct capacity; [lia | done].
Qed.

(** ** Threads *)

Inductive bop := BPop (out : list byte) | BPush (payload : list byte).
Inductive bres := BPopped (ok : bool) (out : list byte) | BPushed (ok : bool).

(** The local variables of a consumer and of a producer. *)
Inductive blocals := BPopper (out : list byte) | BPusher (payload : list byte).

(** [queue.pop(out)] and [queue.push(payload)]. *)
Definition bcall (l : blocals) : bop :=
  match l with BPopper out => BPop out | BPusher payload => BPush payload end.

Definition breturn (l : blocals) (r : bres) : bool * blocals :=
  match l, r with
  | BPopper _, BPopped ok out => (ok, BPopper out)
  | BPusher _, BPushed ok => (ok, l)
  | _, _ => (false, l)
  end.

Section Functions.
Context (iterations threads : nat).
Let producers : nat := (threads - 1)%nat.

(** The SPSC benchmarks are skipped with an error unless there are exactly two
    threads. *)
Definition BM_Boost_SPSC_Small (thread_index : nat) : option (loop blocals) :=
  if negb (threads =? 2)%nat then None else
  let payload := make_small_payload in
  Some (if (thread_index =? 0)%nat
        then Loop iterations 1 0 (BPopper (replicate 32 x00))
        else Loop iterations 1 0 (BPusher payload)).

Definition BM_Boost_SPSC_RobotState (thread_index : nat) : option (loop blocals) :=
  if negb (threads =? 2)%nat then None else
  let robot := robot_bytes make_robot_state in
  Some (if (thread_index =? 0)%nat
        then Loop iterations 1 0 (BPopper (replicate 192 x00))
        else Loop iterations 1 0 (BPusher robot)).

Definition BM_Boost_MPMC_Small (thread_index : nat) : loop blocals :=
  let payload := make_small_payload in
  if (thread_index =? 0)%nat
  then Loop iterations producers 0 (BPopper (replicate 32 x00))
  else Loop iterations 1 0 (BPusher payload).

Definition BM_Boost_MPMC_RobotState (thread_index : nat) : loop blocals :=
  let robot := robot_bytes make_robot_state in
  if (thread_index =? 0)%nat
  then Loop iterations producers 0 (BPopper (replicate 192 x00))
  else Loop iterations 1 0 (BPusher robot).

(** On the mutex-based queue; [enqueue] always succeeds. *)
Definition BM_Locked_MPSC_Small (thread_index : nat) : loop blocals :=
  let payload := make_payload 32 in
  if (thread_index =? 0)%nat
  then Loop iterations producers 0 (BPopper [])
  else Loop iterations 1 0 (BPusher payload).
End Functions.

Inductive queue_benchmark :=
| Boost_SPSC_Small | Boost_SPSC_RobotState | Boost_MPMC_Small | Boost_MPMC_RobotState
| Locked_MPSC_Small.

Definition queue_threads (b : queue_benchmark) (iterations threads : nat) : list (loop blocals) :=
  omap (match b with
        | Boost_SPSC_Small => BM_Boost_SPSC_Small iterations threads
        | Boost_SPSC_RobotState => BM_Boost_SPSC_RobotState iterations threads
        | Boost_MPMC_Small => fun i => Some (BM_Boost_MPMC_Small iterations threads i)
        | Boost_MPMC_RobotState => fun i => Some (BM_Boost_MPMC_RobotState iterations threads i)
        | Locked_MPSC_Small => fun i => Some (BM_Locked_MPSC_Small iterations threads i)
        end) (List.seq 0 threads).

(** The thread counts the benchmark is registered with: two, or two to eight. *)
Definition registered (b : queue_benchmark) (threads : nat) : bool :=
  match b with
  | Boost_SPSC_Small | Boost_SPSC_RobotState => (threads =? 2)%nat
  | _ => (2 <=? threads)%nat && (threads <=? 8)%nat
  end.

Definition queue_payload (b : queue_benchmark) : list byte :=
  match b with
  | Boost_SPSC_Small | Boost_MPMC_Small => make_small_payload
  | Boost_SPSC_RobotState | Boost_MPMC_RobotState => robot_bytes make_robot_state
  | Locked_MPSC_Small => make_payload 32
  end.

(** ** Runs *)

Section Runs.
Context {St : Type} {Q : QueueObject St (list byte)}.

Definition bexec (o : bop) (s : St) : bres * St :=
  match o with
  | BPop out =>
      let '(r, s') := qo_pop s in
      (match r with Some v => BPopped true v | None => BPopped false out end, s')
  | BPush v => let '(ok, s') := qo_push v s in (BPushed ok, s')
  end.

(** The queue, the threads, and the completed calls in order. *)
Record qrun := mkRun { r_queue : St; r_loops : list (loop blocals); r_log : list (nat * (bop * bres)) }.

(** Thread [t] makes its next call. *)
Definition rnext (t : nat) (c : qrun) : option qrun :=
  match r_loops c !! t with
  | Some d =>
      match next_call bcall d with
      | Some o =>
          let '(r, s') := bexec o (r_queue c) in
          Some (mkRun s' (<[t := returned breturn d r]> (r_loops c)) (r_log c ++ [(t, (o, r))]))
      | None => None
      end
  | None => None
  end.

Definition rstep (c c' : qrun) : Prop := exists t, rnext t c = Some c'.

Definition rinit (loops : list (loop blocals)) : qrun := mkRun qo_init loops [].

Definition rfinished (c : qrun) : bool :=
  forallb (fun d => match next_call bcall d with None => true | Some _ => false end) (r_loops c).

(** The accepted and the popped values, in order. *)
Definition accepted (l : list (nat * (bop * bres))) : list (list byte) :=
  omap (fun e => match e.2 with (BPush v, BPushed true) => Some v | _ => None end) l.
Definition delivered (l : list (nat * (bop * bres))) : list (list byte) :=
  omap (fun e => match e.2 with (BPop _, BPopped true v) => Some v | _ => None end) l.

Context (contents : St -> list (list byte)) {HQ : QueueContract Q contents}.

(** One thread pops; the others push [v]; what is still to be popped is what is
    queued or still to be pushed. *)
Record RInv (v : list byte) (n : nat) (c : qrun) : Prop := {
  ri_fifo : accepted (r_log c) = delivered (r_log c) ++ contents (r_queue c);
  ri_same : Forall (fun x => x = v) (accepted (r_log c));
  ri_loops : Forall in_loop (r_loops c);
  ri_consumer : exists d ds out, r_loops c = d :: ds /\ locals d = BPopper out /\
    Forall (fun d => locals d = BPusher v) ds /\
    remaining_calls d = (sum_list (remaining_calls <$> ds) + length (contents (r_queue c)))%nat /\
    (length (delivered (r_log c)) + remaining_calls d)%nat = n;
}.

Lemma sum_insert (f : loop blocals -> nat) ds t d d' :
  ds !! t = Some d -> (sum_list (f <$> <[t := d']> ds) + f d = sum_list (f <$> ds) + f d')%nat.
Proof.
  revert t. induction ds as [|x ds IH]; intros [|t] Ht; try done.
  - injection Ht as ->. change (<[0%nat := d']> (d :: ds)) with (d' :: ds). rewrite !fmap_cons. simpl. lia.
  - specialize (IH t Ht). change (<[S t := d']> (x :: ds)) with (x :: <[t := d']> ds).
    rewrite !fmap_cons. simpl. lia.
Qed.

(** The effect of one call on the accounts. *)
Lemma RInv_step v n c c' : RInv v n c -> rstep c c' -> RInv v n c'.
Proof.
  intros [Hf Hsm Hl (d & ds & out & El & Hd & Hds & Hsum & Hn)] [t Ht]. destruct c as [s loops log].
  cbn [r_queue r_loops r_log] in *. unfold rnext in Ht. cbn [r_queue r_loops r_log] in Ht.
  destruct (loops !! t) as [d1|] eqn:E1; [|done]. destruct (next_call bcall d1) as [o|] eqn:Eo; [|done].
  destruct (bexec o s) as [r s'] eqn:Ex. injection Ht as <-.
  assert (Hl' : Forall in_loop (<[t := returned breturn d1 r]> loops)).
  { apply Forall_insert; [done|]. apply returned_in_loop. by eapply (Forall_lookup_1 _ _ _ _ Hl). }
  pose proof (returned_remaining bcall breturn d1 o r Eo) as Hrem.
  pose proof (returned_locals breturn d1 r) as Hloc. apply next_call_Some in Eo as (_ & _ & Eo).
  destruct t as [|t]; rewrite El in E1.
  - injection E1 as <-. rewrite Hd in *. cbn [bcall] in Eo. subst o. cbn [bexec] in Ex.
    destruct (qc_pop s) as [Hp1 Hp2]. destruct (qo_pop s) as [o' s1]. cbn [fst snd] in *.
    destruct (contents s) as [|x q] eqn:Ec; simpl in Hp1, Hp2; subst o'; injection Ex as <- <-;
      cbn [breturn fst snd] in *; constructor; cbn [r_queue r_loops r_log]; auto;
      unfold accepted, delivered in *; rewrite ?omap_app; cbn [omap list_omap snd]; rewrite ?app_nil_r; auto.
    + rewrite Hp2, Hf, app_nil_r. done.
    + rewrite El. cbn [insert list_insert]. eexists _, ds, _. split_and!; eauto; rewrite ?Hp2, ?length_app; simpl in *; lia.
    + rewrite Hp2, Hf, <- app_assoc. done.
    + rewrite El. cbn [insert list_insert]. eexists _, ds, _. split_and!; eauto; rewrite ?Hp2, ?length_app; simpl in *; lia.
  - simpl in E1. pose proof (Forall_lookup_1 _ _ _ _ Hds E1) as Hd1. simpl in Hd1. rewrite Hd1 in *.
    cbn [bcall] in Eo. subst o. cbn [bexec] in Ex.
    pose proof (qc_push v s) as Hp. destruct (qo_push v s) as [ok s1]. cbn [fst snd] in *. injection Ex as <- <-.
    cbn [breturn fst snd] in *. constructor; cbn [r_queue r_loops r_log]; auto.
    + unfold accepted, delivered in *. rewrite !omap_app, Hp, Hf.
      destruct ok; simpl; by rewrite ?app_nil_r, <- ?app_assoc.
    + unfold accepted in *. rewrite omap_app. apply Forall_app. split; [done|]. destruct ok; simpl; by repeat constructor.
    + rewrite El. exists d, (<[t := returned breturn d1 (BPushed ok)]> ds), out. split_and!; [done | done | | |].
      * by apply Forall_insert.
      * pose proof (sum_insert remaining_calls ds t d1 (returned breturn d1 (BPushed ok)) E1).
        rewrite Hp, length_app. destruct ok; cbn [length] in *; lia.
      * unfold delivered. rewrite omap_app. simpl. by rewrite app_nil_r.
Qed.

Lemma RInv_reach v n c c' : RInv v n c -> rtc rstep c c' -> RInv v n c'.
Proof. intros Hc Hr. induction Hr as [|c1 c2 c3 Hs _ IH]; [done|]. apply IH. by eapply RInv_step. Qed.

(** A thread with calls left has a next call. *)
Lemma next_bcall d : in_loop d -> (0 < remaining_calls d)%nat -> next_call bcall d = Some (bcall (locals d)).
Proof.
  intros Hd Hrem. destruct (next_call bcall d) as [o|] eqn:E.
  - f_equal. by apply next_call_Some in E as (_ & _ & ->).
  - apply next_call_None in E; [lia | done].
Qed.

(** As long as some thread has calls left, one of them succeeds. *)
Lemma RInv_progress v n c :
  RInv v n c -> rfinished c = false ->
  exists c', rstep c c' /\ (sum_list (remaining_calls <$> r_loops c') < sum_list (remaining_calls <$> r_loops c))%nat.
Proof.
  intros [Hf Hsm Hl (d & ds & out & El & Hd & Hds & Hsum & Hn)] Hfin.
  assert (Hgo : forall t d1, r_loops c !! t = Some d1 -> (0 < remaining_calls d1)%nat ->
    (breturn (locals d1) (bexec (bcall (locals d1)) (r_queue c)).1).1 = true ->
    exists c', rstep c c' /\ (sum_list (remaining_calls <$> r_loops c') < sum_list (remaining_calls <$> r_loops c))%nat).
  { intros t d1 E1 Hrem Hok. pose proof (next_bcall d1 (Forall_lookup_1 _ _ _ _ Hl E1) Hrem) as En.
    destruct (bexec (bcall (locals d1)) (r_queue c)) as [r s'] eqn:Ex. cbn [fst] in Hok.
    pose proof (returned_remaining bcall breturn d1 _ r En) as Hr. rewrite Hok in Hr. eexists. split.
    - exists t. unfold rnext. rewrite E1, En, Ex. reflexivity.
    - cbn [r_loops]. pose proof (sum_insert remaining_calls _ _ _ (returned breturn d1 r) E1). lia. }
  destruct (contents (r_queue c)) as [|x q] eqn:Ec.
  - (* empty: some producer pushes *)
    destruct (decide (Forall (fun d => remaining_calls d = 0%nat) ds)) as [Hz|Hz].
    + exfalso. assert (Hz0 : Forall (fun d => remaining_calls d = 0%nat) (r_loops c)).
      { rewrite El. constructor; [|done]. rewrite Hsum. simpl.
        assert (Hs0 : sum_list (remaining_calls <$> ds) = 0%nat); [|lia].
        clear -Hz. induction Hz as [|d ds Hd _ IH]; [done|]. rewrite fmap_cons. simpl. lia. }
      unfold rfinished in Hfin. rewrite (proj2 (forallb_forall _ _)) in Hfin; [done|]. intros d' Hin. apply list_elem_of_In in Hin.
      rewrite Forall_forall in Hz0, Hl. by rewrite (proj2 (next_call_None bcall d' (Hl _ Hin)) (Hz0 _ Hin)).
    + apply not_Forall_Exists in Hz; [|intros ?; apply _]. apply Exists_exists in Hz as (d1 & Hin & Hrem).
      apply list_elem_of_lookup in Hin as [t Ht]. apply (Hgo (S t) d1); [by rewrite El | simpl in Hrem; lia |].
      rewrite (Forall_lookup_1 _ _ _ _ Hds Ht). cbn [bcall bexec]. pose proof (qc_accepts v _ Ec) as Ha.
      destruct (qo_push v (r_queue c)). simpl in *. by subst.
  - (* the consumer pops *)
    apply (Hgo O d); [by rewrite El | simpl in Hsum; lia |]. rewrite Hd. cbn [bcall bexec].
    destruct (qc_pop (r_queue c)) as [Hp _]. rewrite Ec in Hp. simpl in Hp.
    destruct (qo_pop (r_queue c)) as [r s']. simpl in Hp. by subst r.
Qed.

Lemma RInv_completes v n c : RInv v n c -> exists c', rtc rstep c c' /\ rfinished c' = true.
Proof.
  remember (sum_list (remaining_calls <$> r_loops c)) as k eqn:Hk. revert c Hk.
  induction (lt_wf k) as [k _ IH]. intros c -> HI. destruct (rfinished c) eqn:Hf; [exists c; by split; [apply rtc_refl|]|].
  destruct (RInv_progress v n c HI Hf) as (c1 & Hs & Hlt).
  destruct (IH _ Hlt c1 eq_refl (RInv_step v n c c1 HI Hs)) as (c2 & Hr & Hfin).
  exists c2. split; [by eapply rtc_l | done].
Qed.

(** The loops of a benchmark: a consumer, and producers of the same payload. *)
Lemma queue_threads_shape b iterations threads :
  registered b threads = true ->
  exists out, queue_threads b iterations threads =
    Loop iterations (threads - 1) 0 (BPopper out) ::
    replicate (threads - 1) (Loop iterations 1 0 (BPusher (queue_payload b))).
Proof.
  intros Hb. assert (Ht : (2 <= threads <= 8)%nat).
  { destruct b; cbn [registered] in Hb; rewrite ?andb_true_iff, ?Nat.leb_le, ?Nat.eqb_eq in Hb; lia. }
  assert (Hspsc : b = Boost_SPSC_Small \/ b = Boost_SPSC_RobotState -> threads = 2%nat).
  { intros [-> | ->]; by apply Nat.eqb_eq in Hb. }
  destruct threads as [|[|[|[|[|[|[|[|[|n]]]]]]]]]; try lia;
    destruct b; try (specialize (Hspsc ltac:(auto)); discriminate); eexists; reflexivity.
Qed.

Lemma RInv_init b iterations threads :
  registered b threads = true -> RInv (queue_payload b) (iterations * (threads - 1)) (rinit (queue_threads b iterations threads)).
Proof.
  intros Hb. destruct (queue_threads_shape b iterations threads Hb) as [out E]. rewrite E. unfold rinit.
  split; cbn [r_queue r_loops r_log].
  - by rewrite qc_init.
  - constructor.
  - constructor; [by right|]. apply Forall_replicate. by right.
  - eexists _, _, out. split_and!; [done | done | by apply Forall_replicate | |]; [|apply Nat.sub_0_r]. rewrite qc_init.
    set (l := Loop iterations 1 0 (BPusher (queue_payload b))).
    assert (Hl : remaining_calls l = iterations) by (unfold remaining_calls, l; simpl; lia).
    transitivity (iterations * (threads - 1))%nat; [apply Nat.sub_0_r|]. cbn [length].
    generalize (threads - 1)%nat. intros k. induction k as [|k IH]; [simpl; lia|].
    cbn [replicate]. rewrite fmap_cons. simpl. rewrite Hl. lia.
Qed.

(** When all loops are left, everything has been popped. *)
Lemma RInv_finished v n c :
  RInv v n c -> rfinished c = true -> delivered (r_log c) = replicate n v /\ contents (r_queue c) = [].
Proof.
  intros [Hf Hsm Hl (d & ds & out & El & Hd & Hds & Hsum & Hn)] Hfin.
  assert (Hz : remaining_calls d = 0%nat).
  { unfold rfinished in Hfin. rewrite El in *. cbn [forallb] in Hfin. apply andb_prop in Hfin as [Hfin _].
    apply (next_call_None bcall); [by apply Forall_cons in Hl as [Hl _] | by case_match]. }
  assert (Hq : contents (r_queue c) = []) by (apply nil_length_inv; lia). split; [|done].
  rewrite Hq, app_nil_r in Hf. rewrite Hf in Hsm. symmetry. apply replicate_as_elem_of. split; [lia|].
  by rewrite Forall_forall in Hsm.
Qed.
End Runs.

(** The comparison benchmarks measure what they claim to: whatever queue meets
    the documented contract, in every interleaving of a benchmark's calls the
    values arrive in the order they were accepted, the run can always be completed
    (no retry loop waits for ever), and a completed run has delivered one payload
    per producer and iteration, unchanged, and leaves the queue empty for the next
    repetition. *)
Theorem queue_benchmarks_complete {St : Type} {Q : QueueObject St (list byte)}
    (contents : St -> list (list byte)) {HQ : QueueContract Q contents} b iterations threads c :
  registered b threads = true -> rtc rstep (rinit (queue_threads b iterations threads)) c ->
  accepted (r_log c) = delivered (r_log c) ++ contents (r_queue c) /\
  (exists c', rtc rstep c c' /\ rfinished c' = true) /\
  (rfinished c = true ->
    delivered (r_log c) = replicate (iterations * (threads - 1)) (queue_payload b) /\
    contents (r_queue c) = []).
Proof.
  intros Hb Hr. pose proof (RInv_reach contents _ _ _ _ (RInv_init contents b iterations threads Hb) Hr) as HI.
  split_and!; [apply HI | by eapply RInv_completes | by eapply RInv_finished].
Qed.

(** Calls of the given threads, in that order. *)
Fixpoint rcalls {St : Type} {Q : QueueObject St (list byte)} (ts : list nat) (c : qrun) : option qrun :=
  match ts with
  | [] => Some c
  | t :: ts => match rnext t c with Some c' => rcalls ts c' | None => None end
  end.

Lemma rcalls_steps {St : Type} {Q : QueueObject St (list byte)} ts c c' : rcalls ts c = Some c' -> rtc rstep c c'.
Proof.
  revert c. induction ts as [|t ts IH]; intros c; cbn [rcalls]; [intros [= <-]; apply rtc_refl|].
  destruct (rnext t c) as [c1|] eqn:E; [|done]. intros H%IH. eapply rtc_l; [by exists t | done].
Qed.


(** Two producers of one message each, on a buffer for one. *)
Lemma queue_benchmarks_complete_witness :
  exists c, rcalls (Q := bounded_buffer (list byte) 1) [1; 2; 0; 0; 2; 0]%nat
      (rinit (Q := bounded_buffer _ 1) (queue_threads Boost_MPMC_Small 1 3)) = Some c /\
    delivered (r_log c) = replicate 2 make_small_payload.
Proof.
  eexists. split; [reflexivity|].
  eapply (queue_benchmarks_complete (Q := bounded_buffer _ 1) (fun s => s)
      (HQ := bounded_buffer_contract _ 1 Nat.lt_0_1) Boost_MPMC_Small 1 3);
    [reflexivity | by apply (rcalls_steps (Q := bounded_buffer _ 1) [1; 2; 0; 0; 2; 0]%nat) | reflexivity].
Defined.
