(* ===== verification/BenchLocked.v ===== *)
(** * The mutex-based queue, access by access

    [LockedQueue] of bench/benchmark_ring_buffer.cpp is a [std::queue] whose
    methods hold a [std::mutex] through a [std::lock_guard].  Here the threads of
    [BM_Locked_MPSC_Small] interleave at every access: taking the mutex, the test
    of emptiness, moving the front out, popping it, pushing, and releasing the
    mutex.  The machine refines the queue object whose calls are atomic
    ([locked_queue], built from [Bench.enqueue] and [Bench.dequeue]). *)

From Stdlib Require Import ZArith Lia Strings.Byte.
From stdpp Require Import base list numbers gmap relations.
From S2P Require Import Prelude BenchData Workload Bench BenchQueue.

(** ** The object *)

#[export] Instance locked_queue : QueueObject (list (list byte)) (list byte) := {|
  qo_init := [];
  qo_push v s := (true, enqueue v s);
  qo_pop s := let '(ok, out, s') := dequeue [] s in (if ok then Some out else None, s');
|}.

#[export] Instance locked_queue_contract : QueueContract locked_queue (fun s => s).
Proof. split; try done. by intros [|x s]. Qed.

(** ** The machine *)

(** Where a thread is inside a method: it holds the guard ([Held]), it has seen
    that the queue is not empty ([Front]), it has moved the front out
    ([PopFront]), it is about to leave the scope of the guard ([Unlock]). *)
Inductive lpc :=
| Held (o : bop)
| Front (out : list byte)
| PopFront (out out' : list byte)
| Unlock (o : bop) (r : bres).

Record lrun := mkLocked {
  mutex_ : option nat;
  queue_ : list (list byte);
  l_thr : gmap nat lpc;
  l_loops : list (loop blocals);
  l_log : list (nat * (bop * bres));
  l_fault : bool;
}.

(** The next access of thread [t] inside a method; [front] and [pop] of an empty
    queue are undefined.  The vector a value was moved from is empty. *)
Definition method_step (p : lpc) (q : list (list byte)) : option (lpc * list (list byte)) :=
  match p with
  | Held (BPush data) => Some (Unlock (BPush data) (BPushed true), q ++ [data])
  | Held (BPop out) =>
      match q with
      | [] => Some (Unlock (BPop out) (BPopped false out), q)
      | _ :: _ => Some (Front out, q)
      end
  | Front out => match q with front :: q => Some (PopFront out front, [] :: q) | [] => None end
  | PopFront out out' =>
      match q with _ :: q => Some (Unlock (BPop out) (BPopped true out'), q) | [] => None end
  | Unlock _ _ => Some (p, q)
  end.

(** The method is over when the guard is to be destroyed. *)
Definition leaving (p : lpc) : option (bop * bres) :=
  match p with Unlock o r => Some (o, r) | _ => None end.

(** Thread [t] between calls takes the mutex when it is free; inside a method it
    makes its next access; leaving the method it releases the mutex. *)
Definition lnext (t : nat) (c : lrun) : option lrun :=
  let '(mkLocked m q thr loops log f) := c in
  match loops !! t with
  | None => None
  | Some d =>
      match thr !! t with
      | None =>
          match next_call bcall d, m with
          | Some o, None => Some (mkLocked (Some t) q (<[t := Held o]> thr) loops log f)
          | _, _ => None
          end
      | Some p =>
          match leaving p with
          | Some (o, r) =>
              Some (mkLocked None q (delete t thr) (<[t := returned breturn d r]> loops) (log ++ [(t, (o, r))]) f)
          | None =>
              match method_step p q with
              | Some (p', q') => Some (mkLocked m q' (<[t := p']> thr) loops log f)
              | None => Some (mkLocked m q (delete t thr) loops log true)
              end
          end
      end
  end.

Definition lstep (c c' : lrun) : Prop := exists t, lnext t c = Some c'.

Definition linit (loops : list (loop blocals)) : lrun := mkLocked None [] ∅ loops [] false.

Definition lfinished (c : lrun) : bool :=
  bool_decide (l_thr c = ∅) &&
  forallb (fun d => match next_call bcall d with None => true | Some _ => false end) (l_loops c).

(** ** Simulation *)

(** Inside the method of call [o]: the queue is [q], and was [q0] when the mutex
    was taken. *)
Definition method_ok (o : bop) (p : lpc) (q q0 : list (list byte)) : Prop :=
  match p with
  | Held o' => o' = o /\ q = q0
  | Front out => o = BPop out /\ q = q0 /\ q0 <> []
  | PopFront out out' => o = BPop out /\ exists q1, q0 = out' :: q1 /\ q = [] :: q1
  | Unlock o' r => o' = o /\ bexec o q0 = (r, q)
  end.

Record Sim (c : lrun) (a : qrun) : Prop := {
  sim_fault : l_fault c = false;
  sim_loops : l_loops c = r_loops a;
  sim_log : l_log c = r_log a;
  sim_mutex :
    match mutex_ c with
    | None => l_thr c = ∅ /\ queue_ c = r_queue a
    | Some t => exists p d o, l_thr c = {[t := p]} /\ l_loops c !! t = Some d /\
        next_call bcall d = Some o /\ method_ok o p (queue_ c) (r_queue a)
    end;
}.

(** An access inside a method is defined, and the last one leaves what the atomic
    call returns. *)
Lemma method_step_ok o p q q0 :
  method_ok o p q q0 -> exists p' q', method_step p q = Some (p', q') /\ method_ok o p' q' q0.
Proof.
  destruct p as [[out|v]|out|out out'|o' r]; cbn [method_ok]; intros Hp.
  - destruct Hp as [<- ->]. destruct q0 as [|x q0]; eexists _, _; split; try reflexivity; by repeat split.
  - destruct Hp as [<- ->]. eexists _, _. by repeat split.
  - destruct Hp as (-> & -> & Hne). destruct q0 as [|x q0]; [done|]. eexists _, _. split; [done|]. simpl. eauto.
  - destruct Hp as (-> & q1 & -> & ->). eexists _, _. by repeat split.
  - eexists _, _. by split.
Qed.

Lemma leaving_ok o p q q0 o' r : method_ok o p q q0 -> leaving p = Some (o', r) -> o' = o /\ bexec o q0 = (r, q).
Proof. intros Hp E. destruct p; try done. injection E as -> ->. exact Hp. Qed.

(** One access of the machine is none or one call of the object. *)
Lemma Sim_step c c' a : Sim c a -> lstep c c' -> exists a', rtc rstep a a' /\ Sim c' a'.
Proof.
  intros [Hf Hl Hg Hm] [t Ht]. destruct c as [m q thr loops log f], a as [q0 loops' log'].
  cbn [l_fault l_loops l_log mutex_ l_thr queue_ r_loops r_log r_queue] in *. subst loops' log' f.
  cbn [lnext] in Ht. destruct (loops !! t) as [d|] eqn:Ed; [|done].
  destruct m as [t0|].
  - destruct Hm as (p & d0 & o & -> & Ed0 & Eo & Hp).
    destruct (decide (t = t0)) as [->|Hne]; [|rewrite lookup_singleton_ne in Ht by done; by case_match].
    rewrite lookup_singleton_eq in Ht. rewrite Ed0 in Ed. injection Ed as ->.
    destruct (leaving p) as [[o' r]|] eqn:Ep.
    + injection Ht as <-. destruct (leaving_ok _ _ _ _ _ _ Hp Ep) as [-> Hx]. eexists. split.
      * apply rtc_once. exists t0. unfold rnext. cbn [r_loops r_queue]. rewrite Ed0, Eo, Hx. reflexivity.
      * split; try done. cbn [mutex_ l_thr queue_ r_queue]. by rewrite delete_singleton_eq.
    + destruct (method_step_ok _ _ _ _ Hp) as (p' & q' & E & Hp').
      rewrite E in Ht. injection Ht as <-. exists (mkRun q0 loops log). split; [apply rtc_refl|]. split; try done.
      cbn [mutex_ l_thr queue_ l_loops r_queue]. exists p', d, o. by rewrite insert_singleton_eq.
  - destruct Hm as [-> ->]. rewrite lookup_empty in Ht. destruct (next_call bcall d) as [o|] eqn:Eo; [|done].
    injection Ht as <-. eexists. split; [apply rtc_refl|]. split; try done. cbn. exists (Held o), d, o. by repeat split.
Qed.

Lemma Sim_reach c c' a : Sim c a -> rtc lstep c c' -> exists a', rtc rstep a a' /\ Sim c' a'.
Proof.
  intros Hs Hr. revert a Hs. induction Hr as [c|c c1 c2 H1 _ IH]; intros a Hs; [by exists a; split; [apply rtc_refl|]|].
  destruct (Sim_step _ _ _ Hs H1) as (a1 & Ha1 & Hs1). destruct (IH a1 Hs1) as (a2 & Ha2 & Hs2).
  exists a2. split; [by etrans | done].
Qed.

(** Accesses left in a method. *)
Definition accesses_left (p : lpc) : nat :=
  match p with Held _ => 3 | Front _ => 2 | PopFront _ _ => 1 | Unlock _ _ => 0 end.

Lemma method_step_left p q p' q' :
  leaving p = None -> method_step p q = Some (p', q') -> (accesses_left p' < accesses_left p)%nat.
Proof. destruct p as [[out|v]|out|out out'|o r]; try done; simpl; repeat case_match; intros _ [= <- <-]; simpl; lia. Qed.

(** The thread that holds the mutex can always finish its call and release it. *)
Lemma release_mutex c a t :
  Sim c a -> mutex_ c = Some t ->
  exists c' a', rtc lstep c c' /\ rnext t a = Some a' /\ Sim c' a' /\ mutex_ c' = None.
Proof.
  destruct c as [m q thr loops log f], a as [q0 loops' log']. intros [Hf Hl Hg Hm] Hm0. cbn in *. subst f m loops' log'.
  destruct Hm as (p & d & o & -> & Ed & Eo & Hp). remember (accesses_left p) as n eqn:Hn.
  revert p q Hn Hp. induction (lt_wf n) as [n _ IH]. intros p q -> Hp.
  destruct (leaving p) as [[o' r]|] eqn:Ep.
  - destruct (leaving_ok _ _ _ _ _ _ Hp Ep) as [-> Hx]. unfold rnext. cbn [r_loops r_queue r_log]. rewrite Ed, Eo, Hx.
    eexists _, _. split_and!; [apply rtc_once; exists t; cbn [lnext]; rewrite Ed, lookup_singleton_eq, Ep; reflexivity
      | done | | done].
    split; try done. cbn. by rewrite delete_singleton_eq.
  - destruct (method_step_ok _ _ _ _ Hp) as (p' & q' & E & Hp').
    destruct (IH _ (method_step_left _ _ _ _ Ep E) p' q' eq_refl Hp') as (c' & a' & Hc' & Ha').
    exists c', a'. split; [|done]. eapply rtc_l; [|exact Hc'].
    exists t. cbn [lnext]. by rewrite Ed, lookup_singleton_eq, Ep, E, insert_singleton_eq.
Qed.

(** While the mutex is free every call of the object can be carried out. *)
Lemma Sim_call c a a' :
  Sim c a -> mutex_ c = None -> rstep a a' -> exists c', rtc lstep c c' /\ Sim c' a' /\ mutex_ c' = None.
Proof.
  destruct c as [m q thr loops log f], a as [q0 loops' log'].
  intros [Hf Hl Hg Hm] Hm0 [t Ht]. cbn in *. subst f m loops' log'. destruct Hm as [-> ->].
  pose proof Ht as Ht0. unfold rnext in Ht. cbn [r_loops r_queue r_log] in Ht.
  destruct (loops !! t) as [d|] eqn:Ed; [|done]. destruct (next_call bcall d) as [o|] eqn:Eo; [|done].
  destruct (release_mutex (mkLocked (Some t) q0 (<[t := Held o]> ∅) loops log false) (mkRun q0 loops log) t)
    as (c' & a1 & Hc' & Ha1 & Hs & Hm); [|done|].
  { split; try done. cbn. exists (Held o), d, o. by repeat split. }
  rewrite Ht0 in Ha1. injection Ha1 as <-. exists c'. split_and!; [|done..]. eapply rtc_l; [|exact Hc'].
  exists t. cbn [lnext]. by rewrite Ed, lookup_empty, Eo.
Qed.

Lemma Sim_calls c a a' :
  Sim c a -> mutex_ c = None -> rtc rstep a a' -> exists c', rtc lstep c c' /\ Sim c' a' /\ mutex_ c' = None.
Proof.
  intros Hs Hm Hr. revert c Hs Hm. induction Hr as [a|a a1 a2 H1 _ IH]; intros c Hs Hm; [by exists c; split; [apply rtc_refl|]|].
  destruct (Sim_call _ _ _ Hs Hm H1) as (c1 & Hc1 & Hs1 & Hm1). destruct (IH c1 Hs1 Hm1) as (c2 & Hc2 & Hs2).
  exists c2. split; [by etrans | done].
Qed.

Lemma Sim_finished c a : Sim c a -> lfinished c = rfinished a && bool_decide (mutex_ c = None).
Proof.
  intros [_ Hl _ Hm]. unfold lfinished, rfinished. rewrite Hl, andb_comm. f_equal. destruct (mutex_ c).
  - destruct Hm as (p & d & o & -> & _). rewrite !bool_decide_eq_false_2; [done | done |]. apply map_non_empty_singleton.
  - destruct Hm as [-> _]. by rewrite !bool_decide_eq_true_2.
Qed.

(** From everywhere the machine can get to a state without calls under way. *)
Lemma Sim_quiet c a : Sim c a -> exists c' a', rtc lstep c c' /\ rtc rstep a a' /\ Sim c' a' /\ mutex_ c' = None.
Proof.
  intros Hs. destruct (mutex_ c) as [t|] eqn:Hm.
  - destruct (release_mutex c a t Hs Hm) as (c' & a' & Hc & Ha & Hs' & Hm').
    exists c', a'. split_and!; [done | apply rtc_once; by exists t | done | done].
  - exists c, a. split_and!; [apply rtc_refl.. | done | done].
Qed.

(** C34: the locked queue is linearizable and its benchmark completes.  In every
    interleaving of the accesses of [BM_Locked_MPSC_Small]'s threads, at most one
    thread is inside a method, no [front] or [pop] meets an empty queue, and the
    results so far are those of the queue whose calls are atomic, in the order the
    mutex was released; the run can always be completed, and a completed run has
    popped one payload per producer and iteration and leaves the queue empty. *)
Theorem locked_queue_linearizable iterations threads c :
  registered Locked_MPSC_Small threads = true ->
  rtc lstep (linit (queue_threads Locked_MPSC_Small iterations threads)) c ->
  l_fault c = false /\ (size (l_thr c) <= 1)%nat /\
  (exists a, rtc rstep (rinit (queue_threads Locked_MPSC_Small iterations threads)) a /\
    r_log a = l_log c /\ (l_thr c = ∅ -> r_queue a = queue_ c)) /\
  (exists c', rtc lstep c c' /\ lfinished c' = true) /\
  (lfinished c = true ->
    delivered (l_log c) = replicate (iterations * (threads - 1)) (make_payload 32) /\ queue_ c = []).
Proof.
  intros Hb Hr. set (loops := queue_threads _ _ _) in *.
  assert (Hs0 : Sim (linit loops) (rinit loops)) by (by split).
  destruct (Sim_reach _ _ _ Hs0 Hr) as (a & Ha & Hs).
  pose proof (RInv_reach (fun s => s) _ _ _ _ (RInv_init (fun s => s) _ iterations threads Hb) Ha) as HI.
  assert (Hq : l_thr c = ∅ -> mutex_ c = None /\ r_queue a = queue_ c).
  { intros Ht. destruct Hs as [_ _ _ Hm]. destruct (mutex_ c); [|by destruct Hm].
    destruct Hm as (p & d & o & E & _). rewrite E in Ht. by apply map_non_empty_singleton in Ht. }
  split_and!.
  - apply Hs.
  - destruct Hs as [_ _ _ Hm]. destruct (mutex_ c).
    + destruct Hm as (p & d & o & -> & _). by rewrite map_size_singleton.
    + destruct Hm as [-> _]. rewrite map_size_empty. lia.
  - exists a. split_and!; [done | symmetry; apply Hs | intros Ht; by apply Hq].
  - destruct (Sim_quiet _ _ Hs) as (c1 & a1 & Hc1 & Ha1 & Hs1 & Hm1).
    destruct (RInv_completes _ _ _ _ (RInv_reach (fun s => s) _ _ _ _ HI Ha1)) as (a2 & Ha2 & Hf).
    destruct (Sim_calls _ _ _ Hs1 Hm1 Ha2) as (c2 & Hc2 & Hs2 & Hm2). exists c2. split; [by etrans|].
    by rewrite (Sim_finished _ _ Hs2), Hf, bool_decide_eq_true_2.
  - intros Hf. pose proof (Sim_finished _ _ Hs) as Hfa. rewrite Hf in Hfa. symmetry in Hfa.
    apply andb_prop in Hfa as [Hfa _]. unfold lfinished in Hf. apply andb_prop in Hf as [Ht _].
    apply bool_decide_eq_true_1 in Ht. destruct (RInv_finished _ _ _ _ HI Hfa) as [Hd He].
    rewrite (sim_log _ _ Hs). split; [exact Hd|]. destruct (Hq Ht) as [_ <-]. exact He.
Qed.

(** Accesses of the given threads, in that order. *)
Fixpoint laccesses (ts : list nat) (c : lrun) : option lrun :=
  match ts with
  | [] => Some c
  | t :: ts => match lnext t c with Some c' => laccesses ts c' | None => None end
  end.

Lemma laccesses_steps ts c c' : laccesses ts c = Some c' -> rtc lstep c c'.
Proof.
  revert c. induction ts as [|t ts IH]; intros c; cbn [laccesses]; [intros [= <-]; apply rtc_refl|].
  destruct (lnext t c) as [c1|] eqn:E; [|done]. intros H%IH. eapply rtc_l; [by exists t | done].
Qed.

(** The consumer finds the queue empty; two producers push; the consumer pops
    twice.  While a method is running no other thread gets the mutex. *)
Definition locked_demo_run : list nat := [0; 0; 0; 2; 2; 2; 1; 1; 1; 0; 0; 0; 0; 0; 0; 0; 0; 0; 0]%nat.

Lemma locked_queue_linearizable_witness :
  laccesses [0; 0; 1]%nat (linit (queue_threads Locked_MPSC_Small 1 3)) = None /\
  exists c, laccesses locked_demo_run (linit (queue_threads Locked_MPSC_Small 1 3)) = Some c /\
    delivered (l_log c) = replicate 2 (make_payload 32) /\ queue_ c = [].
Proof.
  split; [reflexivity|]. eexists. split; [reflexivity|].
  eapply (locked_queue_linearizable 1 3); [reflexivity | by apply (laccesses_steps locked_demo_run) | reflexivity].
Defined.
