(* ===== verification/BenchFixtures.v ===== *)
(** * Benchmark fixtures

    Each benchmark works on an object with static storage duration: a
    [TempFile], then a ring, queue or slot created in it by the first call of an
    accessor.  When the program ends the objects are destroyed in the reverse
    order: the mapping is released, and the file removed.  [access] is the call of
    an accessor, [exit_objects] the end of the program. *)

From Stdlib Require Import ZArith Lia Strings.Byte.
From stdpp Require Import base list numbers gmap strings.
From S2P Require Import Prelude Memory Layout Prog Records Mapping SpscQueue SharedLatest Attach BenchData.

(** ** The objects *)

(** What [create] is called for, and its arguments. *)
Inductive kind :=
| KMpsc (capacity_bytes : Z)
| KSpsc (capacity_bytes : Z)
| KLatest (sizeof_T : Z)
| KFixed (sizeof_T Capacity : Z).

Definition create_object (sys : Syscalls) (k : kind) (path : string) : M Mapping :=
  match k with
  | KMpsc capacity_bytes => mpsc_create sys path capacity_bytes
  | KSpsc capacity_bytes => spsc_create sys path capacity_bytes
  | KLatest sizeof_T => SharedLatest.create sizeof_T sys path
  | KFixed sizeof_T Capacity => SpscQueue.create sizeof_T Capacity sys path
  end.

Record fixture := Fixture { fx_prefix : string; fx_kind : kind }.

(** bench/benchmark_ring_buffer.cpp *)
Definition ring_small : fixture := Fixture "lfring_bench_small" (KMpsc (Z.shiftl 1 20)).
Definition ring_large : fixture := Fixture "lfring_bench_large" (KMpsc (Z.shiftl 4 20)).
Definition ring_typed_small : fixture := Fixture "lfring_bench_typed_small" (KMpsc (Z.shiftl 1 20)).
Definition ring_typed_string : fixture := Fixture "lfring_bench_typed_string" (KMpsc (Z.shiftl 2 20)).
Definition ring_typed_robot : fixture := Fixture "lfring_bench_typed_robot" (KMpsc (Z.shiftl 4 20)).
Definition ring_spsc_small : fixture := Fixture "lfring_bench_spsc_small" (KSpsc (Z.shiftl 1 20)).
Definition ring_typed_spsc_robot : fixture := Fixture "lfring_bench_typed_spsc_robot" (KSpsc (Z.shiftl 4 20)).
Definition latest_robot : fixture := Fixture "lfring_bench_latest_robot" (KLatest 192).
Definition fixed_spsc_small : fixture := Fixture "lfring_bench_fixed_spsc_small" (KFixed 32 32768).
Definition fixed_spsc_robot : fixture := Fixture "lfring_bench_fixed_spsc_robot" (KFixed 192 16384).

(** bench/benchmark_boost_lockfree.cpp *)
Definition boost_fixed_spsc_small : fixture := Fixture "lfring_boost_bench_fixed_spsc_small" (KFixed 32 32768).
Definition boost_fixed_spsc_robot : fixture := Fixture "lfring_boost_bench_fixed_spsc_robot" (KFixed 192 16384).

(** bench/benchmark_futex.cpp *)
Definition get_sl_write : fixture := Fixture "bench_futex_write" (KLatest 72).
Definition get_sl_notify : fixture := Fixture "bench_futex_notify" (KLatest 72).
Definition sl_futex : fixture := Fixture "bench_handoff_futex" (KLatest 72).
Definition sl_spin : fixture := Fixture "bench_handoff_spin" (KLatest 72).
Definition sl_read : fixture := Fixture "bench_read_baseline" (KLatest 72).
Definition sl_conc : fixture := Fixture "bench_concurrent_spin" (KLatest 72).
Definition sl_conc_f : fixture := Fixture "bench_concurrent_futex" (KLatest 72).
Definition sl_loop : fixture := Fixture "bench_loop_futex" (KLatest 72).

Definition fixtures : list fixture :=
  [ring_small; ring_large; ring_typed_small; ring_typed_string; ring_typed_robot; ring_spsc_small;
   ring_typed_spsc_robot; latest_robot; fixed_spsc_small; fixed_spsc_robot; boost_fixed_spsc_small;
   boost_fixed_spsc_robot; get_sl_write; get_sl_notify; sl_futex; sl_spin; sl_read; sl_conc; sl_conc_f; sl_loop].

(** ** The process *)

(** A constructed static object; the newest comes first. *)
Inductive object := Tmp (prefix path : string) | Obj (f : fixture) (m : Mapping).

(** The counter of [make_temp_path] and the objects. *)
Record process := mkProcess { p_counter : N; p_objects : list object }.

Fixpoint find_tmp (prefix : string) (os : list object) : option string :=
  match os with
  | [] => None
  | Tmp prefix' path :: os => if String.eqb prefix prefix' then Some path else find_tmp prefix os
  | Obj _ _ :: os => find_tmp prefix os
  end.

Fixpoint find_obj (prefix : string) (os : list object) : option Mapping :=
  match os with
  | [] => None
  | Obj f m :: os => if String.eqb prefix (fx_prefix f) then Some m else find_obj prefix os
  | Tmp _ _ :: os => find_obj prefix os
  end.

Section Process.
Context (sys : Syscalls) (temp_directory_path : string) (pid : N).
(** [std::filesystem::remove(path, ec)]. *)
Context (remove : string -> world -> world).

(** [static TempFile tmp(prefix)]. *)
Definition tmp_file (prefix : string) (p : process) : string * process :=
  match find_tmp prefix (p_objects p) with
  | Some path => (path, p)
  | None =>
      let '(path, counter) := make_temp_path temp_directory_path pid (p_counter p) prefix in
      (path, mkProcess counter (Tmp prefix path :: p_objects p))
  end.

(** The call of an accessor.  A second call finds both objects constructed. *)
Definition access (f : fixture) (p : process) (w : world) : result Mapping * process * world :=
  let '(path, p) := tmp_file (fx_prefix f) p in
  match find_obj (fx_prefix f) (p_objects p) with
  | Some m => (Ok m, p, w)
  | None =>
      match create_object sys (fx_kind f) path w with
      | (Ok m, w) => (Ok m, mkProcess (p_counter p) (Obj f m :: p_objects p), w)
      | (Throw e, w) => (Throw e, p, w)
      | (UB, w) => (UB, p, w)
      end
  end.

(** Calls in a row; an exception ends the program. *)
Fixpoint accesses (fs : list fixture) (p : process) (w : world) : result (list Mapping) * process * world :=
  match fs with
  | [] => (Ok [], p, w)
  | f :: fs =>
      match access f p w with
      | (Ok m, p, w) =>
          match accesses fs p w with
          | (Ok ms, p, w) => (Ok (m :: ms), p, w)
          | (Throw e, p, w) => (Throw e, p, w)
          | (UB, p, w) => (UB, p, w)
          end
      | (Throw e, p, w) => (Throw e, p, w)
      | (UB, p, w) => (UB, p, w)
      end
  end.

(** [~TempFile] and the destructor of the mapping. *)
Fixpoint exit_objects (os : list object) (w : world) : world :=
  match os with
  | [] => w
  | Tmp _ path :: os => exit_objects os (remove path w)
  | Obj _ m :: os => exit_objects os (reset sys m w).2
  end.
End Process.

(** Removing the name of a file. *)
Definition unlinked (path : string) (w : world) : world :=
  mkWorld (inodes w) (delete path (dir w)) (fds w) (maps w).

(** ** Lifetime *)

Definition bytes_of (k : kind) : Z :=
  match k with
  | KMpsc c | KSpsc c => c
  | KLatest n => n
  | KFixed n c => u64 (c * n)
  end.
Definition flags_of (k : kind) : Z :=
  match k with
  | KMpsc _ => kFlagMPSC | KSpsc _ => kFlagSPSC | KLatest _ => kFlagLatest | KFixed _ _ => kFlagFixedSPSC
  end.
Definition cap_of (f : fixture) : Z := align_up (bytes_of (fx_kind f)) kAlignment.

(** The names of all fixtures differ, and their sizes are in range. *)
Lemma fixtures_distinct f g : f ∈ fixtures -> g ∈ fixtures -> fx_prefix f = fx_prefix g -> f = g.
Proof.
  intros [i Hi]%list_elem_of_lookup [j Hj]%list_elem_of_lookup E.
  assert (Hnd : NoDup (fx_prefix <$> fixtures)) by (apply (bool_decide_eq_true_1 _); vm_compute; reflexivity).
  assert (i = j) as ->; [|congruence].
  eapply (NoDup_lookup _ _ _ (fx_prefix f) Hnd); rewrite list_lookup_fmap; [by rewrite Hi | by rewrite Hj, E].
Qed.

Lemma fixtures_sized f :
  f ∈ fixtures -> 0 < bytes_of (fx_kind f) < 2 ^ 63 /\ 0 <= flags_of (fx_kind f) < 2 ^ 64.
Proof.
  intros Hf. assert (Hall : forallb (fun f => bool_decide (0 < bytes_of (fx_kind f) < 2 ^ 63 /\
    0 <= flags_of (fx_kind f) < 2 ^ 64)) fixtures = true) by (vm_compute; reflexivity).
  rewrite forallb_forall in Hall. apply list_elem_of_In in Hf. by apply Hall, bool_decide_eq_true_1 in Hf.
Qed.

(** Removing several names. *)
Lemma dir_deleted (ps : list string) (d : gmap string nat) path :
  foldl (fun d path => delete path d) d ps !! path = if decide (path ∈ ps) then None else d !! path.
Proof.
  revert d. induction ps as [|q ps IH]; intros d; cbn [foldl]; [done|].
  rewrite IH. destruct (decide (path = q)) as [->|Hne].
  - rewrite lookup_delete_eq, (decide_True _ _ (list_elem_of_here _ _)). by case_decide.
  - rewrite lookup_delete_ne by done.
    destruct (decide (path ∈ ps)), (decide (path ∈ q :: ps)); try done; exfalso; rewrite elem_of_cons in *; tauto.
Qed.

Section Lifetime.
Context (sys : Syscalls) (Hos : Posix sys) (temp_directory_path : string) (pid : N).
Context (remove : string -> world -> world) (Hremove : forall path w, remove path w = unlinked path w).
Context (w0 : world).

Definition paths (os : list object) : list string :=
  omap (fun o => match o with Tmp _ path => Some path | Obj _ _ => None end) os.

(** The world after the construction of some objects. *)
Inductive Owned : list object -> world -> Prop :=
| own_none : Owned [] w0
| own_tmp os w prefix path : Owned os w -> Owned (Tmp prefix path :: os) w
| own_obj os w f path i fdv a :
    Owned os w -> f ∈ fixtures -> path ∈ paths os -> find_obj (fx_prefix f) os = None ->
    inodes w !! i = None -> fds w !! fdv = None -> maps w !! a = None -> 0 <= fdv -> 0 < a ->
    Owned (Obj f (mkMapping fdv a (384 + cap_of f) a (a + 64) (a + 384) (cap_of f)) :: os)
      (created path (cap_of f) (flags_of (fx_kind f)) i fdv a w).

(** A live object with the contents it was created with. *)
Definition fresh_object (f : fixture) (m : Mapping) (w : world) : Prop :=
  exists i, live i m w /\ inodes w !! i = Some (image (cap_of f) (flags_of (fx_kind f))) /\
    capacity m = cap_of f /\ mapping_size m = 384 + cap_of f.

Lemma cap_range f : f ∈ fixtures -> 0 < cap_of f < 2 ^ 63 + 8.
Proof. intros Hf. destruct (fixtures_sized f Hf) as [Hb _]. destruct (create_sizes _ Hb) as (Hc & _). unfold cap_of. lia. Qed.

Lemma Owned_fresh os w f m : Owned os w -> Obj f m ∈ os -> fresh_object f m w.
Proof.
  induction 1 as [|os w prefix path _ IH|os w g path i fdv a Ho IH Hg Hpath Hnone Hi Hfd Ha H0 H1]; intros Hin.
  - by apply not_elem_of_nil in Hin.
  - apply elem_of_cons in Hin as [|]; [done | auto].
  - apply elem_of_cons in Hin as [E|Hin].
    + injection E as -> ->. pose proof (cap_range g Hg). exists i. unfold live, created. simpl.
      rewrite !lookup_insert_eq. split_and!; auto; lia.
    + destruct (IH Hin) as (j & (? & ? & ? & Hj1 & Hj2) & Hj3 & Hj4 & Hj5). exists j. unfold live, created. simpl.
      rewrite !lookup_insert_ne by congruence. by split_and!.
Qed.

(** One object per accessor, and different objects own different files. *)
Lemma find_obj_In prefix os m : find_obj prefix os = Some m -> exists f, Obj f m ∈ os /\ fx_prefix f = prefix.
Proof.
  induction os as [|[p q|f m'] os IH]; simpl; [done | |].
  - intros (f & ? & ?)%IH. exists f. split; [by right | done].
  - destruct (String.eqb_spec prefix (fx_prefix f)) as [->|]; [intros [= ->]; exists f; split; [by left | done]|].
    intros (g & ? & ?)%IH. exists g. split; [by right | done].
Qed.

Lemma find_obj_None prefix os f m : find_obj prefix os = None -> Obj f m ∈ os -> fx_prefix f <> prefix.
Proof.
  induction os as [|[p q|g m'] os IH]; simpl; intros Hn Hin.
  - by apply not_elem_of_nil in Hin.
  - apply elem_of_cons in Hin as [|]; [done | auto].
  - destruct (String.eqb_spec prefix (fx_prefix g)); [done|].
    apply elem_of_cons in Hin as [[= -> ->]|]; [congruence | auto].
Qed.

Lemma Owned_unique os w f g m m' :
  Owned os w -> Obj f m ∈ os -> Obj g m' ∈ os -> (fx_prefix f = fx_prefix g <-> m = m').
Proof.
  induction 1 as [|os w prefix path _ IH|os w h path i fdv a Ho IH Hh Hpath Hnone Hi Hfd Ha H0 H1]; intros Hf Hg.
  - by apply not_elem_of_nil in Hf.
  - apply elem_of_cons in Hf as [|Hf], Hg as [|Hg]; try done. auto.
  - assert (Hnew : forall k mk, Obj k mk ∈ os -> fx_prefix k <> fx_prefix h /\ fd mk <> fdv).
    { intros k mk Hk. split; [by eapply find_obj_None|].
      destruct (Owned_fresh _ _ _ _ Ho Hk) as (j & (_ & _ & _ & Hj & _) & _). congruence. }
    apply elem_of_cons in Hf as [Ef|Hf], Hg as [Eg|Hg].
    + injection Ef as -> ->. injection Eg as -> ->. done.
    + injection Ef as -> ->. destruct (Hnew _ _ Hg) as [? ?]. split; [congruence|]. by intros <-.
    + injection Eg as -> ->. destruct (Hnew _ _ Hf) as [? ?]. split; [congruence|]. by intros ->.
    + auto.
Qed.

(** The end of the program, whatever has become of the contents of the files. *)
Lemma exit_Owned os w I D :
  Owned os w ->
  exit_objects sys remove os (mkWorld I D (fds w) (maps w)) =
    mkWorld I (foldl (fun d path => delete path d) D (paths os)) (fds w0) (maps w0).
Proof.
  intros Ho. revert D. induction Ho as [|os w prefix path _ IH|os w f path i fdv a Ho IH Hf Hpath Hnone Hi Hfd Ha H0 H1];
    intros D; cbn [exit_objects].
  - done.
  - rewrite Hremove. unfold unlinked. cbn [inodes dir fds maps]. by rewrite IH.
  - pose proof (cap_range f Hf).
    erewrite (reset_live _ i); [|done | unfold live, created; simpl; rewrite !lookup_insert_eq; split_and!; auto; lia].
    unfold released, created. cbn [snd inodes dir fds maps fd mapping]. rewrite !delete_insert_id by done. by rewrite IH.
Qed.

Lemma Owned_dir os w path : Owned os w -> path ∉ paths os -> dir w !! path = dir w0 !! path.
Proof.
  induction 1 as [|os w prefix q _ IH|os w f q i fdv a Ho IH Hf Hpath Hnone Hi Hfd Ha H0 H1]; intros Hn.
  - done.
  - apply IH. intros Hin. apply Hn. by right.
  - simpl in *. rewrite lookup_insert_ne; [auto|]. by intros ->.
Qed.

Lemma Owned_fixture os w f m : Owned os w -> Obj f m ∈ os -> f ∈ fixtures.
Proof.
  induction 1 as [|os w prefix path _ IH|os w g path i fdv a Ho IH Hg Hpath Hnone Hi Hfd Ha H0 H1]; intros Hin.
  - by apply not_elem_of_nil in Hin.
  - apply elem_of_cons in Hin as [|]; [done | auto].
  - apply elem_of_cons in Hin as [[= -> _]|]; auto.
Qed.

Lemma find_tmp_In prefix os path : find_tmp prefix os = Some path -> path ∈ paths os.
Proof.
  induction os as [|[p q|f m] os IH]; simpl; [done | |done].
  case_match; [intros [= ->]; by left | intros Hp; right; auto].
Qed.

Lemma tmp_file_Owned prefix p w :
  Owned (p_objects p) w ->
  let '(path, p') := tmp_file temp_directory_path pid prefix p in
  Owned (p_objects p') w /\ path ∈ paths (p_objects p') /\ p_objects p ⊆ p_objects p'.
Proof.
  intros Ho. unfold tmp_file. destruct (find_tmp prefix (p_objects p)) as [path|] eqn:E.
  - split_and!; [done | by eapply find_tmp_In | done].
  - destruct (make_temp_path _ _ _ _) as [path counter]. simpl.
    split_and!; [by apply own_tmp | by left | intros o Hin; by right].
Qed.

(** A call of an accessor returns its object or throws. *)
Lemma access_Owned f p w :
  f ∈ fixtures -> Owned (p_objects p) w ->
  match access sys temp_directory_path pid f p w with
  | (Ok m, p', w') => Owned (p_objects p') w' /\ Obj f m ∈ p_objects p' /\ p_objects p ⊆ p_objects p'
  | (Throw _, _, _) => True
  | (UB, _, _) => False
  end.
Proof.
  intros Hf Ho. unfold access. pose proof (tmp_file_Owned (fx_prefix f) p w Ho) as Ht.
  destruct (tmp_file _ _ _ _) as [path p1]. destruct Ht as (Ho1 & Hp & Hsub).
  destruct (find_obj (fx_prefix f) (p_objects p1)) as [m|] eqn:Ef.
  - destruct (find_obj_In _ _ _ Ef) as (g & Hin & Hg). split_and!; [done | | done].
    by rewrite <- (fixtures_distinct g f (Owned_fixture _ _ _ _ Ho1 Hin) Hf Hg).
  - destruct (fixtures_sized f Hf) as [Hb Hfl].
    assert (Hc : create_object sys (fx_kind f) path w =
      create_mapping sys path (bytes_of (fx_kind f)) (flags_of (fx_kind f)) w) by (by destruct (fx_kind f)).
    destruct (create_mapping_cases sys Hos path _ _ w Hb Hfl)
      as [(i & fdv & a & E & Hd & Hi & Hfd & Ha & H0 & H1)|(e & w' & E & _)]; rewrite Hc, E; [|done].
    cbn [p_objects]. fold (cap_of f). split_and!; [by eapply own_obj | by left | intros o Hin; right; auto].
Qed.

Lemma accesses_Owned fs p w :
  Forall (fun f => f ∈ fixtures) fs -> Owned (p_objects p) w ->
  match accesses sys temp_directory_path pid fs p w with
  | (Ok ms, p', w') => Owned (p_objects p') w' /\ Forall2 (fun f m => Obj f m ∈ p_objects p') fs ms /\
      p_objects p ⊆ p_objects p'
  | (Throw _, _, _) => True
  | (UB, _, _) => False
  end.
Proof.
  intros Hfs. revert p w. induction Hfs as [|f fs Hf _ IH]; intros p w Ho; cbn [accesses]; [by split_and!|].
  pose proof (access_Owned f p w Hf Ho) as Ha.
  destruct (access _ _ _ _ _ _) as [[[m|e|] p1] w1]; [|done|done]. destruct Ha as (Ho1 & Hm & Hsub1).
  specialize (IH p1 w1 Ho1). destruct (accesses _ _ _ _ _ _) as [[[ms|e|] p2] w2]; [|done|done].
  destruct IH as (Ho2 & Hms & Hsub2). split_and!; [done | constructor; auto | by etrans].
Qed.
End Lifetime.

(** The benchmark fixtures from construction to exit.  Whatever the accessors
    called, in whatever order and however often, a program that has not been ended
    by an exception has one object per accessor, each with the capacity its
    accessor asks for, in a file of its own and with a control block and ring of
    zeros; no accessor has undefined behaviour.  When the objects are destroyed at
    exit every descriptor and mapping is released, the temporary files are gone,
    and all other names are as before. *)
Theorem fixtures_lifecycle sys temp_directory_path pid remove counter fs w :
  Posix sys -> (forall path w, remove path w = unlinked path w) -> Forall (fun f => f ∈ fixtures) fs ->
  match accesses sys temp_directory_path pid fs (mkProcess counter []) w with
  | (Ok ms, p, w1) =>
      Forall2 (fun f m => fresh_object f m w1 /\ bytes_of (fx_kind f) <= capacity m < bytes_of (fx_kind f) + 8 /\
        shared_at (image (cap_of f) (flags_of (fx_kind f))) 64 384 (capacity m) =
          mkShared (mkControl 0 0 0 0 0) (replicate (Z.to_nat (capacity m)) x00) 0) fs ms /\
      (forall j k f g m m', fs !! j = Some f -> fs !! k = Some g -> ms !! j = Some m -> ms !! k = Some m' ->
        (f = g <-> m = m')) /\
      let w2 := exit_objects sys remove (p_objects p) w1 in
      fds w2 = fds w /\ maps w2 = maps w /\
      forall path, dir w2 !! path = if decide (path ∈ paths (p_objects p)) then None else dir w !! path
  | (Throw _, _, _) => True
  | (UB, _, _) => False
  end.
Proof.
  intros Hos Hrm Hfs.
  pose proof (accesses_Owned sys Hos temp_directory_path pid w fs (mkProcess counter []) w Hfs (own_none w)) as Ha.
  destruct (accesses _ _ _ _ _ _) as [[[ms|e|] p] w1]; [|done|done]. destruct Ha as (Ho & Hms & _).
  split_and!.
  - eapply Forall2_impl; [exact Hms|]. intros f m Hin. cbn beta.
    pose proof (Owned_fresh w _ _ f m Ho Hin) as Hfr. pose proof Hfr as (i & _ & _ & Hcap & _).
    pose proof (Owned_fixture w _ _ f m Ho Hin) as Hf. destruct (fixtures_sized f Hf) as [Hb _].
    destruct (create_sizes _ Hb) as (Hc & _). fold (cap_of f) in Hc. rewrite Hcap.
    split_and!; [done | lia | lia |]. apply image_shared. lia.
  - intros j k f g m m' Hf Hg Hm Hm'.
    pose proof (Forall2_lookup_lr _ _ _ _ _ _ Hms Hf Hm) as Hin.
    pose proof (Forall2_lookup_lr _ _ _ _ _ _ Hms Hg Hm') as Hin'. cbn beta in *.
    rewrite <- (Owned_unique w _ _ f g m m' Ho Hin Hin'). split; [by intros -> |].
    apply fixtures_distinct; by eapply Owned_fixture.
  - destruct w1 as [I D F M]. pose proof (exit_Owned sys Hos remove Hrm w _ _ I D Ho) as He.
    cbn [fds maps] in He. cbv zeta. rewrite He. split_and!; [done | done |]. intros path. cbn [dir].
    rewrite dir_deleted. case_decide; [done|]. by apply (Owned_dir w _ _ path Ho).
Qed.

(** Four calls of three accessors. *)
Lemma fixtures_lifecycle_witness :
  exists m1 m2 p w1,
    accesses ideal_sys "/tmp" 7 [sl_conc; get_sl_write; sl_conc; sl_futex] (mkProcess 0 []) empty_world =
      (Ok [m1; m2; m1; mkMapping 5 5 456 5 69 389 72], p, w1) /\
    paths (p_objects p) = ["/tmp/bench_handoff_futex_7_2"; "/tmp/bench_futex_write_7_1"; "/tmp/bench_concurrent_spin_7_0"]%string /\
    fds (exit_objects ideal_sys unlinked (p_objects p) w1) = ∅.
Proof.
  assert (Hfs : Forall (fun f => f ∈ fixtures) [sl_conc; get_sl_write; sl_conc; sl_futex]).
  { repeat constructor; unfold fixtures; set_solver. }
  pose proof (fixtures_lifecycle ideal_sys "/tmp" 7 unlinked 0 _ empty_world ideal_posix (fun _ _ => eq_refl) Hfs) as H.
  remember (accesses ideal_sys "/tmp" 7 [sl_conc; get_sl_write; sl_conc; sl_futex] (mkProcess 0 []) empty_world) as x eqn:E.
  vm_compute in E. subst x. destruct H as (_ & _ & Hx & _).
  eexists _, _, _, _. split; [reflexivity|]. split; [reflexivity | exact Hx].
Defined.
