(* ===== verification/BenchFixed.v ===== *)
(** * The fixed-size benchmarks

    [BM_FixedSPSC_*] of bench/benchmark_ring_buffer.cpp and of
    bench/benchmark_boost_lockfree.cpp on [SPSCQueue], as loops of [Workload] over
    the interleavings of the queue. *)

From Stdlib Require Import ZArith Lia Strings.Byte.
From stdpp Require Import base list numbers gmap strings.
From S2P Require Import Prelude Memory Layout Prog Records SpscQueue SharedLatest WaitFree BenchData Workload Solo.

(** ** [SPSCQueue] *)

#[export] Instance qop_eq_dec : EqDecision qop.
Proof. solve_decision. Defined.

Inductive qlocals := QPopper (out : list byte) | QPusher (value : list byte).

(** [q.try_pop(out)] and [q.try_push(value)]. *)
Definition queue_call (l : qlocals) : qop :=
  match l with QPopper out => QPop out | QPusher value => QPush value end.

Definition queue_return (l : qlocals) (r : qres) : bool * qlocals :=
  match l, r with
  | QPopper _, QPopped ok out => (ok, QPopper out)
  | QPusher value, QPushed ok => (ok, l)
  | _, _ => (false, l)
  end.

(** Skipped unless there are exactly two threads. *)
Definition BM_FixedSPSC_Small (iterations threads thread_index : nat) : option (loop qlocals) :=
  if negb (threads =? 2)%nat then None else
  let payload := make_payload 32 in
  Some (if (thread_index =? 0)%nat
        then Loop iterations 1 0 (QPopper (replicate 32 x00))
        else Loop iterations 1 0 (QPusher payload)).

Definition BM_FixedSPSC_RobotState (iterations threads thread_index : nat) : option (loop qlocals) :=
  if negb (threads =? 2)%nat then None else
  let msg := robot_bytes state_msg in
  Some (if (thread_index =? 0)%nat
        then Loop iterations 1 0 (QPopper (replicate 192 x00))
        else Loop iterations 1 0 (QPusher msg)).

(** The same benchmarks in bench/benchmark_boost_lockfree.cpp. *)
Definition boost_FixedSPSC_Small (iterations threads thread_index : nat) : option (loop qlocals) :=
  if negb (threads =? 2)%nat then None else
  let payload := replicate 32 x5a in
  Some (if (thread_index =? 0)%nat
        then Loop iterations 1 0 (QPopper (replicate 32 x00))
        else Loop iterations 1 0 (QPusher payload)).

Definition boost_FixedSPSC_RobotState (iterations threads thread_index : nat) : option (loop qlocals) :=
  if negb (threads =? 2)%nat then None else
  let robot := robot_bytes make_robot_state in
  Some (if (thread_index =? 0)%nat
        then Loop iterations 1 0 (QPopper (replicate 192 x00))
        else Loop iterations 1 0 (QPusher robot)).

Inductive fixed_benchmark :=
| FixedSPSC_Small | FixedSPSC_RobotState | Boost_FixedSPSC_Small | Boost_FixedSPSC_RobotState.

Definition fixed_threads (b : fixed_benchmark) (iterations threads : nat) : list (loop qlocals) :=
  omap (match b with
        | FixedSPSC_Small => BM_FixedSPSC_Small iterations threads
        | FixedSPSC_RobotState => BM_FixedSPSC_RobotState iterations threads
        | Boost_FixedSPSC_Small => boost_FixedSPSC_Small iterations threads
        | Boost_FixedSPSC_RobotState => boost_FixedSPSC_RobotState iterations threads
        end) (List.seq 0 threads).

(** The template arguments of the queues, and the value sent. *)
Definition fixed_sizeof (b : fixed_benchmark) : Z :=
  match b with
  | FixedSPSC_Small | Boost_FixedSPSC_Small => 32
  | FixedSPSC_RobotState | Boost_FixedSPSC_RobotState => 192
  end.
(** [Capacity] is [2 ^ fixed_bits]. *)
Definition fixed_bits (b : fixed_benchmark) : Z :=
  match b with
  | FixedSPSC_Small | Boost_FixedSPSC_Small => 15
  | FixedSPSC_RobotState | Boost_FixedSPSC_RobotState => 14
  end.
Definition fixed_value (b : fixed_benchmark) : list byte :=
  match b with
  | FixedSPSC_Small => make_payload 32
  | FixedSPSC_RobotState => robot_bytes state_msg
  | Boost_FixedSPSC_Small => replicate 32 x5a
  | Boost_FixedSPSC_RobotState => robot_bytes make_robot_state
  end.

Abbreviation qobeys := (obeys queue_call queue_return).
Abbreviation qsuccesses := (successes queue_return).

Lemma queue_locals l r : match l with
  | QPopper _ => exists out, (queue_return l r).2 = QPopper out
  | QPusher v => (queue_return l r).2 = QPusher v
  end.
Proof. destruct l, r; simpl; eauto. Qed.

Lemma replay_locals (hist : list (qop * qres)) d : match locals d with
  | QPopper _ => exists out, locals (replay queue_return hist d) = QPopper out
  | QPusher v => locals (replay queue_return hist d) = QPusher v
  end.
Proof.
  revert d. induction hist as [|[o r] hist IH]; intros d; [simpl; destruct (locals d); eauto|].
  specialize (IH (returned queue_return d r)). rewrite returned_locals in IH.
  pose proof (queue_locals (locals d) r) as Hq. simpl.
  destruct (locals d); [destruct Hq as [out' Hq]|]; rewrite Hq in IH; exact IH.
Qed.

(** A producer pushes its value over and over. *)
Lemma fixed_pushed v d hist :
  locals d = QPusher v -> qobeys d hist -> qpushed hist = replicate (qsuccesses d hist) v.
Proof.
  revert d. induction hist as [|[o r] hist IH]; intros d Hd Ho; [done|].
  destruct Ho as [(_ & _ & ->)%next_call_Some Ho].
  pose proof (returned_locals queue_return d r) as Hl. rewrite Hd in Hl. pose proof (queue_locals (QPusher v) r) as Hq.
  rewrite Hq in Hl. specialize (IH _ Hl Ho). cbn [successes]. rewrite Hd.
  destruct r as [[]| |]; simpl; [f_equal|..]; exact IH.
Qed.

Lemma fixed_popped out d hist :
  locals d = QPopper out -> qobeys d hist -> length (qpopped hist) = qsuccesses d hist.
Proof.
  revert out d. induction hist as [|[o r] hist IH]; intros out d Hd Ho; [done|].
  destruct Ho as [(_ & _ & ->)%next_call_Some Ho].
  pose proof (returned_locals queue_return d r) as Hl. rewrite Hd in Hl. destruct (queue_locals (QPopper out) r) as [out' Hq].
  rewrite Hq in Hl. specialize (IH _ _ Hl Ho). cbn [successes]. rewrite Hd.
  destruct r as [|[]|]; simpl; [exact IH | f_equal; exact IH | exact IH..].
Qed.

Definition fixed_popper (b : fixed_benchmark) (iterations : nat) : loop qlocals :=
  Loop iterations 1 0 (QPopper (replicate (Z.to_nat (fixed_sizeof b)) x00)).
Definition fixed_pusher (b : fixed_benchmark) (iterations : nat) : loop qlocals :=
  Loop iterations 1 0 (QPusher (fixed_value b)).

Lemma fixed_threads_two b iterations :
  fixed_threads b iterations 2 = [fixed_popper b iterations; fixed_pusher b iterations].
Proof. by destruct b. Qed.

Lemma fixed_value_size b : Z.of_nat (length (fixed_value b)) = fixed_sizeof b.
Proof. destruct b; cbn [fixed_value fixed_sizeof]; rewrite ?length_robot_bytes; done. Qed.

Section Fixed.
Context (b : fixed_benchmark) (iterations : nat) (k : Z).
Abbreviation sz := (fixed_sizeof b).
Abbreviation threads_of := (fixed_threads b iterations 2).
Abbreviation any := (fun _ _ : shared => True).
Context (Hk : 0 <= k) (Hm : 2 ^ k * sz < 2 ^ 62).
Abbreviation run_of := (breach queue_call queue_return (qbody sz (2 ^ k)) (qrole sz) any threads_of).
Abbreviation step_of := (bstep queue_call queue_return (qbody sz (2 ^ k)) (qrole sz) any threads_of).
Context (s : shared) (Hf : qfresh sz k s).

Lemma fixed_size_pos : 0 < sz.
Proof. by destruct b. Qed.

(** The queue in a run of the benchmark: the counters agree with what the threads
    between calls have done. *)
Lemma fixed_reach c : run_of s c ->
  c_fault c = false /\ exists g, qInv sz k (c_sh c, g) /\
    (c_thr c !! 1%nat = None -> qpub g = qpushed (tlog 1 (c_log c))) /\
    (c_thr c !! O = None -> take (qH g) (qpub g) = qpopped (tlog 0 (c_log c))).
Proof.
  intros Hr. apply breach_creach in Hr.
  destruct (q_reach sz k s c fixed_size_pos Hk Hm Hf Hr) as (g & Hfl & HI & Ht).
  split; [done|]. exists g. split_and!; [done | |]; intros Hi.
  - specialize (Ht 1%nat). rewrite Hi in Ht. by destruct Ht as (_ & _ & Ht).
  - specialize (Ht O). rewrite Hi in Ht. by destruct Ht as (_ & _ & _ & Ht).
Qed.

Lemma fixed_histories c : run_of s c ->
  qpushed (tlog 1 (c_log c)) =
    replicate (iterations - pending queue_return threads_of 1 c) (fixed_value b) /\
  length (qpopped (tlog 0 (c_log c))) = (iterations - pending queue_return threads_of 0 c)%nat /\
  (pending queue_return threads_of 0 c <= iterations)%nat /\
  (pending queue_return threads_of 1 c <= iterations)%nat.
Proof.
  intros Hr. pose proof (breach_obeys _ _ _ _ _ _ _ _ Hr) as Ho.
  pose proof (Ho 0%nat) as Ho0. pose proof (Ho 1%nat) as Ho1.
  unfold thread_obeys, pending, thread_state in *. rewrite fixed_threads_two in *. simpl in *.
  destruct Ho0 as [Ho0 _], Ho1 as [Ho1 _].
  rewrite (fixed_pushed _ (fixed_pusher b iterations) _ eq_refl Ho1),
    (fixed_popped _ (fixed_popper b iterations) _ eq_refl Ho0).
  apply replay_remaining in Ho0. apply replay_remaining in Ho1.
  unfold remaining_calls in Ho0 at 2, Ho1 at 2. simpl in Ho0, Ho1. split_and!; [f_equal|..]; lia.
Qed.

(** A thread with work left has a next call. *)
Lemma fixed_next t (c : config (Op := qop) (R := qres)) :
  (t < 2)%nat -> (0 < pending queue_return threads_of t c)%nat ->
  exists d, thread_state queue_return threads_of t c = Some d /\
    next_call queue_call d = Some (queue_call (locals d)) /\
    match t with O => exists out, locals d = QPopper out | _ => locals d = QPusher (fixed_value b) end.
Proof.
  unfold pending, thread_state. rewrite fixed_threads_two. intros Ht.
  assert (Hnext : forall d, in_loop d -> (0 < remaining_calls d)%nat ->
    next_call queue_call d = Some (queue_call (locals d))).
  { intros d Hd Hrem. destruct (next_call queue_call d) as [o|] eqn:E.
    - f_equal. by apply next_call_Some in E as (_ & _ & ->).
    - apply next_call_None in E; [lia | done]. }
  destruct t as [|[|t]]; [| |lia]; simpl; intros Hrem; eexists; (split; [done|]); split;
    try (apply Hnext; [by apply replay_in_loop; right | done]).
  - exact (replay_locals _ (fixed_popper b iterations)).
  - exact (replay_locals _ (fixed_pusher b iterations)).
Qed.

Lemma fixed_finished c :
  c_thr c = ∅ -> (forall t, (t < 2)%nat -> pending queue_return threads_of t c = 0%nat) ->
  finished queue_call queue_return threads_of c = true.
Proof.
  intros Hi Hp. unfold finished, pending, thread_state in *. rewrite fixed_threads_two in *.
  apply forallb_forall. intros t Ht. apply in_seq in Ht. simpl in Ht. specialize (Hp t ltac:(lia)).
  rewrite Hi, lookup_empty. destruct t as [|[|t]]; [| |lia]; simpl in *;
    apply next_call_None with (call := queue_call) in Hp; try (by rewrite Hp);
    apply replay_in_loop; by right.
Qed.

(** Something can always be done: the consumer's next pop succeeds alone, or the
    queue is empty and the producer's next push does. *)
Lemma fixed_progress c :
  run_of s c -> c_thr c = ∅ -> finished queue_call queue_return threads_of c = false ->
  exists t d o r s', (t < length threads_of)%nat /\
    thread_state queue_return threads_of t c = Some d /\ next_call queue_call d = Some o /\
    qrole sz t o = true /\ eval [] (c_sh c) (qbody sz (2 ^ k) o) = Done (Some r) s' [] /\
    (queue_return (locals d) r).1 = true.
Proof.
  intros Hr Hi Hfin. destruct (fixed_reach c Hr) as (_ & [h pub] & HI & Hpub & Hpop).
  destruct (fixed_histories c Hr) as (Hp1 & Hp0 & Hle0 & Hle1). pose proof fixed_size_pos.
  rewrite Hi in Hpub, Hpop. specialize (Hpub eq_refl). specialize (Hpop eq_refl).
  destruct (qi_pos _ _ _ HI) as [Hh _]. simpl in Hpub, Hpop, Hh.
  rewrite <- Hpop, length_take in Hp0. rewrite <- Hpub in Hp1.
  apply (f_equal length) in Hp1. rewrite length_replicate in Hp1.
  assert (Hlen : length threads_of = 2%nat) by (by rewrite fixed_threads_two).
  destruct (pub !! h) as [v|] eqn:E.
  - pose proof (lookup_lt_Some _ _ _ E). destruct (fixed_next 0 c) as (d & Hd & Hn & out & Hl); [lia | lia |].
    destruct (qpop_eval sz k ltac:(done) Hk Hm out _ h pub [] HI) as (s' & He & _). rewrite E in He.
    rewrite Hl in Hn. exists O, d, (QPop out), (QPopped true v), s'. rewrite Hl, Hlen.
    split_and!; [lia | done | done | done | | done]. cbn [qbody]. by rewrite eval_pmap, He.
  - apply lookup_ge_None in E.
    destruct (decide (pending queue_return threads_of 1 c = 0%nat)).
    { rewrite fixed_finished in Hfin; [done | done |]. intros [|[|t]] Ht; lia. }
    destruct (fixed_next 1 c) as (d & Hd & Hn & Hl); [lia | lia |].
    destruct (qpush_eval sz k ltac:(done) Hk Hm (fixed_value b) _ h pub [] (fixed_value_size b) HI)
      as (s' & He & _). rewrite (proj2 (Z.ltb_lt _ _)) in He by lia.
    rewrite Hl in Hn. exists 1%nat, d, (QPush (fixed_value b)), (QPushed true), s'. rewrite Hl, Hlen.
    split_and!; [lia | done | done | | | done].
    + apply Z.eqb_eq, fixed_value_size.
    + cbn [qbody]. by rewrite eval_pmap, He.
Qed.

(** Every call under way can be completed. *)
Lemma fixed_bounded c : run_of s c -> all_bounded (queue_bound sz) c.
Proof.
  unfold breach. revert c. apply rtc_ind_r; [done|]. intros c1 c2 Hr [a Ha Hal] IH. eapply all_bounded_step; [apply queue_bounded | exact IH | by eapply bnext_cnext |].
  apply fixed_reach. unfold breach. eapply rtc_r; [exact Hr|]. by econstructor.
Qed.

Lemma fixed_settle t c : run_of s c -> exists c1, rtc step_of c c1 /\ c_thr c1 = delete t (c_thr c).
Proof.
  intros Hr. destruct (c_thr c !! t) as [[o p]|] eqn:E.
  - destruct (finish_call (qbody sz (2 ^ k)) (qrole sz) (queue_bound sz) t o p c) as (m & c1 & Hc & Hd).
    + done.
    + by eapply fixed_bounded.
    + intros acts c' Ha. destruct (q_reach sz k s c' fixed_size_pos Hk Hm Hf) as (g & Hfl & _); [|done].
      apply breach_creach in Hr. unfold creach in *. etrans; [exact Hr|]. by apply (crun_rtc _ _ _ acts).
    + exists c1. split; [|done]. by eapply accesses_run.
  - exists c. split; [apply rtc_refl|]. by rewrite delete_id.
Qed.

Lemma fixed_completes c : run_of s c ->
  exists c', rtc step_of c c' /\ finished queue_call queue_return threads_of c' = true.
Proof.
  intros Hr. destruct (fixed_settle 0 c Hr) as (c1 & H1 & E1).
  assert (Hr1 : run_of s c1) by (unfold breach in *; by etrans).
  destruct (fixed_settle 1 c1 Hr1) as (c2 & H2 & E2).
  assert (Hr2 : run_of s c2) by (unfold breach in *; by etrans).
  assert (Hi : c_thr c2 = ∅).
  { apply map_empty. intros t. rewrite E2, E1. destruct t as [|[|t]].
    - rewrite lookup_delete_ne, lookup_delete_eq by done. done.
    - by rewrite lookup_delete_eq.
    - rewrite !lookup_delete_ne by done.
      pose proof (breach_obeys _ _ _ _ _ _ _ _ Hr (S (S t))) as Ho. unfold thread_obeys in Ho.
      rewrite fixed_threads_two in Ho. apply Ho. }
  destruct (can_finish queue_call queue_return (qbody sz (2 ^ k)) (qrole sz) any threads_of
    ltac:(done) s c2 fixed_progress Hr2 Hi) as (c3 & H3 & _ & Hfin).
  exists c3. split; [|done]. etrans; [exact H1|]. by etrans.
Qed.
End Fixed.

(** C35: the [SPSCQueue] benchmarks cannot get stuck and measure what they report.
    From every state a run of the producer and the consumer can reach, also in the
    middle of calls, some continuation takes both to the end of their loops; and
    wherever they end, no access was out of bounds, the producer has pushed its
    value [iterations] times, and the consumer has received exactly that. *)
Theorem fixed_benchmarks_complete b iterations k s c :
  0 <= k -> 2 ^ k * fixed_sizeof b < 2 ^ 62 -> qfresh (fixed_sizeof b) k s ->
  breach queue_call queue_return (qbody (fixed_sizeof b) (2 ^ k)) (qrole (fixed_sizeof b))
    (fun _ _ => True) (fixed_threads b iterations 2) s c ->
  (exists c', rtc (bstep queue_call queue_return (qbody (fixed_sizeof b) (2 ^ k))
       (qrole (fixed_sizeof b)) (fun _ _ => True) (fixed_threads b iterations 2)) c c' /\
     finished queue_call queue_return (fixed_threads b iterations 2) c' = true) /\
  (finished queue_call queue_return (fixed_threads b iterations 2) c = true ->
     c_fault c = false /\ qpushed (tlog 1 (c_log c)) = replicate iterations (fixed_value b) /\
     qpopped (tlog 0 (c_log c)) = replicate iterations (fixed_value b)).
Proof.
  intros Hk Hm Hf Hr. split; [by apply (fixed_completes b iterations k Hk Hm s Hf)|]. intros Hfin.
  destruct (fixed_reach b iterations k Hk Hm s Hf c Hr) as (Hfl & g & HI & Hpub & Hpop). split; [done|].
  rewrite fixed_threads_two in Hr, Hfin.
  destruct (finished_successes _ _ _ _ _ _ _ _ O (fixed_popper b iterations) Hr Hfin eq_refl)
    as (Hi0 & Ho0 & Hs0); [by right|].
  destruct (finished_successes _ _ _ _ _ _ _ _ 1 (fixed_pusher b iterations) Hr Hfin eq_refl)
    as (Hi1 & Ho1 & Hs1); [by right|].
  specialize (Hpub Hi1). specialize (Hpop Hi0).
  assert (Hpush : qpushed (tlog 1 (c_log c)) = replicate iterations (fixed_value b)).
  { rewrite (fixed_pushed _ (fixed_pusher b iterations) _ eq_refl Ho1), Hs1. f_equal.
    unfold remaining_calls. simpl. lia. }
  split; [done|]. rewrite <- Hpop, Hpub, Hpush. apply take_ge. rewrite length_replicate.
  apply (f_equal length) in Hpop. rewrite (fixed_popped _ (fixed_popper b iterations) _ eq_refl Ho0), Hs0 in Hpop.
  rewrite length_take in Hpop. unfold remaining_calls in Hpop. simpl in Hpop. lia.
Qed.

(** One slot: the consumer finds nothing while the push is under way, then pops. *)
Definition one_slot : shared := mkShared (mkControl 0 0 0 0 0) (replicate 32 x00) 0.

Definition one_slot_run : config :=
  default (init_config one_slot) (turns queue_call queue_return (qbody 32 (2 ^ 0)) (qrole 32)
    (fixed_threads FixedSPSC_Small 1 2) (fun _ _ => true)
    [(1, 20); (0, 3); (1, 16); (0, 36)]%nat (init_config one_slot)).

Lemma fixed_benchmarks_complete_witness :
  c_log one_slot_run <> [] /\
  (exists c', rtc (bstep queue_call queue_return (qbody 32 (2 ^ 0)) (qrole 32) (fun _ _ => True)
       (fixed_threads FixedSPSC_Small 1 2)) one_slot_run c' /\
     finished queue_call queue_return (fixed_threads FixedSPSC_Small 1 2) c' = true) /\
  (finished queue_call queue_return (fixed_threads FixedSPSC_Small 1 2) one_slot_run = true ->
     c_fault one_slot_run = false /\
     qpushed (tlog 1 (c_log one_slot_run)) = replicate 1 (make_payload 32) /\
     qpopped (tlog 0 (c_log one_slot_run)) = replicate 1 (make_payload 32)).
Proof.
  split; [vm_compute; discriminate|].
  apply (fixed_benchmarks_complete FixedSPSC_Small 1 0 one_slot one_slot_run); [lia | reflexivity | split; [done | simpl; lia] |].
  apply (turns_breach _ _ _ _ _ _ (fun _ _ => true) [(1, 20); (0, 3); (1, 16); (0, 36)]%nat);
    [done | vm_compute; reflexivity].
Defined.
