(* ===== verification/BenchLatest.v ===== *)
(** * SharedLatest benchmarks

    The single-threaded benchmarks of [SharedLatest] (bench/benchmark_futex.cpp
    and bench/benchmark_ring_buffer.cpp) as sequential loops, and the one with a
    reader and a writer as loops of [Workload]. *)

From Stdlib Require Import ZArith Lia Strings.Byte Sorting.Sorted.
From stdpp Require Import base list numbers gmap strings.
From S2P Require Import Prelude Memory Layout Prog SharedLatest BenchData Workload.

(** ** One thread *)

(** A call that runs alone. *)
Definition exec {R} (p : prog (option R)) (s : shared) : option (R * shared) :=
  match eval [] s p with Done (Some r) s' _ => Some (r, s') | _ => None end.

(** [for (auto _ : state) { change msg; write(msg); }]. *)
Fixpoint write_loop {V} (change : V -> V) (write : V -> prog (option unit)) (iterations : nat)
    (msg : V) (s : shared) : option (V * shared) :=
  match iterations with
  | O => Some (msg, s)
  | S n =>
      let msg := change msg in
      match exec (write msg) s with
      | Some (_, s) => write_loop change write n msg s
      | None => None
      end
  end.

Definition BM_Latest_RobotState_Write (iterations : nat) (s : shared) : option (RobotState * shared) :=
  write_loop next_tick (fun msg => write 192 (robot_bytes msg)) iterations state_msg s.

Definition BM_Write_NoFutex (iterations : nat) (s : shared) : option (Command * shared) :=
  write_loop next_command (fun cmd => write 72 (command_bytes cmd)) iterations make_command s.

Definition BM_WriteAndNotify_WithFutex (iterations : nat) (s : shared) : option (Command * shared) :=
  write_loop next_command (fun cmd => write_and_notify 72 (command_bytes cmd)) iterations make_command s.

(** [for (auto _ : state) { if (try_read(out, retries)) ++ok; else ++fail; }]. *)
Fixpoint read_count (sz : Z) (retries iterations : nat) (out : list byte) (ok fail : Z) (s : shared)
  : option (list byte * Z * Z) :=
  match iterations with
  | O => Some (out, ok, fail)
  | S n =>
      match exec (try_read sz out retries) s with
      | Some ((true, out), s) => read_count sz retries n out (ok + 1) fail s
      | Some ((false, out), s) => read_count sz retries n out ok (fail + 1) s
      | None => None
      end
  end.

Definition BM_Latest_RobotState_Read (iterations : nat) (s : shared) : option (list byte * Z * Z) :=
  match exec (write 192 (robot_bytes seed_msg)) s with
  | Some (_, s) => read_count 192 64 iterations (robot_bytes (mkRobot 0 0 0 (zeros 3) (zeros 3) (zeros 32))) 0 0 s
  | None => None
  end.

(** The slot is seeded when it is created; [try_read] has 1024 retries by
    default, and its result is ignored. *)
Definition BM_TryRead_Baseline (iterations : nat) (s : shared) : option (list byte) :=
  match exec (write 72 (command_bytes make_command)) s with
  | Some (_, s) => (fun r => r.1.1) <$> read_count 72 1024 iterations (replicate 72 x00) 0 0 s
  | None => None
  end.

(** A slot in which no write is under way. *)
Definition at_rest (sz : Z) (s : shared) : Prop :=
  sz <= Z.of_nat (length (ring s)) /\ Z.land (load FSequence s) 1 = 0.

Lemma write_at_rest sz v s :
  0 < sz -> Z.of_nat (length v) = sz -> at_rest sz s ->
  at_rest sz (after_write v s) /\ take (Z.to_nat sz) (ring (after_write v s)) = v /\
  load FSequence (after_write v s) = add64 (load FSequence s) 2 /\
  load FTailPublish (after_write v s) = load FTailPublish s.
Proof.
  intros Hsz Hv [Hl He]. unfold at_rest, after_write. autorewrite with lfring. split_and!.
  - rewrite length_splice; lia.
  - by apply even_next.
  - unfold splice. simpl. by rewrite take_app_le, take_ge by lia.
  - done.
  - done.
Qed.

Section Writes.
Context {V : Type} (change : V -> V) (rep : V -> list byte) (sz : Z) (Hsz : 0 < sz).
(** The values of the right size. *)
Context (ok : V -> Prop) (Hok : forall v, ok v -> ok (change v)).
Context (Hrep : forall v, ok v -> Z.of_nat (length (rep v)) = sz) (notify : bool).

Definition writer (v : V) : prog (option unit) :=
  if notify then write_and_notify sz (rep v) else write sz (rep v).

(** One write, and the notification. *)
Lemma writer_exec v s :
  ok v -> at_rest sz s ->
  exists s', exec (writer v) s = Some (tt, s') /\ at_rest sz s' /\ take (Z.to_nat sz) (ring s') = rep v /\
    load FSequence s' = add64 (load FSequence s) 2 /\
    load FTailPublish s' = if notify then add64 (load FTailPublish s) 1 else load FTailPublish s.
Proof.
  intros Hv Hs. pose proof Hs as [Hl _]. pose proof (Hrep _ Hv) as Hlen.
  destruct (write_at_rest sz (rep v) s Hsz Hlen Hs) as ([Hl' He'] & Ht & Hq & Hp).
  unfold exec, writer. destruct notify.
  - unfold write_and_notify. rewrite write_eval by done. cbn [eval]. eexists. split; [reflexivity|].
    unfold at_rest. autorewrite with lfring. by rewrite Hp.
  - unfold write. rewrite write_eval by done. cbn [eval]. eexists. split; [reflexivity|]. by split_and!.
Qed.

Lemma write_loop_ok n v s :
  ok v -> at_rest sz s ->
  exists s', write_loop change writer n v s = Some (Nat.iter n change v, s') /\ at_rest sz s' /\
    u64 (load FSequence s') = u64 (load FSequence s + 2 * Z.of_nat n) /\
    u64 (load FTailPublish s') = u64 (load FTailPublish s + if notify then Z.of_nat n else 0) /\
    take (Z.to_nat sz) (ring s') =
      match n with O => take (Z.to_nat sz) (ring s) | S _ => rep (Nat.iter n change v) end.
Proof.
  revert v s. induction n as [|n IH]; intros v s Hv Hs.
  { exists s. split_and!; try done; f_equal; [|destruct notify]; lia. }
  cbn [write_loop]. destruct (writer_exec (change v) s (Hok _ Hv) Hs) as (s1 & -> & Hs1 & Ht & Hq & Hp).
  destruct (IH (change v) s1 (Hok _ Hv) Hs1) as (s' & -> & Hs' & Hq' & Hp' & Ht').
  rewrite <- Nat.iter_succ_r in *. exists s'. split_and!; [done | done | | | ].
  - rewrite Hq', Hq. unfold add64, u64. rewrite Zplus_mod_idemp_l. f_equal. lia.
  - rewrite Hp', Hp. destruct notify; [|done]. unfold add64, u64. rewrite Zplus_mod_idemp_l. f_equal. lia.
  - rewrite Ht'. by destruct n.
Qed.
End Writes.

Lemma read_count_ok sz retries n out ok fail v s :
  0 < sz -> at_rest sz s -> Z.of_nat (length v) = sz -> take (Z.to_nat sz) (ring s) = v ->
  read_count sz (S retries) n out ok fail s =
    Some (match n with O => out | S _ => v end, ok + Z.of_nat n, fail).
Proof.
  intros Hsz [Hl He] Hv Ht. revert out ok. induction n as [|n IH]; intros out ok.
  { simpl. do 2 f_equal. f_equal. lia. }
  cbn [read_count]. unfold exec, try_read.
  destruct (read_eval sz Hsz v s [] out retries He Hv Ht) as [-> _]. rewrite IH.
  replace (ok + 1 + Z.of_nat n) with (ok + Z.of_nat (S n)) by lia. by destruct n.
Qed.

(** The single-threaded write benchmarks, on a slot at rest: every run ends;
    it has written the value changed [iterations] times, which is what the slot
    holds then; the sequence counter has grown by two for every write, and the
    notification counter by one for every [write_and_notify] and by none for a
    [write]. *)
Theorem write_benchmarks_end iterations s :
  at_rest 192 s ->
  (exists s', BM_Latest_RobotState_Write iterations s = Some (Nat.iter iterations next_tick state_msg, s') /\
     at_rest 192 s' /\ u64 (load FSequence s') = u64 (load FSequence s + 2 * Z.of_nat iterations) /\
     u64 (load FTailPublish s') = u64 (load FTailPublish s + 0) /\
     take 192 (ring s') =
       match iterations with
       | O => take 192 (ring s)
       | S _ => robot_bytes (Nat.iter iterations next_tick state_msg)
       end) /\
  forall notify : bool, exists s',
    (if notify then BM_WriteAndNotify_WithFutex else BM_Write_NoFutex) iterations s =
      Some (Nat.iter iterations next_command make_command, s') /\
    at_rest 72 s' /\ u64 (load FSequence s') = u64 (load FSequence s + 2 * Z.of_nat iterations) /\
    u64 (load FTailPublish s') =
      u64 (load FTailPublish s + if notify then Z.of_nat iterations else 0) /\
    take 72 (ring s') =
      match iterations with
      | O => take 72 (ring s)
      | S _ => command_bytes (Nat.iter iterations next_command make_command)
      end.
Proof.
  intros Hs. split.
  - apply (write_loop_ok next_tick robot_bytes 192 ltac:(lia) robot_ok next_tick_ok) with (notify := false);
      [|done | done]. intros v Hv. by rewrite length_robot_bytes.
  - intros notify. assert (Hs' : at_rest 72 s) by (destruct Hs; split; [lia | done]).
    destruct (write_loop_ok next_command command_bytes 72 ltac:(lia) (fun _ => True) ltac:(done)
      ltac:(intros v _; by rewrite length_command_bytes) notify iterations make_command s I Hs')
      as (s' & He & Hrest). exists s'. split; [|exact Hrest]. by destruct notify.
Qed.

(** Two writes of the notifying benchmark. *)
Definition slot192 : shared := mkShared (mkControl 0 0 0 0 0) (replicate 192 x00) 5.

Lemma write_benchmarks_end_witness :
  at_rest 192 slot192 /\
  exists s', BM_WriteAndNotify_WithFutex 2 slot192 =
      Some (next_command (next_command make_command), s') /\
    at_rest 72 s' /\ u64 (load FSequence s') = 4 /\ u64 (load FTailPublish s') = 2 /\
    take 72 (ring s') = command_bytes (next_command (next_command make_command)).
Proof.
  assert (Hs : at_rest 192 slot192) by (split; [simpl; lia | done]). split; [done|].
  apply (proj2 (write_benchmarks_end 2 slot192 Hs) true).
Defined.

(** The single-threaded read benchmarks, on a slot at rest: every read
    succeeds at once and returns the value the benchmark wrote first, so that the
    count of failures it reports is zero. *)
Theorem read_benchmarks_succeed iterations s :
  at_rest 192 s ->
  BM_Latest_RobotState_Read iterations s =
    Some (robot_bytes (match iterations with
                       | O => mkRobot 0 0 0 (zeros 3) (zeros 3) (zeros 32)
                       | S _ => seed_msg
                       end), Z.of_nat iterations, 0) /\
  BM_TryRead_Baseline iterations s =
    Some (match iterations with O => replicate 72 x00 | S _ => command_bytes make_command end).
Proof.
  intros Hs. assert (Hs' : at_rest 72 s) by (destruct Hs; split; [lia | done]).
  unfold BM_Latest_RobotState_Read, BM_TryRead_Baseline.
  destruct (writer_exec robot_bytes 192 ltac:(lia) robot_ok
    ltac:(intros v Hv; by rewrite length_robot_bytes) false seed_msg s ltac:(done) Hs)
    as (s1 & E1 & Hs1 & Ht1 & _).
  destruct (writer_exec command_bytes 72 ltac:(lia) (fun _ => True)
    ltac:(intros v _; by rewrite length_command_bytes) false make_command s I Hs')
    as (s2 & E2 & Hs2 & Ht2 & _).
  unfold writer in E1, E2. rewrite E1, E2.
  rewrite (read_count_ok 192 63 iterations _ 0 0 (robot_bytes seed_msg) s1),
    (read_count_ok 72 1023 iterations _ 0 0 (command_bytes make_command) s2);
    try done; by destruct iterations.
Qed.

Lemma read_benchmarks_succeed_witness :
  BM_Latest_RobotState_Read 3 slot192 = Some (robot_bytes seed_msg, 3, 0) /\
  BM_TryRead_Baseline 3 slot192 = Some (command_bytes make_command).
Proof. apply (read_benchmarks_succeed 3 slot192). split; [simpl; lia | done]. Defined.

(** ** A reader and a writer *)

#[export] Instance lop_eq_dec : EqDecision lop.
Proof. solve_decision. Defined.

(** The local variables of a reader and of a writer of either benchmark. *)
Inductive llocals :=
| LatestReader (out : list byte) (ok fail : Z)
| LatestWriter (msg : RobotState)
| CommandReader (out : list byte)
| CommandWriter (cmd : Command).

(** [latest.try_read(out, 64)]; [msg.tick++; latest.write(msg)];
    [sl_conc.try_read(out)] with its default of 1024 attempts;
    [cmd.x_vel += 0.001; sl_conc.write(cmd)]. *)
Definition latest_call (l : llocals) : lop :=
  match l with
  | LatestReader out _ _ => LRead out 64
  | LatestWriter msg => LWrite (robot_bytes (next_tick msg)) false
  | CommandReader out => LRead out 1024
  | CommandWriter cmd => LWrite (command_bytes (next_command cmd)) false
  end.

(** Each iteration makes one call, whatever it returns. *)
Definition latest_return (l : llocals) (r : lres) : bool * llocals :=
  match l, r with
  | LatestReader _ ok fail, LReadDone b out =>
      (true, if b then LatestReader out (ok + 1) fail else LatestReader out ok (fail + 1))
  | LatestWriter msg, _ => (true, LatestWriter (next_tick msg))
  | CommandReader _, LReadDone _ out => (true, CommandReader out)
  | CommandWriter cmd, _ => (true, CommandWriter (next_command cmd))
  | l, _ => (true, l)
  end.

(** Skipped unless there are exactly two threads. *)
Definition BM_Latest_RobotState_RW (iterations threads thread_index : nat) : option (loop llocals) :=
  if negb (threads =? 2)%nat then None else
  Some (if (thread_index =? 0)%nat
        then Loop iterations 1 0 (LatestReader (replicate 192 x00) 0 0)
        else Loop iterations 1 0 (LatestWriter seed_msg)).

(** The slot is seeded when it is created. *)
Definition seed_sl_conc (s : shared) : option shared :=
  match exec (write 72 (command_bytes make_command)) s with Some (_, s) => Some s | None => None end.

(** Here thread 0 writes. *)
Definition BM_Concurrent_WriteRead_Spin (iterations threads thread_index : nat) : option (loop llocals) :=
  if negb (threads =? 2)%nat then None else
  Some (if (thread_index =? 0)%nat
        then Loop iterations 1 0 (CommandWriter make_command)
        else Loop iterations 1 0 (CommandReader (replicate 72 x00))).

Inductive rw_benchmark := Latest_RW | Concurrent_Spin.

Definition rw_size (b : rw_benchmark) : Z := match b with Latest_RW => 192 | Concurrent_Spin => 72 end.

(** The threads, the reader first. *)
Definition rw_threads (b : rw_benchmark) (iterations : nat) : list (loop llocals) :=
  match b with
  | Latest_RW => omap (BM_Latest_RobotState_RW iterations 2) (List.seq 0 2)
  | Concurrent_Spin => reverse (omap (BM_Concurrent_WriteRead_Spin iterations 2) (List.seq 0 2))
  end.

Definition rw_reader (b : rw_benchmark) : llocals :=
  match b with
  | Latest_RW => LatestReader (replicate 192 x00) 0 0
  | Concurrent_Spin => CommandReader (replicate 72 x00)
  end.
Definition rw_writer (b : rw_benchmark) : llocals :=
  match b with Latest_RW => LatestWriter seed_msg | Concurrent_Spin => CommandWriter make_command end.

(** The slot when the threads start. *)
Definition rw_start (b : rw_benchmark) (s : shared) : option shared :=
  match b with Latest_RW => Some s | Concurrent_Spin => seed_sl_conc s end.

(** What thread 0 of the first benchmark reports when it is done: items processed
    and failures. *)
Definition rw_counters (d : loop llocals) : option (Z * Z) :=
  match locals d with LatestReader _ ok fail => Some (ok, fail) | _ => None end.

Abbreviation lobeys := (obeys latest_call latest_return).

(** What the next iteration of a writer writes, and the messages of [n]
    iterations. *)
Definition written_by (l : llocals) : option (list byte) :=
  match latest_call l with LWrite v _ => Some v | _ => None end.

Fixpoint messages (l : llocals) (n : nat) : list (list byte) :=
  match n with
  | O => []
  | S n => match written_by l with Some v => v :: messages (latest_return l LWrote).2 n | None => [] end
  end.

(** A writer stays a writer, and a reader a reader. *)
Lemma writer_stays l r v : written_by l = Some v ->
  latest_call l = LWrite v false /\ (latest_return l r).2 = (latest_return l LWrote).2 /\
  exists v', written_by (latest_return l LWrote).2 = Some v'.
Proof. destruct l; intros E; try done; injection E as <-; simpl; eauto. Qed.

Lemma reader_stays l b out : written_by l = None -> written_by (latest_return l (LReadDone b out)).2 = None.
Proof. destruct l, b; done. Qed.

Lemma rw_written d hist v :
  written_by (locals d) = Some v -> lobeys d hist -> Forall (fun e => e.2 = LWrote) hist ->
  lwrites hist = messages (locals d) (successes latest_return d hist).
Proof.
  revert d v. induction hist as [|[o r] hist IH]; intros d v Hd Ho Hw; [done|].
  destruct Ho as [(_ & _ & ->)%next_call_Some Ho]. apply Forall_cons in Hw as [Hr Hw]. simpl in Hr. subst r.
  destruct (writer_stays _ LWrote _ Hd) as (Hc & _ & v' & Hv').
  rewrite <- (returned_locals latest_return d LWrote) in Hv'. specialize (IH _ _ Hv' Ho Hw).
  cbn [successes]. assert (Hok : (latest_return (locals d) LWrote).1 = true) by (by destruct (locals d)).
  rewrite Hok. cbn [Nat.add messages]. rewrite Hd, Hc. cbn [lwrites omap list_omap]. f_equal.
  rewrite <- returned_locals. exact IH.
Qed.

Lemma rw_read out ok fail d hist :
  locals d = LatestReader out ok fail -> lobeys d hist -> Forall (fun e => exists b v, e.2 = LReadDone b v) hist ->
  exists out', locals (replay latest_return hist d) =
    LatestReader out' (ok + Z.of_nat (length (lreads hist)))
      (fail + Z.of_nat (successes latest_return d hist) - Z.of_nat (length (lreads hist))).
Proof.
  revert out ok fail d. induction hist as [|[o r] hist IH]; intros out ok fail d Hd Ho Hw.
  { exists out. simpl. rewrite Hd. f_equal; lia. }
  destruct Ho as [(_ & _ & ->)%next_call_Some Ho]. apply Forall_cons in Hw as [(b & v & Hr) Hw]. simpl in Hr. subst r.
  pose proof (returned_locals latest_return d (LReadDone b v)) as Hl. rewrite Hd in Hl.
  destruct b; simpl in Hl; destruct (IH _ _ _ _ Hl Ho Hw) as [out' E]; exists out';
    cbn [replay foldl successes]; rewrite Hd; simpl in *; unfold replay in E; rewrite E; f_equal; simpl; lia.
Qed.

(** A write returns nothing, a read whether it succeeded and the value. *)
Definition latest_results (o : lop) (r : lres) : Prop :=
  match o with
  | LWrite _ _ => r = LWrote
  | LRead _ _ => exists b v, r = LReadDone b v
  | _ => True
  end.

Lemma latest_body_results sz o : results (result_ok latest_results o) (lbody sz o).
Proof.
  destruct o as [v [] | out n | out d n | d | cap d]; cbn [lbody]; apply results_pmap;
    intros [x|]; simpl; eauto.
Qed.

Lemma rw_results sz loops s c t :
  breach latest_call latest_return (lbody sz) (lrole sz) lmono loops s c ->
  Forall (fun e => latest_results e.1 e.2) (tlog t (c_log c)).
Proof. intros Hr%breach_creach. by eapply tlog_results; [apply latest_body_results|]. Qed.

(** Results of a thread that only makes one kind of call. *)
Lemma rw_writer_results d hist v :
  written_by (locals d) = Some v -> lobeys d hist -> Forall (fun e => latest_results e.1 e.2) hist ->
  Forall (fun e => e.2 = LWrote) hist.
Proof.
  revert d v. induction hist as [|[o r] hist IH]; intros d v Hd Ho Hr; constructor;
    destruct Ho as [(_ & _ & ->)%next_call_Some Ho]; apply Forall_cons in Hr as [Hr0 Hr];
    destruct (writer_stays _ r _ Hd) as (Hc & Hs & v' & Hv').
  - cbn [fst snd] in *. rewrite Hc in Hr0. exact Hr0.
  - eapply IH; [|exact Ho | exact Hr]. rewrite returned_locals, Hs. exact Hv'.
Qed.

Lemma rw_reader_results d hist :
  written_by (locals d) = None -> lobeys d hist -> Forall (fun e => latest_results e.1 e.2) hist ->
  Forall (fun e => exists b v, e.2 = LReadDone b v) hist.
Proof.
  revert d. induction hist as [|[o r] hist IH]; intros d Hd Ho Hr; [constructor|].
  destruct Ho as [(_ & _ & ->)%next_call_Some Ho]. apply Forall_cons in Hr as [Hr0 Hr].
  assert (Hr1 : exists b v, r = LReadDone b v) by (cbn [fst snd] in Hr0; destruct (locals d); done).
  destruct Hr1 as (b & v & ->). constructor; [simpl; eauto|].
  eapply IH; [|exact Ho | exact Hr]. rewrite returned_locals. by apply reader_stays.
Qed.

(** A finished run of a reader and a writer. *)
Lemma rw_finished sz n reader writer v s c :
  0 < sz -> at_rest sz s -> 0 <= load FSequence s < 2 ^ 64 ->
  written_by reader = None -> written_by writer = Some v ->
  let loops := [Loop n 1 0 reader; Loop n 1 0 writer] in
  breach latest_call latest_return (lbody sz) (lrole sz) lmono loops s c ->
  finished latest_call latest_return loops c = true ->
  c_fault c = false /\ lwrites (tlog 1 (c_log c)) = messages writer n /\
  lobeys (Loop n 1 0 reader) (tlog 0 (c_log c)) /\
  successes latest_return (Loop n 1 0 reader) (tlog 0 (c_log c)) = n /\
  exists idx, StronglySorted le idx /\
    Forall2 (fun i (e : bool * list byte) =>
        (take (Z.to_nat sz) (ring s) :: messages writer n) !! i = Some e.2)
      idx (lreads (tlog 0 (c_log c))).
Proof.
  intros Hsz [Hl He] Hq Hrd Hwr loops Hr Hfin. pose proof (breach_creach _ _ _ _ _ _ _ _ Hr) as Hr'.
  destruct (l_reach sz Hsz _ _ s c (lquiet_of sz s Hl Hq He) Hr') as (g & Hf & HI & Ht). split; [done|].
  destruct (finished_successes _ _ _ _ _ _ _ _ O (Loop n 1 0 reader) Hr Hfin eq_refl)
    as (Hi0 & Ho0 & Hs0); [by right|].
  destruct (finished_successes _ _ _ _ _ _ _ _ 1 (Loop n 1 0 writer) Hr Hfin eq_refl)
    as (Hi1 & Ho1 & Hs1); [by right|].
  unfold remaining_calls in Hs0, Hs1. simpl in Hs0, Hs1. rewrite Nat.sub_0_r, Nat.mul_1_r in Hs0, Hs1.
  assert (Hw : lwrites (tlog 1 (c_log c)) = messages writer n).
  { rewrite <- Hs1. apply (rw_written (Loop n 1 0 writer) _ v); [done | done|].
    by eapply (rw_writer_results (Loop n 1 0 writer)); [| | eapply rw_results]. }
  split_and!; [done | done | done |].
  pose proof (Ht 1%nat) as Ht1. rewrite Hi1 in Ht1. destruct Ht1 as [_ (Hv & Hne & _)]. simpl in Hv.
  pose proof (Ht O) as Ht0. rewrite Hi0 in Ht0. destruct Ht0 as [(idx & Hidx & Hsort & _) _]. simpl in Hidx.
  exists idx. split; [done|].
  pose proof (li_head _ _ _ _ HI) as Hh. simpl in Hh. rewrite Hw in Hv.
  destruct (lvals g) as [|v0 vals]; [done|]. injection Hh as ->. simpl in Hv. subst vals.
  eapply Forall2_impl; [exact Hidx|]. by intros i e [? _].
Qed.

(** The slot of the second benchmark holds its seed, at rest. *)
Lemma rw_start_rest b s s0 :
  rw_start b s = Some s0 -> at_rest (rw_size b) s -> 0 <= load FSequence s < 2 ^ 64 ->
  at_rest (rw_size b) s0 /\ 0 <= load FSequence s0 < 2 ^ 64 /\
  (b = Concurrent_Spin -> take 72 (ring s0) = command_bytes make_command).
Proof.
  destruct b; cbn [rw_start rw_size]; intros Hs Hr Hq; [by injection Hs as <-|].
  destruct (writer_exec command_bytes 72 ltac:(lia) (fun _ => True)
    ltac:(intros v _; by rewrite length_command_bytes) false make_command s I Hr)
    as (s1 & E1 & Hs1 & Ht1 & Hq1 & _).
  unfold seed_sl_conc, writer in *. rewrite E1 in Hs. injection Hs as <-. split; [done|]. split; [|done].
  rewrite Hq1. unfold add64, u64. dlia.
Qed.

(** The benchmarks with a reader and a writer on one slot, in every
    interleaving: once both have left their loops, the writer has written the
    message of each of its iterations, in order; each successful read returned
    the contents before the run (the seed, where the benchmark writes one) or one
    of these messages, whole and never an older one than the read before; and the
    two counters a reader reports add up to [iterations], the first counts its
    successful reads. *)
Theorem rw_benchmark_reads b iterations s s0 c :
  rw_start b s = Some s0 -> at_rest (rw_size b) s -> 0 <= load FSequence s < 2 ^ 64 ->
  breach latest_call latest_return (lbody (rw_size b)) (lrole (rw_size b)) lmono (rw_threads b iterations) s0 c ->
  finished latest_call latest_return (rw_threads b iterations) c = true ->
  c_fault c = false /\ lwrites (tlog 1 (c_log c)) = messages (rw_writer b) iterations /\
  (b = Latest_RW -> rw_counters (replay latest_return (tlog 0 (c_log c)) (Loop iterations 1 0 (rw_reader b))) =
    Some (Z.of_nat (length (lreads (tlog 0 (c_log c)))),
          Z.of_nat iterations - Z.of_nat (length (lreads (tlog 0 (c_log c)))))) /\
  exists idx v0, StronglySorted le idx /\ (b = Concurrent_Spin -> v0 = command_bytes make_command) /\
    Forall2 (fun i (e : bool * list byte) => (v0 :: messages (rw_writer b) iterations) !! i = Some e.2)
      idx (lreads (tlog 0 (c_log c))).
Proof.
  intros Hs Hrest Hq Hr Hfin. destruct (rw_start_rest b s s0 Hs Hrest Hq) as (Hrest0 & Hq0 & Hseed).
  assert (Hth : rw_threads b iterations = [Loop iterations 1 0 (rw_reader b); Loop iterations 1 0 (rw_writer b)])
    by (by destruct b).
  rewrite Hth in Hr, Hfin.
  assert (Hwb : exists v, written_by (rw_writer b) = Some v) by (destruct b; eexists; reflexivity).
  destruct Hwb as [v Hwb].
  destruct (rw_finished (rw_size b) iterations (rw_reader b) (rw_writer b) v s0 c ltac:(by destruct b) Hrest0 Hq0
    ltac:(by destruct b) Hwb Hr Hfin) as (Hf & Hw & Ho & Hsucc & idx & Hsort & Hidx).
  split_and!; [done | done | |].
  - intros ->. destruct (rw_read (replicate 192 x00) 0 0 (Loop iterations 1 0 (rw_reader Latest_RW)) (tlog 0 (c_log c)))
      as (out' & Hout); [done | done | |].
    { by eapply (rw_reader_results (Loop iterations 1 0 (rw_reader Latest_RW))); [| | eapply rw_results]. }
    unfold rw_counters. rewrite Hout, Hsucc. f_equal.
  - exists idx, (take (Z.to_nat (rw_size b)) (ring s0)). split_and!; [done | intros ->; by apply Hseed | done].
Qed.

(** The first read finds a write under way and gives up; the second succeeds. *)
Definition rw_turns : list (nat * nat) := [(1, 100); (0, 65); (1, 98); (0, 195); (1, 198)]%nat.
Definition rw_run : config :=
  default (init_config slot192) (turns latest_call latest_return (lbody 192) (lrole 192) (rw_threads Latest_RW 2)
    (fun s s' => load FSequence s <=? load FSequence s') rw_turns (init_config slot192)).

Lemma rw_benchmark_reads_witness :
  rw_counters (replay latest_return (tlog 0 (c_log rw_run)) (Loop 2 1 0 (rw_reader Latest_RW))) = Some (1, 1) /\
  c_fault rw_run = false /\ lwrites (tlog 1 (c_log rw_run)) = messages (LatestWriter seed_msg) 2.
Proof.
  split; [vm_compute; reflexivity|].
  assert (Hb : breach latest_call latest_return (lbody 192) (lrole 192) lmono (rw_threads Latest_RW 2) slot192 rw_run).
  { apply (turns_breach _ _ _ _ _ _ (fun s s' => load FSequence s <=? load FSequence s') rw_turns);
      [|vm_compute; reflexivity].
    intros s1 s2 H. unfold lmono. lia. }
  destruct (rw_benchmark_reads Latest_RW 2 slot192 slot192 rw_run) as (Hf & Hw & _);
    [done | split; [simpl; lia | done] | done | exact Hb | vm_compute; reflexivity |].
  split; [exact Hf | exact Hw].
Defined.
