(* ===== verification/BenchHandoff.v ===== *)
(** * bench/benchmark_futex.cpp: the spinning handoff

    [BM_Handoff_Spin]: a writer and a reader take turns on one [SharedLatest]
    slot, handing over with an atomic flag [spin_ready].  The machine interleaves
    single accesses of the two threads and the passing of time. *)

From Stdlib Require Import ZArith Lia Strings.Byte.
From stdpp Require Import base list numbers gmap strings.
From S2P Require Import Prelude Memory Layout Prog SharedLatest BenchData Workload BenchLatest.

(** ** The machine *)

(** [n]: iterations left, the present one not counted. *)
Inductive hwriter :=
| WTop (n : nat) (cmd : Command)
| WWriting (n : nat) (cmd : Command) (p : prog (option unit))
| WStore (n : nat) (cmd : Command)
| WSpin (n : nat) (cmd : Command).

Inductive hreader :=
| RTop (n : nat) (out : list byte)
| RReading (n : nat) (p : prog (option (bool * list byte)))
| RStore (n : nat) (out : list byte).

(** The slot, the flag, the threads, and the results of the reader's reads. *)
Record handoff := mkHandoff {
  h_sh : shared;
  spin_ready : Z;
  h_writer : hwriter;
  h_reader : hreader;
  h_reads : list (bool * list byte);
}.

(** Skipped unless there are exactly two threads. *)
Definition BM_Handoff_Spin (iterations threads : nat) (s : shared) : option handoff :=
  if negb (threads =? 2)%nat then None else
  let cmd := make_command in
  Some (mkHandoff s 0 (WTop iterations cmd) (RTop iterations (replicate 72 x00)) []).

Inductive hact := HWriter | HReader | HTick (d : Z).

(** The writer: [cmd.x_vel += 0.001; write(cmd); spin_ready.store(1);
    while (spin_ready.load() != 0) {}]. *)
Definition writer_step (h : handoff) : option handoff :=
  let '(mkHandoff s ready w r reads) := h in
  match w with
  | WTop O _ => None
  | WTop (S n) cmd =>
      let cmd := next_command cmd in
      Some (mkHandoff s ready (WWriting n cmd (write 72 (command_bytes cmd))) r reads)
  | WWriting n cmd (Ret (Some _)) => Some (mkHandoff s ready (WStore n cmd) r reads)
  | WWriting n cmd p =>
      match step1 false s p with
      | Step s p => Some (mkHandoff s ready (WWriting n cmd p) r reads)
      | _ => None
      end
  | WStore n cmd => Some (mkHandoff s 1 (WSpin n cmd) r reads)
  | WSpin n cmd =>
      if negb (ready =? 0) then Some h else Some (mkHandoff s ready (WTop n cmd) r reads)
  end.

(** The reader: [while (spin_ready.load() == 0) {} try_read(out);
    spin_ready.store(0)], with 1024 retries. *)
Definition reader_step (h : handoff) : option handoff :=
  let '(mkHandoff s ready w r reads) := h in
  match r with
  | RTop O _ => None
  | RTop (S n) out =>
      if ready =? 0 then Some h else Some (mkHandoff s ready w (RReading n (try_read 72 out 1024)) reads)
  | RReading n (Ret (Some (b, out))) => Some (mkHandoff s ready w (RStore n out) (reads ++ [(b, out)]))
  | RReading n p =>
      match step1 false s p with
      | Step s p => Some (mkHandoff s ready w (RReading n p) reads)
      | _ => None
      end
  | RStore n out => Some (mkHandoff s 0 w (RTop n out) reads)
  end.

Definition hnext (a : hact) (h : handoff) : option handoff :=
  match a with
  | HWriter => writer_step h
  | HReader => reader_step h
  | HTick d =>
      if 0 <=? d
      then Some (mkHandoff (Prog.tick d (h_sh h)) (spin_ready h) (h_writer h) (h_reader h) (h_reads h))
      else None
  end.

Inductive hstep (h h' : handoff) : Prop := hstep_intro a : hnext a h = Some h' -> hstep h h'.

Fixpoint hrun (acts : list hact) (h : handoff) : option handoff :=
  match acts with
  | [] => Some h
  | a :: acts => match hnext a h with Some h => hrun acts h | None => None end
  end.

Lemma hrun_steps acts h h' : hrun acts h = Some h' -> rtc hstep h h'.
Proof.
  revert h. induction acts as [|a acts IH]; intros h; simpl; [intros [= <-]; apply rtc_refl|].
  destruct (hnext a h) eqn:E; [|done]. intros H. eapply rtc_l; [by econstructor | auto].
Qed.

Definition hfinished (h : handoff) : bool :=
  match h_writer h, h_reader h with WTop O _, RTop O _ => true | _, _ => false end.

(** ** A call that runs alone while time passes *)

Fixpoint solo {A} (Q : A -> shared -> Prop) (p : prog A) (s : shared) : Prop :=
  match p with
  | Ret a => Q a s
  | Load f k => solo Q (k (load f s)) s
  | Store f v k => solo Q k (store f v s)
  | Cas _ f e d k => if load f s =? e then solo Q (k true) (store f d s) else solo Q (k false) s
  | FetchAdd f v k => solo Q (k (load f s)) (store f (add64 (load f s) v) s)
  | Await f v k => load f s = v /\ solo Q k s
  | Read off n k => exists bs, mem_read (ring s) off n = Some bs /\ solo Q (k bs) s
  | Write off bs k => exists m, mem_write (ring s) off bs = Some m /\ solo Q k (with_ring m s)
  | Now k => forall t, solo Q (k t) s
  | WakeAll k => solo Q k s
  | Undefined => False
  end.

Lemma solo_tick {A} (Q : A -> shared -> Prop) p s d :
  (forall a s, Q a s -> Q a (Prog.tick d s)) -> solo Q p s -> solo Q p (Prog.tick d s).
Proof.
  intros HQ. revert s.
  induction p as [a|g k IH|g v k IH|w g e v k IH|g v k IH|g v k IH|off n k IH|off bs k IH|k IH|k IH|];
    intros s; simpl.
  - apply HQ.
  - apply IH.
  - apply (IH (store g v s)).
  - change (load g (Prog.tick d s)) with (load g s). case_if; [apply (IH true (store g v s)) | apply IH].
  - apply (IH (load g s) (store g (add64 (load g s) v) s)).
  - intros [He Hp]. split; [done | by apply IH].
  - intros (bs & Hb & Hp). exists bs. split; [done | by apply IH].
  - intros (m & Hb & Hp). exists m. split; [done | by apply (IH (with_ring m s))].
  - intros Hp t. by apply IH.
  - apply IH.
  - done.
Qed.

(** One access. *)
Lemma solo_step1 {A} (Q : A -> shared -> Prop) p s :
  solo Q p s ->
  match step1 false s p with
  | Step s' p' => solo Q p' s'
  | Halt => exists a, p = Ret a /\ Q a s
  | Fault => False
  end.
Proof.
  destruct p; simpl; eauto.
  - rewrite andb_false_r. destruct (load f s =? expected); auto.
  - intros [-> Hp]. by rewrite Z.eqb_refl.
  - intros (bs & -> & ?). done.
  - intros (m & -> & ?). done.
Qed.

Lemma solo_memcpy_to {A} (Q : A -> shared -> Prop) off bs k s :
  0 <= off -> off + Z.of_nat (length bs) <= Z.of_nat (length (ring s)) ->
  solo Q k (with_ring (splice (ring s) off bs) s) -> solo Q (memcpy_to off bs k) s.
Proof.
  revert s off. induction bs as [|b bs IH]; intros s off Ho Hl Hk; simpl in *.
  - unfold splice in Hk. rewrite Nat.add_0_r, app_nil_l, take_drop in Hk. by destruct s.
  - eexists. split; [apply mem_write_Some; simpl; lia|].
    apply IH; [lia | simpl; rewrite length_splice by (simpl; lia); lia |].
    unfold with_ring in *. simpl in *. by rewrite splice_cons by lia.
Qed.

Lemma solo_memcpy_from {A} (Q : A -> shared -> Prop) off n k s :
  0 <= off -> off + Z.of_nat n <= Z.of_nat (length (ring s)) ->
  solo Q (k (take n (drop (Z.to_nat off) (ring s)))) s -> solo Q (memcpy_from off n k) s.
Proof.
  revert off k. induction n as [|n IH]; intros off k Ho Hl Hk; simpl; [done|].
  eexists. split; [apply mem_read_Some; lia|]. apply IH; [lia | lia |].
  destruct (lookup_lt_is_Some_2 (ring s) (Z.to_nat off)) as [b Hb]; [lia|].
  rewrite (drop_S _ b) in Hk by done.
  replace (Z.to_nat (off + 1)) with (S (Z.to_nat off)) by lia.
  change (Z.to_nat 1) with 1%nat. rewrite (drop_S _ b) by done. exact Hk.
Qed.

(** ** The protocol *)

(** The command of iteration [i], from 1. *)
Definition command (i : nat) : Command := Nat.iter i next_command make_command.

#[global] Arguments command : simpl never.
#[local] Arguments try_read : simpl never.
#[local] Arguments write : simpl never.

(** What the reader should have read after [i] iterations. *)
Definition handed (i : nat) : list (bool * list byte) :=
  (fun j => (true, command_bytes (command (S j)))) <$> List.seq 0 i.

Lemma handed_S i : handed (S i) = handed i ++ [(true, command_bytes (command (S i)))].
Proof. unfold handed. by rewrite seq_S, fmap_app. Qed.

Definition contains (v : list byte) (s : shared) : Prop := at_rest 72 s /\ take 72 (ring s) = v.

Definition wrote (v : list byte) (o : option unit) (s : shared) : Prop := o = Some tt /\ contains v s.
Definition read_back (v : list byte) (o : option (bool * list byte)) (s : shared) : Prop :=
  o = Some (true, v) /\ at_rest 72 s.

Lemma write_solo v s :
  Z.of_nat (length v) = 72 -> at_rest 72 s -> solo (wrote v) (write 72 v) s.
Proof.
  intros Hv [Hl He]. unfold write, write_then. cbn [solo]. rewrite take_ge by lia.
  apply solo_memcpy_to; [lia | rewrite ring_store; lia |]. cbn [solo now_ns]. intros t. split; [done|].
  unfold contains, at_rest. autorewrite with lfring. split_and!.
  - rewrite length_splice; lia.
  - by apply even_next.
  - unfold splice. simpl. by rewrite take_app_le, take_ge by lia.
Qed.

Lemma read_solo v out s retries : contains v s -> solo (read_back v) (try_read 72 out (S retries)) s.
Proof.
  intros [[Hl He] Hv]. unfold try_read. cbn [read_loop solo]. rewrite He. cbn [negb Z.eqb].
  apply solo_memcpy_from; [lia | lia |]. change (Z.to_nat 0) with O. change (Z.to_nat 72) with 72%nat.
  rewrite drop_0, Hv. cbn [solo]. rewrite Z.eqb_refl. split; [done | by split].
Qed.

(** After [i] handovers of [n]: whose turn it is. *)
Inductive turn_of (n : nat) : handoff -> Prop :=
| turn_top i w out s : (i + w)%nat = n -> at_rest 72 s ->
    turn_of n (mkHandoff s 0 (WTop w (command i)) (RTop w out) (handed i))
| turn_writing i w out s p : (i + S w)%nat = n ->
    solo (wrote (command_bytes (command (S i)))) p s ->
    turn_of n (mkHandoff s 0 (WWriting w (command (S i)) p) (RTop (S w) out) (handed i))
| turn_store i w out s : (i + S w)%nat = n -> contains (command_bytes (command (S i))) s ->
    turn_of n (mkHandoff s 0 (WStore w (command (S i))) (RTop (S w) out) (handed i))
| turn_ready i w out s : (i + S w)%nat = n -> contains (command_bytes (command (S i))) s ->
    turn_of n (mkHandoff s 1 (WSpin w (command (S i))) (RTop (S w) out) (handed i))
| turn_reading i w s p : (i + S w)%nat = n ->
    solo (read_back (command_bytes (command (S i)))) p s ->
    turn_of n (mkHandoff s 1 (WSpin w (command (S i))) (RReading w p) (handed i))
| turn_read i w out s : (i + S w)%nat = n -> at_rest 72 s ->
    turn_of n (mkHandoff s 1 (WSpin w (command (S i))) (RStore w out) (handed (S i)))
| turn_back i w out s : (i + S w)%nat = n -> at_rest 72 s ->
    turn_of n (mkHandoff s 0 (WSpin w (command (S i))) (RTop w out) (handed (S i))).

Lemma turn_step n h h' : turn_of n h -> hstep h h' -> turn_of n h'.
Proof.
  intros Ht [a Ha]. destruct a as [| |d]; cbn [hnext] in Ha.
  3: { destruct (0 <=? d); [|done]. injection Ha as <-.
    destruct Ht; simpl; constructor; auto; apply solo_tick; auto. }
  - destruct Ht as [i w out s Hn Hs|i w out s p Hn Hp| | |i w s p Hn Hp|i w out s Hn Hs|i w out s Hn Hs];
      simpl in Ha.
    + destruct w as [|w]; [done|]. injection Ha as <-.
      apply (turn_writing n i); [done|]. apply write_solo; [|done].
      change (next_command (command i)) with (command (S i)). by rewrite length_command_bytes.
    + pose proof (solo_step1 _ _ _ Hp) as Hp'.
      destruct p as [[[]|]| | | | | | | | | |];
        [injection Ha as <-; destruct Hp as [_ Hp]; by apply (turn_store n i)
        |by destruct Hp
        |by (destruct (step1 false s _); [injection Ha as <-; by apply turn_writing | done..])..].
    + injection Ha as <-. by apply turn_ready.
    + injection Ha as <-. by apply turn_ready.
    + injection Ha as <-. by apply turn_reading.
    + injection Ha as <-. by apply turn_read.
    + injection Ha as <-. apply (turn_top n (S i)); [lia | done].
  - destruct Ht as [i w out s Hn Hs|i w out s p Hn Hp| | |i w s p Hn Hp|i w out s Hn Hs|i w out s Hn Hs];
      simpl in Ha.
    + destruct w as [|w]; [done|]. injection Ha as <-. by apply turn_top.
    + injection Ha as <-. by apply turn_writing.
    + injection Ha as <-. by apply turn_store.
    + injection Ha as <-. apply turn_reading; [done|]. by apply (read_solo _ _ _ 1023).
    + pose proof (solo_step1 _ _ _ Hp) as Hp'.
      destruct p as [[[b out]|]| | | | | | | | | |];
        [injection Ha as <-; destruct Hp as [[= -> ->] Hp]; rewrite <- handed_S; by apply turn_read
        |by destruct Hp
        |by (destruct (step1 false s _); [injection Ha as <-; by apply turn_reading | done..])..].
    + injection Ha as <-. by apply turn_back.
    + destruct w as [|w]; [done|]. injection Ha as <-. by apply turn_back.
Qed.

(** ** Completion *)

Definition alone {A} (x y : shared * prog A) : Prop := step1 false x.1 x.2 = Step y.1 y.2.

Lemma solo_ends {A} (Q : A -> shared -> Prop) p s :
  solo Q p s -> exists a s', rtc alone (s, p) (s', Ret a) /\ Q a s'.
Proof.
  assert (Hgo : forall s p s1 p1, step1 false s p = Step s1 p1 ->
    (exists a s', rtc alone (s1, p1) (s', Ret a) /\ Q a s') ->
    exists a s', rtc alone (s, p) (s', Ret a) /\ Q a s').
  { intros s0 p0 s1 p1 Hs (a & s' & Hr & HQ). exists a, s'. split; [by apply (rtc_l _ _ (s1, p1)) | done]. }
  revert s. induction p as [a|g k IH|g v k IH|w g e v k IH|g v k IH|g v k IH|off n k IH|off bs k IH|k IH|k IH|];
    intros s; simpl; intros Hs; [exists a, s; split; [apply rtc_refl | done] | ..]; try done.
  1,2,4: eapply Hgo; [reflexivity | by apply IH].
  - destruct (load g s =? e) eqn:E; (eapply Hgo; [simpl; by rewrite E, andb_false_r | by apply IH]).
  - destruct Hs as [E Hs]. eapply Hgo; [simpl; by rewrite E, Z.eqb_refl | by apply IH].
  - destruct Hs as (bs & E & Hs). eapply Hgo; [simpl; by rewrite E | by apply IH].
  - destruct Hs as (m & E & Hs). eapply Hgo; [simpl; by rewrite E | by apply IH].
  - eapply Hgo; [reflexivity | by apply IH].
  - eapply Hgo; [reflexivity | by apply IH].
Qed.

Lemma writing_ends v n cmd p s ready r reads :
  solo (wrote v) p s ->
  exists s', rtc hstep (mkHandoff s ready (WWriting n cmd p) r reads) (mkHandoff s' ready (WStore n cmd) r reads) /\
    contains v s'.
Proof.
  intros (a & s' & Hr & -> & Hc)%solo_ends. exists s'. split; [|done].
  eapply (rtc_r _ (mkHandoff s' ready (WWriting n cmd (Ret (Some tt))) r reads));
    [|by apply (hstep_intro _ _ HWriter)].
  apply (rtc_congruence (fun x => mkHandoff x.1 ready (WWriting n cmd x.2) r reads) hstep _ _) in Hr; [exact Hr|].
  intros [s1 p1] [s2 p2] Ha. apply (hstep_intro _ _ HWriter). unfold alone in Ha. cbn [fst snd] in *. simpl.
  destruct p1 as [[]| | | | | | | | | |]; try done; by rewrite Ha.
Qed.

Lemma reading_ends v n p s ready w reads :
  solo (read_back v) p s ->
  exists s', rtc hstep (mkHandoff s ready w (RReading n p) reads)
      (mkHandoff s' ready w (RStore n v) (reads ++ [(true, v)])) /\ at_rest 72 s'.
Proof.
  intros (a & s' & Hr & -> & Hc)%solo_ends. exists s'. split; [|done].
  eapply (rtc_r _ (mkHandoff s' ready w (RReading n (Ret (Some (true, v)))) reads));
    [|by apply (hstep_intro _ _ HReader)].
  apply (rtc_congruence (fun x => mkHandoff x.1 ready w (RReading n x.2) reads) hstep _ _) in Hr; [exact Hr|].
  intros [s1 p1] [s2 p2] Ha. apply (hstep_intro _ _ HReader). unfold alone in Ha. cbn [fst snd] in *. simpl.
  destruct p1 as [[[]|]| | | | | | | | | |]; try done; by rewrite Ha.
Qed.

Definition completes (h : handoff) : Prop := exists h', rtc hstep h h' /\ hfinished h' = true.

Lemma completes_steps h h' : rtc hstep h h' -> completes h' -> completes h.
Proof. intros Hs (h2 & ? & ?). exists h2. split; [by etrans | done]. Qed.

Lemma completes_step a h h' : hnext a h = Some h' -> completes h' -> completes h.
Proof. intros Ha. apply completes_steps, rtc_once. by econstructor. Qed.

(** The turns of one iteration, when the following ones can be completed. *)
Lemma turns_complete n w :
  (forall i out s, (i + w)%nat = n -> at_rest 72 s ->
     completes (mkHandoff s 0 (WTop w (command i)) (RTop w out) (handed i))) ->
  forall i s, (i + S w)%nat = n ->
    (forall out, at_rest 72 s ->
       completes (mkHandoff s 0 (WSpin w (command (S i))) (RTop w out) (handed (S i)))) /\
    (forall out, at_rest 72 s ->
       completes (mkHandoff s 1 (WSpin w (command (S i))) (RStore w out) (handed (S i)))) /\
    (forall p, solo (read_back (command_bytes (command (S i)))) p s ->
       completes (mkHandoff s 1 (WSpin w (command (S i))) (RReading w p) (handed i))) /\
    (forall out, contains (command_bytes (command (S i))) s ->
       completes (mkHandoff s 1 (WSpin w (command (S i))) (RTop (S w) out) (handed i)) /\
       completes (mkHandoff s 0 (WStore w (command (S i))) (RTop (S w) out) (handed i))).
Proof.
  intros IH i s Hn.
  assert (Hback : forall s out, at_rest 72 s ->
    completes (mkHandoff s 0 (WSpin w (command (S i))) (RTop w out) (handed (S i)))).
  { intros s1 out Hs. eapply (completes_step HWriter); [reflexivity|]. apply IH; [lia | done]. }
  assert (Hread : forall s out, at_rest 72 s ->
    completes (mkHandoff s 1 (WSpin w (command (S i))) (RStore w out) (handed (S i)))).
  { intros s1 out Hs. eapply (completes_step HReader); [reflexivity | by apply Hback]. }
  assert (Hreading : forall s p, solo (read_back (command_bytes (command (S i)))) p s ->
    completes (mkHandoff s 1 (WSpin w (command (S i))) (RReading w p) (handed i))).
  { intros s1 p (s2 & Hr & Hs)%(reading_ends _ w p s1 1 (WSpin w (command (S i))) (handed i)).
    eapply completes_steps; [exact Hr|]. rewrite <- handed_S. by apply Hread. }
  assert (Hready : forall s out, contains (command_bytes (command (S i))) s ->
    completes (mkHandoff s 1 (WSpin w (command (S i))) (RTop (S w) out) (handed i))).
  { intros s1 out Hs. eapply (completes_step HReader); [reflexivity|].
    apply Hreading. by apply (read_solo _ _ _ 1023). }
  split_and!; auto. intros out Hs. split; [auto|]. 
  eapply (completes_step HWriter); [reflexivity | by apply Hready].
Qed.

Lemma top_completes n w i out s :
  (i + w)%nat = n -> at_rest 72 s ->
  completes (mkHandoff s 0 (WTop w (command i)) (RTop w out) (handed i)).
Proof.
  revert i out s. induction w as [|w IH]; intros i out s Hn Hs.
  { eexists. split; [apply rtc_refl | done]. }
  eapply (completes_step HWriter); [reflexivity|].
  destruct (writing_ends (command_bytes (command (S i))) w (command (S i))
    (write 72 (command_bytes (command (S i)))) s 0 (RTop (S w) out) (handed i)) as (s' & Hr & Hc).
  { apply write_solo; [by rewrite length_command_bytes | done]. }
  eapply completes_steps; [exact Hr|]. by apply (turns_complete n w IH i s' Hn).
Qed.

Lemma turn_completes n h : turn_of n h -> completes h.
Proof.
  destruct 1 as [i w out s Hn Hs|i w out s p Hn Hp|i w out s Hn Hs|i w out s Hn Hs|i w s p Hn Hp|i w out s Hn Hs|i w out s Hn Hs];
    [by apply (top_completes n) | | ..];
    try (apply (turns_complete n w (top_completes n w) i s Hn); done).
  destruct (writing_ends _ w (command (S i)) p s 0 (RTop (S w) out) (handed i) Hp) as (s' & Hr & Hc).
  eapply completes_steps; [exact Hr|]. by apply (turns_complete n w (top_completes n w) i s' Hn).
Qed.

Lemma spin_turns n threads s h0 h :
  at_rest 72 s -> BM_Handoff_Spin n threads s = Some h0 -> rtc hstep h0 h -> turn_of n h.
Proof.
  unfold BM_Handoff_Spin. case_if; [done|]. intros Hs [= <-]. revert h. apply rtc_ind_r; [by apply (turn_top n 0)|]. intros h1 h2 _ Hh Ht. by eapply turn_step.
Qed.

(** C36: the spinning handoff is a strict alternation.  In every interleaving of the
    writer and the reader, starting from a slot at rest: the reads so far have all
    succeeded, and the [i]-th one has returned exactly the command of the writer's
    [i]-th iteration, not an older and not a newer one; when both have left their
    loops there were [n] of them; and from every reachable state the run can be
    completed. *)
Theorem spin_handoff_alternates n threads s h0 h :
  at_rest 72 s -> BM_Handoff_Spin n threads s = Some h0 -> rtc hstep h0 h ->
  (exists i, (i <= n)%nat /\ h_reads h = handed i /\ (hfinished h = true -> i = n)) /\
  exists h', rtc hstep h h' /\ hfinished h' = true.
Proof.
  intros Hs H0 Hr. pose proof (spin_turns n threads s h0 h Hs H0 Hr) as Ht. split; [|by apply (turn_completes n)].
  destruct Ht as [i w out s1 Hn _|i w out s1 p Hn _|i w out s1 Hn _|i w out s1 Hn _|i w s1 p Hn _
    |i w out s1 Hn _|i w out s1 Hn _]; cbn [h_reads].
  1: { exists i. split_and!; [lia | done |]. unfold hfinished. simpl. destruct w; [lia | done]. }
  1-4: exists i; split_and!; [lia | done | done].
  all: exists (S i); split_and!; [lia | done | done].
Qed.

(** The reader is scheduled while the writer is in the middle of its write. *)
Definition slot72 : shared := mkShared (mkControl 0 0 0 0 0) (replicate 72 x00) 0.
Definition handoff_schedule : list hact :=
  replicate 40 HWriter ++ [HReader; HTick 3] ++ replicate 40 HWriter ++ replicate 77 HReader ++ [HWriter].

Lemma spin_handoff_alternates_witness :
  exists h0 h, BM_Handoff_Spin 1 2 slot72 = Some h0 /\ hrun handoff_schedule h0 = Some h /\
    hfinished h = true /\
    (exists i, (i <= 1)%nat /\ h_reads h = handed i /\ (hfinished h = true -> i = 1%nat)) /\
    exists h', rtc hstep h h' /\ hfinished h' = true.
Proof.
  eexists _, _. split; [reflexivity|]. split; [vm_compute; reflexivity|]. split; [vm_compute; reflexivity|].
  eapply (spin_handoff_alternates 1 2 slot72); [split; [simpl; lia | done] | reflexivity |].
  apply (hrun_steps handoff_schedule). vm_compute. reflexivity.
Defined.
