(* ===== verification/BenchPingPong.v ===== *)
(** * bench/benchmark_futex.cpp: the futex handoff

    [BM_Handoff_Futex], [BM_Concurrent_WriteRead_Futex] and
    [BM_ControlLoop_1kHz_Futex]: the writer publishes with [write_and_notify] and
    waits for the reader's acknowledgement on a second futex word; the reader
    waits for the notification, reads and acknowledges.  Accesses of the slot are
    single steps; the two futex words have a kernel queue each, with the interface
    of [Futex].  The snapshots in front of the loops are taken before either
    thread enters its loop (the framework's start barrier). *)

From Stdlib Require Import ZArith Lia Strings.Byte.
From stdpp Require Import base list numbers gmap strings.
From S2P Require Import Prelude Memory Layout Prog SharedLatest Futex BenchData BenchLatest BenchHandoff.

(** ** The machine *)

(** [n]: iterations left, the present one not counted. *)
Inductive fwriter :=
| FWTop (n : nat) (cmd : Command) (ack_seen : Z)
| FWWriting (n : nat) (cmd : Command) (ack_seen : Z) (p : prog (option unit))
| FWWait (n : nat) (cmd : Command) (ack_seen : Z)
| FWSleep (n : nat) (cmd : Command)
| FWLoad (n : nat) (cmd : Command).

Inductive freader :=
| FRTop (n : nat) (seen : Z) (out : list byte)
| FRSleep (n : nat) (out : list byte)
| FRLoad (n : nat) (out : list byte)
| FRReading (n : nat) (seen : Z) (p : prog (option (bool * list byte)))
| FRAck (n : nat) (seen : Z) (out : list byte)
| FRWake (n : nat) (seen : Z) (out : list byte).

(** The slot (with the notification counter), the acknowledgement counter, the
    kernel's queues of the two words, the threads, and the results of the reads. *)
Record pingpong (K : Type) := mkPingPong {
  p_sh : shared;
  p_ack : Z;
  p_notify_queue : K;
  p_ack_queue : K;
  p_writer : fwriter;
  p_reader : freader;
  p_reads : list (bool * list byte);
}.
Arguments mkPingPong {K} p_sh p_ack p_notify_queue p_ack_queue p_writer p_reader p_reads.
Arguments p_sh {K}.
Arguments p_ack {K}.
Arguments p_notify_queue {K}.
Arguments p_ack_queue {K}.
Arguments p_writer {K}.
Arguments p_reader {K}.
Arguments p_reads {K}.

Section Machine.
Context {K : Type} (kn : Kernel K).

(** [ack_seen = futex_load(ack)] and [seen = notify_counter()], then the loops. *)
Definition pingpong_start (iterations : nat) (s : shared) (ack : Z) (k : K) : pingpong K :=
  mkPingPong s ack k k (FWTop iterations make_command (futex_load ack))
    (FRTop iterations (futex_load (load FTailPublish s)) (replicate 72 x00)) [].

(** The benchmarks are skipped unless there are exactly two threads. *)
Definition BM_Handoff_Futex (iterations threads : nat) (s : shared) (ack : Z) (k : K)
  : option (pingpong K) :=
  if negb (threads =? 2)%nat then None else Some (pingpong_start iterations s ack k).

(** These two seed the slot with [write_and_notify] when they create it. *)
Definition seeded (s : shared) : option shared :=
  snd <$> exec (write_and_notify 72 (command_bytes make_command)) s.

Definition BM_Concurrent_WriteRead_Futex (iterations threads : nat) (s : shared) (conc_ack : Z) (k : K)
  : option (pingpong K) :=
  match seeded s with
  | Some s => if negb (threads =? 2)%nat then None else Some (pingpong_start iterations s conc_ack k)
  | None => None
  end.

(** (The clock readings of the control loop go into the benchmark's counters only.) *)
Definition BM_ControlLoop_1kHz_Futex (iterations threads : nat) (s : shared) (loop_ack : Z) (k : K)
  : option (pingpong K) :=
  match seeded s with
  | Some s => if negb (threads =? 2)%nat then None else Some (pingpong_start iterations s loop_ack k)
  | None => None
  end.

(** [cmd.x_vel += 0.001; write_and_notify(cmd);
    futex_wait_timeout(ack, ack_seen, 100ms); ack_seen = futex_load(ack)]. *)
Definition fwriter_step (h : pingpong K) : option (pingpong K) :=
  let '(mkPingPong s ack kq ka w r reads) := h in
  match w with
  | FWTop O _ _ => None
  | FWTop (S n) cmd seen =>
      let cmd := next_command cmd in
      Some (mkPingPong s ack kq ka (FWWriting n cmd seen (write_and_notify 72 (command_bytes cmd))) r reads)
  | FWWriting n cmd seen (Ret (Some _)) => Some (mkPingPong s ack kq ka (FWWait n cmd seen) r reads)
  | FWWriting n cmd seen (WakeAll p) =>
      Some (mkPingPong s ack (futex_wake_all kn kq).2 ka (FWWriting n cmd seen p) r reads)
  | FWWriting n cmd seen p =>
      match step1 false s p with
      | Step s p => Some (mkPingPong s ack kq ka (FWWriting n cmd seen p) r reads)
      | _ => None
      end
  | FWWait n cmd seen =>
      match futex_wait_timeout kn 1 ack seen 100 ka with
      | (Some _, ka) => Some (mkPingPong s ack kq ka (FWLoad n cmd) r reads)
      | (None, ka) => Some (mkPingPong s ack kq ka (FWSleep n cmd) r reads)
      end
  | FWSleep n cmd =>
      if k_asleep kn ka 1 then None else Some (mkPingPong s ack kq ka (FWLoad n cmd) r reads)
  | FWLoad n cmd => Some (mkPingPong s ack kq ka (FWTop n cmd (futex_load ack)) r reads)
  end.

(** [wait_for_update(seen, 100ms); seen = notify_counter(); try_read(out);
    ack.fetch_add(1); futex_wake_all(ack)]. *)
Definition freader_step (h : pingpong K) : option (pingpong K) :=
  let '(mkPingPong s ack kq ka w r reads) := h in
  match r with
  | FRTop O _ _ => None
  | FRTop (S n) seen out =>
      match futex_wait_timeout kn 0 (load FTailPublish s) seen 100 kq with
      | (Some _, kq) => Some (mkPingPong s ack kq ka w (FRLoad n out) reads)
      | (None, kq) => Some (mkPingPong s ack kq ka w (FRSleep n out) reads)
      end
  | FRSleep n out =>
      if k_asleep kn kq 0 then None else Some (mkPingPong s ack kq ka w (FRLoad n out) reads)
  | FRLoad n out =>
      let seen := futex_load (load FTailPublish s) in
      Some (mkPingPong s ack kq ka w (FRReading n seen (try_read 72 out 1024)) reads)
  | FRReading n seen (Ret (Some (b, out))) =>
      Some (mkPingPong s ack kq ka w (FRAck n seen out) (reads ++ [(b, out)]))
  | FRReading n seen p =>
      match step1 false s p with
      | Step s p => Some (mkPingPong s ack kq ka w (FRReading n seen p) reads)
      | _ => None
      end
  | FRAck n seen out => Some (mkPingPong s (add64 ack 1) kq ka w (FRWake n seen out) reads)
  | FRWake n seen out => Some (mkPingPong s ack kq (futex_wake_all kn ka).2 w (FRTop n seen out) reads)
  end.

(** [PEnd]: a sleep that ends by itself, by its timeout of 100 ms say. *)
Inductive pact := PWriter | PReader | PEndWriter | PEndReader.

Definition pnext (a : pact) (h : pingpong K) : option (pingpong K) :=
  match a with
  | PWriter => fwriter_step h
  | PReader => freader_step h
  | PEndWriter =>
      match p_writer h, k_end kn 1 (p_ack_queue h) with
      | FWSleep n cmd, Some (_, ka) =>
          Some (mkPingPong (p_sh h) (p_ack h) (p_notify_queue h) ka (FWLoad n cmd) (p_reader h) (p_reads h))
      | _, _ => None
      end
  | PEndReader =>
      match p_reader h, k_end kn 0 (p_notify_queue h) with
      | FRSleep n out, Some (_, kq) =>
          Some (mkPingPong (p_sh h) (p_ack h) kq (p_ack_queue h) (p_writer h) (FRLoad n out) (p_reads h))
      | _, _ => None
      end
  end.

Fixpoint prun (acts : list pact) (h : pingpong K) : option (pingpong K) :=
  match acts with
  | [] => Some h
  | a :: acts => match pnext a h with Some h => prun acts h | None => None end
  end.
End Machine.

(** ** The pairing of iterations *)

(** One iteration of each thread, undisturbed: the reader falls asleep, the writer
    writes, wakes it and falls asleep, the reader reads, acknowledges and wakes
    the writer. *)
Definition paired_iteration : list pact :=
  [PReader] ++ replicate 82 PWriter ++ replicate 79 PReader ++ replicate 2 PWriter.

(** The writer is held up between incrementing the notification counter and waking
    the waiters.  The reader, which had not gone to sleep yet, sees the new counter,
    reads, acknowledges, and goes to sleep for the next command; now the late
    wake-up arrives. *)
Definition late_wake : list pact :=
  replicate 79 PWriter ++ replicate 80 PReader ++ [PWriter; PWriter] ++ replicate 79 PReader.

(** The futex handoff does not pair the iterations of the two threads.  It does
    when the threads are scheduled undisturbed (the reader of two iterations reads
    the commands of both, in order); but with no timeout, no signal and a kernel
    that only ends a sleep by a wake-up, there is an interleaving in which the
    reader reads the first command twice and leaves its loop, while the writer has
    its second iteration still to come. *)
Theorem futex_handoff_unpaired :
  exists h0, BM_Handoff_Futex 2 2 slot72 0 [] = Some h0 /\
  (exists h, prun list_kernel (paired_iteration ++ paired_iteration) h0 = Some h /\ p_reads h = handed 2) /\
  exists h, prun list_kernel late_wake h0 = Some h /\
    p_reads h = [(true, command_bytes (command 1)); (true, command_bytes (command 1))] /\
    p_writer h = FWWait 1 (command 1) 0 /\ (exists seen out, p_reader h = FRTop 0 seen out) /\
    command_bytes (command 1) <> command_bytes (command 2).
Proof.
  eexists. split; [reflexivity|]. split; (eexists; split; [vm_compute; reflexivity|]); [vm_compute; reflexivity|].
  split_and!; [vm_compute; reflexivity | vm_compute; reflexivity | | vm_compute; discriminate].
  eexists _, _. vm_compute. reflexivity.
Qed.
