(* ===== verification/Tests.v ===== *)
(** * The repository's tests

    The single-threaded tests of tests/ as programs over the operating system of
    [Mapping]: objects live in temporary files, every call runs alone on the
    memory behind a mapping ([exec_loop]), a sleep is a later time.  [tests_pass]
    runs them all: the model agrees with what the authors check of the code, and
    a test leaves no file, descriptor or mapping behind.  The tests with several
    threads are instances of the theorems on interleavings and are not run. *)

From Stdlib Require Import ZArith Strings.Byte.
From stdpp Require Import base list numbers gmap strings.
From S2P Require Import Prelude Memory Layout Prog Records Mapping SpscRing MpscRing MpmcRing Solo.
From S2P Require SpscQueue SharedLatest.
From S2P Require Import SharedLatest Attach TypedMessage BenchData BenchFixtures.

(** ** Values *)

(** Bytes of unsigned integers, and of characters with the final zero. *)
Definition uint32 (z : Z) : list byte := le_enc 4 z.
Definition uint64 (z : Z) : list byte := le_enc 8 z.

Definition chars (s : string) : list byte := map Strings.Ascii.byte_of_ascii (String.list_ascii_of_string s).
Definition c_str (s : string) : list byte := chars s ++ [x00].

(** ** The test framework *)

Section Tests.
Context (sys : Syscalls).

(** A failed assertion ends the test. *)
Definition ASSERT_TRUE (b : bool) : M unit :=
  if b then mret tt else throw (RuntimeError "assertion failed").
Definition ASSERT_FALSE (b : bool) : M unit := ASSERT_TRUE (negb b).
Definition ASSERT_EQ {A} `{EqDecision A} (x y : A) : M unit := ASSERT_TRUE (bool_decide (x = y)).

(** [std::system_error] is a [std::runtime_error]. *)
Definition ASSERT_THROW {A} (m : M A) : M unit := fun w =>
  match m w with
  | (Throw _, w') => (Ok tt, w')
  | (Ok _, w') => ASSERT_TRUE false w'
  | (UB, w') => (UB, w')
  end.

(** An object that lives as long as [body]. *)
Definition scoped {A} (make : M Mapping) (body : Mapping -> M A) : M A :=
  m ← make; a ← body m; _ ← reset sys m; mret a.

Definition scoped_claim {A} (make : M (Mapping * ClaimResult)) (body : Mapping -> ClaimResult -> M A) : M A :=
  c ← make; a ← body c.1 c.2; _ ← reset sys c.1; mret a.

(** A test with its [TempFile]; [counter] is the static counter of
    [make_temp_path]. *)
Definition with_temp_file (prefix : string) (body : string -> M unit) (counter : N) : M unit := fun w =>
  let path := (make_temp_path "/tmp" 1 counter prefix).1 in
  let '(r, w') := body path w in
  (r, unlinked path w').

(** [for (i = from; i < from + n; ++i) body(i)], where the body changes the local
    variables [st]. *)
Fixpoint for_state {St} (n : nat) (from : Z) (st : St) (body : Z -> St -> M St) : M St :=
  match n with
  | O => mret st
  | S n => st ← body from st; for_state n (from + 1) st body
  end.
Definition for_loop (n : nat) (from : Z) (body : Z -> M unit) : M unit :=
  for_state n from tt (fun i _ => body i).

(** ** test_ring_buffer.cpp *)

Section Rings.
Context (k : ring_kind).

Definition ring_create (path : string) (capacity_bytes : Z) : M Mapping :=
  match k with
  | SPSC => spsc_create sys path capacity_bytes
  | MPSC => mpsc_create sys path capacity_bytes
  | MPMC => mpmc_create sys path capacity_bytes
  end.
Definition ring_open (path : string) : M Mapping :=
  match k with
  | SPSC => spsc_open sys path
  | MPSC => mpsc_open sys path
  | MPMC => mpmc_open sys path
  end.

(** Two iterations suffice for a call that runs alone ([ring_push_total],
    [ring_pop_total]). *)
Definition ring_try_push (m : Mapping) (data : list byte) (type : Z) : M bool :=
  exec_loop 2 m 0 (push_of k (capacity m) (Some data) (u32 (Z.of_nat (length data))) type).
Definition ring_try_push_span (m : Mapping) (data : list byte) (type : Z) : M bool :=
  exec_loop 2 m 0 (ring_push_span k (capacity m) data type).
Definition ring_try_pop (m : Mapping) (out : list byte) (type : Z) (sequence : option Z) : M popped :=
  exec_loop 2 m 0 (pop_of k (capacity m) out type sequence).

Definition create_open_push_pop (path : string) : M unit :=
  scoped (ring_create path 4096) (fun ring =>
    let payload := c_str "hello" in
    ok ← ring_try_push ring payload 7; _ ← ASSERT_TRUE ok;
    p ← ring_try_pop ring [] 0 None; _ ← ASSERT_TRUE (p_ok p);
    _ ← ASSERT_EQ (p_type p) 7;
    _ ← ASSERT_EQ (p_out p) payload;
    scoped (ring_open path) (fun reopened =>
      ok ← ring_try_push reopened payload 9; _ ← ASSERT_TRUE ok;
      p ← ring_try_pop reopened (p_out p) (p_type p) None; _ ← ASSERT_TRUE (p_ok p);
      ASSERT_EQ (p_type p) 9)).

Definition variable_payload_sizes (path : string) : M unit :=
  scoped (ring_create path 4096) (fun ring =>
    let small := replicate 3 x01 in
    let large := replicate 129 x02 in
    ok ← ring_try_push_span ring small 1; _ ← ASSERT_TRUE ok;
    ok ← ring_try_push_span ring large 2; _ ← ASSERT_TRUE ok;
    p ← ring_try_pop ring [] 0 None; _ ← ASSERT_TRUE (p_ok p);
    _ ← ASSERT_EQ (p_type p) 1;
    _ ← ASSERT_EQ (p_out p) small;
    p ← ring_try_pop ring (p_out p) (p_type p) None; _ ← ASSERT_TRUE (p_ok p);
    _ ← ASSERT_EQ (p_type p) 2;
    ASSERT_EQ (p_out p) large).

Definition wrap_around (path : string) : M unit :=
  scoped (ring_create path 256) (fun ring =>
    _ ← for_state 5 0 ([], 0) (fun i st =>
      ok ← ring_try_push_span ring (replicate 60 x05) i; _ ← ASSERT_TRUE ok;
      p ← ring_try_pop ring st.1 st.2 None; _ ← ASSERT_TRUE (p_ok p);
      _ ← ASSERT_EQ (p_type p) i; mret (p_out p, p_type p));
    mret tt).

(** [n] messages. *)
Definition sequence_numbers (n : nat) (path : string) : M unit :=
  scoped (ring_create path 4096) (fun ring =>
    _ ← for_loop n 0 (fun _ => ok ← ring_try_push ring (c_str "seq") 1; ASSERT_TRUE ok);
    _ ← for_state n 1 ([], 0, Some 0) (fun i '(out, type, seq) =>
      p ← ring_try_pop ring out type seq; _ ← ASSERT_TRUE (p_ok p);
      _ ← ASSERT_EQ (p_seq p) (Some i); mret (p_out p, p_type p, p_seq p));
    mret tt).
End Rings.

Definition ring_claim_create (path : string) : M unit :=
  scoped_claim (spsc_claim sys path 4096) (fun ring result =>
    _ ← ASSERT_EQ result kCreated;
    let payload := c_str "hello" in
    ok ← ring_try_push SPSC ring payload 1; _ ← ASSERT_TRUE ok;
    p ← ring_try_pop SPSC ring [] 0 None; _ ← ASSERT_TRUE (p_ok p);
    _ ← ASSERT_EQ (p_type p) 1;
    ASSERT_EQ (take 6 (p_out p)) payload).

Definition ring_claim_resume (path : string) : M unit :=
  _ ← scoped (spsc_create sys path 4096) (fun ring =>
    ok ← ring_try_push SPSC ring (c_str "alpha") 1; _ ← ASSERT_TRUE ok;
    ok ← ring_try_push SPSC ring (c_str "beta") 2; ASSERT_TRUE ok);
  scoped_claim (spsc_claim sys path 4096) (fun ring result =>
    _ ← ASSERT_EQ result kResumed;
    p ← ring_try_pop SPSC ring [] 0 None; _ ← ASSERT_TRUE (p_ok p);
    _ ← ASSERT_EQ (p_type p) 1;
    _ ← ASSERT_EQ (take 6 (p_out p)) (c_str "alpha");
    p ← ring_try_pop SPSC ring (p_out p) (p_type p) None; _ ← ASSERT_TRUE (p_ok p);
    _ ← ASSERT_EQ (p_type p) 2;
    _ ← ASSERT_EQ (take 5 (p_out p)) (c_str "beta");
    p ← ring_try_pop SPSC ring (p_out p) (p_type p) None; _ ← ASSERT_FALSE (p_ok p);
    ok ← ring_try_push SPSC ring (c_str "gamma") 3; _ ← ASSERT_TRUE ok;
    p ← ring_try_pop SPSC ring (p_out p) (p_type p) None; _ ← ASSERT_TRUE (p_ok p);
    ASSERT_EQ (p_type p) 3).

Definition ring_tests : list (N -> M unit) :=
  [with_temp_file "lfring_basic" (create_open_push_pop MPSC);
   with_temp_file "lfring_var" (variable_payload_sizes MPSC);
   with_temp_file "lfring_wrap" (wrap_around MPSC);
   with_temp_file "lfring_seq" (sequence_numbers MPSC 3);
   with_temp_file "lfring_seq_mpmc" (sequence_numbers MPMC 2);
   with_temp_file "lfring_spsc_basic" (create_open_push_pop SPSC);
   with_temp_file "lfring_spsc_wrap" (wrap_around SPSC);
   with_temp_file "lfring_spsc_seq" (sequence_numbers SPSC 3);
   with_temp_file "spsc_byte_claim_create" ring_claim_create;
   with_temp_file "spsc_byte_claim_resume" ring_claim_resume].

(** ** test_spsc_queue.cpp *)

Section Queues.
Context (sizeof_T Capacity : Z).

Definition q_create (path : string) : M Mapping := SpscQueue.create sizeof_T Capacity sys path.
Definition q_push (m : Mapping) (v : list byte) : M bool :=
  exec m 0 (SpscQueue.try_push sizeof_T Capacity v).
Definition q_pop (m : Mapping) (out : list byte) : M (bool * list byte) :=
  exec m 0 (SpscQueue.try_pop sizeof_T Capacity out).
Definition q_size (m : Mapping) : M Z := exec m 0 SpscQueue.size.
Definition q_empty (m : Mapping) : M bool := exec m 0 SpscQueue.empty.

Definition q_pushes (m : Mapping) (v : list byte) : M unit := ok ← q_push m v; ASSERT_TRUE ok.
(** A pop into a variable that is zero, with the value it must give. *)
Definition q_pops (m : Mapping) (v : list byte) : M unit :=
  r ← q_pop m (replicate (Z.to_nat sizeof_T) x00); _ ← ASSERT_TRUE r.1; ASSERT_EQ r.2 v.
Definition q_pops_nothing (m : Mapping) : M unit :=
  r ← q_pop m (replicate (Z.to_nat sizeof_T) x00); ASSERT_FALSE r.1.

Definition queue_create_and_open (path : string) : M unit :=
  scoped (q_create path) (fun q =>
    scoped (SpscQueue.open sizeof_T Capacity sys path) (fun q2 =>
      e ← q_empty q; _ ← ASSERT_TRUE e;
      n ← q_size q; _ ← ASSERT_EQ n 0;
      ASSERT_EQ Capacity 16)).

Definition queue_single (v : list byte) (path : string) : M unit :=
  scoped (q_create path) (fun q => _ ← q_pushes q v; q_pops q v).

Definition queue_full (path : string) : M unit :=
  scoped (q_create path) (fun q =>
    _ ← for_loop 4 0 (fun i => q_pushes q (uint32 i));
    n ← q_size q; _ ← ASSERT_EQ n 4;
    ok ← q_push q (uint32 99); _ ← ASSERT_FALSE ok;
    _ ← q_pops q (uint32 0);
    q_pushes q (uint32 99)).

Definition queue_empty (path : string) : M unit :=
  scoped (q_create path) (fun q =>
    _ ← q_pops_nothing q; e ← q_empty q; ASSERT_TRUE e).

Definition queue_wrap_around (path : string) : M unit :=
  scoped (q_create path) (fun q =>
    for_loop 20 0 (fun i => _ ← q_pushes q (uint32 i); q_pops q (uint32 i))).

Definition queue_fifo (path : string) : M unit :=
  scoped (q_create path) (fun q =>
    _ ← for_loop 8 0 (fun i => q_pushes q (uint32 i));
    for_loop 8 0 (fun i => q_pops q (uint32 i))).

Definition queue_size_and_empty (path : string) : M unit :=
  scoped (q_create path) (fun q =>
    e ← q_empty q; _ ← ASSERT_TRUE e; n ← q_size q; _ ← ASSERT_EQ n 0;
    _ ← q_push q (uint64 1);
    e ← q_empty q; _ ← ASSERT_FALSE e; n ← q_size q; _ ← ASSERT_EQ n 1;
    _ ← q_push q (uint64 2); n ← q_size q; _ ← ASSERT_EQ n 2;
    r ← q_pop q (uint64 0); n ← q_size q; _ ← ASSERT_EQ n 1;
    _ ← q_pop q r.2; e ← q_empty q; ASSERT_TRUE e).

Definition queue_claim_create (path : string) : M unit :=
  scoped_claim (SpscQueue.claim sizeof_T Capacity sys path) (fun q result =>
    _ ← ASSERT_EQ result kCreated;
    e ← q_empty q; _ ← ASSERT_TRUE e;
    _ ← q_pushes q (uint64 42); q_pops q (uint64 42)).

Definition queue_claim_resume (path : string) : M unit :=
  _ ← scoped (q_create path) (fun q =>
    _ ← q_pushes q (uint64 10); _ ← q_pushes q (uint64 20); q_pushes q (uint64 30));
  scoped_claim (SpscQueue.claim sizeof_T Capacity sys path) (fun q result =>
    _ ← ASSERT_EQ result kResumed;
    _ ← q_pops q (uint64 10); _ ← q_pops q (uint64 20); _ ← q_pops q (uint64 30);
    _ ← q_pops_nothing q;
    _ ← q_pushes q (uint64 40); q_pops q (uint64 40)).
End Queues.

(** The temporary that [create] returns is destroyed at once. *)
Definition queue_open_mismatch (path : string) : M unit :=
  _ ← scoped (q_create 4 16 path) (fun _ => mret tt);
  ASSERT_THROW (SpscQueue.open 4 32 sys path).
Definition queue_claim_mismatch (path : string) : M unit :=
  _ ← scoped (q_create 4 16 path) (fun _ => mret tt);
  ASSERT_THROW (SpscQueue.claim 4 32 sys path).

Definition queue_tests : list (N -> M unit) :=
  [with_temp_file "spscq_create" (queue_create_and_open 8 16);
   with_temp_file "spscq_single" (queue_single 8 16 (uint64 42));
   with_temp_file "spscq_full" (queue_full 4 4);
   with_temp_file "spscq_empty" (queue_empty 8 8);
   with_temp_file "spscq_wrap" (queue_wrap_around 4 4);
   with_temp_file "spscq_fifo" (queue_fifo 4 8);
   with_temp_file "spscq_large" (queue_single 192 8 (robot_bytes state_msg));
   with_temp_file "spscq_size" (queue_size_and_empty 8 8);
   with_temp_file "spscq_mismatch" queue_open_mismatch;
   with_temp_file "spscq_claim_create" (queue_claim_create 8 16);
   with_temp_file "spscq_claim_resume" (queue_claim_resume 8 16);
   with_temp_file "spscq_claim_mismatch" queue_claim_mismatch].

(** ** test_typed_message.cpp *)

(** [PriceUpdate]: an id, four bytes of padding, a price. *)
Definition price_update : list byte := uint32 123 ++ replicate 4 x00 ++ double_bytes (double_lit 45675 100).
Definition price_type : MessageType := mkMessageType true 42.

(** A call that does not compile has no behaviour. *)
Definition compiled {A} (p : option A) (run_it : A -> M unit) : M unit :=
  match p with Some p => run_it p | None => throw (RuntimeError "static_assert") end.

Definition typed_trivially_copyable (path : string) : M unit :=
  scoped (mpsc_create sys path 4096) (fun ring =>
    compiled (writer_try_push_pod MPSC (capacity ring) price_type 16 price_update) (fun push =>
    compiled (reader_try_pop_type MPSC (capacity ring) (pod_codec 16) price_type
                (mkReader [] 0 0) (replicate 16 x00)) (fun pop =>
      ok ← exec_loop 2 ring 0 push; _ ← ASSERT_TRUE ok;
      r ← exec_loop 2 ring 0 pop; _ ← ASSERT_TRUE r.1.1;
      ASSERT_EQ r.1.2 price_update))).

(** [out] starts as [init] and must end as [value]. *)
Definition typed_payload {T} `{EqDecision T} (C : MessageCodec T) (value init : T) (type : Z)
    (path : string) : M unit :=
  scoped (mpsc_create sys path 4096) (fun ring =>
    ok ← exec_loop 2 ring 0 (try_push_typed MPSC (capacity ring) C [] value type).1;
    _ ← ASSERT_TRUE ok;
    r ← exec_loop 2 ring 0 (try_pop_typed MPSC (capacity ring) C (mkReader [] 0 0) type init);
    _ ← ASSERT_TRUE r.1.1;
    ASSERT_EQ r.1.2 value).

Definition typed_sequence (path : string) : M unit :=
  scoped (mpsc_create sys path 4096) (fun ring =>
    let push scratch s := try_push_typed MPSC (capacity ring) string_codec scratch (chars s) 7 in
    let first := push [] "a"%string in
    ok ← exec_loop 2 ring 0 first.1; _ ← ASSERT_TRUE ok;
    ok ← exec_loop 2 ring 0 (push first.2 "b"%string).1; _ ← ASSERT_TRUE ok;
    r ← exec_loop 2 ring 0 (reader_try_pop MPSC (capacity ring) (mkReader [] 0 0));
    _ ← ASSERT_EQ (option_map view_sequence r.1) (Some 1);
    r ← exec_loop 2 ring 0 (reader_try_pop MPSC (capacity ring) r.2);
    ASSERT_EQ (option_map view_sequence r.1) (Some 2)).

Definition typed_tests : list (N -> M unit) :=
  [with_temp_file "lfring_typed" typed_trivially_copyable;
   with_temp_file "lfring_typed_str" (typed_payload string_codec (chars "hello typed") [] 7);
   with_temp_file "lfring_typed_vec" (typed_payload (vector_codec 4) (map uint32 [1; 2; 3; 4; 5]) [] 9);
   with_temp_file "lfring_typed_seq" typed_sequence].

(** ** test_shared_latest.cpp *)

(** Durations, in nanoseconds; the tests start at time [t0]. *)
Definition ms (n : Z) : Z := n * 10 ^ 6.
Definition sec (n : Z) : Z := n * 10 ^ 9.
Definition t0 : Z := sec 5000.

(** The file mapped once more, and some of its atomics stored to: the state that
    a writer which dies in the middle of a write leaves behind. *)
Definition poke (path : string) (stores : list (field * Z)) : M unit :=
  fd ← open_file_existing sys path;
  a ← mmap sys fd (required_mapping_size 8);
  match a with
  | None => ASSERT_TRUE false
  | Some mem =>
      control_offset ← map_read_uint mem off_control_offset 8;
      _ ← foldr (fun fv rest =>
            _ ← map_write_uint mem (control_offset + off_field fv.1) 8 fv.2; rest) (mret tt) stores;
      _ ← munmap sys mem (required_mapping_size 8);
      close sys fd
  end.

Section Latest.
Context (sizeof_T : Z).

Definition sl_create (path : string) : M Mapping := SharedLatest.create sizeof_T sys path.
Definition sl_open (path : string) : M Mapping := SharedLatest.open sys path.
Definition sl_write (m : Mapping) (now : Z) (v : list byte) : M unit := exec m now (write sizeof_T v).
Definition sl_notify (m : Mapping) (now : Z) (v : list byte) : M unit :=
  exec m now (write_and_notify sizeof_T v).
Definition sl_sequence (m : Mapping) (n : Z) : M unit := q ← exec m 0 raw_sequence; ASSERT_EQ q n.
Definition sl_counter (m : Mapping) (n : Z) : M unit := c ← exec m 0 notify_counter; ASSERT_EQ c n.

(** [try_read] gives [v], [try_read] with a threshold gives [r]; the default
    number of retries is 1024. *)
Definition sl_reads (m : Mapping) (out v : list byte) : M unit :=
  r ← exec m 0 (try_read sizeof_T out 1024); _ ← ASSERT_TRUE r.1; ASSERT_EQ r.2 v.
Definition sl_result (m : Mapping) (now : Z) (out : list byte) (dead_threshold : Z) (retries : nat)
    (r : ReadResult) : M (list byte) :=
  x ← exec m now (try_read_rich sizeof_T out dead_threshold retries);
  _ ← ASSERT_EQ x.1 r; mret x.2.
Definition sl_alive (m : Mapping) (now threshold : Z) (b : bool) : M unit :=
  a ← exec m now (is_writer_alive threshold); ASSERT_EQ a b.
End Latest.

Definition pose_state : list byte := double_bytes (double_lit 1 1) ++ double_bytes (double_lit 2 1) ++
  double_bytes (double_lit 5 10) ++ uint64 123.

Definition latest_write_and_read (path : string) : M unit :=
  scoped (sl_create 32 path) (fun sl =>
    _ ← sl_write 32 sl t0 pose_state; sl_reads 32 sl (replicate 32 x00) pose_state).

Definition latest_read_empty (path : string) : M unit :=
  scoped (sl_create 8 path) (fun sl =>
    _ ← sl_reads 8 sl (uint64 42) (uint64 0); sl_sequence sl 0).

Definition latest_empty_status (path : string) : M unit :=
  scoped (sl_create 8 path) (fun sl =>
    _ ← sl_result 8 sl t0 (uint64 42) (sec 1) 1024 kEmpty; mret tt).

Definition latest_multiple_writes (path : string) : M unit :=
  scoped (sl_create 8 path) (fun sl =>
    _ ← for_loop 100 0 (fun i => sl_write 8 sl (t0 + i) (uint64 i));
    sl_reads 8 sl (uint64 0) (uint64 99)).

(** The parent waits for the child, so that the child's part comes first. *)
Definition latest_writer_death (path : string) : M unit :=
  _ ← scoped (sl_create 8 path) (fun _ => mret tt);
  _ ← scoped (sl_open path) (fun sl => sl_write 8 sl t0 (uint64 42));
  _ ← poke path [(FSequence, 3)];
  scoped (sl_open path) (fun reader =>
    q ← exec reader 0 raw_sequence; _ ← ASSERT_EQ (Z.land q 1) 1;
    _ ← sl_result 8 reader (t0 + ms 10) (uint64 0) (ms 1) 256 kWriterDead; mret tt).

Definition latest_is_writer_alive (path : string) : M unit :=
  scoped (sl_create 8 path) (fun sl =>
    _ ← sl_alive sl t0 (sec 1) false;
    _ ← sl_write 8 sl t0 (uint64 42);
    sl_alive sl t0 (sec 1) true).

Definition latest_alive_stale (path : string) : M unit :=
  scoped (sl_create 8 path) (fun sl =>
    _ ← sl_write 8 sl t0 (uint64 42);
    _ ← sl_alive sl (t0 + ms 50) (ms 10) false;
    sl_alive sl (t0 + ms 50) (sec 1) true).

Definition latest_result_success (path : string) : M unit :=
  scoped (sl_create 8 path) (fun sl =>
    _ ← sl_write 8 sl t0 (uint64 42);
    out ← sl_result 8 sl t0 (uint64 0) (sec 1) 1024 kSuccess;
    ASSERT_EQ out (uint64 42)).

Definition latest_result_contended (path : string) : M unit :=
  _ ← scoped (sl_create 8 path) (fun sl => sl_write 8 sl t0 (uint64 42));
  _ ← poke path [(FSequence, 3); (FHeadReserve, t0)];
  scoped (sl_open path) (fun reader =>
    _ ← sl_result 8 reader t0 (uint64 0) (sec 10) 128 kContended; mret tt).

Definition latest_claim_creates (path : string) : M unit :=
  scoped_claim (latest_claim sys 8 path (ms 500) t0) (fun sl result =>
    _ ← ASSERT_EQ result kCreated;
    _ ← sl_write 8 sl t0 (uint64 42); sl_reads 8 sl (uint64 0) (uint64 42)).

Definition latest_claim_resumes (path : string) : M unit :=
  _ ← scoped (sl_create 8 path) (fun sl => sl_write 8 sl t0 (uint64 99));
  scoped_claim (latest_claim sys 8 path (ms 500) t0) (fun sl result =>
    _ ← ASSERT_EQ result kResumed;
    _ ← sl_reads 8 sl (uint64 0) (uint64 99);
    _ ← sl_write 8 sl t0 (uint64 100);
    sl_reads 8 sl (uint64 99) (uint64 100)).

Definition latest_claim_recovers (path : string) : M unit :=
  _ ← scoped (sl_create 8 path) (fun sl => sl_write 8 sl t0 (uint64 42));
  _ ← poke path [(FSequence, 3)];
  scoped_claim (latest_claim sys 8 path (ms 1) (t0 + ms 20)) (fun sl result =>
    _ ← ASSERT_EQ result kRecovered;
    _ ← sl_sequence sl 0;
    out ← sl_result 8 sl (t0 + ms 20) (uint64 999) (sec 1) 1024 kEmpty;
    _ ← sl_write 8 sl (t0 + ms 20) (uint64 77);
    _ ← sl_sequence sl 2;
    sl_reads 8 sl out (uint64 77)).

Definition latest_claim_rejects (path : string) : M unit :=
  scoped (sl_create 8 path) (fun sl =>
    _ ← sl_write 8 sl t0 (uint64 42);
    _ ← poke path [(FSequence, 3)];
    ASSERT_THROW (latest_claim sys 8 path (sec 10) t0)).

(** The child ends without destructors; the system releases its mapping. *)
Definition latest_claim_other_process (path : string) : M unit :=
  _ ← scoped (sl_create 8 path) (fun sl => sl_write 8 sl t0 (uint64 42));
  _ ← poke path [(FSequence, 5)];
  _ ← scoped_claim (latest_claim sys 8 path (ms 1) (t0 + ms 20)) (fun sl result =>
        _ ← ASSERT_EQ result kRecovered; sl_notify 8 sl (t0 + ms 20) (uint64 123));
  scoped (sl_open path) (fun reader => sl_reads 8 reader (uint64 0) (uint64 123)).

Definition latest_notify_counter (path : string) : M unit :=
  scoped (sl_create 8 path) (fun sl =>
    _ ← sl_counter sl 0;
    _ ← sl_write 8 sl t0 (uint64 1); _ ← sl_counter sl 0;
    _ ← sl_notify 8 sl t0 (uint64 2); _ ← sl_counter sl 1;
    _ ← sl_notify 8 sl t0 (uint64 3); _ ← sl_counter sl 2;
    sl_reads 8 sl (uint64 0) (uint64 3)).

Definition latest_tests : list (N -> M unit) :=
  [with_temp_file "sl_write_read" latest_write_and_read;
   with_temp_file "sl_read_empty" latest_read_empty;
   with_temp_file "sl_read_empty_status" latest_empty_status;
   with_temp_file "sl_multi_write" latest_multiple_writes;
   with_temp_file "sl_writer_death" latest_writer_death;
   with_temp_file "sl_alive" latest_is_writer_alive;
   with_temp_file "sl_alive_stale" latest_alive_stale;
   with_temp_file "sl_result_success" latest_result_success;
   with_temp_file "sl_contended" latest_result_contended;
   with_temp_file "sl_claim_create" latest_claim_creates;
   with_temp_file "sl_claim_resume" latest_claim_resumes;
   with_temp_file "sl_claim_recover" latest_claim_recovers;
   with_temp_file "sl_claim_reject_live" latest_claim_rejects;
   with_temp_file "sl_claim_xproc" latest_claim_other_process;
   with_temp_file "sl_futex_counter" latest_notify_counter].
End Tests.

(** ** Running them *)

Fixpoint run_all (tests : list (N -> M unit)) (counter : N) : M unit :=
  match tests with
  | [] => mret tt
  | t :: tests => _ ← t counter; run_all tests (counter + 1)%N
  end.

(** The tests of one program pass, and nothing is left. *)
Definition passes (tests : list (N -> M unit)) : bool :=
  match run_all tests 0 empty_world with
  | (Ok _, w) => bool_decide (dir w = ∅) && bool_decide (fds w = ∅) && bool_decide (maps w = ∅)
  | _ => false
  end.

(** The 41 tests of the four test programs that need no second thread pass. *)
Lemma tests_pass :
  forallb passes [ring_tests ideal_sys; queue_tests ideal_sys; typed_tests ideal_sys;
                  latest_tests ideal_sys] = true.
Proof. vm_compute. reflexivity. Qed.
