(* ===== verification/WeakMemory.v ===== *)
(** * Release/acquire memory

    The interleavings of [Prog] are sequentially consistent.  The code asks for
    less: its loads are relaxed or acquire, its stores relaxed or release, and the
    bytes of the ring are not atomic at all.  This file runs the same programs on
    a memory with the C++ release/acquire semantics, in its usual operational form:

    - every atomic keeps the history of its writes; a load may return any write
      that is not older than what its thread has seen of that atomic;
    - what a thread has seen is its [view]: how much of the history of every atomic
      and of every byte, and how many reads of every thread, happened before its next
      access; a release store attaches the view of its thread to the write, an acquire
      load that returns the write joins that view;
    - an access to a byte of the ring is a data race, undefined behaviour in C++,
      if the last write of the byte, or for a write one of the reads since then,
      did not happen before it.

    The order of the writes of one atomic is the order in which they are executed:
    each atomic that is written by plain stores has one writing thread at a time.
    A load does not return a write that comes later (no load buffering).  The machine
    records a race and goes on, as if the bytes were relaxed atomics.  The acquire
    fences of the source are not steps: they follow reads of plain bytes, whose
    writes carry no view.

    The memory orders are an argument ([orders]) of the machine, so that the code
    and its orders are given separately.  [wwp] and [wrg_sound] are the
    rely-guarantee logic of [Prog] for this machine. *)

From Stdlib Require Import ZArith Lia Strings.Byte.
From stdpp Require Import base list numbers gmap functions.
From S2P Require Import Prelude Memory Layout Prog.

(** ** Views *)

(** [vf f]: the timestamp (place in the history) of the newest write of [f] that was
    seen; [vb b]: the same for byte [b]; [vc u]: how many of the reads of
    thread [u] happened before. *)
Record view := View { vf : field -> nat; vb : nat -> nat; vc : nat -> nat }.

Definition bot : view := View (fun _ => O) (fun _ => O) (fun _ => O).
Definition join (V1 V2 : view) : view :=
  View (fun f => vf V1 f `max` vf V2 f)%nat (fun b => vb V1 b `max` vb V2 b)%nat
       (fun u => vc V1 u `max` vc V2 u)%nat.
Definition at_field (f : field) (i : nat) : view := View (<[f := i]> (vf bot)) (vb bot) (vc bot).
Definition at_byte (b i : nat) : view := View (vf bot) (<[b := i]> (vb bot)) (vc bot).
Definition at_read (u c : nat) : view := View (vf bot) (vb bot) (<[u := c]> (vc bot)).

Declare Scope view_scope.
Delimit Scope view_scope with view.
Bind Scope view_scope with view.
Notation "V1 ⊔ᵥ V2" := (join V1 V2) (at level 50, left associativity) : view_scope.
#[global] Open Scope view_scope.

Definition view_le (V1 V2 : view) : Prop :=
  (forall f, (vf V1 f <= vf V2 f)%nat) /\ (forall b, (vb V1 b <= vb V2 b)%nat) /\
  (forall u, (vc V1 u <= vc V2 u)%nat).

#[export] Instance view_le_pre : PreOrder view_le.
Proof.
  split.
  - intros V. by split_and!.
  - intros V1 V2 V3 (? & ? & ?) (? & ? & ?). split_and!; intros; etrans; eauto.
Qed.

Lemma join_l V1 V2 : view_le V1 (V1 ⊔ᵥ V2).
Proof. split_and!; intros; simpl; lia. Qed.

Lemma join_r V1 V2 : view_le V2 (V1 ⊔ᵥ V2).
Proof. split_and!; intros; simpl; lia. Qed.

(** ** Memory *)

Record wmem := WMem {
  w_atoms : field -> list (Z * view); (* the writes of each atomic, oldest first *)
  w_bytes : list (list byte);         (* the writes of each byte of the ring *)
  w_reads : nat -> list (nat * nat);  (* the reads of a byte since its last write *)
  w_views : nat -> view;
  w_clock : Z;
}.

(** The newest write of an atomic, and the newest contents of the whole memory. *)
Definition newest (m : wmem) (f : field) : Z * view := default (0, bot) (list.last (w_atoms m f)).
Definition cur_byte (l : list byte) : byte := default x00 (list.last l).
Definition flat (m : wmem) : shared :=
  mkShared (mkControl (newest m FHeadReserve).1 (newest m FHeadPublish).1
              (newest m FTailReserve).1 (newest m FTailPublish).1 (newest m FSequence).1)
    (cur_byte <$> w_bytes m) (w_clock m).

Arguments flat : simpl never.

(** Memory whose present contents happened before everything that follows. *)
Definition wmem_of (s : shared) : wmem :=
  WMem (fun f => [(load f s, bot)]) ((fun b => [b]) <$> ring s) (fun _ => []) (fun _ => bot) (clock s).

Definition set_view (t : nat) (V : view) (m : wmem) : wmem :=
  WMem (w_atoms m) (w_bytes m) (w_reads m) (<[t := V]> (w_views m)) (w_clock m).

(** A load that returns the write with timestamp [i]. *)
Definition w_load (acq : bool) (t : nat) (f : field) (i : nat) (m : wmem) : option (Z * wmem) :=
  let V := w_views m t in
  if (vf V f <=? i)%nat then
    match w_atoms m f !! i with
    | Some (v, Vm) =>
        Some (v, set_view t (V ⊔ᵥ at_field f i ⊔ᵥ (if acq then Vm else bot)) m)
    | None => None
    end
  else None.

Definition append (t : nat) (f : field) (v : Z) (Vt Vm : view) (m : wmem) : wmem :=
  WMem (<[f := w_atoms m f ++ [(v, Vm)]]> (w_atoms m)) (w_bytes m) (w_reads m)
    (<[t := Vt]> (w_views m)) (w_clock m).

Definition w_store (rel : bool) (t : nat) (f : field) (v : Z) (m : wmem) : wmem :=
  let V := w_views m t ⊔ᵥ at_field f (length (w_atoms m f)) in
  append t f v V (if rel then V else at_field f (length (w_atoms m f))) m.

(** A read-modify-write reads the newest write and continues its release sequence. *)
Definition w_rmw (acq rel : bool) (t : nat) (f : field) (d : Z) (m : wmem) : wmem :=
  let Vm := (newest m f).2 in
  let V := w_views m t ⊔ᵥ at_field f (length (w_atoms m f)) ⊔ᵥ (if acq then Vm else bot) in
  append t f d V (Vm ⊔ᵥ (if rel then V else at_field f (length (w_atoms m f)))) m.

(** The last write of byte [b] did not happen before the next access of [V]'s thread. *)
Definition unseen (V : view) (l : list byte) (b : nat) : bool := (S (vb V b) <? length l)%nat.

(** Read the write of byte [b] with timestamp [i]: whether this races, the byte, and
    the memory afterwards. *)
Definition w_read1 (t b i : nat) (m : wmem) : option (bool * byte * wmem) :=
  let V := w_views m t in
  match w_bytes m !! b with
  | Some l =>
      if (vb V b <=? i)%nat then
        match l !! i with
        | Some x =>
            let c := S (vc V t) in
            Some (unseen V l b, x,
              WMem (w_atoms m) (w_bytes m) (<[b := (t, c) :: w_reads m b]> (w_reads m))
                (<[t := V ⊔ᵥ at_byte b i ⊔ᵥ at_read t c]> (w_views m)) (w_clock m))
        | None => None
        end
      else None
  | None => None
  end.

Fixpoint w_read (t b : nat) (ch : list nat) (m : wmem) : option (bool * list byte * wmem) :=
  match ch with
  | [] => Some (false, [], m)
  | i :: ch =>
      match w_read1 t b i m with
      | Some (r, x, m) =>
          match w_read t (S b) ch m with
          | Some (r', bs, m) => Some (r || r', x :: bs, m)
          | None => None
          end
      | None => None
      end
  end.

(** A read of another thread did not happen before the next access. *)
Definition unordered (t : nat) (V : view) (e : nat * nat) : bool :=
  negb (e.1 =? t)%nat && (vc V e.1 <? e.2)%nat.

Definition w_write1 (t b : nat) (x : byte) (m : wmem) : option (bool * wmem) :=
  let V := w_views m t in
  match w_bytes m !! b with
  | Some l =>
      Some (unseen V l b || existsb (unordered t V) (w_reads m b),
        WMem (w_atoms m) (<[b := l ++ [x]]> (w_bytes m)) (<[b := []]> (w_reads m))
          (<[t := V ⊔ᵥ at_byte b (length l)]> (w_views m)) (w_clock m))
  | None => None
  end.

Fixpoint w_write (t b : nat) (bs : list byte) (m : wmem) : option (bool * wmem) :=
  match bs with
  | [] => Some (false, m)
  | x :: bs =>
      match w_write1 t b x m with
      | Some (r, m) =>
          match w_write t (S b) bs m with
          | Some (r', m) => Some (r || r', m)
          | None => None
          end
      | None => None
      end
  end.

Definition w_tick (d : Z) (m : wmem) : wmem :=
  WMem (w_atoms m) (w_bytes m) (w_reads m) (w_views m) (w_clock m + d).

(** ** Memory orders *)

(** Which loads of an operation acquire, which stores release, and the same for
    its read-modify-writes, by atomic. *)
Record orders := Orders {
  acquires : field -> bool;
  releases : field -> bool;
  rmw_acquires : field -> bool;
  rmw_releases : field -> bool;
}.

Definition only (fs : list field) (f : field) : bool := bool_decide (f ∈ fs).

(** ** One access *)

Inductive wstep_result (A : Type) : Type :=
| WNext (race : bool) (m : wmem) (p : prog A)
| WNone
| WFault.
Arguments WNext {A} race m p.
Arguments WNone {A}.
Arguments WFault {A}.

Definition in_ring (m : wmem) (off n : Z) : bool :=
  (0 <=? off) && (0 <=? n) && (off + n <=? Z.of_nat (length (w_bytes m))).

(** [ch] chooses the writes that a load ([[i]]) or a read of bytes returns; [spur]
    lets a weak compare-exchange fail spuriously.  A choice that the memory does not
    offer is no step ([WNone]).  Polls of an [Await] that do not end it are not
    steps either. *)
Definition wstep1 {A} (o : orders) (t : nat) (ch : list nat) (spur : bool) (m : wmem) (p : prog A)
  : wstep_result A :=
  match p with
  | Ret _ => WNone
  | Load f k =>
      match ch with
      | [i] => match w_load (acquires o f) t f i m with
               | Some (v, m') => WNext false m' (k v)
               | None => WNone
               end
      | _ => WNone
      end
  | Store f v k => WNext false (w_store (releases o f) t f v m) k
  | Cas weak f e d k =>
      match ch with
      | [] => if ((newest m f).1 =? e) && negb (weak && spur)
              then WNext false (w_rmw (rmw_acquires o f) (rmw_releases o f) t f d m) (k true)
              else WNone
      | [i] => match w_load (acquires o f) t f i m with
               | Some (v, m') => if negb (v =? e) || (weak && spur) then WNext false m' (k false) else WNone
               | None => WNone
               end
      | _ => WNone
      end
  | FetchAdd f v k =>
      WNext false (w_rmw (rmw_acquires o f) (rmw_releases o f) t f (add64 (newest m f).1 v) m)
        (k (newest m f).1)
  | Await f v k =>
      match ch with
      | [i] => match w_load (acquires o f) t f i m with
               | Some (x, m') => if x =? v then WNext false m' k else WNone
               | None => WNone
               end
      | _ => WNone
      end
  | Read off n k =>
      if in_ring m off n then
        if (Z.of_nat (length ch) =? n) then
          match w_read t (Z.to_nat off) ch m with
          | Some (r, bs, m') => WNext r m' (k bs)
          | None => WNone
          end
        else WNone
      else WFault
  | Write off bs k =>
      if in_ring m off (Z.of_nat (length bs)) then
        match w_write t (Z.to_nat off) bs m with
        | Some (r, m') => WNext r m' k
        | None => WNone
        end
      else WFault
  | Now k => WNext false m (k (w_clock m))
  | WakeAll k => WNext false m k
  | Undefined => WFault
  end.

(** ** Facts on the accesses *)

Lemma newest_snoc m f v V : list.last (w_atoms m f) = Some (v, V) -> newest m f = (v, V).
Proof. unfold newest. by intros ->. Qed.

Lemma newest_append t f v Vt Vm m g :
  newest (append t f v Vt Vm m) g = if decide (f = g) then (v, Vm) else newest m g.
Proof.
  unfold newest, append. simpl. destruct (decide (f = g)) as [<-|].
  - by rewrite fn_lookup_insert, last_snoc.
  - by rewrite fn_lookup_insert_ne.
Qed.

(** The newest contents change as in a sequentially consistent memory. *)
Lemma load_flat f m : load f (flat m) = (newest m f).1.
Proof. by destruct f. Qed.

Lemma flat_append t f v Vt Vm m : flat (append t f v Vt Vm m) = store f v (flat m).
Proof.
  unfold flat, store. rewrite !newest_append. destruct f; simpl; f_equal.
Qed.

Lemma flat_set_view t V m : flat (set_view t V m) = flat m.
Proof. done. Qed.

Lemma flat_load acq t f i m v m' : w_load acq t f i m = Some (v, m') -> flat m' = flat m.
Proof.
  unfold w_load. case_if; [|done]. destruct (w_atoms m f !! i) as [[? ?]|]; [|done]. by intros [= _ <-].
Qed.

Lemma view_load acq t f i m v m' :
  w_load acq t f i m = Some (v, m') -> view_le (w_views m t) (w_views m' t).
Proof.
  unfold w_load. case_if; [|done]. destruct (w_atoms m f !! i) as [[? ?]|]; [|done]. intros [= _ <-].
  simpl. rewrite fn_lookup_insert. etrans; apply join_l.
Qed.

Lemma flat_store rel t f v m : flat (w_store rel t f v m) = store f v (flat m).
Proof. apply flat_append. Qed.

Lemma flat_rmw acq rel t f v m : flat (w_rmw acq rel t f v m) = store f v (flat m).
Proof. apply flat_append. Qed.

Lemma splice_insert m b (x : byte) :
  (b < length m)%nat -> splice m (Z.of_nat b) [x] = <[b := x]> m.
Proof.
  intros Hb. unfold splice. rewrite Nat2Z.id. simpl. rewrite insert_take_drop by done.
  by rewrite Nat.add_1_r.
Qed.

Lemma flat_write1 t b x m r m' : w_write1 t b x m = Some (r, m') ->
  flat m' = with_ring (splice (ring (flat m)) (Z.of_nat b) [x]) (flat m) /\
  length (w_bytes m') = length (w_bytes m).
Proof.
  unfold w_write1. destruct (w_bytes m !! b) as [l|] eqn:E; [|done]. intros [= <- <-].
  pose proof (lookup_lt_Some _ _ _ E). simpl. rewrite splice_insert by (by rewrite length_fmap).
  rewrite length_insert. split; [|done]. unfold flat, with_ring. simpl. f_equal.
  rewrite list_fmap_insert. f_equal. unfold cur_byte. by rewrite last_snoc.
Qed.

Lemma flat_read1 t b i m r x m' : w_read1 t b i m = Some (r, x, m') ->
  flat m' = flat m /\ w_bytes m' = w_bytes m.
Proof.
  unfold w_read1. destruct (w_bytes m !! b); [|done]. case_if; [|done].
  destruct (_ !! i); [|done]. by intros [= _ _ <-].
Qed.

Lemma length_ring_flat m : length (ring (flat m)) = length (w_bytes m).
Proof. apply length_fmap. Qed.

Lemma flat_of s : flat (wmem_of s) = s.
Proof.
  destruct s as [[] r c]. unfold flat, wmem_of. simpl. f_equal.
  rewrite <- list_fmap_compose. rewrite <- (list_fmap_id r) at 2. by apply list_fmap_ext.
Qed.

(** *** Well-formed memory

    Nobody has seen more than has been written. *)
Definition bounded (m : wmem) (V : view) : Prop :=
  (forall f, (vf V f < length (w_atoms m f))%nat) /\
  (forall b l, w_bytes m !! b = Some l -> (vb V b < length l)%nat).

Record wf (m : wmem) : Prop := {
  wf_view : forall t, bounded m (w_views m t);
  wf_msg : forall f i v V, w_atoms m f !! i = Some (v, V) -> bounded m V;
  wf_stamp : forall f i v V, w_atoms m f !! i = Some (v, V) -> vf V f = i;
}.

(** [m'] has at least the writes of [m]. *)
Definition extends (m m' : wmem) : Prop :=
  (forall f, (length (w_atoms m f) <= length (w_atoms m' f))%nat) /\
  (forall b l', w_bytes m' !! b = Some l' ->
     exists l, w_bytes m !! b = Some l /\ (length l <= length l')%nat).

Lemma extends_same m m' : w_atoms m' = w_atoms m -> w_bytes m' = w_bytes m -> extends m m'.
Proof. intros Ha Hb. split; rewrite ?Ha, ?Hb; eauto. Qed.

Lemma bounded_extends m m' V : extends m m' -> bounded m V -> bounded m' V.
Proof.
  intros [Hf Hb] [HVf HVb]. split.
  - intros f. specialize (Hf f). specialize (HVf f). lia.
  - intros b l' Hl'. destruct (Hb b l' Hl') as (l & Hl & ?). specialize (HVb b l Hl). lia.
Qed.

Lemma bounded_join m V1 V2 : bounded m V1 -> bounded m V2 -> bounded m (V1 ⊔ᵥ V2).
Proof.
  intros [? Hb1] [? Hb2]. split; simpl; intros; [by apply Nat.max_lub_lt|].
  apply Nat.max_lub_lt; [by eapply Hb1 | by eapply Hb2].
Qed.

(** A view that is nowhere above another one, except at some atom, byte or reader. *)
Lemma bounded_at_field m V f i : bounded m V -> (i < length (w_atoms m f))%nat -> bounded m (at_field f i).
Proof.
  intros [Hf Hb] Hi. split; simpl.
  - intros g. destruct (decide (f = g)) as [<-|]; [by rewrite fn_lookup_insert|].
    rewrite fn_lookup_insert_ne by done. specialize (Hf g). lia.
  - intros b l Hl. specialize (Hb b l Hl). lia.
Qed.

Lemma bounded_at_byte m V b i l :
  bounded m V -> w_bytes m !! b = Some l -> (i < length l)%nat -> bounded m (at_byte b i).
Proof.
  intros [Hf Hb] Hl Hi. split; simpl.
  - intros g. specialize (Hf g). lia.
  - intros b' l' Hl'. destruct (decide (b = b')) as [<-|].
    + rewrite fn_lookup_insert. congruence.
    + rewrite fn_lookup_insert_ne by done. specialize (Hb b' l' Hl'). lia.
Qed.

Lemma bounded_bot m V : bounded m V -> bounded m bot.
Proof.
  intros [Hf Hb]. split; simpl; [intros f; specialize (Hf f); lia|].
  intros b l Hl. specialize (Hb b l Hl). lia.
Qed.

Lemma bounded_at_read m V u c : bounded m V -> bounded m (at_read u c).
Proof. intros H. exact (bounded_bot m V H). Qed.

(** A change of one thread's view, with nothing or something appended. *)
Lemma wf_set m m' t V :
  wf m -> extends m m' -> w_views m' = <[t := V]> (w_views m) -> bounded m' V ->
  (forall f i v Vm, w_atoms m' f !! i = Some (v, Vm) ->
     w_atoms m f !! i = Some (v, Vm) \/ bounded m' Vm /\ vf Vm f = i) ->
  wf m'.
Proof.
  intros [Hv Hm Hst] He HV HbV Hmsg. constructor.
  - intros u. rewrite HV. destruct (decide (t = u)) as [<-|]; [by rewrite fn_lookup_insert|].
    rewrite fn_lookup_insert_ne by done. by eapply bounded_extends.
  - intros f i v Vm Hi. destruct (Hmsg _ _ _ _ Hi) as [Ho|[? _]]; [|done].
    eapply bounded_extends; [done | by eapply Hm].
  - intros f i v Vm Hi. destruct (Hmsg _ _ _ _ Hi) as [Ho|[_ ?]]; [by eapply Hst | done].
Qed.

Lemma wf_load acq t f i m v m' : wf m -> w_load acq t f i m = Some (v, m') -> wf m'.
Proof.
  intros Hwf. unfold w_load. case_if; [|done]. destruct (w_atoms m f !! i) as [[x Vm]|] eqn:E; [|done].
  intros [= -> <-]. pose proof (wf_view _ Hwf t) as HV.
  eapply wf_set; [done | by apply extends_same | done | | by left].
  repeat apply bounded_join; [done | |].
  - eapply bounded_at_field; [done | by eapply lookup_lt_Some].
  - destruct acq; [exact (wf_msg _ Hwf _ _ _ _ E) | by eapply bounded_bot].
Qed.

Lemma append_lookup t f v Vt Vm m g i x V :
  w_atoms (append t f v Vt Vm m) g !! i = Some (x, V) ->
  w_atoms m g !! i = Some (x, V) \/ V = Vm /\ f = g /\ i = length (w_atoms m f).
Proof.
  simpl. destruct (decide (f = g)) as [<-|]; [|rewrite fn_lookup_insert_ne by done; by left].
  rewrite fn_lookup_insert. intros [?|[? Hx]]%lookup_app_Some; [by left|].
  apply list_lookup_singleton_Some in Hx as [? [= <- <-]]. right. split_and!; [done | done | lia].
Qed.

Lemma append_extends t f v Vt Vm m : extends m (append t f v Vt Vm m).
Proof.
  split; simpl; [|eauto]. intros g. destruct (decide (f = g)) as [<-|].
  - rewrite fn_lookup_insert, length_app. lia.
  - by rewrite fn_lookup_insert_ne.
Qed.

Lemma wf_append t f v Vt Vm m :
  wf m -> bounded (append t f v Vt Vm m) Vt -> bounded (append t f v Vt Vm m) Vm ->
  vf Vm f = length (w_atoms m f) -> wf (append t f v Vt Vm m).
Proof.
  intros Hwf Ht Hm Hs. eapply wf_set; [done | apply append_extends | done | done |].
  intros g i x V [?|(-> & <- & ->)]%append_lookup; [by left | by right].
Qed.

Lemma wf_store rel t f v m : wf m -> wf (w_store rel t f v m).
Proof.
  intros Hwf. unfold w_store. set (V := w_views m t ⊔ᵥ _).
  assert (Hb : forall Vt Vm, let m' := append t f v Vt Vm m in
    bounded m' (at_field f (length (w_atoms m f))) /\ bounded m' V).
  { intros Vt Vm m'. assert (HV : bounded m' (w_views m t)).
    { eapply bounded_extends; [apply append_extends | apply Hwf]. }
    assert (bounded m' (at_field f (length (w_atoms m f)))).
    { eapply bounded_at_field; [done|]. simpl. rewrite fn_lookup_insert, length_app. simpl. lia. }
    split; [done|]. by apply bounded_join. }
  pose proof (proj1 (wf_view _ Hwf t) f).
  apply wf_append; [done | apply Hb | destruct rel; apply Hb |].
  destruct rel; simpl; rewrite fn_lookup_insert; lia.
Qed.

Lemma newest_lookup m f : wf m -> exists i, w_atoms m f !! i = Some (newest m f) /\ S i = length (w_atoms m f).
Proof.
  intros Hwf. destruct (wf_view _ Hwf O) as [Hf _]. specialize (Hf f). unfold newest. rewrite last_lookup.
  destruct (lookup_lt_is_Some_2 (w_atoms m f) (pred (length (w_atoms m f)))) as [x Hx]; [lia|].
  rewrite Hx. eexists. split; [exact Hx | lia].
Qed.

Lemma wf_rmw acq rel t f v m : wf m -> wf (w_rmw acq rel t f v m).
Proof.
  intros Hwf. unfold w_rmw. destruct (newest_lookup m f Hwf) as (i & Hi & _).
  destruct (newest m f) as [x Vm] eqn:En. simpl. set (V := w_views m t ⊔ᵥ _ ⊔ᵥ _).
  assert (Hb : forall Vt V', let m' := append t f v Vt V' m in
    bounded m' (at_field f (length (w_atoms m f))) /\ bounded m' V /\ bounded m' Vm).
  { intros Vt V' m'. assert (HV : bounded m' (w_views m t) /\ bounded m' Vm).
    { split; (eapply bounded_extends; [apply append_extends|]); [apply Hwf | by eapply wf_msg]. }
    destruct HV as [HV ?]. assert (bounded m' (at_field f (length (w_atoms m f)))).
    { eapply bounded_at_field; [done|]. simpl. rewrite fn_lookup_insert, length_app. simpl. lia. }
    split_and!; [done | | done]. repeat apply bounded_join; auto. destruct acq; [done | by eapply bounded_bot]. }
  pose proof (proj1 (wf_view _ Hwf t) f). pose proof (proj1 (wf_msg _ Hwf _ _ _ _ Hi) f).
  apply wf_append; [done | apply Hb | apply bounded_join; [apply Hb | destruct rel; apply Hb] |].
  destruct rel, acq; simpl; rewrite fn_lookup_insert; lia.
Qed.

Lemma wf_read1 t b i m r x m' : wf m -> w_read1 t b i m = Some (r, x, m') -> wf m'.
Proof.
  intros Hwf. unfold w_read1. destruct (w_bytes m !! b) as [l|] eqn:El; [|done]. case_if; [|done].
  destruct (l !! i) as [y|] eqn:Ex; [|done]. intros [= <- <- <-]. pose proof (wf_view _ Hwf t) as HV.
  eapply wf_set; [done | by apply extends_same | done | | by left].
  repeat apply bounded_join; [done | | by eapply bounded_at_read].
  eapply bounded_at_byte; [done | done | by eapply lookup_lt_Some].
Qed.

Lemma wf_write1 t b x m r m' : wf m -> w_write1 t b x m = Some (r, m') -> wf m'.
Proof.
  intros Hwf. unfold w_write1. destruct (w_bytes m !! b) as [l|] eqn:El; [|done]. intros [= <- <-].
  pose proof (lookup_lt_Some _ _ _ El) as Hlt. set (m1 := WMem _ _ _ _ _).
  assert (He : extends m m1).
  { split; simpl; [done|]. intros b' l'. destruct (decide (b = b')) as [<-|].
    - rewrite list_lookup_insert_eq by done. intros [= <-]. exists l. rewrite length_app. split; [done | lia].
    - rewrite list_lookup_insert_ne by done. eauto. }
  assert (HV : bounded m1 (w_views m t)) by (eapply bounded_extends; [done | apply Hwf]).
  eapply wf_set; [done | done | done | | by left].
  apply bounded_join; [done|]. eapply bounded_at_byte; [done | by apply list_lookup_insert_eq|].
  rewrite length_app. simpl. lia.
Qed.

Lemma wf_tick d m : wf m -> wf (w_tick d m).
Proof. by intros [? ? ?]. Qed.

Lemma wf_of s : wf (wmem_of s).
Proof.
  assert (Hb : bounded (wmem_of s) bot).
  { split; simpl; [lia|]. intros b l Hl. apply list_lookup_fmap_Some in Hl as (x & -> & _). simpl. lia. }
  constructor; [done | |]; intros f i v V Hi; simpl in Hi;
    by apply list_lookup_singleton_Some in Hi as [-> [= _ <-]].
Qed.

(** ** Interleaved execution *)

Section System.
Context {Op R : Type}.
Context (body : Op -> prog (option R)) (ord : Op -> orders) (role : nat -> Op -> bool).

Record wconfig := WConfig {
  wc_mem : wmem;
  wc_thr : gmap nat (Op * prog (option R));
  wc_log : list (nat * (Op * R));
  wc_fault : bool;
  wc_race : bool;
}.

Inductive wact :=
| WStart (t : nat) (op : Op)
| WStep (t : nat) (ch : list nat) (spur : bool)
| WTick (d : Z).

Definition wnext (a : wact) (c : wconfig) : option wconfig :=
  let '(WConfig m thr log fault race) := c in
  match a with
  | WStart t op =>
      match thr !! t with
      | None => if role t op then Some (WConfig m (<[t := (op, body op)]> thr) log fault race) else None
      | Some _ => None
      end
  | WStep t ch spur =>
      match thr !! t with
      | None => None
      | Some (op, Ret None) => Some (WConfig m (<[t := (op, body op)]> thr) log fault race)
      | Some (op, Ret (Some r)) =>
          Some (WConfig m (delete t thr) (log ++ [(t, (op, r))]) fault race)
      | Some (op, p) =>
          match wstep1 (ord op) t ch spur m p with
          | WNext r m' p' => Some (WConfig m' (<[t := (op, p')]> thr) log fault (race || r))
          | WNone => None
          | WFault => Some (WConfig m (delete t thr) log true race)
          end
      end
  | WTick d => if 0 <=? d then Some (WConfig (w_tick d m) thr log fault race) else None
  end.

Fixpoint wrun (acts : list wact) (c : wconfig) : option wconfig :=
  match acts with
  | [] => Some c
  | a :: acts => match wnext a c with Some c' => wrun acts c' | None => None end
  end.

Definition winit (s : shared) : wconfig := WConfig (wmem_of s) ∅ [] false false.

(** Executions whose changes of the newest contents all satisfy [allowed]. *)
Context (allowed : shared -> shared -> Prop).

Inductive wcstep (c c' : wconfig) : Prop :=
| wcstep_intro a : wnext a c = Some c' -> allowed (flat (wc_mem c)) (flat (wc_mem c')) -> wcstep c c'.

Definition wreach (s : shared) : wconfig -> Prop := rtc wcstep (winit s).

(** A schedule whose changes all pass the test [chk] is such an execution. *)
Fixpoint wrun_checked (chk : shared -> shared -> bool) (acts : list wact) (c : wconfig) : bool :=
  match acts with
  | [] => true
  | a :: acts =>
      match wnext a c with
      | Some c' => chk (flat (wc_mem c)) (flat (wc_mem c')) && wrun_checked chk acts c'
      | None => false
      end
  end.

Definition wafter (acts : list wact) (c : wconfig) : wconfig := default c (wrun acts c).

Lemma wrun_checked_after chk acts c :
  (forall s1 s2, chk s1 s2 = true -> allowed s1 s2) -> wrun_checked chk acts c = true ->
  rtc wcstep c (wafter acts c).
Proof.
  intros Hchk. unfold wafter. revert c. induction acts as [|a acts IH]; intros c; simpl; [intros _; apply rtc_refl|].
  destruct (wnext a c) as [c1|] eqn:E; [|done]. intros [Hc Hr]%andb_prop.
  specialize (IH c1 Hr). eapply rtc_l; [by econstructor; eauto|].
  destruct (wrun acts c1) eqn:E1; [done|]. exfalso. clear -Hr E1. revert c1 Hr E1.
  induction acts as [|a acts IH]; intros c1; simpl; [done|]. destruct (wnext a c1); [|done].
  intros [_ Hr]%andb_prop. by apply IH.
Qed.

(** *** Rely-guarantee reasoning *)

Context {G : Type}.
Abbreviation state := (wmem * G)%type.
Context (Inv : state -> Prop) (rely : nat -> state -> state -> Prop).
Context (P : nat -> list (Op * R) -> state -> Prop).

Definition wchange (t : nat) (s : state) (m : wmem) (K : state -> Prop) : Prop :=
  allowed (flat s.1) (flat m) ->
  exists g', (forall t', t' <> t -> rely t' s (m, g')) /\ Inv (m, g') /\ K (m, g').

Section Wp.
Context (o : orders) (t : nat) {A : Type} (Q : A -> state -> Prop).

(** As [Prog.wp]: but every access changes the view of its thread, and a load or
    read returns any write that the memory offers. *)
Fixpoint wwp (p : prog A) (s : state) : Prop :=
  forall s', rely t s s' -> Inv s' ->
  match p with
  | Ret a => Q a s'
  | Load f k => forall i v m, w_load (acquires o f) t f i s'.1 = Some (v, m) -> wchange t s' m (wwp (k v))
  | Store f v k => wchange t s' (w_store (releases o f) t f v s'.1) (wwp k)
  | Cas weak f e d k =>
      (forall i v m, w_load (acquires o f) t f i s'.1 = Some (v, m) -> v <> e \/ weak = true ->
         wchange t s' m (wwp (k false))) /\
      ((newest s'.1 f).1 = e ->
         wchange t s' (w_rmw (rmw_acquires o f) (rmw_releases o f) t f d s'.1) (wwp (k true)))
  | FetchAdd f v k =>
      wchange t s' (w_rmw (rmw_acquires o f) (rmw_releases o f) t f (add64 (newest s'.1 f).1 v) s'.1)
        (wwp (k (newest s'.1 f).1))
  | Await f v k => forall i m, w_load (acquires o f) t f i s'.1 = Some (v, m) -> wchange t s' m (wwp k)
  | Read off n k =>
      in_ring s'.1 off n = true /\
      forall ch r bs m, Z.of_nat (length ch) = n -> w_read t (Z.to_nat off) ch s'.1 = Some (r, bs, m) ->
        r = false /\ wchange t s' m (wwp (k bs))
  | Write off bs k =>
      in_ring s'.1 off (Z.of_nat (length bs)) = true /\
      forall r m, w_write t (Z.to_nat off) bs s'.1 = Some (r, m) -> r = false /\ wchange t s' m (wwp k)
  | Now k => wwp (k (w_clock s'.1)) s'
  | WakeAll k => wwp k s'
  | Undefined => False
  end.
End Wp.

Context {rely_pre : forall t, PreOrder (rely t)}.

Lemma wwp_stable o t {A} (Q : A -> state -> Prop) p s s' :
  wwp o t Q p s -> rely t s s' -> wwp o t Q p s'.
Proof. intros H Hr. destruct p; intros s'' Hr'; exact (H s'' (transitivity Hr Hr')). Qed.

Lemma wchange_mono t s m (K K' : state -> Prop) :
  (forall s', K s' -> K' s') -> wchange t s m K -> wchange t s m K'.
Proof. intros HK H Ha. destruct (H Ha) as (g' & ? & ? & ?). eauto 6. Qed.

Lemma wwp_mono o t {A} (Q Q' : A -> state -> Prop) p s :
  (forall a s', Q a s' -> Q' a s') -> wwp o t Q p s -> wwp o t Q' p s.
Proof.
  intros HQ. revert s. induction p; intros s Hw s' Hr HI; simpl in Hw;
    specialize (Hw s' Hr HI); simpl in *; eauto using wchange_mono.
  - destruct Hw as [Hf Hs]. split; eauto using wchange_mono.
  - destruct Hw as [? Hw]. split; [done|]. intros. edestruct Hw; eauto using wchange_mono.
  - destruct Hw as [? Hw]. split; [done|]. intros. edestruct Hw; eauto using wchange_mono.
Qed.

Lemma wwp_pmap o t {A B} (f : A -> B) (Q : B -> state -> Prop) p s :
  wwp o t (fun a => Q (f a)) p s -> wwp o t Q (pmap f p) s.
Proof.
  revert s. induction p; intros s Hw s' Hr HI; simpl in Hw;
    specialize (Hw s' Hr HI); simpl in *; eauto using wchange_mono.
  - destruct Hw as [Hf Hs]. split; eauto using wchange_mono.
  - destruct Hw as [? Hw]. split; [done|]. intros. edestruct Hw; eauto using wchange_mono.
  - destruct Hw as [? Hw]. split; [done|]. intros. edestruct Hw; eauto using wchange_mono.
Qed.

(** [J i] holds once the first [i] bytes have been written. *)
Lemma wwp_memcpy_to o t {A} (Q : A -> state -> Prop) off bs k (J : nat -> state -> Prop) s :
  J O s ->
  (forall i s1 s2, J i s1 -> rely t s1 s2 -> Inv s2 -> J i s2) ->
  (forall i b s1, bs !! i = Some b -> J i s1 -> Inv s1 ->
     in_ring s1.1 (off + Z.of_nat i) 1 = true /\
     forall r m, w_write t (Z.to_nat (off + Z.of_nat i)) [b] s1.1 = Some (r, m) ->
       r = false /\ wchange t s1 m (J (S i))) ->
  (forall s1, J (length bs) s1 -> wwp o t Q k s1) ->
  wwp o t Q (memcpy_to off bs k) s.
Proof.
  intros H0 Hst. revert off s J H0 Hst.
  induction bs as [|b bs IH]; intros off s J H0 Hst Hw Hk; [by apply Hk|].
  intros s' Hr HI. destruct (Hw O b s') as [Hin Hc]; eauto.
  rewrite Z.add_0_r in Hin, Hc. split; [done|]. intros r m Hm. destruct (Hc r m Hm) as [-> Hch].
  split; [done|]. eapply wchange_mono; [|exact Hch]. intros s1 HJ.
  apply (IH (off + 1) _ (fun i => J (S i))); eauto.
  intros i b' s2 Hi HJ1 HI1. replace (off + 1 + Z.of_nat i) with (off + Z.of_nat (S i)) by lia.
  apply (Hw (S i)); auto.
Qed.

(** [J bs] holds once the bytes [bs] have been read. *)
Lemma wwp_memcpy_from o t {A} (Q : A -> state -> Prop) off n k (J : list byte -> state -> Prop) s :
  J [] s ->
  (forall bs s1 s2, J bs s1 -> rely t s1 s2 -> Inv s2 -> J bs s2) ->
  (forall bs s1, (length bs < n)%nat -> J bs s1 -> Inv s1 ->
     in_ring s1.1 (off + Z.of_nat (length bs)) 1 = true /\
     forall i r cs m, w_read t (Z.to_nat (off + Z.of_nat (length bs))) [i] s1.1 = Some (r, cs, m) ->
       r = false /\ length cs = 1%nat /\ wchange t s1 m (J (bs ++ cs))) ->
  (forall bs s1, length bs = n -> J bs s1 -> wwp o t Q (k bs) s1) ->
  wwp o t Q (memcpy_from off n k) s.
Proof.
  intros H0 Hst. revert off s k J H0 Hst.
  induction n as [|n IH]; intros off s k J H0 Hst Hrd Hk; [by apply Hk|].
  intros s' Hr HI. destruct (Hrd [] s') as [Hin Hc]; eauto; [simpl; lia|].
  simpl length in Hin, Hc. rewrite Z.add_0_r in Hin, Hc. split; [done|].
  intros ch r cs m Hl Hm. destruct ch as [|i [|]]; [simpl in Hl; lia | | simpl in Hl; lia].
  destruct (Hc i r cs m Hm) as (-> & Hlc & Hch). split; [done|].
  eapply wchange_mono; [|exact Hch]. intros s1 HJ. simpl in HJ.
  apply (IH _ _ _ (fun bs => J (cs ++ bs))); [by rewrite app_nil_r | eauto | |].
  - intros bs s2 Hlb HJ1 HI1.
    destruct (Hrd (cs ++ bs) s2) as [Hin' Hc']; [rewrite length_app; lia | done | done |].
    replace (off + 1 + Z.of_nat (length bs)) with (off + Z.of_nat (length (cs ++ bs)))
      by (rewrite length_app; lia).
    split; [done|]. intros i' r' cs' m' Hm'. rewrite app_assoc. eauto.
  - intros bs s2 Hlb HJ1. apply Hk; [rewrite length_app; lia | done].
Qed.

Definition wpost (t : nat) (op : Op) (l : list (Op * R)) (r : option R) (s : state) : Prop :=
  match r with
  | None => P t l s
  | Some r => P t (l ++ [(op, r)]) s
  end.

Hypothesis P_stable : forall t l s s', P t l s -> rely t s s' -> Inv s' -> P t l s'.
Hypothesis body_ok : forall t op l s,
  role t op = true -> P t l s -> Inv s -> wwp (ord op) t (wpost t op l) (body op) s.
Hypothesis tick_ok : forall d m g, 0 <= d -> allowed (flat m) (flat (w_tick d m)) -> Inv (m, g) ->
  Inv (w_tick d m, g) /\ forall t, rely t (m, g) (w_tick d m, g).

Definition wthread_ok (s : state) (log : list (nat * (Op * R))) (t : nat)
    (o : option (Op * prog (option R))) : Prop :=
  match o with
  | None => P t (tlog t log) s
  | Some (op, p) => role t op = true /\ wwp (ord op) t (wpost t op (tlog t log)) p s
  end.

Definition wconfig_ok (c : wconfig) (g : G) : Prop :=
  wc_fault c = false /\ wc_race c = false /\ Inv (wc_mem c, g) /\
  forall t, wthread_ok (wc_mem c, g) (wc_log c) t (wc_thr c !! t).

Lemma wthread_ok_stable s s' log t o :
  wthread_ok s log t o -> rely t s s' -> Inv s' -> wthread_ok s' log t o.
Proof. destruct o as [[op p]|]; simpl; [intros [? ?] | ]; eauto using wwp_stable. Qed.

Lemma wconfig_ok_update m thr log t g m1 g1 o :
  wconfig_ok (WConfig m thr log false false) g -> Inv (m1, g1) ->
  (forall t', t' <> t -> rely t' (m, g) (m1, g1)) -> wthread_ok (m1, g1) log t o ->
  wconfig_ok (WConfig m1 (partial_alter (fun _ => o) t thr) log false false) g1.
Proof.
  intros (_ & _ & _ & Ht) HI Hr Ho. split_and!; [done | done | done |]. intros t'. simpl.
  destruct (decide (t = t')) as [<-|].
  - by rewrite lookup_partial_alter_eq.
  - rewrite lookup_partial_alter_ne by done.
    eapply wthread_ok_stable; [apply Ht | apply Hr; congruence | done].
Qed.

Lemma wconfig_ok_return m thr log t op r g :
  wconfig_ok (WConfig m thr log false false) g -> P t (tlog t log ++ [(op, r)]) (m, g) ->
  wconfig_ok (WConfig m (delete t thr) (log ++ [(t, (op, r))]) false false) g.
Proof.
  intros (_ & _ & HI & Ht) HP. split_and!; [done | done | done |]. intros t'. simpl.
  specialize (Ht t'). simpl in Ht.
  destruct (decide (t = t')) as [<-|].
  - rewrite lookup_delete_eq. simpl. by rewrite tlog_app, tlog_one_eq.
  - rewrite lookup_delete_ne by done. unfold wthread_ok in *.
    by rewrite tlog_app, tlog_one_ne, app_nil_r by done.
Qed.

(** One access of a thread, by the shape of its program. *)
Lemma wwp_step1 o t {A} (Q : A -> state -> Prop) m g p ch spur :
  Inv (m, g) -> wwp o t Q p (m, g) ->
  match wstep1 o t ch spur m p with
  | WNext r m' p' => allowed (flat m) (flat m') -> r = false /\ exists g', Inv (m', g') /\
      (forall t', t' <> t -> rely t' (m, g) (m', g')) /\ wwp o t Q p' (m', g')
  | WNone => True
  | WFault => False
  end.
Proof.
  intros HI Hw. destruct p as [a|f k|f v k|weak f e d k|f v k|f v k|off n k|off bs k|k|k|];
    simpl in Hw; specialize (Hw (m, g) (reflexivity _) HI); simpl in *.
  - done.
  - destruct ch as [|i [|]]; [done | | done]. destruct (w_load _ t f i m) as [[v m']|] eqn:E; [|done].
    intros Ha. split; [done|]. destruct (Hw _ _ _ E Ha) as (g' & ? & ? & ?). eauto.
  - intros Ha. split; [done|]. destruct (Hw Ha) as (g' & ? & ? & ?). eauto.
  - destruct Hw as [Hf Hs]. destruct ch as [|i [|]]; [| |done].
    + case_if; [|done]. intros Ha. split; [done|]. destruct (Hs ltac:(done) Ha) as (g' & ? & ? & ?). eauto.
    + destruct (w_load _ t f i m) as [[v m']|] eqn:E; [|done]. case_if; [|done]. intros Ha. split; [done|].
      destruct (Hf _ _ _ E) as (g' & ? & ? & ?); [|done|eauto].
      apply orb_true_iff in Heqb as [?|?]; bool_to_prop; [by left | by right].
  - intros Ha. split; [done|]. destruct (Hw Ha) as (g' & ? & ? & ?). eauto.
  - destruct ch as [|i [|]]; [done | | done]. destruct (w_load _ t f i m) as [[x m']|] eqn:E; [|done].
    case_if; [|done]. subst x. intros Ha. split; [done|]. destruct (Hw _ _ E Ha) as (g' & ? & ? & ?). eauto.
  - destruct Hw as [-> Hw]. case_if; [|done]. destruct (w_read t _ ch m) as [[[r bs] m']|] eqn:E; [|done].
    intros Ha. destruct (Hw _ _ _ _ Heqb E) as [-> Hc]. split; [done|].
    destruct (Hc Ha) as (g' & ? & ? & ?). eauto.
  - destruct Hw as [-> Hw]. destruct (w_write t _ bs m) as [[r m']|] eqn:E; [|done].
    intros Ha. destruct (Hw _ _ eq_refl) as [-> Hc]. split; [done|]. destruct (Hc Ha) as (g' & ? & ? & ?). eauto.
  - intros _. split; [done|]. exists g. split_and!; auto. intros; reflexivity.
  - intros _. split; [done|]. exists g. split_and!; auto. intros; reflexivity.
  - done.
Qed.

Lemma wconfig_ok_step c c' g : wconfig_ok c g -> wcstep c c' -> exists g', wconfig_ok c' g'.
Proof.
  destruct c as [m thr log fault race]. intros Hc [a Ha Hal].
  pose proof Hc as (Hf & Hra & HI & Ht). simpl in Hf, Hra. subst fault race.
  destruct a as [t op | t ch spur | d]; simpl in Ha.
  - specialize (Ht t). simpl in Ht. destruct (thr !! t) eqn:E; [done|].
    destruct (role t op) eqn:Er; [|done]. injection Ha as <-. exists g.
    apply (wconfig_ok_update m thr log t g m g (Some (op, body op))); auto.
    { intros; reflexivity. } split; auto.
  - specialize (Ht t). simpl in Ht. destruct (thr !! t) as [[op p]|] eqn:E; [|done].
    destruct Ht as [Hrole Hw]. pose proof (wwp_step1 (ord op) t _ m g p ch spur HI Hw) as Hs.
    destruct p as [[r|]| | | | | | | | | |].
    1: { injection Ha as <-. exists g. apply wconfig_ok_return; [done|].
      apply (Hw (m, g)); [reflexivity | done]. }
    1: { injection Ha as <-. exists g.
      apply (wconfig_ok_update m thr log t g m g (Some (op, body op))); auto.
      { intros; reflexivity. } split; [done|]. apply body_ok; auto.
      apply (Hw (m, g)); [reflexivity | done]. }
    all: destruct (wstep1 (ord op) t ch spur m _) as [r m' p'| |];
      [ injection Ha as <-; simpl in Hal; destruct (Hs Hal) as (-> & g' & HI' & Hrel & ?);
        exists g'; apply (wconfig_ok_update m thr log t g _ _ (Some (op, p'))); simpl; auto
      | done | done ].
  - destruct (0 <=? d) eqn:E; [|done]. bool_to_prop. injection Ha as <-. exists g.
    destruct (tick_ok d m g E Hal HI) as [HI' Hr]. split_and!; [done | done | done |].
    intros t. eapply wthread_ok_stable; [apply Ht | apply Hr | done].
Qed.

(** Soundness: every reachable configuration is free of data races and of undefined
    behaviour, satisfies the invariant, and each thread between calls satisfies its
    assertion for the calls it has completed. *)
Theorem wrg_sound s0 g0 c :
  Inv (wmem_of s0, g0) -> (forall t, P t [] (wmem_of s0, g0)) -> wreach s0 c ->
  exists g, wconfig_ok c g.
Proof.
  intros HI HP Hr.
  assert (H0 : wconfig_ok (winit s0) g0).
  { split_and!; [done | done | done |]. intros t. simpl. rewrite lookup_empty. apply HP. }
  clear HI HP. revert g0 H0. unfold wreach in Hr.
  induction Hr as [c|c1 c2 c3 Hs _ IH]; intros g0 H0; [eauto|].
  destruct (wconfig_ok_step _ _ _ H0 Hs) as [g2 H2]. by apply (IH g2).
Qed.
End System.

(** Executions depend on the orders of the calls only. *)
Lemma wreach_ext {Op R} (body : Op -> prog (option R)) (ord ord' : Op -> orders) role allowed s c :
  (forall o, ord o = ord' o) -> wreach body ord role allowed s c -> wreach body ord' role allowed s c.
Proof.
  intros He. unfold wreach. intros Hr. induction Hr as [c|c1 c2 c3 [a Ha Hal] _ IH];
    [apply rtc_refl | eapply rtc_l; [|exact IH]]. exists a; [|done]. rewrite <- Ha.
  destruct c1 as [m thr log f r], a as [t o|t ch spur|d]; try done. simpl.
  destruct (thr !! t) as [[o p]|]; [|done]. by rewrite He.
Qed.
