(* ===== verification/WeakChannel.v ===== *)
(** * Producers and one consumer under release/acquire

    What [SPSCQueue] and the three rings have in common: producers fill bytes of a
    circular region and publish them by a release store of tail_publish, thread 0
    reads published bytes and frees them by a release store of head_publish, and
    each side learns of the other's counter by an acquire load.  The counters count
    units of [u] bytes (a slot, or one byte).  The bytes that a producer may fill are
    its claim; a claim begins where the claims so far end, and is published from its
    lower end, in the order of the claims.

    [VInv] says what the views of the threads, and those attached to the writes, know
    about the bytes; the lemmas after it are the rules for one access.  They show that
    an access to a byte is no race if the byte lies in the thread's claim, or for the
    consumer between its own counter and what it has seen of the tail. *)

From Stdlib Require Import ZArith Lia Strings.Byte.
From stdpp Require Import base list numbers gmap functions.
From S2P Require Import Prelude Memory Layout Prog WeakMemory.

(** The positions that the two counters have had, oldest first; the end of the
    claims; the claim of each thread. *)
Record chan := Chan { hs : list Z; ts : list Z; rv : Z; cl : nat -> Z * Z }.

Definition pos (l : list Z) (i : nat) : Z := l !!! i.
Definition top (l : list Z) : Z := pos l (pred (length l)).

Lemma pos_app l x i : (i < length l)%nat -> pos (l ++ [x]) i = pos l i.
Proof. intros. unfold pos. by rewrite lookup_total_app_l. Qed.

Lemma pos_app_last l x : pos (l ++ [x]) (length l) = x.
Proof. unfold pos. by rewrite lookup_total_app_r, Nat.sub_diag. Qed.

Lemma top_app l x : top (l ++ [x]) = x.
Proof. unfold top. rewrite length_app. simpl. by rewrite Nat.add_1_r, pos_app_last. Qed.

(** Positions only grow. *)
Definition mono (l : list Z) : Prop := forall i j, (i <= j < length l)%nat -> pos l i <= pos l j.

Lemma mono_top l i : mono l -> (i < length l)%nat -> pos l i <= top l.
Proof. intros Hm Hi. apply Hm. lia. Qed.

Lemma mono_app l x : mono l -> top l <= x -> mono (l ++ [x]).
Proof.
  intros Hm Hx i j Hij. rewrite length_app in Hij. simpl in Hij.
  destruct (decide (j < length l)%nat).
  - rewrite !pos_app by lia. apply Hm. lia.
  - replace j with (length l) by lia. rewrite pos_app_last. destruct (decide (i < length l)%nat).
    + rewrite pos_app by done. pose proof (mono_top l i Hm ltac:(done)). lia.
    + replace i with (length l) by lia. by rewrite pos_app_last.
Qed.

Section Channel.
(** [u] bytes per unit, [capU] units. *)
Context (u capU : Z) (Hu : 0 < u) (HcapU : 0 < capU).
Abbreviation N := (capU * u).

Definition phys (x : Z) : nat := Z.to_nat (x mod N).

Lemma phys_range x : (Z.of_nat (phys x) < N).
Proof. unfold phys. pose proof (Z.mod_pos_bound x N ltac:(lia)). lia. Qed.

Lemma phys_ne x y : x < y < x + N -> phys x <> phys y.
Proof.
  intros Hxy He. unfold phys in He.
  pose proof (Z.mod_pos_bound x N ltac:(lia)). pose proof (Z.mod_pos_bound y N ltac:(lia)).
  assert (Hd : (y - x) mod N = 0).
  { rewrite Zminus_mod. replace (y mod N) with (x mod N) by lia. rewrite Z.sub_diag. apply Zmod_0_l. }
  rewrite Z.mod_small in Hd; lia.
Qed.

Lemma phys_sub x : phys (x - N) = phys x.
Proof.
  unfold phys. f_equal. replace (x - N) with (x + (-1) * N) by lia. apply Z.mod_add. lia.
Qed.

(** The reads of the byte at position [x] happened before what [W] has seen; its last
    write did. *)
Definition sees_reads (W : view) (m : wmem) (x : Z) : Prop :=
  forall e, e ∈ w_reads m (phys x) -> (e.2 <= vc W O)%nat.
Definition sees_write (W : view) (m : wmem) (x : Z) : Prop :=
  forall l, w_bytes m !! phys x = Some l -> (length l <= S (vb W (phys x)))%nat.

(** Whoever has seen a head knows that the bytes before it have been read, and what was
    written there as far as it is not claimed again; whoever has seen a tail knows
    the bytes before it. *)
Record good (m : wmem) (g : chan) (W : view) : Prop := {
  g_reads : forall x, top (ts g) * u - N <= x < pos (hs g) (vf W FHeadPublish) * u -> sees_reads W m x;
  g_freed : forall x, rv g * u - N <= x < pos (hs g) (vf W FHeadPublish) * u -> sees_write W m x;
  g_filled : forall x, top (hs g) * u <= x < pos (ts g) (vf W FTailPublish) * u -> sees_write W m x;
}.

Abbreviation Vc m := (w_views m 0%nat).
Abbreviation lo g t := (fst (cl g t)).
Abbreviation hi g t := (snd (cl g t)).

(** Thread [t] has seen every write of [f]. *)
Definition latest (m : wmem) (t : nat) (f : field) : Prop :=
  (length (w_atoms m f) <= S (vf (w_views m t) f))%nat.

Record VInv (m : wmem) (g : chan) : Prop := {
  v_wf : wf m;
  v_len : N <= Z.of_nat (length (w_bytes m));
  v_heads : (w_atoms m FHeadPublish).*1 = u64 <$> hs g;
  v_tails : (w_atoms m FTailPublish).*1 = u64 <$> ts g;
  v_mono : mono (hs g) /\ mono (ts g);
  v_start : 0 <= pos (hs g) 0 /\ 0 <= pos (ts g) 0;
  v_room : top (ts g) <= rv g <= top (hs g) + capU;
  v_avail : top (hs g) <= pos (ts g) (vf (Vc m) FTailPublish);
  v_own : latest m 0 FHeadPublish /\ latest m 0 FHeadReserve;
  v_reads : forall b e, e ∈ w_reads m b -> e.1 = O /\ (e.2 <= vc (Vc m) O)%nat;
  v_claim : forall t, lo g t < hi g t -> t <> O /\ top (ts g) <= lo g t /\ hi g t <= rv g;
  v_apart : forall t t' x, t <> t' -> lo g t <= x < hi g t -> ~ lo g t' <= x < hi g t';
  v_known : forall t x, lo g t * u <= x < hi g t * u ->
    sees_reads (w_views m t) m x /\ sees_write (w_views m t) m x;
  v_bot : good m g bot;
  v_msg : forall f i v W, w_atoms m f !! i = Some (v, W) -> good m g W;
  v_thread : forall t, good m g (w_views m t);
}.

(** ** Consequences *)

Lemma v_lengths m g : VInv m g ->
  length (w_atoms m FHeadPublish) = length (hs g) /\ length (w_atoms m FTailPublish) = length (ts g).
Proof.
  intros HV. split; [pose proof (v_heads _ _ HV) as H | pose proof (v_tails _ _ HV) as H];
    apply (f_equal length) in H; by rewrite !length_fmap in H.
Qed.

Lemma v_bound m g W : VInv m g -> bounded m W ->
  (vf W FHeadPublish < length (hs g))%nat /\ (vf W FTailPublish < length (ts g))%nat.
Proof. intros HV [Hb _]. destruct (v_lengths m g HV) as [<- <-]. by split. Qed.

Lemma v_thread_bound m g t : VInv m g ->
  (vf (w_views m t) FHeadPublish < length (hs g))%nat /\ (vf (w_views m t) FTailPublish < length (ts g))%nat.
Proof. intros HV. apply (v_bound m g); [done | apply HV]. Qed.

Lemma v_order m g : VInv m g -> top (hs g) <= top (ts g) <= rv g /\ rv g <= top (hs g) + capU.
Proof.
  intros HV. pose proof (v_avail _ _ HV). pose proof (v_room _ _ HV). destruct (v_mono _ _ HV) as [_ Hmt].
  destruct (v_thread_bound m g 0 HV) as [_ Hc]. pose proof (mono_top _ _ Hmt Hc). lia.
Qed.

(** A thread that has seen every write of a counter loads its newest position. *)
Lemma v_latest_tail m g t i : VInv m g -> latest m t FTailPublish ->
  (vf (w_views m t) FTailPublish <= i < length (w_atoms m FTailPublish))%nat -> pos (ts g) i = top (ts g).
Proof.
  intros HV HL Hi. destruct (v_lengths m g HV) as [_ Hl]. unfold latest in HL. unfold top. f_equal. lia.
Qed.

Lemma v_latest_head m g t i : VInv m g -> latest m t FHeadPublish ->
  (vf (w_views m t) FHeadPublish <= i < length (w_atoms m FHeadPublish))%nat -> pos (hs g) i = top (hs g).
Proof.
  intros HV HL Hi. destruct (v_lengths m g HV) as [Hl _]. unfold latest in HL. unfold top. f_equal. lia.
Qed.

(** A tail that the consumer has seen is not before the head. *)
Lemma v_seen_tail m g i : VInv m g ->
  (vf (Vc m) FTailPublish <= i < length (w_atoms m FTailPublish))%nat ->
  top (hs g) <= pos (ts g) i <= top (ts g).
Proof.
  intros HV Hi. destruct (v_lengths m g HV) as [_ Hl]. destruct (v_mono _ _ HV) as [_ Hm].
  pose proof (v_avail _ _ HV).
  pose proof (Hm (vf (Vc m) FTailPublish) i ltac:(lia)). pose proof (mono_top _ i Hm ltac:(lia)). lia.
Qed.

(** A write of a counter has the value of its position. *)
Lemma v_value m g f i v W : VInv m g -> w_atoms m f !! i = Some (v, W) ->
  (f = FHeadPublish -> v = u64 (pos (hs g) i)) /\ (f = FTailPublish -> v = u64 (pos (ts g) i)).
Proof.
  intros HV Hi. apply (f_equal (fmap fst)) in Hi. rewrite <- list_lookup_fmap in Hi. simpl in Hi.
  split; intros ->; [rewrite (v_heads _ _ HV) in Hi | rewrite (v_tails _ _ HV) in Hi];
    apply list_lookup_fmap_Some in Hi as (x & -> & Hx); unfold pos; by erewrite list_lookup_total_correct.
Qed.

(** Bytes of two claims, of a claim and the published stretch, and of a claim and the
    freed one, are different bytes of the region. *)
Lemma unit_of lo hi x : lo * u <= x < hi * u -> lo <= x / u < hi.
Proof. intros Hx. split; [apply Z.div_le_lower_bound | apply Z.div_lt_upper_bound]; lia. Qed.

Lemma v_claim_bytes m g t x : VInv m g -> lo g t * u <= x < hi g t * u ->
  t <> O /\ top (ts g) * u <= x < rv g * u /\ x < top (hs g) * u + N.
Proof.
  intros HV Hx. destruct (v_claim _ _ HV t) as (Ht & Hl & Hh); [nia|].
  pose proof (v_order _ _ HV). split_and!; [done | nia | nia | nia].
Qed.

Lemma v_claims_ne m g t t' x y : VInv m g -> t <> t' ->
  lo g t * u <= x < hi g t * u -> lo g t' * u <= y < hi g t' * u -> phys x <> phys y.
Proof.
  intros HV Ht Hx Hy. destruct (v_claim_bytes m g t x HV Hx) as (_ & Hx1 & Hx2).
  destruct (v_claim_bytes m g t' y HV Hy) as (_ & Hy1 & Hy2). pose proof (v_order _ _ HV).
  destruct (decide (x = y)) as [<-|Hne].
  - exfalso. exact (v_apart _ _ HV t t' (x / u) Ht (unit_of _ _ _ Hx) (unit_of _ _ _ Hy)).
  - destruct (decide (x < y)); [apply phys_ne | apply not_eq_sym, phys_ne]; nia.
Qed.

(** ** Knowledge *)

Lemma sees_reads_le W W' m x : view_le W W' -> sees_reads W m x -> sees_reads W' m x.
Proof. intros (_ & _ & Hc) Hs e He. specialize (Hs e He). specialize (Hc O). lia. Qed.

Lemma sees_write_le W W' m x : view_le W W' -> sees_write W m x -> sees_write W' m x.
Proof. intros (_ & Hb & _) Hs l Hl. specialize (Hs l Hl). specialize (Hb (phys x)). lia. Qed.

(** A view that has seen no more of the counters than two good ones together is good. *)
Lemma good_merge m g W1 W2 W :
  VInv m g -> good m g W1 -> good m g W2 -> view_le W1 W -> view_le W2 W -> bounded m W1 -> bounded m W2 ->
  (forall f, f = FHeadPublish \/ f = FTailPublish -> (vf W f <= vf W1 f `max` vf W2 f)%nat) -> good m g W.
Proof.
  intros HV [Hr1 Hf1 Hw1] [Hr2 Hf2 Hw2] Hl1 Hl2 Hb1 Hb2 Hmax. destruct (v_mono _ _ HV) as [Hmh Hmt].
  destruct (v_bound m g W1 HV Hb1), (v_bound m g W2 HV Hb2).
  pose proof (Hmax FHeadPublish ltac:(by left)). pose proof (Hmax FTailPublish ltac:(by right)).
  pose proof (Hmh (vf W FHeadPublish) (vf W1 FHeadPublish `max` vf W2 FHeadPublish)%nat ltac:(lia)).
  pose proof (Hmt (vf W FTailPublish) (vf W1 FTailPublish `max` vf W2 FTailPublish)%nat ltac:(lia)).
  split; intros x Hx.
  1, 2: destruct (Nat.max_spec (vf W1 FHeadPublish) (vf W2 FHeadPublish)) as [[_ E]|[_ E]]; rewrite E in *;
    first [eapply sees_reads_le | eapply sees_write_le];
    [exact Hl2 | first [apply Hr2 | apply Hf2]; nia | exact Hl1 | first [apply Hr1 | apply Hf1]; nia].
  destruct (Nat.max_spec (vf W1 FTailPublish) (vf W2 FTailPublish)) as [[_ E]|[_ E]]; rewrite E in *;
    eapply sees_write_le; [exact Hl2 | apply Hw2; nia | exact Hl1 | apply Hw1; nia].
Qed.

(** ** Rules for one access *)

Lemma sees_same m m' W x : w_bytes m' = w_bytes m -> w_reads m' = w_reads m ->
  (sees_reads W m x -> sees_reads W m' x) /\ (sees_write W m x -> sees_write W m' x).
Proof. intros Hb Hr. unfold sees_reads, sees_write. by rewrite Hb, Hr. Qed.

Lemma good_same m m' g W : w_bytes m' = w_bytes m -> w_reads m' = w_reads m -> good m g W -> good m' g W.
Proof. intros Hb Hr [? ? ?]. split; intros; apply (sees_same m); auto. Qed.

(** A thread has seen more; the bytes and the two counters are as they were. *)
Lemma v_view m m' g t V' :
  VInv m g -> wf m' -> w_bytes m' = w_bytes m -> w_reads m' = w_reads m ->
  w_atoms m' FHeadPublish = w_atoms m FHeadPublish -> w_atoms m' FTailPublish = w_atoms m FTailPublish ->
  latest m' 0 FHeadReserve ->
  w_views m' = <[t := V']> (w_views m) -> view_le (w_views m t) V' -> good m g V' ->
  (forall f i v W, w_atoms m' f !! i = Some (v, W) -> good m g W) -> VInv m' g.
Proof.
  intros HV Hwf Hb Hr Hh Htl Hrs HVs Hle Hg Hm. destruct (v_mono _ _ HV) as [Hmh Hmt].
  assert (Hw : forall W, good m g W -> good m' g W) by (intros; by eapply good_same).
  assert (Hall : forall t', view_le (w_views m t') (w_views m' t') /\ good m g (w_views m' t')).
  { intros t'. rewrite HVs. destruct (decide (t = t')) as [<-|].
    - by rewrite fn_lookup_insert.
    - rewrite fn_lookup_insert_ne by done. split; [done | apply HV]. }
  destruct (v_lengths _ _ HV) as [Hlh Hlt]. destruct (Hall O) as [(Hlf & _ & Hlc) _].
  pose proof (proj1 (wf_view _ Hwf O)) as Hbf. pose proof (Hbf FTailPublish) as HbT. rewrite Htl, Hlt in HbT.
  pose proof (Hlf FHeadPublish). pose proof (Hlf FTailPublish). pose proof (Hlc O).
  pose proof HV as [_ ? ? ? ? ? ? ? [Hoh _] Hre ? ? Hk ? _ ?].
  constructor; rewrite ?Hb, ?Hr, ?Hh, ?Htl in *; eauto.
  - pose proof (Hmt (vf (Vc m) FTailPublish) (vf (Vc m') FTailPublish)). lia.
  - split; [|done]. unfold latest in *. rewrite Hh. lia.
  - intros b e He. destruct (Hre b e He). split; [done | lia].
  - intros t' x Hx. destruct (Hk t' x Hx) as [Hkr Hkw]. apply (sees_same m m') in Hkr, Hkw; [|done..].
    destruct (Hall t') as [Hl _]. split; [by eapply sees_reads_le | by eapply sees_write_le].
  - intros t'. apply Hw, Hall.
Qed.

Lemma latest_mono m m' t f :
  w_atoms m' f = w_atoms m f -> view_le (w_views m t) (w_views m' t) -> latest m t f -> latest m' t f.
Proof. intros Ha (Hl & _ & _) H. unfold latest in *. rewrite Ha. specialize (Hl f). lia. Qed.

(** Which loads are safe: those that acquire, those of an atomic that carries no
    knowledge, and those of a counter of which the thread has seen everything. *)
Definition loads_ok (m : wmem) (acq : bool) (t : nat) (f : field) : Prop :=
  acq = true \/ f <> FHeadPublish /\ f <> FTailPublish \/ latest m t f.

Lemma v_load acq t f i m g v m' :
  VInv m g -> loads_ok m acq t f -> w_load acq t f i m = Some (v, m') ->
  VInv m' g /\ (forall t', t' <> t -> w_views m' t' = w_views m t') /\ w_bytes m' = w_bytes m /\
  (vf (w_views m t) f <= i <= vf (w_views m' t) f)%nat /\ (i < length (w_atoms m f))%nat /\
  (f = FHeadPublish -> v = u64 (pos (hs g) i)) /\ (f = FTailPublish -> v = u64 (pos (ts g) i)).
Proof.
  intros HV Hacq Hl. pose proof (wf_load _ _ _ _ _ _ _ (v_wf _ _ HV) Hl) as Hwf.
  pose proof (view_load _ _ _ _ _ _ _ Hl) as Hvl.
  unfold w_load in Hl. destruct (vf (w_views m t) f <=? i)%nat eqn:Ele; [|done]. apply Nat.leb_le in Ele.
  destruct (w_atoms m f !! i) as [[x W]|] eqn:E; [|done]. injection Hl as <- <-.
  pose proof (lookup_lt_Some _ _ _ E) as Hi. pose proof (wf_view _ (v_wf _ _ HV) t) as HbV.
  set (X := if acq then W else bot) in *. set (V' := w_views m t ⊔ᵥ at_field f i ⊔ᵥ X) in *.
  assert (HX : good m g X /\ bounded m X).
  { unfold X. destruct acq; [split; [by eapply v_msg | by eapply wf_msg, E; apply HV]|].
    split; [apply HV | by eapply bounded_bot]. }
  assert (Hg : good m g V').
  { apply (good_merge m g (w_views m t) X V' HV); try apply HX; try done.
    - apply HV.
    - etrans; apply join_l.
    - apply join_r.
    - intros c Hc. simpl. destruct (decide (f = c)) as [<-|]; [|rewrite fn_lookup_insert_ne by done; simpl; lia].
      rewrite fn_lookup_insert. pose proof (wf_stamp _ (v_wf _ _ HV) _ _ _ _ E).
      destruct Hacq as [-> | [[? ?] | Hown]]; [unfold X; lia | destruct Hc; congruence |]. unfold latest in Hown. lia. }
  assert (Hv0 : view_le (Vc m) (w_views (set_view t V' m) O)).
  { destruct (decide (t = O)) as [->|]; [done|]. simpl. by rewrite fn_lookup_insert_ne. }
  split_and!.
  - eapply v_view with (t := t) (V' := V'); eauto; [| etrans; apply join_l |].
    + eapply (latest_mono m); [done | done | apply HV].
    + intros. by eapply v_msg.
  - intros t' ?. simpl. by rewrite fn_lookup_insert_ne.
  - done.
  - done.
  - simpl. rewrite fn_lookup_insert. simpl. rewrite fn_lookup_insert. lia.
  - done.
  - intros ->. by eapply v_value.
  - intros ->. by eapply v_value.
Qed.

(** Writes of the other atomics of the control block carry no knowledge that is not
    there already; head_reserve is written by the consumer only. *)
Lemma good_other m g W X f i : VInv m g -> good m g W -> bounded m W -> good m g X -> bounded m X ->
  f <> FHeadPublish -> f <> FTailPublish -> good m g (W ⊔ᵥ at_field f i ⊔ᵥ X).
Proof.
  intros HV Hg Hb HgX HbX Hh Ht. apply (good_merge m g W X); try done.
  - etrans; apply join_l.
  - apply join_r.
  - intros c [-> | ->]; simpl; rewrite fn_lookup_insert_ne by done; simpl; lia.
Qed.

Definition other (t : nat) (f : field) : Prop :=
  f <> FHeadPublish /\ f <> FTailPublish /\ (f = FHeadReserve -> t = O).

Lemma v_append m g t f v Vt Vm :
  VInv m g -> other t f -> wf (append t f v Vt Vm m) ->
  view_le (w_views m t) Vt -> (length (w_atoms m f) <= vf Vt f)%nat -> good m g Vt -> good m g Vm ->
  VInv (append t f v Vt Vm m) g.
Proof.
  intros HV (Hh & Htl & Hres) Hwf Hle Hown HgV HgM. eapply v_view with (t := t) (V' := Vt); eauto.
  - simpl. by rewrite fn_lookup_insert_ne.
  - simpl. by rewrite fn_lookup_insert_ne.
  - destruct (v_own _ _ HV) as [_ HL]. unfold latest in *. simpl. destruct (decide (f = FHeadReserve)) as [->|].
    + rewrite (Hres eq_refl) in *. rewrite !fn_lookup_insert, length_app. simpl. lia.
    + rewrite (fn_lookup_insert_ne _ f) by done. destruct (decide (t = O)) as [->|]; [|by rewrite fn_lookup_insert_ne].
      rewrite fn_lookup_insert. pose proof (proj1 Hle FHeadReserve). lia.
  - intros c i x W [?|(-> & _)]%append_lookup; [by eapply v_msg | done].
Qed.

Lemma good_at_field m g f i :
  VInv m g -> f <> FHeadPublish -> f <> FTailPublish -> good m g (at_field f i).
Proof.
  intros HV Hh Ht. pose proof (wf_view _ (v_wf _ _ HV) O) as Hb%bounded_bot.
  apply (good_merge m g bot bot); try done; try apply HV; try (split_and!; simpl; lia).
  intros c [-> | ->]; simpl; rewrite fn_lookup_insert_ne by done; simpl; lia.
Qed.

Lemma v_store_other rel t f v m g : VInv m g -> other t f -> VInv (w_store rel t f v m) g.
Proof.
  intros HV Ho. pose proof Ho as (Hh & Htl & _). pose proof (wf_view _ (v_wf _ _ HV) t) as Hb.
  assert (Hg : good m g (w_views m t ⊔ᵥ at_field f (length (w_atoms m f)))).
  { apply (good_merge m g (w_views m t) bot); eauto using v_thread, v_bot, bounded_bot, join_l.
    - split_and!; simpl; lia.
    - intros c [-> | ->]; simpl; rewrite fn_lookup_insert_ne by done; simpl; lia. }
  apply v_append; auto; [apply (wf_store rel), HV | apply join_l | simpl; rewrite fn_lookup_insert; lia |].
  destruct rel; [done | by apply good_at_field].
Qed.

Lemma v_rmw_other acq rel t f v m g : VInv m g -> other t f -> VInv (w_rmw acq rel t f v m) g.
Proof.
  intros HV Ho. pose proof Ho as (Hh & Htl & _). pose proof (v_wf _ _ HV) as Hwf. pose proof (wf_view _ Hwf t) as Hb.
  pose proof (wf_rmw acq rel t f v m Hwf) as Hwf'. unfold w_rmw in *.
  destruct (newest_lookup m f Hwf) as (i & Hi & _). destruct (newest m f) as [x Vm]. simpl in *.
  pose proof (v_msg _ _ HV _ _ _ _ Hi) as HgM. pose proof (wf_msg _ Hwf _ _ _ _ Hi) as HbM.
  assert (Hg : forall W, good m g W -> bounded m W -> good m g (w_views m t ⊔ᵥ at_field f (length (w_atoms m f)) ⊔ᵥ W)).
  { intros. apply good_other; auto using v_thread. }
  assert (HgV : good m g (w_views m t ⊔ᵥ at_field f (length (w_atoms m f)) ⊔ᵥ (if acq then Vm else bot))).
  { destruct acq; [by apply Hg|]. apply Hg; eauto using v_bot, bounded_bot. }
  apply v_append; auto; [etrans; apply join_l | simpl; rewrite fn_lookup_insert; lia |]. destruct rel.
  - apply (good_merge m g Vm (w_views m t)); eauto using v_thread, join_l.
    + etrans; [|apply join_r]. etrans; apply join_l.
    + intros c [-> | ->]; destruct acq; simpl; rewrite fn_lookup_insert_ne by done; simpl; lia.
  - apply (good_merge m g Vm bot); eauto using v_bot, bounded_bot, join_l; [split_and!; simpl; lia|].
    intros c [-> | ->]; simpl; rewrite fn_lookup_insert_ne by done; simpl; lia.
Qed.

(** *** Claims *)

(** Thread [t] claims the units from the end of the claims, or from the lower end of a
    claim that ends there, up to [R]. *)
Definition claim (t : nat) (a R : Z) (g : chan) : chan := Chan (hs g) (ts g) R (<[t := (a, R)]> (cl g)).

Lemma good_claim m g t a R W : rv g <= R -> good m g W -> good m (claim t a R g) W.
Proof. intros HR [? Hf ?]. split; auto. simpl. intros x Hx. apply Hf. nia. Qed.

Lemma v_claim_units m g t a R :
  VInv m g -> t <> O -> rv g <= R <= pos (hs g) (vf (w_views m t) FHeadPublish) + capU ->
  a = rv g \/ a = lo g t /\ hi g t = rv g /\ top (ts g) <= a ->
  VInv m (claim t a R g).
Proof.
  intros HV Ht HR Ha. destruct (v_thread_bound m g t HV) as [Hb _]. destruct (v_mono _ _ HV) as [Hmh _].
  pose proof (mono_top _ _ Hmh Hb). pose proof (v_order _ _ HV).
  assert (Hg : forall W, good m g W -> good m (claim t a R g) W) by (intros; apply good_claim; [lia | done]).
  assert (Hold : forall x, a <= x < R -> lo g t <= x < hi g t \/ rv g <= x) by (intros; lia).
  assert (Hclaim : forall t', lo (claim t a R g) t' < hi (claim t a R g) t' ->
    t' <> O /\ top (ts g) <= lo (claim t a R g) t' /\ hi (claim t a R g) t' <= R).
  { intros t'. simpl. destruct (decide (t = t')) as [<-|].
    - rewrite fn_lookup_insert. simpl. intros _. split_and!; [done | | done]. lia.
    - rewrite fn_lookup_insert_ne by done. intros Hl. destruct (v_claim _ _ HV t' Hl) as (? & ? & ?). split_and!; auto; lia. }
  assert (Hnew : forall t' x, t <> t' -> a <= x < R -> ~ lo g t' <= x < hi g t').
  { intros t' x Hne Hx Hx'. destruct (Hold x Hx) as [Hx2 | ?]; [exact (v_apart _ _ HV t t' x Hne Hx2 Hx')|].
    destruct (v_claim _ _ HV t') as (_ & _ & ?); lia. }
  destruct HV as [? ? ? ? ? ? ? ? ? ? ? Hap Hk ? ? Hth]. constructor; auto.
  - simpl. lia.
  - intros t1 t2 x Hne. simpl. destruct (decide (t = t1)) as [<-|], (decide (t = t2)) as [<-|]; try done;
      rewrite ?fn_lookup_insert, ?fn_lookup_insert_ne by done; simpl; [by apply Hnew | | by apply Hap].
    intros Hx1 Hx2. by apply (Hnew t1 x).
  - intros t' x. simpl. destruct (decide (t = t')) as [<-|]; [|rewrite fn_lookup_insert_ne by done; apply Hk].
    rewrite fn_lookup_insert. simpl. intros Hx.
    destruct (decide (x < rv g * u)); [apply Hk; nia|].
    destruct (Hth t) as [Hr Hf _]. unfold sees_reads, sees_write. rewrite <- phys_sub.
    split; [apply Hr | apply Hf]; nia.
  - intros f i v W Hi. apply Hg. eauto.
Qed.

(** *** The counters *)

Definition publish (t : nat) (T' : Z) (g : chan) : chan :=
  Chan (hs g) (ts g ++ [T']) (rv g) (<[t := (T', hi g t)]> (cl g)).

Lemma good_publish m m' g t W T' :
  VInv m g -> w_bytes m' = w_bytes m -> w_reads m' = w_reads m -> bounded m W -> top (ts g) <= T' ->
  good m g W -> good m' (publish t T' g) W.
Proof.
  intros HV Hb Hr HbW HT Hg. apply (good_same m m') in Hg as [Hgr Hgf Hgw]; [|done..].
  destruct (v_bound m g W HV HbW). split; simpl; intros x Hx.
  - rewrite top_app in Hx. apply Hgr. nia.
  - by apply Hgf.
  - rewrite pos_app in Hx by done. by apply Hgw.
Qed.

Lemma publish_claims m g t T' :
  VInv m g -> lo g t = top (ts g) -> top (ts g) <= T' <= hi g t ->
  (forall t', lo (publish t T' g) t' < hi (publish t T' g) t' ->
     t' <> O /\ T' <= lo (publish t T' g) t' /\ hi (publish t T' g) t' <= rv g) /\
  (forall t1 t2 x, t1 <> t2 -> lo (publish t T' g) t1 <= x < hi (publish t T' g) t1 ->
     ~ lo (publish t T' g) t2 <= x < hi (publish t T' g) t2).
Proof.
  intros HV Hlo HT. split.
  - intros t'. simpl. destruct (decide (t = t')) as [<-|Hne].
    + rewrite fn_lookup_insert. simpl. intros Hl. destruct (v_claim _ _ HV t) as (? & ? & ?); [lia|]. by split_and!.
    + rewrite fn_lookup_insert_ne by done. intros Hl. destruct (v_claim _ _ HV t' Hl) as (? & ? & ?).
      split_and!; auto. destruct (decide (T' <= lo g t')); [done|]. exfalso.
      apply (v_apart _ _ HV t t' (lo g t') Hne); lia.
  - assert (Hsub : forall t' x, lo (publish t T' g) t' <= x < hi (publish t T' g) t' -> lo g t' <= x < hi g t').
    { intros t' x. simpl. destruct (decide (t = t')) as [<-|]; [|by rewrite fn_lookup_insert_ne].
      rewrite fn_lookup_insert. simpl. lia. }
    intros t1 t2 x Hne Hx1%Hsub Hx2%Hsub. exact (v_apart _ _ HV t1 t2 x Hne Hx1 Hx2).
Qed.

(** A producer that has seen the newest tail, where its claim begins, publishes part
    of the claim. *)
Lemma v_publish m g t T' :
  VInv m g -> t <> O -> lo g t = top (ts g) -> pos (ts g) (vf (w_views m t) FTailPublish) = top (ts g) ->
  top (ts g) <= T' <= hi g t ->
  VInv (w_store true t FTailPublish (u64 T') m) (publish t T' g).
Proof.
  intros HV Ht0 Hlo Hseen HT. pose proof (v_wf _ _ HV) as Hwf. pose proof (v_order _ _ HV).
  assert (HTr : T' <= rv g) by (destruct (decide (lo g t < hi g t)) as [Hl|]; [destruct (v_claim _ _ HV t Hl) as (_ & _ & ?)|]; lia).
  pose proof (wf_store true t FTailPublish (u64 T') m Hwf) as Hwf'.
  destruct (v_lengths _ _ HV) as [Hlh Hlt]. destruct (v_mono _ _ HV) as [Hmh Hmt].
  unfold w_store in *. rewrite Hlt in *. set (V := w_views m t) in *.
  set (V' := V ⊔ᵥ at_field FTailPublish (length (ts g))) in *.
  set (g' := publish t T' g). set (m' := append _ _ _ _ _ _) in *.
  assert (Hg : forall W, bounded m W -> good m g W -> good m' g' W) by (intros; eapply good_publish; eauto; lia).
  destruct (v_thread_bound m g 0 HV) as [_ Hbc]. destruct (v_thread_bound m g t HV) as [_ Hbt].
  assert (HVt : w_views m' t = V') by (simpl; by rewrite fn_lookup_insert).
  assert (HVo : forall t', t' <> t -> w_views m' t' = w_views m t') by (intros; simpl; by rewrite fn_lookup_insert_ne).
  assert (HgV : good m' g' V').
  { destruct (v_thread _ _ HV t) as [Hr Hf Hw]. fold V in Hr, Hf, Hw.
    assert (HvH : vf V' FHeadPublish = vf V FHeadPublish) by (simpl; rewrite fn_lookup_insert_ne by done; simpl; lia).
    assert (HvT : vf V' FTailPublish = length (ts g)) by (simpl; rewrite fn_lookup_insert; fold V in Hbt; lia).
    split; intros x; rewrite ?HvH, ?HvT; cbn [g' publish hs ts rv]; rewrite ?top_app, ?pos_app_last; intros Hx.
    - apply (sees_reads_le V); [apply join_l|]. apply Hr. nia.
    - apply (sees_write_le V); [apply join_l|]. by apply Hf.
    - apply (sees_write_le V); [apply join_l|]. destruct (decide (x < top (ts g) * u)).
      + apply Hw. rewrite Hseen. lia.
      + apply (v_known _ _ HV t x). nia. }
  destruct (publish_claims m g t T' HV Hlo HT) as [Hc1 Hc2].
  pose proof (v_room _ _ HV). destruct (v_own _ _ HV) as [Hoh Hor].
  constructor; rewrite ?HVo by done; cbn [g' publish hs ts rv]; rewrite ?top_app; auto; try lia.
  - apply HV.
  - apply HV.
  - simpl. rewrite fn_lookup_insert, !fmap_app, (v_tails _ _ HV). done.
  - split; [done | apply mono_app; [done | lia]].
  - rewrite pos_app by lia. apply HV.
  - rewrite pos_app by done. apply HV.
  - split; unfold latest in *; rewrite HVo by done; done.
  - intros b e He. by apply (v_reads _ _ HV b).
  - intros t' x. simpl. destruct (decide (t = t')) as [<-|Hne].
    + rewrite fn_lookup_insert. simpl. intros Hx. rewrite fn_lookup_insert.
      destruct (v_known _ _ HV t x) as [Hkr Hkw]; [nia|].
      split; [eapply sees_reads_le, Hkr | eapply sees_write_le, Hkw]; apply join_l.
    + rewrite !fn_lookup_insert_ne by done. intros Hx. exact (v_known _ _ HV t' x Hx).
  - apply Hg; [by eapply bounded_bot, (wf_view _ Hwf O) | apply HV].
  - intros f i v W [Hi|(-> & _)]%append_lookup; [|done]. apply Hg; [by eapply wf_msg | by eapply v_msg].
  - intros t'. destruct (decide (t' = t)) as [->|]; [by rewrite HVt|]. rewrite HVo by done. apply Hg; [apply Hwf | apply HV].
Qed.

Definition free (H' : Z) (g : chan) : chan := Chan (hs g ++ [H']) (ts g) (rv g) (cl g).

Lemma good_free m m' g W H' :
  VInv m g -> w_bytes m' = w_bytes m -> w_reads m' = w_reads m -> bounded m W -> top (hs g) <= H' ->
  good m g W -> good m' (free H' g) W.
Proof.
  intros HV Hb Hr HbW HT Hg. apply (good_same m m') in Hg as [Hgr Hgf Hgw]; [|done..].
  destruct (v_bound m g W HV HbW). split; simpl; intros x Hx.
  - rewrite pos_app in Hx by done. by apply Hgr.
  - rewrite pos_app in Hx by done. by apply Hgf.
  - rewrite top_app in Hx. apply Hgw. nia.
Qed.

Lemma v_free m g H' :
  VInv m g -> top (hs g) <= H' <= pos (ts g) (vf (Vc m) FTailPublish) ->
  VInv (w_store true 0 FHeadPublish (u64 H') m) (free H' g).
Proof.
  intros HV HT. pose proof (v_wf _ _ HV) as Hwf. pose proof (wf_store true 0 FHeadPublish (u64 H') m Hwf) as Hwf'.
  destruct (v_lengths _ _ HV) as [Hlh Hlt]. destruct (v_mono _ _ HV) as [Hmh Hmt].
  unfold w_store in *. rewrite Hlh in *. set (V' := Vc m ⊔ᵥ at_field FHeadPublish (length (hs g))) in *.
  set (g' := free H' g). set (m' := append _ _ _ _ _ _) in *.
  assert (Hg : forall W, bounded m W -> good m g W -> good m' g' W) by (intros; eapply good_free; eauto; lia).
  destruct (v_thread_bound m g 0 HV) as [Hbh Hbc]. destruct (v_own _ _ HV) as [Hoh Hor].
  assert (HVc : Vc m' = V') by (simpl; by rewrite fn_lookup_insert).
  assert (HVo : forall t', t' <> O -> w_views m' t' = w_views m t') by (intros; simpl; by rewrite fn_lookup_insert_ne).
  assert (Hvf : vf V' FHeadPublish = length (hs g) /\ vf V' FTailPublish = vf (Vc m) FTailPublish).
  { simpl. rewrite fn_lookup_insert, fn_lookup_insert_ne by done. simpl. lia. }
  destruct Hvf as [HvH HvT]. assert (Hc : vc V' O = vc (Vc m) O) by (simpl; lia).
  pose proof (mono_top _ _ Hmt Hbc) as Hpt.
  assert (Htop : pos (hs g) (vf (Vc m) FHeadPublish) = top (hs g)).
  { apply (v_latest_head m g 0); [done | done | lia]. }
  assert (HgV : good m' g' V').
  { destruct (v_thread _ _ HV O) as [_ Hgf Hgw]. split; intros x; rewrite ?HvH, ?HvT;
      cbn [g' free hs ts rv]; rewrite ?top_app, ?pos_app_last; intros Hx.
    - intros e He. destruct (v_reads _ _ HV _ _ He). rewrite Hc. lia.
    - eapply sees_write_le; [apply join_l|]. destruct (decide (x < top (hs g) * u)).
      + apply Hgf. rewrite Htop. lia.
      + apply Hgw. nia.
    - eapply sees_write_le; [apply join_l|]. apply Hgw. nia. }
  assert (Hvle : forall t', view_le (w_views m t') (w_views m' t')).
  { intros [|t']; [rewrite HVc; apply join_l | by rewrite HVo]. }
  pose proof (v_room _ _ HV).
  constructor; rewrite ?HVc, ?HvT; cbn [g' free hs ts rv cl]; rewrite ?top_app; auto; try (by apply HV); try lia.
  - simpl. rewrite fn_lookup_insert, !fmap_app, (v_heads _ _ HV). done.
  - split; [apply mono_app; [done | lia] | done].
  - rewrite pos_app by lia. apply HV.
  - unfold latest in *. rewrite HVc. split.
    + rewrite HvH. simpl. rewrite fn_lookup_insert, length_app. simpl. lia.
    + simpl. rewrite !fn_lookup_insert_ne by done. simpl. lia.
  - intros b e He. rewrite Hc. by apply (v_reads _ _ HV b).
  - intros t' x Hx. destruct (v_known _ _ HV t' x Hx) as [Hkr Hkw].
    split; [eapply sees_reads_le, Hkr | eapply sees_write_le, Hkw]; apply Hvle.
  - apply Hg; [by eapply bounded_bot, (wf_view _ Hwf O) | apply HV].
  - intros f i v W [Hi|(-> & _)]%append_lookup; [|done]. apply Hg; [by eapply wf_msg | by eapply v_msg].
  - intros [|t']; [by rewrite HVc|]. rewrite HVo by done. apply Hg; [apply Hwf | apply HV].
Qed.

(** *** The bytes *)

(** What a byte access of thread [t] leaves as it was. *)
Definition steady (t : nat) (m m' : wmem) : Prop :=
  w_atoms m' = w_atoms m /\ (forall t', t' <> t -> w_views m' t' = w_views m t') /\
  (forall f, vf (w_views m' t) f = vf (w_views m t) f).

#[export] Instance steady_pre t : PreOrder (steady t).
Proof.
  split; [done|]. intros m1 m2 m3 (Ha & Ho & Hf) (Ha' & Ho' & Hf'). split_and!; intros; [congruence | |].
  - rewrite Ho' by done. by apply Ho.
  - by rewrite Hf', Hf.
Qed.

Lemma steady_latest t m m' t' f : steady t m m' -> latest m t' f -> latest m' t' f.
Proof.
  intros (Ha & Ho & Hf) HL. unfold latest in *. rewrite Ha.
  destruct (decide (t' = t)) as [->|]; [by rewrite Hf | by rewrite Ho].
Qed.

(** A byte of the own claim is written without a race; the claims of the others, the
    published and the freed bytes are elsewhere. *)
Lemma v_write1 m g t x b r m' :
  VInv m g -> lo g t * u <= x < hi g t * u ->
  w_write1 t (phys x) b m = Some (r, m') -> r = false /\ VInv m' g /\ steady t m m'.
Proof.
  intros HV Hx Hw. pose proof (wf_write1 _ _ _ _ _ _ (v_wf _ _ HV) Hw) as Hwf'.
  pose proof (flat_write1 _ _ _ _ _ _ Hw) as [_ Hlen].
  unfold w_write1 in Hw. destruct (w_bytes m !! phys x) as [l|] eqn:El; [|done]. injection Hw as <- <-.
  destruct (v_claim_bytes m g t x HV Hx) as (Ht0 & HxT & HxH). destruct (v_known _ _ HV t x Hx) as [Hkr Hkw].
  pose proof (v_order _ _ HV) as Hord. set (V := w_views m t) in *.
  set (V' := V ⊔ᵥ at_byte (phys x) (length l)) in *. set (m' := WMem _ _ _ _ _) in *.
  assert (Hvf : forall f, vf V' f = vf V f) by (intros f; simpl; lia).
  assert (HVt : w_views m' t = V') by (simpl; by rewrite fn_lookup_insert).
  assert (HVo : forall t', t' <> t -> w_views m' t' = w_views m t') by (intros; simpl; by rewrite fn_lookup_insert_ne).
  assert (Hsr : forall W y, sees_reads W m y -> sees_reads W m' y).
  { intros W y Hs e. simpl. destruct (decide (phys x = phys y)) as [->|].
    - rewrite fn_lookup_insert. by intros ?%not_elem_of_nil.
    - rewrite fn_lookup_insert_ne by done. apply Hs. }
  assert (Hsw : forall W y, phys x <> phys y -> sees_write W m y -> sees_write W m' y).
  { intros W y Hne Hs l'. simpl. rewrite list_lookup_insert_ne by done. apply Hs. }
  assert (Hmine : forall y, sees_write V m y -> sees_write V' m' y).
  { intros y Hy. destruct (decide (phys x = phys y)) as [Heq|]; [|apply Hsw; [done|]; eapply sees_write_le; [apply join_l | done]].
    intros l'. simpl. rewrite <- Heq, list_lookup_insert_eq by (by eapply lookup_lt_Some). intros [= <-].
    rewrite fn_lookup_insert, length_app. simpl. lia. }
  destruct (v_mono _ _ HV) as [Hmh Hmt].
  assert (Hg : forall W, good m g W -> bounded m W -> good m' g W).
  { intros W [Hr Hf Hgw] HbW. destruct (v_bound m g W HV HbW) as [HbH HbT].
    pose proof (mono_top _ _ Hmh HbH). pose proof (mono_top _ _ Hmt HbT).
    split; intros y Hy; [by apply Hsr, Hr | apply Hsw, Hf; [|done] | apply Hsw, Hgw; [|done]];
      apply not_eq_sym, phys_ne; nia. }
  assert (Hvc : vc V' O = vc V O) by (simpl; lia).
  split_and!; [| |split_and!; [done | done | intros f; by rewrite HVt, Hvf]].
  - apply orb_false_iff. split; [apply Nat.ltb_ge, Hkw, El|]. apply not_true_iff_false.
    intros ([e1 e2] & He & Hun)%existsb_exists. apply list_elem_of_In in He.
    destruct (v_reads _ _ HV _ _ He) as [He1 _]. simpl in He1. subst e1. specialize (Hkr _ He). simpl in Hkr.
    unfold unordered in Hun. apply andb_prop in Hun as [_ Hun]. apply Nat.ltb_lt in Hun. simpl in Hun. fold V in Hun. lia.
  - constructor; rewrite ?HVo, ?Hlen by done; try (by apply HV); try done.
    + unfold latest. rewrite HVo by done. apply (v_own _ _ HV).
    + intros b' e. simpl. destruct (decide (phys x = b')) as [<-|].
      * rewrite fn_lookup_insert. by intros ?%not_elem_of_nil.
      * rewrite !fn_lookup_insert_ne by done. apply HV.
    + intros t' y Hy. destruct (decide (t' = t)) as [->|Hne].
      * rewrite HVt. destruct (v_known _ _ HV t y Hy) as [Hr Hw]. split; [|by apply Hmine].
        apply Hsr. eapply sees_reads_le; [apply join_l | exact Hr].
      * rewrite HVo by done. destruct (v_known _ _ HV t' y Hy) as [Hr Hw]. split; [by apply Hsr|].
        apply Hsw; [|done]. exact (v_claims_ne m g t t' x y HV (not_eq_sym Hne) Hx Hy).
    + apply Hg; [apply HV|]. eapply bounded_bot, (wf_view _ (v_wf _ _ HV) O).
    + intros f i v W Hi. apply Hg; [by eapply v_msg | eapply wf_msg; [apply HV | done]].
    + intros t'. destruct (decide (t' = t)) as [->|]; [|rewrite HVo by done; apply Hg; apply HV].
      rewrite HVt. destruct (v_thread _ _ HV t) as [Hr Hf Hw]. split; rewrite Hvf; intros y Hy;
        [apply Hsr; eapply sees_reads_le; [apply join_l|]; by apply Hr | by apply Hmine, Hf | by apply Hmine, Hw].
Qed.

(** The consumer reads a byte between its head and a tail that it has seen. *)
Lemma v_read1 m g x i r y m' :
  VInv m g -> top (hs g) * u <= x < pos (ts g) (vf (Vc m) FTailPublish) * u ->
  w_read1 0 (phys x) i m = Some (r, y, m') ->
  r = false /\ y = mbyte (ring (flat m)) (x mod N) /\ VInv m' g /\ steady 0 m m'.
Proof.
  intros HV Hx Hw. pose proof (wf_read1 _ _ _ _ _ _ _ (v_wf _ _ HV) Hw) as Hwf'.
  unfold w_read1 in Hw. destruct (w_bytes m !! phys x) as [l|] eqn:El; [|done].
  destruct (vb (Vc m) (phys x) <=? i)%nat eqn:Ele; [|done]. apply Nat.leb_le in Ele.
  destruct (l !! i) as [z|] eqn:Ei; [|done]. injection Hw as <- <- <-.
  pose proof (g_filled _ _ _ (v_thread _ _ HV O) x Hx l El) as Hsee.
  pose proof (lookup_lt_Some _ _ _ Ei) as Hi. pose proof (v_order _ _ HV) as Hord.
  destruct (v_thread_bound m g 0 HV) as [_ Hbt]. destruct (v_mono _ _ HV) as [Hmh Hmt].
  pose proof (mono_top _ _ Hmt Hbt) as Hpos.
  set (V' := Vc m ⊔ᵥ at_byte (phys x) i ⊔ᵥ at_read 0 (S (vc (Vc m) O))) in *. set (m' := WMem _ _ _ _ _) in *.
  assert (Hvf : forall f, vf V' f = vf (Vc m) f) by (intros f; simpl; lia).
  assert (Hvc : vc V' O = S (vc (Vc m) O)) by (simpl; rewrite fn_lookup_insert; lia).
  assert (HVc : Vc m' = V') by (simpl; by rewrite fn_lookup_insert).
  assert (HVo : forall t', t' <> O -> w_views m' t' = w_views m t') by (intros; simpl; by rewrite fn_lookup_insert_ne).
  assert (Hle : view_le (Vc m) V') by (etrans; apply join_l).
  assert (Hsr : forall W y, phys x <> phys y -> sees_reads W m y -> sees_reads W m' y).
  { intros W y' Hne Hs e. simpl. rewrite fn_lookup_insert_ne by done. apply Hs. }
  assert (Hg : forall W, good m g W -> bounded m W -> good m' g W).
  { intros W [Hr Hf Hw] HbW. split; intros y' Hy; [|by apply Hf | by apply Hw].
    destruct (v_bound m g W HV HbW) as [HbH _]. pose proof (mono_top _ _ Hmh HbH).
    apply Hsr; [|by apply Hr]. apply not_eq_sym, phys_ne. nia. }
  split_and!; [| | |split_and!; [done | done | intros f; by rewrite HVc, Hvf]].
  - apply Nat.ltb_ge. lia.
  - unfold mbyte, flat. simpl. fold (phys x). symmetry. apply list_lookup_total_correct.
    rewrite list_lookup_fmap, El. simpl. unfold cur_byte. rewrite last_lookup.
    replace (pred (length l)) with i by lia. by rewrite Ei.
  - constructor; rewrite ?HVc, ?Hvf; try (by apply HV); try done.
    + destruct (v_own _ _ HV). unfold latest. by rewrite HVc, !Hvf.
    + intros b' e. rewrite Hvc. simpl. destruct (decide (phys x = b')) as [<-|].
      * rewrite fn_lookup_insert. intros [->|He]%elem_of_cons; simpl; [lia|].
        destruct (v_reads _ _ HV _ _ He). split; [done | lia].
      * rewrite fn_lookup_insert_ne by done. intros He. destruct (v_reads _ _ HV _ _ He). split; [done | lia].
    + intros t' y' Hy. destruct (v_claim_bytes m g t' y' HV Hy) as (Ht' & ? & ?). rewrite HVo by done.
      destruct (v_known _ _ HV t' y' Hy) as [Hkr Hkw]. split; [|done]. apply Hsr; [|done]. apply phys_ne. nia.
    + apply Hg; [apply HV|]. eapply bounded_bot, (wf_view _ (v_wf _ _ HV) O).
    + intros f j v W Hj. apply Hg; [by eapply v_msg | eapply wf_msg; [apply HV | done]].
    + intros [|t']; [|rewrite HVo by done; apply Hg; apply HV]. rewrite HVc.
      destruct (Hg (Vc m)) as [Hr' Hf' Hw']; [apply HV | apply HV |].
      split; rewrite Hvf; intros y' Hy; [eapply sees_reads_le | eapply sees_write_le | eapply sees_write_le]; eauto.
Qed.

(** A run of bytes that does not cross the end of the region. *)
Lemma phys_next x : x mod N + 1 < N -> S (phys x) = phys (x + 1) /\ (x + 1) mod N = x mod N + 1.
Proof.
  intros Hx. pose proof (mod_add_small N ltac:(lia) x 1 ltac:(lia) Hx) as E. unfold phys. rewrite E.
  pose proof (Z.mod_pos_bound x N ltac:(lia)). lia.
Qed.

Lemma v_write m g t x bs r m' :
  VInv m g -> lo g t * u <= x -> x + Z.of_nat (length bs) <= hi g t * u ->
  x mod N + Z.of_nat (length bs) <= N -> w_write t (phys x) bs m = Some (r, m') ->
  r = false /\ VInv m' g /\ steady t m m' /\ flat m' = with_ring (splice (ring (flat m)) (x mod N) bs) (flat m).
Proof.
  revert m x r m'. induction bs as [|b bs IH]; intros m x r m' HV Hlo Hhi Hend Hw; cbn [length w_write] in *.
  { injection Hw as <- <-. split_and!; [done | done | done |].
    unfold splice. rewrite Nat.add_0_r, app_nil_l, take_drop. done. }
  destruct (w_write1 t (phys x) b m) as [[r1 m1]|] eqn:E1; [|done].
  destruct (v_write1 m g t x b r1 m1) as (-> & HV1 & Hst1); [done | lia | done |].
  destruct (flat_write1 _ _ _ _ _ _ E1) as [Hf1 Hl1].
  replace (Z.of_nat (phys x)) with (x mod N) in Hf1 by (unfold phys; pose proof (Z.mod_pos_bound x N); lia).
  destruct (w_write t (S (phys x)) bs m1) as [[r2 m2]|] eqn:E2; [|done]. injection Hw as <- <-.
  pose proof (v_len _ _ HV) as Hlen. pose proof (Z.mod_pos_bound x N ltac:(lia)).
  destruct bs as [|b2 bs].
  { simpl in E2. injection E2 as <- <-. split_and!; done. }
  destruct (phys_next x) as [Hp Hm]; [simpl in Hend; lia|]. rewrite Hp in E2.
  destruct (IH m1 (x + 1) r2 m2) as (-> & HV2 & Hst2 & Hf2); auto; try lia.
  split_and!; [done | done | by etrans |].
  rewrite Hf2, Hf1, Hm, ring_with_ring, splice_cons; [done | lia |].
  rewrite length_ring_flat. simpl in *. lia.
Qed.

Lemma v_read m g x ch r bs m' :
  VInv m g -> top (hs g) * u <= x -> x + Z.of_nat (length ch) <= pos (ts g) (vf (Vc m) FTailPublish) * u ->
  x mod N + Z.of_nat (length ch) <= N -> w_read 0 (phys x) ch m = Some (r, bs, m') ->
  r = false /\ VInv m' g /\ steady 0 m m' /\ flat m' = flat m /\ w_bytes m' = w_bytes m /\
  mem_read (ring (flat m)) (x mod N) (Z.of_nat (length ch)) = Some bs.
Proof.
  revert m x r bs m'. induction ch as [|i ch IH]; intros m x r bs m' HV Hlo Hhi Hend Hw; cbn [length w_read] in *;
    pose proof (v_len _ _ HV) as Hlen; pose proof (Z.mod_pos_bound x N ltac:(lia)).
  { injection Hw as <- <- <-. split_and!; try done. rewrite mem_read_Some; [done | lia | lia |].
    rewrite length_ring_flat. lia. }
  destruct (w_read1 0 (phys x) i m) as [[[r1 y] m1]|] eqn:E1; [|done].
  destruct (v_read1 m g x i r1 y m1) as (-> & Hy & HV1 & Hst1); [done | lia | done |].
  destruct (flat_read1 _ _ _ _ _ _ _ E1) as [Hf1 Hb1]. pose proof Hst1 as (_ & _ & Hvf1).
  destruct (w_read 0 (S (phys x)) ch m1) as [[[r2 bs2] m2]|] eqn:E2; [|done]. injection Hw as <- <- <-.
  assert (Hall : r2 = false /\ VInv m2 g /\ steady 0 m1 m2 /\ flat m2 = flat m1 /\ w_bytes m2 = w_bytes m1 /\
    mem_read (ring (flat m1)) (x mod N + 1) (Z.of_nat (length ch)) = Some bs2).
  { destruct ch as [|j ch].
    { cbn [length w_read] in *. injection E2 as <- <- <-. split_and!; try done. rewrite mem_read_Some; [done | lia | lia |].
      rewrite length_ring_flat, Hb1. lia. }
    destruct (phys_next x) as [Hp Hm]; [simpl in Hend; lia|]. rewrite Hp in E2. rewrite <- Hm.
    apply IH; auto; rewrite ?Hvf1; lia. }
  destruct Hall as (-> & ? & ? & Hf2 & Hb2 & Hr). split_and!; [done | done | by etrans | congruence | congruence |].
  rewrite Hf1 in Hr. rewrite mem_read_Some in Hr |- * by (rewrite ?length_ring_flat; lia). injection Hr as <-.
  subst y. f_equal. unfold mbyte.
  destruct (lookup_lt_is_Some_2 (ring (flat m)) (Z.to_nat (x mod N))) as [c Hc];
    [rewrite length_ring_flat; lia|].
  rewrite (drop_S _ c) by done. erewrite list_lookup_total_correct by done.
  replace (Z.to_nat (Z.of_nat (S (length ch)))) with (S (length ch)) by lia.
  replace (Z.to_nat (x mod N + 1)) with (S (Z.to_nat (x mod N))) by lia. simpl. by rewrite Nat2Z.id.
Qed.

Lemma v_tick d m g : VInv m g -> VInv (w_tick d m) g.
Proof.
  intros HV. assert (Hg : forall W, good m g W -> good (w_tick d m) g W) by (intros W; by apply good_same).
  destruct HV. constructor; eauto. by apply wf_tick.
Qed.

(** ** Fresh memory *)

(** Nothing has been published; thread 1 has claimed the first [R] units. *)
Definition fresh_chan (R : Z) : chan := Chan [0] [0] R (<[1%nat := (0, R)]> (fun _ => (0, 0))).

Lemma v_fresh s R :
  load FHeadPublish s = 0 -> load FTailPublish s = 0 -> N <= Z.of_nat (length (ring s)) -> 0 <= R <= capU ->
  VInv (wmem_of s) (fresh_chan R).
Proof.
  intros Hh Ht Hl HR. assert (Hb : forall b l, w_bytes (wmem_of s) !! b = Some l -> length l = 1%nat).
  { intros b l Hbl. by apply list_lookup_fmap_Some in Hbl as (x & -> & _). }
  assert (Hsw : forall W x, sees_write W (wmem_of s) x) by (intros W x l Hbl; rewrite (Hb _ _ Hbl); lia).
  assert (Hsr : forall W x, sees_reads W (wmem_of s) x) by (intros W x e He; by apply not_elem_of_nil in He).
  assert (Hg : forall W, good (wmem_of s) (fresh_chan R) W) by (by constructor).
  assert (Hm : mono [0]).
  { intros i j [Hij Hj]. simpl in Hj. by replace i with j by lia. }
  assert (Hcl : forall t, lo (fresh_chan R) t < hi (fresh_chan R) t -> t = 1%nat).
  { intros t. simpl. destruct (decide (1%nat = t)) as [<-|]; [done|]. rewrite fn_lookup_insert_ne by done. simpl. lia. }
  constructor; auto; simpl; try by rewrite ?Hh, ?Ht.
  - apply wf_of.
  - by rewrite length_fmap.
  - split; unfold latest; simpl; lia.
  - intros b e He. by apply not_elem_of_nil in He.
  - intros t Hl'. pose proof (Hcl t Hl') as ->. simpl. unfold top, pos. simpl. lia.
  - intros t t' x Hne Hx Hx'. apply Hne. rewrite (Hcl t), (Hcl t') by (simpl; lia). done.
Qed.

End Channel.
