(* ===== verification/WeakTransfer.v ===== *)
(** * From sequential consistency to release/acquire

    A rely-guarantee proof of a channel under sequential consistency carries over to
    release/acquire memory, except for what the loads of the counters return.
    [ChannelSystem] is what the proof has to provide; [transfer_producer] and
    [transfer_consumer] then turn a weakest precondition ([Prog.wp]) of what an
    operation does after its loads into one on the weaker memory
    ([WeakMemory.wwp]), if its accesses stay in the claim of the producer, or between
    the head and the position of the tail that the consumer has seen ([writes_in],
    [reads_in]). *)

From Stdlib Require Import ZArith Lia Strings.Byte.
From stdpp Require Import base list numbers gmap functions.
From S2P Require Import Prelude Memory Layout Prog WeakMemory WeakChannel.

(** A single producer (thread 1) claims all that it knows to be free; several producers
    claim what they have reserved in tail_reserve. *)
Inductive producers := One | Many.

(** Thread 0 consumes and the others produce units of [u] bytes, at most [capU] of them
    at a time; [posH] and [posT] are the logical positions of the two counters.
    [Ends] is an extra invariant on the positions at which the tail has been. *)
Class ChannelSystem {G : Type} (md : producers) (u capU : Z) (allowed : shared -> shared -> Prop)
    (Inv : shared * G -> Prop) (rely : nat -> shared * G -> shared * G -> Prop)
    (posH posT : G -> Z) (Ends : list Z -> shared * G -> Prop) : Prop := {
  cs_unit : 0 < u;
  cs_cap : 0 < capU < 2 ^ 62;
  cs_pre : forall t, PreOrder (rely t);
  cs_len : forall s, Inv s -> capU * u <= Z.of_nat (length (ring s.1));
  cs_head : forall s, Inv s -> load FHeadPublish s.1 = u64 (posH s.2);
  cs_tail : forall s, Inv s -> load FTailPublish s.1 = u64 (posT s.2);
  cs_pos : forall s, Inv s -> posH s.2 <= posT s.2 <= posH s.2 + capU;
  cs_small : forall s, md = Many -> Inv s ->
    exists R, load FTailReserve s.1 = u64 R /\ posT s.2 <= R <= posH s.2 + capU /\ R < 2 ^ 64;
  cs_consumer : forall s s', rely O s s' -> posH s'.2 = posH s.2;
  cs_bytes : forall s s' x, Inv s -> rely O s s' -> Inv s' -> posH s.2 * u <= x < posT s.2 * u ->
    rbyte (capU * u) (ring s'.1) x = rbyte (capU * u) (ring s.1) x;
  cs_producer : forall s s', rely 1%nat s s' -> Inv s -> Inv s' ->
    load FTailPublish s'.1 = load FTailPublish s.1 -> posT s'.2 = posT s.2 /\ posH s.2 <= posH s'.2;
  cs_ends : forall t l s s', (t < 2)%nat -> Ends l s -> Inv s -> rely t s s' -> Inv s' -> Ends l s';
  cs_ends_tail : forall l s, Ends l s -> Inv s -> Ends (l ++ [posT s.2]) s;
}.

Section Transfer.
Context {G : Type} {W : Waits G} {md : producers} {u capU : Z} {allowed : shared -> shared -> Prop}
  {Inv : shared * G -> Prop} {rely : nat -> shared * G -> shared * G -> Prop}
  {posH posT : G -> Z} {Ends : list Z -> shared * G -> Prop}
  {CS : ChannelSystem md u capU allowed Inv rely posH posT Ends}.
Abbreviation N := (capU * u).
Abbreviation state := (wmem * (chan * G))%type.
Abbreviation heads s := (hs (snd s).1).
Abbreviation tails s := (ts (snd s).1).
Abbreviation claims s := (cl (snd s).1).

(** The newest contents of the memory, as a state of the sequentially consistent
    proof. *)
Definition sc (s : state) : shared * G := (flat s.1, s.2.2).

(** What the claims have to do with the atomics. *)
Definition Mode (m : wmem) (c : chan) : Prop :=
  match md with
  | One => cl c 1%nat = (top (ts c), rv c) /\ latest m 1 FTailPublish /\
      rv c <= pos (hs c) (vf (w_views m 1%nat) FHeadPublish) + capU
  | Many => load FTailReserve (flat m) = u64 (rv c)
  end.

Record tInv (s : state) : Prop := {
  ti_v : VInv u capU s.1 s.2.1;
  ti_sc : Inv (sc s);
  ti_head : top (heads s) = posH s.2.2;
  ti_tail : top (tails s) = posT s.2.2;
  ti_ends : Ends (tails s) (sc s);
  ti_mode : Mode s.1 s.2.1;
}.

Definition trely (t : nat) (s s' : state) : Prop :=
  rely t (sc s) (sc s') /\ w_views s'.1 t = w_views s.1 t /\ claims s' t = claims s t /\
  heads s `prefix_of` heads s' /\ tails s `prefix_of` tails s' /\ (t = O -> heads s' = heads s).

#[export] Instance trely_pre t : PreOrder (trely t).
Proof.
  pose proof (cs_pre (ChannelSystem := CS) t). split.
  - intros s. split; [reflexivity | done].
  - intros s1 s2 s3 (? & ? & ? & ? & ? & Hh1) (? & ? & ? & ? & ? & Hh2).
    split_and!; [by etrans | congruence | congruence | by etrans | by etrans |].
    intros Ht. by rewrite Hh2, Hh1.
Qed.

(** A logical position is determined by its 64-bit representation. *)
Lemma pos_inj lo a b : lo <= a <= lo + capU -> lo <= b <= lo + capU -> u64 a = u64 b -> a = b.
Proof.
  intros Ha Hb E. pose proof (cs_cap (ChannelSystem := CS)).
  destruct (decide (a <= b)); [apply u64_inj; lia | symmetry; apply u64_inj; lia].
Qed.

(** With several producers the end of the claims is a position below [2^64]. *)
Lemma many_small s : md = Many -> tInv s -> rv s.2.1 < 2 ^ 64.
Proof.
  intros Hm HI. destruct (cs_small _ Hm (ti_sc _ HI)) as (R & HR & HRp & HRs).
  pose proof (v_order _ _ _ _ (ti_v _ HI)) as Ho. pose proof (ti_mode _ HI) as HM.
  rewrite (ti_head _ HI), (ti_tail _ HI) in Ho. pose proof (cs_pos _ (ti_sc _ HI)) as Hp.
  unfold Mode in HM. rewrite Hm in HM. simpl in *. rewrite HM in HR.
  apply (pos_inj (posH s.2.2)) in HR; lia.
Qed.

(** A position that a thread has seen of a counter stays seen. *)
Lemma pos_prefix l l' i : l `prefix_of` l' -> (i < length l)%nat -> pos l' i = pos l i /\ (i < length l')%nat.
Proof.
  intros [r ->] Hi. unfold pos. rewrite lookup_total_app_l by done. rewrite length_app. split; [done | lia].
Qed.

(** A step of a producer in the sequentially consistent proof that stores [T'] as
    the tail, or leaves it. *)
Lemma sc_producer_step s s1 g' T' :
  Inv s -> rely O s (s1, g') -> Inv (s1, g') -> load FTailPublish s1 = u64 T' ->
  posT s.2 <= T' <= posH s.2 + capU -> posH g' = posH s.2 /\ posT g' = T'.
Proof.
  intros HI Hr HI' HT' Hle. pose proof (cs_consumer _ _ Hr) as Hh. simpl in Hh. split; [done|].
  pose proof (cs_pos _ HI). pose proof (cs_pos _ HI') as Hp. simpl in Hp. rewrite Hh in Hp.
  apply (pos_inj (posH s.2)); [done | lia |]. rewrite <- HT'. symmetry. apply (cs_tail _ HI').
Qed.

Lemma sc_consumer_step s s1 g' H' :
  Inv s -> rely 1%nat s (s1, g') -> Inv (s1, g') -> load FHeadPublish s1 = u64 H' ->
  load FTailPublish s1 = load FTailPublish s.1 ->
  posH s.2 <= H' <= posT s.2 -> posT g' = posT s.2 /\ posH g' = H'.
Proof.
  intros HI Hr HI' HH' Htl Hle. destruct (cs_producer s (s1, g') Hr HI HI' Htl) as [Ht Hh]. simpl in Ht, Hh.
  split; [done|].
  pose proof (cs_pos _ HI). pose proof (cs_pos _ HI') as Hp. simpl in Hp. rewrite Ht in Hp.
  apply (pos_inj (posH s.2)); [lia | lia |]. rewrite <- HH'. symmetry. apply (cs_head _ HI').
Qed.

(** ** Loads *)

(** Who has seen more knows as much about the claims. *)
Lemma Mode_view m m' c :
  VInv u capU m' c -> Mode m c ->
  (md = Many -> load FTailReserve (flat m') = load FTailReserve (flat m)) ->
  w_atoms m' FTailPublish = w_atoms m FTailPublish ->
  view_le (w_views m 1%nat) (w_views m' 1%nat) -> Mode m' c.
Proof.
  intros HV HM Hf Ha Hle. unfold Mode in *. destruct md; [|by rewrite Hf]. destruct HM as (? & HL & Hr).
  split_and!; [done | by eapply latest_mono |]. destruct (v_thread_bound _ _ _ _ 1 HV) as [Hb _].
  pose proof (proj1 (v_mono _ _ _ _ HV) _ _ (conj (proj1 Hle FHeadPublish) Hb)). lia.
Qed.

(** A load changes only what its thread has seen; it returns a position of the counter
    that is not older than what the thread has seen before. *)
Lemma t_load acq t f i v m s :
  tInv s -> loads_ok s.1 acq t f -> w_load acq t f i s.1 = Some (v, m) ->
  tInv (m, s.2) /\ sc (m, s.2) = sc s /\
  (forall t', t' <> t -> w_views m t' = w_views s.1 t') /\ view_le (w_views s.1 t) (w_views m t) /\
  (vf (w_views s.1 t) f <= i <= vf (w_views m t) f)%nat /\ (i < length (w_atoms s.1 f))%nat /\
  (f = FHeadPublish -> v = u64 (pos (heads s) i)) /\ (f = FTailPublish -> v = u64 (pos (tails s) i)).
Proof.
  intros HI Ha Hl. pose proof (flat_load _ _ _ _ _ _ _ Hl) as Hf. pose proof (view_load _ _ _ _ _ _ _ Hl) as Hle.
  destruct (v_load u capU cs_unit _ _ _ _ _ _ _ _ (ti_v _ HI) Ha Hl) as (HV' & Ho & _ & Hi & Hlt & Hh & Htl).
  assert (Hsc : sc (m, s.2) = sc s) by (unfold sc; cbn [fst snd]; by rewrite Hf).
  assert (HIm : tInv (m, s.2)).
  { destruct HI. constructor; auto; try by rewrite Hsc. apply (Mode_view s.1); auto; [intros _; cbn [fst]; by rewrite Hf | |].
    - unfold w_load in Hl. destruct (_ <=? _)%nat; [|done]. destruct (_ !! i) as [[? ?]|]; [|done]. by injection Hl as _ <-.
    - destruct (decide (t = 1%nat)) as [->|]; [done|]. by rewrite Ho by done. }
  split_and!; auto; lia.
Qed.

(** A step of thread [t] that changes nothing but views and ghost state. *)
Lemma t_silent t s m c' (K : state -> Prop) :
  sc (m, (c', s.2.2)) = sc s -> (forall t', t' <> t -> w_views m t' = w_views s.1 t') ->
  (forall t', t' <> t -> cl c' t' = claims s t') -> hs c' = heads s -> ts c' = tails s ->
  tInv (m, (c', s.2.2)) -> K (m, (c', s.2.2)) -> wchange allowed tInv trely t s m K.
Proof.
  intros Hsc Ho Hcl Hh Ht HI HK _. exists (c', s.2.2). split_and!; auto. intros t' Ht'.
  unfold trely. rewrite Hsc. cbn [fst snd]. rewrite Ho, Hcl, Hh, Ht by done.
  split_and!; auto. apply (cs_pre (ChannelSystem := CS)).
Qed.

Lemma t_load_step acq t f i v m s (K : state -> Prop) :
  tInv s -> loads_ok s.1 acq t f -> w_load acq t f i s.1 = Some (v, m) ->
  K (m, s.2) -> wchange allowed tInv trely t s m K.
Proof.
  intros HI Ha Hl HK. destruct (t_load _ _ _ _ _ _ _ HI Ha Hl) as (HIm & Hsc & Ho & _).
  destruct s as [m0 [c g]]. by apply (t_silent t (m0, (c, g)) m c).
Qed.

(** ** Producers *)

(** Accesses of a producer whose claim is from [lo] to [hi]; [turn] says that the claim
    begins at the tail. *)
Fixpoint writes_in {A} (turn : bool) (lo hi : Z) (p : prog A) : Prop :=
  match p with
  | Ret _ => True
  | Store FTailReserve _ k => md = One /\ writes_in turn lo hi k
  | Store FTailPublish v k =>
      (md = One \/ turn = true) /\ exists T', v = u64 T' /\ lo <= T' <= hi /\ writes_in (T' <? hi) T' hi k
  | FetchAdd FSequence _ k => forall v, writes_in turn lo hi (k v)
  | Await FTailPublish v k => md = Many /\ v = u64 lo /\ lo < hi < 2 ^ 64 /\ writes_in true lo hi k
  | Write off bs k =>
      (exists x, off = x mod N /\ lo * u <= x /\ x + Z.of_nat (length bs) <= hi * u /\
         x mod N + Z.of_nat (length bs) <= N) /\ writes_in turn lo hi k
  | _ => False
  end.

(** A change of a producer, in both worlds at once. *)
Lemma transfer_producer_change t s m c' (K : shared * G -> Prop) (K' : state -> Prop) T' :
  tInv s -> t <> O -> change allowed Inv rely t (sc s) (flat m) K -> load FTailPublish (flat m) = u64 T' ->
  posT s.2.2 <= T' <= posH s.2.2 + capU -> VInv u capU m c' -> Mode m c' ->
  (forall t', t' <> t -> w_views m t' = w_views s.1 t') -> (forall t', t' <> t -> cl c' t' = claims s t') ->
  hs c' = heads s -> top (ts c') = T' -> (ts c' = tails s \/ ts c' = tails s ++ [T']) ->
  (forall g', K (flat m, g') -> tInv (m, (c', g')) -> K' (m, (c', g'))) ->
  wchange allowed tInv trely t s m K'.
Proof.
  intros HI Ht Hc Hl HT' HV HM Hvo Hco Hhs Htop Hts HK Ha. destruct (Hc Ha) as (g' & Hr & HI' & HKg).
  pose proof (Hr O ltac:(done)) as Hr0.
  destruct (sc_producer_step _ _ _ T' (ti_sc _ HI) Hr0 HI' Hl HT') as [HH' HT2]. simpl in HH', HT2.
  assert (Hpre : tails s `prefix_of` ts c') by (destruct Hts as [-> | ->]; [done | by apply prefix_app_r]).
  assert (HIm : tInv (m, (c', g'))).
  { constructor; auto; simpl; try congruence.
    - rewrite Hhs, HH'. apply HI.
    - pose proof (cs_ends 0%nat _ _ _ ltac:(lia) (ti_ends _ HI) (ti_sc _ HI) Hr0 HI') as HE.
      destruct Hts as [-> | ->]; [done|]. rewrite <- HT2. by apply (cs_ends_tail _ (flat m, g')). }
  exists (c', g'). split_and!; auto. intros t' Ht'. unfold trely. cbn [fst snd].
  rewrite Hvo, Hco, Hhs by done. split_and!; auto.
Qed.

(** A step that leaves the tail and the claims. *)
Lemma transfer_producer_keep t s m (K : shared * G -> Prop) (K' : state -> Prop) :
  tInv s -> t <> O -> change allowed Inv rely t (sc s) (flat m) K ->
  load FTailPublish (flat m) = load FTailPublish (flat s.1) ->
  (md = Many -> load FTailReserve (flat m) = load FTailReserve (flat s.1)) ->
  w_atoms m FTailPublish = w_atoms s.1 FTailPublish ->
  VInv u capU m s.2.1 -> (forall t', t' <> t -> w_views m t' = w_views s.1 t') ->
  (forall f, (vf (w_views s.1 t) f <= vf (w_views m t) f)%nat) ->
  (forall g', K (flat m, g') -> tInv (m, (s.2.1, g')) -> K' (m, (s.2.1, g'))) ->
  wchange allowed tInv trely t s m K'.
Proof.
  intros HI Ht Hc Hl Hm Ha HV Hvo Hvt HK. pose proof (cs_pos _ (ti_sc _ HI)) as Hp. simpl in Hp.
  apply (transfer_producer_change t s m s.2.1 K K' (posT s.2.2)); auto; [| lia | | apply HI].
  - rewrite Hl. apply (cs_tail _ (ti_sc _ HI)).
  - pose proof (ti_mode _ HI) as HM. unfold Mode in *. destruct md; [|by rewrite Hm].
    destruct HM as (? & HL & Hr). destruct (v_thread_bound _ _ _ _ 1 HV) as [Hb _].
    assert (Hv1 : forall f, (vf (w_views s.1 1%nat) f <= vf (w_views m 1%nat) f)%nat).
    { intros f. destruct (decide (t = 1%nat)) as [->|]; [done|]. by rewrite Hvo. }
    pose proof (Hv1 FTailPublish). pose proof (proj1 (v_mono _ _ _ _ HV) _ _ (conj (Hv1 FHeadPublish) Hb)).
    unfold latest in *. rewrite Ha. split_and!; [done | lia | lia].
Qed.

(** It is the turn of thread [t]: its claim begins at the newest tail, which it has seen. *)
Definition Turn (t : nat) (lo : Z) (s : state) : Prop :=
  md = One \/
  lo < (claims s t).2 /\ top (tails s) = lo /\ (vf (w_views s.1 t) FTailPublish < length (tails s))%nat /\
  pos (tails s) (vf (w_views s.1 t) FTailPublish) = lo.

Lemma Turn_stable t lo s s' : Turn t lo s -> (claims s t).1 = lo -> trely t s s' -> tInv s' -> Turn t lo s'.
Proof.
  intros [? | (Hlt & Htop & Hb & Hp)] Hlo (_ & Hv & Hc & _ & Ht & _) HI; [by left | right].
  rewrite Hv, Hc. destruct (pos_prefix _ _ _ Ht Hb) as [-> Hb'].
  destruct (v_claim _ _ _ _ (ti_v _ HI) t) as (_ & Hl & _); [rewrite Hc; lia|]. rewrite Hc, Hlo in Hl.
  assert (Hlen : (pred (length (tails s)) < length (tails s))%nat) by lia.
  destruct (pos_prefix _ _ _ Ht Hlen) as [E Hlen'].
  pose proof (mono_top _ _ (proj2 (v_mono _ _ _ _ (ti_v _ HI))) Hlen') as Hm. rewrite E in Hm.
  fold (top (tails s)) in Hm. split_and!; auto; lia.
Qed.

Lemma Turn_view t lo s m g' :
  Turn t lo s -> tInv (m, (s.2.1, g')) ->
  (vf (w_views s.1 t) FTailPublish <= vf (w_views m t) FTailPublish)%nat -> Turn t lo (m, (s.2.1, g')).
Proof.
  intros [? | (Hlt & Htop & Hb & Hp)] HI Hle; [by left | right]. pose proof (ti_v _ HI) as HV. cbn [fst snd] in *.
  destruct (v_thread_bound _ _ _ _ t HV) as [_ Hb']. pose proof (proj2 (v_mono _ _ _ _ HV)) as Hm.
  pose proof (Hm _ _ (conj Hle Hb')). pose proof (mono_top _ _ Hm Hb'). split_and!; auto; lia.
Qed.

(** Then it may publish. *)
Lemma Turn_seen t lo s :
  Turn t lo s -> (claims s t).1 = lo -> (md = One -> t = 1%nat) -> tInv s ->
  lo = top (tails s) /\ pos (tails s) (vf (w_views s.1 t) FTailPublish) = top (tails s).
Proof.
  intros HT Hlo Hone HI. destruct HT as [Hm | (_ & <- & _ & ?)]; [|done].
  pose proof (ti_mode _ HI) as HM. unfold Mode in HM. rewrite Hm in HM. destruct HM as (Hc & HL & _).
  rewrite (Hone Hm) in *. rewrite Hc in Hlo. split; [done|].
  destruct (v_thread_bound _ _ _ _ 1 (ti_v _ HI)) as [_ Hb]. destruct (v_lengths _ _ _ _ (ti_v _ HI)) as [_ Hl].
  eapply v_latest_tail; [apply HI | done | lia].
Qed.

(** A producer that waits for the beginning of its claim has seen the newest tail. *)
Lemma wait_seen t lo s i m :
  tInv s -> md = Many -> t <> O -> (claims s t).1 = lo -> lo < (claims s t).2 -> lo < 2 ^ 64 ->
  w_load true t FTailPublish i s.1 = Some (u64 lo, m) -> posT s.2.2 = lo /\ Turn t lo (m, s.2).
Proof.
  intros HI Hm Ht0 Hlo Hlt H64 Hl.
  destruct (t_load true t FTailPublish i _ m s HI ltac:(by left) Hl) as (HIm & _ & _ & _ & Hi & Hil & _ & Hv).
  specialize (Hv eq_refl). destruct (v_lengths _ _ _ _ (ti_v _ HI)) as [_ Hln]. rewrite Hln in Hil.
  destruct (v_claim _ _ _ _ (ti_v _ HI) t) as (_ & Hcl & _); [by rewrite Hlo|]. rewrite Hlo in Hcl.
  destruct (v_mono _ _ _ _ (ti_v _ HI)) as [_ Hmt]. destruct (v_start _ _ _ _ (ti_v _ HI)) as [_ H0].
  pose proof (Hmt O i ltac:(lia)) as Hge. pose proof (mono_top _ _ Hmt Hil) as Hle.
  assert (E : pos (tails s) i = lo) by (symmetry; rewrite !u64_small in Hv by lia; done).
  destruct (v_thread_bound _ _ _ _ t (ti_v _ HIm)) as [_ Hb]. simpl in Hb.
  pose proof (Hmt i (vf (w_views m t) FTailPublish) ltac:(lia)) as Hge2. pose proof (mono_top _ _ Hmt Hb).
  split; [rewrite <- (ti_tail _ HI); lia|]. right. simpl. split_and!; try done; lia.
Qed.

(** Publishing part of the claim. *)
Lemma transfer_publish t s T' (K : shared * G -> Prop) (K' : state -> Prop) :
  tInv s -> t <> O -> (md = One -> t = 1%nat) -> Turn t (claims s t).1 s -> (claims s t).1 <= T' <= (claims s t).2 ->
  change allowed Inv rely t (sc s) (store FTailPublish (u64 T') (flat s.1)) K ->
  (forall m g', K (flat m, g') -> tInv (m, (publish t T' s.2.1, g')) ->
     (T' < (claims s t).2 -> Turn t T' (m, (publish t T' s.2.1, g'))) -> K' (m, (publish t T' s.2.1, g'))) ->
  wchange allowed tInv trely t s (w_store true t FTailPublish (u64 T') s.1) K'.
Proof.
  intros HI Ht0 Hone HTu HT' Hc HK. pose proof (ti_v _ HI) as HV.
  pose proof (cs_unit (ChannelSystem := CS)) as Hu. pose proof (cs_cap (ChannelSystem := CS)) as Hcap.
  destruct (Turn_seen t _ s HTu eq_refl Hone HI) as [Hlo Hseen]. rewrite Hlo in HT'. set (m := w_store _ _ _ _ _).
  assert (HVm : VInv u capU m (publish t T' s.2.1)) by (apply v_publish; auto; lia).
  pose proof (v_order _ _ _ _ HVm) as Ho. cbn [publish hs ts rv] in Ho. rewrite top_app in Ho.
  pose proof (ti_tail _ HI) as HtT. pose proof (ti_head _ HI) as HhT. destruct (v_lengths _ _ _ _ HV) as [_ Hl].
  assert (Hv1 : vf (w_views m t) FTailPublish = length (tails s)).
  { simpl. rewrite fn_lookup_insert. simpl. rewrite fn_lookup_insert.
    destruct (v_thread_bound _ _ _ _ t HV) as [_ Hb]. lia. }
  assert (Hv2 : vf (w_views m t) FHeadPublish = vf (w_views s.1 t) FHeadPublish).
  { simpl. rewrite fn_lookup_insert. simpl. rewrite fn_lookup_insert_ne by done. apply Nat.max_0_r. }
  assert (HMm : Mode m (publish t T' s.2.1)).
  { pose proof (ti_mode _ HI) as HM. unfold Mode in *. destruct md.
    - pose proof (Hone eq_refl) as Et. rewrite <- Et in HM |- *. destruct HM as (Hc1 & HL & Hrv). cbn [publish hs ts rv cl].
      rewrite fn_lookup_insert, top_app, Hc1, Hv2. split_and!; [done | | done].
      unfold latest. rewrite Hv1. simpl. rewrite fn_lookup_insert, length_app. simpl. lia.
    - unfold m. by rewrite flat_store, load_store_ne. }
  eapply (transfer_producer_change t s m (publish t T' s.2.1)) with (T' := T');
    [done | done | unfold m; rewrite flat_store; exact Hc | | | done | done | | | done | apply top_app | by right |].
  - unfold m. by rewrite flat_store, load_store_eq.
  - simpl in HtT, HhT. lia.
  - intros t' ?. simpl. by rewrite fn_lookup_insert_ne.
  - intros t' ?. simpl. by rewrite fn_lookup_insert_ne.
  - intros g' HKg HI'. apply HK; auto. intros Hlt. right. cbn [fst snd publish hs ts rv cl].
    rewrite Hv1, fn_lookup_insert, top_app, pos_app_last, length_app. simpl. split_and!; done || lia.
Qed.

(** Writing bytes of the claim. *)
Lemma transfer_write t s x bs mm (K : shared * G -> Prop) (K' : state -> Prop) :
  tInv s -> t <> O -> (claims s t).1 * u <= x -> x + Z.of_nat (length bs) <= (claims s t).2 * u ->
  x mod N + Z.of_nat (length bs) <= N -> mem_write (ring (flat s.1)) (x mod N) bs = Some mm ->
  change allowed Inv rely t (sc s) (with_ring mm (flat s.1)) K ->
  (forall m g', K (flat m, g') -> tInv (m, (s.2.1, g')) ->
     (vf (w_views s.1 t) FTailPublish <= vf (w_views m t) FTailPublish)%nat -> K' (m, (s.2.1, g'))) ->
  in_ring s.1 (x mod N) (Z.of_nat (length bs)) = true /\
  forall r m, w_write t (Z.to_nat (x mod N)) bs s.1 = Some (r, m) -> r = false /\ wchange allowed tInv trely t s m K'.
Proof.
  intros HI Ht0 Hx1 Hx2 Hx3 Hmw Hc HK. pose proof (cs_unit (ChannelSystem := CS)) as Hu.
  pose proof (cs_cap (ChannelSystem := CS)) as Hcap. pose proof (cs_len _ (ti_sc _ HI)) as Hlen.
  simpl in Hlen. rewrite length_fmap in Hlen. pose proof (Z.mod_pos_bound x N ltac:(lia)).
  split. { unfold in_ring. rewrite !(proj2 (Z.leb_le _ _)) by lia. done. }
  intros r m Hw. rewrite mem_write_Some in Hmw by (simpl; rewrite ?length_fmap; lia). injection Hmw as <-.
  destruct (v_write u capU Hu (proj1 Hcap) s.1 s.2.1 t x bs r m) as (-> & HVm & (Ha & Hvo & Hvt) & Hf);
    auto; try apply HI; try nia.
  split; [done|]. eapply transfer_producer_keep;
    [done | done | rewrite Hf; exact Hc | by rewrite Hf | by rewrite Hf | by rewrite Ha | done | done | intros f; by rewrite Hvt |].
  intros g' HKg HI'. apply HK; auto. by rewrite Hvt.
Qed.

Lemma transfer_producer {A} (o : orders) (Q : A -> shared * G -> Prop) t p turn lo hi s :
  t <> O -> (md = One -> t = 1%nat) -> releases o FTailPublish = true ->
  (md = Many -> acquires o FTailPublish = true) ->
  writes_in turn lo hi p -> wp allowed Inv rely t Q p (sc s) ->
  (claims s t).1 = lo -> hi <= (claims s t).2 -> (turn = true -> Turn t lo s) ->
  wwp allowed tInv trely o t (fun a s => Q a (sc s)) p s.
Proof.
  intros Ht0 Hone Hrel Hacq. revert turn lo s. pose proof (cs_unit (ChannelSystem := CS)) as Hu.
  induction p as [a|f k IH|f v k IH|w f e d k IH|f v k IH|f v k IH|off n k IH|off bs k IH|k IH|k IH|];
    intros turn lo s Hin Hwp Hlo Hhi Hturn s' Htr HI; simpl in Hin; try done;
    pose proof Htr as (Hr & _ & Hc & _); simpl in Hwp; specialize (Hwp _ Hr (ti_sc _ HI)).
  1: exact Hwp.
  all: assert (Hturn' : turn = true -> Turn t lo s') by (intros; eapply Turn_stable; eauto);
    rewrite <- Hc in Hlo, Hhi; pose proof (ti_v _ HI) as HV; clear Hturn Htr Hr Hc s.
  - destruct f; try done; cbn [wwp].
    + destruct Hin as [Hm Hin]. set (m := w_store _ _ _ _ _).
      eapply transfer_producer_keep; [done | done | unfold m; rewrite flat_store; exact Hwp | | | | | |  |].
      { unfold m. by rewrite flat_store, load_store_ne. }
      { congruence. }
      { simpl. by rewrite fn_lookup_insert_ne. }
      { by apply v_store_other. }
      { intros t' ?. simpl. by rewrite fn_lookup_insert_ne. }
      { intros f. simpl. rewrite fn_lookup_insert. simpl. lia. }
      intros g' HK HI'. apply (IH turn lo); auto. intros. by left.
    + destruct Hin as (Hmt & T' & -> & HT' & Hin). rewrite Hrel.
      eapply transfer_publish; [done | done | done | | lia | exact Hwp |]; [rewrite Hlo; destruct Hmt; [by left | auto]|].
      intros m g' HK HI' HTu. apply (IH (T' <? hi) T'); auto; cbn [fst snd publish cl]; rewrite ?fn_lookup_insert; auto.
      intros Hlt%Z.ltb_lt. apply HTu. lia.
  - destruct f; try done. cbn [wwp]. set (m := w_rmw _ _ _ _ _ _).
    rewrite <- load_flat in *. cbn [wp] in Hwp.
    eapply transfer_producer_keep; [done | done | unfold m; rewrite flat_rmw; exact Hwp | | | | | |  |].
    { unfold m. by rewrite flat_rmw, load_store_ne. }
    { intros _. unfold m. by rewrite flat_rmw, load_store_ne. }
    { simpl. by rewrite fn_lookup_insert_ne. }
    { by apply v_rmw_other. }
    { intros t' ?. simpl. by rewrite fn_lookup_insert_ne. }
    { intros f. simpl. rewrite fn_lookup_insert. simpl. lia. }
    intros g' HK HI'. apply (IH _ turn lo); auto. intros E. apply Turn_view; auto.
    simpl. rewrite fn_lookup_insert. simpl. lia.
  - destruct f; try done. destruct Hin as (Hm & -> & Hlt & Hin). cbn [wwp]. intros i m Hl. rewrite Hacq in Hl by done.
    destruct (wait_seen t lo s' i m) as [HT HTu]; auto; [lia | lia |].
    eapply (t_load_step true); [done | by left | exact Hl |]. destruct (t_load true t _ _ _ _ _ HI ltac:(by left) Hl) as (_ & Hsc & _).
    apply (IH true lo); auto. rewrite Hsc. apply Hwp. rewrite (cs_tail _ (ti_sc _ HI)). simpl. congruence.
  - destruct Hin as [(x & -> & Hx1 & Hx2 & Hx3) Hin]. destruct Hwp as (mm & Hmw & Hwp).
    eapply transfer_write; [done | done | lia | nia | done | exact Hmw | exact Hwp |].
    intros m g' HK HI' Hv. apply (IH turn lo); auto. intros E. apply Turn_view; auto.
Qed.

(** A program that only returns. *)
Lemma transfer_ret {A} o t (Q : A -> shared * G -> Prop) a s :
  wp allowed Inv rely t Q (Ret a) (sc s) -> wwp allowed tInv trely o t (fun a s => Q a (sc s)) (Ret a) s.
Proof. intros Hw s' [Hr _] HI. exact (Hw _ Hr (ti_sc _ HI)). Qed.

(** ** The consumer *)

(** Accesses of a consumer whose head is [lo] and that may read positions below [hi],
    which hold the bytes of [m0]. *)
Fixpoint reads_in {A} (m0 : list byte) (lo hi : Z) (p : prog A) : Prop :=
  match p with
  | Ret _ => True
  | Store FHeadReserve _ k => reads_in m0 lo hi k
  | Store FHeadPublish v k => exists H', v = u64 H' /\ lo <= H' <= hi /\ reads_in m0 H' hi k
  | Cas weak FHeadReserve _ _ k => weak = true /\ forall b, reads_in m0 lo hi (k b)
  | Await FHeadPublish _ k => reads_in m0 lo hi k
  | Read off n k =>
      exists x, off = x mod N /\ 0 <= n /\ lo * u <= x /\ x + n <= hi * u /\ x mod N + n <= N /\
        reads_in m0 lo hi (k (rbytes N m0 x n))
  | _ => False
  end.

Lemma transfer_consumer_change s m c' (K : shared * G -> Prop) (K' : state -> Prop) H' :
  tInv s -> change allowed Inv rely 0 (sc s) (flat m) K -> load FHeadPublish (flat m) = u64 H' ->
  load FTailPublish (flat m) = load FTailPublish (flat s.1) ->
  load FTailReserve (flat m) = load FTailReserve (flat s.1) -> w_atoms m FTailPublish = w_atoms s.1 FTailPublish ->
  posH s.2.2 <= H' <= posT s.2.2 -> VInv u capU m c' ->
  (forall t', t' <> O -> w_views m t' = w_views s.1 t') -> cl c' = claims s -> rv c' = rv s.2.1 ->
  ts c' = tails s -> top (hs c') = H' -> heads s `prefix_of` hs c' ->
  (forall g', K (flat m, g') -> tInv (m, (c', g')) -> K' (m, (c', g'))) ->
  wchange allowed tInv trely 0 s m K'.
Proof.
  intros HI Hc Hl Htl Hrl Ha HH' HV Hvo Hcl Hrv Hts Htop Hpre HK Hal. destruct (Hc Hal) as (g' & Hr & HI' & HKg).
  pose proof (Hr 1%nat ltac:(done)) as Hr1.
  destruct (sc_consumer_step _ _ _ H' (ti_sc _ HI) Hr1 HI' Hl Htl HH') as [HT2 HH2]. simpl in HT2, HH2.
  assert (HIm : tInv (m, (c', g'))).
  { constructor; auto; simpl; try congruence.
    - rewrite Hts, HT2. apply HI.
    - rewrite Hts. exact (cs_ends 1%nat _ _ _ ltac:(lia) (ti_ends _ HI) (ti_sc _ HI) Hr1 HI').
    - pose proof (ti_mode _ HI) as HM. unfold Mode in *. rewrite Hcl, Hrv, Hts. destruct md; [|by rewrite Hrl].
      destruct HM as (? & HL & ?). destruct (v_thread_bound _ _ _ _ 1 (ti_v _ HI)) as [Hb _].
      destruct (pos_prefix _ _ _ Hpre Hb) as [Hp _]. unfold latest in *. rewrite Ha, Hvo, Hp by done. done. }
  exists (c', g'). split_and!; auto. intros t' Ht'. unfold trely. cbn [fst snd].
  rewrite Hvo, Hcl, Hts by done. split_and!; auto. by intros ->.
Qed.

Lemma transfer_consumer_keep s m (K : shared * G -> Prop) (K' : state -> Prop) :
  tInv s -> change allowed Inv rely 0 (sc s) (flat m) K ->
  (forall f, f <> FHeadReserve -> load f (flat m) = load f (flat s.1)) ->
  w_atoms m FTailPublish = w_atoms s.1 FTailPublish ->
  VInv u capU m s.2.1 -> (forall t', t' <> O -> w_views m t' = w_views s.1 t') ->
  (forall g', K (flat m, g') -> tInv (m, (s.2.1, g')) -> K' (m, (s.2.1, g'))) ->
  wchange allowed tInv trely 0 s m K'.
Proof.
  intros HI Hc Hl Ha HV Hvo HK. pose proof (cs_pos _ (ti_sc _ HI)) as Hp. simpl in Hp.
  apply (transfer_consumer_change s m s.2.1 K K' (posH s.2.2)); auto; [| lia | apply HI].
  rewrite Hl by done. apply (cs_head _ (ti_sc _ HI)).
Qed.

(** What the consumer has seen of the tail stays seen. *)
Lemma avail_kept (s : state) m c' hi :
  VInv u capU s.1 s.2.1 -> VInv u capU m c' -> ts c' = tails s ->
  (vf (w_views s.1 0%nat) FTailPublish <= vf (w_views m 0%nat) FTailPublish)%nat ->
  hi <= pos (tails s) (vf (w_views s.1 0%nat) FTailPublish) ->
  (vf (w_views m 0%nat) FTailPublish < length (ts c'))%nat /\
  hi <= pos (ts c') (vf (w_views m 0%nat) FTailPublish).
Proof.
  intros HV HV' Hh Hle Hhi. destruct (v_thread_bound _ _ _ _ 0 HV') as [_ Hb].
  split; [done|]. rewrite Hh in *. destruct (v_mono _ _ _ _ HV) as [_ Hm].
  pose proof (Hm (vf (w_views s.1 0%nat) FTailPublish) (vf (w_views m 0%nat) FTailPublish) ltac:(lia)). lia.
Qed.

(** What the consumer knows while it reads: where its head is, how far the tail that
    it has seen is, and what the bytes in between are. *)
Definition Sees (m0 : list byte) (lo hi : Z) (s : state) : Prop :=
  lo = top (heads s) /\ (vf (w_views s.1 0%nat) FTailPublish < length (tails s))%nat /\
  hi <= pos (tails s) (vf (w_views s.1 0%nat) FTailPublish) /\
  (forall x, lo * u <= x < hi * u -> rbyte N (ring (flat s.1)) x = rbyte N m0 x).

Lemma Sees_stable m0 lo hi s s' : Sees m0 lo hi s -> tInv s -> trely 0 s s' -> tInv s' -> Sees m0 lo hi s'.
Proof.
  intros (Hlo & Hbd & Hhi & Hm0) HI0 (Hr & Hv0 & _ & _ & Hts & Hhs) HI. unfold Sees.
  rewrite Hhs, Hv0 by done. destruct (pos_prefix _ _ _ Hts Hbd) as [-> Hbd']. split_and!; try done.
  intros x Hx. rewrite <- Hm0 by done. apply (cs_bytes _ _ _ (ti_sc _ HI0) Hr (ti_sc _ HI)). simpl.
  rewrite <- (ti_head _ HI0), <- (ti_tail _ HI0). pose proof (cs_unit (ChannelSystem := CS)).
  pose proof (mono_top _ _ (proj2 (v_mono _ _ _ _ (ti_v _ HI0))) Hbd). nia.
Qed.

(** It still knows after an access that leaves the head and the bytes. *)
Lemma Sees_step m0 lo hi s m g' :
  Sees m0 lo hi s -> tInv s -> tInv (m, (s.2.1, g')) -> ring (flat m) = ring (flat s.1) ->
  (vf (w_views s.1 0%nat) FTailPublish <= vf (w_views m 0%nat) FTailPublish)%nat -> Sees m0 lo hi (m, (s.2.1, g')).
Proof.
  intros (Hlo & Hbd & Hhi & Hm0) HI HIm Hring Hle. unfold Sees. cbn [fst snd]. rewrite Hring.
  destruct (avail_kept s m s.2.1 hi) as [? ?]; auto; [apply HI | apply HIm].
Qed.

(** Freeing what has been read. *)
Lemma transfer_free m0 lo hi H' s (K : shared * G -> Prop) (K' : state -> Prop) :
  tInv s -> Sees m0 lo hi s -> lo <= H' <= hi ->
  change allowed Inv rely 0 (sc s) (store FHeadPublish (u64 H') (flat s.1)) K ->
  (forall m g', K (flat m, g') -> tInv (m, (free H' s.2.1, g')) -> Sees m0 H' hi (m, (free H' s.2.1, g')) ->
     K' (m, (free H' s.2.1, g'))) ->
  wchange allowed tInv trely 0 s (w_store true 0 FHeadPublish (u64 H') s.1) K'.
Proof.
  intros HI (Hlo & Hbd & Hhi & Hm0) HH' Hc HK. pose proof (ti_v _ HI) as HV. set (m := w_store _ _ _ _ _).
  pose proof (cs_unit (ChannelSystem := CS)) as Hu. pose proof (cs_cap (ChannelSystem := CS)) as Hcap.
  assert (HVm : VInv u capU m (free H' s.2.1)) by (apply v_free; auto; lia).
  assert (Hf : flat m = store FHeadPublish (u64 H') (flat s.1)) by apply flat_store.
  pose proof (mono_top _ _ (proj2 (v_mono _ _ _ _ HV)) Hbd) as Htop.
  pose proof (ti_tail _ HI) as HtT. pose proof (ti_head _ HI) as HhT. simpl in HtT, HhT.
  eapply (transfer_consumer_change _ _ (free H' s.2.1)) with (H' := H');
    [done | rewrite Hf; exact Hc | by rewrite Hf, load_store_eq | by rewrite Hf, load_store_ne
    | by rewrite Hf, load_store_ne | simpl; by rewrite fn_lookup_insert_ne | lia | done | | done | done | done
    | apply top_app | by apply prefix_app_r |].
  - intros t' ?. simpl. by rewrite fn_lookup_insert_ne.
  - destruct (avail_kept s m (free H' s.2.1) hi) as [? ?]; auto; [simpl; lia|].
    intros g' HKg HI'. apply HK; auto. split_and!; auto; [simpl; by rewrite top_app|].
    cbn [fst]. rewrite Hf. intros x Hx. apply Hm0. nia.
Qed.

(** Reading what the consumer sees. *)
Lemma transfer_read m0 lo hi x n bs s (K' : state -> Prop) :
  tInv s -> Sees m0 lo hi s -> 0 <= n -> lo * u <= x -> x + n <= hi * u -> x mod N + n <= N ->
  mem_read (ring (flat s.1)) (x mod N) n = Some bs ->
  (forall m, tInv (m, s.2) -> sc (m, s.2) = sc s -> Sees m0 lo hi (m, s.2) -> bs = rbytes N m0 x n -> K' (m, s.2)) ->
  in_ring s.1 (x mod N) n = true /\
  forall ch r bs' m, Z.of_nat (length ch) = n -> w_read 0 (Z.to_nat (x mod N)) ch s.1 = Some (r, bs', m) ->
    r = false /\ bs' = bs /\ wchange allowed tInv trely 0 s m K'.
Proof.
  intros HI HS Hn Hx1 Hx2 Hx3 Hmr HK. pose proof HS as (Hlo & Hbd & Hhi & Hm0). destruct s as [m' [c' g']].
  pose proof (cs_unit (ChannelSystem := CS)) as Hu. pose proof (cs_cap (ChannelSystem := CS)) as Hcap.
  pose proof (cs_len _ (ti_sc _ HI)) as Hlen. simpl in Hlen. rewrite length_fmap in Hlen. cbn [fst snd] in *.
  pose proof (Z.mod_pos_bound x N ltac:(lia)).
  split. { unfold in_ring. rewrite !(proj2 (Z.leb_le _ _)) by lia. done. }
  intros ch r bs' m Hch Hw.
  destruct (v_read u capU Hu (proj1 Hcap) m' c' x ch r bs' m) as (-> & HVm & (Ha & Hvo & Hvt) & Hf & _ & Hmr');
    auto; try apply (ti_v _ HI); try nia.
  rewrite Hch, Hmr in Hmr'. injection Hmr' as <-. split_and!; [done | done |].
  assert (Hbs : bs = rbytes N m0 x n).
  { rewrite mem_read_rbytes_le in Hmr by (rewrite ?length_ring_flat; lia). injection Hmr as <-.
    apply rbytes_ext. intros y Hy. apply Hm0. nia. }
  assert (Hsc : sc (m, (c', g')) = sc (m', (c', g'))) by (unfold sc; cbn [fst snd]; by rewrite Hf).
  assert (HIm : tInv (m, (c', g'))).
  { destruct HI. constructor; auto; rewrite ?Hsc; auto. unfold Mode in *. cbn [fst snd] in *.
    destruct md; [|by rewrite Hf]. unfold latest. by rewrite Ha, Hvo by done. }
  apply (t_silent 0 (m', (c', g')) m c'); auto. cbn [fst snd]. apply HK; auto.
  apply (Sees_step m0 lo hi (m', (c', g'))); auto; cbn [fst]; [by rewrite Hf | by rewrite Hvt].
Qed.

Lemma transfer_consumer {A} (o : orders) (Q : A -> shared * G -> Prop) m0 p lo hi s :
  releases o FHeadPublish = true -> reads_in m0 lo hi p -> wp allowed Inv rely 0 Q p (sc s) -> tInv s ->
  Sees m0 lo hi s -> wwp allowed tInv trely o 0 (fun a s => Q a (sc s)) p s.
Proof.
  intros Hrel. revert lo s. pose proof (cs_unit (ChannelSystem := CS)) as Hu.
  induction p as [a|f k IH|f v k IH|w f e d k IH|f v k IH|f v k IH|off n k IH|off bs k IH|k IH|k IH|];
    intros lo s Hin Hwp HI0 HS0 s' Htr HI; simpl in Hin; try done;
    simpl in Hwp; specialize (Hwp _ (proj1 Htr) (ti_sc _ HI)).
  1: exact Hwp.
  all: pose proof (Sees_stable _ _ _ _ _ HS0 HI0 Htr HI) as HS; clear HS0 HI0 Htr s; pose proof (ti_v _ HI) as HV.
  - destruct f; try done; cbn [wwp].
    + set (m := w_store _ _ _ _ _). assert (Hf : flat m = store FHeadReserve v (flat s'.1)) by apply flat_store.
      eapply transfer_consumer_keep; [done | rewrite Hf; exact Hwp | | | | |].
      { intros. by rewrite Hf, load_store_ne. }
      { simpl. by rewrite fn_lookup_insert_ne. }
      { by apply v_store_other. }
      { intros t' ?. simpl. by rewrite fn_lookup_insert_ne. }
      intros g' HK HI'. apply (IH lo); auto. apply Sees_step; auto. simpl. lia.
    + destruct Hin as (H' & -> & HH' & Hin). rewrite Hrel. eapply transfer_free; [done | exact HS | lia | exact Hwp |].
      intros m g' HK HI' HS'. by apply (IH H').
  - destruct f; try done. destruct Hin as [-> Hin]. destruct Hwp as [Hwf Hws]. cbn [wwp]. split.
    + intros i v m Hl _.
      assert (HL : loads_ok s'.1 (acquires o FHeadReserve) 0 FHeadReserve) by (by right; left).
      eapply t_load_step; [done | exact HL | exact Hl |].
      destruct (t_load _ _ _ _ _ _ _ HI HL Hl) as (HIm & Hsc & _ & Hle & _).
      destruct s' as [m' [c' g']]. apply (IH false lo); auto; [rewrite Hsc; apply Hwf; by right|].
      apply (Sees_step m0 lo hi (m', (c', g'))); auto; [|apply Hle]. by rewrite (flat_load _ _ _ _ _ _ _ Hl).
    + rewrite <- load_flat. intros He. set (m := w_rmw _ _ _ _ _ _).
      assert (Hf : flat m = store FHeadReserve d (flat s'.1)) by apply flat_rmw.
      eapply transfer_consumer_keep; [done | rewrite Hf; exact (Hws He) | | | | |].
      { intros. by rewrite Hf, load_store_ne. }
      { simpl. by rewrite fn_lookup_insert_ne. }
      { by apply v_rmw_other. }
      { intros t' ?. simpl. by rewrite fn_lookup_insert_ne. }
      intros g' HK HI'. apply (IH true lo); auto. apply Sees_step; auto. simpl. lia.
  - destruct f; try done. cbn [wwp]. destruct Hwp as [_ Hwp]. intros i m Hl.
    assert (HL : loads_ok s'.1 (acquires o FHeadPublish) 0 FHeadPublish) by (right; right; apply HV).
    destruct (t_load _ _ _ _ _ _ _ HI HL Hl) as (HIm & Hsc & _ & Hle & Hi & Hil & Hv & _).
    eapply t_load_step; [done | exact HL | exact Hl |]. specialize (Hv eq_refl).
    rewrite (v_latest_head _ _ _ _ 0 i HV) in Hv by (lia || apply HV).
    destruct s' as [m' [c' g']]. apply (IH lo); auto.
    + rewrite Hsc. apply Hwp. rewrite (cs_head _ (ti_sc _ HI)), Hv, (ti_head _ HI). done.
    + apply (Sees_step m0 lo hi (m', (c', g'))); auto; [|apply Hle]. by rewrite (flat_load _ _ _ _ _ _ _ Hl).
  - destruct Hin as (x & -> & Hn & Hx1 & Hx2 & Hx3 & Hin). destruct Hwp as (bs & Hmr & Hwp).
    pose proof (fun K' => transfer_read m0 lo hi x n bs s' K' HI HS Hn Hx1 Hx2 Hx3 Hmr) as Hrd.
    destruct (Hrd (wwp allowed tInv trely o 0 (fun a s => Q a (sc s)) (k bs))) as [Hring Hch].
    { intros m HIm Hsc HSm ->. apply (IH _ lo); auto. by rewrite Hsc. }
    split; [done|]. intros ch r bs' m Hl Hw. by destruct (Hch ch r bs' m Hl Hw) as (-> & -> & ?).
Qed.

(** *** Its loads *)

(** The consumer has seen the tail [T]. *)
Definition SawTail (T : Z) (s : state) : Prop :=
  T ∈ tails s /\ posH s.2.2 <= T <= posT s.2.2 /\
  (vf (w_views s.1 0%nat) FTailPublish < length (tails s))%nat /\
  T <= pos (tails s) (vf (w_views s.1 0%nat) FTailPublish).

Lemma SawTail_stable T s s' : SawTail T s -> tInv s' -> trely 0 s s' -> SawTail T s'.
Proof.
  intros (Hin & Ht & Hb & Hp) HI (Hr & Hv & _ & _ & Hts & _). pose proof (cs_consumer _ _ Hr) as HH. simpl in HH.
  assert (Hin' : T ∈ tails s') by (destruct Hts as [r ->]; apply elem_of_app; by left).
  unfold SawTail. rewrite Hv, HH. destruct (pos_prefix _ _ _ Hts Hb) as [-> Hb']. split_and!; [done | lia | | done | done].
  rewrite <- (ti_tail _ HI). apply list_elem_of_lookup in Hin' as [i Hi].
  apply list_lookup_total_correct in Hi as Hi'. rewrite <- Hi'. apply (mono_top _ i); [apply (ti_v _ HI)|].
  by eapply lookup_lt_Some.
Qed.

Lemma SawTail_view T s m : SawTail T s -> tInv (m, s.2) -> view_le (w_views s.1 0%nat) (w_views m 0%nat) ->
  SawTail T (m, s.2).
Proof.
  intros (Hin & Ht & Hb & Hp) HI (Hle & _ & _). specialize (Hle FTailPublish).
  destruct (v_thread_bound _ _ _ _ 0 (ti_v _ HI)) as [_ Hb']. destruct (v_mono _ _ _ _ (ti_v _ HI)) as [_ Hm].
  pose proof (Hm (vf (w_views s.1 0%nat) FTailPublish) (vf (w_views m 0%nat) FTailPublish)) as Hm'. simpl in *.
  unfold SawTail. simpl. split_and!; auto; lia.
Qed.

Lemma consumer_load_tail {A} o (Q : A -> state -> Prop) k s :
  acquires o FTailPublish = true ->
  (forall s1 m T, trely 0 s s1 -> tInv s1 -> tInv (m, s1.2) -> sc (m, s1.2) = sc s1 -> SawTail T (m, s1.2) ->
     wwp allowed tInv trely o 0 Q (k (u64 T)) (m, s1.2)) ->
  wwp allowed tInv trely o 0 Q (Load FTailPublish k) s.
Proof.
  intros Ho Hk s1 Hr HI i v m L. assert (HL : loads_ok s1.1 (acquires o FTailPublish) 0 FTailPublish) by (by left).
  destruct (t_load _ 0 FTailPublish i v m s1 HI HL L) as (HIm & Hsc & _ & _ & Hi & Hlt & _ & Hv).
  eapply t_load_step; [done | exact HL | exact L |]. rewrite Hv by done. apply Hk; auto.
  pose proof (v_seen_tail _ _ _ _ i (ti_v _ HI) ltac:(lia)) as Ht.
  rewrite (ti_head _ HI), (ti_tail _ HI) in Ht. destruct (v_lengths _ _ _ _ (ti_v _ HI)) as [_ Hl].
  destruct (v_thread_bound _ _ _ _ 0 (ti_v _ HIm)) as [_ Hb].
  unfold SawTail. cbn [fst snd] in *. split_and!; try done; try lia.
  - apply list_elem_of_lookup. exists i. apply list_lookup_lookup_total_lt. simpl. lia.
  - apply (v_mono _ _ _ _ (ti_v _ HIm)). simpl in *. lia.
Qed.

(** Its own counters are known to the consumer. *)
Lemma consumer_load_own {A} o (Q : A -> state -> Prop) f k s :
  f = FHeadPublish \/ f = FHeadReserve ->
  (forall s1 m, trely 0 s s1 -> tInv s1 -> tInv (m, s1.2) -> sc (m, s1.2) = sc s1 ->
     view_le (w_views s1.1 0%nat) (w_views m 0%nat) ->
     wwp allowed tInv trely o 0 Q (k (load f (sc s1).1)) (m, s1.2)) ->
  wwp allowed tInv trely o 0 Q (Load f k) s.
Proof.
  intros Hf Hk s1 Hr HI i v m L. pose proof (ti_v _ HI) as HV.
  assert (HLt : latest s1.1 0 f) by (destruct Hf as [-> | ->]; apply HV).
  assert (HL : loads_ok s1.1 (acquires o f) 0 f) by (by right; right).
  destruct (t_load _ 0 f i v m s1 HI HL L) as (HIm & Hsc & _ & Hle & Hi & Hlt & _).
  eapply t_load_step; [done | exact HL | exact L |].
  assert (Hv : v = load f (sc s1).1).
  { simpl. rewrite load_flat. destruct (newest_lookup s1.1 f (v_wf _ _ _ _ HV)) as (j & Hj & Hjl).
    replace j with i in Hj by (unfold latest in HLt; lia). unfold w_load in L. destruct (_ <=? _)%nat; [|done].
    destruct (w_atoms s1.1 f !! i) as [[x Vm]|]; [|done]. injection L as -> _. injection Hj as Hj. by rewrite <- Hj. }
  rewrite Hv. by apply Hk.
Qed.

Lemma consumer_load_head {A} o (Q : A -> state -> Prop) k s :
  (forall s1 m, trely 0 s s1 -> tInv s1 -> tInv (m, s1.2) -> sc (m, s1.2) = sc s1 ->
     view_le (w_views s1.1 0%nat) (w_views m 0%nat) ->
     wwp allowed tInv trely o 0 Q (k (u64 (posH s1.2.2))) (m, s1.2)) ->
  wwp allowed tInv trely o 0 Q (Load FHeadPublish k) s.
Proof.
  intros Hk. apply consumer_load_own; [by left|]. intros s1 m Hr HI. rewrite (cs_head _ (ti_sc _ HI)). by apply Hk.
Qed.

(** What a consumer does once it has seen the tail [T]. *)
Lemma consumer_rest {A} o (Q : A -> shared * G -> Prop) p T s :
  releases o FHeadPublish = true -> tInv s -> SawTail T s ->
  reads_in (ring (sc s).1) (posH s.2.2) T p ->
  wp allowed Inv rely 0 Q p (sc s) -> wwp allowed tInv trely o 0 (fun a s => Q a (sc s)) p s.
Proof.
  intros Ho HI (_ & _ & Hb & Hp) Hin Hw. eapply transfer_consumer; eauto. unfold Sees.
  split_and!; auto. symmetry. apply (ti_head _ HI).
Qed.

(** ** Time passes *)

Lemma t_tick d m g :
  tInv (m, g) -> Inv (flat (w_tick d m), g.2) -> (forall t, rely t (flat m, g.2) (flat (w_tick d m), g.2)) ->
  tInv (w_tick d m, g) /\ forall t, trely t (m, g) (w_tick d m, g).
Proof.
  intros HI HI' Hr. split.
  - pose proof (cs_ends 0%nat _ _ _ ltac:(lia) (ti_ends _ HI) (ti_sc _ HI) (Hr O) HI') as HE.
    destruct HI. constructor; auto. by apply v_tick.
  - intros t. split; [apply Hr | done].
Qed.
End Transfer.

(** ** A single producer *)

Section Single.
Context {G : Type} {W : Waits G} {u capU : Z} {allowed : shared -> shared -> Prop}
  {Inv : shared * G -> Prop} {rely : nat -> shared * G -> shared * G -> Prop}
  {posH posT : G -> Z} {Ends : list Z -> shared * G -> Prop}
  {CS : ChannelSystem One u capU allowed Inv rely posH posT Ends}.
Abbreviation state := (wmem * (chan * G))%type.
Abbreviation tInv := (tInv (md := One) (u := u) (capU := capU) (Inv := Inv) (posH := posH) (posT := posT) (Ends := Ends)).
Abbreviation trely := (trely (rely := rely)).
Abbreviation wwp := (wwp allowed tInv trely).

(** The producer has seen the head [H], and its claim reaches as far as that allows. *)
Definition SawHead (H : Z) (s : state) : Prop :=
  H <= posH s.2.2 /\ H <= posT s.2.2 <= H + capU /\ H + capU <= (cl s.2.1 1%nat).2.

(** Nobody else moves the tail, and the head only grows. *)
Lemma single_stable s s' : tInv s -> tInv s' -> trely 1 s s' -> posT s'.2.2 = posT s.2.2 /\ posH s.2.2 <= posH s'.2.2.
Proof.
  intros HI HI' (_ & Hv & Hc & Hh & Ht & _). rewrite <- (ti_tail _ HI), <- (ti_tail _ HI'), <- (ti_head _ HI), <- (ti_head _ HI').
  destruct (ti_mode _ HI) as (Hc1 & _). destruct (ti_mode _ HI') as (Hc1' & _). rewrite Hc, Hc1 in Hc1'.
  split; [by injection Hc1'|]. destruct (v_thread_bound _ _ _ _ 0 (ti_v _ HI)) as [Hb _].
  assert (Hlen : (pred (length (hs s.2.1)) < length (hs s.2.1))%nat) by lia.
  destruct (pos_prefix _ _ _ Hh Hlen) as [E Hlen']. pose proof (mono_top _ _ (proj1 (v_mono _ _ _ _ (ti_v _ HI'))) Hlen') as Hm.
  rewrite E in Hm. exact Hm.
Qed.

Lemma SawHead_stable H s s' : SawHead H s -> tInv s -> tInv s' -> trely 1 s s' -> SawHead H s'.
Proof.
  intros (Hh & Ht & Hc) HI HI' Hr. destruct (single_stable _ _ HI HI' Hr) as [HT HH].
  destruct Hr as (_ & _ & Hcl & _). unfold SawHead. rewrite HT, Hcl. split_and!; lia.
Qed.

Lemma producer_load_head {A} o (Q : A -> state -> Prop) k s :
  acquires o FHeadPublish = true ->
  (forall s1 m c H, let s2 := (m, (c, s1.2.2)) in
     trely 1 s s1 -> tInv s1 -> tInv s2 -> sc s2 = sc s1 -> SawHead H s2 -> wwp o 1 Q (k (u64 H)) s2) ->
  wwp o 1 Q (Load FHeadPublish k) s.
Proof.
  intros Ho Hk [m0 [c g]] Hr HI i v m L.
  assert (HL : loads_ok m0 (acquires o FHeadPublish) 1 FHeadPublish) by (by left).
  destruct (t_load _ 1 FHeadPublish i v m _ HI HL L) as (HIm & Hsc & Hvo & Hle & Hi & Hlt & Hv & _).
  specialize (Hv eq_refl). pose proof (ti_v _ HI) as HV. pose proof (ti_v _ HIm) as HVm.
  destruct (ti_mode _ HI) as (_ & _ & Hrv0). destruct (ti_mode _ HIm) as (Hc1 & HLm & Hrv). cbn [fst snd] in *.
  set (R := pos (hs c) (vf (w_views m 1%nat) FHeadPublish) + capU).
  destruct (v_lengths _ _ _ _ HV) as [Hlh _]. rewrite Hlh in Hlt. destruct (v_thread_bound _ _ _ _ 1 HVm) as [Hb _].
  pose proof (proj1 (v_mono _ _ _ _ HV)) as Hmh.
  pose proof (Hmh _ _ (conj (proj1 Hi) Hlt)). pose proof (Hmh _ _ (conj (proj2 Hi) Hb)).
  pose proof (mono_top _ _ Hmh Hlt). pose proof (v_order _ _ _ _ HV) as Hord.
  set (c' := claim 1 (top (ts c)) R c).
  assert (HV' : VInv u capU m c').
  { pose proof (cs_unit (ChannelSystem := CS)). pose proof (cs_cap (ChannelSystem := CS)).
    apply v_claim_units; auto; [lia | unfold R; lia |]. right. rewrite Hc1. by split_and!. }
  assert (HI' : tInv (m, (c', g))).
  { destruct HIm. constructor; auto. cbn [fst snd]. unfold Mode, c'. cbn [claim hs ts rv cl].
    rewrite fn_lookup_insert. by split_and!. }
  apply (t_silent 1 (m0, (c, g)) m c'); auto; [intros t' ?; simpl; by rewrite fn_lookup_insert_ne|].
  rewrite Hv. apply (Hk (m0, (c, g)) m c'); auto.
  pose proof (ti_head _ HI) as HhT. pose proof (ti_tail _ HI) as HtT. cbn [fst snd] in *.
  unfold SawHead. cbn [fst snd]. unfold c'. cbn [claim cl]. rewrite fn_lookup_insert. simpl. unfold R. split_and!; lia.
Qed.

Lemma producer_load_tail {A} o (Q : A -> state -> Prop) k s :
  (forall s1 m, trely 1 s s1 -> tInv s1 -> tInv (m, s1.2) -> sc (m, s1.2) = sc s1 ->
     wwp o 1 Q (k (u64 (posT s1.2.2))) (m, s1.2)) ->
  wwp o 1 Q (Load FTailPublish k) s.
Proof.
  intros Hk s1 Hr HI i v m L. destruct (ti_mode _ HI) as (_ & HLt & _).
  assert (HL : loads_ok s1.1 (acquires o FTailPublish) 1 FTailPublish) by (by right; right).
  destruct (t_load _ 1 FTailPublish i v m s1 HI HL L) as (HIm & Hsc & _ & _ & Hi & Hlt & _ & Hv).
  eapply t_load_step; [done | exact HL | exact L |].
  rewrite Hv, (v_latest_tail _ _ _ _ 1 i (ti_v _ HI) HLt), (ti_tail _ HI) by (done || lia). by apply Hk.
Qed.

(** What the producer does once it has seen the head [H]. *)
Lemma producer_rest {A} o (Q : A -> shared * G -> Prop) p H s :
  releases o FTailPublish = true -> tInv s -> SawHead H s ->
  writes_in (md := One) (u := u) (capU := capU) true (posT s.2.2) (H + capU) p ->
  wp allowed Inv rely 1 Q p (sc s) -> wwp o 1 (fun a s => Q a (sc s)) p s.
Proof.
  intros Ho HI (_ & _ & Hc) Hin Hw. eapply transfer_producer; eauto; [done | | by intros; left].
  destruct (ti_mode _ HI) as (-> & _). apply (ti_tail _ HI).
Qed.
(** A fresh object: the producer may fill all of it. *)
Lemma single_fresh s g :
  load FHeadPublish s = 0 -> load FTailPublish s = 0 -> Inv (s, g) -> posH g = 0 -> posT g = 0 -> Ends [0] (s, g) ->
  tInv (wmem_of s, (fresh_chan capU, g)).
Proof.
  intros Hh Ht HI HH HT HE. pose proof (cs_unit (ChannelSystem := CS)). pose proof (cs_cap (ChannelSystem := CS)).
  constructor; unfold sc; cbn [fst snd]; rewrite ?flat_of; auto.
  - apply v_fresh; auto; [apply (cs_len _ HI) | lia].
  - split_and!; [done | unfold latest; simpl; lia | done].
Qed.
End Single.
