(* ===== verification/WeakQueue.v ===== *)
(** * [SPSCQueue] with the memory orders of the source

    The operations of [SpscQueue] on the release/acquire memory of [WeakMemory], with
    the memory orders that spsc_queue.hpp gives to each access: the queue has no data
    race and delivers the same values as under sequential consistency, and each of
    the four orders that it asks for is needed. *)

From Stdlib Require Import ZArith Lia Strings.Byte.
From stdpp Require Import base list numbers gmap functions.
From S2P Require Import Prelude Memory Layout Prog SpscQueue WeakMemory WeakChannel WeakTransfer.

(** The order of every load and store; the queue has no read-modify-write. *)
Definition queue_orders (o : qop) : orders :=
  match o with
  | QPush _ => Orders (only [FHeadPublish]) (only [FTailPublish]) (only []) (only [])
  | QPop _ => Orders (only [FTailPublish]) (only [FHeadPublish]) (only []) (only [])
  | QSize => Orders (only [FTailPublish; FHeadPublish]) (only []) (only []) (only [])
  end.

Section Queue.
Context (sz k : Z).
Abbreviation Cap := (2 ^ k).
Context (Hsz : 0 < sz) (Hk : 0 <= k) (Hmem : Cap * sz < 2 ^ 62).
Abbreviation any := (fun _ _ : shared => True).
Abbreviation qInv := (qInv sz k).
Abbreviation posH := (fun g => Z.of_nat (qH g)).
Abbreviation posT := (fun g => Z.of_nat (length (qpub g))).
Abbreviation Ends := (fun (_ : list Z) (_ : shared * qghost) => True).

#[local] Instance wq_rely_pre t : PreOrder (qrely t) := qrely_pre k Hk t.

(** The place of byte [i] of slot [j]. *)
Lemma slot_pos j i : 0 <= i < sz -> (j * sz + i) mod (Cap * sz) = slot_at sz k j + i.
Proof.
  intros Hi. pose proof (Cap_pos k Hk). unfold slot_at.
  pose proof (Z.mod_pos_bound j Cap ltac:(lia)). pose proof (Z.div_mod j Cap ltac:(lia)) as E.
  symmetry. apply Z.mod_unique_pos with (j / Cap); nia.
Qed.

(** The bytes of the queued values stay. *)
Lemma queued_bytes s s' x :
  qInv s -> qconsumer_rely s s' -> qInv s' ->
  Z.of_nat (qH s.2) * sz <= x < Z.of_nat (length (qpub s.2)) * sz ->
  rbyte (Cap * sz) (ring s'.1) x = rbyte (Cap * sz) (ring s.1) x.
Proof.
  intros HI [Hh Hp] HI' Hx. pose proof (Z.div_mod x sz ltac:(lia)) as E.
  pose proof (Z.mod_pos_bound x sz Hsz) as Hm. set (j := x / sz) in *. set (i := x mod sz) in *.
  unfold rbyte. replace x with (j * sz + i) by lia. rewrite slot_pos by done.
  assert (Hj : Z.of_nat (qH s.2) <= j < Z.of_nat (length (qpub s.2))) by nia.
  destruct (lookup_lt_is_Some_2 (qpub s.2) (Z.to_nat j)) as [v Hv]; [lia|].
  destruct (qi_slots _ _ _ HI (Z.to_nat j) v ltac:(lia) Hv) as [_ Hc].
  destruct (qi_slots _ _ _ HI' (Z.to_nat j) v) as [_ Hc']; [lia | by eapply prefix_lookup_Some|].
  rewrite Z2Nat.id in Hc, Hc' by lia. by rewrite Hc, Hc'.
Qed.

#[local] Instance queue_system : ChannelSystem One sz Cap any qInv qrely posH posT Ends.
Proof.
  pose proof (Cap_pos k Hk). pose proof (Cap_lt sz k Hsz Hk Hmem). split.
  - done.
  - lia.
  - apply _.
  - apply qi_len.
  - apply qi_head.
  - apply qi_tail.
  - intros s HI. destruct (qi_pos _ _ _ HI). lia.
  - done.
  - intros s s' [-> _]. done.
  - intros s s' x HI Hr HI' Hx. by apply queued_bytes.
  - intros s s' (-> & ? & _) _ _ _. lia.
  - done.
  - done.
Qed.

(** ** The bytes of a call *)

Lemma fill_writes {A} turn T hi v i bs (p : prog A) :
  drop i v = bs -> Z.of_nat (length v) = sz -> T + 1 <= hi -> writes_in (md := One) (u := sz) (capU := Cap) turn T hi p ->
  writes_in (md := One) (u := sz) (capU := Cap) turn T hi (memcpy_to (slot_at sz k T + Z.of_nat i) bs p).
Proof.
  intros Hd Hv Hhi Hp. revert i Hd. induction bs as [|b bs IH]; intros i Hd; [done|].
  assert (Hi : (i < length v)%nat).
  { destruct (decide (i < length v)%nat); [done|]. rewrite drop_ge in Hd by lia. done. }
  pose proof (slot_range sz k Hsz Hk T (Z.of_nat i) ltac:(lia)) as [? ?].
  split.
  - exists (T * sz + Z.of_nat i). rewrite slot_pos by lia. simpl length. split_and!; nia.
  - replace (slot_at sz k T + Z.of_nat i + 1) with (slot_at sz k T + Z.of_nat (S i)) by lia.
    apply IH. by rewrite <- Nat.add_1_r, <- drop_drop, Hd.
Qed.

Lemma push_slot_writes v T h : Z.of_nat (length v) = sz -> 0 <= T -> h <= T <= h + Cap ->
  writes_in (md := One) (u := sz) (capU := Cap) true T (h + Cap) (push_slot sz Cap v (u64 T) (u64 h)).
Proof.
  intros Hv HT Hd. pose proof (Cap_lt sz k Hsz Hk Hmem). unfold push_slot.
  rewrite sub64_u64, Z.geb_leb by lia. case_if; [done|].
  rewrite slot_offset, take_ge by (done || lia). rewrite <- (Z.add_0_r (slot_at sz k T)).
  apply (fill_writes true T _ v 0); [done | done | lia |].
  split; [by left|]. exists (T + 1). rewrite add64_u64. split_and!; done || lia.
Qed.

Lemma read_slot {A} m0 H T i n (p : list byte -> prog A) :
  H < T -> (i + n)%nat = Z.to_nat sz -> (forall bs, reads_in (u := sz) (capU := Cap) m0 H T (p bs)) ->
  reads_in (u := sz) (capU := Cap) m0 H T (memcpy_from (slot_at sz k H + Z.of_nat i) n p).
Proof.
  intros HT. revert i p. induction n as [|n IH]; intros i p Hn Hp; [apply Hp|].
  pose proof (slot_range sz k Hsz Hk H (Z.of_nat i) ltac:(lia)) as [? ?].
  exists (H * sz + Z.of_nat i). rewrite slot_pos by lia. split_and!; [done | lia | lia | nia | lia |].
  replace (slot_at sz k H + Z.of_nat i + 1) with (slot_at sz k H + Z.of_nat (S i)) by lia.
  apply IH; [lia|]. intros bs. apply Hp.
Qed.

Lemma pop_slot_reads m0 out H T : 0 <= H -> H <= T ->
  reads_in (u := sz) (capU := Cap) m0 H T (pop_slot sz Cap out (u64 H) (u64 T)).
Proof.
  intros HH HT. unfold pop_slot. case_if; [done|].
  assert (H < T) by (destruct (decide (H = T)) as [->|]; [done | lia]).
  rewrite slot_offset by (done || lia). rewrite <- (Z.add_0_r (slot_at sz k H)).
  apply (read_slot m0 H T 0); [done | lia |]. intros bs. exists (H + 1). rewrite add64_u64. split_and!; done || lia.
Qed.

(** ** The calls *)

Abbreviation WInv := (tInv (md := One) (u := sz) (capU := Cap) (Inv := qInv) (posH := posH) (posT := posT) (Ends := Ends)).
Abbreviation wrely := (trely (rely := qrely)).
Abbreviation wwp o t Q := (wwp any WInv wrely o t (fun a s => Q a (sc s))).

Lemma queue_push_weak v s (Q : option bool -> shared * qghost -> Prop) :
  Z.of_nat (length v) = sz -> WInv s ->
  (forall s', qInv s' -> qpub s'.2 = qpub (sc s).2 -> Q (Some false) s') ->
  (forall s', qInv s' -> qpub s'.2 = qpub (sc s).2 ++ [v] -> Q (Some true) s') ->
  wwp (queue_orders (QPush v)) 1 Q (try_push sz Cap v) s.
Proof.
  intros Hv HI Hf Ht. unfold try_push.
  apply producer_load_tail. intros s1 m1 [(Hp1 & _) _] HI1 HIm1 Hsc1.
  apply producer_load_head; [done|]. intros s2 m2 c2 H s3 [Hr2 _] HI2 HI3 Hsc2 HS2.
  rewrite Hsc1 in Hr2. destruct Hr2 as (Hp2 & _). simpl in Hp2. cbv beta. rewrite <- Hp2.
  pose proof HS2 as (HH & HT & _). simpl in HH, HT.
  eapply (producer_rest _ _ _ H); auto; [apply push_slot_writes; simpl; auto; lia|].
  rewrite Hsc2. apply (push_slot_wp sz k Hsz Hk Hmem v H (sc s2)); auto; [apply HI2 | |]; intros s' HI' _ Hp'; [intros _; apply Hf | apply Ht];
    try done; simpl in *; congruence.
Qed.

Lemma queue_pop_weak out s (Q : option (bool * list byte) -> shared * qghost -> Prop) :
  WInv s ->
  (forall s', qInv s' -> take (qH s'.2) (qpub s'.2) = take (qH (sc s).2) (qpub (sc s).2) -> Q (Some (false, out)) s') ->
  (forall s' v, qInv s' -> take (qH s'.2) (qpub s'.2) = take (qH (sc s).2) (qpub (sc s).2) ++ [v] ->
     Q (Some (true, v)) s') ->
  wwp (queue_orders (QPop out)) 0 Q (try_pop sz Cap out) s.
Proof.
  intros HI Hf Ht. unfold try_pop. destruct (qi_pos _ _ _ (ti_sc _ HI)) as [Hp0 _].
  apply consumer_load_head. intros s1 m1 [Hr1 _] HI1 HIm1 Hsc1 _.
  apply consumer_load_tail; [done|]. intros s2 m2 T [Hr2 _] HI2 HIm2 Hsc2 HS2.
  rewrite Hsc1 in Hr2. pose proof (transitivity (R := qrely 0) Hr1 Hr2) as Hr.
  assert (Hsame : take (qH (sc s2).2) (qpub (sc s2).2) = take (qH (sc s).2) (qpub (sc s).2)).
  { destruct Hr as [-> [l ->]]. by rewrite take_app_le. }
  destruct Hr2 as [Hh2 _]. simpl in Hh2. cbv beta. rewrite <- Hh2.
  pose proof HS2 as (_ & HT & _). simpl in HT.
  eapply (consumer_rest _ _ _ T); auto; [apply pop_slot_reads; simpl; lia|].
  rewrite Hsc2. apply (pop_slot_wp sz k Hsz Hk Hmem out T (sc s2)); auto; [apply HI2 | |]; rewrite Hsame; auto.
Qed.

Lemma queue_size_weak t s (Q : option Z -> shared * qghost -> Prop) :
  (t < 2)%nat -> WInv s -> (forall s' n, qInv s' -> qrely t (sc s) s' -> 0 <= n <= Cap -> Q (Some n) s') ->
  wwp (queue_orders QSize) t Q size s.
Proof.
  intros Ht HI HQ. pose proof (Cap_lt sz k Hsz Hk Hmem). unfold size. destruct t as [|[|t]]; [| |lia].
  - apply consumer_load_tail; [done|]. intros s1 m1 T [Hr1 _] HI1 HIm1 Hsc1 HS1.
    apply consumer_load_head. intros s2 m2 Hr2 HI2 HIm2 Hsc2 _.
    destruct (SawTail_stable _ _ _ HS1 HI2 Hr2) as (_ & HT & _). destruct Hr2 as [Hr2 _]. rewrite Hsc1 in Hr2.
    destruct (qi_pos _ _ _ (ti_sc _ HI2)) as [_ Hc]. simpl in HT, Hc. rewrite sub64_u64 by lia.
    apply transfer_ret. rewrite Hsc2. intros s3 Hr3 HI3. apply HQ; [done | | lia].
    by do 2 (etransitivity; [eassumption|]).
  - apply producer_load_tail. intros s1 m1 [Hr1 _] HI1 HIm1 Hsc1.
    apply producer_load_head; [done|]. intros s2 m2 c2 h s3 [Hr2 _] HI2 HIm2 Hsc2 (_ & HT & _).
    rewrite Hsc1 in Hr2. pose proof (proj1 Hr2) as Hp. simpl in HT, Hp. rewrite Hp in HT. rewrite sub64_u64 by lia.
    apply transfer_ret. rewrite Hsc2. intros s4 Hr4 HI4. apply HQ; [done | | lia].
    by do 2 (etransitivity; [eassumption|]).
Qed.

(** ** All executions *)

Definition wP (t : nat) (l : list (qop * qres)) (s : wmem * (chan * qghost)) : Prop :=
  let g := (sc s).2 in
  Forall (fun n => 0 <= n <= Cap) (qsizes l) /\
  match t with
  | O => (qH g <= length (qpub g))%nat /\ take (qH g) (qpub g) = qpopped l
  | 1%nat => qpub g = qpushed l
  | _ => True
  end.

Lemma wP_stable t l s s' : wP t l s -> wrely t s s' -> WInv s' -> wP t l s'.
Proof.
  intros [Hs HP] [Hr _] _. split; [done|]. destruct t as [|[|t]]; [| |done].
  - destruct HP as [? ?], Hr as [-> [r ->]]. rewrite length_app, take_app_le by done. split; [lia | done].
  - destruct Hr as (-> & _). done.
Qed.

Lemma wqueue_body_ok t o l s :
  qrole sz t o = true -> wP t l s -> WInv s ->
  WeakMemory.wwp any WInv wrely (queue_orders o) t (wpost wP t o l) (qbody sz Cap o) s.
Proof.
  intros Hrole [Hs HP] HI. destruct o as [v|out|]; unfold qbody; apply wwp_pmap.
  - destruct t as [|[|t]]; try done. simpl in Hrole. apply Z.eqb_eq in Hrole.
    eapply wwp_mono; [|apply (queue_push_weak v s (fun r s' => r = Some false /\ qpub s'.2 = qpub (sc s).2 \/
      r = Some true /\ qpub s'.2 = qpub (sc s).2 ++ [v])); auto].
    intros r s' [[-> Hp]|[-> Hp]]; unfold wpost, wP; simpl option_map; cbv iota zeta; rewrite Hp.
    + destruct (q_histories l (QPush v) (QPushed false)) as (-> & -> & _). simpl. by rewrite !app_nil_r.
    + destruct (q_histories l (QPush v) (QPushed true)) as (-> & -> & _). simpl. rewrite app_nil_r.
      split; [done|]. simpl in HP. by rewrite HP.
  - destruct t as [|[|t]]; try done. destruct HP as [_ HP].
    eapply wwp_mono; [|apply (queue_pop_weak out s (fun r s' => (qH s'.2 <= length (qpub s'.2))%nat /\
      (r = Some (false, out) /\ take (qH s'.2) (qpub s'.2) = qpopped l \/
       exists v, r = Some (true, v) /\ take (qH s'.2) (qpub s'.2) = qpopped l ++ [v]))); auto;
      [intros s' HI' -> | intros s' v HI' ->]; rewrite HP; split; [apply HI' | by left | apply HI' | right; eauto]].
    intros r s' [Hl [[-> Hp]|(v & -> & Hp)]]; unfold wpost, wP; simpl option_map; cbv iota zeta; rewrite Hp.
    + destruct (q_histories l (QPop out) (QPopped false out)) as (-> & _ & ->). simpl. by rewrite !app_nil_r.
    + destruct (q_histories l (QPop out) (QPopped true v)) as (-> & _ & ->). simpl. by rewrite app_nil_r.
  - assert (Ht : (t < 2)%nat) by (destruct t as [|[|t]]; [lia | lia | done]).
    eapply wwp_mono; [|apply (queue_size_weak t s (fun r s' => exists n, r = Some n /\ qrely t (sc s) s' /\ 0 <= n <= Cap));
      auto; intros; eauto].
    intros r s' (n & -> & Hr & Hn). unfold wpost, wP. simpl option_map. cbv iota zeta.
    destruct (q_histories l QSize (QSized n)) as (-> & -> & ->). simpl qsizes. simpl qpushed. simpl qpopped.
    rewrite !app_nil_r. split; [apply Forall_app; by auto|]. destruct t as [|[|t]]; [| |lia].
    + destruct HP as [? ?], Hr as [-> [r ->]]. rewrite length_app, take_app_le by done. split; [lia | done].
    + destruct Hr as (-> & _). done.
Qed.

Lemma wqueue_tick_ok d m g : 0 <= d -> True -> WInv (m, g) ->
  WInv (w_tick d m, g) /\ forall t, wrely t (m, g) (w_tick d m, g).
Proof.
  intros Hd _ HI. destruct (qtick_ok sz k d (flat m) g.2 Hd I (ti_sc _ HI)) as [HI' Hr]. by apply t_tick.
Qed.

Lemma wqueue_reach s c :
  qfresh sz k s -> wreach (qbody sz Cap) queue_orders (qrole sz) any s c ->
  exists g, wconfig_ok queue_orders (qrole sz) any WInv wrely wP c g.
Proof.
  intros Hf Hr. assert (Hctl := proj1 Hf).
  apply (wrg_sound (qbody sz Cap) queue_orders (qrole sz) any WInv wrely wP wP_stable wqueue_body_ok wqueue_tick_ok
    s (fresh_chan Cap, mkQ 0 [])); [| |exact Hr].
  - apply single_fresh; try done; [unfold load; by rewrite Hctl | unfold load; by rewrite Hctl | by apply qfresh_Inv].
  - intros [|[|t]]; by split_and!.
Qed.
End Queue.

(** C14: [SPSCQueue] with the memory orders of the source, on release/acquire memory.
    In every execution of one producer and one consumer on a fresh queue with a
    power-of-two capacity, loads returning stale values wherever C++ allows it: no
    access to a slot is a data race or out of bounds; the values popped are, in order
    and byte for byte, a prefix of the values pushed, at most [Capacity] behind; and
    [size] as seen by either end is at most [Capacity]. *)
Theorem spsc_queue_weak sz k s c :
  0 < sz -> 0 <= k -> 2 ^ k * sz < 2 ^ 62 -> qfresh sz k s ->
  wreach (qbody sz (2 ^ k)) queue_orders (qrole sz) (fun _ _ => True) s c ->
  wc_race c = false /\ wc_fault c = false /\
  exists pub n, (n <= length pub)%nat /\ Z.of_nat (length pub - n) <= 2 ^ k /\
    (wc_thr c !! 1%nat = None -> qpushed (tlog 1 (wc_log c)) = pub) /\
    (wc_thr c !! O = None -> qpopped (tlog 0 (wc_log c)) = take n pub) /\
    forall t, wc_thr c !! t = None -> Forall (fun n => 0 <= n <= 2 ^ k) (qsizes (tlog t (wc_log c))).
Proof.
  intros Hsz Hk Hm Hf Hr. destruct (wqueue_reach sz k Hsz Hk Hm s c Hf Hr) as (g & Hfl & Hra & HI & Ht).
  split_and!; [done | done |]. destruct (qi_pos _ _ _ (ti_sc _ HI)) as [? ?]. simpl in *.
  exists (qpub g.2), (qH g.2). split_and!; [done | lia | | |].
  - intros Hidle. specialize (Ht 1%nat). rewrite Hidle in Ht. by destruct Ht as (_ & <-).
  - intros Hidle. specialize (Ht O). rewrite Hidle in Ht. by destruct Ht as (_ & _ & <-).
  - intros t Hidle. specialize (Ht t). rewrite Hidle in Ht. by destruct Ht.
Qed.

(** Both ends fill and drain a queue of one slot; the consumer's last load of the
    tail returns a stale value, and so does the producer's last load of the head. *)
Definition wstep (t i : nat) : @wact qop := WStep t [i] false.
Definition wdemo : list wact :=
  [WStart 1 (QPush [x01])] ++ [wstep 1 0; wstep 1 0; WStep 1 [] false; WStep 1 [] false; WStep 1 [] false] ++
  [WStart 0 (QPop [])] ++ [wstep 0 0; wstep 0 1; wstep 0 1; WStep 0 [] false; WStep 0 [] false] ++
  [WStart 1 (QPush [x02])] ++ [wstep 1 1; wstep 1 0; WStep 1 [] false] ++
  [WStart 0 (QPop [])] ++ [wstep 0 1; wstep 0 1; WStep 0 [] false].

Definition slot_mem : shared := mkShared (mkControl 0 0 0 0 0) [x00] 0.

Lemma spsc_queue_weak_witness :
  let c := wafter (qbody 1 1) queue_orders (qrole 1) wdemo (winit slot_mem) in
  wc_log c = [(1%nat, (QPush [x01], QPushed true)); (0%nat, (QPop [], QPopped true [x01]));
              (1%nat, (QPush [x02], QPushed false)); (0%nat, (QPop [], QPopped false []))] /\
  wc_race c = false /\ wc_fault c = false /\
  exists pub n, (n <= length pub)%nat /\ Z.of_nat (length pub - n) <= 2 ^ 0 /\
    (wc_thr c !! 1%nat = None -> qpushed (tlog 1 (wc_log c)) = pub) /\
    (wc_thr c !! O = None -> qpopped (tlog 0 (wc_log c)) = take n pub) /\
    forall t, wc_thr c !! t = None -> Forall (fun n => 0 <= n <= 2 ^ 0) (qsizes (tlog t (wc_log c))).
Proof.
  intros c. split; [vm_compute; reflexivity|].
  apply (spsc_queue_weak 1 0 slot_mem c); [lia | lia | lia | by split |].
  apply (wrun_checked_after _ _ _ _ (fun _ _ => true)); [done | vm_compute; reflexivity].
Defined.

(** ** Every order is needed *)

(** The orders of the source, where the acquire and the release of a push and of a
    pop are kept or relaxed. *)
Definition keep_if (b : bool) (ord : field -> bool) : field -> bool := if b then ord else only [].

Definition weakened (push_acquire push_release pop_acquire pop_release : bool) (o : qop) : orders :=
  let '(Orders a r ra rr) := queue_orders o in
  match o with
  | QPush _ => Orders (keep_if push_acquire a) (keep_if push_release r) ra rr
  | QPop _ => Orders (keep_if pop_acquire a) (keep_if pop_release r) ra rr
  | QSize => Orders a r ra rr
  end.

(** No execution of one producer and one consumer on any fresh queue has a data
    race. *)
Definition race_free (ord : qop -> orders) : Prop :=
  forall sz k s c, 0 < sz -> 0 <= k -> 2 ^ k * sz < 2 ^ 62 -> qfresh sz k s ->
    wreach (qbody sz (2 ^ k)) ord (qrole sz) (fun _ _ => True) s c -> wc_race c = false.

Lemma source_race_free : race_free queue_orders.
Proof. intros sz k s c Hsz Hk Hm Hf Hr. by destruct (wqueue_reach sz k Hsz Hk Hm s c Hf Hr) as (g & _ & ? & _). Qed.

(** A push and a pop that reads the slot as it was before the push. *)
Definition early_read : list (@wact qop) :=
  [WStart 1 (QPush [x01])] ++ [wstep 1 0; wstep 1 0; WStep 1 [] false; WStep 1 [] false; WStep 1 [] false] ++
  [WStart 0 (QPop [])] ++ [wstep 0 0; wstep 0 1; wstep 0 0; WStep 0 [] false; WStep 0 [] false].

(** A push and a pop, and another push that reuses the slot. *)
Definition early_reuse : list (@wact qop) :=
  [WStart 1 (QPush [x01])] ++ [wstep 1 0; wstep 1 0; WStep 1 [] false; WStep 1 [] false; WStep 1 [] false] ++
  [WStart 0 (QPop [])] ++ [wstep 0 0; wstep 0 1; wstep 0 1; WStep 0 [] false; WStep 0 [] false] ++
  [WStart 1 (QPush [x02])] ++ [wstep 1 1; wstep 1 1; WStep 1 [] false].

(** The end of a schedule on a queue of one slot of one byte. *)
Definition slot_run (ord : qop -> orders) (acts : list (@wact qop)) : @wconfig qop qres :=
  wafter (qbody 1 1) ord (qrole 1) acts (winit slot_mem).

Lemma slot_reach ord acts :
  wrun_checked (qbody 1 1) ord (qrole 1) (fun _ _ => true) acts (winit slot_mem) = true ->
  wreach (qbody 1 1) ord (qrole 1) (fun _ _ => True) slot_mem (slot_run ord acts).
Proof. intros H. by apply (wrun_checked_after _ _ _ _ (fun _ _ => true)). Qed.

Lemma racing ord acts :
  wrun_checked (qbody 1 1) ord (qrole 1) (fun _ _ => true) acts (winit slot_mem) = true ->
  wc_race (slot_run ord acts) = true -> ~ race_free ord.
Proof.
  intros Hc Hr Hf. pose proof (Hf 1 0 slot_mem _ ltac:(lia) ltac:(lia) ltac:(lia) ltac:(by split) (slot_reach _ _ Hc)).
  congruence.
Qed.

(** C31: the orders of the source are what [SPSCQueue] needs.  Keep or relax, in every
    combination, the acquire and the release of [try_push] and those of [try_pop]:
    the queue is free of data races exactly when all four are kept.  Without the
    release of the tail by a push, or without its acquire by a pop, there is moreover
    an execution whose pop returns a value that nobody pushed. *)
Theorem queue_orders_needed push_acquire push_release pop_acquire pop_release :
  let ord := weakened push_acquire push_release pop_acquire pop_release in
  (race_free ord <-> push_acquire && push_release && pop_acquire && pop_release = true) /\
  (push_release && pop_acquire = false ->
   exists c, wreach (qbody 1 1) ord (qrole 1) (fun _ _ => True) slot_mem c /\
     wc_thr c = ∅ /\ qpushed (tlog 1 (wc_log c)) = [[x01]] /\ qpopped (tlog 0 (wc_log c)) = [[x00]]).
Proof.
  intros ord. split; [split|].
  - intros Hf. destruct push_release, pop_acquire, push_acquire, pop_release; try done; exfalso; revert Hf;
      first [ apply (racing _ early_read); vm_compute; reflexivity
            | apply (racing _ early_reuse); vm_compute; reflexivity ].
  - intros (((-> & ->)%andb_prop & ->)%andb_prop & ->)%andb_prop sz k s c Hsz Hk Hm Hf Hr.
    apply (source_race_free sz k s c Hsz Hk Hm Hf). eapply wreach_ext; [|exact Hr]. by intros [].
  - intros Hb. exists (slot_run ord early_read). split.
    + apply slot_reach. destruct push_release, pop_acquire, push_acquire, pop_release; try done; vm_compute; reflexivity.
    + destruct push_release, pop_acquire, push_acquire, pop_release; try done; split_and!; vm_compute; reflexivity.
Qed.
