(* ===== verification/WeakRing.v ===== *)
(** * [SharedRingBufferSPSC] with the memory orders of the source

    The operations of [SpscRing] on the release/acquire memory of [WeakMemory], with
    the memory orders of shared_ring_buffer_spsc.cpp.  The proof under sequential
    consistency is reused ([WeakTransfer]); what is shown here is which bytes each
    call touches, and that a tail that the consumer has seen, however old, is the end
    of a record. *)

From Stdlib Require Import ZArith Lia Strings.Byte.
From stdpp Require Import base list numbers gmap functions.
From S2P Require Import Prelude Memory Layout Prog Records Owner SpscRing WeakMemory WeakChannel WeakTransfer.

(** The order of every load and store; the read-modify-write of sequence is relaxed. *)
Definition ring_orders (o : op) : orders :=
  match o with
  | OPush _ _ _ => Orders (only [FHeadPublish]) (only [FTailPublish]) (only []) (only [])
  | OPop _ _ _ => Orders (only [FTailPublish]) (only [FHeadPublish]) (only []) (only [])
  end.

Section Ring.
Context (cap : Z) (Hcap : cap_ok cap).
Abbreviation no_wrap := (no_wrap cap).
Abbreviation Inv := (Inv cap).
Abbreviation rely := (rely cap).

(** Every position of the tail that the head has not passed ends a record. *)
Definition Ends (l : list Z) (s : shared * ghost) : Prop :=
  Forall (fun T => T <= gT s.2 /\ (gH s.2 <= T -> exists xs, seg cap (ring s.1) (gH s.2) T xs)) l.

#[local] Instance spsc_system : ChannelSystem One 1 cap no_wrap Inv rely gH gT Ends.
Proof.
  pose proof (proj1 Hcap). split.
  - lia.
  - lia.
  - intros t. apply spsc_rely_pre.
  - intros s HI. pose proof (i_len _ _ HI). lia.
  - intros s HI. apply HI.
  - intros s HI. apply HI.
  - intros s HI. pose proof (i_pos _ _ HI). lia.
  - done.
  - intros s s' (HH & _). done.
  - intros s s' x _ (_ & _ & _ & _ & _ & Hb) _ Hx. rewrite !Z.mul_1_r in *. apply Hb. lia.
  - intros s s' (_ & HT & _ & _ & HH & _) _ _ _. done.
  - intros t l s s' Ht HE HI Hr HI'. eapply Forall_impl; [|exact HE]. intros T [HT Hs]. cbv beta.
    destruct t as [|[|t]]; [| |lia].
    + destruct Hr as (HH & _ & ? & _ & _ & Hb). rewrite HH. split; [lia|]. intros Hle.
      destruct (Hs Hle) as [xs Hx]. exists xs. eapply seg_ext; [done | done |]. intros y Hy. apply Hb. lia.
    + destruct Hr as (Hrg & HT' & _ & _ & HH & ys & Hy). rewrite HT', Hrg. split; [done|]. intros Hle.
      destruct (Hs ltac:(lia)) as [xs Hx]. by eapply seg_suffix.
  - intros l s HE HI. apply Forall_app. split; [done|]. apply Forall_singleton. split; [done|]. intros _.
    destruct (i_seg _ _ HI) as (xs & Hx & _). eauto.
Qed.

(** ** The bytes of a push *)

(** A stretch of [n] bytes at position [a] of a claim from [lo] to [hi]. *)
Section Stretch.
Context {md : producers} {turn : bool} (lo hi a n : Z).
Context (Hn : 0 <= n <= room cap a) (Hlo : lo <= a) (Hhi : a + n <= hi).
Abbreviation writes_in := (writes_in (md := md) (u := 1) (capU := cap) turn lo hi).

Lemma stretch_write {A} o bs (k : prog A) :
  bs <> [] -> 0 <= o -> o + Z.of_nat (length bs) <= n -> writes_in k ->
  writes_in (Write (a mod cap + o) bs k).
Proof.
  intros Hbs Ho Hl Hk. split; [|done]. destruct (stretch_pos (n := n) Hcap Hn o bs) as [Hp Hq]; auto.
  exists (a + o). rewrite !Z.mul_1_r, Hp in *. split_and!; lia.
Qed.

Lemma stretch_memcpy {A} o bs (k : prog A) :
  0 <= o -> o + Z.of_nat (length bs) <= n -> writes_in k -> writes_in (memcpy_to (a mod cap + o) bs k).
Proof.
  intros Ho Hl Hk. revert o Ho Hl. induction bs as [|b bs IH]; intros o Ho Hl; [done|]. simpl in Hl.
  apply (stretch_write o [b]); [done | done | simpl; lia |].
  replace (a mod cap + o + 1) with (a mod cap + (o + 1)) by lia. apply IH; lia.
Qed.

Lemma stretch_header {A} h (k : prog A) :
  sizeof_RecordHeader <= n -> writes_in k -> writes_in (write_header (a mod cap) h k).
Proof.
  unfold sizeof_RecordHeader. intros Hh Hk.
  unfold write_header, write_uint, off_size, off_type, off_flags, off_sequence.
  by repeat (apply stretch_write; [done | done | rewrite length_le_enc; lia |]).
Qed.

(** The payload of a push, if there is one. *)
Lemma stretch_payload {A} data size (k : prog A) :
  0 <= size -> (data = None -> size = 0) -> Z.of_nat (length (push_payload data size)) = size ->
  sizeof_RecordHeader + size <= n -> writes_in k ->
  writes_in (if size >? 0 then memcpy_in (a mod cap + sizeof_RecordHeader) data size k else k).
Proof.
  intros Hsz Hnull Hpay Hle Hk. case_if; [|done]. destruct data as [bs|]; [|specialize (Hnull eq_refl); lia].
  unfold memcpy_in. simpl push_payload in Hpay. rewrite length_take in Hpay. case_if; [|lia].
  apply stretch_memcpy; [done | rewrite length_take; lia | done].
Qed.
End Stretch.

(** A single producer publishes a stretch at its tail. *)
Lemma stretch_publish {A} T hi n d (r : A) : 0 <= d <= n -> T + n <= hi ->
  writes_in (md := One) (u := 1) (capU := cap) true T hi
    (Store FTailReserve (add64 (u64 T) d) (Store FTailPublish (add64 (u64 T) d) (Ret r))).
Proof. intros Hd Hhi. simpl. rewrite add64_u64. split_and!; auto. exists (T + d). split_and!; auto; lia. Qed.

Lemma push_rest_writes data size type H T :
  push_args_ok data size type = true -> (data = None -> size = 0) -> record_size size <= cap ->
  0 <= T -> H <= T <= H + cap -> idx_ok cap T ->
  writes_in (md := One) (u := 1) (capU := cap) true T (H + cap) (push_rest cap data size type (record_size size) (u64 H) (u64 T)).
Proof.
  intros Hv Hnull Hrc HT0 HHT Hidx. destruct (push_args_spec _ _ _ Hv) as (Hsz & Hty & Hpay). specialize (Hpay Hnull).
  pose proof (record_size_bounds size Hsz) as [Hrs _].
  unfold sizeof_RecordHeader in Hrs. pose proof (proj1 Hcap) as Hc. unfold push_rest.
  rewrite sub64_u64 by lia. case_if; [lia|]. unfold umod. case_if; [lia|].
  pose proof (room_range cap Hcap T) as HR.
  rewrite remaining_eq by (lia || done). rewrite u64_mod by (lia || done).
  assert (Ha : forall a b, 0 <= a -> 0 <= b -> a + b < 2 ^ 64 -> add64 a b = a + b)
    by (intros; unfold add64; apply u64_small; lia).
  rewrite !(Ha (T - H)) by lia. cbv zeta.
  destruct (room cap T <? sizeof_RecordHeader) eqn:E1; bool_to_prop.
  - case_if; [done|]. apply (stretch_publish T _ (room cap T)); lia.
  - rewrite (Ha (T - H + room cap T)) by lia. destruct (room cap T <? record_size size) eqn:E2; bool_to_prop.
    + case_if; [done|]. rewrite Z.geb_leb. case_if; [|lia].
      apply (stretch_header T _ T (room cap T)); [lia | lia | lia | done |].
      apply (stretch_publish T _ (room cap T)); lia.
    + case_if; [done|]. unfold sizeof_RecordHeader in E1.
      apply (stretch_header T _ T (record_size size)); [lia | lia | lia | unfold sizeof_RecordHeader; lia |].
      apply (stretch_payload T _ T (record_size size)); [lia | lia | lia | lia | done | done
        | unfold sizeof_RecordHeader; lia |].
      intros sq. apply (stretch_write T _ T (record_size size)); [lia | lia | lia | done | done | |].
      * rewrite length_le_enc. unfold off_sequence. lia.
      * apply (stretch_publish T _ (record_size size)); lia.
Qed.

(** ** The bytes of a pop *)

(** Reading inside the published stretch from [H] to [T], which holds [m0]. *)
Section Published.
Context (m0 : list byte) (H T : Z).
Abbreviation reads_in := (reads_in (u := 1) (capU := cap) m0 H T).

Lemma published_read {A} off n (k : list byte -> prog A) :
  0 <= off -> 0 < n -> off + n <= room cap H -> H + off + n <= T ->
  reads_in (k (rbytes cap m0 (H + off) n)) -> reads_in (Read (H mod cap + off) n k).
Proof.
  intros Ho Hn Hr HT Hk. unfold room in Hr. pose proof (proj1 Hcap).
  simpl. exists (H + off). rewrite !Z.mul_1_r. rewrite mod_add_small by lia. split_and!; auto; lia.
Qed.

Lemma published_uint {A} off n (k : Z -> prog A) :
  0 <= off -> (0 < n)%nat -> off + Z.of_nat n <= room cap H -> H + off + Z.of_nat n <= T ->
  reads_in (k (le_dec (rbytes cap m0 (H + off) (Z.of_nat n)))) -> reads_in (read_uint (H mod cap + off) n k).
Proof. intros. apply published_read; auto; lia. Qed.

Lemma published_memcpy {A} off n (k : list byte -> prog A) :
  0 <= off -> off + Z.of_nat n <= room cap H -> H + off + Z.of_nat n <= T ->
  reads_in (k (rbytes cap m0 (H + off) (Z.of_nat n))) -> reads_in (memcpy_from (H mod cap + off) n k).
Proof.
  revert off k. induction n as [|n IH]; intros off k Ho Hr HT Hk; [done|].
  apply published_read; [done | lia | lia | lia |].
  replace (H mod cap + off + 1) with (H mod cap + (off + 1)) by lia. apply IH; [lia | lia | lia |].
  rewrite Z.add_assoc, <- rbytes_app by lia. by replace (1 + Z.of_nat n) with (Z.of_nat (S n)) by lia.
Qed.

(** However the new head is published. *)
Context (advance : Z -> prog (option popped) -> prog (option popped)).
Context (published_advance : forall d r, 0 <= d -> H + d <= T -> reads_in (advance (u64 (H + d)) (Ret r))).

(** Copying out a record. *)
Lemma copy_out_reads out (sq : option Z) x (Hrec : is_record cap m0 H x) (HT : H + msize x <= T) :
  let pos := H mod cap in
  let finish out :=
    let! type := read_uint (pos + off_type) 2 in
    let return_true sequence :=
      do! advance (u64 (H + msize x)) in
      Ret (Some (mkPopped true out type sequence)) in
    match sq with
    | Some _ => let! sq := read_uint (pos + off_sequence) 8 in return_true (Some sq)
    | None => return_true None
    end in
  forall grown : list byte,
  reads_in
    (if Z.of_nat (length (m_payload x)) >? 0
     then memcpy_from (pos + sizeof_RecordHeader) (length (m_payload x)) (fun bs => finish (copy_front out bs))
     else finish grown).
Proof.
  intros pos finish grown. pose proof (is_record_msize _ _ _ _ Hrec) as Hms.
  unfold sizeof_RecordHeader in Hms.
  assert (Hfin : forall out, reads_in (finish out)).
  { intros out'. apply published_uint; unfold off_type; [lia.. |].
    destruct sq; [apply published_uint; unfold off_sequence; [lia.. |]|]; apply published_advance; lia. }
  case_if; [|apply Hfin]. apply published_memcpy; unfold sizeof_RecordHeader; [lia.. | apply Hfin].
Qed.

Lemma pop_rest_reads out type sq o d :
  0 <= H -> idx_ok cap H -> front cap m0 H o d -> H + d <= T -> T <= H + cap ->
  reads_in (pop_rest advance cap out type sq (u64 T) (u64 H)).
Proof.
  intros HH Hidx Hf HT Hle. pose proof (proj1 Hcap) as Hc. pose proof (front_pos _ Hcap _ _ _ _ Hf) as Hd.
  unfold pop_rest. case_if; [done|]. unfold umod. case_if; [lia|].
  rewrite remaining_eq, u64_mod, add64_u64 by (done || lia). destruct Hf as [Hw | x Hrec].
  - case_if; [apply published_advance; lia|]. destruct Hw as [?|[Hr Hw]]; [lia|]. unfold sizeof_RecordHeader in Hr.
    apply published_uint; unfold off_flags; [lia.. |].
    unfold is_wrap, at_flags, off_flags in Hw. apply Z.eqb_neq in Hw.
    change (Z.of_nat 2) with 2. rewrite Hw. apply published_advance; lia.
  - pose proof (is_record_msize _ _ _ _ Hrec) as Hms. pose proof (ir_len _ _ _ _ Hrec) as Hlen.
    pose proof (msize_bounds x Hlen) as [Hmb _].
    case_if; [lia|]. unfold sizeof_RecordHeader in Hms.
    apply published_uint; unfold off_flags; [lia.. |].
    pose proof (ir_flags _ _ _ _ Hrec) as Hfl. unfold at_flags, off_flags in Hfl. change (Z.of_nat 2) with 2. rewrite Hfl.
    apply published_uint; unfold off_size; [lia.. |].
    pose proof (ir_size _ _ _ _ Hrec) as Hsz. unfold at_size, off_size in Hsz. change (Z.of_nat 4) with 4. rewrite Hsz.
    replace (add64 sizeof_RecordHeader (Z.of_nat (length (m_payload x)))) with
      (sizeof_RecordHeader + Z.of_nat (length (m_payload x)))
      by (unfold add64, sizeof_RecordHeader; rewrite u64_small; lia).
    rewrite add64_u64.
    change (align_up (sizeof_RecordHeader + Z.of_nat (length (m_payload x))) kAlignment) with (msize x).
    cbv zeta. case_if; [done|]. rewrite sub64_u64 by lia. case_if; [done|].
    rewrite Nat2Z.id. by apply copy_out_reads.
Qed.
End Published.

(** ** The calls *)

Abbreviation WInv := (tInv (md := One) (u := 1) (capU := cap) (Inv := Inv) (posH := gH) (posT := gT) (Ends := Ends)).
Abbreviation wrely := (trely (rely := rely)).
Abbreviation wwp o t Q := (wwp no_wrap WInv wrely o t (fun a s => Q a (sc s))).

Lemma ring_push_weak data size type sent s :
  push_args_ok data size type = true -> producer_knows sent (sc s) -> WInv s ->
  wwp (ring_orders (OPush data size type)) 1 (push_post sent (type, push_payload data size))
    (try_push cap data size type) s.
Proof.
  intros Hv Hk HI. destruct (push_args_spec _ _ _ Hv) as (Hsz & Hty & _). pose proof (proj1 Hcap) as Hc.
  unfold try_push. case_if; [by apply transfer_ret, spsc_push_unchanged|].
  assert (Hnull : data = None -> size = 0) by (intros ->; destruct_or?; bool_to_prop; done).
  replace (add64 sizeof_RecordHeader size) with (sizeof_RecordHeader + size)
    by (unfold add64, sizeof_RecordHeader; rewrite u64_small; lia).
  fold (record_size size). case_if; [by apply transfer_ret, spsc_push_unchanged|].
  apply producer_load_head; [done|]. intros s1 m1 c1 H s1' [Hr1 _] HI1 HIm1 Hsc1 HS1.
  apply (spsc_producer_knows_stable _ _ _ _ Hk) in Hr1 as Hk1.
  apply producer_load_tail. intros s2 m2 Hr2 HI2 HIm2 Hsc2.
  pose proof (SawHead_stable _ _ _ HS1 HIm1 HI2 Hr2) as HS2.
  destruct Hr2 as [Hr2 _]. rewrite Hsc1 in Hr2. destruct (spsc_producer_knows_stable _ _ _ _ Hk1 Hr2) as [<- Hsq].
  pose proof (i_pos _ _ (ti_sc _ HI2)) as Hp2. pose proof HS2 as (HH2 & HT2 & _). simpl in Hp2, HH2, HT2.
  eapply (producer_rest _ _ _ H); auto.
  - apply push_rest_writes; auto; [simpl; lia | apply (i_idx _ _ (ti_sc _ HI2))].
  - rewrite Hsc2. apply (push_rest_wp cap Hcap data size type H _ (sc s2)); auto; [|simpl; lia.. | apply HI2].
    unfold Own. by split_and!.
Qed.

Lemma ring_pop_weak out type sq pop s :
  Knows [] pop (sc s) -> WInv s ->
  wwp (ring_orders (OPop out type sq)) 0 (pop_post (Knows := Knows []) (Dry := Dry []) out sq pop)
    (try_pop_internal cap out type sq) s.
Proof.
  intros Hk HI. pose proof (proj1 Hcap) as Hc. change (try_pop_internal cap out type sq) with
    (pop_loop SpscRing.advance cap out type sq). unfold pop_loop.
  apply consumer_load_tail; [done|]. intros s1 m1 T [Hr1 _] HI1 HIm1 Hsc1 HS1.
  pose proof (spsc_Knows_stable _ _ _ _ _ Hk Hr1) as Hk1.
  apply consumer_load_head. intros s2 m2 Hr2 HI2 HIm2 Hsc2 Hle2.
  pose proof (SawTail_view _ _ _ (SawTail_stable _ _ _ HS1 HI2 Hr2) HIm2 Hle2) as HS2.
  destruct Hr2 as [Hr2 _]. rewrite Hsc1 in Hr2. pose proof (spsc_Knows_stable _ _ _ _ _ Hk1 Hr2) as Hk2.
  pose proof (i_pos _ _ (ti_sc _ HI2)) as Hp2. pose proof (i_idx _ _ (ti_sc _ HI2)) as Hi2.
  pose proof HS2 as (Hin & HT2 & _). simpl in HT2, Hp2, Hi2. set (H := gH s2.2.2) in *.
  assert (Hidx : idx_ok cap H) by (eapply idx_ok_le; [|exact Hi2]; lia).
  apply list_elem_of_lookup in Hin as [i Hi].
  destruct (Forall_lookup_1 _ _ _ _ (ti_ends _ HI2) Hi) as [_ Hseg]. simpl in Hseg. fold H in Hseg.
  assert (Hcase : H = T /\ Dry [] pop \/ exists o d, H + d <= T /\ Seen cap [] H pop o d (sc s2)).
  { destruct (decide (H = T)) as [|Hne]; [left; split; [done | unfold Dry; simpl; lia]|right].
    destruct Hseg as [xs Hx]; [lia|].
    destruct (seg_front _ Hcap _ _ _ _ Hx Hne) as (o & d & ys & Hf & Hd & _).
    exists o, d. split; [done|]. unfold Seen. split_and!; [done | done | simpl; lia | done]. }
  eapply (consumer_rest _ _ _ T); auto.
  - rewrite Hsc2. destruct Hcase as [[<- _]|(o & d & Hd & (_ & _ & _ & Hf))].
    + unfold pop_rest. by rewrite Z.eqb_refl.
    + eapply pop_rest_reads; eauto; [|simpl; lia..]. intros d' r ? ?. simpl. exists (H + d'). split_and!; done || lia.
  - rewrite Hsc2. apply (pop_rest_wp (Hrc := spsc_consumer cap Hcap [])); auto; [apply HI2 | lia | lia].
Qed.

(** ** All executions *)

Definition wP (t : nat) (l : list (op * res)) (s : wmem * (chan * ghost)) : Prop := P [] 0 t l (sc s).

Lemma wring_P_stable t l s s' : wP t l s -> wrely t s s' -> WInv s' -> wP t l s'.
Proof. intros HP [Hr _] HI. by eapply (spsc_P_stable cap), HI. Qed.

Lemma wring_body_ok t o l s :
  role t o = true -> wP t l s -> WInv s ->
  WeakMemory.wwp no_wrap WInv wrely (ring_orders o) t (wpost wP t o l) (body cap o) s.
Proof.
  intros Hrole HP HI. destruct t as [|[|t]], o; try done; unfold body; apply wwp_pmap.
  - destruct HP as (pop & Hk & Hl & HU & HD). eapply wwp_mono; [|by apply (ring_pop_weak out type sequence pop)].
    intros o s' Hp. pose proof (pop_history 0 out type sequence l pop o (sc s') Hl HU HD Hp) as Hc.
    destruct o; unfold wpost, wP; simpl in *; [done | by rewrite app_nil_r in Hc].
  - eapply wwp_mono; [|by apply ring_push_weak].
    intros [b|] s'; unfold push_post, wpost, wP, P, pushed; simpl; [|by rewrite app_nil_r].
    rewrite omap_app. simpl. by destruct b.
Qed.

Lemma wring_tick_ok d m g : 0 <= d -> no_wrap (flat m) (flat (w_tick d m)) -> WInv (m, g) ->
  WInv (w_tick d m, g) /\ forall t, wrely t (m, g) (w_tick d m, g).
Proof.
  intros Hd Ha HI. destruct (spsc_tick_ok cap d (flat m) g.2 Hd Ha (ti_sc _ HI)) as [HI' Hr]. by apply t_tick.
Qed.

Lemma wring_reach s c :
  fresh cap s -> wreach (body cap) ring_orders role no_wrap s c ->
  exists g, wconfig_ok ring_orders role no_wrap WInv wrely wP c g.
Proof.
  intros Hf Hr. pose proof (proj1 Hcap). destruct Hf as [Hctl Hlen] eqn:E.
  apply (wrg_sound (body cap) ring_orders role no_wrap WInv wrely wP wring_P_stable wring_body_ok wring_tick_ok
    s (fresh_chan cap, mkGhost 0 0 [] [])); [| |exact Hr].
  - apply single_fresh; try done; [unfold load; by rewrite Hctl | unfold load; by rewrite Hctl | by apply spsc_fresh_Inv |].
    apply Forall_singleton. split; [done|]. intros _. exists []. constructor.
  - intros t. unfold wP, sc. cbn [fst snd]. rewrite flat_of. by apply (spsc_fresh_P cap).
Qed.
End Ring.

(** C2: [SharedRingBufferSPSC] with the memory orders of the source, on release/acquire
    memory.  In every execution of one producer and one consumer on a fresh ring whose
    tail counter does not wrap (no restriction when the capacity divides [2^64]),
    loads returning stale values wherever C++ allows it: no access to a record is a
    data race or out of bounds; the popped messages are, in order, a prefix of the
    pushed ones, delivered with their type, payload and consecutive sequence numbers;
    a refused pop leaves the caller's vector as it was. *)
Theorem spsc_ring_weak cap s c :
  cap_ok cap -> fresh cap s -> wreach (body cap) ring_orders role (no_wrap cap) s c ->
  wc_race c = false /\ wc_fault c = false /\
  exists pub popd rest, pub = popd ++ rest /\ numbered pub /\
    (wc_thr c !! 1%nat = None -> pushed (tlog 1 (wc_log c)) = msg_key <$> pub) /\
    (wc_thr c !! O = None ->
       Forall2 (fun e x => delivers e.1.1 e.1.2 e.2 x) (pops (tlog 0 (wc_log c))) popd /\
       untouched (tlog 0 (wc_log c))).
Proof.
  intros Hc Hf Hr. destruct (wring_reach cap Hc s c Hf Hr) as (g & Hfl & Hra & HI & Ht).
  split_and!; [done | done |]. destruct (i_seg _ _ (ti_sc _ HI)) as (xs & _ & Hp). simpl in Hp.
  exists (gpub g.2), (gpop g.2), xs. split_and!; [done | apply (ti_sc _ HI) | |]; intros Hidle.
  - specialize (Ht 1%nat). rewrite Hidle in Ht. by destruct Ht as [<- _].
  - specialize (Ht O). rewrite Hidle in Ht. by destruct Ht as (? & (<- & _) & ? & ? & _).
Qed.

(** A message, with a pop before it and two after it.  The first of these still finds
    the old tail; the second reads the record. *)
Definition rstep (t : nat) (ch : list nat) : @wact op := WStep t ch false.
Definition ring_demo : list (@wact op) :=
  [WStart 1 (OPush (Some [x61; x62]) 2 7)] ++ [rstep 1 [0%nat]; rstep 1 [0%nat]] ++ replicate 11 (rstep 1 []) ++
  [WStart 0 (OPop [] 0 (Some 0))] ++ [rstep 0 [0%nat]; rstep 0 [0%nat]; rstep 0 []] ++
  [WStart 0 (OPop [] 0 (Some 0))] ++ [rstep 0 [1%nat]; rstep 0 [0%nat]] ++
    [rstep 0 (replicate 2 1%nat); rstep 0 (replicate 4 1%nat); rstep 0 [1%nat]; rstep 0 [1%nat];
     rstep 0 (replicate 2 1%nat); rstep 0 (replicate 8 2%nat)] ++ replicate 3 (rstep 0 []).

Definition ring_after : wconfig := wafter (body 64) ring_orders role ring_demo (winit ring64).

Lemma spsc_ring_weak_witness :
  pops (tlog 0 (wc_log ring_after)) = [([], Some 0, mkPopped true [x61; x62] 7 (Some 1))] /\
  wc_race ring_after = false /\ wc_fault ring_after = false /\
  exists pub popd rest, pub = popd ++ rest /\ numbered pub /\
    (wc_thr ring_after !! 1%nat = None -> pushed (tlog 1 (wc_log ring_after)) = msg_key <$> pub) /\
    (wc_thr ring_after !! O = None ->
       Forall2 (fun e x => delivers e.1.1 e.1.2 e.2 x) (pops (tlog 0 (wc_log ring_after))) popd /\
       untouched (tlog 0 (wc_log ring_after))).
Proof.
  split; [vm_compute; reflexivity|]. apply (spsc_ring_weak 64 ring64 ring_after cap_ok_64); [by split|].
  apply (wrun_checked_after _ _ _ _ (fun _ _ => true)); [intros; by left; exists (2 ^ 58) | vm_compute; reflexivity].
Defined.
