(* ===== verification/WeakShared.v ===== *)
(** * The MPSC and MPMC rings with the memory orders of the source

    The shared push of ring_writer.hpp, and the pops of the MPSC ring and of the MPMC
    ring with one consumer, on the release/acquire memory of [WeakMemory].  A producer
    that reserves a stretch by its compare-exchange has claimed it; it learns by its
    acquire load of the head that the bytes are free, and by its acquire load of the
    tail that all producers before it have published.  The stale values that it may
    have read before only make the compare-exchange fail. *)

From Stdlib Require Import ZArith Lia Strings.Byte.
From stdpp Require Import base list numbers gmap functions.
From S2P Require Import Prelude Memory Layout Prog Records Owner RingWriter OneConsumer MpscRing MpmcRing.
From S2P Require Import WeakMemory WeakChannel WeakTransfer WeakRing.

(** The orders of the shared push: the compare-exchange of tail_reserve is acq_rel, its
    failure and the load before it are relaxed, the read-modify-write of sequence is
    relaxed. *)
Definition push_orders : orders :=
  Orders (only [FHeadPublish; FTailPublish]) (only [FTailPublish]) (only [FTailReserve]) (only [FTailReserve]).

Definition mpsc_orders (o : op) : orders :=
  match o with
  | OPush _ _ _ => push_orders
  | OPop _ _ _ => Orders (only [FTailPublish]) (only [FHeadPublish]) (only []) (only [])
  end.

Definition mpmc_orders (o : op) : orders :=
  match o with
  | OPush _ _ _ => push_orders
  | OPop _ _ _ => Orders (only [FTailPublish; FHeadPublish]) (only [FHeadPublish]) (only [FHeadReserve]) (only [FHeadReserve])
  end.

Section Shared.
Context (cap : Z) (Hcap : cap_ok cap).
Abbreviation Inv := (RingWriter.Inv cap).
Abbreviation rely := (RingWriter.rely cap).
Abbreviation no_wrap := RingWriter.no_wrap.

(** Every position of the tail that the head has not passed ends a record. *)
Definition SharedEnds (l : list Z) (s : shared * ghost) : Prop :=
  Forall (fun T => T <= gTp s.2 /\ (gH s.2 <= T -> exists xs, seg cap (ring s.1) (gH s.2) T xs)) l.

Lemma shared_pos s : Inv s -> 0 <= gH s.2 <= gTp s.2 /\ gTp s.2 <= gTr s.2 <= gH s.2 + cap /\ gTr s.2 < 2 ^ 64.
Proof.
  intros HI. pose proof (i_pos _ _ HI) as (? & ? & ?). pose proof (chain_le _ _ _ (i_chain _ _ HI)). lia.
Qed.

#[local] Instance shared_system : ChannelSystem Many 1 cap no_wrap Inv rely gH gTp SharedEnds.
Proof.
  pose proof (proj1 Hcap). split.
  - lia.
  - lia.
  - intros t. apply wr_rely_pre.
  - intros s HI. pose proof (i_len _ _ HI). lia.
  - intros s HI. apply HI.
  - intros s HI. apply HI.
  - intros s HI. pose proof (shared_pos _ HI). lia.
  - intros s _ HI. exists (gTr s.2). pose proof (shared_pos _ HI). split; [apply HI | lia].
  - intros s s' (HH & _). done.
  - intros s s' x _ (_ & _ & _ & _ & _ & Hb) _ Hx. rewrite !Z.mul_1_r in *. apply Hb. lia.
  - intros s s' (_ & _ & _ & HH & _) HI HI' Hl. split; [|done].
    pose proof (shared_pos _ HI). pose proof (shared_pos _ HI').
    rewrite (i_tp _ _ HI), (i_tp _ _ HI') in Hl. rewrite !u64_small in Hl by lia. done.
  - intros t l s s' Ht HE HI Hr HI'. eapply Forall_impl; [|exact HE]. intros T [HT Hs]. cbv beta.
    destruct t as [|[|t]]; [| |lia].
    + destruct Hr as (HH & _ & ? & _ & _ & Hb). rewrite HH. split; [lia|]. intros Hle.
      destruct (Hs Hle) as [xs Hx]. exists xs. eapply seg_ext; [done | done |]. intros y Hy. apply Hb. lia.
    + destruct Hr as (_ & _ & _ & HH & HT' & _ & _ & Hk). split; [lia|]. intros Hle.
      destruct (Hs ltac:(lia)) as [xs Hx]. by apply (Hk T xs).
  - intros l s HE HI. apply Forall_app. split; [done|]. apply Forall_singleton. split; [done|]. intros _.
    destruct (i_seg _ _ HI) as (xs & Hx & _). eauto.
Qed.

(** ** The bytes of a push *)

Abbreviation fills turn lo hi := (writes_in (md := Many) (u := 1) (capU := cap) turn lo hi).

(** What a push does with its record at [pos] and the stretch of [pad] bytes and the
    record that it has reserved at [T]. *)
Definition filled (data : option (list byte)) (size type T pad pos : Z) : prog (option bool) :=
  do! write_header pos (mkRecordHeader size type 0 0) in
  let publish :=
    do! Await FTailPublish T in
    let! sq := FetchAdd FSequence 1 in
    do! write_uint (pos + off_sequence) 8 (add64 sq 1) in
    do! Store FTailPublish (add64 (add64 T pad) (record_size size)) in
    Ret (Some true) in
  if size >? 0 then memcpy_in (pos + sizeof_RecordHeader) data size publish else publish.

Definition reserved (data : option (list byte)) (size type T pad : Z) (wrap : bool) : prog (option bool) :=
  if pad >? 0 then
    if wrap && (pad >=? sizeof_RecordHeader)
    then write_header (T mod cap) wrap_header (filled data size type T pad 0) else filled data size type T pad 0
  else filled data size type T pad (T mod cap).

Lemma shared_fill_writes data size type T pad :
  push_args_ok data size type = true -> (data = None -> size = 0) -> 0 <= pad ->
  record_size size <= room cap (T + pad) -> 0 <= T -> T + (pad + record_size size) < 2 ^ 64 ->
  fills false T (T + (pad + record_size size)) (filled data size type T pad ((T + pad) mod cap)).
Proof.
  intros Hv Hnull Hpad Hroom HT0 Hsmall. destruct (push_args_spec _ _ _ Hv) as (Hsz & Hty & Hpay). specialize (Hpay Hnull).
  pose proof (record_size_bounds size Hsz) as [Hrs _]. unfold sizeof_RecordHeader in Hrs. unfold filled.
  apply (stretch_header cap Hcap T _ (T + pad) (record_size size)); [lia.. | unfold sizeof_RecordHeader; lia |].
  apply (stretch_payload cap Hcap T _ (T + pad) (record_size size));
    [lia | lia | lia | lia | done | done | unfold sizeof_RecordHeader; lia |].
  split_and!; [done | by rewrite u64_small by lia | lia | lia |]. intros sq.
  apply (stretch_write cap Hcap T _ (T + pad) (record_size size)); [lia.. | done | done | |].
  - rewrite length_le_enc. unfold off_sequence. lia.
  - split; [by right|]. exists (T + (pad + record_size size)). unfold add64. rewrite u64_add_l, Z.add_assoc. split_and!; done || lia.
Qed.

Lemma reserved_writes data size type T pad wrap :
  push_args_ok data size type = true -> (data = None -> size = 0) -> record_size size <= cap ->
  padding_of cap T (record_size size) = (pad, wrap) -> 0 <= T -> T + (pad + record_size size) < 2 ^ 64 ->
  fills false T (T + (pad + record_size size)) (reserved data size type T pad wrap).
Proof.
  intros Hv Hnull Hrc Hpad HT0 Hsmall. pose proof (room_range cap Hcap T) as HR.
  pose proof (push_args_spec _ _ _ Hv) as (Hsz & _).
  pose proof (record_size_bounds size Hsz) as [Hrs _]. unfold sizeof_RecordHeader in Hrs.
  assert (Hroom0 : room cap (T + room cap T) = cap) by (unfold room at 1; rewrite room_end; auto; lia).
  unfold reserved, padding_of in *. destruct (room cap T <? sizeof_RecordHeader) eqn:E1; bool_to_prop.
  - injection Hpad as <- <-. rewrite (proj2 (Z.gtb_lt _ _)) by lia. cbn [andb].
    rewrite <- (room_end cap Hcap T). apply shared_fill_writes; auto; lia.
  - destruct (room cap T <? record_size size) eqn:E2; bool_to_prop; injection Hpad as <- <-.
    + rewrite (proj2 (Z.gtb_lt _ _)) by lia. rewrite Z.geb_leb, (proj2 (Z.leb_le _ _)) by lia. cbn [andb].
      apply (stretch_header cap Hcap T _ T (room cap T)); [lia.. | done |].
      rewrite <- (room_end cap Hcap T). apply shared_fill_writes; auto; lia.
    + change (0 >? 0) with false. cbv iota. replace (T mod cap) with ((T + 0) mod cap) by (f_equal; lia).
      apply shared_fill_writes; auto; [lia | rewrite Z.add_0_r; lia].
Qed.
(** ** The push *)

Abbreviation WInv := (tInv (md := Many) (u := 1) (capU := cap) (Inv := Inv) (posH := gH) (posT := gTp) (Ends := SharedEnds)).
Abbreviation wrely := (trely (rely := rely)).
Abbreviation wwp o t Q := (wwp no_wrap WInv wrely o t (fun a s => Q a (sc s))).

(** Thread [t] has seen the head [H]. *)
Definition SawFree (t : nat) (H : Z) (s : wmem * (chan * ghost)) : Prop :=
  0 <= H /\ (vf (w_views s.1 t) FHeadPublish < length (hs s.2.1))%nat /\
  H <= pos (hs s.2.1) (vf (w_views s.1 t) FHeadPublish).

Lemma SawFree_stable t H s s' : SawFree t H s -> wrely t s s' -> SawFree t H s'.
Proof.
  intros (H0 & Hb & Hp) (_ & Hv & _ & Hh & _). unfold SawFree. rewrite Hv.
  by destruct (pos_prefix _ _ _ Hh Hb) as [-> ?].
Qed.

Lemma SawFree_view t H s m :
  SawFree t H s -> WInv (m, s.2) -> view_le (w_views s.1 t) (w_views m t) -> SawFree t H (m, s.2).
Proof.
  intros (H0 & Hb & Hp) HI (Hle & _ & _). specialize (Hle FHeadPublish). pose proof (ti_v _ HI) as HV.
  destruct (v_thread_bound _ _ _ _ t HV) as [Hb' _]. pose proof (proj1 (v_mono _ _ _ _ HV) _ _ (conj Hle Hb')).
  unfold SawFree. cbn [fst snd] in *. split_and!; [done | done | lia].
Qed.

Lemma shared_load_head {A} o t (Q : A -> shared * ghost -> Prop) k s :
  acquires o FHeadPublish = true ->
  (forall s1 m H, wrely t s s1 -> WInv s1 -> WInv (m, s1.2) -> sc (m, s1.2) = sc s1 -> SawFree t H (m, s1.2) ->
     wwp o t Q (k (u64 H)) (m, s1.2)) ->
  wwp o t Q (Load FHeadPublish k) s.
Proof.
  intros Ho Hk s1 Hr HI i v m L. assert (HL : loads_ok s1.1 (acquires o FHeadPublish) t FHeadPublish) by (by left).
  destruct (t_load _ t FHeadPublish i v m s1 HI HL L) as (HIm & Hsc & _ & _ & Hi & Hlt & Hv & _).
  eapply t_load_step; [done | exact HL | exact L |]. rewrite Hv by done. apply Hk; auto.
  pose proof (ti_v _ HIm) as HV. destruct (v_lengths _ _ _ _ (ti_v _ HI)) as [Hl _]. rewrite Hl in Hlt.
  destruct (v_thread_bound _ _ _ _ t HV) as [Hb _]. pose proof (proj1 (v_mono _ _ _ _ HV)) as Hm.
  destruct (v_start _ _ _ _ HV) as [H0 _]. cbn [fst snd] in *. pose proof (Hm O i ltac:(lia)). pose proof (Hm _ _ (conj (proj2 Hi) Hb)).
  unfold SawFree. cbn [fst snd]. split_and!; lia || done.
Qed.

(** A load of tail_reserve, or a failed compare-exchange, may return any old value. *)
Lemma shared_load_reserve {A} o t (Q : A -> shared * ghost -> Prop) k s :
  (forall s1 m v, wrely t s s1 -> WInv s1 -> WInv (m, s1.2) -> sc (m, s1.2) = sc s1 ->
     view_le (w_views s1.1 t) (w_views m t) -> wwp o t Q (k v) (m, s1.2)) ->
  wwp o t Q (Load FTailReserve k) s.
Proof.
  intros Hk s1 Hr HI i v m L.
  assert (HL : loads_ok s1.1 (acquires o FTailReserve) t FTailReserve) by (by right; left).
  destruct (t_load _ t FTailReserve i v m s1 HI HL L) as (HIm & Hsc & _ & Hle & _).
  eapply t_load_step; [done | exact HL | exact L |]. by apply Hk.
Qed.

(** The compare-exchange that reserves [pad + rec] bytes at [T]. *)
Lemma shared_reserve o t T H pad rec (Q : option bool -> shared * ghost -> Prop) k s :
  t <> O -> releases o FTailPublish = true -> acquires o FTailPublish = true ->
  WInv s -> own t (gres (sc s).2) = [] -> SawFree t H s -> load FTailReserve (flat s.1) = u64 T ->
  0 <= T < 2 ^ 64 -> 0 <= pad -> 0 < rec -> T + (pad + rec) <= H + cap ->
  (T + (pad + rec) < 2 ^ 64 -> fills false T (T + (pad + rec)) k) ->
  (forall s', Own t (mkResv t T pad rec false) (pub_by t (gpub (sc s).2)) (fun _ => True) None s' ->
     wp no_wrap Inv rely t Q k s') ->
  wchange no_wrap WInv wrely t s
    (w_rmw (rmw_acquires o FTailReserve) (rmw_releases o FTailReserve) t FTailReserve (add64 (u64 T) (pad + rec)) s.1)
    (wwp o t Q k).
Proof.
  intros Ht Hrel Hacq HI Hown (H0 & Hb & Hp) HT HT64 Hpad Hrec Hle Hin Hk. pose proof (proj1 Hcap) as Hc.
  pose proof (ti_v _ HI) as HV. pose proof (ti_mode _ HI) as HM. cbn [Mode] in HM.
  pose proof (many_small s eq_refl HI) as Hrv. pose proof (v_order _ _ _ _ HV) as Hord.
  rewrite (ti_head _ HI), (ti_tail _ HI) in Hord. pose proof (shared_pos _ (ti_sc _ HI)) as Hpos. simpl in Hpos.
  assert (ErT : rv s.2.1 = T) by (rewrite HT in HM; rewrite !u64_small in HM by lia; done).
  assert (EgT : gTr (sc s).2 = T).
  { pose proof (i_tr _ _ (ti_sc _ HI)) as Hr. simpl in Hr. rewrite HT in Hr. rewrite !u64_small in Hr by lia. done. }
  set (m := w_rmw _ _ _ _ _ _).
  assert (Hf : flat m = store FTailReserve (add64 (u64 T) (pad + rec)) (flat s.1)) by apply flat_rmw.
  assert (HVm : VInv 1 cap m s.2.1) by (by apply v_rmw_other; [lia | |]).
  assert (Hvo : forall t', t' <> t -> w_views m t' = w_views s.1 t') by (intros; simpl; by rewrite fn_lookup_insert_ne).
  assert (Hvt : (vf (w_views s.1 t) FHeadPublish <= vf (w_views m t) FHeadPublish)%nat).
  { simpl. rewrite fn_lookup_insert. simpl. lia. }
  destruct (v_thread_bound _ _ _ _ t HVm) as [Hbm _].
  pose proof (proj1 (v_mono _ _ _ _ HV) _ _ (conj Hvt Hbm)) as Hpm. pose proof (mono_top _ _ (proj1 (v_mono _ _ _ _ HV)) Hbm) as Htop.
  rewrite (ti_head _ HI) in Htop.
  set (c' := claim t T (T + (pad + rec)) s.2.1).
  assert (HVc : VInv 1 cap m c') by (apply v_claim_units; [lia | lia | done | done | lia | by left]).
  eapply (transfer_producer_change t s m c' _ _ (gTp s.2.2)); auto.
  - rewrite Hf. apply (wp_reserve cap Hcap t T pad rec (sc s)); auto; [apply HI | simpl; lia | exact Hk].
  - rewrite Hf, load_store_ne by done. apply (i_tp _ _ (ti_sc _ HI)).
  - lia.
  - unfold Mode. rewrite Hf, load_store_eq. by rewrite add64_u64.
  - intros t' ?. simpl. by rewrite fn_lookup_insert_ne.
  - apply (ti_tail _ HI).
  - intros g' HK HI'. pose proof (many_small _ eq_refl HI') as Hsm. cbn [fst snd c' claim rv] in Hsm.
    eapply (transfer_producer _ _ t k false T (T + (pad + rec))); auto; try done.
    + cbn [fst snd c' claim cl]. by rewrite fn_lookup_insert.
    + cbn [fst snd c' claim cl]. by rewrite fn_lookup_insert.
Qed.

Lemma padding_of_bounds T rs pad wrap : padding_of cap T rs = (pad, wrap) -> 0 <= pad <= cap.
Proof.
  pose proof (room_range cap Hcap T). unfold padding_of. intros E.
  destruct (room cap T <? sizeof_RecordHeader); [|destruct (room cap T <? rs)]; injection E as <- <-; lia.
Qed.

(** The push once the counters have been loaded: the tail [v] may be stale. *)
Definition shared_rest (data : option (list byte)) (size type H v : Z) : prog (option bool) :=
  let used := sub64 v (u64 H) in
  if used >? cap then Ret (Some false) else
  let '(pad, wrap) :=
    let remaining := sub64 cap (v mod cap) in
    if remaining <? sizeof_RecordHeader then (remaining, false)
    else if remaining <? record_size size then (remaining, true) else (0, false) in
  if add64 used (add64 pad (record_size size)) >? cap then Ret (Some false) else
  Cas true FTailReserve v (add64 v (add64 pad (record_size size)))
    (fun exchanged => if negb exchanged then Ret None else reserved data size type v pad wrap).

Lemma shared_rest_weak t data size type sent H v s :
  t <> O -> push_args_ok data size type = true -> (data = None -> size = 0) -> record_size size <= cap ->
  producer_knows t sent (sc s) -> SawFree t H s ->
  wwp push_orders t (push_post t sent (type, push_payload data size)) (shared_rest data size type H v) s.
Proof.
  intros Ht Hv Hnull Hrc Hk HS. destruct (push_args_spec _ _ _ Hv) as (Hsz & Hty & _).
  pose proof (record_size_bounds size Hsz) as [Hrs _]. unfold sizeof_RecordHeader in Hrs. pose proof (proj1 Hcap) as Hc.
  unfold shared_rest. cbv zeta. case_if; [by apply transfer_ret, wr_push_unchanged|].
  match goal with |- context [let '(_, _) := ?e in _] => destruct e as [pad wrap] eqn:Epad end.
  case_if; [by apply transfer_ret, wr_push_unchanged|].
  intros s3 Hr3 HI3. pose proof (SawFree_stable _ _ _ _ HS Hr3) as HS3.
  destruct Hr3 as [Hr3 _]. pose proof (wr_producer_knows_stable cap t _ _ _ Ht Hk Hr3) as Hk3. split.
  - intros i x m L _. assert (HL : loads_ok s3.1 (acquires push_orders FTailReserve) t FTailReserve) by (by right; left).
    eapply t_load_step; [done | exact HL | exact L |]. cbn [negb].
    destruct (t_load _ t _ i x m s3 HI3 HL L) as (_ & Hsc & _). apply transfer_ret. rewrite Hsc. by apply wr_push_unchanged.
  - rewrite <- load_flat. intros Heq. cbn [negb].
    pose proof (many_small _ eq_refl HI3) as Hsm. pose proof (ti_mode _ HI3) as HM. cbn [Mode] in HM.
    pose proof (v_order _ _ _ _ (ti_v _ HI3)) as Hord. pose proof (shared_pos _ (ti_sc _ HI3)) as Hpos. simpl in Hpos.
    rewrite (ti_head _ HI3), (ti_tail _ HI3) in Hord. set (T := rv s3.2.1) in *.
    assert (ET : v = T) by (rewrite <- Heq, HM; apply u64_small; lia). rewrite ET in Heq, Heqb, Heqb0, Epad |- *. clear ET v.
    pose proof HS3 as (H0 & Hb3 & Hp3). pose proof (mono_top _ _ (proj1 (v_mono _ _ _ _ (ti_v _ HI3))) Hb3) as Htop.
    rewrite (ti_head _ HI3) in Htop.
    assert (EuT : u64 T = T) by (apply u64_small; lia). rewrite <- EuT in Heqb, Heqb0 at 1.
    rewrite sub64_u64 in Heqb, Heqb0 by lia.
    assert (Erem : sub64 cap (T mod cap) = room cap T) by (rewrite <- EuT at 1; apply remaining_eq; (lia || done || by left)).
    rewrite !Erem in Epad.
    fold (padding_of cap T (record_size size)) in Epad. pose proof (padding_of_bounds _ _ _ _ Epad) as Hpad.
    assert (Ha : forall a b, 0 <= a -> 0 <= b -> a + b < 2 ^ 64 -> add64 a b = a + b)
      by (intros; unfold add64; apply u64_small; lia).
    rewrite (Ha pad) in Heqb0 |- * by lia. rewrite (Ha (T - H)) in Heqb0 by lia.
    rewrite <- EuT at 1. destruct Hk3 as [Ho3 <-].
    apply (shared_reserve push_orders t T H pad (record_size size)); auto; try lia.
    + intros Hs. apply reserved_writes; auto; lia.
    + intros s' HO. unfold reserved, filled. pose proof (push_reserved cap Hcap t data size type T pad wrap _ s' Ht Hv Hnull Hrc Epad HO) as Hw.
      cbv zeta in Hw. rewrite EuT in Hw. exact Hw.
Qed.

Lemma shared_push_weak t data size type sent s :
  t <> O -> push_args_ok data size type = true -> producer_knows t sent (sc s) -> WInv s ->
  wwp push_orders t (push_post t sent (type, push_payload data size)) (RingWriter.try_push cap data size type) s.
Proof.
  intros Ht Hv Hk HI. destruct (push_args_spec _ _ _ Hv) as (Hsz & Hty & _). pose proof (proj1 Hcap) as Hc.
  unfold RingWriter.try_push. case_if; [by apply transfer_ret, wr_push_unchanged|].
  assert (Hnull : data = None -> size = 0) by (intros ->; destruct_or?; bool_to_prop; done).
  replace (add64 sizeof_RecordHeader size) with (sizeof_RecordHeader + size)
    by (unfold add64, sizeof_RecordHeader; rewrite u64_small; lia).
  fold (record_size size). case_if; [by apply transfer_ret, wr_push_unchanged|].
  apply shared_load_head; [done|]. intros s1 m1 H [Hr1 _] HI1 HIm1 Hsc1 HS1.
  apply (wr_producer_knows_stable cap t _ _ _ Ht Hk) in Hr1 as Hk1.
  apply shared_load_reserve. intros s2 m2 v Hr2 HI2 HIm2 Hsc2 Hle2.
  pose proof (SawFree_view _ _ _ _ (SawFree_stable _ _ _ _ HS1 Hr2) HIm2 Hle2) as HS2.
  destruct Hr2 as [Hr2 _]. rewrite Hsc1 in Hr2. pose proof (wr_producer_knows_stable cap t _ _ _ Ht Hk1 Hr2) as Hk2.
  pose proof (shared_rest_weak t data size type sent H v (m2, s2.2) Ht Hv Hnull ltac:(lia)) as Hrest.
  rewrite Hsc2 in Hrest. specialize (Hrest Hk2 HS2). unfold shared_rest in Hrest. unfold umod.
  rewrite !(proj2 (Z.eqb_neq cap 0)) by lia. exact Hrest.
Qed.

(** ** The pops *)

(** What the consumer knows once it has seen the tail [T] and its own head. *)
Lemma shared_front T pop s :
  WInv s -> SawTail (posH := gH) (posT := gTp) T s -> Rests [] pop (sc s) ->
  0 <= gH s.2.2 <= T /\ T <= gH s.2.2 + cap /\ idx_ok cap (gH s.2.2) /\
  (gH s.2.2 = T /\ Dry [] pop \/ exists o d, gH s.2.2 + d <= T /\ Holds cap [] (gH s.2.2) (gH s.2.2) pop o d (sc s)).
Proof.
  intros HI (Hin & HT & _) [Hp Hr]. set (H := gH s.2.2). pose proof (shared_pos _ (ti_sc _ HI)) as Hpos. simpl in Hpos. fold H in HT, Hpos.
  split; [lia|]. split; [lia|]. split; [left; lia|].
  destruct (decide (H = T)) as [|Hne]; [left; split; [done | unfold Dry; simpl; lia]|right].
  apply list_elem_of_lookup in Hin as [i Hi]. destruct (Forall_lookup_1 _ _ _ _ (ti_ends _ HI) Hi) as [_ Hseg].
  destruct Hseg as [xs Hx]; [simpl; fold H; lia|].
  destruct (seg_front _ Hcap _ _ _ _ Hx Hne) as (o & d & ys & Hf & Hd & _).
  exists o, d. split; [done|]. split; [|done]. unfold Seen. simpl in Hd. fold H in Hd. split_and!; [done | done | simpl; lia | done].
Qed.

Lemma mpsc_pop_weak out type sq pop s :
  Rests [] pop (sc s) -> WInv s ->
  wwp (mpsc_orders (OPop out type sq)) 0 (pop_post (Knows := Rests []) (Dry := Dry []) out sq pop)
    (MpscRing.try_pop_internal cap out type sq) s.
Proof.
  intros Hk HI. change (MpscRing.try_pop_internal cap out type sq) with (pop_loop MpscRing.advance cap out type sq).
  unfold pop_loop. apply consumer_load_tail; [done|]. intros s1 m1 T [Hr1 _] HI1 HIm1 Hsc1 HS1.
  pose proof (Rests_stable _ _ _ _ _ Hk Hr1) as Hk1.
  apply consumer_load_head. intros s2 m2 Hr2 HI2 HIm2 Hsc2 Hle2.
  pose proof (SawTail_view _ _ _ (SawTail_stable _ _ _ HS1 HI2 Hr2) HIm2 Hle2) as HS2.
  destruct Hr2 as [Hr2 _]. rewrite Hsc1 in Hr2. pose proof (Rests_stable _ _ _ _ _ Hk1 Hr2) as Hk2.
  rewrite <- Hsc2 in Hk2. destruct (shared_front T pop _ HIm2 HS2 Hk2) as (HH & HT & Hidx & Hcase). cbn [snd] in *.
  eapply (consumer_rest _ _ _ T); auto.
  - destruct Hcase as [[<- _]|(o & d & Hd & [(_ & _ & _ & Hf) _])].
    + unfold pop_rest. by rewrite Z.eqb_refl.
    + apply (pop_rest_reads cap Hcap _ _ _ MpscRing.advance) with (o := o) (d := d); auto; [|cbn [snd]; lia].
      intros d' r ? ?. simpl. eexists. split_and!; done || lia.
  - apply (pop_rest_wp (Hrc := mpsc_consumer cap Hcap [])); auto. apply HIm2.
Qed.

(** *** The bytes of a pop of the MPMC ring *)

Section Published.
Context (m0 : list byte) (H T : Z).
Abbreviation reads_in := (reads_in (u := 1) (capU := cap) m0 H T).

Lemma release_reads {A} d (r : A) : 0 <= d -> H + d <= T ->
  reads_in (Await FHeadPublish (u64 H) (Store FHeadPublish (u64 (H + d)) (Ret r))).
Proof. intros Hd HT. simpl. exists (H + d). split_and!; auto; lia. Qed.

Lemma skip_reads d : 0 <= d -> H + d <= T ->
  reads_in (Cas true FHeadReserve (u64 H) (u64 (H + d)) (fun exchanged =>
    if negb exchanged then Ret None else
    do! Await FHeadPublish (u64 H) in
    do! Store FHeadPublish (u64 (H + d)) in Ret (A := option popped) None)).
Proof. intros Hd HT. split; [done|]. intros []; [by apply release_reads | done]. Qed.

Lemma mpmc_copy_reads out x : is_record cap m0 H x -> H + msize x <= T -> reads_in (copy_out cap H x out).
Proof.
  intros Hrec HT. pose proof (is_record_msize _ _ _ _ Hrec) as Hms. unfold sizeof_RecordHeader in Hms.
  assert (Hfin : forall out, reads_in (release cap H x out)).
  { intros out'. apply (published_uint cap Hcap); unfold off_type; [lia.. |].
    apply (published_uint cap Hcap); unfold off_sequence; [lia.. |]. apply release_reads; lia. }
  unfold copy_out. cbv zeta. destruct (_ >? 0); [|apply Hfin].
  apply (published_memcpy cap Hcap); unfold sizeof_RecordHeader; [lia.. | apply Hfin].
Qed.

Lemma mpmc_rest_reads out type q o d :
  0 <= H -> idx_ok cap H -> front cap m0 H o d -> H + d <= T -> T <= H + cap ->
  reads_in (MpmcRing.try_pop_rest cap out type q (u64 T) (u64 H)).
Proof.
  intros HH Hidx Hf HT Hle. pose proof (proj1 Hcap) as Hc. pose proof (front_pos _ Hcap _ _ _ _ Hf) as Hd.
  unfold MpmcRing.try_pop_rest. case_if; [done|]. unfold umod. case_if; [lia|].
  rewrite remaining_eq, u64_mod, !add64_u64, sub64_u64 by (done || lia). destruct Hf as [Hw | x Hrec].
  - rewrite (proj2 (Z.ltb_ge (T - H) (room cap H))) by lia. case_if; [apply skip_reads; lia|].
    destruct Hw as [?|[Hr Hw]]; [lia|]. unfold sizeof_RecordHeader in *. case_if; [done|].
    apply (published_uint cap Hcap); unfold off_flags; [lia.. |].
    unfold is_wrap, at_flags, off_flags in Hw. apply Z.eqb_neq in Hw.
    change (Z.of_nat 2) with 2. rewrite Hw. apply skip_reads; lia.
  - pose proof (is_record_msize _ _ _ _ Hrec) as Hms. pose proof (ir_len _ _ _ _ Hrec) as Hlen.
    pose proof (msize_bounds x Hlen) as [Hmb _].
    case_if; [lia|]. case_if; [done|]. unfold sizeof_RecordHeader in Hms.
    apply (published_uint cap Hcap); unfold off_flags; [lia.. |].
    pose proof (ir_flags _ _ _ _ Hrec) as Hfl. unfold at_flags, off_flags in Hfl. change (Z.of_nat 2) with 2. rewrite Hfl.
    apply (published_uint cap Hcap); unfold off_size; [lia.. |].
    pose proof (ir_size _ _ _ _ Hrec) as Hsz. unfold at_size, off_size in Hsz. change (Z.of_nat 4) with 4. rewrite Hsz.
    replace (add64 sizeof_RecordHeader (Z.of_nat (length (m_payload x)))) with
      (sizeof_RecordHeader + Z.of_nat (length (m_payload x)))
      by (unfold add64, sizeof_RecordHeader; rewrite u64_small; lia).
    change (align_up (sizeof_RecordHeader + Z.of_nat (length (m_payload x))) kAlignment) with (msize x).
    cbv zeta. case_if; [done|]. case_if; [done|]. split; [done|]. intros []; [|done].
    rewrite Nat2Z.id, add64_u64. by apply (mpmc_copy_reads out x).
Qed.
End Published.

Lemma mpmc_pop_weak out type q pop s :
  Rests [] pop (sc s) -> WInv s ->
  wwp (mpmc_orders (OPop out type (Some q))) 0 (pop_post (Knows := Rests []) (Dry := Dry []) out (Some q) pop)
    (MpmcRing.try_pop_seq cap out type q) s.
Proof.
  intros Hk HI. unfold MpmcRing.try_pop_seq.
  apply consumer_load_tail; [done|]. intros s1 m1 T [Hr1 _] HI1 HIm1 Hsc1 HS1.
  pose proof (Rests_stable _ _ _ _ _ Hk Hr1) as Hk1.
  apply consumer_load_own; [by right|]. intros s2 m2 Hr2 HI2 HIm2 Hsc2 Hle2.
  pose proof (SawTail_view _ _ _ (SawTail_stable _ _ _ HS1 HI2 Hr2) HIm2 Hle2) as HS2.
  destruct Hr2 as [Hr2 _]. rewrite Hsc1 in Hr2. pose proof (Rests_stable _ _ _ _ _ Hk1 Hr2) as Hk2.
  rewrite (proj2 Hk2). rewrite <- Hsc2 in Hk2.
  destruct (shared_front T pop _ HIm2 HS2 Hk2) as (HH & HT & Hidx & Hcase). cbn [snd sc] in *.
  eapply (consumer_rest _ _ _ T); auto.
  - destruct Hcase as [[<- _]|(o & d & Hd & [(_ & _ & _ & Hf) _])].
    + unfold MpmcRing.try_pop_rest. by rewrite Z.eqb_refl.
    + apply (mpmc_rest_reads _ _ _ out type q o d); auto; cbn [snd]; lia.
  - by apply mpmc_rest_wp.
Qed.

(** ** All executions *)

(** What both rings provide: the shared push, and a pop with its orders. *)
Class WeakConsumer (body : op -> prog (option res)) (ord : op -> orders) : Prop := {
  wk_push : forall data size type,
    body (OPush data size type) = pmap (option_map RPush) (RingWriter.try_push cap data size type);
  wk_orders : forall data size type, ord (OPush data size type) = push_orders;
  wk_pop : forall out type sq pop s, Rests [] pop (sc s) -> WInv s ->
    wwp (ord (OPop out type sq)) 0
      (fun o s' => exists p, o = option_map RPop p /\ pop_post (Knows := Rests []) (Dry := Dry []) out sq pop p s')
      (body (OPop out type sq)) s;
}.

#[export] Instance mpsc_weak : WeakConsumer (MpscRing.body cap) mpsc_orders.
Proof.
  split; [done | done |]. intros out type sq pop s Hk HI. apply wwp_pmap.
  eapply wwp_mono; [|by apply (mpsc_pop_weak out type sq pop)]. intros o s' Hp. by exists o.
Qed.

#[export] Instance mpmc_weak : WeakConsumer (MpmcRing.body cap) mpmc_orders.
Proof.
  split; [done | done |]. intros out type sq pop s Hk HI. unfold MpmcRing.body, MpmcRing.try_pop.
  destruct sq as [q|]; repeat apply wwp_pmap.
  - eapply wwp_mono; [|by apply (mpmc_pop_weak out type q pop)]. intros o s' Hp. by exists o.
  - eapply wwp_mono; [|by apply (mpmc_pop_weak out type 0 pop)]. intros o s' Hp. eexists. split; [done|].
    by apply without_seq_delivers in Hp.
Qed.

Section Executions.
Context {body : op -> prog (option res)} {ord : op -> orders} {Hwk : WeakConsumer body ord}.

Definition sP (t : nat) (l : list (op * res)) (s : wmem * (chan * ghost)) : Prop :=
  OneConsumer.P (Knows := Rests) [] 0 t l (sc s).

Lemma shared_P_stable t l s s' : sP t l s -> wrely t s s' -> WInv s' -> sP t l s'.
Proof. intros HP [Hr _] HI. by eapply (oc_P_stable (Hoc := mpsc_one_consumer cap Hcap)), HI. Qed.

Lemma shared_body_ok t o l s :
  role t o = true -> sP t l s -> WInv s ->
  WeakMemory.wwp no_wrap WInv wrely (ord o) t (wpost sP t o l) (body o) s.
Proof.
  intros Hrole HP HI. destruct t as [|t], o; try done.
  - destruct HP as (pop & Hk & Hl & HU & HD). eapply wwp_mono; [|by apply (wk_pop out type sequence pop)].
    intros o s' (p & -> & Hp). pose proof (pop_history 0 out type sequence l pop p (sc s') Hl HU HD Hp) as Hc.
    destruct p; unfold wpost, sP; simpl in *; [done | by rewrite app_nil_r in Hc].
  - rewrite wk_push, wk_orders. apply wwp_pmap. eapply wwp_mono; [|by apply shared_push_weak].
    intros [b|] s'; unfold push_post, wpost, sP, OneConsumer.P, pushed; simpl; [|by rewrite app_nil_r].
    rewrite omap_app. simpl. by destruct b.
Qed.

Lemma shared_tick_ok d m g : 0 <= d -> no_wrap (flat m) (flat (w_tick d m)) -> WInv (m, g) ->
  WInv (w_tick d m, g) /\ forall t, wrely t (m, g) (w_tick d m, g).
Proof.
  intros Hd Ha HI. destruct (wr_tick_ok cap d (flat m) g.2 Hd Ha (ti_sc _ HI)) as [HI' Hr]. by apply t_tick.
Qed.

Lemma shared_weak_reach s c :
  fresh cap s -> wreach body ord role no_wrap s c ->
  exists g, wconfig_ok ord role no_wrap WInv wrely sP c g.
Proof.
  intros Hf Hr. pose proof (proj1 Hcap). pose proof Hf as [Hctl Hlen].
  apply (wrg_sound body ord role no_wrap WInv wrely sP shared_P_stable shared_body_ok shared_tick_ok
    s (fresh_chan 0, g_init)); [| |exact Hr].
  - constructor; unfold sc; cbn [fst snd]; rewrite ?flat_of.
    + apply v_fresh; [unfold load; by rewrite Hctl | unfold load; by rewrite Hctl | lia | lia].
    + by apply wr_fresh_Inv.
    + done.
    + done.
    + apply Forall_singleton. split; [done|]. intros _. exists []. constructor.
    + unfold Mode. rewrite flat_of. unfold load. by rewrite Hctl.
  - intros t. unfold sP, sc. cbn [fst snd]. rewrite flat_of. destruct t as [|t]; simpl; [|by split].
    exists []. split_and!; [|constructor | constructor | intros; unfold Dry; simpl; lia].
    by apply (oc_fresh (OneConsumer := mpsc_one_consumer cap Hcap)).
Qed.

Lemma shared_weak_linear s c :
  fresh cap s -> wreach body ord role no_wrap s c ->
  wc_race c = false /\ wc_fault c = false /\
  exists pub popd rest, pub.*2 = popd ++ rest /\ attributed pub /\
    (forall t, wc_thr c !! S t = None ->
       pushed (tlog (S t) (wc_log c)) = msg_key <$> pub_by (S t) pub) /\
    (wc_thr c !! O = None ->
       Forall2 (fun e x => delivers e.1.1 e.1.2 e.2 x) (pops (tlog 0 (wc_log c))) popd /\
       untouched (tlog 0 (wc_log c))).
Proof.
  intros Hf Hr. destruct (shared_weak_reach s c Hf Hr) as (g & Hfl & Hra & HI & Ht).
  split_and!; [done | done |]. destruct (i_seg _ _ (ti_sc _ HI)) as (xs & _ & Hp). simpl in Hp.
  exists (gpub g.2), (gpop g.2), xs. split_and!; [done | apply (ti_sc _ HI) | |].
  - intros t Hidle. specialize (Ht (S t)). rewrite Hidle in Ht. by destruct Ht as [_ <-].
  - intros Hidle. specialize (Ht O). rewrite Hidle in Ht.
    destruct Ht as (pop & Hk & ? & ? & _). destruct Hk as [[Hk _] _]. simpl in Hk. by subst pop.
Qed.
End Executions.
End Shared.

(** C5: the MPSC ring, and the MPMC ring with one consumer, with the memory orders of
    the source on release/acquire memory.  In every execution of any number of
    producers and one consumer on a fresh ring that reserves fewer than [2^64] bytes,
    loads returning stale values wherever C++ allows it: no access to a record is a
    data race or out of bounds; the popped messages are a prefix of one publication
    order in which each producer's messages appear exactly once, in call order, and the
    sequence numbers count; a refused pop leaves the caller's vector as it was. *)
Theorem shared_rings_weak cap body ord s c :
  body = MpscRing.body /\ ord = mpsc_orders \/ body = MpmcRing.body /\ ord = mpmc_orders ->
  cap_ok cap -> fresh cap s -> wreach (body cap) ord role RingWriter.no_wrap s c ->
  wc_race c = false /\ wc_fault c = false /\
  exists pub popd rest, pub.*2 = popd ++ rest /\ attributed pub /\
    (forall t, wc_thr c !! S t = None ->
       pushed (tlog (S t) (wc_log c)) = msg_key <$> pub_by (S t) pub) /\
    (wc_thr c !! O = None ->
       Forall2 (fun e x => delivers e.1.1 e.1.2 e.2 x) (pops (tlog 0 (wc_log c))) popd /\
       untouched (tlog 0 (wc_log c))).
Proof.
  intros [[-> ->] | [-> ->]] Hc;
    [apply (shared_weak_linear cap Hc (Hwk := mpsc_weak cap Hc)) | apply (shared_weak_linear cap Hc (Hwk := mpmc_weak cap Hc))].
Qed.

(** Two producers overlap; the second one has loaded a stale tail_reserve, so that its
    first compare-exchange fails.  The consumer pops the first message, is refused
    because it still finds the old tail, and pops the second message. *)
Definition sstep (t : nat) (ch : list nat) : @wact op := WStep t ch false.
Definition pop_steps (tail head : nat) : list (@wact op) :=
  [sstep 0 [tail]; sstep 0 [head]; sstep 0 (replicate 2 1%nat); sstep 0 (replicate 4 1%nat); sstep 0 []; sstep 0 [1%nat];
   sstep 0 (replicate 2 1%nat); sstep 0 (replicate 8 2%nat); sstep 0 [head]; sstep 0 []; sstep 0 []].
Definition shared_demo : list (@wact op) :=
  [WStart 1 (OPush (Some [x61]) 1 7)] ++ [sstep 1 [0%nat]; sstep 1 [0%nat]; sstep 1 []] ++
  [WStart 2 (OPush (Some [x62]) 1 8)] ++ [sstep 2 [0%nat]; sstep 2 [0%nat]; sstep 2 [1%nat]; sstep 2 []] ++
    [sstep 2 [0%nat]; sstep 2 [1%nat]; sstep 2 []] ++ replicate 5 (sstep 2 []) ++
  replicate 5 (sstep 1 []) ++ [sstep 1 [0%nat]] ++ replicate 4 (sstep 1 []) ++
  [sstep 2 [1%nat]] ++ replicate 4 (sstep 2 []) ++
  [WStart 0 (OPop [] 0 (Some 0))] ++ pop_steps 1 0 ++
  [WStart 0 (OPop [] 0 (Some 0))] ++ [sstep 0 [1%nat]; sstep 0 [1%nat]; sstep 0 []] ++
  [WStart 0 (OPop [] 0 (Some 0))] ++ pop_steps 2 1.

Definition shared_after : wconfig := wafter (MpmcRing.body 64) mpmc_orders role shared_demo (winit ring64).

Lemma shared_rings_weak_witness :
  wc_log shared_after !! 2%nat = Some (0%nat, (OPop [] 0 (Some 0), RPop (mkPopped true [x61] 7 (Some 1)))) /\
  wc_log shared_after !! 4%nat = Some (0%nat, (OPop [] 0 (Some 0), RPop (mkPopped true [x62] 8 (Some 2)))) /\
  wc_race shared_after = false /\ wc_fault shared_after = false /\
  exists pub popd rest, pub.*2 = popd ++ rest /\ attributed pub /\
    (forall t, wc_thr shared_after !! S t = None ->
       pushed (tlog (S t) (wc_log shared_after)) = msg_key <$> pub_by (S t) pub) /\
    (wc_thr shared_after !! O = None ->
       Forall2 (fun e x => delivers e.1.1 e.1.2 e.2 x) (pops (tlog 0 (wc_log shared_after))) popd /\
       untouched (tlog 0 (wc_log shared_after))).
Proof.
  split; [vm_compute; reflexivity|]. split; [vm_compute; reflexivity|].
  apply (shared_rings_weak 64 MpmcRing.body mpmc_orders ring64 shared_after); [by right | apply cap_ok_64 | by split |].
  apply (wrun_checked_after _ _ _ _ monotone); [apply monotone_allowed | vm_compute; reflexivity].
Defined.
