(* ===== verification/WeakLatest.v ===== *)
(** * [SharedLatest] with the memory orders of the source

    The operations of [SharedLatest] on the release/acquire memory of [WeakMemory].
    Under sequential consistency a snapshot is never torn
    ([shared_latest_no_torn_reads]); with the memory orders of shared_latest.hpp this is
    lost.  [write] opens a write by a release store of the odd counter, and a release
    store orders what comes before it, not the copy of the value that follows: a reader
    may see bytes of the new value and still the old, even counter, twice. *)

From Stdlib Require Import ZArith Lia Strings.Byte.
From stdpp Require Import base list numbers gmap functions.
From S2P Require Import Prelude Memory Layout Prog SharedLatest WeakMemory.

(** The order of every access.  (The acquire fence between the copy and the second load
    of the counter has no effect on the views: the copy reads plain bytes.) *)
Definition latest_orders (o : lop) : orders :=
  match o with
  | LWrite _ _ => Orders (only []) (only [FSequence; FHeadReserve]) (only []) (only [FTailPublish])
  | LRead _ _ => Orders (only [FSequence]) (only []) (only []) (only [])
  | LReadRich _ _ _ => Orders (only [FSequence; FHeadReserve]) (only []) (only []) (only [])
  | LAlive _ => Orders (only [FHeadReserve]) (only []) (only []) (only [])
  | LClaim _ _ => Orders (only [FSequence; FHeadReserve]) (only [FSequence; FHeadReserve])
                    (only [FHeadReserve]) (only [FHeadReserve; FTailPublish])
  end.

Definition two_bytes : shared := mkShared (mkControl 0 0 0 0 0) [x00; x00] 0.

(** Thread 1 writes [01 01]; then it starts to write [02 02] and is about to write the
    second byte.  Thread 0 reads: the counter 2, the new first byte, the old second
    byte, and again the counter 2. *)
Definition lstep (t : nat) (ch : list nat) : @wact lop := WStep t ch false.
Definition torn_schedule : list (@wact lop) :=
  [WStart 1 (LWrite [x01; x01] false)] ++ [lstep 1 [0%nat]] ++ replicate 7 (lstep 1 []) ++
  [WStart 1 (LWrite [x02; x02] false)] ++ [lstep 1 [2%nat]] ++ replicate 2 (lstep 1 []) ++
  [WStart 0 (LRead [x00; x00] 1)] ++
    [lstep 0 [2%nat]; lstep 0 [2%nat]; lstep 0 [1%nat]; lstep 0 [2%nat]; lstep 0 []] ++
  replicate 5 (lstep 1 []).

(** C16: with the memory orders of the source, [try_read] of the slot can report success
    with a value that was never written: half of one write and half of the next.  The
    copy of the bytes is a data race, and even if the bytes were relaxed atomics the
    second load of the counter would not notice the write under way. *)
Theorem latest_torn_weak :
  exists c, wrun (lbody 2) latest_orders (lrole 2) torn_schedule (winit two_bytes) = Some c /\
    wc_race c = true /\ wc_fault c = false /\
    lwrites (tlog 1 (wc_log c)) = [[x01; x01]; [x02; x02]] /\
    lreads (tlog 0 (wc_log c)) = [(false, [x02; x01])].
Proof. eexists. split; [vm_compute; reflexivity | by vm_compute]. Qed.
